(* ===== verification/_CoqProject ===== *)
-Q . S2P
Prelude.v
ReadyQueue.v
Links.v
Heap.v
Frame.v
Core.v
Task.v
Spawn.v
When.v
Pool.v
Loop.v
LoopInv.v
LoopSpec.v
Event.v
WaitQueue.v
Fifo.v
Channel.v
ChannelOrder.v
Mailbox.v
Clients.v
Measure.v
Bench.v
Storage.v
Nops.v
Echo.v
Rx.v
Futex.v
Io.v
Run.v
RunSpec.v
RunLoop.v
Root.v
Checker.v
Scenario.v
LoopWitness.v
SyncWitness.v
Provided.v
Uring.v
UringSpec.v
UringPoll.v
UringSetup.v
Registered.v
Native.v
Kqueue.v
KqueueSpec.v
Iocp.v
IocpSpec.v
Hooks.v
Batch.v
Net.v
NetSpec.v
Offload.v
WriteAll.v
Stream.v
BatchDone.v
Multi.v
Receive.v
ZcSend.v
UringWitness.v
CoroWitness.v
NetWitness.v
NativeWitness.v
BatchWitness.v
StreamWitness.v
HookWitness.v
