(* ===== verification/Prelude.v ===== *)
(** * Snowy: a verification library for the coroutine runtime

    Snowy is a C++20 runtime: lazy tasks, single-threaded loops with a native queue
    behind them (io_uring, kqueue or a completion port), synchronisation inside a loop
    (events, channels) and across loops (mailboxes, futexes, hops), joins, a worker pool,
    and sockets, datagrams and files on top.  This library models that code as executable
    functions over an explicit memory and proves what each part promises.

    ** How the model is built

    A call is a function of type [M S A] (this file): it returns, throws with the side
    effects done so far, ends the process, or is undefined (a dangling pointer, an assert).
    [post] and [runs] are its specifications; [runs] means that the call returns.
    Memory is [Core.world]: one map per kind of object, addressed by location, with the
    fields of the C++ classes; intrusive lists are the [next]/[prev] fields themselves
    (ReadyQueue, Links).  Sizes and offsets are integers with the wrap-around of their type
    written out where the code computes with them.  Threads appear as the current thread
    of the world and as explicit interleavings.

    Code that is not part of the sources is reached through a class, with its documented
    behaviour in a second class that only proofs use: liburing ([Liburing], [LiburingOk]),
    the BSD kernel ([Kernel], [KernelOk]), Windows ([Windows], [WindowsOk]), the heap
    algorithms of the C++ library ([StdHeap]), the layout of multishot messages
    ([Recvmsg]), and the user's callbacks and coroutines ([Program], function arguments).
    The clock is a call of the interface; its reading is a function of the state.
    Each such class has a concrete instance in a witness file.

    ** Files

    - Prelude: errors, the monad, its rules and the shared lemmas on lists.
    - ReadyQueue, Links, Heap: detail/intrusive_queue.hpp, the doubly linked lists of
      waits, requests and awaiters, and the timer heap.
    - Core: the objects and the memory.  Loop, LoopInv, LoopSpec: the operations of
      loop.hpp and loop.cpp, the invariant [Inv] of a loop's lists against a ghost
      description, and the effect of each operation on it.  Run, RunSpec, RunLoop:
      [expire], message batches and [run].  Root: [spawn] and the root coroutine.
    - Event, WaitQueue, Futex: event.hpp, detail/wait_queue.hpp, futex.hpp.
    - Fifo, Channel, ChannelOrder, Mailbox: the bounded FIFO contract and the two classes
      that implement it (channel.hpp, mailbox.hpp).  Clients: the producer and consumer
      programs of bench/ and examples/, composed with the contract under any schedule.
      Measure: the threads of bench/mailbox.cpp, whose construction may fail.
    - Frame, Task, Spawn, When, Pool: detail/frame.hpp, task.hpp, spawn.hpp and
      sync_wait.hpp, when.hpp, pool.hpp and pool.cpp.
    - Io: detail/io.hpp over the interface [Driver], with [DriverOk] as what the portable
      code relies on.  Native: what the kqueue and completion-port backends share.
    - Uring, UringSpec, UringPoll, UringSetup: uring.cpp.  Kqueue, KqueueSpec: kqueue.cpp.
      Iocp, IocpSpec: iocp.cpp.
    - Registered: the tables and typed operations of uring_ops.cpp and uring_extra.cpp.
      Batch, BatchDone: the linked batches of uring_ops.cpp.  Hooks, ZcSend: zero-copy
      sends of uring_net.cpp.  Provided, Stream, Multi, Receive: provided buffers and the
      multishot requests of uring_net.cpp, uring.hpp and uring_multi.hpp; the loops that
      re-arm a receive rely on what [Stream.Consumer] promises of its decoder.
    - Net, NetSpec, WriteAll: socket.cpp, udp.cpp, file.cpp, and [fd] and [open_op] of
      uring_ops.hpp.  Offload: the transfers of file.cpp that run in the pool.
    - Bench: the command lines, [count], statistics and checksums of bench/.  Storage, Nops:
      the lanes of storage.cpp and file.cpp and the raw completion loops of storage.cpp and
      uring.cpp, the kernel's answers, order and batches being parameters.  Echo, Rx: the
      byte streams of echo.cpp, tcp.cpp and rx.cpp with short transfers and bounded room,
      and the connection, deadline and failures of rx.cpp.
    - Checker, Scenario and the files whose names end in Witness: boolean checkers of the
      invariants with their soundness, concrete systems, and the theorems applied to them.

    ** What is shown

    - Scheduling: [expire] cancels exactly what it is asked to and fires exactly what is due
      at its reading of the clock, in deadline order; no wake-up is lost whatever other
      threads do before a loop blocks; [run] returns only when no root, post, message or
      request of the loop is left and nothing holds it open, restores what it changed on
      every exit, and counts roots exactly.
    - Synchronisation: channel and mailbox operations implement one FIFO contract on every
      branch, cancellation and closing included; futex and event notifications deliver
      each waiter once.
    - Coroutines: running a tree of tasks by symmetric transfer ends and agrees with direct
      evaluation; destroying a task that is suspended or has ended frees all its frames,
      while a frame that runs makes it undefined and an active operation terminates the
      program; joins wait for every child; spawned results are published and freed once
      under every interleaving; the pool runs jobs in order and, its workers sleeping on
      the condition variable until they are notified, strands none, and closes with the
      queue drained in a computed number of steps.
    - Native requests: suspension with rollback over any driver; io_uring completions
      retire each request once, after its terminal completion and that of its
      cancellation; zero-copy sends and batches signal their owners exactly when the
      kernel is done; the kqueue backend makes the call of a ready request again and
      completes or re-arms it by the answer; the completion port retires exactly what the
      system reports.
    - Multishot: a receive behaves as a queue of buffers whatever the kernel, the user's
      function and the holders of chunks do, however a request fails to start; it throws
      what its function threw and otherwise ends only for the reasons it documents; an accept closes every socket its function has not kept.
    - Resources: registered tables outlive the operations pinned to them in every history,
      refused calls included; every descriptor has one owner; spans and extents stay inside
      their buffers.
    - Programs on top: the streams and the pipeline deliver everything in a bounded number
      of steps under every schedule, and the two-thread benchmark ends whichever of its
      constructions fails; the raw storage loop and the lanes of the library
      compute the same checksum whatever the order of completions, and the raw loop leaves
      no read outstanding unless the wait itself fails; the echo programs end without a
      mismatch or a deadlock, and the throughput benchmark succeeds only if every byte was
      sent, reporting a count mismatch for a sender that fails while connected and the
      deadline for one that never connects.

    ** Bounds

    Loops over lists are given the number of nodes as fuel ([notify_chain], [take_loop],
    [close_loop], [front_loop], [drain_loop], [cancel_ios], [interrupt_waits], [fire_due],
    [run_batch], [destroy]); their theorems show that this is enough, since a list has no
    more nodes than there are links.  [write_all] is given the size of the buffer: every
    round writes at least a byte.  Calls retried on an interruption ([retry], [acquire],
    [make_room], [kevent_retry], [attempt_loop]) are given [spin] or [attempts] rounds, fields of the
    interface, and the law of the interface says that it interrupts fewer times.  [run]
    takes a number of iterations and answers [None] when they are used up: it serves a
    loop that need not end, and its theorems hold for every number.  The programs of
    bench/ and examples/ are step relations: that they end is a bound on the length of
    every run, and that they do not block is that every state reached has a step or is final.

    ** Not modelled

    The Winsock branches of socket.cpp and udp.cpp, and the opening and closing of Windows
    handles in file.cpp; the template plumbing that selects an
    overload of [when_all] and [when_any]; memory ordering, the atomics being
    sequentially consistent here, and the condition variables of spawn.hpp and
    sync_wait.hpp, where a blocked thread goes on once the flag it waits for is set; the coroutine transformation, which is the compiler's;
    the umbrella header and the tests; of the benchmarks the timing and the set-up of the
    Condy runtime they compare with; the examples that are a single call of an operation
    modelled here (timer, datagram, fixed).

    Modelling showed two defects: [loop::submit] of uring.cpp counts a DRAIN request before
    it has a submission entry and nothing takes the count back when that throws
    ([UringWitness.drain_count_leaks]); and the raw loop of bench/storage.cpp, where the
    wait itself fails, releases its buffers with reads outstanding
    ([Storage.raw_throw_outstanding]). *)
From stdpp Require Export base gmap list numbers fin_maps strings.
From Stdlib Require Export ZArith Lia.

Declare Scope snowy_scope.
Delimit Scope snowy_scope with snowy.
Global Open Scope snowy_scope.
Create HintDb snowy.

(** ** Errors

    The portable error codes the sources raise ([std::errc] values), and the
    exceptions that carry them.  A native code is kept as the positive errno. *)
Inductive errc :=
| operation_canceled
| broken_pipe
| message_size
| timed_out
| io_error
| operation_not_supported
| native_error (code : Z).

#[global] Instance errc_eq_dec : EqDecision errc.
Proof. solve_decision. Defined.

Inductive exn :=
| logic_error (what : string)
| invalid_argument (what : string)
| out_of_range (what : string)
| runtime_error (what : string)
| bad_alloc
| system_error (code : errc)
| user_error (id : nat).

#[global] Instance exn_eq_dec : EqDecision exn.
Proof. solve_decision. Defined.

(** ** Effects

    A C++ call either returns, throws with the side effects done so far, ends
    the process through [std::terminate], or has undefined behaviour (an invalid
    pointer is dereferenced or an [assert] fails). *)
Inductive outcome (S A : Type) :=
| Ret (a : A) (s : S)
| Throw (e : exn) (s : S)
| Terminate
| Undefined.
Arguments Ret {S A} a s.
Arguments Throw {S A} e s.
Arguments Terminate {S A}.
Arguments Undefined {S A}.

Definition M (S A : Type) : Type := S → outcome S A.

#[global] Instance M_ret {S} : MRet (M S) := λ A a s, Ret a s.
#[global] Instance M_bind {S} : MBind (M S) := λ A B k c s,
  match c s with
  | Ret a s' => k a s'
  | Throw e s' => Throw e s'
  | Terminate => Terminate
  | Undefined => Undefined
  end.

Section primitives.
Context {S : Type}.
Definition get : M S S := λ s, Ret s s.
Definition gets {A} (f : S → A) : M S A := λ s, Ret (f s) s.
Definition modify (f : S → S) : M S unit := λ s, Ret tt (f s).
Definition throw {A} (e : exn) : M S A := λ s, Throw e s.
Definition terminate {A} : M S A := λ _, Terminate.
Definition undefined {A} : M S A := λ _, Undefined.
(** Reading through a pointer: [None] is a null or dangling one. *)
Definition deref {A} (f : S → option A) : M S A := λ s,
  match f s with Some a => Ret a s | None => Undefined end.
(** [try c catch (...) h], the handler seeing the state at the throw. *)
Definition try_catch {A} (c : M S A) (h : exn → M S A) : M S A := λ s,
  match c s with Throw e s' => h e s' | o => o end.
(** A [noexcept] function: an escaping exception ends the process. *)
Definition nothrow {A} (c : M S A) : M S A := λ s,
  match c s with Throw _ _ => Terminate | o => o end.
Definition when (b : bool) (c : M S unit) : M S unit :=
  if b then c else mret tt.
(** Run [c] on the part of the state selected by [sel]. *)
Definition zoom {T A} (sel : S → option T) (upd : T → S → S) (c : M T A) : M S A :=
  λ s, match sel s with
       | None => Undefined
       | Some t =>
           match c t with
           | Ret a t' => Ret a (upd t' s)
           | Throw e t' => Throw e (upd t' s)
           | Terminate => Terminate
           | Undefined => Undefined
           end
       end.
(** [for (x : xs) f(x)] *)
Fixpoint for_each {A} (f : A → M S unit) (xs : list A) : M S unit :=
  match xs with
  | [] => mret tt
  | x :: xs' => f x ;; for_each f xs'
  end.
End primitives.

(** ** Postconditions

    [post c s Q E]: run from [s], [c] neither terminates the process nor is
    undefined; a normal return satisfies [Q] and a throw satisfies [E].
    [runs c s Q] also excludes throwing. *)
Definition post {S A} (c : M S A) (s : S) (Q : A → S → Prop) (E : exn → S → Prop) : Prop :=
  match c s with
  | Ret a s' => Q a s'
  | Throw e s' => E e s'
  | Terminate | Undefined => False
  end.
Abbreviation runs c s Q := (post c s Q (λ _ _, False)).

Section post.
Context {S : Type}.
Implicit Types s : S.

Lemma post_ret {A} (a : A) s Q E : Q a s → post (mret a) s Q E.
Proof. done. Qed.

Lemma post_bind {A B} (c : M S A) (k : A → M S B) s Q E :
  post c s (λ a s', post (k a) s' Q E) E → post (c ≫= k) s Q E.
Proof. unfold post, mbind, M_bind. by destruct (c s). Qed.

(** Two statements reasoned about as one. *)
Lemma post_seq2 {A B C} (c : M S A) (d : M S B) (k : M S C) s Q E :
  post (c ≫= λ _, d) s (λ _ s', post k s' Q E) E → post (c ≫= λ _, d ≫= λ _, k) s Q E.
Proof. unfold post, mbind, M_bind. destruct (c s) as [? s1|? ?| |]; [|done..]. by destruct (d s1). Qed.

Lemma post_mono {A} (c : M S A) s (Q Q' : A → S → Prop) (E E' : exn → S → Prop) :
  post c s Q E → (∀ a s', Q a s' → Q' a s') → (∀ e s', E e s' → E' e s') → post c s Q' E'.
Proof. unfold post. destruct (c s); auto. Qed.

(** A postcondition may name the run it is about. *)
Lemma post_self {A} (c : M S A) s Q E :
  post c s Q E → post c s (λ a s', c s = Ret a s' ∧ Q a s') E.
Proof. unfold post. by destruct (c s). Qed.
Lemma post_gets {A} (f : S → A) s Q E : Q (f s) s → post (gets f) s Q E.
Proof. done. Qed.

Lemma post_modify (f : S → S) s Q E : Q tt (f s) → post (modify f) s Q E.
Proof. done. Qed.

Lemma post_throw {A} e s (Q : A → S → Prop) E : E e s → post (throw e) s Q E.
Proof. done. Qed.

Lemma post_deref {A} (f : S → option A) a s Q E :
  f s = Some a → Q a s → post (deref f) s Q E.
Proof. intros Hf HQ. unfold post, deref. by rewrite Hf. Qed.

Lemma post_zoom {T A} (sel : S → option T) upd (c : M T A) t s Q E :
  sel s = Some t →
  post c t (λ a t', Q a (upd t' s)) (λ e t', E e (upd t' s)) →
  post (zoom sel upd c) s Q E.
Proof. intros Hs. unfold post, zoom. rewrite Hs. by destruct (c t). Qed.

Lemma post_try_catch {A} (c : M S A) h s Q E :
  post c s Q (λ e s', post (h e) s' Q E) → post (try_catch c h) s Q E.
Proof. unfold post, try_catch. by destruct (c s). Qed.

Lemma post_nothrow {A} (c : M S A) s Q E : runs c s Q → post (nothrow c) s Q E.
Proof. unfold post, nothrow. by destruct (c s). Qed.

Lemma runs_inv {A} (c : M S A) s (Q : A → S → Prop) :
  runs c s Q ↔ ∃ a s', c s = Ret a s' ∧ Q a s'.
Proof. unfold post. destruct (c s); naive_solver. Qed.

Lemma post_when (b : bool) (c : M S unit) s Q E :
  (b = true → post c s Q E) → (b = false → Q tt s) → post (when b c) s Q E.
Proof. destruct b; [auto|]. intros _ H. apply post_ret. auto. Qed.

(** A loop over a list keeps an invariant indexed by what is left. *)
Lemma post_for_each {A} (f : A → M S unit) (I : list A → S → Prop) xs s E :
  I xs s →
  (∀ x xs' s', I (x :: xs') s' → post (f x) s' (λ _ s'', I xs' s'') E) →
  post (for_each f xs) s (λ _ s', I [] s') E.
Proof.
  revert s. induction xs as [|x xs IH]; intros s HI Hf; [by apply post_ret|].
  apply post_bind. eapply post_mono; [by apply Hf| |done].
  intros [] s' HI'. by apply IH.
Qed.

Lemma bind_inv {A B} (c : M S A) (k : A → M S B) s b s' :
  (c ≫= k) s = Ret b s' → ∃ a s1, c s = Ret a s1 ∧ k a s1 = Ret b s'.
Proof. unfold mbind, M_bind. destruct (c s); try done. eauto. Qed.
End post.

(** ** Automation *)

(** Rewrite with the known lookups and reduce. *)
Ltac lookups :=
  repeat match goal with
  | H : ?m !! ?k = Some _ |- context [?m !! ?k] => rewrite H; simpl
  | H : ?m !! ?k = None |- context [?m !! ?k] => rewrite H; simpl
  end.

#[export] Hint Resolve post_ret post_throw post_gets post_modify : snowy.

(** ** Generic lemmas on lists *)
Section lists.
Context {A : Type}.
Implicit Types (x y : A) (l : list A).

(** The longest prefix satisfying [p], and what follows it. *)
Fixpoint take_while (p : A → bool) l : list A :=
  match l with [] => [] | x :: l' => if p x then x :: take_while p l' else [] end.
Fixpoint drop_while (p : A → bool) l : list A :=
  match l with [] => [] | x :: l' => if p x then drop_while p l' else l end.
Lemma take_drop_while p l : take_while p l ++ drop_while p l = l.
Proof. induction l as [|x l IH]; simpl; [done|]. destruct (p x); simpl; by rewrite ?IH. Qed.
Lemma drop_while_ext p p' l : (∀ x, x ∈ l → p x = p' x) → drop_while p l = drop_while p' l.
Proof.
  induction l as [|x l IH]; intros H; simpl; [done|]. rewrite H by set_solver.
  destruct (p' x); [|done]. apply IH. set_solver.
Qed.
Lemma take_while_ext p p' l : (∀ x, x ∈ l → p x = p' x) → take_while p l = take_while p' l.
Proof.
  induction l as [|x l IH]; intros H; simpl; [done|]. rewrite H by set_solver.
  destruct (p' x); [|done]. f_equal. apply IH. set_solver.
Qed.
Lemma elem_of_take_while p l x : x ∈ take_while p l → p x = true.
Proof.
  induction l as [|y l IH]; simpl; [by intros ?%not_elem_of_nil|].
  destruct (p y) eqn:E; [|by intros ?%not_elem_of_nil]. intros [->|?]%elem_of_cons; auto.
Qed.
Lemma head_drop_while p l x : head (drop_while p l) = Some x → x ∈ l ∧ p x = false.
Proof.
  induction l as [|y l IH]; simpl; [done|]. destruct (p y) eqn:E; simpl.
  - intros [? ?]%IH. split; [by right|done].
  - intros [= ->]. split; [by left|done].
Qed.

Lemma filter_agree (P Q : A → Prop) `{!∀ x, Decision (P x), !∀ x, Decision (Q x)} l :
  (∀ x, x ∈ l → P x ↔ Q x) → filter P l = filter Q l.
Proof.
  induction l as [|x l IH]; intros HPQ; [done|]. rewrite !filter_cons, IH by set_solver.
  apply decide_ext, HPQ. set_solver.
Qed.

Lemma app_eq_cons_inv l1 l2 k1 y k2 :
  l1 ++ l2 = k1 ++ y :: k2 →
  (∃ k, l1 = k1 ++ y :: k ∧ k2 = k ++ l2) ∨ (∃ k, l2 = k ++ y :: k2 ∧ k1 = l1 ++ k).
Proof.
  revert k1. induction l1 as [|x l1 IH]; intros k1 Heq; simpl in *; [right; eauto|].
  destruct k1 as [|z k1]; simplify_eq/=; [left; eauto|].
  destruct (IH k1) as [(k&->&->)|(k&->&->)]; eauto.
Qed.

Lemma elem_of_split x l : x ∈ l → ∃ l1 l2, l = l1 ++ x :: l2.
Proof. apply list_elem_of_split. Qed.

Lemma NoDup_middle l1 x l2 :
  NoDup (l1 ++ x :: l2) ↔ NoDup (l1 ++ l2) ∧ x ∉ l1 ++ l2.
Proof.
  rewrite (Permutation_app_comm l1 (x :: l2)). simpl. rewrite NoDup_cons.
  rewrite (Permutation_app_comm l2 l1). tauto.
Qed.

Lemma head_app l1 l2 : head (l1 ++ l2) = match l1 with [] => head l2 | x :: _ => Some x end.
Proof. by destruct l1. Qed.

Lemma head_elem_of l x : head l = Some x → x ∈ l.
Proof. destruct l; simpl; intros; simplify_eq. set_solver. Qed.

Lemma last_elem_of l x : last l = Some x → x ∈ l.
Proof. intros H. apply last_Some in H as [l' ->]. set_solver. Qed.

(** A weighted sum after one element has changed. *)
Lemma sum_insert (f : A → nat) l i x y :
  l !! i = Some x → sum_list_with f (<[i := y]> l) + f x = sum_list_with f l + f y.
Proof. revert i. induction l as [|z l IH]; intros [|i] Hi; simplify_eq/=; [lia|]. specialize (IH i Hi). lia. Qed.
End lists.

(** A list of distinct keys of a map is no longer than the map. *)
Lemma NoDup_length_le_size {K A} `{Countable K} (m : gmap K A) (xs : list K) :
  NoDup xs → (∀ x, x ∈ xs → is_Some (m !! x)) → length xs ≤ size m.
Proof.
  intros Hnd Hin. rewrite <- (size_list_to_set (C := gset K)) by done. rewrite <- size_dom.
  apply subseteq_size. intros x Hx%elem_of_list_to_set. by apply elem_of_dom, Hin.
Qed.
