(* ===== verification/ReadyQueue.v ===== *)
(** * The intrusive ready queue (include/snowy/detail/intrusive_queue.hpp)

    [ready_operation] nodes carry one link, [next_]; [ready_queue] keeps the two
    end pointers.  The links of all nodes are one map from node to pointer, so
    that several queues (each loop's ready and message queue, and the batch
    [loop::run] detaches) share the same memory, as they do in the program. *)
From S2P Require Import Prelude.

Section ready_queue.
Context {K : Type} `{Countable K}.
Implicit Types (x y : K) (xs : list K) (m : gmap K (option K)).

(** ** The queue *)
Record ready_queue := ReadyQueue { head_ : option K; tail_ : option K }.

(** The memory a queue operation works on: every node's [next_], and [*this]. *)
Record rq_mem := RqMem { rq_next : gmap K (option K); rq_queue : ready_queue }.

Definition empty_queue : ready_queue := ReadyQueue None None.

(** [bool empty() const] *)
Definition empty (q : ready_queue) : bool := bool_decide (head_ q = None).

(** [node->next_ = v] *)
Definition set_next_ (x : K) (v : option K) : M rq_mem unit :=
  _ ← deref (λ s, rq_next s !! x);
  modify (λ s, RqMem (<[x := v]> (rq_next s)) (rq_queue s)).

Definition set_head_ (v : option K) : M rq_mem unit :=
  modify (λ s, RqMem (rq_next s) (ReadyQueue v (tail_ (rq_queue s)))).

Definition set_tail_ (v : option K) : M rq_mem unit :=
  modify (λ s, RqMem (rq_next s) (ReadyQueue (head_ (rq_queue s)) v)).

(** [void push(ready_operation& operation)] *)
Definition push (x : K) : M rq_mem unit :=
  nxt ← deref (λ s, rq_next s !! x);
  match nxt with
  | Some _ => undefined                       (* assert(operation.next_ == nullptr) *)
  | None =>
      t ← gets (λ s, tail_ (rq_queue s));
      match t with
      | None => set_head_ (Some x)
      | Some y => set_next_ y (Some x)
      end ;;
      set_tail_ (Some x)
  end.

(** [ready_operation* pop()] *)
Definition pop : M rq_mem (option K) :=
  h ← gets (λ s, head_ (rq_queue s));
  match h with
  | None => mret None
  | Some x =>
      nxt ← deref (λ s, rq_next s !! x);
      set_head_ nxt ;;
      set_next_ x None ;;
      (match nxt with None => set_tail_ None | Some _ => mret tt end) ;;
      mret (Some x)
  end.

(** ** The list a queue holds

    Every node points to its successor, the last one to null. *)
Definition rq_rep m (q : ready_queue) xs : Prop :=
  head_ q = head xs ∧ tail_ q = last xs ∧ NoDup xs ∧
  ∀ l1 x l2, xs = l1 ++ x :: l2 → m !! x = Some (head l2).

Lemma rq_rep_empty m : rq_rep m empty_queue [].
Proof. repeat split; [constructor|]. by intros [] ? ? [=]. Qed.

Lemma rq_rep_elem m q xs x : rq_rep m q xs → x ∈ xs → is_Some (m !! x).
Proof. intros (_&_&_&Hm) (l1&l2&->)%elem_of_split. erewrite Hm; eauto. Qed.

(** The list is determined by the memory and the end pointers. *)
Lemma rq_rep_inj m q xs ys : rq_rep m q xs → rq_rep m q ys → xs = ys.
Proof.
  intros (Hh&_&_&Hm) (Hh'&_&_&Hm').
  assert (Heq : head xs = head ys) by congruence. clear Hh Hh'.
  revert ys Hm Hm' Heq. induction xs as [|x xs IH]; intros [|y ys] Hm Hm' Heq; simplify_eq/=; [done|].
  f_equal. apply IH.
  - intros l1 z l2 ->. by apply (Hm (y :: l1)).
  - intros l1 z l2 ->. by apply (Hm' (y :: l1)).
  - pose proof (Hm [] y xs eq_refl). pose proof (Hm' [] y ys eq_refl). congruence.
Qed.

(** Links of nodes outside the queue do not matter. *)
Lemma rq_rep_frame m m' q xs :
  (∀ x, x ∈ xs → m' !! x = m !! x) → rq_rep m q xs → rq_rep m' q xs.
Proof.
  intros Heq (?&?&?&Hm). repeat split; [done..|].
  intros l1 x l2 ->. rewrite Heq; [by eapply Hm|set_solver].
Qed.

Lemma empty_spec m q xs : rq_rep m q xs → empty q = bool_decide (xs = []).
Proof. intros (Hh&_). unfold empty. rewrite Hh. by destruct xs. Qed.

Lemma rq_set_next_run x v m q w :
  m !! x = Some w → set_next_ x v (RqMem m q) = Ret tt (RqMem (<[x := v]> m) q).
Proof. intros Hx. unfold set_next_, mbind, M_bind, deref. simpl. by rewrite Hx. Qed.

(** The memory after a push: the old tail points to the new node. *)
Definition pushed m xs x : gmap K (option K) :=
  match last xs with Some y => <[y := Some x]> m | None => m end.

Lemma push_run m q xs x :
  rq_rep m q xs → m !! x = Some None →
  push x (RqMem m q) = Ret tt (RqMem (pushed m xs x) (ReadyQueue (head (xs ++ [x])) (Some x))).
Proof.
  intros (Hh&Ht&_&Hm) Hx. unfold push, mbind, M_bind, deref, gets, pushed; simpl.
  rewrite Hx. simpl. rewrite Ht. destruct (last xs) as [y|] eqn:Hl; simpl.
  - apply last_Some in Hl as [l' ->]. erewrite rq_set_next_run by (by apply (Hm l' y [])).
    unfold set_tail_, modify; simpl. rewrite Hh. by destruct l'.
  - apply last_None in Hl as ->. done.
Qed.

Lemma pushed_rep m q xs x :
  rq_rep m q xs → m !! x = Some None → x ∉ xs →
  rq_rep (pushed m xs x) (ReadyQueue (head (xs ++ [x])) (Some x)) (xs ++ [x]).
Proof.
  intros (Hh&Ht&Hnd&Hm) Hx Hn. repeat split; simpl; [by rewrite last_snoc|..].
  { rewrite NoDup_app. split_and!; [done|set_solver|apply NoDup_singleton]. }
  intros l1 z l2 Heq. unfold pushed.
  destruct (app_eq_cons_inv _ _ _ _ _ Heq) as [(k&->&->)|(k&Hk&->)].
  - destruct k as [|a k] using rev_ind; simpl.
    + rewrite last_snoc. by rewrite lookup_insert_eq.
    + clear IHk. rewrite app_comm_cons, app_assoc, last_snoc.
      apply NoDup_middle in Hnd as [_ Hz]. rewrite lookup_insert_ne by set_solver.
      rewrite (Hm l1 z (k ++ [a])) by done. by destruct k.
  - destruct k as [|? k]; simplify_eq/=; [|by destruct k].
    destruct (last xs) as [y|] eqn:Hl; [|done].
    rewrite lookup_insert_ne; [done|]. apply last_elem_of in Hl. set_solver.
Qed.

(** Other nodes keep their link, except the old tail. *)
Lemma pushed_other m xs x z : z ∉ xs → pushed m xs x !! z = m !! z.
Proof.
  intros Hz. unfold pushed. destruct (last xs) as [y|] eqn:Hl; [|done].
  apply lookup_insert_ne. apply last_elem_of in Hl. set_solver.
Qed.

Lemma pop_run_nil m q : rq_rep m q [] → pop (RqMem m q) = Ret None (RqMem m q).
Proof. intros (Hh&_). unfold pop, mbind, M_bind, gets; simpl. by rewrite Hh. Qed.

Lemma pop_run_cons m q x xs :
  rq_rep m q (x :: xs) →
  pop (RqMem m q) = Ret (Some x) (RqMem (<[x := None]> m) (ReadyQueue (head xs) (last xs))).
Proof.
  intros (Hh&Ht&_&Hm). unfold pop, mbind, M_bind, gets; simpl. rewrite Hh. simpl.
  pose proof (Hm [] x xs eq_refl) as Hx. unfold deref. simpl. rewrite Hx. simpl.
  erewrite rq_set_next_run by done. destruct xs; simpl; [done|]. rewrite Ht. by simpl.
Qed.

Lemma popped_rep m q x xs :
  rq_rep m q (x :: xs) → rq_rep (<[x := None]> m) (ReadyQueue (head xs) (last xs)) xs.
Proof.
  intros (_&_&Hnd&Hm). apply NoDup_cons in Hnd as [Hx Hnd]. repeat split; [done|].
  intros l1 y l2 ->. rewrite lookup_insert_ne by set_solver. by apply (Hm (x :: l1)).
Qed.

(** ** Whole bursts of work *)
Fixpoint push_all xs : M rq_mem unit :=
  match xs with [] => mret tt | x :: xs' => push x ;; push_all xs' end.
Fixpoint pop_all (n : nat) : M rq_mem (list K) :=
  match n with
  | O => mret []
  | S n' => r ← pop; match r with None => mret [] | Some x => ys ← pop_all n'; mret (x :: ys) end
  end.

Lemma push_all_spec m q xs ys :
  rq_rep m q xs → NoDup (xs ++ ys) → (∀ y, y ∈ ys → m !! y = Some None) →
  runs (push_all ys) (RqMem m q) (λ _ s', rq_rep (rq_next s') (rq_queue s') (xs ++ ys)).
Proof.
  revert m q xs. induction ys as [|y ys IH]; intros m q xs Hr Hnd Hf; simpl.
  { apply post_ret. simpl. by rewrite app_nil_r. }
  apply NoDup_middle in Hnd as [Hnd Hy]. apply post_bind. unfold post at 1.
  rewrite (push_run _ _ _ _ Hr) by (apply Hf; set_solver). 
  replace (xs ++ y :: ys) with ((xs ++ [y]) ++ ys) by (by rewrite <- app_assoc). apply IH.
  - eapply pushed_rep; [done|apply Hf; set_solver|set_solver].
  - rewrite <- app_assoc. simpl. apply NoDup_middle. by split.
  - intros z Hz. rewrite pushed_other; [apply Hf; set_solver|]. apply NoDup_app in Hnd as (_&Hd&_). intros Hz'. by apply (Hd z).
Qed.
Lemma pop_all_spec m q xs n :
  rq_rep m q xs →
  runs (pop_all n) (RqMem m q) (λ ys s', ys = take n xs ∧ rq_rep (rq_next s') (rq_queue s') (drop n xs)).
Proof.
  revert m q xs. induction n as [|n IH]; intros m q xs Hr; simpl; [by apply post_ret|].
  destruct xs as [|x xs].
  { apply post_bind. unfold post at 1. rewrite pop_run_nil by done. by apply post_ret. }
  apply post_bind. unfold post at 1. rewrite (pop_run_cons _ _ _ _ Hr). apply post_bind.
  eapply post_mono; [by apply IH, (popped_rep _ _ _ _ Hr)| |done]. intros ys s' [-> ?]. by apply post_ret.
Qed.

(** The intrusive queue is first-in first-out: pushing idle nodes onto a queue that
    holds [xs] and popping as many as it then holds returns [xs] followed by them, in
    order, and leaves it empty; no assertion of the code fails on the way. *)
Theorem ready_queue_fifo m q xs ys :
  rq_rep m q xs → NoDup (xs ++ ys) → (∀ y, y ∈ ys → m !! y = Some None) →
  runs (push_all ys ;; pop_all (length (xs ++ ys))) (RqMem m q) (λ zs s', zs = xs ++ ys ∧ empty (rq_queue s') = true).
Proof.
  intros Hr Hnd Hf. apply post_bind. eapply post_mono; [by apply push_all_spec| |done].
  intros _ [m' q'] Hr'. eapply post_mono; [by apply pop_all_spec| |done]. intros zs s' [-> Hs].
  rewrite take_ge by done. rewrite drop_ge in Hs by done. split; [done|]. by rewrite (empty_spec _ _ _ Hs).
Qed.
End ready_queue.

Arguments ready_queue : clear implicits.
Arguments rq_mem K {_ _}.
#[export] Hint Resolve rq_rep_empty rq_rep_elem pushed_rep popped_rep : snowy.
