(* ===== verification/Links.v ===== *)
(** * Intrusive doubly linked lists

    The loop's waits and native requests, an event's awaiters, a channel's nodes
    and a wait queue's waiters are all chained through two pointers embedded in
    the objects.  The pointer manipulation is the same in the five places; it is
    modelled once, on the links of the objects of one class.

    Lists of the first kind keep only a head pointer and insert at the front
    ([detail::wait], [detail::io], [event::awaiter]); lists of the second kind
    keep both ends and insert at the back ([channel::node], [remote_wait]).
    Unlinking never clears the pointers of the removed object. *)
From S2P Require Import Prelude.

Section links.
Context {K : Type} `{Countable K}.

Record link := Link { l_next : option K; l_prev : option K }.
Implicit Types (x y : K) (xs : list K) (m : gmap K link).

(** The links of all objects of the class, and the list's end pointers (the
    second one is unused by the lists of the first kind). *)
Record dl_mem := DlMem { dl_links : gmap K link; dl_first : option K; dl_last : option K }.

Definition set_next x (v : option K) : M dl_mem unit :=
  l ← deref (λ s, dl_links s !! x);
  modify (λ s, DlMem (<[x := Link v (l_prev l)]> (dl_links s)) (dl_first s) (dl_last s)).
Definition set_prev x (v : option K) : M dl_mem unit :=
  l ← deref (λ s, dl_links s !! x);
  modify (λ s, DlMem (<[x := Link (l_next l) v]> (dl_links s)) (dl_first s) (dl_last s)).
Definition set_first (v : option K) : M dl_mem unit :=
  modify (λ s, DlMem (dl_links s) v (dl_last s)).
Definition set_last (v : option K) : M dl_mem unit :=
  modify (λ s, DlMem (dl_links s) (dl_first s) v).

(** [next = head; if (next) next->prev = this; head = this;] *)
Definition link_front x : M dl_mem unit :=
  h ← gets dl_first;
  set_next x h ;;
  (match h with Some y => set_prev y (Some x) | None => mret tt end) ;;
  set_first (Some x).

(** [if (prev) prev->next = next; else head = next;
     if (next) next->prev = prev;] *)
Definition unlink_front x : M dl_mem unit :=
  l ← deref (λ s, dl_links s !! x);
  (match l_prev l with Some p => set_next p (l_next l) | None => set_first (l_next l) end) ;;
  l' ← deref (λ s, dl_links s !! x);
  match l_next l' with Some n => set_prev n (l_prev l') | None => mret tt end.

(** [prev = last; if (prev) prev->next = this; else first = this; last = this;] *)
Definition link_back x : M dl_mem unit :=
  t ← gets dl_last;
  set_prev x t ;;
  (match t with Some y => set_next y (Some x) | None => set_first (Some x) end) ;;
  set_last (Some x).

(** [if (prev) prev->next = next; else first = next;
     if (next) next->prev = prev; else last = prev;] *)
Definition unlink_back x : M dl_mem unit :=
  l ← deref (λ s, dl_links s !! x);
  (match l_prev l with Some p => set_next p (l_next l) | None => set_first (l_next l) end) ;;
  l' ← deref (λ s, dl_links s !! x);
  match l_next l' with Some n => set_prev n (l_prev l') | None => set_last (l_prev l') end.

(** ** The list represented by the links *)
Definition dl_rep m (first : option K) xs : Prop :=
  first = head xs ∧ NoDup xs ∧
  ∀ l1 x l2, xs = l1 ++ x :: l2 → m !! x = Some (Link (head l2) (last l1)).

Definition dl_rep2 m (first lst : option K) xs : Prop := dl_rep m first xs ∧ lst = last xs.

Lemma dl_rep_nil m : dl_rep m None [].
Proof. repeat split; [constructor|]. by intros [] ? ? [=]. Qed.

Lemma dl_rep_head m first xs : dl_rep m first xs → first = head xs.
Proof. by intros [? _]. Qed.

Lemma dl_rep_NoDup m first xs : dl_rep m first xs → NoDup xs.
Proof. by intros (_&?&_). Qed.

Lemma dl_rep_lookup m first xs x : dl_rep m first xs → x ∈ xs → is_Some (m !! x).
Proof. intros (_&_&Hm) (l1&l2&->)%elem_of_split. erewrite Hm; eauto. Qed.

Lemma dl_rep_next m first l1 x l2 :
  dl_rep m first (l1 ++ x :: l2) → m !! x = Some (Link (head l2) (last l1)).
Proof. intros (_&_&Hm). by apply Hm. Qed.

Lemma dl_rep_None m xs : dl_rep m None xs → xs = [].
Proof. intros (Hh&_). by destruct xs. Qed.

Lemma dl_rep_frame m m' first xs :
  (∀ x, x ∈ xs → m' !! x = m !! x) → dl_rep m first xs → dl_rep m' first xs.
Proof.
  intros Heq (?&?&Hm). repeat split; [done..|].
  intros l1 x l2 ->. rewrite Heq; [by eapply Hm|set_solver].
Qed.

Lemma dl_rep_insert_other m first xs x l :
  x ∉ xs → dl_rep m first xs → dl_rep (<[x := l]> m) first xs.
Proof.
  intros Hx. apply dl_rep_frame. intros y Hy. apply lookup_insert_ne. set_solver.
Qed.

(** ** The links after each operation *)
Definition upd_next m (o : option K) (v : option K) : gmap K link :=
  match o with
  | Some y => alter (λ l, Link v (l_prev l)) y m
  | None => m
  end.
Definition upd_prev m (o : option K) (v : option K) : gmap K link :=
  match o with
  | Some y => alter (λ l, Link (l_next l) v) y m
  | None => m
  end.

Lemma set_next_run x v m f t l :
  m !! x = Some l →
  set_next x v (DlMem m f t) = Ret tt (DlMem (upd_next m (Some x) v) f t).
Proof.
  intros Hx. unfold set_next, mbind, M_bind, deref, modify. simpl. rewrite Hx. simpl.
  do 2 f_equal. apply map_eq. intros y. rewrite lookup_alter, lookup_insert.
  destruct (decide (x = y)) as [->|]; [|done]. by rewrite Hx.
Qed.

Lemma set_prev_run x v m f t l :
  m !! x = Some l →
  set_prev x v (DlMem m f t) = Ret tt (DlMem (upd_prev m (Some x) v) f t).
Proof.
  intros Hx. unfold set_prev, mbind, M_bind, deref, modify. simpl. rewrite Hx. simpl.
  do 2 f_equal. apply map_eq. intros y. rewrite lookup_alter, lookup_insert.
  destruct (decide (x = y)) as [->|]; [|done]. by rewrite Hx.
Qed.

Lemma upd_next_lookup m o v y :
  upd_next m o v !! y =
    (if decide (o = Some y) then (λ l, Link v (l_prev l)) <$> m !! y else m !! y).
Proof.
  destruct o as [x|]; simpl; [|done]. rewrite lookup_alter.
  destruct (decide (x = y)), (decide (Some x = Some y)); by simplify_eq.
Qed.
Lemma upd_prev_lookup m o v y :
  upd_prev m o v !! y =
    (if decide (o = Some y) then (λ l, Link (l_next l) v) <$> m !! y else m !! y).
Proof.
  destruct o as [x|]; simpl; [|done]. rewrite lookup_alter.
  destruct (decide (x = y)), (decide (Some x = Some y)); by simplify_eq.
Qed.

Lemma upd_next_is_Some m o v y : is_Some (upd_next m o v !! y) ↔ is_Some (m !! y).
Proof. rewrite upd_next_lookup. case_decide; [apply fmap_is_Some|done]. Qed.
Lemma upd_prev_is_Some m o v y : is_Some (upd_prev m o v !! y) ↔ is_Some (m !! y).
Proof. rewrite upd_prev_lookup. case_decide; [apply fmap_is_Some|done]. Qed.

Definition linked_front m xs x := upd_prev (upd_next m (Some x) (head xs)) (head xs) (Some x).
Definition linked_back m xs x := upd_next (upd_prev m (Some x) (last xs)) (last xs) (Some x).
Definition unlinked m (l1 l2 : list K) := upd_prev (upd_next m (last l1) (head l2)) (head l2) (last l1).

(** The links of objects outside the list, and which objects exist, are kept. *)
Lemma linked_front_other m xs x y : y ∉ xs → y ≠ x → linked_front m xs x !! y = m !! y.
Proof.
  intros Hy Hne. unfold linked_front. rewrite upd_prev_lookup, decide_False.
  - by rewrite upd_next_lookup, decide_False by congruence.
  - intros Hh%head_elem_of. done.
Qed.
Lemma linked_back_other m xs x y : y ∉ xs → y ≠ x → linked_back m xs x !! y = m !! y.
Proof.
  intros Hy Hne. unfold linked_back. rewrite upd_next_lookup, decide_False.
  - by rewrite upd_prev_lookup, decide_False by congruence.
  - intros Hh%last_elem_of. done.
Qed.
Lemma unlinked_other m l1 l2 y : y ∉ l1 ++ l2 → unlinked m l1 l2 !! y = m !! y.
Proof.
  intros Hy. unfold unlinked. rewrite upd_prev_lookup, decide_False.
  - rewrite upd_next_lookup, decide_False; [done|]. intros Hh%last_elem_of. set_solver.
  - intros Hh%head_elem_of. set_solver.
Qed.
Lemma linked_front_is_Some m xs x y : is_Some (linked_front m xs x !! y) ↔ is_Some (m !! y).
Proof. unfold linked_front. by rewrite upd_prev_is_Some, upd_next_is_Some. Qed.
Lemma linked_back_is_Some m xs x y : is_Some (linked_back m xs x !! y) ↔ is_Some (m !! y).
Proof. unfold linked_back. by rewrite upd_next_is_Some, upd_prev_is_Some. Qed.
Lemma unlinked_is_Some m l1 l2 y : is_Some (unlinked m l1 l2 !! y) ↔ is_Some (m !! y).
Proof. unfold unlinked. by rewrite upd_prev_is_Some, upd_next_is_Some. Qed.

(** ** Each operation performs the corresponding list operation *)
Lemma link_front_run m t xs x :
  dl_rep m (head xs) xs → x ∉ xs → is_Some (m !! x) →
  link_front x (DlMem m (head xs) t) = Ret tt (DlMem (linked_front m xs x) (Some x) t).
Proof.
  intros Hrep Hx [l Hl]. unfold link_front, mbind, M_bind, gets. simpl.
  erewrite set_next_run by done. unfold linked_front.
  destruct xs as [|y ys]; simpl; [done|].
  destruct (dl_rep_lookup _ _ _ y Hrep) as [ly Hly]; [set_solver|].
  erewrite set_prev_run; [done|]. rewrite lookup_alter_ne by set_solver. done.
Qed.

Lemma link_front_rep m xs x l :
  dl_rep m (head xs) xs → x ∉ xs → m !! x = Some l → l_prev l = None →
  dl_rep (linked_front m xs x) (Some x) (x :: xs).
Proof.
  intros (_&Hnd&Hm) Hx Hl Hp. repeat split; [by apply NoDup_cons|].
  intros [|z l1] y l2 [= <- Heq]; unfold linked_front; rewrite upd_prev_lookup, upd_next_lookup.
  - subst l2. rewrite decide_False, decide_True by (done || (intros ?%head_elem_of; done)).
    rewrite Hl. simpl. by rewrite Hp.
  - subst xs. rewrite (decide_False (P := Some x = Some y)) by set_solver.
    rewrite (Hm l1 y l2) by done. destruct l1 as [|z l1]; simpl.
    + by rewrite decide_True.
    + rewrite decide_False; [done|]. intros [= ->].
      apply NoDup_cons in Hnd. set_solver.
Qed.

(** The two unlink operations read the neighbours from the node and bypass it. *)
Lemma unlink_neighbours m first l1 x l2 v :
  dl_rep m first (l1 ++ x :: l2) →
  upd_next m (last l1) v !! x = Some (Link (head l2) (last l1)).
Proof.
  intros Hrep. rewrite upd_next_lookup, decide_False; [by eapply dl_rep_next|].
  intros Hh%last_elem_of. apply dl_rep_NoDup in Hrep.
  apply NoDup_middle in Hrep as [_ ?]. set_solver.
Qed.

Lemma unlink_first_run m t l1 x l2 :
  dl_rep m (head (l1 ++ x :: l2)) (l1 ++ x :: l2) →
  (match last l1 with Some p => set_next p (head l2) | None => set_first (head l2) end)
    (DlMem m (head (l1 ++ x :: l2)) t)
  = Ret tt (DlMem (upd_next m (last l1) (head l2)) (head (l1 ++ l2)) t).
Proof.
  intros Hrep. destruct (last l1) as [p|] eqn:Hp.
  - apply last_Some in Hp as [l1' ->].
    destruct (dl_rep_lookup _ _ _ p Hrep) as [lp Hlp]; [set_solver|].
    erewrite set_next_run by done. by destruct l1'.
  - by apply last_None in Hp as ->.
Qed.

Lemma unlink_front_run m t l1 x l2 :
  dl_rep m (head (l1 ++ x :: l2)) (l1 ++ x :: l2) →
  unlink_front x (DlMem m (head (l1 ++ x :: l2)) t)
  = Ret tt (DlMem (unlinked m l1 l2) (head (l1 ++ l2)) t).
Proof.
  intros Hrep. pose proof (dl_rep_next _ _ _ _ _ Hrep) as Hx.
  pose proof (unlink_neighbours _ _ _ _ _ (head l2) Hrep) as Hx'.
  unfold unlink_front, mbind, M_bind, deref. simpl. rewrite Hx. simpl.
  rewrite (unlink_first_run _ _ _ _ _ Hrep). simpl. rewrite Hx'. simpl. unfold unlinked.
  destruct l2 as [|n l2]; simpl; [done|].
  destruct (dl_rep_lookup _ _ _ n Hrep) as [ln Hln]; [set_solver|].
  assert (is_Some (upd_next m (last l1) (Some n) !! n)) as [ln' Hln'] by (by apply upd_next_is_Some).
  by erewrite set_prev_run.
Qed.

Lemma unlink_rep m l1 x l2 :
  dl_rep m (head (l1 ++ x :: l2)) (l1 ++ x :: l2) →
  dl_rep (unlinked m l1 l2) (head (l1 ++ l2)) (l1 ++ l2).
Proof.
  intros (_&Hnd&Hm). pose proof Hnd as [Hnd' Hx]%NoDup_middle. repeat split; [done|].
  intros k1 y k2 Heq. unfold unlinked. rewrite upd_prev_lookup, upd_next_lookup.
  destruct (app_eq_cons_inv _ _ _ _ _ Heq) as [(k&->&->)|(k&->&->)].
  - rewrite (decide_False (P := head l2 = Some y)).
    2:{ intros Hh%head_elem_of. apply NoDup_app in Hnd'. set_solver. }
    rewrite (Hm k1 y (k ++ x :: l2)) by (by rewrite <- app_assoc). destruct k as [|z k] using rev_ind.
    + by rewrite last_snoc, decide_True.
    + clear IHk. rewrite app_comm_cons, app_assoc, last_snoc, decide_False; [by destruct k|].
      intros [= ->]. apply NoDup_app in Hnd' as [[_ Hy]%NoDup_middle _]. set_solver.
  - rewrite (decide_False (P := last l1 = Some y)).
    2:{ intros Hh%last_elem_of. apply NoDup_app in Hnd'. set_solver. }
    rewrite (Hm (l1 ++ x :: k) y k2) by (by rewrite <- app_assoc).
    destruct k as [|z k]; simpl.
    + by rewrite last_snoc, decide_True, app_nil_r.
    + rewrite decide_False; [rewrite !last_app_cons; by rewrite last_cons_cons|].
      intros [= ->]. apply NoDup_app in Hnd' as (_&_&Hnd'). apply NoDup_cons in Hnd'. set_solver.
Qed.

Lemma link_back_run m xs x :
  dl_rep m (head xs) xs → x ∉ xs → is_Some (m !! x) →
  link_back x (DlMem m (head xs) (last xs))
  = Ret tt (DlMem (linked_back m xs x) (head (xs ++ [x])) (Some x)).
Proof.
  intros Hrep Hx [l Hl]. unfold link_back, mbind, M_bind, gets. simpl.
  erewrite set_prev_run by done. unfold linked_back.
  destruct (last xs) as [y|] eqn:Hy; simpl.
  - apply last_Some in Hy as [ys ->].
    destruct (dl_rep_lookup _ _ _ y Hrep) as [ly Hly]; [set_solver|].
    erewrite set_next_run; [by destruct ys|]. rewrite lookup_alter_ne by set_solver. done.
  - apply last_None in Hy as ->. done.
Qed.

Lemma link_back_rep m xs x l :
  dl_rep m (head xs) xs → x ∉ xs → m !! x = Some l → l_next l = None →
  dl_rep (linked_back m xs x) (head (xs ++ [x])) (xs ++ [x]).
Proof.
  intros (_&Hnd&Hm) Hx Hl Hn. repeat split.
  { apply NoDup_app. split_and!; [done|set_solver|apply NoDup_singleton]. }
  intros l1 y l2 Heq. unfold linked_back. rewrite upd_next_lookup, upd_prev_lookup.
  destruct (app_eq_cons_inv _ _ _ _ _ Heq) as [(k&->&->)|(k&Hk&->)].
  - rewrite (decide_False (P := Some x = Some y)) by set_solver.
    rewrite (Hm l1 y k) by done. destruct k as [|z k] using rev_ind.
    + by rewrite last_snoc, decide_True.
    + clear IHk. rewrite app_comm_cons, app_assoc, last_snoc, decide_False; [by destruct k|].
      intros [= ->]. apply NoDup_middle in Hnd as [_ Hnd]. set_solver.
  - destruct k as [|? [|? k]]; simplify_eq/=. rewrite decide_False, decide_True by
      (done || (intros ?%last_elem_of; done)).
    rewrite Hl. simpl. by rewrite Hn, app_nil_r.
Qed.

Lemma unlink_back_run m l1 x l2 :
  dl_rep m (head (l1 ++ x :: l2)) (l1 ++ x :: l2) →
  unlink_back x (DlMem m (head (l1 ++ x :: l2)) (last (l1 ++ x :: l2)))
  = Ret tt (DlMem (unlinked m l1 l2) (head (l1 ++ l2)) (last (l1 ++ l2))).
Proof.
  intros Hrep. pose proof (dl_rep_next _ _ _ _ _ Hrep) as Hx.
  pose proof (unlink_neighbours _ _ _ _ _ (head l2) Hrep) as Hx'.
  unfold unlink_back, mbind, M_bind, deref. simpl. rewrite Hx. simpl.
  rewrite (unlink_first_run _ _ _ _ _ Hrep). simpl. rewrite Hx'. simpl. unfold unlinked.
  destruct l2 as [|n l2]; simpl; [by rewrite app_nil_r|].
  destruct (dl_rep_lookup _ _ _ n Hrep) as [ln Hln]; [set_solver|].
  assert (is_Some (upd_next m (last l1) (Some n) !! n)) as [ln' Hln'] by (by apply upd_next_is_Some).
  erewrite set_prev_run by done. by rewrite !last_app_cons, last_cons_cons.
Qed.
End links.
Arguments link : clear implicits.
Arguments dl_mem K {_ _}.
