(* ===== verification/Heap.v ===== *)
(** * The heap algorithms of <algorithm>

    [loop] keeps its timers in a [std::vector] ordered with [std::push_heap],
    [std::pop_heap] and [std::make_heap] under [later], so that the earliest
    deadline is in front.  [StdHeap] states what the C++ standard promises of
    these algorithms ([alg.heap.operations]); the loop's theorems use nothing
    else.  The instance shows that the promises can be kept. *)
From S2P Require Import Prelude.
From stdpp Require Import sorting.

Section heap.
Context {A : Type}.
Implicit Types (xs : list (A * Z)).

(** [bool later(const timer* a, const timer* b) { return a->due > b->due; }] *)
Definition later (a b : A * Z) : bool := bool_decide (b.2 < a.2)%Z.

(** The standard's heap condition: [later(a[(i-1)/2], a[i])] is false. *)
Definition is_heap xs : Prop :=
  ∀ i a b, xs !! Nat.div2 i = Some a → xs !! S i = Some b → later a b = false.

Lemma is_heap_nil : is_heap [].
Proof. by intros i a b. Qed.

Lemma div2_lt i : Nat.div2 i < S i.
Proof. pose proof (Nat.div2_odd i). lia. Qed.

(** The front element has the least deadline. *)
Lemma is_heap_front xs a :
  is_heap xs → head xs = Some a → ∀ b, b ∈ xs → (a.2 ≤ b.2)%Z.
Proof.
  intros Hh Ha b [i Hi]%list_elem_of_lookup. revert b Hi.
  induction (lt_wf i) as [i _ IH]. intros b Hi.
  destruct i as [|i].
  { destruct xs; simplify_eq/=. lia. }
  assert (Hlt : Nat.div2 i < S i) by apply div2_lt.
  destruct (lookup_lt_is_Some_2 xs (Nat.div2 i)) as [c Hc].
  { apply lookup_lt_Some in Hi. lia. }
  specialize (IH _ Hlt _ Hc). pose proof (Hh _ _ _ Hc Hi) as Hl.
  apply bool_decide_eq_false in Hl. lia.
Qed.
End heap.

Class StdHeap (A : Type) := {
  push_heap : list (A * Z) → list (A * Z);
  pop_heap : list (A * Z) → list (A * Z);
  make_heap : list (A * Z) → list (A * Z);
  push_heap_perm xs : push_heap xs ≡ₚ xs;
  push_heap_heap xs a : is_heap xs → is_heap (push_heap (xs ++ [a]));
  pop_heap_last xs a : is_heap (a :: xs) →
    ∃ ys, pop_heap (a :: xs) = ys ++ [a] ∧ ys ≡ₚ xs ∧ is_heap ys;
  make_heap_perm xs : make_heap xs ≡ₚ xs;
  make_heap_heap xs : is_heap (make_heap xs) }.

(** ** An implementation by sorting: a list in deadline order is a heap. *)
Section sorting.
Context {A : Type}.
Implicit Types (xs : list (A * Z)).

Definition earlier (a b : A * Z) : Prop := (a.2 ≤ b.2)%Z.
#[local] Instance earlier_dec : RelDecision earlier.
Proof. unfold earlier. intros a b. apply _. Defined.
#[local] Instance earlier_total : Total earlier.
Proof. unfold earlier. intros a b. lia. Qed.
#[local] Instance earlier_trans : Transitive earlier.
Proof. unfold earlier. intros a b c. lia. Qed.

Lemma sorted_is_heap xs : StronglySorted earlier xs → is_heap xs.
Proof.
  intros Hs i a b Ha Hb. apply bool_decide_eq_false. apply Z.nlt_ge.
  apply (StronglySorted_app_1_elem_of earlier (take (S i) xs) (drop (S i) xs)).
  - by rewrite take_drop.
  - apply list_elem_of_lookup. exists (Nat.div2 i). rewrite lookup_take_lt; [done|]. apply div2_lt.
  - apply list_elem_of_lookup. exists 0. by rewrite lookup_drop, Nat.add_0_r.
Qed.

Definition sort_heap xs := merge_sort earlier xs.

Lemma sort_heap_heap xs : is_heap (sort_heap xs).
Proof. apply sorted_is_heap. by apply Sorted_StronglySorted, Sorted_merge_sort; apply _. Qed.

#[global, program] Instance sorting_heap : StdHeap A := {|
  push_heap := sort_heap;
  pop_heap xs := match xs with [] => [] | a :: xs' => sort_heap xs' ++ [a] end;
  make_heap := sort_heap |}.
Next Obligation. intros xs. apply merge_sort_Permutation. Qed.
Next Obligation. intros xs a _. apply sort_heap_heap. Qed.
Next Obligation.
  intros xs a _. exists (sort_heap xs). split_and!; [done| |apply sort_heap_heap].
  apply merge_sort_Permutation.
Qed.
Next Obligation. intros xs. apply merge_sort_Permutation. Qed.
Next Obligation. intros xs. apply sort_heap_heap. Qed.
End sorting.
