(* ===== verification/Frame.v ===== *)
(** * Coroutine frame allocation (include/snowy/detail/frame.hpp)

    A frame allocated with a user allocator keeps a copy of that allocator behind
    the frame, in whole blocks.  [std::size_t] arithmetic is modulo [2^64]; the
    allocator and the blocks it hands out are an explicit store. *)
From S2P Require Import Prelude.

(** ** Machine words *)
Definition size_max : Z := 2 ^ 64 - 1.
Definition usize (z : Z) : Z := z mod 2 ^ 64.

Section frame.
Context {A : Type}.
(** [sizeof(block)] and [sizeof(A)] *)
Variables (block alloc_size : Z).

(** The allocations of an allocator and the [A] objects constructed in them. *)
Record arena := Arena {
  ar_live : gmap Z (A * Z);  (** base block ↦ the allocator and the count given to it *)
  ar_saved : gmap Z A        (** block address ↦ the [A] constructed there *)
}.
Implicit Types (m : arena) (size : Z) (source : A).

(** [static std::size_t slots(std::size_t size) noexcept] *)
Definition slots size : Z := usize (usize (size + block) - 1) / block.

(** [traits::allocate(alloc, n)] returning the base [base] picked by the allocator *)
Definition allocate source (base n : Z) : M arena Z := λ m,
  Ret base (Arena (<[base := (source, n)]> (ar_live m)) (ar_saved m)).
(** [traits::deallocate(alloc, base, n)]: the allocator and the count must be those
    of the allocation. *)
Definition deallocate `{EqDecision A} source (base n : Z) : M arena unit := λ m,
  if decide (ar_live m !! base = Some (source, n))
  then Ret tt (Arena (delete base (ar_live m)) (ar_saved m)) else Undefined.
Definition construct_at (p : Z) source : M arena unit :=
  modify (λ m, Arena (ar_live m) (<[p := source]> (ar_saved m))).
Definition destroy_at (p : Z) : M arena unit :=
  modify (λ m, Arena (ar_live m) (delete p (ar_saved m))).

(** [static void* operator new(std::size_t size, const A& source, Args&...)] *)
Definition frame_new (base size : Z) source : M arena Z :=
  if bool_decide (usize (usize (size_max - block) - alloc_size) < size)%Z then throw bad_alloc else
    let offset := slots size in
    memory ← allocate source base (usize (offset + slots alloc_size));
    construct_at (memory + offset) source ;;
    mret memory.

(** [static void operator delete(void* memory, std::size_t size) noexcept] *)
Definition frame_delete `{EqDecision A} (memory size : Z) : M arena unit :=
  let saved := (memory + slots size)%Z in
  alloc ← deref (λ m, ar_saved m !! saved);
  destroy_at saved ;;
  deallocate alloc memory (usize (slots size + slots alloc_size)).

(** ** Properties *)
Hypothesis block_pos : (0 < block)%Z.
Hypothesis alloc_pos : (0 < alloc_size)%Z.
Hypothesis small : (2 * block + 2 * alloc_size ≤ size_max)%Z.

Lemma usize_small z : (0 ≤ z ≤ size_max)%Z → usize z = z.
Proof. unfold usize, size_max. intros. apply Z.mod_small. lia. Qed.

(** The greatest frame the overflow guard lets through. *)
Definition frame_limit : Z := size_max - block - alloc_size.
Lemma guard_value : usize (usize (size_max - block) - alloc_size) = frame_limit.
Proof. unfold frame_limit. rewrite (usize_small (size_max - block)), usize_small; lia. Qed.

Lemma slots_spec size :
  (0 ≤ size)%Z → (size + block ≤ size_max)%Z → (1 ≤ size + block)%Z →
  (size ≤ slots size * block ≤ size + block - 1)%Z.
Proof.
  intros H0 H1 H2. unfold slots. rewrite (usize_small (size + block)), usize_small by lia.
  pose proof (Z.div_mod (size + block - 1) block ltac:(lia)) as Hd.
  pose proof (Z.mod_pos_bound (size + block - 1) block block_pos). nia.
Qed.

Lemma frame_new_run base size source m :
  (0 ≤ size ≤ frame_limit)%Z →
  frame_new base size source m =
    Ret base (Arena (<[base := (source, slots size + slots alloc_size)%Z]> (ar_live m))
                    (<[(base + slots size)%Z := source]> (ar_saved m))).
Proof.
  intros Hs. unfold frame_new. rewrite guard_value, bool_decide_false by lia. simpl.
  unfold frame_limit in Hs. pose proof (slots_spec size) as H1. pose proof (slots_spec alloc_size) as H2.
  cbn. rewrite usize_small; [done|]. nia.
Qed.

(** A frame of any size is either refused with [bad_alloc], allocating nothing, or placed
    so that the frame and the allocator saved behind it do not overlap and fit in the
    blocks requested: no computation wraps around. *)
Theorem frame_layout base size source m :
  (0 ≤ size ≤ size_max)%Z →
  match frame_new base size source m with
  | Throw e m' => e = bad_alloc ∧ m' = m ∧ (frame_limit < size)%Z
  | Ret p m' => p = base ∧ (size ≤ frame_limit)%Z ∧
      ∃ n, ar_live m' !! base = Some (source, n) ∧
           ar_saved m' !! (base + slots size)%Z = Some source ∧
           (size ≤ slots size * block)%Z ∧ (slots size * block + alloc_size ≤ n * block)%Z
  | _ => False
  end.
Proof.
  intros Hs. destruct (decide (size ≤ frame_limit)%Z) as [Hle|Hgt].
  - rewrite frame_new_run by lia. split_and!; [done..|]. eexists. simpl. rewrite !lookup_insert_eq.
    unfold frame_limit in Hle. pose proof (slots_spec size). pose proof (slots_spec alloc_size).
    split_and!; [done..|lia|nia].
  - unfold frame_new. rewrite guard_value, bool_decide_true by lia. split_and!; [done..|lia].
Qed.

(** Freeing a frame with its original size returns exactly the blocks that were allocated
    for it, to a copy of the allocator they came from, and leaves everything else as it
    was before the allocation. *)
Theorem frame_roundtrip `{EqDecision A} base size source m :
  (0 ≤ size ≤ frame_limit)%Z →
  ar_live m !! base = None → ar_saved m !! (base + slots size)%Z = None →
  (p ← frame_new base size source; frame_delete p size) m = Ret tt m.
Proof.
  intros Hs Hl Hv. unfold mbind, M_bind. rewrite frame_new_run by done. unfold frame_delete, mbind, M_bind, deref. simpl.
  rewrite lookup_insert_eq. unfold deallocate. simpl.
  unfold frame_limit in Hs. pose proof (slots_spec size). pose proof (slots_spec alloc_size).
  rewrite usize_small by nia. rewrite decide_True by apply lookup_insert_eq.
  rewrite !delete_insert_id by done. by destruct m.
Qed.
End frame.
Arguments arena : clear implicits.

(** Blocks of 16 bytes and an allocator of 8. *)
Lemma frame_layout_witness :
  match frame_new 16 8 100 41 true (Arena ∅ ∅) with
  | Throw e m' => e = bad_alloc ∧ m' = Arena ∅ ∅ ∧ (frame_limit 16 8 < 41)%Z
  | Ret p m' => p = 100%Z ∧ (41 ≤ frame_limit 16 8)%Z ∧
      ∃ n, ar_live m' !! 100%Z = Some (true, n) ∧
           ar_saved m' !! (100 + slots 16 41)%Z = Some true ∧
           (41 ≤ slots 16 41 * 16)%Z ∧ (slots 16 41 * 16 + 8 ≤ n * 16)%Z
  | _ => False
  end.
Proof. apply (frame_layout 16 8); unfold size_max; lia. Defined.

Lemma frame_roundtrip_witness :
  (p ← frame_new 16 8 100 41 true; frame_delete 16 8 p 41) (Arena ∅ ∅) = Ret tt (Arena ∅ ∅).
Proof. apply (frame_roundtrip 16 8); unfold frame_limit, size_max; [lia..|done|done]. Defined.
