(* ===== verification/Core.v ===== *)
(** * Objects and memory

    The data of include/snowy/loop.hpp, detail/io.hpp, event.hpp and
    detail/wait_queue.hpp.  An object is named by its address [loc]; the fields of
    each class live in a map of their own, so that the sub-objects of one C++
    object (a [remote_wait] is at once a [wait], an [op], a [work] and a
    [message]) are reached from the same address and never overlap.  A
    [remote_wait] has two [ready_operation] sub-objects, the one of its [work]
    and the one of its [message]: [rnode] tells them apart. *)
From S2P Require Import Prelude ReadyQueue Links.

Abbreviation loc := nat (only parsing).
Abbreviation loopid := nat (only parsing).
Abbreviation tid := nat (only parsing).
Abbreviation source := nat (only parsing).
Abbreviation coro := nat (only parsing).
Abbreviation fn := nat (only parsing).

(** A [std::stop_token]: the stop source it observes, if any. *)
Abbreviation token := (option source) (only parsing).

(** A [ready_operation] sub-object. *)
Inductive rnode := work_node (x : loc) | message_node (x : loc).
#[global] Instance rnode_eq_dec : EqDecision rnode.
Proof. solve_decision. Defined.
#[global] Instance rnode_countable : Countable rnode.
Proof.
  refine (inj_countable' (λ n, match n with work_node x => inl x | message_node x => inr x end)
            (λ s : loc + loc, match s with inl x => work_node x | inr x => message_node x end) _).
  by intros [].
Defined.

(** [struct message]: what [run] does with it, and the loop it is sent to. *)
Inductive run_fn :=
| run_notify                (** [remote_wait]: [notify()] *)
| run_resume (h : coro).    (** [loop::hop]: [handle.resume()] *)
Record message := Message { msg_run : run_fn; msg_owner : loopid }.

(** [struct work]: its continuation; [work_owner] is the owner of the [yield] or
    [op] it is embedded in. *)
Record work := Work { work_handle : option coro; work_owner : loopid }.

(** [struct op] *)
Record op := Op {
  op_owner : loopid;  (** loop& owner *)
  op_error : option errc;  (** std::error_code error *)
  op_canceled : bool;  (** std::atomic_bool canceled *)
  op_active : bool;  (** bool active *)
  op_callback : option source  (** std::optional<std::stop_callback<cancel_fn>> callback *)
}.

(** [struct wait]: [interrupt] is either null or the hook of [remote_wait]. *)
Inductive interrupt_fn := interrupt_remote.
Record wait := Wait { wait_interruptible : bool; wait_interrupt : option interrupt_fn }.

(** [struct loop::timer] *)
Record timer := Timer { timer_due : Z; timer_token : token }.

(** [enum class opcode] *)
Inductive opcode :=
| op_nop | op_read | op_write | op_accept | op_connect | op_recv_from | op_send_to
| op_file_read | op_file_write | op_file_sync | op_native.
#[global] Instance opcode_eq_dec : EqDecision opcode.
Proof. solve_decision. Defined.

(** A submission entry: the liburing call that prepared it, with its arguments, and the
    fields the sources set or read afterwards.  [prep_raw] is an entry of another kind
    handed in by the user. *)
Inductive prep :=
| prep_nop
| prep_read (fd : Z) (buf : nat) (len off : Z)
| prep_write (fd : Z) (buf : nat) (len off : Z)
| prep_read_fixed (fd : Z) (buf : nat) (len off slot : Z)
| prep_write_fixed (fd : Z) (buf : nat) (len off slot : Z)
| prep_readv (fd : Z) (vec : nat) (count off : Z)
| prep_writev (fd : Z) (vec : nat) (count off : Z)
| prep_fsync (fd flags : Z)
| prep_fallocate (fd mode off len : Z)
| prep_splice (fd_in off_in fd_out off_out len flags : Z)
| prep_recv (fd : Z) (buf : nat) (len flags : Z)
| prep_send (fd : Z) (buf : nat) (len flags : Z)
| prep_send_zc (fd : Z) (buf : nat) (len flags : Z)
| prep_sendmsg_zc (fd : Z) (message : nat) (flags : Z)
| prep_accept (fd flags : Z)
| prep_connect (fd : Z) (address : list Z) (size : Z)
| prep_recvmsg (fd : Z) (buf : nat) (len : Z) (address : list Z) (namelen flags : Z)
| prep_sendmsg (fd : Z) (buf : nat) (len : Z) (address : list Z) (namelen flags : Z)
| prep_poll_add (fd mask : Z)
| prep_cancel (target : Z)
| prep_openat (dir : Z) (path : nat) (flags mode : Z)
| prep_openat_direct (dir : Z) (path : nat) (flags mode index : Z)
| prep_close_direct (index : Z)
| prep_socket_direct (domain type protocol index : Z)
| prep_accept_direct (fd flags index : Z)
| prep_statx (dir : Z) (path : nat) (flags mask : Z) (out : nat)
| prep_renameat (from to : nat) (flags : Z)
| prep_unlink (path : nat) (flags : Z)
| prep_mkdir (path : nat) (mode : Z)
| prep_waitid (type id : Z) (out : nat) (options : Z)
| prep_raw (opcode : Z).
Record sqe := Sqe { sqe_prep : prep; sqe_flags : Z; sqe_ioprio : Z; sqe_buf_index : Z; sqe_data : Z }.
(** A prepared entry has no flags and no user data yet. *)
Definition prepared (p : prep) : sqe := Sqe p 0 0 0 0.
Definition set_sqe_flags (v : Z) (e : sqe) : sqe := Sqe (sqe_prep e) v (sqe_ioprio e) (sqe_buf_index e) (sqe_data e).
Definition set_sqe_data (v : Z) (e : sqe) : sqe := Sqe (sqe_prep e) (sqe_flags e) (sqe_ioprio e) (sqe_buf_index e) v.

(** The CQE handlers and completion hooks installed by the Linux layer. *)
Inductive result_fn :=
| result_op | result_open | result_stream | result_zc (sent : loc) | result_entry (output : loc).
Inductive retire_fn :=
| retire_zc (sent released : loc) | retire_entry (pending done : loc).

(** [struct io] *)
Record io := Io {
  io_code : opcode;
  io_fd : Z;
  io_data : nat;  (** borrowed buffer *)
  io_size : Z;  (** unsigned size *)
  io_offset : Z;  (** std::uint64_t offset *)
  io_address : list Z;  (** sockaddr_storage address *)
  io_address_size : Z;
  io_accepted : Z;  (** accepted socket, -1 when none *)
  io_bytes : Z;  (** std::size_t bytes *)
  io_token : token;
  io_canceling : bool;  (** a cancel SQE is in flight *)
  io_cancel_sent : bool;
  io_started : bool;
  io_done : bool;  (** the terminal CQE was seen *)
  io_busy : option loc;  (** bool* busy *)
  io_reserved : bool;
  io_prepare : option sqe;  (** the SQE snapshot prepare copies *)
  io_result : option result_fn;
  io_retire : option retire_fn;
  io_draining : bool
}.

(** [class event] and its [awaiter] *)
Record event := Event { event_loop : loopid; event_set : bool; event_head : option loc }.
Record awaiter := Awaiter { aw_event : loc; aw_token : token; aw_linked : bool }.

(** [struct wait_queue] and [struct remote_wait] *)
Record wait_queue := WaitQueue { q_first : option loc; q_last : option loc; q_users : nat }.
Record remote_wait := RemoteWait { rw_queue : loc; rw_token : token; rw_linked : bool }.

(** [class loop], over the state [D] of its native driver. *)
Section world.
Context {D : Type}.

Record loop := Loop {
  l_driver : D;  (** std::unique_ptr<driver> driver_ *)
  l_thread : tid;  (** std::thread::id thread_ *)
  l_ready : ready_queue rnode;  (** detail::ready_queue ready_ *)
  l_timers : list loc;  (** std::vector<timer*> timers_ *)
  l_posts : list fn;  (** std::vector<std::function<void()>> posts_ *)
  l_messages : ready_queue rnode;  (** detail::ready_queue messages_ *)
  l_batch : ready_queue rnode;  (** the local queue messages of a running run() *)
  l_holds : nat;  (** std::atomic_size_t holds_ *)
  l_stopping : bool;  (** std::atomic_bool stopping_ *)
  l_cancel : bool;  (** std::atomic_bool cancel_ *)
  l_roots : nat;  (** std::size_t roots_ *)
  l_budget : nat;  (** unsigned budget_ *)
  l_running : bool;  (** bool running_ *)
  l_error : option exn;  (** std::exception_ptr error_ *)
  l_io : option loc;  (** detail::io* io_ *)
  l_waits : option loc;  (** detail::wait* waits_ *)
  l_woken : bool  (** the native wake source is signalled *)
}.

(** Everything a thread of the program can reach. *)
Record world := World {
  w_thread : tid;  (** std::this_thread::get_id() *)
  w_current : gmap tid loopid;  (** thread_local loop* current_ *)
  w_stops : gmap source bool;  (** stop_requested of each stop source *)
  w_loops : gmap loopid loop;
  w_next : gmap rnode (option rnode);  (** ready_operation::next_ *)
  w_works : gmap loc work;
  w_ops : gmap loc op;
  w_waits : gmap loc wait;
  w_wlinks : gmap loc (link loc);  (** wait::next, wait::prev *)
  w_timers : gmap loc timer;
  w_ios : gmap loc io;
  w_iolinks : gmap loc (link loc);  (** io::next, io::prev *)
  w_messages : gmap loc message;
  w_flags : gmap loc bool;  (** socket direction flags *)
  w_cells : gmap loc Z;  (** counters and result slots of a batch *)
  w_events : gmap loc event;
  w_awaiters : gmap loc awaiter;
  w_alinks : gmap loc (link loc);  (** awaiter::next_, awaiter::prev_ *)
  w_queues : gmap loc wait_queue;
  w_remotes : gmap loc remote_wait;
  w_rlinks : gmap loc (link loc)  (** remote_wait::after, remote_wait::before *)
}.

(** ** Field assignment *)
Definition set_l_driver (v : D) (r : loop) : loop :=
  Loop v (l_thread r) (l_ready r) (l_timers r) (l_posts r) (l_messages r) (l_batch r) (l_holds r)
    (l_stopping r) (l_cancel r) (l_roots r) (l_budget r) (l_running r) (l_error r) (l_io r)
    (l_waits r) (l_woken r).
Definition set_l_thread (v : tid) (r : loop) : loop :=
  Loop (l_driver r) v (l_ready r) (l_timers r) (l_posts r) (l_messages r) (l_batch r) (l_holds r)
    (l_stopping r) (l_cancel r) (l_roots r) (l_budget r) (l_running r) (l_error r) (l_io r)
    (l_waits r) (l_woken r).
Definition set_l_ready (v : ready_queue rnode) (r : loop) : loop :=
  Loop (l_driver r) (l_thread r) v (l_timers r) (l_posts r) (l_messages r) (l_batch r) (l_holds r)
    (l_stopping r) (l_cancel r) (l_roots r) (l_budget r) (l_running r) (l_error r) (l_io r)
    (l_waits r) (l_woken r).
Definition set_l_timers (v : list loc) (r : loop) : loop :=
  Loop (l_driver r) (l_thread r) (l_ready r) v (l_posts r) (l_messages r) (l_batch r) (l_holds r)
    (l_stopping r) (l_cancel r) (l_roots r) (l_budget r) (l_running r) (l_error r) (l_io r)
    (l_waits r) (l_woken r).
Definition set_l_posts (v : list fn) (r : loop) : loop :=
  Loop (l_driver r) (l_thread r) (l_ready r) (l_timers r) v (l_messages r) (l_batch r) (l_holds r)
    (l_stopping r) (l_cancel r) (l_roots r) (l_budget r) (l_running r) (l_error r) (l_io r)
    (l_waits r) (l_woken r).
Definition set_l_messages (v : ready_queue rnode) (r : loop) : loop :=
  Loop (l_driver r) (l_thread r) (l_ready r) (l_timers r) (l_posts r) v (l_batch r) (l_holds r)
    (l_stopping r) (l_cancel r) (l_roots r) (l_budget r) (l_running r) (l_error r) (l_io r)
    (l_waits r) (l_woken r).
Definition set_l_batch (v : ready_queue rnode) (r : loop) : loop :=
  Loop (l_driver r) (l_thread r) (l_ready r) (l_timers r) (l_posts r) (l_messages r) v (l_holds r)
    (l_stopping r) (l_cancel r) (l_roots r) (l_budget r) (l_running r) (l_error r) (l_io r)
    (l_waits r) (l_woken r).
Definition set_l_holds (v : nat) (r : loop) : loop :=
  Loop (l_driver r) (l_thread r) (l_ready r) (l_timers r) (l_posts r) (l_messages r) (l_batch r) v
    (l_stopping r) (l_cancel r) (l_roots r) (l_budget r) (l_running r) (l_error r) (l_io r)
    (l_waits r) (l_woken r).
Definition set_l_stopping (v : bool) (r : loop) : loop :=
  Loop (l_driver r) (l_thread r) (l_ready r) (l_timers r) (l_posts r) (l_messages r) (l_batch r)
    (l_holds r) v (l_cancel r) (l_roots r) (l_budget r) (l_running r) (l_error r) (l_io r)
    (l_waits r) (l_woken r).
Definition set_l_cancel (v : bool) (r : loop) : loop :=
  Loop (l_driver r) (l_thread r) (l_ready r) (l_timers r) (l_posts r) (l_messages r) (l_batch r)
    (l_holds r) (l_stopping r) v (l_roots r) (l_budget r) (l_running r) (l_error r) (l_io r)
    (l_waits r) (l_woken r).
Definition set_l_roots (v : nat) (r : loop) : loop :=
  Loop (l_driver r) (l_thread r) (l_ready r) (l_timers r) (l_posts r) (l_messages r) (l_batch r)
    (l_holds r) (l_stopping r) (l_cancel r) v (l_budget r) (l_running r) (l_error r) (l_io r)
    (l_waits r) (l_woken r).
Definition set_l_budget (v : nat) (r : loop) : loop :=
  Loop (l_driver r) (l_thread r) (l_ready r) (l_timers r) (l_posts r) (l_messages r) (l_batch r)
    (l_holds r) (l_stopping r) (l_cancel r) (l_roots r) v (l_running r) (l_error r) (l_io r)
    (l_waits r) (l_woken r).
Definition set_l_running (v : bool) (r : loop) : loop :=
  Loop (l_driver r) (l_thread r) (l_ready r) (l_timers r) (l_posts r) (l_messages r) (l_batch r)
    (l_holds r) (l_stopping r) (l_cancel r) (l_roots r) (l_budget r) v (l_error r) (l_io r)
    (l_waits r) (l_woken r).
Definition set_l_error (v : option exn) (r : loop) : loop :=
  Loop (l_driver r) (l_thread r) (l_ready r) (l_timers r) (l_posts r) (l_messages r) (l_batch r)
    (l_holds r) (l_stopping r) (l_cancel r) (l_roots r) (l_budget r) (l_running r) v (l_io r)
    (l_waits r) (l_woken r).
Definition set_l_io (v : option loc) (r : loop) : loop :=
  Loop (l_driver r) (l_thread r) (l_ready r) (l_timers r) (l_posts r) (l_messages r) (l_batch r)
    (l_holds r) (l_stopping r) (l_cancel r) (l_roots r) (l_budget r) (l_running r) (l_error r) v
    (l_waits r) (l_woken r).
Definition set_l_waits (v : option loc) (r : loop) : loop :=
  Loop (l_driver r) (l_thread r) (l_ready r) (l_timers r) (l_posts r) (l_messages r) (l_batch r)
    (l_holds r) (l_stopping r) (l_cancel r) (l_roots r) (l_budget r) (l_running r) (l_error r)
    (l_io r) v (l_woken r).
Definition set_l_woken (v : bool) (r : loop) : loop :=
  Loop (l_driver r) (l_thread r) (l_ready r) (l_timers r) (l_posts r) (l_messages r) (l_batch r)
    (l_holds r) (l_stopping r) (l_cancel r) (l_roots r) (l_budget r) (l_running r) (l_error r)
    (l_io r) (l_waits r) v.
Definition set_w_thread (v : tid) (r : world) : world :=
  World v (w_current r) (w_stops r) (w_loops r) (w_next r) (w_works r) (w_ops r) (w_waits r)
    (w_wlinks r) (w_timers r) (w_ios r) (w_iolinks r) (w_messages r) (w_flags r) (w_cells r)
    (w_events r) (w_awaiters r) (w_alinks r) (w_queues r) (w_remotes r) (w_rlinks r).
Definition set_w_current (v : gmap tid loopid) (r : world) : world :=
  World (w_thread r) v (w_stops r) (w_loops r) (w_next r) (w_works r) (w_ops r) (w_waits r)
    (w_wlinks r) (w_timers r) (w_ios r) (w_iolinks r) (w_messages r) (w_flags r) (w_cells r)
    (w_events r) (w_awaiters r) (w_alinks r) (w_queues r) (w_remotes r) (w_rlinks r).
Definition set_w_stops (v : gmap source bool) (r : world) : world :=
  World (w_thread r) (w_current r) v (w_loops r) (w_next r) (w_works r) (w_ops r) (w_waits r)
    (w_wlinks r) (w_timers r) (w_ios r) (w_iolinks r) (w_messages r) (w_flags r) (w_cells r)
    (w_events r) (w_awaiters r) (w_alinks r) (w_queues r) (w_remotes r) (w_rlinks r).
Definition set_w_loops (v : gmap loopid loop) (r : world) : world :=
  World (w_thread r) (w_current r) (w_stops r) v (w_next r) (w_works r) (w_ops r) (w_waits r)
    (w_wlinks r) (w_timers r) (w_ios r) (w_iolinks r) (w_messages r) (w_flags r) (w_cells r)
    (w_events r) (w_awaiters r) (w_alinks r) (w_queues r) (w_remotes r) (w_rlinks r).
Definition set_w_next (v : gmap rnode (option rnode)) (r : world) : world :=
  World (w_thread r) (w_current r) (w_stops r) (w_loops r) v (w_works r) (w_ops r) (w_waits r)
    (w_wlinks r) (w_timers r) (w_ios r) (w_iolinks r) (w_messages r) (w_flags r) (w_cells r)
    (w_events r) (w_awaiters r) (w_alinks r) (w_queues r) (w_remotes r) (w_rlinks r).
Definition set_w_works (v : gmap loc work) (r : world) : world :=
  World (w_thread r) (w_current r) (w_stops r) (w_loops r) (w_next r) v (w_ops r) (w_waits r)
    (w_wlinks r) (w_timers r) (w_ios r) (w_iolinks r) (w_messages r) (w_flags r) (w_cells r)
    (w_events r) (w_awaiters r) (w_alinks r) (w_queues r) (w_remotes r) (w_rlinks r).
Definition set_w_ops (v : gmap loc op) (r : world) : world :=
  World (w_thread r) (w_current r) (w_stops r) (w_loops r) (w_next r) (w_works r) v (w_waits r)
    (w_wlinks r) (w_timers r) (w_ios r) (w_iolinks r) (w_messages r) (w_flags r) (w_cells r)
    (w_events r) (w_awaiters r) (w_alinks r) (w_queues r) (w_remotes r) (w_rlinks r).
Definition set_w_waits (v : gmap loc wait) (r : world) : world :=
  World (w_thread r) (w_current r) (w_stops r) (w_loops r) (w_next r) (w_works r) (w_ops r) v
    (w_wlinks r) (w_timers r) (w_ios r) (w_iolinks r) (w_messages r) (w_flags r) (w_cells r)
    (w_events r) (w_awaiters r) (w_alinks r) (w_queues r) (w_remotes r) (w_rlinks r).
Definition set_w_wlinks (v : gmap loc (link loc)) (r : world) : world :=
  World (w_thread r) (w_current r) (w_stops r) (w_loops r) (w_next r) (w_works r) (w_ops r)
    (w_waits r) v (w_timers r) (w_ios r) (w_iolinks r) (w_messages r) (w_flags r) (w_cells r)
    (w_events r) (w_awaiters r) (w_alinks r) (w_queues r) (w_remotes r) (w_rlinks r).
Definition set_w_timers (v : gmap loc timer) (r : world) : world :=
  World (w_thread r) (w_current r) (w_stops r) (w_loops r) (w_next r) (w_works r) (w_ops r)
    (w_waits r) (w_wlinks r) v (w_ios r) (w_iolinks r) (w_messages r) (w_flags r) (w_cells r)
    (w_events r) (w_awaiters r) (w_alinks r) (w_queues r) (w_remotes r) (w_rlinks r).
Definition set_w_ios (v : gmap loc io) (r : world) : world :=
  World (w_thread r) (w_current r) (w_stops r) (w_loops r) (w_next r) (w_works r) (w_ops r)
    (w_waits r) (w_wlinks r) (w_timers r) v (w_iolinks r) (w_messages r) (w_flags r) (w_cells r)
    (w_events r) (w_awaiters r) (w_alinks r) (w_queues r) (w_remotes r) (w_rlinks r).
Definition set_w_iolinks (v : gmap loc (link loc)) (r : world) : world :=
  World (w_thread r) (w_current r) (w_stops r) (w_loops r) (w_next r) (w_works r) (w_ops r)
    (w_waits r) (w_wlinks r) (w_timers r) (w_ios r) v (w_messages r) (w_flags r) (w_cells r)
    (w_events r) (w_awaiters r) (w_alinks r) (w_queues r) (w_remotes r) (w_rlinks r).
Definition set_w_messages (v : gmap loc message) (r : world) : world :=
  World (w_thread r) (w_current r) (w_stops r) (w_loops r) (w_next r) (w_works r) (w_ops r)
    (w_waits r) (w_wlinks r) (w_timers r) (w_ios r) (w_iolinks r) v (w_flags r) (w_cells r)
    (w_events r) (w_awaiters r) (w_alinks r) (w_queues r) (w_remotes r) (w_rlinks r).
Definition set_w_flags (v : gmap loc bool) (r : world) : world :=
  World (w_thread r) (w_current r) (w_stops r) (w_loops r) (w_next r) (w_works r) (w_ops r)
    (w_waits r) (w_wlinks r) (w_timers r) (w_ios r) (w_iolinks r) (w_messages r) v (w_cells r)
    (w_events r) (w_awaiters r) (w_alinks r) (w_queues r) (w_remotes r) (w_rlinks r).
Definition set_w_cells (v : gmap loc Z) (r : world) : world :=
  World (w_thread r) (w_current r) (w_stops r) (w_loops r) (w_next r) (w_works r) (w_ops r)
    (w_waits r) (w_wlinks r) (w_timers r) (w_ios r) (w_iolinks r) (w_messages r) (w_flags r) v
    (w_events r) (w_awaiters r) (w_alinks r) (w_queues r) (w_remotes r) (w_rlinks r).
Definition set_w_events (v : gmap loc event) (r : world) : world :=
  World (w_thread r) (w_current r) (w_stops r) (w_loops r) (w_next r) (w_works r) (w_ops r)
    (w_waits r) (w_wlinks r) (w_timers r) (w_ios r) (w_iolinks r) (w_messages r) (w_flags r)
    (w_cells r) v (w_awaiters r) (w_alinks r) (w_queues r) (w_remotes r) (w_rlinks r).
Definition set_w_awaiters (v : gmap loc awaiter) (r : world) : world :=
  World (w_thread r) (w_current r) (w_stops r) (w_loops r) (w_next r) (w_works r) (w_ops r)
    (w_waits r) (w_wlinks r) (w_timers r) (w_ios r) (w_iolinks r) (w_messages r) (w_flags r)
    (w_cells r) (w_events r) v (w_alinks r) (w_queues r) (w_remotes r) (w_rlinks r).
Definition set_w_alinks (v : gmap loc (link loc)) (r : world) : world :=
  World (w_thread r) (w_current r) (w_stops r) (w_loops r) (w_next r) (w_works r) (w_ops r)
    (w_waits r) (w_wlinks r) (w_timers r) (w_ios r) (w_iolinks r) (w_messages r) (w_flags r)
    (w_cells r) (w_events r) (w_awaiters r) v (w_queues r) (w_remotes r) (w_rlinks r).
Definition set_w_queues (v : gmap loc wait_queue) (r : world) : world :=
  World (w_thread r) (w_current r) (w_stops r) (w_loops r) (w_next r) (w_works r) (w_ops r)
    (w_waits r) (w_wlinks r) (w_timers r) (w_ios r) (w_iolinks r) (w_messages r) (w_flags r)
    (w_cells r) (w_events r) (w_awaiters r) (w_alinks r) v (w_remotes r) (w_rlinks r).
Definition set_w_remotes (v : gmap loc remote_wait) (r : world) : world :=
  World (w_thread r) (w_current r) (w_stops r) (w_loops r) (w_next r) (w_works r) (w_ops r)
    (w_waits r) (w_wlinks r) (w_timers r) (w_ios r) (w_iolinks r) (w_messages r) (w_flags r)
    (w_cells r) (w_events r) (w_awaiters r) (w_alinks r) (w_queues r) v (w_rlinks r).
Definition set_w_rlinks (v : gmap loc (link loc)) (r : world) : world :=
  World (w_thread r) (w_current r) (w_stops r) (w_loops r) (w_next r) (w_works r) (w_ops r)
    (w_waits r) (w_wlinks r) (w_timers r) (w_ios r) (w_iolinks r) (w_messages r) (w_flags r)
    (w_cells r) (w_events r) (w_awaiters r) (w_alinks r) (w_queues r) (w_remotes r) v.
End world.
Arguments loop : clear implicits.
Arguments world : clear implicits.

Definition set_op_owner (v : loopid) (r : op) : op :=
  Op v (op_error r) (op_canceled r) (op_active r) (op_callback r).
Definition set_op_error (v : option errc) (r : op) : op :=
  Op (op_owner r) v (op_canceled r) (op_active r) (op_callback r).
Definition set_op_canceled (v : bool) (r : op) : op :=
  Op (op_owner r) (op_error r) v (op_active r) (op_callback r).
Definition set_op_active (v : bool) (r : op) : op :=
  Op (op_owner r) (op_error r) (op_canceled r) v (op_callback r).
Definition set_op_callback (v : option source) (r : op) : op :=
  Op (op_owner r) (op_error r) (op_canceled r) (op_active r) v.
Definition set_io_code (v : opcode) (r : io) : io :=
  Io v (io_fd r) (io_data r) (io_size r) (io_offset r) (io_address r) (io_address_size r)
    (io_accepted r) (io_bytes r) (io_token r) (io_canceling r) (io_cancel_sent r) (io_started r)
    (io_done r) (io_busy r) (io_reserved r) (io_prepare r) (io_result r) (io_retire r)
    (io_draining r).
Definition set_io_fd (v : Z) (r : io) : io :=
  Io (io_code r) v (io_data r) (io_size r) (io_offset r) (io_address r) (io_address_size r)
    (io_accepted r) (io_bytes r) (io_token r) (io_canceling r) (io_cancel_sent r) (io_started r)
    (io_done r) (io_busy r) (io_reserved r) (io_prepare r) (io_result r) (io_retire r)
    (io_draining r).
Definition set_io_data (v : nat) (r : io) : io :=
  Io (io_code r) (io_fd r) v (io_size r) (io_offset r) (io_address r) (io_address_size r)
    (io_accepted r) (io_bytes r) (io_token r) (io_canceling r) (io_cancel_sent r) (io_started r)
    (io_done r) (io_busy r) (io_reserved r) (io_prepare r) (io_result r) (io_retire r)
    (io_draining r).
Definition set_io_size (v : Z) (r : io) : io :=
  Io (io_code r) (io_fd r) (io_data r) v (io_offset r) (io_address r) (io_address_size r)
    (io_accepted r) (io_bytes r) (io_token r) (io_canceling r) (io_cancel_sent r) (io_started r)
    (io_done r) (io_busy r) (io_reserved r) (io_prepare r) (io_result r) (io_retire r)
    (io_draining r).
Definition set_io_offset (v : Z) (r : io) : io :=
  Io (io_code r) (io_fd r) (io_data r) (io_size r) v (io_address r) (io_address_size r)
    (io_accepted r) (io_bytes r) (io_token r) (io_canceling r) (io_cancel_sent r) (io_started r)
    (io_done r) (io_busy r) (io_reserved r) (io_prepare r) (io_result r) (io_retire r)
    (io_draining r).
Definition set_io_address (v : list Z) (r : io) : io :=
  Io (io_code r) (io_fd r) (io_data r) (io_size r) (io_offset r) v (io_address_size r)
    (io_accepted r) (io_bytes r) (io_token r) (io_canceling r) (io_cancel_sent r) (io_started r)
    (io_done r) (io_busy r) (io_reserved r) (io_prepare r) (io_result r) (io_retire r)
    (io_draining r).
Definition set_io_address_size (v : Z) (r : io) : io :=
  Io (io_code r) (io_fd r) (io_data r) (io_size r) (io_offset r) (io_address r) v (io_accepted r)
    (io_bytes r) (io_token r) (io_canceling r) (io_cancel_sent r) (io_started r) (io_done r)
    (io_busy r) (io_reserved r) (io_prepare r) (io_result r) (io_retire r) (io_draining r).
Definition set_io_accepted (v : Z) (r : io) : io :=
  Io (io_code r) (io_fd r) (io_data r) (io_size r) (io_offset r) (io_address r)
    (io_address_size r) v (io_bytes r) (io_token r) (io_canceling r) (io_cancel_sent r)
    (io_started r) (io_done r) (io_busy r) (io_reserved r) (io_prepare r) (io_result r)
    (io_retire r) (io_draining r).
Definition set_io_bytes (v : Z) (r : io) : io :=
  Io (io_code r) (io_fd r) (io_data r) (io_size r) (io_offset r) (io_address r)
    (io_address_size r) (io_accepted r) v (io_token r) (io_canceling r) (io_cancel_sent r)
    (io_started r) (io_done r) (io_busy r) (io_reserved r) (io_prepare r) (io_result r)
    (io_retire r) (io_draining r).
Definition set_io_token (v : token) (r : io) : io :=
  Io (io_code r) (io_fd r) (io_data r) (io_size r) (io_offset r) (io_address r)
    (io_address_size r) (io_accepted r) (io_bytes r) v (io_canceling r) (io_cancel_sent r)
    (io_started r) (io_done r) (io_busy r) (io_reserved r) (io_prepare r) (io_result r)
    (io_retire r) (io_draining r).
Definition set_io_canceling (v : bool) (r : io) : io :=
  Io (io_code r) (io_fd r) (io_data r) (io_size r) (io_offset r) (io_address r)
    (io_address_size r) (io_accepted r) (io_bytes r) (io_token r) v (io_cancel_sent r)
    (io_started r) (io_done r) (io_busy r) (io_reserved r) (io_prepare r) (io_result r)
    (io_retire r) (io_draining r).
Definition set_io_cancel_sent (v : bool) (r : io) : io :=
  Io (io_code r) (io_fd r) (io_data r) (io_size r) (io_offset r) (io_address r)
    (io_address_size r) (io_accepted r) (io_bytes r) (io_token r) (io_canceling r) v
    (io_started r) (io_done r) (io_busy r) (io_reserved r) (io_prepare r) (io_result r)
    (io_retire r) (io_draining r).
Definition set_io_started (v : bool) (r : io) : io :=
  Io (io_code r) (io_fd r) (io_data r) (io_size r) (io_offset r) (io_address r)
    (io_address_size r) (io_accepted r) (io_bytes r) (io_token r) (io_canceling r)
    (io_cancel_sent r) v (io_done r) (io_busy r) (io_reserved r) (io_prepare r) (io_result r)
    (io_retire r) (io_draining r).
Definition set_io_done (v : bool) (r : io) : io :=
  Io (io_code r) (io_fd r) (io_data r) (io_size r) (io_offset r) (io_address r)
    (io_address_size r) (io_accepted r) (io_bytes r) (io_token r) (io_canceling r)
    (io_cancel_sent r) (io_started r) v (io_busy r) (io_reserved r) (io_prepare r) (io_result r)
    (io_retire r) (io_draining r).
Definition set_io_busy (v : option loc) (r : io) : io :=
  Io (io_code r) (io_fd r) (io_data r) (io_size r) (io_offset r) (io_address r)
    (io_address_size r) (io_accepted r) (io_bytes r) (io_token r) (io_canceling r)
    (io_cancel_sent r) (io_started r) (io_done r) v (io_reserved r) (io_prepare r) (io_result r)
    (io_retire r) (io_draining r).
Definition set_io_reserved (v : bool) (r : io) : io :=
  Io (io_code r) (io_fd r) (io_data r) (io_size r) (io_offset r) (io_address r)
    (io_address_size r) (io_accepted r) (io_bytes r) (io_token r) (io_canceling r)
    (io_cancel_sent r) (io_started r) (io_done r) (io_busy r) v (io_prepare r) (io_result r)
    (io_retire r) (io_draining r).
Definition set_io_prepare (v : option sqe) (r : io) : io :=
  Io (io_code r) (io_fd r) (io_data r) (io_size r) (io_offset r) (io_address r)
    (io_address_size r) (io_accepted r) (io_bytes r) (io_token r) (io_canceling r)
    (io_cancel_sent r) (io_started r) (io_done r) (io_busy r) (io_reserved r) v (io_result r)
    (io_retire r) (io_draining r).
Definition set_io_result (v : option result_fn) (r : io) : io :=
  Io (io_code r) (io_fd r) (io_data r) (io_size r) (io_offset r) (io_address r)
    (io_address_size r) (io_accepted r) (io_bytes r) (io_token r) (io_canceling r)
    (io_cancel_sent r) (io_started r) (io_done r) (io_busy r) (io_reserved r) (io_prepare r) v
    (io_retire r) (io_draining r).
Definition set_io_retire (v : option retire_fn) (r : io) : io :=
  Io (io_code r) (io_fd r) (io_data r) (io_size r) (io_offset r) (io_address r)
    (io_address_size r) (io_accepted r) (io_bytes r) (io_token r) (io_canceling r)
    (io_cancel_sent r) (io_started r) (io_done r) (io_busy r) (io_reserved r) (io_prepare r)
    (io_result r) v (io_draining r).
Definition set_io_draining (v : bool) (r : io) : io :=
  Io (io_code r) (io_fd r) (io_data r) (io_size r) (io_offset r) (io_address r)
    (io_address_size r) (io_accepted r) (io_bytes r) (io_token r) (io_canceling r)
    (io_cancel_sent r) (io_started r) (io_done r) (io_busy r) (io_reserved r) (io_prepare r)
    (io_result r) (io_retire r) v.
Definition set_wait_interruptible (v : bool) (r : wait) : wait := Wait v (wait_interrupt r).
Definition set_event_set (v : bool) (r : event) : event := Event (event_loop r) v (event_head r).
Definition set_event_head (v : option loc) (r : event) : event := Event (event_loop r) (event_set r) v.
Definition set_aw_linked (v : bool) (r : awaiter) : awaiter := Awaiter (aw_event r) (aw_token r) v.
Definition set_rw_linked (v : bool) (r : remote_wait) : remote_wait :=
  RemoteWait (rw_queue r) (rw_token r) v.
Definition set_q_ends (f t : option loc) (r : wait_queue) : wait_queue := WaitQueue f t (q_users r).
Definition set_q_users (v : nat) (r : wait_queue) : wait_queue := WaitQueue (q_first r) (q_last r) v.
Definition set_work_handle (v : option coro) (r : work) : work := Work v (work_owner r).

(** ** Access through pointers *)
Section access.
Context {D : Type}.
Local Abbreviation M := (M (world D)).

Definition the_loop (x : loopid) : M (loop D) := deref (λ w, w_loops w !! x).
Definition upd_loop (x : loopid) (f : loop D → loop D) : M unit :=
  r ← the_loop x; modify (λ w, set_w_loops (<[x := f r]> (w_loops w)) w).
Definition the_work (x : loc) : M (work) := deref (λ w, w_works w !! x).
Definition upd_work (x : loc) (f : work → work) : M unit :=
  r ← the_work x; modify (λ w, set_w_works (<[x := f r]> (w_works w)) w).
Definition the_op (x : loc) : M (op) := deref (λ w, w_ops w !! x).
Definition upd_op (x : loc) (f : op → op) : M unit :=
  r ← the_op x; modify (λ w, set_w_ops (<[x := f r]> (w_ops w)) w).
Definition the_wait (x : loc) : M (wait) := deref (λ w, w_waits w !! x).
Definition upd_wait (x : loc) (f : wait → wait) : M unit :=
  r ← the_wait x; modify (λ w, set_w_waits (<[x := f r]> (w_waits w)) w).
Definition the_timer (x : loc) : M (timer) := deref (λ w, w_timers w !! x).
Definition upd_timer (x : loc) (f : timer → timer) : M unit :=
  r ← the_timer x; modify (λ w, set_w_timers (<[x := f r]> (w_timers w)) w).
Definition the_io (x : loc) : M (io) := deref (λ w, w_ios w !! x).
Definition upd_io (x : loc) (f : io → io) : M unit :=
  r ← the_io x; modify (λ w, set_w_ios (<[x := f r]> (w_ios w)) w).
Definition the_event (x : loc) : M (event) := deref (λ w, w_events w !! x).
Definition upd_event (x : loc) (f : event → event) : M unit :=
  r ← the_event x; modify (λ w, set_w_events (<[x := f r]> (w_events w)) w).
Definition the_awaiter (x : loc) : M (awaiter) := deref (λ w, w_awaiters w !! x).
Definition upd_awaiter (x : loc) (f : awaiter → awaiter) : M unit :=
  r ← the_awaiter x; modify (λ w, set_w_awaiters (<[x := f r]> (w_awaiters w)) w).
Definition the_queue (x : loc) : M (wait_queue) := deref (λ w, w_queues w !! x).
Definition upd_queue (x : loc) (f : wait_queue → wait_queue) : M unit :=
  r ← the_queue x; modify (λ w, set_w_queues (<[x := f r]> (w_queues w)) w).
Definition the_remote (x : loc) : M (remote_wait) := deref (λ w, w_remotes w !! x).
Definition upd_remote (x : loc) (f : remote_wait → remote_wait) : M unit :=
  r ← the_remote x; modify (λ w, set_w_remotes (<[x := f r]> (w_remotes w)) w).
Definition the_message (x : loc) : M (message) := deref (λ w, w_messages w !! x).
Definition upd_message (x : loc) (f : message → message) : M unit :=
  r ← the_message x; modify (λ w, set_w_messages (<[x := f r]> (w_messages w)) w).
Definition the_flag (x : loc) : M (bool) := deref (λ w, w_flags w !! x).
Definition upd_flag (x : loc) (f : bool → bool) : M unit :=
  r ← the_flag x; modify (λ w, set_w_flags (<[x := f r]> (w_flags w)) w).
Definition the_cell (x : loc) : M (Z) := deref (λ w, w_cells w !! x).
Definition upd_cell (x : loc) (f : Z → Z) : M unit :=
  r ← the_cell x; modify (λ w, set_w_cells (<[x := f r]> (w_cells w)) w).

(** A queue operation on a loop's [ready_] or [messages_]. *)
Definition on_ready {A} (L : loopid) (c : Prelude.M (rq_mem rnode) A) : M A :=
  zoom (λ w, l ← w_loops w !! L; Some (RqMem (w_next w) (l_ready l)))
       (λ s w, set_w_next (rq_next s) (set_w_loops (alter (set_l_ready (rq_queue s)) L (w_loops w)) w)) c.
Definition on_messages {A} (L : loopid) (c : Prelude.M (rq_mem rnode) A) : M A :=
  zoom (λ w, l ← w_loops w !! L; Some (RqMem (w_next w) (l_messages l)))
       (λ s w, set_w_next (rq_next s) (set_w_loops (alter (set_l_messages (rq_queue s)) L (w_loops w)) w)) c.
Definition on_batch {A} (L : loopid) (c : Prelude.M (rq_mem rnode) A) : M A :=
  zoom (λ w, l ← w_loops w !! L; Some (RqMem (w_next w) (l_batch l)))
       (λ s w, set_w_next (rq_next s) (set_w_loops (alter (set_l_batch (rq_queue s)) L (w_loops w)) w)) c.

(** A list operation on a loop's [waits_] or [io_], an event's awaiters or a
    wait queue's waiters. *)
Definition on_waits {A} (L : loopid) (c : Prelude.M (dl_mem loc) A) : M A :=
  zoom (λ w, l ← w_loops w !! L; Some (DlMem (w_wlinks w) (l_waits l) None))
       (λ s w, set_w_wlinks (dl_links s) (set_w_loops (alter (set_l_waits (dl_first s)) L (w_loops w)) w)) c.
Definition on_ios {A} (L : loopid) (c : Prelude.M (dl_mem loc) A) : M A :=
  zoom (λ w, l ← w_loops w !! L; Some (DlMem (w_iolinks w) (l_io l) None))
       (λ s w, set_w_iolinks (dl_links s) (set_w_loops (alter (set_l_io (dl_first s)) L (w_loops w)) w)) c.
Definition on_event {A} (e : loc) (c : Prelude.M (dl_mem loc) A) : M A :=
  zoom (λ w, v ← w_events w !! e; Some (DlMem (w_alinks w) (event_head v) None))
       (λ s w, set_w_alinks (dl_links s) (set_w_events (alter (set_event_head (dl_first s)) e (w_events w)) w)) c.
Definition on_queue {A} (q : loc) (c : Prelude.M (dl_mem loc) A) : M A :=
  zoom (λ w, v ← w_queues w !! q; Some (DlMem (w_rlinks w) (q_first v) (q_last v)))
       (λ s w, set_w_rlinks (dl_links s)
                 (set_w_queues (alter (set_q_ends (dl_first s) (dl_last s)) q (w_queues w)) w)) c.
End access.

(** ** Reasoning rules for the accessors *)
Section access_post.
Context {D : Type}.
Implicit Types w : world D.

Lemma post_the_loop x r w Q E : w_loops w !! x = Some r → Q r w → post (the_loop x) w Q E.
Proof. intros Hr HQ. unfold the_loop. by eapply post_deref. Qed.
Lemma post_upd_loop x f r w Q E :
  w_loops w !! x = Some r → Q tt (set_w_loops (<[x := f r]> (w_loops w)) w) → post (upd_loop x f) w Q E.
Proof. intros Hr HQ. apply post_bind. by eapply post_the_loop, post_modify. Qed.
Lemma post_the_work x r w Q E : w_works w !! x = Some r → Q r w → post (the_work x) w Q E.
Proof. intros Hr HQ. unfold the_work. by eapply post_deref. Qed.
Lemma post_upd_work x f r w Q E :
  w_works w !! x = Some r → Q tt (set_w_works (<[x := f r]> (w_works w)) w) → post (upd_work x f) w Q E.
Proof. intros Hr HQ. apply post_bind. by eapply post_the_work, post_modify. Qed.
Lemma post_the_op x r w Q E : w_ops w !! x = Some r → Q r w → post (the_op x) w Q E.
Proof. intros Hr HQ. unfold the_op. by eapply post_deref. Qed.
Lemma post_upd_op x f r w Q E :
  w_ops w !! x = Some r → Q tt (set_w_ops (<[x := f r]> (w_ops w)) w) → post (upd_op x f) w Q E.
Proof. intros Hr HQ. apply post_bind. by eapply post_the_op, post_modify. Qed.
Lemma post_the_wait x r w Q E : w_waits w !! x = Some r → Q r w → post (the_wait x) w Q E.
Proof. intros Hr HQ. unfold the_wait. by eapply post_deref. Qed.
Lemma post_upd_wait x f r w Q E :
  w_waits w !! x = Some r → Q tt (set_w_waits (<[x := f r]> (w_waits w)) w) → post (upd_wait x f) w Q E.
Proof. intros Hr HQ. apply post_bind. by eapply post_the_wait, post_modify. Qed.
Lemma post_the_timer x r w Q E : w_timers w !! x = Some r → Q r w → post (the_timer x) w Q E.
Proof. intros Hr HQ. unfold the_timer. by eapply post_deref. Qed.
Lemma post_upd_timer x f r w Q E :
  w_timers w !! x = Some r → Q tt (set_w_timers (<[x := f r]> (w_timers w)) w) → post (upd_timer x f) w Q E.
Proof. intros Hr HQ. apply post_bind. by eapply post_the_timer, post_modify. Qed.
Lemma post_the_io x r w Q E : w_ios w !! x = Some r → Q r w → post (the_io x) w Q E.
Proof. intros Hr HQ. unfold the_io. by eapply post_deref. Qed.
Lemma post_upd_io x f r w Q E :
  w_ios w !! x = Some r → Q tt (set_w_ios (<[x := f r]> (w_ios w)) w) → post (upd_io x f) w Q E.
Proof. intros Hr HQ. apply post_bind. by eapply post_the_io, post_modify. Qed.
Lemma post_the_event x r w Q E : w_events w !! x = Some r → Q r w → post (the_event x) w Q E.
Proof. intros Hr HQ. unfold the_event. by eapply post_deref. Qed.
Lemma post_upd_event x f r w Q E :
  w_events w !! x = Some r → Q tt (set_w_events (<[x := f r]> (w_events w)) w) → post (upd_event x f) w Q E.
Proof. intros Hr HQ. apply post_bind. by eapply post_the_event, post_modify. Qed.
Lemma post_the_awaiter x r w Q E : w_awaiters w !! x = Some r → Q r w → post (the_awaiter x) w Q E.
Proof. intros Hr HQ. unfold the_awaiter. by eapply post_deref. Qed.
Lemma post_upd_awaiter x f r w Q E :
  w_awaiters w !! x = Some r → Q tt (set_w_awaiters (<[x := f r]> (w_awaiters w)) w) → post (upd_awaiter x f) w Q E.
Proof. intros Hr HQ. apply post_bind. by eapply post_the_awaiter, post_modify. Qed.
Lemma post_the_queue x r w Q E : w_queues w !! x = Some r → Q r w → post (the_queue x) w Q E.
Proof. intros Hr HQ. unfold the_queue. by eapply post_deref. Qed.
Lemma post_upd_queue x f r w Q E :
  w_queues w !! x = Some r → Q tt (set_w_queues (<[x := f r]> (w_queues w)) w) → post (upd_queue x f) w Q E.
Proof. intros Hr HQ. apply post_bind. by eapply post_the_queue, post_modify. Qed.
Lemma post_the_remote x r w Q E : w_remotes w !! x = Some r → Q r w → post (the_remote x) w Q E.
Proof. intros Hr HQ. unfold the_remote. by eapply post_deref. Qed.
Lemma post_upd_remote x f r w Q E :
  w_remotes w !! x = Some r → Q tt (set_w_remotes (<[x := f r]> (w_remotes w)) w) → post (upd_remote x f) w Q E.
Proof. intros Hr HQ. apply post_bind. by eapply post_the_remote, post_modify. Qed.
Lemma post_the_message x r w Q E : w_messages w !! x = Some r → Q r w → post (the_message x) w Q E.
Proof. intros Hr HQ. unfold the_message. by eapply post_deref. Qed.
Lemma post_upd_message x f r w Q E :
  w_messages w !! x = Some r → Q tt (set_w_messages (<[x := f r]> (w_messages w)) w) → post (upd_message x f) w Q E.
Proof. intros Hr HQ. apply post_bind. by eapply post_the_message, post_modify. Qed.
Lemma post_the_flag x r w Q E : w_flags w !! x = Some r → Q r w → post (the_flag x) w Q E.
Proof. intros Hr HQ. unfold the_flag. by eapply post_deref. Qed.
Lemma post_upd_flag x f r w Q E :
  w_flags w !! x = Some r → Q tt (set_w_flags (<[x := f r]> (w_flags w)) w) → post (upd_flag x f) w Q E.
Proof. intros Hr HQ. apply post_bind. by eapply post_the_flag, post_modify. Qed.
Lemma post_the_cell x r w Q E : w_cells w !! x = Some r → Q r w → post (the_cell x) w Q E.
Proof. intros Hr HQ. unfold the_cell. by eapply post_deref. Qed.
Lemma post_upd_cell x f r w Q E :
  w_cells w !! x = Some r → Q tt (set_w_cells (<[x := f r]> (w_cells w)) w) → post (upd_cell x f) w Q E.
Proof. intros Hr HQ. apply post_bind. by eapply post_the_cell, post_modify. Qed.
Lemma post_on_ready {A} (c : M (rq_mem rnode) A) L l a s w Q E :
  w_loops w !! L = Some l → c (RqMem (w_next w) (l_ready l)) = Ret a s →
  Q a (set_w_next (rq_next s) (set_w_loops (alter (set_l_ready (rq_queue s)) L (w_loops w)) w)) →
  post (on_ready L c) w Q E.
Proof.
  intros Hl Hc HQ. unfold on_ready. eapply post_zoom; [by rewrite Hl|].
  unfold post. by rewrite Hc.
Qed.
Lemma post_on_messages {A} (c : M (rq_mem rnode) A) L l a s w Q E :
  w_loops w !! L = Some l → c (RqMem (w_next w) (l_messages l)) = Ret a s →
  Q a (set_w_next (rq_next s) (set_w_loops (alter (set_l_messages (rq_queue s)) L (w_loops w)) w)) →
  post (on_messages L c) w Q E.
Proof.
  intros Hl Hc HQ. unfold on_messages. eapply post_zoom; [by rewrite Hl|].
  unfold post. by rewrite Hc.
Qed.
Lemma post_on_batch {A} (c : M (rq_mem rnode) A) L l a s w Q E :
  w_loops w !! L = Some l → c (RqMem (w_next w) (l_batch l)) = Ret a s →
  Q a (set_w_next (rq_next s) (set_w_loops (alter (set_l_batch (rq_queue s)) L (w_loops w)) w)) →
  post (on_batch L c) w Q E.
Proof.
  intros Hl Hc HQ. unfold on_batch. eapply post_zoom; [by rewrite Hl|].
  unfold post. by rewrite Hc.
Qed.
Lemma post_on_waits {A} (c : M (dl_mem loc) A) L l a s w Q E :
  w_loops w !! L = Some l → c (DlMem (w_wlinks w) (l_waits l) None) = Ret a s →
  Q a (set_w_wlinks (dl_links s) (set_w_loops (alter (set_l_waits (dl_first s)) L (w_loops w)) w)) →
  post (on_waits L c) w Q E.
Proof.
  intros Hl Hc HQ. unfold on_waits. eapply post_zoom; [by rewrite Hl|].
  unfold post. by rewrite Hc.
Qed.
Lemma post_on_ios {A} (c : M (dl_mem loc) A) L l a s w Q E :
  w_loops w !! L = Some l → c (DlMem (w_iolinks w) (l_io l) None) = Ret a s →
  Q a (set_w_iolinks (dl_links s) (set_w_loops (alter (set_l_io (dl_first s)) L (w_loops w)) w)) →
  post (on_ios L c) w Q E.
Proof.
  intros Hl Hc HQ. unfold on_ios. eapply post_zoom; [by rewrite Hl|].
  unfold post. by rewrite Hc.
Qed.
Lemma post_on_event {A} (c : M (dl_mem loc) A) L l a s w Q E :
  w_events w !! L = Some l → c (DlMem (w_alinks w) (event_head l) None) = Ret a s →
  Q a (set_w_alinks (dl_links s) (set_w_events (alter (set_event_head (dl_first s)) L (w_events w)) w)) →
  post (on_event L c) w Q E.
Proof.
  intros Hl Hc HQ. unfold on_event. eapply post_zoom; [by rewrite Hl|].
  unfold post. by rewrite Hc.
Qed.
Lemma post_on_queue {A} (c : M (dl_mem loc) A) L l a s w Q E :
  w_queues w !! L = Some l → c (DlMem (w_rlinks w) (q_first l) (q_last l)) = Ret a s →
  Q a (set_w_rlinks (dl_links s) (set_w_queues (alter (set_q_ends (dl_first s) (dl_last s)) L (w_queues w)) w)) →
  post (on_queue L c) w Q E.
Proof.
  intros Hl Hc HQ. unfold on_queue. eapply post_zoom; [by rewrite Hl|].
  unfold post. by rewrite Hc.
Qed.
End access_post.

(** Run the next statement: look up what it reads, assign what it writes. *)
Ltac lookup_side :=
  first [ eassumption
        | simpl; eassumption
        | simpl; by rewrite lookup_insert_eq
        | simpl; rewrite lookup_insert_ne by done; eassumption
        | simpl; simplify_map_eq; reflexivity ].
Ltac access_step :=
  first
    [ eapply post_the_loop; [lookup_side|] | eapply post_upd_loop; [lookup_side|]
    | eapply post_the_op; [lookup_side|] | eapply post_upd_op; [lookup_side|]
    | eapply post_the_work; [lookup_side|] | eapply post_upd_work; [lookup_side|]
    | eapply post_the_wait; [lookup_side|] | eapply post_upd_wait; [lookup_side|]
    | eapply post_the_timer; [lookup_side|] | eapply post_upd_timer; [lookup_side|]
    | eapply post_the_io; [lookup_side|] | eapply post_upd_io; [lookup_side|]
    | eapply post_the_event; [lookup_side|] | eapply post_upd_event; [lookup_side|]
    | eapply post_the_awaiter; [lookup_side|] | eapply post_upd_awaiter; [lookup_side|]
    | eapply post_the_queue; [lookup_side|] | eapply post_upd_queue; [lookup_side|]
    | eapply post_the_remote; [lookup_side|] | eapply post_upd_remote; [lookup_side|]
    | eapply post_the_message; [lookup_side|] | eapply post_upd_message; [lookup_side|]
    | eapply post_the_flag; [lookup_side|] | eapply post_upd_flag; [lookup_side|]
    | eapply post_the_cell; [lookup_side|] | eapply post_upd_cell; [lookup_side|]
    | simple apply post_gets | simple apply post_modify | simple apply post_ret | simple apply post_throw ].
Ltac step := first [ apply post_bind; access_step | apply post_bind; apply post_bind | access_step ]; cbv beta.
Ltac steps := repeat step.

