(* ===== verification/Task.v ===== *)
(** * Lazy coroutine tasks (include/snowy/task.hpp)

    Coroutine frames with their promises, the awaiter protocol of [co_await task]
    with symmetric transfer, and the ownership operations of [task].  A coroutine
    body is the tree of what it does next; the machine below runs frames the way
    the promise and awaiter hooks direct it, one suspension point at a time. *)
From S2P Require Import Prelude Core.

(** [std::coroutine_handle<>]; [None] is [std::noop_coroutine()]. *)
Abbreviation handle := (option coro).

Section task.
Context {V St : Type}.

(** What [co_await] of a task produces: a value, or the exception it rethrows. *)
Definition result : Type := V + exn.

(** ** Coroutine bodies *)
Inductive code :=
| co_return (v : V)
| co_throw (e : exn)
| co_await_task (child : code) (k : result → code)  (** [co_await child()] *)
| co_await_empty (k : result → code)                (** [co_await task{}] *)
| co_step (f : St → St) (k : St → code)             (** a statement on shared state *)
| co_suspend (pending : bool) (k : code).
      (** suspension until resumed from outside, [pending] if on an operation of a loop, which
          is active until then *)

(** The direct-style meaning of a body. *)
Fixpoint eval (c : code) (s : St) : result * St :=
  match c with
  | co_return v => (inl v, s)
  | co_throw e => (inr e, s)
  | co_await_task c' k => let '(r, s') := eval c' s in eval (k r) s'
  | co_await_empty k => eval (k (inr (logic_error "cannot await an empty task"))) s
  | co_step f k => eval (k (f s)) (f s)
  | co_suspend _ k => eval k s
  end.

(** ** Frames *)

(** [task_promise_base] and [task_promise]; a [task<void>] has [V := unit]. *)
Record promise := Promise { continuation_ : handle; exception_ : option exn; value_ : option V }.
Definition new_promise : promise := Promise None None None.
Definition set_exception_ (e : option exn) (p : promise) : promise := Promise (continuation_ p) e (value_ p).
Definition set_value_ (v : option V) (p : promise) : promise := Promise (continuation_ p) (exception_ p) v.
Definition set_continuation_ (h : handle) (p : promise) : promise := Promise h (exception_ p) (value_ p).

(** Where a frame continues: at a statement, in the [co_await] of a child whose
    frame its awaiter owns, or at final suspension. *)
Inductive point := at_code (c : code) | at_await (g : coro) (k : result → code) | at_final.
Record frame := Frame { fr_promise : promise; fr_point : point }.
Record machine := Machine {
  m_frames : gmap coro frame;
  m_next : coro;              (** frames are allocated from here *)
  m_running : handle;         (** [None]: control is back in the resumer *)
  m_parked : option (coro * bool);
                              (** the frame suspended on something outside, and whether that is an
                                  active operation, which lives in the frame *)
  m_state : St }.
Implicit Types (m : machine) (f g : coro) (p : promise) (c : code) (s : St) (h : handle).
Local Abbreviation M := (M machine).

Definition set_frames (fs : gmap coro frame) m : machine := Machine fs (m_next m) (m_running m) (m_parked m) (m_state m).
Definition set_running h m : machine := Machine (m_frames m) (m_next m) h (m_parked m) (m_state m).
Definition set_parked (x : option (coro * bool)) m : machine := Machine (m_frames m) (m_next m) (m_running m) x (m_state m).
Definition set_state s m : machine := Machine (m_frames m) (m_next m) (m_running m) (m_parked m) s.
Definition the_frame f : M frame := deref (λ m, m_frames m !! f).
Definition upd_frame f (u : frame → frame) : M unit :=
  fr ← the_frame f; modify (λ m, set_frames (<[f := u fr]> (m_frames m)) m).
Definition upd_promise f (u : promise → promise) : M unit :=
  upd_frame f (λ fr, Frame (u (fr_promise fr)) (fr_point fr)).
Definition goto f (pt : point) : M unit := upd_frame f (λ fr, Frame (fr_promise fr) pt).

(** ** Promise hooks *)

(** The call of a coroutine: [get_return_object] and [initial_suspend], which keeps
    the frame suspended at its start. *)
Definition new_task c : M coro :=
  m ← get;
  modify (λ m, Machine (<[m_next m := Frame new_promise (at_code c)]> (m_frames m)) (S (m_next m))
                 (m_running m) (m_parked m) (m_state m)) ;;
  mret (m_next m).
Definition unhandled_exception f (e : exn) : M unit := upd_promise f (set_exception_ (Some e)).
Definition return_value f (v : V) : M unit := upd_promise f (set_value_ (Some v)).
Definition final_await_suspend f : M handle := fr ← the_frame f; mret (continuation_ (fr_promise fr)).
Definition set_continuation f h : M unit := upd_promise f (set_continuation_ h).
Definition rethrow_if_failed f : M unit :=
  fr ← the_frame f;
  match exception_ (fr_promise fr) with Some e => throw e | None => mret tt end.
Definition take_result f : M V :=
  rethrow_if_failed f ;;
  fr ← the_frame f;
  match value_ (fr_promise fr) with Some v => mret v | None => undefined end.

(** [handle.destroy()]: the locals of a suspended frame go with it, the awaiter of a
    pending child included.  The behaviour is undefined if the frame is not suspended; the
    destructor of an active operation ([detail::op::~op]) terminates the program. *)
Fixpoint destroy (fuel : nat) f : M unit :=
  match fuel with
  | O => undefined
  | S fuel' =>
      fr ← the_frame f;
      running ← gets m_running;
      parked ← gets m_parked;
      if bool_decide (running = Some f) then undefined
      else if bool_decide (parked = Some (f, true)) then terminate
      else
        modify (λ m, set_frames (delete f (m_frames m)) m) ;;
        match fr_point fr with at_await g _ => destroy fuel' g | _ => mret tt end
  end.
Definition destroy_frame f : M unit := n ← gets (λ m, size (m_frames m)); destroy n f.

(** ** [task::awaiter] *)
Definition task_await_ready h : bool := bool_decide (h = None).
Definition task_await_suspend h (continuation : handle) : M handle :=
  match h with
  | Some g => set_continuation g continuation ;; mret h
  | None => undefined
  end.
Definition task_await_resume h : M V :=
  match h with
  | None => throw (logic_error "cannot await an empty task")
  | Some g => take_result g
  end.
Definition task_awaiter_destroy h : M unit :=
  match h with Some g => destroy_frame g | None => mret tt end.

(** A try block around [c], its outcome as a value. *)
Definition catching (c : M V) : M result :=
  try_catch (v ← c; mret (inl v)) (λ e, mret (inr e)).

(** The end of a [co_await] on the child [h]: [await_resume], then the awaiter dies. *)
Definition finish_await h : M result :=
  r ← catching (task_await_resume h);
  task_awaiter_destroy h ;;
  mret r.

(** ** The machine *)
Definition final_suspend f : M unit :=
  goto f at_final ;;
  h ← final_await_suspend f;
  modify (set_running h).

(** What the running frame [f] does next. *)
Definition step_code f c : M unit :=
  match c with
  | co_return v => return_value f v ;; final_suspend f
  | co_throw e => unhandled_exception f e ;; final_suspend f
  | co_await_task c' k =>
      g ← new_task c';
      goto f (at_await g k) ;;
      h ← task_await_suspend (Some g) (Some f);
      modify (set_running h)
  | co_await_empty k => r ← finish_await None; goto f (at_code (k r))
  | co_step u k =>
      modify (λ m, set_state (u (m_state m)) m) ;;
      s ← gets m_state;
      goto f (at_code (k s))
  | co_suspend pending k =>
      goto f (at_code k) ;;
      modify (set_parked (Some (f, pending))) ;;
      modify (set_running None)
  end.
Definition step_frame f : M unit :=
  fr ← the_frame f;
  match fr_point fr with
  | at_code c => step_code f c
  | at_await g k => r ← finish_await (Some g); goto f (at_code (k r))
  | at_final => undefined
  end.
(** [handle.resume()] from outside *)
Definition resume_parked f : M unit :=
  modify (set_parked None) ;; modify (set_running (Some f)).

(** One step; nothing happens once no frame is running or parked. *)
Definition step1 : M unit :=
  m ← get;
  match m_running m, m_parked m with
  | Some f, _ => step_frame f
  | None, Some (f, _) => resume_parked f
  | None, None => mret tt
  end.
Fixpoint steps (n : nat) : M unit :=
  match n with O => mret tt | S n' => step1 ;; steps n' end.

(** ** Ownership: [class task] *)

(** [task(task&& other)], [operator=(task&&)], [~task()], [operator bool] and
    [operator co_await() &&] on task objects holding handles. *)
Definition task_move (other : handle) : handle * handle := (other, None).
Definition task_assign (same : bool) (this other : handle) : M (handle * handle) :=
  if same then mret (this, this) else
    (match this with Some f => destroy_frame f | None => mret tt end) ;;
    mret (other, None).
Definition task_destroy (this : handle) : M unit :=
  match this with Some f => destroy_frame f | None => mret tt end.
Definition task_bool (this : handle) : bool := bool_decide (is_Some this).
Definition co_await_operator (this : handle) : handle * handle := (this, None).

(** ** Refinement of direct style *)

Lemma steps_add n1 n2 m m1 : steps n1 m = Ret tt m1 → steps (n1 + n2) m = steps n2 m1.
Proof.
  revert m. induction n1 as [|n1 IH]; intros m H; simpl in *; [by inversion H|].
  unfold mbind, M_bind in *. destruct (step1 m) as [[] m'| | |]; try done. by apply IH.
Qed.
Lemma steps_cons n m m1 m2 : step1 m = Ret tt m1 → steps n m1 = Ret tt m2 → steps (S n) m = Ret tt m2.
Proof. intros H1 H2. simpl. unfold mbind, M_bind. by rewrite H1. Qed.

Definition stored (r : result) p : promise :=
  match r with inl v => set_value_ (Some v) p | inr e => set_exception_ (Some e) p end.
Definition fresh_above m : Prop := ∀ g, m_next m ≤ g → m_frames m !! g = None.

(** The effect of running a body to final suspension. *)
Record completes m f p c m' : Prop := {
  com_frames : m_frames m' = <[f := Frame (stored (eval c (m_state m)).1 p) at_final]> (m_frames m);
  com_running : m_running m' = continuation_ p;
  com_parked : m_parked m' = None;
  com_state : m_state m' = (eval c (m_state m)).2;
  com_next : m_next m ≤ m_next m' }.

Lemma upd_frame_run f u m fr :
  m_frames m !! f = Some fr → upd_frame f u m = Ret tt (set_frames (<[f := u fr]> (m_frames m)) m).
Proof. intros H. unfold upd_frame, the_frame, mbind, M_bind, deref. by rewrite H. Qed.
Lemma step1_running m f : m_running m = Some f → step1 m = step_frame f m.
Proof. intros H. unfold step1, mbind, M_bind, get. by rewrite H. Qed.
Lemma step_frame_code f m p c :
  m_frames m !! f = Some (Frame p (at_code c)) → step_frame f m = step_code f c m.
Proof. intros H. unfold step_frame, the_frame, mbind, M_bind, deref. by rewrite H. Qed.

Lemma final_suspend_run f m p pt :
  m_frames m !! f = Some (Frame p pt) →
  final_suspend f m = Ret tt (set_running (continuation_ p) (set_frames (<[f := Frame p at_final]> (m_frames m)) m)).
Proof.
  intros H. unfold final_suspend, goto. unfold mbind at 1, M_bind at 1. rewrite (upd_frame_run _ _ _ _ H).
  unfold final_await_suspend, the_frame, mbind, M_bind, deref. simpl. by rewrite lookup_insert_eq.
Qed.

(** A completed child is read and destroyed by its awaiter. *)
Lemma finish_await_run g m p r :
  m_frames m !! g = Some (Frame (stored r p) at_final) → exception_ p = None → value_ p = None →
  m_running m ≠ Some g → m_parked m = None →
  finish_await (Some g) m = Ret r (set_frames (delete g (m_frames m)) m).
Proof.
  intros Hg He Hv Hr Hk. unfold finish_await. unfold mbind at 1, M_bind at 1.
  assert (catching (task_await_resume (Some g)) m = Ret r m) as ->.
  { unfold catching, try_catch, task_await_resume, take_result, rethrow_if_failed, the_frame, mbind, M_bind, deref.
    rewrite Hg. destruct r; simpl; rewrite ?He; simpl; rewrite ?Hg; done. }
  unfold task_awaiter_destroy, destroy_frame, mbind, M_bind, gets.
  assert (size (m_frames m) ≠ 0) as Hs by (apply map_size_ne_0_lookup; eauto).
  destruct (size (m_frames m)); [done|]. simpl. unfold the_frame, mbind, M_bind, deref, gets. rewrite Hg, Hk.
  by rewrite bool_decide_false, bool_decide_false by done.
Qed.

Lemma step_await_run f m p c k :
  m_frames m !! f = Some (Frame p (at_code (co_await_task c k))) → fresh_above m →
  step_code f (co_await_task c k) m =
    Ret tt (Machine (<[m_next m := Frame (set_continuation_ (Some f) new_promise) (at_code c)]>
                      (<[f := Frame p (at_await (m_next m) k)]> (m_frames m)))
              (S (m_next m)) (Some (m_next m)) (m_parked m) (m_state m)).
Proof.
  intros Hf Hfr. assert (f ≠ m_next m) as Hne by (intros ->; by rewrite Hfr in Hf).
  simpl. unfold new_task, mbind at 1, M_bind at 1, mbind at 1, M_bind at 1. simpl.
  unfold mbind at 1, M_bind at 1. unfold goto.
  erewrite upd_frame_run by (simpl; rewrite lookup_insert_ne; done).
  unfold task_await_suspend, set_continuation, upd_promise, mbind, M_bind.
  erewrite upd_frame_run by (simpl; rewrite lookup_insert_ne by done; apply lookup_insert_eq).
  simpl. unfold modify, set_running, set_frames. simpl. rewrite insert_insert_ne by done.
  rewrite insert_insert_eq. by rewrite insert_insert_ne.
Qed.

Lemma store_run f m p pt (r : result) c :
  c = match r with inl v => co_return v | inr e => co_throw e end →
  m_frames m !! f = Some (Frame p pt) →
  step_code f c m = Ret tt (set_running (continuation_ p) (set_frames (<[f := Frame (stored r p) at_final]> (m_frames m)) m)).
Proof.
  intros -> Hf. destruct r as [v|e]; simpl; unfold return_value, unhandled_exception, upd_promise, mbind, M_bind;
    rewrite (upd_frame_run _ _ _ _ Hf); erewrite final_suspend_run by apply lookup_insert_eq;
    unfold set_running, set_frames; simpl; by rewrite insert_insert_eq.
Qed.

Lemma fresh_insert m f fr fs s h x :
  fresh_above m → is_Some (m_frames m !! f) → fs = <[f := fr]> (m_frames m) →
  fresh_above (Machine fs (m_next m) h x s).
Proof.
  intros Hfr [? Hf] -> g Hg. simpl in *. rewrite lookup_insert_ne; [by apply Hfr|].
  intros ->. rewrite Hfr in Hf by done. done.
Qed.

Lemma completes_intro m f p c m1 c1 m' :
  m_frames m1 = <[f := Frame p (at_code c1)]> (m_frames m) → m_next m ≤ m_next m1 →
  eval c (m_state m) = eval c1 (m_state m1) →
  completes m1 f p c1 m' → completes m f p c m'.
Proof.
  intros Hf Hn He [H1 H2 H3 H4 H5]. split; [|done|done| |lia].
  - by rewrite H1, Hf, insert_insert_eq, He.
  - by rewrite H4, He.
Qed.

(** Every body runs to final suspension with the outcome of direct style, its children
    gone and the other frames untouched. *)
Lemma body_completes c : ∀ m f p,
  m_frames m !! f = Some (Frame p (at_code c)) → m_running m = Some f → m_parked m = None → fresh_above m →
  exception_ p = None → value_ p = None →
  ∃ n m', steps n m = Ret tt m' ∧ completes m f p c m'.
Proof.
  induction c as [v|e|c IHc k IHk|k IHk|u k IHk|pending c IHc]; intros m f p Hf Hr Hp Hfr He Hv.
  - exists 1. eexists. split; [eapply steps_cons; [|done]; rewrite (step1_running _ _ Hr), (step_frame_code _ _ _ _ Hf);
      eapply (store_run f m p _ (inl v)); done|]. by split.
  - exists 1. eexists. split; [eapply steps_cons; [|done]; rewrite (step1_running _ _ Hr), (step_frame_code _ _ _ _ Hf);
      eapply (store_run f m p _ (inr e)); done|]. by split.
  - pose proof (step_await_run f m p c k Hf Hfr) as Hs. set (m1 := Machine _ _ _ _ _) in Hs.
    assert (f ≠ m_next m) as Hne by (intros ->; by rewrite Hfr in Hf).
    destruct (IHc m1 (m_next m) (set_continuation_ (Some f) new_promise)) as (n1&m2&Hn1&C1); try done.
    { apply lookup_insert_eq. }
    { intros g Hg. simpl in *. rewrite !lookup_insert_ne; [apply Hfr; lia| |lia]. intros ->. rewrite Hfr in Hf; [done|lia]. }
    destruct C1 as [F1 R1 P1 S1 N1]. simpl in *. rewrite insert_insert_eq in F1.
    set (r := (eval c (m_state m)).1) in *.
    assert (step1 m2 = Ret tt (Machine (<[f := Frame p (at_code (k r))]> (m_frames m)) (m_next m2) (Some f) None (m_state m2))) as Hs2.
    { rewrite (step1_running _ f) by done. unfold step_frame, the_frame. unfold mbind at 1, M_bind at 1, deref.
      rewrite F1, lookup_insert_ne, lookup_insert_eq by done. simpl. unfold mbind, M_bind.
      rewrite (finish_await_run (m_next m) m2 (set_continuation_ (Some f) new_promise) r);
        [|rewrite F1; apply lookup_insert_eq|done|done|rewrite R1; congruence|done].
      unfold goto. rewrite F1.
      erewrite upd_frame_run by (simpl; rewrite lookup_delete_ne by done; rewrite lookup_insert_ne by done; apply lookup_insert_eq).
      unfold set_frames. simpl. rewrite delete_insert_id by (rewrite lookup_insert_ne by done; apply Hfr; lia).
      rewrite insert_insert_eq. by rewrite R1, P1. }
    set (m3 := Machine _ _ _ _ _) in Hs2.
    destruct (IHk r m3 f p) as (n2&m4&Hn2&C2); try done.
    { apply lookup_insert_eq. }
    { intros g Hg. simpl in *. rewrite lookup_insert_ne; [apply Hfr; lia|]. intros ->. rewrite Hfr in Hf; [done|lia]. }
    exists (S (n1 + S n2)), m4. split.
    + eapply steps_cons; [by rewrite (step1_running _ _ Hr), (step_frame_code _ _ _ _ Hf)|].
      rewrite (steps_add _ _ _ _ Hn1). by eapply steps_cons.
    + eapply (completes_intro m f p _ m3 (k r)); [done|simpl; lia| |done].
      simpl. destruct (eval c (m_state m)) eqn:E. simpl in *. by rewrite S1.
  - set (r := inr (logic_error "cannot await an empty task") : result).
    destruct (IHk r (set_frames (<[f := Frame p (at_code (k r))]> (m_frames m)) m) f p) as (n&m'&Hn&C); try done.
    { apply lookup_insert_eq. }
    { eapply (fresh_insert m f); [exact Hfr|by eexists|done]. }
    exists (S n), m'. split.
    + eapply steps_cons; [rewrite (step1_running _ _ Hr), (step_frame_code _ _ _ _ Hf)|done].
      change (goto f (at_code (k r)) m = Ret tt (set_frames (<[f:=Frame p (at_code (k r))]> (m_frames m)) m)). unfold goto. by rewrite (upd_frame_run _ _ _ _ Hf).
    + eapply completes_intro; [| | |exact C]; done.
  - set (m1 := set_state (u (m_state m)) (set_frames (<[f := Frame p (at_code (k (u (m_state m))))]> (m_frames m)) m)).
    destruct (IHk (u (m_state m)) m1 f p) as (n&m'&Hn&C); try done.
    { apply lookup_insert_eq. }
    { eapply (fresh_insert m f); [exact Hfr|by eexists|done]. }
    exists (S n), m'. split; [|eapply completes_intro; [| | |exact C]; done].
    eapply steps_cons; [rewrite (step1_running _ _ Hr), (step_frame_code _ _ _ _ Hf)|done].
    change (goto f (at_code (k (u (m_state m)))) (set_state (u (m_state m)) m) = Ret tt m1). unfold goto.
    by erewrite upd_frame_run by (simpl; exact Hf).
  - set (m1 := set_frames (<[f := Frame p (at_code c)]> (m_frames m)) m).
    destruct (IHc m1 f p) as (n&m'&Hn&C); try done.
    { apply lookup_insert_eq. }
    { eapply (fresh_insert m f); [exact Hfr|by eexists|done]. }
    exists (S (S n)), m'. split; [|eapply completes_intro; [| | |exact C]; done].
    eapply steps_cons; [rewrite (step1_running _ _ Hr), (step_frame_code _ _ _ _ Hf)|].
    + simpl. unfold goto, mbind, M_bind. rewrite (upd_frame_run _ _ _ _ Hf). simpl. done.
    + eapply steps_cons; [|done]. unfold step1, mbind, M_bind, get. simpl. unfold resume_parked, mbind, M_bind. simpl.
      unfold set_running, set_parked, set_frames. simpl. unfold m1, set_frames. by rewrite Hr, Hp.
Qed.

(** The machine about to resume a new root task. *)
Definition boot c s : machine :=
  Machine {[0 := Frame new_promise (at_code c)]} 1 (Some 0) None s.

(** C11: Tasks refine direct style: however deeply a coroutine awaits other tasks, empty ones
    included, running the frames through promise hooks and symmetric transfer terminates
    with the value or exception direct evaluation gives, in the root's promise, with the
    same effects on shared state, control back in the resumer, and every child frame
    destroyed exactly once: destroying the root leaves no frame. *)
Theorem task_refines_direct c s :
  ∃ n m', steps n (boot c s) = Ret tt m' ∧
    m_running m' = None ∧ m_parked m' = None ∧ m_state m' = (eval c s).2 ∧
    catching (take_result 0) m' = Ret (eval c s).1 m' ∧
    task_destroy (Some 0) m' = Ret tt (set_frames ∅ m').
Proof.
  destruct (body_completes c (boot c s) 0 new_promise) as (n&m'&Hn&[F R P S N]); try done.
  { intros g Hg. simpl in *. rewrite lookup_singleton_ne by lia. done. }
  simpl in *. rewrite insert_singleton_eq in F. exists n, m'. split_and!; try done.
  - unfold catching, try_catch, take_result, rethrow_if_failed, the_frame, mbind, M_bind, deref.
    rewrite F, lookup_singleton_eq. destruct (eval c s).1; simpl; [|done]. by rewrite F, lookup_singleton_eq.
  - unfold task_destroy, destroy_frame, mbind, M_bind, gets. rewrite F, map_size_singleton. simpl.
    unfold the_frame, mbind, M_bind, deref, gets. rewrite F, lookup_singleton_eq, R, P. simpl.
    unfold modify, set_frames. simpl. do 2 f_equal. rewrite F. apply delete_singleton_eq.
Qed.

(** ** Destruction *)

(** The frames above [child]: each awaits the next one down and is its continuation. *)
Fixpoint parents (fs : gmap coro frame) (child : coro) (st : list coro) : Prop :=
  match st with
  | [] => True
  | f :: st' =>
      (∃ p k, fs !! f = Some (Frame p (at_await child k)) ∧ continuation_ p = head st' ∧
              exception_ p = None ∧ value_ p = None) ∧
      parents fs f st'
  end.
(** The frames form one chain of awaits from the innermost frame up to the root, and
    control is with the innermost frame, its resumer, or the frame to be continued. *)
Record chained m (leaf : coro) (st : list coro) : Prop := {
  ch_leaf : ∃ p pt, m_frames m !! leaf = Some (Frame p pt) ∧ continuation_ p = head st ∧
    match pt with
    | at_code _ => exception_ p = None ∧ value_ p = None ∧
        (m_running m = Some leaf ∧ m_parked m = None ∨ m_running m = None ∧ ∃ b, m_parked m = Some (leaf, b))
    | at_final => (∃ r p0, p = stored r p0 ∧ exception_ p0 = None ∧ value_ p0 = None) ∧
        m_running m = head st ∧ m_parked m = None
    | at_await _ _ => False
    end;
  ch_parents : parents (m_frames m) leaf st;
  ch_nodup : NoDup (leaf :: st);
  ch_dom : ∀ f, is_Some (m_frames m !! f) ↔ f ∈ leaf :: st;
  ch_next : fresh_above m;
  ch_root : last (leaf :: st) = Some 0 }.

Lemma parents_insert fs f fr child st : f ∉ st → parents fs child st → parents (<[f := fr]> fs) child st.
Proof.
  revert child. induction st as [|g st IH]; intros child Hf; [done|]. intros [(p&k&Hg&?) Hp].
  split; [exists p, k; by rewrite lookup_insert_ne by set_solver|]. apply IH; [set_solver|done].
Qed.
Lemma parents_delete fs f child st : f ∉ st → parents fs child st → parents (delete f fs) child st.
Proof.
  revert child. induction st as [|g st IH]; intros child Hf; [done|]. intros [(p&k&Hg&?) Hp].
  split; [exists p, k; by rewrite lookup_delete_ne by set_solver|]. apply IH; [set_solver|done].
Qed.

(** Replacing the innermost frame in place. *)
Lemma chained_leaf m m' leaf st p pt :
  chained m leaf st →
  m_frames m' = <[leaf := Frame p pt]> (m_frames m) → m_next m' = m_next m → continuation_ p = head st →
  match pt with
  | at_code _ => exception_ p = None ∧ value_ p = None ∧
      (m_running m' = Some leaf ∧ m_parked m' = None ∨ m_running m' = None ∧ ∃ b, m_parked m' = Some (leaf, b))
  | at_final => (∃ r p0, p = stored r p0 ∧ exception_ p0 = None ∧ value_ p0 = None) ∧
      m_running m' = head st ∧ m_parked m' = None
  | at_await _ _ => False
  end → chained m' leaf st.
Proof.
  intros [_ Hp Hnd Hdom Hfr Hroot] Hf Hn Hc Hpt. apply NoDup_cons in Hnd as [Hl Hnd]. split; [| | | | |done].
  - exists p, pt. by rewrite Hf, lookup_insert_eq.
  - rewrite Hf. by apply parents_insert.
  - by constructor.
  - intros f. rewrite Hf, lookup_insert_is_Some', Hdom. set_solver.
  - intros g Hg. rewrite Hn in Hg. rewrite Hf, lookup_insert_ne; [by apply Hfr|].
    intros ->. assert (is_Some (m_frames m !! g)) as [? E] by (apply Hdom; set_solver). by rewrite Hfr in E.
Qed.

Lemma chained_step m leaf st : chained m leaf st → ∃ m' leaf' st', step1 m = Ret tt m' ∧ chained m' leaf' st'.
Proof.
  intros C. pose proof C as [(p&pt&Hl&Hc&Hpt) Hp Hnd Hdom Hfr Hroot].
  destruct pt as [c| |]; [|done|].
  - destruct Hpt as (He&Hv&[[Hr Hk]|[Hr [b Hk]]]).
    2: { eexists _, leaf, st. split; [unfold step1, mbind, M_bind, get; rewrite Hr, Hk; done|].
         eapply chained_leaf; [done|symmetry; apply insert_id, Hl|done|done|]. simpl. auto. }
    rewrite (step1_running _ _ Hr), (step_frame_code _ _ _ _ Hl).
    destruct c as [v|e|c k|k|u k|b c].
    + eexists _, leaf, st. split; [by eapply (store_run leaf m p _ (inl v))|].
      eapply chained_leaf; [done|done|done|done|]. simpl. split_and!; [by exists (inl v), p|done|done].
    + eexists _, leaf, st. split; [by eapply (store_run leaf m p _ (inr e))|].
      eapply chained_leaf; [done|done|done|done|]. simpl. split_and!; [by exists (inr e), p|done|done].
    + eexists _, (m_next m), (leaf :: st). split; [by apply (step_await_run leaf m p)|].
      assert (∀ f, f ∈ leaf :: st → f ≠ m_next m) as Hne.
      { intros f Hf ->. apply Hdom in Hf as [? E]. by rewrite Hfr in E. }
      pose proof Hnd as [Hls Hnd']%NoDup_cons. split; simpl.
      * eexists _, _. rewrite lookup_insert_eq. split_and!; [done..|]. simpl. auto.
      * split; [exists p, k; by rewrite lookup_insert_ne, lookup_insert_eq by (symmetry; apply Hne; set_solver)|].
        apply parents_insert; [intros ?; eapply Hne; [by right|done]|]. by apply parents_insert.
      * constructor; [|done]. intros Hin. by eapply Hne.
      * intros f. rewrite !lookup_insert_is_Some', Hdom. set_solver.
      * intros g Hg. simpl in Hg |- *. rewrite !lookup_insert_ne; [apply Hfr; lia| |lia]. intros ->.
        assert (is_Some (m_frames m !! g)) as [? E] by (apply Hdom; set_solver). rewrite Hfr in E by lia. done.
      * done.
    + eexists _, leaf, st. split.
      * transitivity (goto leaf (at_code (k (inr (logic_error "cannot await an empty task")))) m); [done|]. unfold goto.
        by rewrite (upd_frame_run _ _ _ _ Hl).
      * eapply chained_leaf; [done|done|done|done|]. simpl. auto.
    + eexists _, leaf, st. split.
      * transitivity (goto leaf (at_code (k (u (m_state m)))) (set_state (u (m_state m)) m)); [done|]. unfold goto.
        by erewrite upd_frame_run by (simpl; exact Hl).
      * eapply chained_leaf; [done|done|done|done|]. simpl. auto.
    + eexists _, leaf, st. split.
      * simpl. unfold goto, mbind, M_bind. rewrite (upd_frame_run _ _ _ _ Hl). simpl. done.
      * eapply chained_leaf; [done|done|done|done|]. simpl. eauto 8.
  - destruct Hpt as ((r&p0&->&He0&Hv0)&Hr&Hk). destruct st as [|f st].
    { exists m, leaf, []. split; [|done]. unfold step1, mbind, M_bind, get. simpl in Hr. by rewrite Hr, Hk. }
    destruct Hp as [(pf&k&Hf&Hcf&Hef&Hvf) Hp]. apply NoDup_cons in Hnd as [Hls Hnd]. pose proof Hnd as [Hfs _]%NoDup_cons.
    assert (leaf ≠ f) as Hne by set_solver.
    eexists _, f, st. split.
    + rewrite (step1_running _ f) by done. unfold step_frame, the_frame. unfold mbind at 1, M_bind at 1, deref.
      rewrite Hf. simpl. unfold mbind, M_bind. rewrite (finish_await_run leaf m p0 r) by (done || (rewrite Hr; simpl; congruence)).
      unfold goto. erewrite upd_frame_run by (simpl; rewrite lookup_delete_ne by done; exact Hf). done.
    + split; simpl.
      * eexists _, _. rewrite lookup_insert_eq. split_and!; [done..|]. simpl. auto.
      * apply parents_insert; [done|]. apply parents_delete; [set_solver|done].
      * done.
      * intros g. rewrite lookup_insert_is_Some', lookup_delete_is_Some, Hdom. set_solver.
      * intros g Hg. simpl in Hg |- *. rewrite lookup_insert_ne, lookup_delete_ne; [by apply Hfr| |].
        -- intros ->. by rewrite Hfr in Hl.
        -- intros ->. by rewrite Hfr in Hf.
      * done.
Qed.

Lemma chained_boot c s : chained (boot c s) 0 [].
Proof.
  split; simpl; [| |apply NoDup_singleton| | |done].
  - eexists _, _. rewrite lookup_singleton_eq. split_and!; [done..|]. simpl. auto.
  - done.
  - intros f. rewrite lookup_singleton_is_Some. set_solver.
  - intros g Hg. simpl in *. by rewrite lookup_singleton_ne by lia.
Qed.
Lemma chained_steps n m leaf st :
  chained m leaf st → ∃ m' leaf' st', steps n m = Ret tt m' ∧ chained m' leaf' st'.
Proof.
  revert m leaf st. induction n as [|n IH]; intros m leaf st C; simpl; [by eauto|].
  destruct (chained_step _ _ _ C) as (m1&l1&st1&E&C1). unfold mbind, M_bind. rewrite E. by apply (IH _ _ _ C1).
Qed.

Fixpoint awaits (fs : gmap coro frame) (child : coro) (st : list coro) : Prop :=
  match st with
  | [] => True
  | f :: st' => (∃ p k, fs !! f = Some (Frame p (at_await child k))) ∧ awaits fs f st'
  end.
Lemma parents_awaits fs child st : parents fs child st → awaits fs child st.
Proof. revert child. induction st as [|f st IH]; intros child; [done|]. intros [(p&k&?&_) ?]. split; eauto. Qed.
Lemma awaits_delete fs f child st : f ∉ st → awaits fs child st → awaits (delete f fs) child st.
Proof.
  revert child. induction st as [|g st IH]; intros child Hf; [done|]. intros [(p&k&Hg) Hp].
  split; [exists p, k; by rewrite lookup_delete_ne by set_solver|]. apply IH; [set_solver|done].
Qed.
Lemma awaits_snoc fs child st f :
  awaits fs child (st ++ [f]) ↔ awaits fs child st ∧ ∃ p k, fs !! f = Some (Frame p (at_await (default child (last st)) k)).
Proof.
  revert child. induction st as [|g st IH]; intros child; simpl; [naive_solver|]. rewrite IH, (last_cons g).
  destruct (last st); naive_solver.
Qed.

(** Destroying a frame of the chain comes down to the frames below it, as long as none on the
    way is running or suspended on an active operation. *)
Definition removable m f : Prop := m_running m ≠ Some f ∧ m_parked m ≠ Some (f, true).
Lemma destroy_one n m f fr : m_frames m !! f = Some fr → removable m f →
  destroy (S n) f m = (match fr_point fr with at_await g _ => destroy n g | _ => mret tt end) (set_frames (delete f (m_frames m)) m).
Proof.
  intros Hf [H1 H2]. simpl. unfold the_frame, mbind, M_bind, deref, gets. rewrite Hf. by rewrite !bool_decide_false.
Qed.
Lemma destroy_running n m f fr : m_frames m !! f = Some fr → m_running m = Some f → destroy (S n) f m = Undefined.
Proof. intros Hf Hr. simpl. unfold the_frame, mbind, M_bind, deref, gets. rewrite Hf. by rewrite bool_decide_true. Qed.
Lemma destroy_pending n m f fr :
  m_frames m !! f = Some fr → m_running m ≠ Some f → m_parked m = Some (f, true) → destroy (S n) f m = Terminate.
Proof.
  intros Hf Hr Hk. simpl. unfold the_frame, mbind, M_bind, deref, gets. rewrite Hf. by rewrite bool_decide_false, bool_decide_true.
Qed.
Lemma destroy_down xs : ∀ n m g f,
  NoDup (xs ++ [f]) → awaits (m_frames m) g (xs ++ [f]) → (∀ x, x ∈ xs ++ [f] → removable m x) →
  destroy (S (length xs) + n) f m = destroy n g (set_frames (foldr delete (m_frames m) (xs ++ [f])) m).
Proof.
  induction xs as [|h xs IH] using rev_ind; intros n m g f Hnd Hp Hr.
  - destruct Hp as [(pf&k&Hf) _]. by rewrite (destroy_one _ _ _ _ Hf) by (apply Hr; set_solver).
  - apply awaits_snoc in Hp as [Hp (pf&k&Hf)]. rewrite last_snoc in Hf. simpl in Hf.
    apply NoDup_app in Hnd as (Hnd&Hfn&_). assert (f ∉ xs ++ [h]) as Hfn' by (intros ?; eapply Hfn; [done|set_solver]).
    change (S (length (xs ++ [h])) + n) with (S (length (xs ++ [h]) + n)).
    rewrite (destroy_one _ _ _ _ Hf) by (apply Hr; set_solver). simpl fr_point. cbv iota beta.
    replace (length (xs ++ [h]) + n) with (S (length xs) + n) by (rewrite length_app; simpl; lia).
    rewrite (IH n _ g h); [unfold set_frames; simpl; by rewrite !foldr_app|done| |].
    + simpl. apply awaits_delete; [done|exact Hp].
    + intros x Hx. apply (Hr x). set_solver.
Qed.

Lemma delete_dom (fs : gmap coro frame) xs : (∀ f, is_Some (fs !! f) → f ∈ xs) → foldr delete fs xs = ∅.
Proof.
  intros H. apply map_empty. intros f. destruct (decide (f ∈ xs)) as [Hf|Hf].
  - by apply lookup_foldr_delete.
  - rewrite lookup_foldr_delete_not_elem_of by done. apply eq_None_not_Some. auto.
Qed.

(** Destroying the root of a chain: the frame [g] of it decides, those above being removable. *)
Lemma destroy_root m leaf st g above below :
  chained m leaf st → leaf :: st = below ++ g :: above → (∀ x, x ∈ above → removable m x) →
  ∃ n, task_destroy (Some 0) m = destroy (S (length below) + n) g (set_frames (foldr delete (m_frames m) above) m).
Proof.
  intros [_ Hp Hnd Hdom _ Hroot] E Hr. assert (length (leaf :: st) ≤ size (m_frames m)) as Hsz.
  { apply NoDup_length_le_size; [done|]. intros f. by rewrite Hdom. }
  unfold task_destroy, destroy_frame, mbind, M_bind, gets. rewrite E, length_app in Hsz. simpl in Hsz.
  assert (awaits (m_frames m) g above) as Ha.
  { apply parents_awaits in Hp. destruct below as [|b below]; simplify_eq/=; [done|]. clear - Hp. revert b Hp.
    induction below as [|c below IH]; intros b [_ Hp]; [done|by apply (IH c)]. }
  rewrite E in Hnd, Hroot. apply NoDup_app in Hnd as (_&_&[_ Hnd]%NoDup_cons).
  destruct above as [|f above _] using rev_ind.
  - exists (size (m_frames m) - S (length below)). rewrite last_snoc in Hroot. injection Hroot as ->.
    replace (S (length below) + (size (m_frames m) - S (length below))) with (size (m_frames m)) by (simpl in *; lia).
    simpl. by destruct m.
  - rewrite app_comm_cons, app_assoc, last_snoc in Hroot. injection Hroot as ->. rewrite length_app in Hsz. simpl in Hsz.
    exists (size (m_frames m) - S (length above) - S (length below)).
    rewrite <- (destroy_down above _ _ g 0) by done. f_equal. lia.
Qed.

(** C37: What destroying a task does, after any number of steps of its execution.  While one
    of its frames is running the behaviour is undefined; while the innermost frame is
    suspended on an active operation, the operation's destructor terminates the program;
    and in every other state, at a suspension on nothing active and after the end, it
    destroys every live frame of the chain of awaits once, leaving none.  A task that has
    not been started is destroyed with its one frame.  Running a task never goes wrong. *)
Theorem task_destroy_anytime c s n :
  (∃ m, steps n (boot c s) = Ret tt m ∧
     task_destroy (Some 0) m =
       match m_running m, m_parked m with
       | Some _, _ => Undefined
       | None, Some (_, true) => Terminate
       | None, _ => Ret tt (set_frames ∅ m)
       end) ∧
  (new_task c ≫= λ f, task_destroy (Some f)) (Machine ∅ 0 None None s) = Ret tt (Machine ∅ 1 None None s).
Proof.
  split; [|unfold new_task, task_destroy, destroy_frame, mbind, M_bind, get, gets; simpl; rewrite insert_empty, map_size_singleton; simpl;
    unfold the_frame, mbind, M_bind, deref; simpl; rewrite lookup_singleton_eq; unfold modify, set_frames; simpl; by rewrite delete_singleton_eq].
  destruct (chained_steps n _ _ _ (chained_boot c s)) as (m&leaf&st&Hs&C). exists m. split; [done|].
  pose proof C as [(p&pt&Hl&_&Hpt) _ Hnd Hdom _ _]. pose proof Hnd as [Hnl Hnd']%NoDup_cons.
  assert (∀ x, x ∈ st → x ≠ leaf) as Hne by (intros x Hx ->; done).
  assert (foldr delete (m_frames m) st !! leaf = Some (Frame p pt)) as Hl' by (by rewrite lookup_foldr_delete_not_elem_of).
  assert (m_running m = None → (∀ x, m_parked m ≠ Some (x, true)) → (∀ g k, pt ≠ at_await g k) →
    task_destroy (Some 0) m = Ret tt (set_frames ∅ m)) as Hdone.
  { intros Hr Hk Hna. destruct (destroy_root m leaf st leaf st [] C eq_refl) as [k ->]; [intros x _; split; [by rewrite Hr|done]|].
    simpl length. erewrite destroy_one; [|exact Hl'|split; simpl; [by rewrite Hr|done]].
    rewrite <- (delete_dom (m_frames m) (leaf :: st)) by (intros f; by rewrite Hdom). destruct pt; [done|by edestruct Hna|done]. }
  destruct pt as [c'| |]; [|done|].
  - destruct Hpt as (_&_&[[Hr Hk]|[Hr [b Hk]]]); rewrite Hr, ?Hk.
    + destruct (destroy_root m leaf st leaf st [] C eq_refl) as [k ->]; [intros x Hx; split; [rewrite Hr; intros [= <-]; by apply Hne in Hx|by rewrite Hk]|].
      by eapply destroy_running.
    + destruct b; [|apply Hdone; [done|intros x; by rewrite Hk|done]].
      destruct (destroy_root m leaf st leaf st [] C eq_refl) as [k ->]; [intros x Hx; split; [by rewrite Hr|rewrite Hk; intros [= <-]; by apply Hne in Hx]|].
      eapply destroy_pending; [exact Hl'|simpl; by rewrite Hr|done].
  - destruct Hpt as (_&Hr&Hk). destruct st as [|f st]; simpl in Hr.
    { rewrite Hr, Hk. apply Hdone; [done|intros x; by rewrite Hk|done]. }
    rewrite Hr. apply NoDup_cons in Hnd' as [Hfs _].
    destruct (destroy_root m leaf (f :: st) f st [leaf] C eq_refl) as [k ->]; [intros x Hx; split; [rewrite Hr; by intros [= <-]|by rewrite Hk]|].
    assert (is_Some (m_frames m !! f)) as [fr Hf] by (apply Hdom; set_solver).
    eapply destroy_running; [|done]. simpl. by rewrite lookup_foldr_delete_not_elem_of.
Qed.
End task.
Arguments code : clear implicits.
Arguments machine : clear implicits.
