(* ===== verification/Spawn.v ===== *)
(** * Results across threads (include/snowy/sync_wait.hpp, include/snowy/spawn.hpp)

    A bridge coroutine stores the outcome of a task and publishes it to a waiter:
    the blocking [sync_wait], or the holder of a [join_handle], which waits blocking
    or suspended.  Producer and consumer run on different threads; their steps
    interleave, each section under the mutex being one step. *)
From S2P Require Import Prelude Core Task.
From stdpp Require Import relations.

Section spawn.
Context {V : Type}.
Local Abbreviation result := (@result V).
Implicit Types (r : result) (e : exn).

(** ** [struct wait_state], [struct spawn_state] *)
Record wait_state := WaitState { ws_done : bool; ws_value : option V; ws_error : option exn }.
Definition new_wait_state : wait_state := WaitState false None None.

(** The try block of [wait_task] and of [publish], and its handler. *)
Definition store r (s : wait_state) : wait_state :=
  match r with
  | inl v => WaitState (ws_done s) (Some v) (ws_error s)
  | inr e => WaitState (ws_done s) (ws_value s) (Some e)
  end.
Definition set_done (s : wait_state) : wait_state := WaitState true (ws_value s) (ws_error s).

(** [if (error) std::rethrow_exception(error); return std::move( *value);] *)
Definition take_value {S} (sel : S → option wait_state) : M S V :=
  s ← deref sel;
  match ws_error s with
  | Some e => throw e
  | None => match ws_value s with Some v => mret v | None => undefined end
  end.

(** ** [sync_wait] *)

(** How far [wait_task] and the blocked caller are; the state is a local variable of
    [sync_wait] and gone once it returns. *)
Inductive producer := p_running | p_stored | p_published | p_signalled.
Inductive blocked := b_waiting | b_returned r.
Record sync := Sync { sy_state : option wait_state; sy_producer : producer; sy_caller : blocked }.
Implicit Types y : sync.

(** [wait_task]: the outcome [r] of the input is stored *)
Definition wait_task_store r : M sync unit :=
  s ← deref sy_state;
  modify (λ y, Sync (Some (store r s)) p_stored (sy_caller y)).
(** the block under [lock_guard] *)
Definition wait_task_publish : M sync unit :=
  s ← deref sy_state;
  modify (λ y, Sync (Some (set_done s)) p_published (sy_caller y)).
(** [ready.wait] has returned: the result is taken and the locals die *)
Definition sync_wait_return : M sync unit :=
  r ← try_catch (v ← take_value sy_state; mret (inl v)) (λ e, mret (inr e));
  modify (λ y, Sync None (sy_producer y) (b_returned r)).

(** The interleavings of the producer, whose input has outcome [r], and the caller. *)
Definition sync_enabled y (a : nat) : bool :=
  match a, sy_producer y, sy_caller y with
  | 0, p_running, _ | 1, p_stored, _ => true
  | 2, _, b_waiting => bool_decide (ws_done <$> sy_state y = Some true)
  | _, _, _ => false
  end.
Definition sync_action r (a : nat) : M sync unit :=
  match a with 0 => wait_task_store r | 1 => wait_task_publish | _ => sync_wait_return end.
Inductive sync_step r y : sync → Prop :=
| sync_does a y' : sync_enabled y a = true → sync_action r a y = Ret tt y' → sync_step r y y'.
Definition sync_start : sync := Sync (Some new_wait_state) p_running b_waiting.

Definition sync_inv r y : Prop :=
  match sy_producer y, sy_caller y with
  | p_running, b_waiting => sy_state y = Some new_wait_state
  | p_stored, b_waiting => sy_state y = Some (store r new_wait_state)
  | p_published, b_waiting => sy_state y = Some (set_done (store r new_wait_state))
  | p_published, b_returned r' => r' = r ∧ sy_state y = None
  | _, _ => False
  end.

Lemma sync_action_ok r y a :
  sync_inv r y → sync_enabled y a = true → ∃ y', sync_action r a y = Ret tt y' ∧ sync_inv r y'.
Proof.
  destruct y as [s p b]. unfold sync_inv, sync_enabled. simpl.
  destruct a as [|[|[|a]]], p, b; simpl; try done; try (by destruct r); intros -> Hen.
  1,2: by eexists. all: try (by destruct r; case_bool_decide).
  destruct r; by eexists.
Qed.
Lemma sync_reach r y : rtc (sync_step r) sync_start y → sync_inv r y.
Proof.
  revert y. apply rtc_ind_r; [done|]. intros y1 y2 _ [a ? Hen Ha] IH.
  destruct (sync_action_ok r _ a IH Hen) as (y3&E&Hy). rewrite Ha in E. by simplify_eq.
Qed.

(** C35: [sync_wait]: in every interleaving of the bridge and the blocked caller, nobody touches
    the caller's state after the caller has returned, the caller returns exactly the
    outcome of the task, and until it has returned some step can be taken: the wait ends. *)
Theorem sync_wait_spec r y :
  rtc (sync_step r) sync_start y →
  (∀ a, sync_enabled y a = true → ∃ y', sync_action r a y = Ret tt y') ∧
  match sy_caller y with
  | b_returned r' => r' = r ∧ ∀ a, sync_enabled y a = false
  | b_waiting => ∃ a, sync_enabled y a = true
  end.
Proof.
  intros HI%sync_reach. split; [intros a Ha; destruct (sync_action_ok _ _ _ HI Ha) as (?&?&_); eauto|].
  destruct y as [s p b]. unfold sync_inv in HI. simpl in *. destruct b, p; try done.
  - by exists 0.
  - by exists 1.
  - exists 2. unfold sync_enabled. simpl. by rewrite HI, bool_decide_true by (by destruct r).
  - destruct HI as [-> ->]. split; [done|]. by intros [|[|[|a]]].
Qed.

(** ** [join_handle] *)

(** The shared state with its reference count; [None] once freed. *)
Inductive consumer :=
| c_none                (** nobody joins *)
| c_get                 (** blocked in [get] *)
| c_suspended           (** suspended in the futex of the state *)
| c_resumed             (** the futex has released the awaiter *)
| c_result r.
Record spawned := Spawned {
  sp_state : option wait_state;  (** [wait_state] part of [spawn_state] *)
  sp_complete : bool;            (** std::atomic_bool complete *)
  sp_refs : nat;                 (** shared_ptr use count *)
  sp_producer : producer;
  sp_handle : bool;              (** the join_handle holds a reference *)
  sp_consumer : consumer }.
Implicit Types s : spawned.
Local Abbreviation M := (M spawned).

Definition set_state_ (w : option wait_state) (p : producer) s : spawned :=
  Spawned w (sp_complete s) (sp_refs s) p (sp_handle s) (sp_consumer s).
Definition set_consumer (c : consumer) s : spawned :=
  Spawned (sp_state s) (sp_complete s) (sp_refs s) (sp_producer s) (sp_handle s) c.
Definition set_handle (b : bool) s : spawned :=
  Spawned (sp_state s) (sp_complete s) (sp_refs s) (sp_producer s) b (sp_consumer s).
(** A [shared_ptr] dies. *)
Definition drop_ref s : spawned :=
  Spawned (if bool_decide (sp_refs s = 1) then None else sp_state s) (sp_complete s) (pred (sp_refs s))
    (sp_producer s) (sp_handle s) (sp_consumer s).

(** [publish]: the outcome [r] of the child is stored *)
Definition publish_store r : M unit :=
  w ← deref sp_state;
  modify (set_state_ (Some (store r w)) p_stored).
(** the block under [lock_guard]: [done], [complete] and the condition variable *)
Definition publish_done : M unit :=
  w ← deref sp_state;
  modify (λ s, Spawned (Some (set_done w)) true (sp_refs s) p_published (sp_handle s) (sp_consumer s)).
(** [state->signal.notify_all()], then the frame of [publish] drops its reference *)
Definition publish_signal : M unit :=
  _ ← deref sp_state;
  modify (λ s, drop_ref (Spawned (sp_state s) (sp_complete s) (sp_refs s) p_signalled (sp_handle s)
    match sp_consumer s with c_suspended => c_resumed | c => c end)).

(** [auto release()]: the reference moves out of the handle *)
Definition handle_release : M unit :=
  h ← gets sp_handle;
  if h : bool then modify (set_handle false) else throw (logic_error "empty join handle").
(** [explicit operator bool], [bool ready()], [void detach()] *)
Definition handle_bool : M bool := gets sp_handle.
Definition handle_ready : M bool :=
  h ← gets sp_handle;
  if h : bool then _ ← deref sp_state; gets sp_complete else mret false.
Definition handle_detach : M unit :=
  h ← gets sp_handle;
  if h : bool then modify (set_handle false) ;; modify drop_ref else mret tt.

(** [awaiter]: [join(owner)] and its [await_suspend] on the futex [complete], which
    suspends only while the flag is still false; [here] is whether the thread is that of
    [owner], which [owner.check()] asks for: otherwise the awaiter dies with the exception,
    and the reference with it *)
Definition handle_join (here : bool) : M unit :=
  handle_release ;;
  if negb here then modify drop_ref ;; throw (logic_error "wrong loop thread") else
    _ ← deref sp_state;
    c ← gets sp_complete;
    modify (set_consumer (if c : bool then c_resumed else c_suspended)).
(** [operator co_await() &&] with [loop::current()], whose thread this is *)
Definition handle_co_await (current : option loopid) : M unit :=
  match current with
  | None => throw (logic_error "join requires a running loop")
  | Some _ => handle_join true
  end.
(** [awaiter::await_resume], then the awaiter dies *)
Definition consume : M unit :=
  r ← try_catch (v ← take_value sp_state; mret (inl v)) (λ e, mret (inr e));
  modify (λ s, drop_ref (set_consumer (c_result r) s)).
(** [T get() &&] up to the wait, and its end *)
Definition handle_get (current : option loopid) : M unit :=
  match current with
  | Some _ => throw (logic_error "blocking join on a loop")
  | None => handle_release ;; modify (set_consumer c_get)
  end.

(** [join_handle<T> spawn(loop& owner, task<T> input)], the child already queued:
    one reference for [publish] and one for the handle *)
Definition spawned_start : spawned := Spawned (Some new_wait_state) false 2 p_running true c_none.

Inductive action := a_store | a_publish | a_signal | a_detach | a_get (current : option loopid)
  | a_await (current : option loopid) | a_join (here : bool) | a_return | a_resume.
Definition enabled s (a : action) : bool :=
  match a with
  | a_store => match sp_producer s with p_running => true | _ => false end
  | a_publish => match sp_producer s with p_stored => true | _ => false end
  | a_signal => match sp_producer s with p_published => true | _ => false end
  | a_detach | a_get _ | a_await _ | a_join _ => match sp_consumer s with c_get | c_suspended | c_resumed => false | _ => true end
  | a_return => match sp_consumer s with c_get => bool_decide (ws_done <$> sp_state s = Some true) | _ => false end
  | a_resume => match sp_consumer s with c_resumed => true | _ => false end
  end.
Definition perform r (a : action) : M unit :=
  match a with
  | a_store => publish_store r | a_publish => publish_done | a_signal => publish_signal
  | a_detach => handle_detach | a_get l => handle_get l | a_await l => handle_co_await l | a_join here => handle_join here
  | a_return | a_resume => consume
  end.
Inductive spawn_step r s : spawned → Prop :=
| spawn_does a s' : enabled s a = true →
    (perform r a s = Ret tt s' ∨ ∃ e, perform r a s = Throw e s') → spawn_step r s s'.

(** The references held: by [publish], by the handle, by a consumer that waits. *)
Definition waiting (c : consumer) : bool := match c with c_get | c_suspended | c_resumed => true | _ => false end.
Definition live (p : producer) : bool := match p with p_signalled => false | _ => true end.
Definition holders s : nat :=
  Nat.b2n (live (sp_producer s)) + Nat.b2n (sp_handle s) + Nat.b2n (waiting (sp_consumer s)).
Definition content r (p : producer) : wait_state :=
  match p with
  | p_running => new_wait_state
  | p_stored => store r new_wait_state
  | p_published | p_signalled => set_done (store r new_wait_state)
  end.
Definition published (p : producer) : bool := match p with p_published | p_signalled => true | _ => false end.
Record spawn_inv r s : Prop := {
  si_refs : sp_refs s = holders s;
  si_state : sp_state s = if bool_decide (sp_refs s = 0) then None else Some (content r (sp_producer s));
  si_complete : sp_complete s = published (sp_producer s);
  si_once : sp_consumer s = c_none ∨ sp_handle s = false;
  si_blocked : sp_consumer s = c_suspended → sp_producer s ≠ p_signalled;
  si_resumed : sp_consumer s = c_resumed → published (sp_producer s) = true;
  si_result : ∀ r', sp_consumer s = c_result r' → r' = r }.

Ltac spawn_done := split; simpl in *; auto; try discriminate; try congruence.

Lemma perform_ok r s a :
  spawn_inv r s → enabled s a = true →
  ∃ s', (perform r a s = Ret tt s' ∨ ∃ e, perform r a s = Throw e s') ∧ spawn_inv r s'.
Proof.
  destruct s as [w c n p h k]. intros [H1 H2 H3 H4 H5 H6 H7] Hen. unfold holders in *. simpl in *. subst n.
  destruct a as [| | | |l|l|[]| |]; unfold enabled in Hen; simpl in Hen.
  all: destruct p, h, k as [| | | |r']; simpl in *; try discriminate Hen; try (by destruct H4);
    try (by destruct H5); try (by specialize (H6 eq_refl)); subst; try destruct l as [l|].
  all: try first [eexists; split; [left; reflexivity|spawn_done] | eexists; split; [right; eexists; reflexivity|spawn_done]
             | destruct r; (eexists; split; [left; reflexivity|spawn_done])].
  by apply bool_decide_eq_true in Hen.
Qed.
Lemma spawn_reach r s : rtc (spawn_step r) spawned_start s → spawn_inv r s.
Proof.
  revert s. apply rtc_ind_r; [by split; auto|]. intros s1 s2 _ [a ? Hen Ha] IH.
  destruct (perform_ok r _ a IH Hen) as (s3&E&Hy). by destruct Ha as [Ha|[? Ha]], E as [E|[? E]]; rewrite Ha in E; simplify_eq.
Qed.

(** C34: A spawned result under every interleaving of the publishing coroutine and the holder
    of the handle: the shared state is never touched after it is freed, and it is freed
    exactly when neither side holds it; a consumer obtains exactly the outcome of the
    child, at most once; and a consumer suspended in the futex is still to be notified,
    so it cannot miss the publication. *)
Theorem spawn_spec r s :
  rtc (spawn_step r) spawned_start s →
  (∀ a, enabled s a = true → ∃ s', perform r a s = Ret tt s' ∨ ∃ e, perform r a s = Throw e s') ∧
  (sp_state s = None ↔ holders s = 0) ∧
  (∀ r', sp_consumer s = c_result r' → r' = r ∧ sp_handle s = false) ∧
  (sp_consumer s = c_suspended → ∃ a, a ∈ [a_store; a_publish; a_signal] ∧ enabled s a = true).
Proof.
  intros HI%spawn_reach. split_and!.
  - intros a Ha. destruct (perform_ok _ _ _ HI Ha) as (?&?&_). eauto.
  - destruct HI as [H1 H2 _ _ _ _ _]. rewrite H2, <- H1. case_bool_decide; naive_solver.
  - intros r' Hr. destruct HI as [_ _ _ H4 _ _ H7]. split; [auto|]. destruct H4; congruence.
  - intros Hs. destruct HI as [_ _ _ _ H5 _ _]. specialize (H5 Hs). unfold enabled.
    destruct (sp_producer s); [exists a_store|exists a_publish|exists a_signal|done]; (split; [set_solver|done]).
Qed.

(** A join handle is consumed once: after [get], [join] or [co_await] was accepted, each of
    them throws [logic_error] without effect, and [ready] reports false; [ready] reports
    completion exactly from the publication on. *)
Theorem handle_single_use r s l here :
  rtc (spawn_step r) spawned_start s →
  (sp_handle s = false →
     handle_get None s = Throw (logic_error "empty join handle") s ∧
     handle_join here s = Throw (logic_error "empty join handle") s ∧
     handle_co_await (Some l) s = Throw (logic_error "empty join handle") s ∧
     handle_ready s = Ret false s) ∧
  (sp_handle s = true → handle_ready s = Ret (published (sp_producer s)) s).
Proof.
  intros [H1 H2 H3 _ _ _ _]%spawn_reach. destruct s as [w c n p h k]. unfold holders in *. simpl in *. subst n w c. split; intros ->.
  - done.
  - unfold handle_ready, mbind, M_bind, deref, gets. simpl. rewrite bool_decide_false by lia. done.
Qed.
End spawn.
