(* ===== verification/When.v ===== *)
(** * Structured joins (include/snowy/when.hpp)

    [when_all], [when_any] and [timeout]: a parent launches its children, waits until
    every child it has started has finished, and then takes its result.  A child runs
    only after the parent has suspended, since [collect] first yields to the loop; the
    children finish in any order. *)
From S2P Require Import Prelude Core Task.

Section when.
Context {V : Type}.
Local Abbreviation result := (@result V).
(** [value.emplace(std::move( *local))]: the move constructor of the result may throw. *)
Variable emplace : V → V + exn.
Implicit Types (r : result) (e : exn) (i : nat).

(** ** [struct join] with the result slots of [group] *)
Record join := Join {
  j_done : bool;              (** the event done is set *)
  j_error : option exn;
  j_stop : bool;              (** stop_source stop *)
  j_pending : nat;
  j_winner : option nat;
  j_values : list (option V) }.
Implicit Types s : join.
Definition new_group (size : nat) : join := Join false None false 0 None (replicate size None).
Definition set_pending (n : nat) s : join := Join (j_done s) (j_error s) (j_stop s) n (j_winner s) (j_values s).
Definition set_error (e : option exn) s : join := Join (j_done s) e (j_stop s) (j_pending s) (j_winner s) (j_values s).
Definition set_stop s : join := Join (j_done s) (j_error s) true (j_pending s) (j_winner s) (j_values s).
Definition set_winner (w : option nat) s : join := Join (j_done s) (j_error s) (j_stop s) (j_pending s) w (j_values s).
Definition set_values (vs : list (option V)) s : join := Join (j_done s) (j_error s) (j_stop s) (j_pending s) (j_winner s) vs.
Definition set_fin s : join := Join true (j_error s) (j_stop s) (j_pending s) (j_winner s) (j_values s).

(** ** [collect]: what a child does once its input has the outcome [r], back on the owner *)
Definition moved r : result := match r with inl v => emplace v | inr e => inr e end.
Definition error_of r : option exn := match r with inl _ => None | inr e => Some e end.
Definition collect (race : bool) (slot index : nat) r s : join :=
  let r' := moved r in
  let s1 := match r' with inl v => set_values (<[slot := Some v]> (j_values s)) s | inr _ => s end in
  let s2 :=
    if race then
      match j_winner s1 with
      | None => set_stop (set_error (error_of r') (set_winner (Some index) s1))
      | Some _ => s1
      end
    else match error_of r', j_error s1 with Some e, None => set_error (Some e) s1 | _, _ => s1 end in
  let s3 := set_pending (pred (j_pending s2)) s2 in
  if bool_decide (j_pending s3 = 0) then set_fin s3 else s3.

(** ** Launching

    [starts i] is the exception thrown by calling [collect] (or the factory) for child
    [i], if any.  The loops also return the (slot, index) pairs they started. *)
Variable starts : nat → option exn.

(** [when_all] over a vector: stop at the first failure *)
Fixpoint launch_all (i n : nat) s : join * list (nat * nat) :=
  match n with
  | O => (s, [])
  | S n' =>
      let s1 := set_pending (S (j_pending s)) s in
      match starts i with
      | Some e => (set_error (Some e) (set_pending (pred (j_pending s1)) s1), [])
      | None => let '(s2, ls) := launch_all (S i) n' s1 in (s2, (i, i) :: ls)
      end
  end.
(** [detail::all]: the fold over the pack, skipping once an error is recorded; every
    child is passed index 0 *)
Definition launch_one (i : nat) (acc : join * list (nat * nat)) : join * list (nat * nat) :=
  let '(s, ls) := acc in
  match j_error s with
  | Some _ => acc
  | None =>
      let s1 := set_pending (S (j_pending s)) s in
      match starts i with
      | Some e => (set_error (Some e) (set_pending (pred (j_pending s1)) s1), ls)
      | None => (s1, ls ++ [(i, 0)])
      end
  end.
Definition launch_pack (n : nat) s : join * list (nat * nat) :=
  foldl (λ acc i, launch_one i acc) (s, []) (seq 0 n).

(** [when_any] over a vector of factories; the startup failure is kept apart *)
Fixpoint launch_any (i n : nat) s : join * option exn * list (nat * nat) :=
  match n with
  | O => (s, None, [])
  | S n' =>
      let s1 := set_pending (S (j_pending s)) s in
      match starts i with
      | Some e => (set_stop (set_pending (pred (j_pending s1)) s1), Some e, [])
      | None => let '(s2, st, ls) := launch_any (S i) n' s1 in (s2, st, (i, i) :: ls)
      end
  end.
(** [when_any<T>(loop, factories...)]: [++index] after a successful start *)
Definition race_one (i : nat) (acc : join * option exn * nat * list (nat * nat)) :=
  let '(s, st, index, ls) := acc in
  match st with
  | Some _ => acc
  | None =>
      let s1 := set_pending (S (j_pending s)) s in
      match starts i with
      | Some e => (set_stop (set_pending (pred (j_pending s1)) s1), Some e, index, ls)
      | None => (s1, None, S index, ls ++ [(index, index)])
      end
  end.
Definition launch_race (n : nat) s : join * option exn * list (nat * nat) :=
  let '(s', st, _, ls) := foldl (λ acc i, race_one i acc) (s, None, 0, []) (seq 0 n) in (s', st, ls).
(** [when_any(loop, factories...)] with a variant: the slot is the position in the
    pack, [index++] an argument of the call *)
Definition variant_one (i : nat) (acc : join * option exn * nat * list (nat * nat)) :=
  let '(s, st, index, ls) := acc in
  match st with
  | Some _ => acc
  | None =>
      let s1 := set_pending (S (j_pending s)) s in
      match starts i with
      | Some e => (set_stop (set_pending (pred (j_pending s1)) s1), Some e, S index, ls)
      | None => (s1, None, S index, ls ++ [(i, index)])
      end
  end.
Definition launch_variant (n : nat) s : join * option exn * list (nat * nat) :=
  let '(s', st, _, ls) := foldl (λ acc i, variant_one i acc) (s, None, 0, []) (seq 0 n) in (s', st, ls).

(** ** Waiting and the result *)

(** [if (state.pending) co_await state.done.join();] while children finish in the order
    given; [None] is a parent still suspended. *)
Fixpoint await_done (race : bool) (index : nat → nat) s (order : list (nat * result)) : option join :=
  match order with
  | [] => if j_done s then Some s else None
  | (i, r) :: order' => if j_done s then Some s else await_done race index (collect race i (index i) r s) order'
  end.
Definition await_children (race : bool) (index : nat → nat) s (order : list (nat * result)) : option join :=
  if bool_decide (j_pending s = 0) then Some s else await_done race index s order.

Inductive outcome_of (A : Type) := suspended | returns (a : A) | throws (e : exn) | stuck.
Arguments suspended {A}.
Arguments returns {A} a.
Arguments throws {A} e.
Arguments stuck {A}.

(** [if (state.error) rethrow; ... std::move( *value)] in input order *)
Definition all_result s : outcome_of (list V) :=
  match j_error s with
  | Some e => throws e
  | None => match mapM id (j_values s) with Some vs => returns vs | None => stuck end
  end.
Definition when_all (n : nat) (order : list (nat * result)) : outcome_of (list V) :=
  let '(s, _) := launch_all 0 n (new_group n) in
  match await_children false id s order with None => suspended | Some s' => all_result s' end.
Definition all (n : nat) (order : list (nat * result)) : outcome_of (list V) :=
  let '(s, _) := launch_pack n (new_group n) in
  match await_children false (λ _, 0) s order with None => suspended | Some s' => all_result s' end.

Definition any_result (st : option exn) s : outcome_of (nat * V) :=
  match st, j_error s, j_winner s with
  | Some e, _, _ => throws e
  | None, Some e, _ => throws e
  | None, None, Some w =>
      match j_values s !! w with Some (Some v) => returns (w, v) | _ => stuck end
  | None, None, None => stuck
  end.
Definition any_with (launch : join → join * option exn * list (nat * nat)) (n : nat)
    (order : list (nat * result)) : outcome_of (nat * V) :=
  let '(s, st, _) := launch (new_group n) in
  match await_children true id s order with None => suspended | Some s' => any_result st s' end.
Definition when_any (n : nat) (order : list (nat * result)) : outcome_of (nat * V) :=
  if bool_decide (n = 0) then throws (invalid_argument "empty when_any")
  else any_with (launch_any 0 n) n order.
Definition when_any_typed (n : nat) (order : list (nat * result)) : outcome_of (nat * V) := any_with (launch_race n) n order.
Definition when_any_variant (n : nat) (order : list (nat * result)) : outcome_of (nat * V) := any_with (launch_variant n) n order.

(** [timeout]: the second child sleeps and throws; [slept] is the error of the sleep *)
Definition timer_outcome (slept : option errc) : result := inr (system_error (default timed_out slept)).
Definition timeout (order : list (nat * result)) : outcome_of V :=
  match when_any_typed 2 order with
  | returns (_, v) => returns v
  | throws e => throws e
  | suspended => suspended
  | stuck => stuck
  end.

(** ** What launching does *)

(** How many children are started from child [i] on, and the failure that stops it. *)
Fixpoint startup (i n : nat) : nat * option exn :=
  match n with
  | O => (0, None)
  | S n' => match starts i with
            | Some e => (0, Some e)
            | None => let '(k, e) := startup (S i) n' in (S k, e)
            end
  end.
Definition or_else (a b : option exn) : option exn := match a with Some _ => a | None => b end.

Lemma startup_le i n : (startup i n).1 ≤ n ∧ ((startup i n).2 = None → (startup i n).1 = n).
Proof.
  revert i. induction n as [|n IH]; intros i; simpl; [done|]. destruct (starts i); simpl; [split; [lia|done]|].
  specialize (IH (S i)). destruct (startup (S i) n) as [k e]. simpl in *. split; [lia|]. intros H. f_equal. by apply IH.
Qed.
Lemma launch_all_run i n s :
  launch_all i n s = (set_error (or_else (startup i n).2 (j_error s)) (set_pending (j_pending s + (startup i n).1) s),
                      (λ x, (x, x)) <$> seq i (startup i n).1).
Proof.
  revert i s. induction n as [|n IH]; intros i s; simpl; [rewrite Nat.add_0_r; by destruct s|].
  destruct (starts i) as [e|]; simpl; [rewrite Nat.add_0_r; by destruct s|].
  rewrite IH. destruct (startup (S i) n) as [k e]. simpl. by rewrite Nat.add_succ_r.
Qed.
Lemma launch_any_run i n s :
  launch_any i n s = ((if decide ((startup i n).2 = None) then id else set_stop) (set_pending (j_pending s + (startup i n).1) s),
                      (startup i n).2, (λ x, (x, x)) <$> seq i (startup i n).1).
Proof.
  revert i s. induction n as [|n IH]; intros i s; simpl; [rewrite Nat.add_0_r; by destruct s|].
  destruct (starts i) as [e|]; simpl; [rewrite Nat.add_0_r; by destruct s|].
  rewrite IH. destruct (startup (S i) n) as [k e]. simpl. rewrite Nat.add_succ_r. done.
Qed.

Lemma pack_failed n i acc : j_error acc.1 ≠ None → foldl (λ acc i, launch_one i acc) acc (seq i n) = acc.
Proof.
  revert i. induction n as [|n IH]; intros i He; simpl; [done|]. rewrite <- (IH (S i)) at 2 by done. f_equal.
  unfold launch_one. destruct acc as [s ls]. simpl in *. by destruct (j_error s).
Qed.
Lemma launch_pack_run n i s ls :
  j_error s = None →
  foldl (λ acc i, launch_one i acc) (s, ls) (seq i n) =
    ((launch_all i n s).1, ls ++ ((λ x, (x, 0)) <$> seq i (startup i n).1)).
Proof.
  revert i s ls. induction n as [|n IH]; intros i s ls He; simpl; [by rewrite app_nil_r|]. rewrite He.
  destruct (starts i) as [e|]; simpl; [rewrite pack_failed by done; by rewrite app_nil_r|].
  rewrite IH by done. rewrite !launch_all_run. destruct (startup (S i) n) as [k e]. simpl. by rewrite <- app_assoc.
Qed.

Lemma race_failed (one : nat → join * option exn * nat * list (nat * nat) → join * option exn * nat * list (nat * nat)) n i acc :
  (∀ i acc, acc.1.1.2 ≠ None → one i acc = acc) →
  acc.1.1.2 ≠ None → foldl (λ acc i, one i acc) acc (seq i n) = acc.
Proof.
  intros Hone He. revert i. induction n as [|n IH]; intros i; simpl; [done|]. rewrite Hone by done. apply IH.
Qed.
Lemma launch_race_run n i s ls :
  ∃ x, foldl (λ acc i, race_one i acc) (s, None, i, ls) (seq i n) =
    ((launch_any i n s).1.1, (startup i n).2, x, ls ++ (launch_any i n s).2).
Proof.
  revert i s ls. induction n as [|n IH]; intros i s ls; simpl; [eexists; by rewrite app_nil_r|].
  destruct (starts i) as [e|]; simpl.
  - eexists. rewrite race_failed; [by rewrite app_nil_r| |done]. intros j [[[? []] ?] ?]; naive_solver.
  - destruct (IH (S i) (set_pending (S (j_pending s)) s) (ls ++ [(i, i)])) as [x ->]. exists x.
    rewrite !launch_any_run. destruct (startup (S i) n) as [k e]. simpl. by rewrite <- app_assoc.
Qed.
Lemma launch_variant_run n i s ls :
  ∃ x, foldl (λ acc i, variant_one i acc) (s, None, i, ls) (seq i n) =
    ((launch_any i n s).1.1, (startup i n).2, x, ls ++ (launch_any i n s).2).
Proof.
  revert i s ls. induction n as [|n IH]; intros i s ls; simpl; [eexists; by rewrite app_nil_r|].
  destruct (starts i) as [e|]; simpl.
  - eexists. rewrite race_failed; [by rewrite app_nil_r| |done]. intros j [[[? []] ?] ?]; naive_solver.
  - destruct (IH (S i) (set_pending (S (j_pending s)) s) (ls ++ [(i, i)])) as [x ->]. exists x.
    rewrite !launch_any_run. destruct (startup (S i) n) as [k e]. simpl. by rewrite <- app_assoc.
Qed.
Lemma launches_agree n s :
  launch_race n s = launch_any 0 n s ∧ launch_variant n s = launch_any 0 n s.
Proof.
  unfold launch_race, launch_variant.
  destruct (launch_race_run n 0 s []) as [? ->], (launch_variant_run n 0 s []) as [? ->].
  rewrite !launch_any_run. done.
Qed.

(** ** What the children do *)
Definition finish_all (race : bool) (index : nat → nat) s (order : list (nat * result)) : join :=
  foldl (λ s p, collect race p.1 (index p.1) p.2 s) s order.

Lemma collect_pending race i x r s : j_pending (collect race i x r s) = pred (j_pending s).
Proof.
  unfold collect. destruct (moved r), race; simpl; repeat case_match; simpl; done.
Qed.
Lemma collect_done race i x r s : j_done s = false → j_done (collect race i x r s) = bool_decide (pred (j_pending s) = 0).
Proof.
  intros Hd. unfold collect. destruct (moved r), race; simpl; repeat case_match; simpl in *; repeat case_bool_decide; done.
Qed.

(** The parent is suspended exactly until the last started child has finished. *)
Lemma await_done_run race index order s :
  j_done s = false → length order ≤ j_pending s → 0 < j_pending s →
  await_done race index s order =
    if bool_decide (length order = j_pending s) then Some (finish_all race index s order) else None.
Proof.
  revert s. induction order as [|[i r] order IH]; intros s Hd Hl Hp; simpl in *.
  - rewrite Hd, bool_decide_false by lia. done.
  - rewrite Hd. pose proof (collect_pending race i (index i) r s) as Hc.
    pose proof (collect_done race i (index i) r s Hd) as Hcd.
    destruct (decide (j_pending s = 1)) as [H1|H1].
    + destruct order; [|simpl in *; lia]. simpl. rewrite Hcd, H1, bool_decide_true by done. by rewrite bool_decide_true.
    + rewrite IH; [|rewrite Hcd; apply bool_decide_false; lia|lia|lia].
      rewrite Hc. destruct (j_pending s) as [|p]; [lia|]. simpl.
      apply (f_equal (λ b : bool, if b then _ else _)). apply bool_decide_ext. lia.
Qed.

Definition first_error (order : list (nat * result)) : option exn := head (omap (λ p, error_of (moved p.2)) order).
Lemma collect_error i x r s : j_error (collect false i x r s) = or_else (j_error s) (error_of (moved r)).
Proof. unfold collect. destruct (moved r); simpl; destruct (j_error s) eqn:E; simpl; case_bool_decide; simpl; by rewrite ?E. Qed.
Lemma finish_error index order s : j_error (finish_all false index s order) = or_else (j_error s) (first_error order).
Proof.
  revert s. induction order as [|[i r] order IH]; intros s; simpl; [by destruct (j_error s)|].
  rewrite IH, collect_error. unfold first_error. simpl. destruct (j_error s), (error_of (moved r)); done.
Qed.
Lemma collect_winner i x r s :
  j_winner (collect true i x r s) = Some (default x (j_winner s)) ∧
  j_error (collect true i x r s) = match j_winner s with Some _ => j_error s | None => error_of (moved r) end ∧
  j_stop (collect true i x r s) = match j_winner s with Some _ => j_stop s | None => true end.
Proof. unfold collect. destruct (moved r); simpl; destruct (j_winner s) eqn:E; simpl; case_bool_decide; simpl; by rewrite ?E. Qed.
Lemma finish_winner index order s w :
  j_winner s = Some w →
  j_winner (finish_all true index s order) = Some w ∧ j_error (finish_all true index s order) = j_error s ∧
  j_stop (finish_all true index s order) = j_stop s.
Proof.
  revert s. induction order as [|[i r] order IH]; intros s Hw; simpl; [done|].
  destruct (collect_winner i (index i) r s) as (H1&H2&H3). rewrite Hw in *. simpl in *.
  destruct (IH _ H1) as (->&->&->). done.
Qed.

Lemma collect_values race i x r s :
  j_values (collect race i x r s) = match moved r with inl v => <[i := Some v]> (j_values s) | inr _ => j_values s end.
Proof. unfold collect. destruct (moved r), race; simpl; repeat case_match; done. Qed.
Lemma finish_length race index order s : length (j_values (finish_all race index s order)) = length (j_values s).
Proof.
  revert s. induction order as [|[i r] order IH]; intros s; simpl; [done|]. rewrite IH, collect_values.
  destruct (moved r); [apply length_insert|done].
Qed.
Lemma finish_other race index order s i :
  i ∉ order.*1 → j_values (finish_all race index s order) !! i = j_values s !! i.
Proof.
  revert s. induction order as [|[j r] order IH]; intros s Hi; simpl in *; [done|].
  rewrite IH by set_solver. rewrite collect_values. destruct (moved r); [|done]. apply list_lookup_insert_ne. set_solver.
Qed.
Lemma finish_value race index order s i r v :
  NoDup order.*1 → (i, r) ∈ order → moved r = inl v → i < length (j_values s) →
  j_values (finish_all race index s order) !! i = Some (Some v).
Proof.
  revert s. induction order as [|[j r'] order IH]; intros s Hnd Hin Hr Hi; simpl in *; [by apply not_elem_of_nil in Hin|].
  apply NoDup_cons in Hnd as [Hj Hnd]. apply elem_of_cons in Hin as [[= <- <-]|Hin].
  - rewrite finish_other by done. rewrite collect_values, Hr. by apply list_lookup_insert_eq.
  - apply IH; try done. rewrite collect_values. destruct (moved r'); [by rewrite length_insert|done].
Qed.

(** ** The joins *)

(** The children that finish are among the [k] started ones, each once. *)
Definition finishes (k : nat) (order : list (nat * result)) : Prop :=
  NoDup order.*1 ∧ ∀ i, i ∈ order.*1 → i < k.
Lemma finishes_length k order : finishes k order → length order ≤ k.
Proof.
  intros [Hnd Hlt]. rewrite <- (length_fmap fst order), <- (length_seq k 0).
  apply submseteq_length, NoDup_submseteq; [done|]. intros i Hi. apply elem_of_seq. specialize (Hlt i Hi). lia.
Qed.
Lemma finishes_all k order i : finishes k order → length order = k → i < k → i ∈ order.*1.
Proof.
  intros [Hnd Hlt] Hl Hi. assert (order.*1 ≡ₚ seq 0 k) as ->.
  { apply submseteq_length_Permutation; [|by rewrite length_fmap, length_seq, Hl].
    apply NoDup_submseteq; [done|]. intros j Hj. apply elem_of_seq. specialize (Hlt j Hj). lia. }
  apply elem_of_seq. lia.
Qed.

(** A launched group in which [length order] of the [k] pending children have finished. *)
Lemma await_children_run race index s order :
  j_done s = false → finishes (j_pending s) order →
  await_children race index s order =
    if bool_decide (length order < j_pending s) then None else Some (finish_all race index s order).
Proof.
  intros Hd Hf. pose proof (finishes_length _ _ Hf) as Hl. unfold await_children.
  destruct (decide (j_pending s = 0)) as [H0|H0].
  - rewrite bool_decide_true by done. rewrite bool_decide_false by lia. destruct order; [done|simpl in *; lia].
  - rewrite bool_decide_false by done. rewrite await_done_run by (done || lia).
    destruct (decide (length order = j_pending s)); [rewrite bool_decide_true, bool_decide_false by lia|
      rewrite bool_decide_false, bool_decide_true by lia]; done.
Qed.

(** C25: [when_all], for every order in which the started children finish and wherever launching
    fails: the parent stays suspended until the last started child has finished; then a
    launch failure is rethrown, otherwise the first error in completion order, otherwise
    the values are returned in input order. *)
Theorem when_all_spec n order :
  finishes (startup 0 n).1 order →
  (length order < (startup 0 n).1 → when_all n order = suspended) ∧
  (length order = (startup 0 n).1 →
     match or_else (startup 0 n).2 (first_error order) with
     | Some e => when_all n order = throws e
     | None => ∃ vs, when_all n order = returns vs ∧ length vs = n ∧
                 ∀ i r, (i, r) ∈ order → ∃ v, moved r = inl v ∧ vs !! i = Some v
     end).
Proof.
  intros Hf. unfold when_all. rewrite launch_all_run. rewrite await_children_run by done.
  split; intros Hl; simpl; [by rewrite bool_decide_true|]. rewrite bool_decide_false by lia.
  unfold all_result. rewrite finish_error. simpl.
  destruct (startup_le 0 n) as [_ Hn]. destruct (startup 0 n) as [k [e|]] eqn:Hs; simpl in *; [done|]. pose proof (Hn eq_refl) as Hk. clear Hn. revert Hl. subst k. intros Hl.
  destruct (first_error order) as [e|] eqn:He; [done|].
  set (s := set_error None (set_pending n (new_group n))). pose proof (finish_length false id order s) as Hlen.
  simpl in Hlen. rewrite length_replicate in Hlen.
  assert (∀ i r, (i, r) ∈ order → ∃ v, moved r = inl v ∧ j_values (finish_all false id s order) !! i = Some (Some v)) as Hv.
  { intros i r Hir. destruct (moved r) as [v|e] eqn:Hr.
    - exists v. split; [done|]. eapply finish_value; [apply Hf|done|done|]. simpl. rewrite length_replicate.
      apply Hf. apply list_elem_of_fmap. by exists (i, r).
    - exfalso. unfold first_error in He. apply head_None in He.
      assert (e ∈ omap (λ p, error_of (moved p.2)) order) as Hin; [|rewrite He in Hin; by apply not_elem_of_nil in Hin].
      apply list_elem_of_omap. exists (i, r). split; [done|]. simpl. by rewrite Hr. }
  assert (∃ vs, mapM id (j_values (finish_all false id s order)) = Some vs) as [vs Hvs].
  { apply mapM_is_Some, Forall_lookup. intros i x Hx. pose proof (lookup_lt_Some _ _ _ Hx) as Hi. rewrite Hlen in Hi.
    pose proof (finishes_all n order i Hf Hl Hi) as ([i' r]&->&Hir)%list_elem_of_fmap.
    destruct (Hv _ _ Hir) as (v&_&Hv'). simpl in *. rewrite Hx in Hv'. simplify_eq. by eexists. }
  rewrite Hvs. exists vs. split_and!; [done| |].
  - rewrite <- Hlen. apply mapM_Some_1, Forall2_length in Hvs. done.
  - intros i r Hir. destruct (Hv _ _ Hir) as (v&Hr&Hx). exists v. split; [done|].
    apply mapM_Some_1 in Hvs. destruct (Forall2_lookup_l _ _ _ _ _ Hvs Hx) as (y&Hy&E). simpl in E. by simplify_eq.
Qed.

(** C24: [when_any], for every order in which the started children finish and wherever
    launching fails: the parent stays suspended until every started child has finished,
    not only the first one; then a launch failure is rethrown, otherwise the result is
    that of the child that finished first, with its index. *)
Theorem when_any_spec n order :
  0 < n → finishes (startup 0 n).1 order →
  (length order < (startup 0 n).1 → when_any n order = suspended) ∧
  (length order = (startup 0 n).1 →
     match (startup 0 n).2, order with
     | Some e, _ => when_any n order = throws e
     | None, [] => False
     | None, (w, r) :: _ => when_any n order = match moved r with inl v => returns (w, v) | inr e => throws e end
     end).
Proof.
  intros Hpos Hf. unfold when_any, any_with. rewrite bool_decide_false by lia. rewrite launch_any_run.
  set (s := (if decide _ then _ else _) _).
  assert (j_done s = false ∧ j_pending s = (startup 0 n).1 ∧ j_winner s = None ∧ j_values s = replicate n None) as (Hd&Hp&Hw&Hvs)
    by (unfold s; destruct (decide _); done).
  rewrite await_children_run by (rewrite ?Hp; done). rewrite Hp.
  split; intros Hl; simpl; [by rewrite bool_decide_true|]. rewrite bool_decide_false by lia.
  destruct (startup_le 0 n) as [_ Hn]. destruct (startup 0 n) as [k [e|]] eqn:Hs; simpl in *; [done|]. pose proof (Hn eq_refl) as Hk. clear Hn. revert Hl. subst k. intros Hl.
  destruct order as [|[w r] order]; simpl in *; [lia|].
  destruct (collect_winner w w r s) as (H1&H2&_). simpl in H1, H2.
  destruct (finish_winner id order _ w H1) as (H3&H4&_). rewrite H4, H3, H2. destruct (moved r) as [v|e] eqn:Hr; simpl; [|done].
  destruct Hf as [Hnd Hlt]. simpl in *. apply NoDup_cons in Hnd as [Hwn _].
  rewrite finish_other by done. rewrite collect_values, Hr. simpl.
  rewrite list_lookup_insert_eq; [done|]. rewrite length_replicate. apply Hlt. set_solver.
Qed.

(** The first child to finish asks its siblings to stop, and so does a failed launch:
    until then no stop is requested. *)
Theorem when_any_stops n order :
  j_stop (finish_all true id (launch_any 0 n (new_group n)).1.1 order) =
    negb (bool_decide ((startup 0 n).2 = None)) || negb (bool_decide (order = [])).
Proof.
  rewrite launch_any_run. simpl. destruct order as [|[w r] order]; simpl.
  - destruct (startup 0 n) as [k [e|]]; simpl; done.
  - set (s := (if decide _ then _ else _) _). assert (j_winner s = None) as Hw by (unfold s; destruct (decide _); done).
    destruct (collect_winner w (id w) r s) as (H1&_&H2). rewrite Hw in *. simpl in *.
    destruct (finish_winner id order _ w H1) as (_&_&->). rewrite H2. by rewrite orb_comm.
Qed.

Lemma await_index race order : ∀ s index index', race = false →
  await_children race index s order = await_children race index' s order.
Proof.
  intros s index index' ->. unfold await_children. case_bool_decide; [done|]. clear H. revert s.
  induction order as [|[i r] order IH]; intros s; simpl; [done|]. by rewrite IH.
Qed.

(** The variants agree: [when_all] over a vector and over a pack, and the three forms of
    [when_any], start the same children and give the same outcome for every order of
    completion. *)
Theorem when_variants n order :
  all n order = when_all n order ∧
  (0 < n → when_any_typed n order = when_any n order) ∧ (0 < n → when_any_variant n order = when_any n order).
Proof.
  split_and!.
  - unfold all, when_all, launch_pack. rewrite launch_pack_run by done. rewrite launch_all_run. simpl.
    by rewrite (await_index false order _ (λ _, 0) id).
  - intros Hn. unfold when_any_typed, when_any, any_with. rewrite bool_decide_false by lia.
    by destruct (launches_agree n (new_group n)) as [-> _].
  - intros Hn. unfold when_any_variant, when_any, any_with. rewrite bool_decide_false by lia.
    by destruct (launches_agree n (new_group n)) as [_ ->].
Qed.

(** [timeout]: when the operation finishes first its outcome is the result, even though the
    timer is still drained; when the timer expires first the result is [timed_out], after
    the operation has been drained. *)
Theorem timeout_spec r (first : bool) :
  starts 0 = None → starts 1 = None →
  timeout (if first then [(0, r); (1, timer_outcome (Some operation_canceled))] else [(1, timer_outcome None); (0, r)]) =
    if first then match moved r with inl v => returns v | inr e => throws e end else throws (system_error timed_out).
Proof.
  intros H0 H1. unfold timeout, when_any_typed, any_with, launch_race. simpl. rewrite H0. simpl. rewrite H1. simpl.
  unfold await_children. simpl. destruct first; simpl; unfold collect, any_result; simpl; destruct (moved r); done.
Qed.
End when.
Arguments suspended {A}.
Arguments returns {A} a.
Arguments throws {A} e.
Arguments stuck {A}.
