(* ===== verification/Pool.v ===== *)
(** * Worker pool (include/snowy/pool.hpp, src/pool.cpp)

    A FIFO of jobs shared by worker threads, which sleep on a condition variable while it is
    empty.  Every section under the mutex is one step, and so is every notification, which
    comes after the mutex has been released; the workers, the producers and the closing
    thread interleave freely, and a sleeping worker may wake without being notified. *)
From S2P Require Import Prelude Core Task.
From stdpp Require Import relations.

Section pool.
Context {job : Type}.
Implicit Types (j : job) (i : nat).

(** Where a worker is: about to test the condition of [ready_.wait] under the mutex, asleep
    in it, running a job, or returned. *)
Inductive worker := w_ready | w_asleep | w_busy (j : job) | w_exited.
Record pool := Pool {
  jobs_ : list job;
  stopping_ : bool;
  threads_ : list worker;
  (** the calls of [notify_one] and [notify_all] still to be made by threads that have left
      the mutex in [enqueue] and [close] *)
  notifies : nat;
  notify_alls : nat;
  (** the jobs accepted and the jobs begun so far, in order *)
  accepted : list job;
  begun : list job }.
Implicit Types p : pool.
Definition set_threads (ts : list worker) p : pool :=
  Pool (jobs_ p) (stopping_ p) ts (notifies p) (notify_alls p) (accepted p) (begun p).

(** [void pool::enqueue(std::function<void()> fn)] up to the notification *)
Definition enqueue j : M pool unit :=
  s ← gets stopping_;
  if s : bool then throw (logic_error "closed pool") else
    modify (λ p, Pool (jobs_ p ++ [j]) (stopping_ p) (threads_ p) (S (notifies p)) (notify_alls p) (accepted p ++ [j]) (begun p)).

(** [close] up to the notification; after it, every thread is joined. *)
Definition close_begin : M pool unit :=
  modify (λ p, Pool (jobs_ p) true (threads_ p) (notifies p) (S (notify_alls p)) (accepted p) (begun p)).
Definition joined p : bool := forallb (λ w, match w with w_exited => true | _ => false end) (threads_ p).

(** [ready_.notify_one()] wakes one sleeping worker, [worker], if there is one;
    [ready_.notify_all()] wakes them all. *)
Definition woken (w : worker) : worker := match w with w_asleep => w_ready | _ => w end.
Definition notify_one (worker : option nat) p : pool :=
  Pool (jobs_ p) (stopping_ p) (match worker with Some i => alter woken i (threads_ p) | None => threads_ p end)
    (pred (notifies p)) (notify_alls p) (accepted p) (begun p).
Definition notify_all p : pool :=
  Pool (jobs_ p) (stopping_ p) (woken <$> threads_ p) (notifies p) (pred (notify_alls p)) (accepted p) (begun p).

(** [pool::pool(unsigned threads)]; [fails] is the thread whose creation throws, if any.
    The threads already created are joined before the exception leaves. *)
Definition construct (threads : nat) (fails : option nat) : M pool unit :=
  if bool_decide (threads = 0) then throw (invalid_argument "zero pool threads") else
    match fails with
    | Some i => modify (set_threads (replicate (min i threads) w_ready)) ;; close_begin ;; modify notify_all ;; throw bad_alloc
    | None => modify (set_threads (replicate threads w_ready))
    end.

(** [void pool::work()]: the condition of the wait, what worker [i] does under the mutex
    (sleep while it is false, otherwise return or take a job), and the end of a job. *)
Definition can_take p : bool := stopping_ p || match jobs_ p with [] => false | _ => true end.
Definition take_job i p : pool :=
  match jobs_ p with
  | [] => set_threads (<[i := w_exited]> (threads_ p)) p
  | j :: js => Pool js (stopping_ p) (<[i := w_busy j]> (threads_ p)) (notifies p) (notify_alls p) (accepted p) (begun p ++ [j])
  end.
Definition test_ready i p : pool :=
  if can_take p then take_job i p else set_threads (<[i := w_asleep]> (threads_ p)) p.
Definition finish_job i p : pool := set_threads (<[i := w_ready]> (threads_ p)) p.

(** A step of a worker, or of a thread that owes a notification; a worker that wakes without
    one; a step of the pool. *)
Inductive work_step p : pool → Prop :=
| work_test i : threads_ p !! i = Some w_ready → work_step p (test_ready i p)
| work_finish i j : threads_ p !! i = Some (w_busy j) → work_step p (finish_job i p)
| work_notify_one i : 0 < notifies p → threads_ p !! i = Some w_asleep → work_step p (notify_one (Some i) p)
| work_notify_none : 0 < notifies p → (∀ i, threads_ p !! i ≠ Some w_asleep) → work_step p (notify_one None p)
| work_notify_all : 0 < notify_alls p → work_step p (notify_all p).
Inductive spurious_step p : pool → Prop :=
| spurious i : threads_ p !! i = Some w_asleep → spurious_step p (set_threads (<[i := w_ready]> (threads_ p)) p).
Inductive pool_step p : pool → Prop :=
| step_work p' : work_step p p' → pool_step p p'
| step_spurious p' : spurious_step p p' → pool_step p p'
| step_enqueue j p' : enqueue j p = Ret tt p' → pool_step p p'
| step_refused j e p' : enqueue j p = Throw e p' → pool_step p p'
| step_close p' : close_begin p = Ret tt p' → pool_step p p'.
Definition started_pool (threads : nat) : pool := Pool [] false (replicate threads w_ready) 0 0 [] [].

(** ** Invariant *)

(** A worker that will test the condition without being notified *)
Definition awake (w : worker) : bool := match w with w_ready | w_busy _ => true | _ => false end.
Record pool_inv (n : nat) p : Prop := {
  pi_threads : length (threads_ p) = n;
  pi_fifo : accepted p = begun p ++ jobs_ p;
  pi_exited i : threads_ p !! i = Some w_exited → stopping_ p = true ∧ jobs_ p = [];
  pi_asleep i : threads_ p !! i = Some w_asleep → stopping_ p = true → 0 < notify_alls p;
  pi_wakes : 0 < n → jobs_ p ≠ [] → 0 < notifies p ∨ 0 < notify_alls p ∨ ∃ i w, threads_ p !! i = Some w ∧ awake w = true }.

Lemma insert_worker (ts : list worker) i w k v : <[i := w]> ts !! k = Some v → v = w ∨ ts !! k = Some v.
Proof.
  destruct (decide (i = k)) as [<-|Hne]; [intros Hk%list_lookup_insert_Some; naive_solver|].
  rewrite list_lookup_insert_ne by done. auto.
Qed.
Lemma inserted_worker (ts : list worker) i w v : ts !! i = Some w → <[i := v]> ts !! i = Some v.
Proof. intros Hi. apply list_lookup_insert_eq. by eapply lookup_lt_Some. Qed.

Lemma wake_worker (ts : list worker) i : ts !! i = Some w_asleep → alter woken i ts = <[i := w_ready]> ts.
Proof. revert i. induction ts as [|t ts IH]; intros [|i] Hi; simplify_eq/=; [done|]. f_equal. by apply IH. Qed.

Lemma set_worker_inv n p i w v :
  pool_inv n p → threads_ p !! i = Some w → awake v = true → pool_inv n (set_threads (<[i := v]> (threads_ p)) p).
Proof.
  intros [H1 H2 H3 H4 H5] Hi Hv. split; simpl; [by rewrite length_insert|done| | |].
  - intros k [<-|?]%insert_worker; [done|eauto].
  - intros k [<-|?]%insert_worker; [done|eauto].
  - intros _ _. right; right. exists i, v. split; [by eapply inserted_worker|done].
Qed.
Lemma test_inv n p i : pool_inv n p → threads_ p !! i = Some w_ready → pool_inv n (test_ready i p).
Proof.
  intros [H1 H2 H3 H4 H5] Hi. unfold test_ready, can_take, take_job. destruct (jobs_ p) as [|j js] eqn:Hj.
  - rewrite orb_false_r. destruct (stopping_ p) eqn:Hs.
    + split; simpl; rewrite ?Hj, ?Hs; [by rewrite length_insert|done|done| |done].
      intros k [?|?]%insert_worker; [done|eauto].
    + split; simpl; rewrite ?Hj, ?Hs; [by rewrite length_insert|done| |done|done].
      intros k [?|Hk]%insert_worker; [done|]. by destruct (H3 k Hk).
  - rewrite orb_true_r. split; simpl; [by rewrite length_insert|by rewrite <- app_assoc| | |].
    + intros k [?|Hk]%insert_worker; [done|]. by destruct (H3 k Hk).
    + intros k [?|?]%insert_worker; [done|eauto].
    + intros _ _. right; right. exists i, (w_busy j). split; [by eapply inserted_worker|done].
Qed.
(** With no worker asleep, someone is awake as long as jobs are queued. *)
Lemma awake_worker n p : pool_inv n p → 0 < n → jobs_ p ≠ [] → (∀ i, threads_ p !! i ≠ Some w_asleep) →
  ∃ i w, threads_ p !! i = Some w ∧ awake w = true.
Proof.
  intros [H1 _ H3 _ _] Hn Hj Hno. destruct (lookup_lt_is_Some_2 (threads_ p) 0) as [w Hw]; [lia|]. exists 0, w. split; [done|].
  destruct w; try done; [by destruct (Hno 0)|by destruct (H3 0 Hw)].
Qed.
Lemma notify_all_inv n p : pool_inv n p → pool_inv n (notify_all p).
Proof.
  intros [H1 H2 H3 H4 H5]. split; simpl; [by rewrite length_fmap|done| | |].
  - intros k. rewrite list_lookup_fmap. intros ([]&?&?)%fmap_Some; simplify_eq/=; eauto.
  - intros k. rewrite list_lookup_fmap. by intros ([]&?&?)%fmap_Some; simplify_eq/=.
  - intros Hn Hj. right; right. destruct (lookup_lt_is_Some_2 (threads_ p) 0) as [w Hw]; [lia|]. exists 0, (woken w).
    rewrite list_lookup_fmap, Hw. split; [done|]. destruct w; try done. by destruct (H3 0 Hw).
Qed.
Lemma work_inv n p p' : pool_inv n p → work_step p p' → pool_inv n p'.
Proof.
  intros HI [i Hi|i j Hi|i Hs Hi|Hs Hno|Hs]; [by apply test_inv|by eapply set_worker_inv|..|by apply notify_all_inv].
  - pose proof (set_worker_inv n p i _ w_ready HI Hi eq_refl) as [H1 H2 H3 H4 H5]. simpl in *.
    assert (<[i := w_ready]> (threads_ p) = alter woken i (threads_ p)) as E by (symmetry; by apply wake_worker).
    rewrite E in *. split; try done. intros _ _. right; right. exists i, w_ready. split; [|done]. simpl.
    rewrite <- E. by eapply inserted_worker.
  - pose proof (awake_worker n p HI) as Hw. destruct HI as [H1 H2 H3 H4 H5]. split; try done. simpl. intros Hn Hj. auto.
Qed.
Lemma pool_inv_step n p p' : pool_inv n p → pool_step p p' → pool_inv n p'.
Proof.
  intros HI [p1 Hw|p1 [i Hi]|j p1 He|j e p1 He|p1 Hc]; [by eapply work_inv|by eapply set_worker_inv|..]; destruct HI as [H1 H2 H3 H4 H5].
  - unfold enqueue, mbind, M_bind, gets in He. simpl in He. destruct (stopping_ p) eqn:Hs; [done|]. injection He as <-.
    split; simpl; [done|by rewrite H2, app_assoc| | |intros; left; lia].
    + intros i Hx. destruct (H3 i Hx). congruence.
    + rewrite Hs. done.
  - unfold enqueue, mbind, M_bind, gets in He. simpl in He. destruct (stopping_ p) eqn:Hs; [|done]. injection He as _ <-.
    split; rewrite ?Hs; done.
  - injection Hc as <-. split; simpl; [done..| |intros; lia|intros; right; left; lia]. intros i Hx. by destruct (H3 i Hx).
Qed.
Lemma pool_reach n p : rtc pool_step (started_pool n) p → pool_inv n p.
Proof.
  revert p. apply rtc_ind_r; [|by eauto using pool_inv_step]. split; simpl; [by rewrite length_replicate|done|..].
  - by intros i [[=] _]%lookup_replicate.
  - by intros i [[=] _]%lookup_replicate.
  - done.
Qed.

(** ** Progress *)
Lemma some_worker (P : worker → bool) (ts : list worker) :
  (∃ i w, ts !! i = Some w ∧ P w = true) ∨ ∀ i w, ts !! i = Some w → P w = false.
Proof.
  induction ts as [|t ts [(i&w&?&?)|IH]]; [by right|left; by exists (S i), w|].
  destruct (P t) eqn:E; [left; by exists 0, t|]. right. intros [|i] w Hi; simplify_eq/=; [done|eauto].
Qed.
(** A pool in which nothing can happen by itself *)
Definition at_rest p : Prop := ∀ q, ¬ work_step p q.
Lemma step_or_rest p : (∃ q, work_step p q) ∨ at_rest p.
Proof.
  destruct (some_worker awake (threads_ p)) as [(i&w&Hi&Hw)|Hno].
  { left. destruct w as [| |j|]; try done; eexists; [by apply (work_test _ i)|by apply (work_finish _ i j)]. }
  destruct (decide (0 < notify_alls p)); [left; eexists; by apply work_notify_all|].
  destruct (decide (0 < notifies p)).
  - left. destruct (some_worker (λ w, match w with w_asleep => true | _ => false end) (threads_ p)) as [(i&w&Hi&Hw)|Has].
    + destruct w; try done. eexists. by apply (work_notify_one _ i).
    + eexists. apply work_notify_none; [done|]. intros i Hi. by specialize (Has _ _ Hi).
  - right. intros q [i Hi|i j Hi|i ? Hi|? _|?]; try lia; by specialize (Hno _ _ Hi).
Qed.
(** At rest, every job accepted has been run; if the pool is closed, every worker has left. *)
Lemma rest_drained n p : 0 < n → pool_inv n p → at_rest p →
  jobs_ p = [] ∧ begun p = accepted p ∧ (∀ i j, threads_ p !! i ≠ Some (w_busy j)) ∧ (stopping_ p = true → joined p = true).
Proof.
  intros Hn I Hrest. pose proof I as [H1 H2 H3 H4 H5].
  assert (∀ i w, threads_ p !! i = Some w → w = w_asleep ∨ w = w_exited) as Hw.
  { intros i [| |j|] Hi; auto; [destruct (Hrest _ (work_test _ i Hi))|destruct (Hrest _ (work_finish _ i j Hi))]. }
  assert (notify_alls p = 0) as Hall by (destruct (notify_alls p) eqn:E; [done|]; destruct (Hrest (notify_all p)); apply work_notify_all; lia).
  assert (notifies p = 0) as Hone.
  { destruct (notifies p) eqn:E; [done|]. exfalso.
    destruct (some_worker (λ w, match w with w_asleep => true | _ => false end) (threads_ p)) as [(i&[]&Hi&?)|Has]; try done.
    - eapply Hrest, (work_notify_one _ i); [lia|done].
    - eapply Hrest, work_notify_none; [lia|]. intros i Hi. by specialize (Has _ _ Hi). }
  assert (jobs_ p = []) as Hj.
  { destruct (jobs_ p) as [|j js]; [done|]. destruct H5 as [?|[?|(i&w&Hi&Ha)]]; [done|done|lia|lia|]. by destruct (Hw _ _ Hi) as [-> | ->]. }
  split_and!; [done|by rewrite H2, Hj, app_nil_r|intros i j Hi; by destruct (Hw _ _ Hi)|].
  intros Hs. unfold joined. apply forallb_forall. intros w (i&Hi)%list_elem_of_In%list_elem_of_lookup.
  destruct (Hw _ _ Hi) as [-> | ->]; [|done]. specialize (H4 i Hi Hs). lia.
Qed.

(** ** Termination *)

(** What is left to do: of the pool by itself, and of a closed pool, in which a worker may
    also wake without being notified. *)
Definition effort_of (w : worker) : nat := match w with w_exited => 0 | w_asleep => 1 | w_ready => 2 | w_busy _ => 3 end.
Definition effort p : nat :=
  2 * length (jobs_ p) + sum_list_with effort_of (threads_ p) + 2 * notifies p + S (length (threads_ p)) * notify_alls p.
Definition weight (w : worker) : nat := match w with w_exited => 0 | w_ready => 1 | w_asleep => 2 | w_busy _ => 2 end.
Definition measure p : nat := 2 * length (jobs_ p) + sum_list_with weight (threads_ p) + notifies p + notify_alls p.

Lemma sum_woken (f : worker → nat) (d : nat) (ts : list worker) :
  f w_ready ≤ f w_asleep + d → sum_list_with f (woken <$> ts) ≤ sum_list_with f ts + d * length ts.
Proof.
  intros Hf. induction ts as [|t ts IH]; [simpl; lia|]. rewrite fmap_cons. cbn [sum_list_with length].
  rewrite Nat.mul_succ_r. assert (f (woken t) ≤ f t + d) by (destruct t; simpl; lia). lia.
Qed.
Lemma work_effort p p' : work_step p p' → effort p' < effort p.
Proof.
  unfold effort. intros [i Hi|i j Hi|i Hs Hi|Hs Hno|Hs]; simpl.
  - unfold test_ready, can_take, take_job. destruct (jobs_ p) as [|j js] eqn:Hj; [destruct (stopping_ p)|rewrite orb_true_r]; simpl;
      rewrite ?Hj, length_insert; [pose proof (sum_insert effort_of _ _ _ w_exited Hi)|pose proof (sum_insert effort_of _ _ _ w_asleep Hi)|
        pose proof (sum_insert effort_of _ _ _ (w_busy j) Hi)]; simpl in *; lia.
  - rewrite length_insert. pose proof (sum_insert effort_of _ _ _ w_ready Hi). simpl in *. lia.
  - rewrite (wake_worker _ _ Hi), length_insert. pose proof (sum_insert effort_of _ _ _ w_ready Hi). simpl in *. lia.
  - lia.
  - rewrite length_fmap. pose proof (sum_woken effort_of 1 (threads_ p) ltac:(simpl; lia)). destruct (notify_alls p); [lia|]. cbn [Nat.pred]. rewrite !Nat.mul_succ_r. lia.
Qed.
Definition closed_step p p' : Prop := work_step p p' ∨ spurious_step p p'.
Lemma closed_measure p p' : stopping_ p = true → closed_step p p' → stopping_ p' = true ∧ measure p' < measure p.
Proof.
  unfold measure. intros Hs [[i Hi|i j Hi|i Hn Hi|Hn Hno|Hn]|[i Hi]]; simpl.
  - unfold test_ready, can_take, take_job. rewrite Hs. destruct (jobs_ p) as [|j js] eqn:Hj; simpl; rewrite ?Hj, ?Hs; (split; [done|]);
      [pose proof (sum_insert weight _ _ _ w_exited Hi)|pose proof (sum_insert weight _ _ _ (w_busy j) Hi)]; simpl in *; lia.
  - pose proof (sum_insert weight _ _ _ w_ready Hi). simpl in *. split; [done|lia].
  - rewrite (wake_worker _ _ Hi). pose proof (sum_insert weight _ _ _ w_ready Hi). simpl in *. split; [done|lia].
  - split; [done|lia].
  - pose proof (sum_woken weight 0 (threads_ p) ltac:(simpl; lia)). split; [done|lia].
  - pose proof (sum_insert weight _ _ _ w_ready Hi). simpl in *. split; [done|lia].
Qed.
Lemma work_ends p : ∃ p', rtc work_step p p' ∧ at_rest p'.
Proof.
  induction p as [p IH] using (well_founded_induction (well_founded_ltof _ effort)).
  destruct (step_or_rest p) as [[q Hq]|Hrest]; [|by exists p].
  destruct (IH q (work_effort _ _ Hq)) as (p'&Hr&Hrest). exists p'. split; [by eapply rtc_l|done].
Qed.

(** C26: The pool runs jobs first-in first-out and loses none, under every interleaving of
    producers, workers and the closing thread: the jobs begun, followed by the queue, are
    the jobs accepted in order; and when the workers have been joined, every accepted
    job has been run to its end and no job is accepted any more. *)
Theorem pool_fifo n p :
  0 < n → rtc pool_step (started_pool n) p →
  accepted p = begun p ++ jobs_ p ∧
  (joined p = true →
     begun p = accepted p ∧ (∀ i j, threads_ p !! i ≠ Some (w_busy j)) ∧
     ∀ j, enqueue j p = Throw (logic_error "closed pool") p).
Proof.
  intros Hn [H1 H2 H3 _ _]%pool_reach. split; [done|]. intros Hj.
  assert (∀ i w, threads_ p !! i = Some w → w = w_exited) as Hx.
  { intros i w Hi. unfold joined in Hj. rewrite forallb_forall in Hj.
    assert (In w (threads_ p)) as Hin by (apply list_elem_of_In, list_elem_of_lookup; eauto). specialize (Hj _ Hin). by destruct w. }
  destruct (lookup_lt_is_Some_2 (threads_ p) 0) as [w Hw]; [lia|]. pose proof (Hx _ _ Hw) as ->.
  destruct (H3 0 Hw) as [Hs Hjobs]. split_and!.
  - by rewrite H2, Hjobs, app_nil_r.
  - intros i j Hi. by apply Hx in Hi.
  - intros j. unfold enqueue, mbind, M_bind, gets. simpl. by rewrite Hs.
Qed.

(** C27: No job is stranded, and closing the pool ends.  From every state the pool can reach,
    the steps its workers take and the notifications still owed are bounded in number, and
    wherever they come to rest, with no help from a worker that wakes by itself, every
    accepted job has been run to its end, and if the pool is closed every worker has
    returned, so that the joins of [close] return with the queue drained.  Once it is
    closed, not even workers that wake by themselves make it run longer than a bound
    computed from its state. *)
Theorem pool_close_terminates n p :
  0 < n → rtc pool_step (started_pool n) p →
  (∀ k p', nsteps work_step k p p' → k + effort p' ≤ effort p) ∧
  (∀ p', rtc work_step p p' → at_rest p' →
     jobs_ p' = [] ∧ begun p' = accepted p' ∧ (∀ i j, threads_ p' !! i ≠ Some (w_busy j)) ∧
     (stopping_ p' = true → joined p' = true)) ∧
  (∃ p', rtc work_step p p' ∧ at_rest p') ∧
  (stopping_ p = true → ∀ k p', nsteps closed_step k p p' → stopping_ p' = true ∧ k + measure p' ≤ measure p).
Proof.
  intros Hn I%pool_reach. split_and!.
  - intros k p' H. clear I. induction H as [|k p1 p2 p3 Hstep _ IH]; [lia|]. apply work_effort in Hstep. lia.
  - intros p' Hr. apply (rest_drained n); [done|]. induction Hr; [done|]. apply IHHr. by eapply work_inv.
  - apply work_ends.
  - intros Hs k p' H. clear I. induction H as [|k p1 p2 p3 Hstep _ IH]; [split; [done|lia]|].
    destruct (closed_measure _ _ Hs Hstep) as [Hs' Hm]. destruct (IH Hs'). split; [done|lia].
Qed.

(** ** [pool::run] *)
Section run.
Context {V : Type}.
(** [canceled] is [token.stop_requested() || loop.stopped()] at three moments: at the
    call, when the job runs and when the coroutine is resumed; [fn] is what the callable does. *)
Definition run_begin (canceled : bool) : option exn :=
  if canceled then Some (system_error operation_canceled) else None.
Definition run_job (canceled : bool) (fn : V + exn) : option V * option exn :=
  if canceled then (None, None) else match fn with inl v => (Some v, None) | inr e => (None, Some e) end.
Definition run_end (canceled : bool) (slots : option V * option exn) : M unit V :=
  if canceled then throw (system_error operation_canceled) else
    match slots with
    | (_, Some e) => throw e
    | (Some v, None) => mret v
    | (None, None) => undefined
    end.

(** A function run in the pool: a stop request, which is never withdrawn, makes the call
    throw [operation_canceled] whenever it arrives, even if the function has run; without
    one the call gives exactly the value or exception of the function.  The empty result
    slot is never read. *)
Theorem pool_run_spec (at_job at_end : bool) (fn : V + exn) :
  (at_job = true → at_end = true) →
  run_end at_end (run_job at_job fn) tt =
    if at_end then Throw (system_error operation_canceled) tt
    else match fn with inl v => Ret v tt | inr e => Throw e tt end.
Proof. intros Hm. destruct at_end, at_job, fn; simpl; try done; by specialize (Hm eq_refl). Qed.
End run.
End pool.
