(* ===== verification/Loop.v ===== *)
(** * Owner-thread scheduling (include/snowy/loop.hpp, src/loop.cpp)

    Cancellation, suspension and completion of operations, cross-thread
    messages, posts and timers.  The native wake source is reduced to whether it
    is signalled.  A section under [std::lock_guard] is one step. *)
From S2P Require Import Prelude ReadyQueue Links Heap Core.

Section loop.
Context {D : Type} `{!StdHeap loc}.
Local Abbreviation M := (M (world D)).
Implicit Types (x : loc) (L : loopid) (h : coro) (t : token) (s : source).

(** ** Stop sources and tokens ([<stop_token>]) *)
Definition stop_requested t : M bool :=
  gets (λ w, match t with Some s => default false (w_stops w !! s) | None => false end).
Definition stop_possible t : M bool :=
  gets (λ w, match t with Some s => bool_decide (is_Some (w_stops w !! s)) | None => false end).

(** ** Affinity and flags *)
Definition check L : M unit :=
  l ← the_loop L;
  this ← gets w_thread;
  if decide (l_thread l = this) then mret tt else throw (logic_error "wrong loop thread").

Definition stopped L : M bool := l ← the_loop L; mret (l_stopping l).

Definition wake L : M unit := upd_loop L (set_l_woken true).

(** [void cancel_fn::operator()() const] *)
Definition cancel_fn x : M unit :=
  upd_op x (set_op_canceled true) ;;
  o ← the_op x;
  upd_loop (op_owner o) (set_l_cancel true) ;;
  wake (op_owner o).

(** [callback.emplace(token, cancel_fn{&op})]: a stop already requested runs the
    callback at once. *)
Definition emplace_callback x t : M unit :=
  upd_op x (set_op_callback t) ;;
  r ← stop_requested t;
  when r (cancel_fn x).

(** [stop_source::request_stop()] runs every registered callback, once. *)
Definition registered s (w : world D) : list loc :=
  (map_to_list (filter (λ p, op_callback p.2 = Some s) (w_ops w))).*1.
Definition request_stop s : M unit :=
  r ← stop_requested (Some s);
  if r : bool then mret tt else
    modify (λ w, set_w_stops (<[s := true]> (w_stops w)) w) ;;
    xs ← gets (registered s);
    for_each cancel_fn xs.

(** [void loop::stop()] *)
Definition stop L : M unit :=
  upd_loop L (set_l_stopping true) ;;
  upd_loop L (set_l_cancel true) ;;
  wake L.

(** [void loop::post(std::function<void()> fn)] *)
Definition post_fn L (f : option fn) : M unit :=
  match f with
  | None => throw (invalid_argument "empty post")
  | Some f =>
      upd_loop L (λ l, set_l_posts (l_posts l ++ [f]) l) ;;
      l ← the_loop L;
      when (bool_decide (length (l_posts l) = 1)) (wake L)
  end.

(** [void loop::fail()], [e] being [std::current_exception()] *)
Definition fail L (e : exn) : M unit :=
  l ← the_loop L;
  (match l_error l with
   | None => upd_loop L (set_l_error (Some e))
   | Some _ => mret tt
   end) ;;
  stop L.

(** ** Messages *)

(** [void message::send(loop& target)] *)
Definition send x L : M unit :=
  l ← the_loop L;
  let was_empty := empty (l_messages l) in
  on_messages L (push (message_node x)) ;;
  when was_empty (wake L).

(** [loop::hop]: [await_ready] and [await_suspend] *)
Definition hop_await_ready x : M bool :=
  m ← the_message x;
  this ← gets w_thread;
  c ← gets (λ w, w_current w !! this);
  mret (bool_decide (c = Some (msg_owner m))).
Definition hop_await_suspend x h : M unit :=
  upd_message x (λ m, Message (run_resume h) (msg_owner m)) ;;
  m ← the_message x;
  send x (msg_owner m).

(** [void loop::yield::await_suspend(std::coroutine_handle<> h)] *)
Definition yield_await_suspend x h : M unit :=
  k ← the_work x;
  check (work_owner k) ;;
  upd_work x (set_work_handle (Some h)) ;;
  on_ready (work_owner k) (push (work_node x)).

(** [loop::guard]: acquiring and releasing a work reference *)
Definition guard_acquire L : M unit := upd_loop L (λ l, set_l_holds (S (l_holds l)) l).
Definition guard_release L : M unit :=
  upd_loop L (λ l, set_l_holds (pred (l_holds l)) l) ;; wake L.

(** ** Suspension and completion of operations *)

(** [bool loop::arm(detail::op& op, std::stop_token token)] *)
Definition arm L x t : M bool :=
  check L ;;
  st ← stopped L;
  rq ← stop_requested t;
  if st || rq then
    upd_op x (set_op_error (Some operation_canceled)) ;; mret false
  else
    p ← stop_possible t;
    when p (emplace_callback x t) ;;
    upd_op x (set_op_active true) ;;
    mret true.

(** [void loop::finish(detail::op& op)] *)
Definition finish L x : M unit :=
  upd_op x (set_op_callback None) ;;
  upd_op x (set_op_active false) ;;
  on_ready L (push (work_node x)).

(** [bool detail::wait::park(std::coroutine_handle<> h, std::stop_token token)] *)
Definition park x h t : M bool :=
  o ← the_op x;
  v ← the_wait x;
  let L := op_owner o in
  check L ;;
  armed ← (if wait_interruptible v then arm L x t else mret true);
  if negb armed then mret false else
    upd_op x (set_op_active true) ;;
    upd_work x (set_work_handle (Some h)) ;;
    on_waits L (link_front x) ;;
    mret true.

(** [void detail::wait::notify()] *)
Definition notify x : M unit :=
  o ← the_op x;
  if negb (op_active o) then mret tt else
    on_waits (op_owner o) (unlink_front x) ;;
    finish (op_owner o) x.

(** [detail::op::~op] and [await_resume] *)
Definition op_destroy x : M unit :=
  o ← the_op x;
  if op_active o then terminate else mret tt.
Definition op_await_resume x : M unit :=
  o ← the_op x;
  match op_error o with Some c => throw (system_error c) | None => mret tt end.

(** ** Timers *)

(** The timers of a loop with their deadlines, as the comparator reads them. *)
Definition timer_keys (w : world D) (xs : list loc) : option (list (loc * Z)) :=
  mapM (λ x, v ← w_timers w !! x; Some (x, timer_due v)) xs.
Definition reheap L (f : list (loc * Z) → list (loc * Z)) : M unit :=
  l ← the_loop L;
  ks ← deref (λ w, timer_keys w (l_timers l));
  upd_loop L (set_l_timers (f ks).*1).
Definition pop_back {A} (xs : list A) : list A := take (length xs - 1) xs.
Definition timers_pop_back L : M unit :=
  upd_loop L (λ l, set_l_timers (pop_back (l_timers l)) l).

(** [bool loop::timer::await_suspend(std::coroutine_handle<> h)] *)
Definition timer_await_suspend x h : M bool :=
  o ← the_op x;
  v ← the_timer x;
  let L := op_owner o in
  check L ;;
  upd_loop L (λ l, set_l_timers (l_timers l ++ [x]) l) ;;
  armed ← try_catch (arm L x (timer_token v)) (λ e, timers_pop_back L ;; throw e);
  if negb armed then timers_pop_back L ;; mret false else
    upd_work x (set_work_handle (Some h)) ;;
    reheap L push_heap ;;
    mret true.
End loop.

(** [loop::timer loop::sleep(clock::duration delay, std::stop_token token)]: the
    deadline, in the 64-bit ticks of [std::chrono::steady_clock]. *)
Definition time_max : Z := 2 ^ 63 - 1.
Definition sleep (now delay : Z) : Z :=
  let room := (time_max - now)%Z in
  if bool_decide (delay ≤ 0)%Z then now
  else if bool_decide (room ≤ delay)%Z then time_max else (now + delay)%Z.
