(* ===== verification/LoopInv.v ===== *)
(** * The loop's lists: invariant and refinement

    The pointer structures of [loop] implement, per loop, five lists of objects:
    continuations ready to run, messages in delivery, suspended waits, native
    requests and armed timers.  [Inv] relates the memory to these lists and says
    that an operation is [active] exactly while it is on one of the three pending
    lists, so that nothing active is ever lost and nothing inactive is ever found
    there.  Every operation of [Loop] is shown to perform its step on the lists. *)
From S2P Require Import Prelude ReadyQueue Links Heap Core Loop.

Record aloop := ALoop {
  a_ready : list loc;
  a_msgs : list loc;
  a_batch : list loc;
  a_waits : list loc;
  a_ios : list loc;
  a_timers : list loc }.
Definition ghost : Type := loopid → aloop.

Definition set_a_ready v a := ALoop v (a_msgs a) (a_batch a) (a_waits a) (a_ios a) (a_timers a).
Definition set_a_msgs v a := ALoop (a_ready a) v (a_batch a) (a_waits a) (a_ios a) (a_timers a).
Definition set_a_batch v a := ALoop (a_ready a) (a_msgs a) v (a_waits a) (a_ios a) (a_timers a).
Definition set_a_waits v a := ALoop (a_ready a) (a_msgs a) (a_batch a) v (a_ios a) (a_timers a).
Definition set_a_ios v a := ALoop (a_ready a) (a_msgs a) (a_batch a) (a_waits a) v (a_timers a).
Definition set_a_timers v a := ALoop (a_ready a) (a_msgs a) (a_batch a) (a_waits a) (a_ios a) v.
Definition a_pending (a : aloop) : list loc := a_waits a ++ a_ios a ++ a_timers a.

(** Messages not yet delivered: the batch being processed, then the queue. *)
Definition a_inflight (a : aloop) : list loc := a_batch a ++ a_msgs a.

Definition upd_g (L : loopid) (f : aloop → aloop) (g : ghost) : ghost :=
  λ L', if decide (L' = L) then f (g L) else g L'.

Lemma upd_g_eq L f g : upd_g L f g L = f (g L).
Proof. unfold upd_g. by rewrite decide_True. Qed.
Lemma upd_g_ne L L' f g : L' ≠ L → upd_g L f g L' = g L'.
Proof. intros. unfold upd_g. by rewrite decide_False. Qed.

(** Lists a step does not mention, and loop fields an assignment does not. *)
Lemma upd_g_proj {B} (p : aloop → B) L f g L' : p (f (g L)) = p (g L) → p (upd_g L f g L') = p (g L').
Proof. intros. unfold upd_g. by case_decide; subst. Qed.
Lemma alter_proj {D B} (p : loop D → B) (f : loop D → loop D) (m : gmap loopid (loop D)) L L' l' :
  alter f L m !! L' = Some l' → (∀ l, p (f l) = p l) → ∃ l, m !! L' = Some l ∧ p l' = p l.
Proof.
  intros Hl Hp. apply lookup_alter_Some in Hl as [(->&l0&?&->)|[? ?]]; eauto.
Qed.

(** Solve what a step on one loop's lists leaves alone. *)
Ltac untouched :=
  lazymatch goal with
  | |- ∀ L l, alter _ _ _ !! L = Some l → ?R _ (?p l) _ =>
      let L' := fresh in let l' := fresh in let Hl := fresh in let l0 := fresh in
      intros L' l' Hl;
      apply (alter_proj p) in Hl as (l0&Hl&->); [|done];
      rewrite ?(upd_g_proj a_ready), ?(upd_g_proj a_msgs), ?(upd_g_proj a_batch),
        ?(upd_g_proj a_inflight), ?(upd_g_proj a_pending), ?(upd_g_proj a_waits),
        ?(upd_g_proj a_ios), ?(upd_g_proj a_timers) by done; solve [eauto]
  | |- _ =>
      intros *;
      rewrite ?(upd_g_proj a_ready), ?(upd_g_proj a_msgs), ?(upd_g_proj a_batch),
        ?(upd_g_proj a_inflight), ?(upd_g_proj a_pending), ?(upd_g_proj a_waits),
        ?(upd_g_proj a_ios), ?(upd_g_proj a_timers) by done;
      solve [eauto]
  end.

(** Open an invariant field by field and keep the fields the step changes. *)
Ltac inv_fields I := destruct I; constructor; simpl; try assumption; try untouched.

Section inv.
Context {D : Type}.
Implicit Types (w : world D) (g : ghost) (X : gset loc) (x : loc) (L : loopid).

(** [X]: active operations that are between two lists. *)
Record Inv X w g : Prop := {
  inv_ready L l : w_loops w !! L = Some l →
    rq_rep (w_next w) (l_ready l) (work_node <$> a_ready (g L));
  inv_msgs L l : w_loops w !! L = Some l →
    rq_rep (w_next w) (l_messages l) (message_node <$> a_msgs (g L));
  inv_batch L l : w_loops w !! L = Some l →
    rq_rep (w_next w) (l_batch l) (message_node <$> a_batch (g L));
  inv_inflight L : NoDup (a_inflight (g L));
  inv_waits L l : w_loops w !! L = Some l → dl_rep (w_wlinks w) (l_waits l) (a_waits (g L));
  inv_ios L l : w_loops w !! L = Some l → dl_rep (w_iolinks w) (l_io l) (a_ios (g L));
  inv_timers L : NoDup (a_timers (g L));
  inv_kind_wait L x : x ∈ a_waits (g L) → is_Some (w_waits w !! x);
  inv_kind_io L x : x ∈ a_ios (g L) → is_Some (w_ios w !! x);
  inv_kind_timer L x : x ∈ a_timers (g L) → is_Some (w_timers w !! x);
  inv_class x : is_Some (w_waits w !! x) → w_ios w !! x = None ∧ w_timers w !! x = None;
  inv_classes x : is_Some (w_ios w !! x) → w_timers w !! x = None;
  inv_links x : is_Some (w_waits w !! x) → is_Some (w_wlinks w !! x);
  inv_iolinks x : is_Some (w_ios w !! x) → is_Some (w_iolinks w !! x);
  inv_pending L x : x ∈ a_pending (g L) →
    (x ∉ X) ∧ (∃ o, w_ops w !! x = Some o ∧ op_owner o = L ∧ op_active o = true);
  inv_between x : x ∈ X → ∃ o, w_ops w !! x = Some o ∧ op_active o = true;
  inv_active x o : w_ops w !! x = Some o → op_active o = true →
    x ∈ X ∨ x ∈ a_pending (g (op_owner o));
  inv_ready_node L x : x ∈ a_ready (g L) →
    ∃ k, w_works w !! x = Some k ∧ work_owner k = L ∧
         ∀ o, w_ops w !! x = Some o → op_active o = false;
  inv_msg_node L x : x ∈ a_inflight (g L) → ∃ m, w_messages w !! x = Some m ∧ msg_owner m = L;
  inv_op x o : w_ops w !! x = Some o →
    is_Some (w_loops w !! op_owner o) ∧
    ∃ k, w_works w !! x = Some k ∧ work_owner k = op_owner o;
  inv_work_next x k : w_works w !! x = Some k → x ∉ a_ready (g (work_owner k)) →
    w_next w !! work_node x = Some None;
  inv_msg_next x m : w_messages w !! x = Some m → x ∉ a_inflight (g (msg_owner m)) →
    w_next w !! message_node x = Some None }.

(** An inactive operation is on no pending list. *)
Lemma inv_inactive X w g L x o :
  Inv X w g → w_ops w !! x = Some o → op_active o = false → x ∉ a_pending (g L).
Proof. intros I Ho Ha Hx. destruct (inv_pending _ _ _ I _ _ Hx) as (_&o'&?&?&?). congruence. Qed.

(** An active operation is not ready. *)
Lemma inv_not_ready X w g L x o :
  Inv X w g → w_ops w !! x = Some o → op_active o = true → x ∉ a_ready (g L).
Proof.
  intros I Ho Ha Hx. destruct (inv_ready_node _ _ _ I _ _ Hx) as (k&_&_&Hk).
  specialize (Hk _ Ho). congruence.
Qed.

(** Work of one loop is never in the queue of another one. *)
Lemma inv_ready_owner X w g L x k :
  Inv X w g → w_works w !! x = Some k → x ∈ a_ready (g L) → L = work_owner k.
Proof. intros I Hk Hx. destruct (inv_ready_node _ _ _ I _ _ Hx) as (k'&?&?&_). congruence. Qed.
Lemma inv_msg_owner X w g L x m :
  Inv X w g → w_messages w !! x = Some m → x ∈ a_inflight (g L) → L = msg_owner m.
Proof. intros I Hm Hx. destruct (inv_msg_node _ _ _ I _ _ Hx) as (m'&?&?). congruence. Qed.
Lemma inv_pending_owner X w g L x o :
  Inv X w g → w_ops w !! x = Some o → x ∈ a_pending (g L) → L = op_owner o.
Proof. intros I Ho Hx. destruct (inv_pending _ _ _ I _ _ Hx) as (_&o'&?&?&_). congruence. Qed.

(** ** Assignments that concern no list *)
Lemma Inv_upd_op X w g x o o' :
  Inv X w g → w_ops w !! x = Some o → op_owner o' = op_owner o → op_active o' = op_active o →
  Inv X (set_w_ops (<[x := o']> (w_ops w)) w) g.
Proof.
  intros I Hx Hown Hact. destruct I; constructor; simpl; try assumption.
  - intros L y Hy. destruct (inv_pending0 L y Hy) as (?&o1&Hy1&?&?). split; [done|].
    destruct (decide (x = y)) as [->|]; [|exists o1; by rewrite lookup_insert_ne].
    exists o'. rewrite lookup_insert_eq. split_and!; congruence.
  - intros y Hy. destruct (inv_between0 y Hy) as (o1&Hy1&?).
    destruct (decide (x = y)) as [->|]; [|exists o1; by rewrite lookup_insert_ne].
    exists o'. rewrite lookup_insert_eq. split_and!; congruence.
  - intros y o1 [[<- <-]|[? ?]]%lookup_insert_Some; [|by eauto].
    rewrite Hown, Hact. by apply inv_active0.
  - intros L y Hy. destruct (inv_ready_node0 L y Hy) as (k&?&?&Hk). exists k. split_and!; [done..|].
    intros o1 [[<- <-]|[? ?]]%lookup_insert_Some; [|by eauto]. rewrite Hact. by apply Hk.
  - intros y o1 [[<- <-]|[? ?]]%lookup_insert_Some; [|by eauto]. rewrite Hown. by apply inv_op0.
Qed.

Lemma Inv_upd_loop X w g L l l' :
  Inv X w g → w_loops w !! L = Some l →
  l_ready l' = l_ready l → l_messages l' = l_messages l → l_batch l' = l_batch l →
  l_waits l' = l_waits l → l_io l' = l_io l →
  Inv X (set_w_loops (<[L := l']> (w_loops w)) w) g.
Proof.
  intros I HL E1 E2 E5 E3 E4. destruct I; constructor; simpl; try assumption.
  - intros L' l1 [[<- <-]|[? ?]]%lookup_insert_Some; [rewrite E1|]; by apply inv_ready0.
  - intros L' l1 [[<- <-]|[? ?]]%lookup_insert_Some; [rewrite E2|]; by apply inv_msgs0.
  - intros L' l1 [[<- <-]|[? ?]]%lookup_insert_Some; [rewrite E5|]; by apply inv_batch0.
  - intros L' l1 [[<- <-]|[? ?]]%lookup_insert_Some; [rewrite E3|]; by apply inv_waits0.
  - intros L' l1 [[<- <-]|[? ?]]%lookup_insert_Some; [rewrite E4|]; by apply inv_ios0.
  - intros y o Ho. destruct (inv_op0 y o Ho) as [Hs ?]. split; [|done].
    apply lookup_insert_is_Some'. by right.
Qed.

Lemma Inv_upd_work X w g x k k' :
  Inv X w g → w_works w !! x = Some k → work_owner k' = work_owner k →
  Inv X (set_w_works (<[x := k']> (w_works w)) w) g.
Proof.
  intros I Hx Hown. destruct I; constructor; simpl; try assumption.
  - intros L y Hy. destruct (inv_ready_node0 L y Hy) as (k1&?&?&Hk).
    destruct (decide (x = y)) as [->|]; [|exists k1; by rewrite lookup_insert_ne].
    exists k'. rewrite lookup_insert_eq. split_and!; congruence || done.
  - intros y o Ho. destruct (inv_op0 y o Ho) as (?&k1&?&?). split; [done|].
    destruct (decide (x = y)) as [->|]; [|exists k1; by rewrite lookup_insert_ne].
    exists k'. rewrite lookup_insert_eq. split; congruence.
  - intros y k1 [[<- <-]|[? ?]]%lookup_insert_Some; [rewrite Hown|]; by eauto.
Qed.

(** ** Entering and leaving the pending lists *)
Lemma Inv_activate X w g x o o' :
  Inv X w g → w_ops w !! x = Some o → op_active o = false → x ∉ a_ready (g (op_owner o)) →
  op_owner o' = op_owner o → op_active o' = true →
  Inv (X ∪ {[x]}) (set_w_ops (<[x := o']> (w_ops w)) w) g.
Proof.
  intros I Hx Ha Hr Hown Hact.
  assert (Hnp : ∀ L, x ∉ a_pending (g L)) by (intros L; by eapply inv_inactive).
  assert (Hnr : ∀ L, x ∉ a_ready (g L)).
  { intros L HL. destruct (inv_op _ _ _ I _ _ Hx) as (_&k&Hk&Hk').
    pose proof (inv_ready_owner _ _ _ _ _ _ I Hk HL). congruence. }
  destruct I; constructor; simpl; try assumption.
  - intros L y Hy. assert (x ≠ y) by (intros ->; by eapply Hnp).
    destruct (inv_pending0 L y Hy) as (?&o1&?&?). split; [set_solver|].
    exists o1. by rewrite lookup_insert_ne.
  - intros y [Hy| ->%elem_of_singleton]%elem_of_union.
    + destruct (inv_between0 y Hy) as (o1&?&?).
      destruct (decide (x = y)) as [->|]; [|exists o1; by rewrite lookup_insert_ne].
      exists o'. by rewrite lookup_insert_eq.
    + exists o'. by rewrite lookup_insert_eq.
  - intros y o1 [[<- <-]|[? Ho]]%lookup_insert_Some Hao; [set_solver|].
    destruct (inv_active0 y o1 Ho Hao); set_solver.
  - intros L y Hy. assert (x ≠ y) by (intros ->; by eapply Hnr).
    destruct (inv_ready_node0 L y Hy) as (k&?&?&Hk). exists k. split_and!; [done..|].
    intros o1. rewrite lookup_insert_ne by done. apply Hk.
  - intros y o1 [[<- <-]|[? ?]]%lookup_insert_Some; [|by eauto]. rewrite Hown. by apply inv_op0.
Qed.

(** The waits of two loops are disjoint, because an operation has one owner. *)
Lemma inv_waits_disjoint X w g L L' x :
  Inv X w g → x ∈ a_waits (g L) → x ∈ a_waits (g L') → L = L'.
Proof.
  intros I Hx Hx'. destruct (inv_pending _ _ _ I L x) as (_&o&Ho&<-&_); [set_solver|].
  symmetry. eapply inv_pending_owner; [done..|set_solver].
Qed.
Lemma inv_ios_disjoint X w g L L' x :
  Inv X w g → x ∈ a_ios (g L) → x ∈ a_ios (g L') → L = L'.
Proof.
  intros I Hx Hx'. destruct (inv_pending _ _ _ I L x) as (_&o&Ho&<-&_); [set_solver|].
  symmetry. eapply inv_pending_owner; [done..|set_solver].
Qed.

(** A change of one loop's pending lists that adds [x] to the operations between
    lists, or takes it from there, keeps the accounting. *)
Lemma pending_remove X w g L f x :
  Inv X w g → x ∈ a_pending (g L) →
  (∀ y, y ∈ a_pending (f (g L)) ↔ y ∈ a_pending (g L) ∧ y ≠ x) →
  (∀ L' y, y ∈ a_pending (upd_g L f g L') →
    (y ∉ X ∪ {[x]}) ∧ (∃ o, w_ops w !! y = Some o ∧ op_owner o = L' ∧ op_active o = true)) ∧
  (∀ y, y ∈ X ∪ {[x]} → ∃ o, w_ops w !! y = Some o ∧ op_active o = true) ∧
  (∀ y o, w_ops w !! y = Some o → op_active o = true →
    y ∈ X ∪ {[x]} ∨ y ∈ a_pending (upd_g L f g (op_owner o))).
Proof.
  intros I Hx Hf. destruct (inv_pending _ _ _ I _ _ Hx) as (HxX&ox&Hox&Hoxw&Hoxa). split_and!.
  - intros L' y Hy. destruct (decide (L' = L)) as [->|Hne].
    + rewrite upd_g_eq in Hy. apply Hf in Hy as [Hy ?].
      destruct (inv_pending _ _ _ I _ _ Hy) as [? ?]. set_solver.
    + rewrite upd_g_ne in Hy by done. destruct (inv_pending _ _ _ I _ _ Hy) as (?&o&?&?&?).
      split; [|by eauto]. assert (y ≠ x) by congruence. set_solver.
  - intros y [Hy| ->%elem_of_singleton]%elem_of_union; [by eapply inv_between|eauto].
  - intros y o Ho Ha. destruct (inv_active _ _ _ I y o Ho Ha) as [|Hy]; [set_solver|].
    destruct (decide (y = x)) as [->|]; [set_solver|]. right.
    destruct (decide (op_owner o = L)) as [HL|]; [|by rewrite upd_g_ne].
    rewrite HL, upd_g_eq in *. by apply Hf.
Qed.

Lemma pending_add X w g L f x o :
  Inv X w g → x ∈ X → w_ops w !! x = Some o → op_owner o = L →
  (∀ y, y ∈ a_pending (f (g L)) ↔ y ∈ a_pending (g L) ∨ y = x) →
  (∀ L' y, y ∈ a_pending (upd_g L f g L') →
    (y ∉ X ∖ {[x]}) ∧ (∃ o, w_ops w !! y = Some o ∧ op_owner o = L' ∧ op_active o = true)) ∧
  (∀ y, y ∈ X ∖ {[x]} → ∃ o, w_ops w !! y = Some o ∧ op_active o = true) ∧
  (∀ y o, w_ops w !! y = Some o → op_active o = true →
    y ∈ X ∖ {[x]} ∨ y ∈ a_pending (upd_g L f g (op_owner o))).
Proof.
  intros I Hx Ho Hown Hf. split_and!.
  - intros L' y Hy. destruct (decide (L' = L)) as [->|Hne].
    + rewrite upd_g_eq in Hy. apply Hf in Hy as [Hy| ->].
      * destruct (inv_pending _ _ _ I _ _ Hy) as [? ?]. set_solver.
      * destruct (inv_between _ _ _ I _ Hx) as (o'&?&?). split; [set_solver|].
        exists o'. split_and!; congruence.
    + rewrite upd_g_ne in Hy by done. destruct (inv_pending _ _ _ I _ _ Hy) as (?&o'&?&?&?). set_solver.
  - intros y Hy. eapply inv_between; [done|set_solver].
  - intros y o' Ho' Ha. destruct (decide (y = x)) as [->|].
    + right. assert (o' = o) as -> by congruence. rewrite Hown, upd_g_eq. set_solver.
    + destruct (inv_active _ _ _ I y o' Ho' Ha) as [|Hy]; [set_solver|]. right.
      destruct (decide (op_owner o' = L)) as [HL|]; [|by rewrite upd_g_ne].
      rewrite HL, upd_g_eq in *. set_solver.
Qed.

(** ** [waits_] *)
Lemma Inv_unlink_wait X w g L l l1 x l2 :
  Inv X w g → w_loops w !! L = Some l → a_waits (g L) = l1 ++ x :: l2 →
  Inv (X ∪ {[x]})
    (set_w_wlinks (unlinked (w_wlinks w) l1 l2)
      (set_w_loops (alter (set_l_waits (head (l1 ++ l2))) L (w_loops w)) w))
    (upd_g L (set_a_waits (l1 ++ l2)) g).
Proof.
  intros I HL Hw. pose proof (inv_waits _ _ _ I L l HL) as Hrep. rewrite Hw in Hrep.
  pose proof (dl_rep_NoDup _ _ _ Hrep) as [Hnd Hx]%NoDup_middle.
  assert (HxL : x ∈ a_waits (g L)) by (rewrite Hw; set_solver).
  destruct (pending_remove X w g L (set_a_waits (l1 ++ l2)) x I) as (P1&P2&P3).
  { unfold a_pending. set_solver. }
  { intros y. unfold a_pending; simpl. rewrite Hw.
    pose proof (inv_kind_wait _ _ _ I _ _ HxL) as Hk. pose proof (inv_class _ _ _ I x Hk) as [Hc1 Hc2].
    assert (x ∉ a_ios (g L)) by (intros [??]%(inv_kind_io _ _ _ I); congruence).
    assert (x ∉ a_timers (g L)) by (intros [??]%(inv_kind_timer _ _ _ I); congruence).
    set_solver. }
  assert (Hsub : ∀ y, y ∈ l1 ++ l2 → y ∈ a_waits (g L)) by (rewrite Hw; set_solver).
  pose proof I as I'. inv_fields I.
  - intros L' l' HL'. rewrite lookup_alter_Some in HL'.
    destruct HL' as [(<-&l0&?&->)|[? HL']]; [rewrite upd_g_eq|rewrite upd_g_ne by done]; simpl.
    + eapply unlink_rep. by rewrite <- (dl_rep_head _ _ _ Hrep).
    + eapply dl_rep_frame; [|by eapply inv_waits0]. intros y Hy. apply unlinked_other.
      intros Hy'%Hsub. by destruct (inv_waits_disjoint _ _ _ _ _ _ I' Hy Hy').
  - intros L' y. unfold upd_g. case_decide; simpl; eauto.
  - intros y Hy. apply unlinked_is_Some. eauto.
  - intros y o Ho. destruct (inv_op0 y o Ho) as [Hs ?]. split; [|done]. by apply lookup_alter_is_Some.
Qed.

Lemma Inv_link_wait X w g L l x o k :
  Inv X w g → w_loops w !! L = Some l → x ∈ X → w_ops w !! x = Some o → op_owner o = L →
  is_Some (w_waits w !! x) → w_wlinks w !! x = Some k → l_prev k = None →
  Inv (X ∖ {[x]})
    (set_w_wlinks (linked_front (w_wlinks w) (a_waits (g L)) x)
      (set_w_loops (alter (set_l_waits (Some x)) L (w_loops w)) w))
    (upd_g L (set_a_waits (x :: a_waits (g L))) g).
Proof.
  intros I HL HX Ho Hown Hwait Hk Hprev. pose proof (inv_waits _ _ _ I L l HL) as Hrep.
  destruct (pending_add X w g L (set_a_waits (x :: a_waits (g L))) x o I HX Ho Hown) as (P1&P2&P3).
  { intros y. unfold a_pending; simpl. set_solver. }
  assert (Hx : ∀ L', x ∉ a_waits (g L')).
  { intros L' Hx. destruct (inv_pending _ _ _ I L' x); [unfold a_pending; set_solver|done]. }
  pose proof I as I'. inv_fields I.
  - intros L' l' HL'. rewrite lookup_alter_Some in HL'.
    destruct HL' as [(<-&l0&?&->)|[? HL']]; [rewrite upd_g_eq|rewrite upd_g_ne by done]; simpl.
    + eapply link_front_rep; [by rewrite <- (dl_rep_head _ _ _ Hrep)|done..].
    + eapply dl_rep_frame; [|by eapply inv_waits0]. intros y Hy. apply linked_front_other.
      * intros Hy'. by destruct (inv_waits_disjoint _ _ _ _ _ _ I' Hy Hy').
      * intros ->. by eapply Hx.
  - intros L' y. unfold upd_g. case_decide; simpl; [|eauto]. intros [->|?]%elem_of_cons; eauto.
  - intros y Hy. apply linked_front_is_Some. eauto.
  - intros y o' Ho'. destruct (inv_op0 y o' Ho') as [Hs ?]. split; [|done]. by apply lookup_alter_is_Some.
Qed.

(** ** [io_] *)
Lemma Inv_unlink_io X w g L l l1 x l2 :
  Inv X w g → w_loops w !! L = Some l → a_ios (g L) = l1 ++ x :: l2 →
  Inv (X ∪ {[x]})
    (set_w_iolinks (unlinked (w_iolinks w) l1 l2)
      (set_w_loops (alter (set_l_io (head (l1 ++ l2))) L (w_loops w)) w))
    (upd_g L (set_a_ios (l1 ++ l2)) g).
Proof.
  intros I HL Hw. pose proof (inv_ios _ _ _ I L l HL) as Hrep. rewrite Hw in Hrep.
  pose proof (dl_rep_NoDup _ _ _ Hrep) as [Hnd Hx]%NoDup_middle.
  assert (HxL : x ∈ a_ios (g L)) by (rewrite Hw; set_solver).
  destruct (pending_remove X w g L (set_a_ios (l1 ++ l2)) x I) as (P1&P2&P3).
  { unfold a_pending. set_solver. }
  { intros y. unfold a_pending; simpl. rewrite Hw.
    pose proof (inv_kind_io _ _ _ I _ _ HxL) as Hk. pose proof (inv_classes _ _ _ I x Hk) as Hc.
    assert (x ∉ a_waits (g L)).
    { intros Hi%(inv_kind_wait _ _ _ I). destruct (inv_class _ _ _ I x Hi). by destruct Hk; simplify_eq. }
    assert (x ∉ a_timers (g L)) by (intros [??]%(inv_kind_timer _ _ _ I); congruence).
    set_solver. }
  assert (Hsub : ∀ y, y ∈ l1 ++ l2 → y ∈ a_ios (g L)) by (rewrite Hw; set_solver).
  pose proof I as I'. inv_fields I.
  - intros L' l' HL'. rewrite lookup_alter_Some in HL'.
    destruct HL' as [(<-&l0&?&->)|[? HL']]; [rewrite upd_g_eq|rewrite upd_g_ne by done]; simpl.
    + eapply unlink_rep. by rewrite <- (dl_rep_head _ _ _ Hrep).
    + eapply dl_rep_frame; [|by eapply inv_ios0]. intros y Hy. apply unlinked_other.
      intros Hy'%Hsub. by destruct (inv_ios_disjoint _ _ _ _ _ _ I' Hy Hy').
  - intros L' y. unfold upd_g. case_decide; simpl; eauto.
  - intros y Hy. apply unlinked_is_Some. eauto.
  - intros y o Ho. destruct (inv_op0 y o Ho) as [Hs ?]. split; [|done]. by apply lookup_alter_is_Some.
Qed.

Lemma Inv_link_io X w g L l x o k :
  Inv X w g → w_loops w !! L = Some l → x ∈ X → w_ops w !! x = Some o → op_owner o = L →
  is_Some (w_ios w !! x) → w_iolinks w !! x = Some k → l_prev k = None →
  Inv (X ∖ {[x]})
    (set_w_iolinks (linked_front (w_iolinks w) (a_ios (g L)) x)
      (set_w_loops (alter (set_l_io (Some x)) L (w_loops w)) w))
    (upd_g L (set_a_ios (x :: a_ios (g L))) g).
Proof.
  intros I HL HX Ho Hown Hio Hk Hprev. pose proof (inv_ios _ _ _ I L l HL) as Hrep.
  destruct (pending_add X w g L (set_a_ios (x :: a_ios (g L))) x o I HX Ho Hown) as (P1&P2&P3).
  { intros y. unfold a_pending; simpl. set_solver. }
  assert (Hx : ∀ L', x ∉ a_ios (g L')).
  { intros L' Hx. destruct (inv_pending _ _ _ I L' x); [unfold a_pending; set_solver|done]. }
  pose proof I as I'. inv_fields I.
  - intros L' l' HL'. rewrite lookup_alter_Some in HL'.
    destruct HL' as [(<-&l0&?&->)|[? HL']]; [rewrite upd_g_eq|rewrite upd_g_ne by done]; simpl.
    + eapply link_front_rep; [by rewrite <- (dl_rep_head _ _ _ Hrep)|done..].
    + eapply dl_rep_frame; [|by eapply inv_ios0]. intros y Hy. apply linked_front_other.
      * intros Hy'. by destruct (inv_ios_disjoint _ _ _ _ _ _ I' Hy Hy').
      * intros ->. by eapply Hx.
  - intros L' y. unfold upd_g. case_decide; simpl; [|eauto]. intros [->|?]%elem_of_cons; eauto.
  - intros y Hy. apply linked_front_is_Some. eauto.
  - intros y o' Ho'. destruct (inv_op0 y o' Ho') as [Hs ?]. split; [|done]. by apply lookup_alter_is_Some.
Qed.

(** ** [timers_] *)
Lemma Inv_remove_timer X w g L x ts :
  Inv X w g → a_timers (g L) ≡ₚ x :: ts →
  Inv (X ∪ {[x]}) w (upd_g L (set_a_timers ts) g).
Proof.
  intros I Hp. pose proof (inv_timers _ _ _ I L) as Hnd. rewrite Hp in Hnd.
  apply NoDup_cons in Hnd as [Hx Hnd].
  assert (HxL : x ∈ a_timers (g L)) by (rewrite Hp; set_solver).
  destruct (pending_remove X w g L (set_a_timers ts) x I) as (P1&P2&P3).
  { unfold a_pending. set_solver. }
  { intros y. unfold a_pending; simpl. rewrite Hp.
    pose proof (inv_kind_timer _ _ _ I _ _ HxL) as [v Hv].
    assert (x ∉ a_waits (g L)).
    { intros Hi%(inv_kind_wait _ _ _ I). destruct (inv_class _ _ _ I x Hi). congruence. }
    assert (x ∉ a_ios (g L)).
    { intros Hi%(inv_kind_io _ _ _ I). pose proof (inv_classes _ _ _ I x Hi). congruence. }
    set_solver. }
  inv_fields I.
  - intros L'. unfold upd_g. by case_decide.
  - intros L' y. unfold upd_g. case_decide; simpl; [|eauto]. intros Hy. apply (inv_kind_timer0 L).
    rewrite Hp. set_solver.
Qed.

Lemma Inv_add_timer X w g L x o ts :
  Inv X w g → x ∈ X → w_ops w !! x = Some o → op_owner o = L → is_Some (w_timers w !! x) →
  ts ≡ₚ x :: a_timers (g L) →
  Inv (X ∖ {[x]}) w (upd_g L (set_a_timers ts) g).
Proof.
  intros I HX Ho Hown Ht Hp.
  destruct (pending_add X w g L (set_a_timers ts) x o I HX Ho Hown) as (P1&P2&P3).
  { intros y. unfold a_pending; simpl. rewrite Hp. set_solver. }
  assert (Hx : x ∉ a_timers (g L)).
  { intros Hx. destruct (inv_pending _ _ _ I L x); [unfold a_pending; set_solver|done]. }
  inv_fields I.
  - intros L'. unfold upd_g. case_decide; [|done]. simpl. rewrite Hp. by apply NoDup_cons.
  - intros L' y. unfold upd_g. case_decide; simpl; [|eauto]. rewrite Hp.
    intros [->|?]%elem_of_cons; eauto.
Qed.

(** ** The queues *)
Lemma Inv_deactivate X w g x o o' :
  Inv X w g → x ∈ X → w_ops w !! x = Some o → op_owner o' = op_owner o → op_active o' = false →
  Inv (X ∖ {[x]}) (set_w_ops (<[x := o']> (w_ops w)) w) g.
Proof.
  intros I HX Hx Hown Hact. destruct I; constructor; simpl; try assumption.
  - intros L y Hy. destruct (inv_pending0 L y Hy) as (?&o1&?&?&?). split; [set_solver|].
    exists o1. rewrite lookup_insert_ne; [done|]. by intros ->.
  - intros y [Hy Hne]%elem_of_difference. destruct (inv_between0 y Hy) as (o1&?&?).
    exists o1. rewrite lookup_insert_ne; [done|]. set_solver.
  - intros y o1 [[<- <-]|[? Ho]]%lookup_insert_Some Ha; [congruence|].
    destruct (inv_active0 y o1 Ho Ha); set_solver.
  - intros L y Hy. destruct (inv_ready_node0 L y Hy) as (k&?&?&Hk). exists k. split_and!; [done..|].
    intros o1 [[<- <-]|[? ?]]%lookup_insert_Some; eauto.
  - intros y o1 [[<- <-]|[? ?]]%lookup_insert_Some; [|by eauto]. rewrite Hown. by apply inv_op0.
Qed.

(** The queues of different loops share no node. *)
Lemma ready_disjoint X w g L L' n :
  Inv X w g → n ∈ work_node <$> a_ready (g L) → n ∈ work_node <$> a_ready (g L') → L = L'.
Proof.
  intros I (x&->&Hx)%list_elem_of_fmap (y&[= <-]&Hy)%list_elem_of_fmap.
  destruct (inv_ready_node _ _ _ I _ _ Hx) as (k&Hk&<-&_).
  by rewrite (inv_ready_owner _ _ _ _ _ _ I Hk Hy).
Qed.
Lemma msgs_disjoint X w g L L' n :
  Inv X w g → n ∈ message_node <$> a_inflight (g L) → n ∈ message_node <$> a_inflight (g L') → L = L'.
Proof.
  intros I (x&->&Hx)%list_elem_of_fmap (y&[= <-]&Hy)%list_elem_of_fmap.
  destruct (inv_msg_node _ _ _ I _ _ Hx) as (m&Hm&<-).
  by rewrite (inv_msg_owner _ _ _ _ _ _ I Hm Hy).
Qed.

Definition ready_pushed w g L x : world D :=
  let ns := work_node <$> a_ready (g L) in
  set_w_next (pushed (w_next w) ns (work_node x))
    (set_w_loops (alter (set_l_ready (ReadyQueue (head (ns ++ [work_node x])) (Some (work_node x))))
                    L (w_loops w)) w).

Lemma push_ready_run X w g L l x k Q E :
  Inv X w g → w_loops w !! L = Some l → w_works w !! x = Some k → work_owner k = L →
  x ∉ a_ready (g L) → Q tt (ready_pushed w g L x) → post (on_ready L (push (work_node x))) w Q E.
Proof.
  intros I HL Hk Hown Hx HQ. eapply post_on_ready; [done| |].
  - apply push_run; [by eapply inv_ready|]. eapply inv_work_next; [done..|by rewrite Hown].
  - exact HQ.
Qed.

Lemma Inv_push_ready X w g L l x k :
  Inv X w g → w_loops w !! L = Some l → w_works w !! x = Some k → work_owner k = L →
  x ∉ a_ready (g L) → (∀ o, w_ops w !! x = Some o → op_active o = false) →
  Inv X (ready_pushed w g L x) (upd_g L (set_a_ready (a_ready (g L) ++ [x])) g).
Proof.
  intros I HL Hk Hown Hx Hact. pose proof (inv_ready _ _ _ I L l HL) as Hrep.
  assert (Hnext : w_next w !! work_node x = Some None).
  { eapply inv_work_next; [done..|by rewrite Hown]. }
  assert (Hx' : work_node x ∉ work_node <$> a_ready (g L)).
  { intros (y&[= <-]&?)%list_elem_of_fmap. done. }
  unfold ready_pushed. pose proof I as I'. inv_fields I.
  - intros L' l' HL'. rewrite lookup_alter_Some in HL'.
    destruct HL' as [(<-&l0&?&->)|[? HL']]; [rewrite upd_g_eq|rewrite upd_g_ne by done]; simpl.
    + rewrite fmap_app. by eapply pushed_rep.
    + eapply rq_rep_frame; [|by eapply inv_ready0]. intros n Hn. apply pushed_other.
      intros Hn'. by destruct (ready_disjoint _ _ _ _ _ _ I' Hn Hn').
  - intros L' l' HL'. apply (alter_proj l_messages) in HL' as (l0&HL'&->); [|done].
    rewrite (upd_g_proj a_msgs) by done. eapply rq_rep_frame; [|by eapply inv_msgs0].
    intros n (y&->&?)%list_elem_of_fmap. apply pushed_other. by intros (?&?&?)%list_elem_of_fmap.
  - intros L' l' HL'. apply (alter_proj l_batch) in HL' as (l0&HL'&->); [|done].
    rewrite (upd_g_proj a_batch) by done. eapply rq_rep_frame; [|by eapply inv_batch0].
    intros n (y&->&?)%list_elem_of_fmap. apply pushed_other. by intros (?&?&?)%list_elem_of_fmap.
  - intros L' y. unfold upd_g. case_decide as Hd; simpl; [subst L'|eauto].
    intros [?| ->%list_elem_of_singleton]%elem_of_app; [eauto|]. exists k. by split_and!.
  - intros y o Ho. destruct (inv_op0 y o Ho) as [Hs ?]. split; [|done]. by apply lookup_alter_is_Some.
  - intros y k' Hk'. unfold upd_g. case_decide as Hd; simpl; intros Hy; rewrite pushed_other.
    + apply (inv_work_next0 y k'); [done|]. rewrite Hd. set_solver.
    + intros (z&[= <-]&?)%list_elem_of_fmap. set_solver.
    + by apply (inv_work_next0 y k').
    + intros (z&[= <-]&Hz)%list_elem_of_fmap. by destruct (inv_ready_owner _ _ _ _ _ _ I' Hk' Hz).
  - intros y m Hm. rewrite (upd_g_proj a_inflight) by done. intros Hy.
    rewrite pushed_other by (by intros (?&?&?)%list_elem_of_fmap). by eapply inv_msg_next0.
Qed.

Definition message_pushed w g L x : world D :=
  let ns := message_node <$> a_msgs (g L) in
  set_w_next (pushed (w_next w) ns (message_node x))
    (set_w_loops (alter (set_l_messages (ReadyQueue (head (ns ++ [message_node x])) (Some (message_node x))))
                    L (w_loops w)) w).

Lemma push_message_run X w g L l x m Q E :
  Inv X w g → w_loops w !! L = Some l → w_messages w !! x = Some m → msg_owner m = L →
  x ∉ a_inflight (g L) → Q tt (message_pushed w g L x) → post (on_messages L (push (message_node x))) w Q E.
Proof.
  intros I HL Hk Hown Hx HQ. eapply post_on_messages; [done| |].
  - apply push_run; [by eapply inv_msgs|]. eapply inv_msg_next; [done..|by rewrite Hown].
  - exact HQ.
Qed.

(** A step on one loop's message queues. *)
Lemma Inv_messages X w g L l nx f fa :
  Inv X w g → w_loops w !! L = Some l →
  l_ready (f l) = l_ready l → l_waits (f l) = l_waits l → l_io (f l) = l_io l →
  a_ready (fa (g L)) = a_ready (g L) → a_waits (fa (g L)) = a_waits (g L) →
  a_ios (fa (g L)) = a_ios (g L) → a_timers (fa (g L)) = a_timers (g L) →
  (∀ x, nx !! work_node x = w_next w !! work_node x) →
  (∀ x, x ∉ a_inflight (g L) → x ∉ a_inflight (fa (g L)) →
        nx !! message_node x = w_next w !! message_node x) →
  NoDup (a_inflight (fa (g L))) →
  (∀ x, x ∈ a_inflight (fa (g L)) → ∃ m, w_messages w !! x = Some m ∧ msg_owner m = L) →
  (∀ x, x ∈ a_inflight (g L) → x ∉ a_inflight (fa (g L)) → nx !! message_node x = Some None) →
  rq_rep nx (l_messages (f l)) (message_node <$> a_msgs (fa (g L))) →
  rq_rep nx (l_batch (f l)) (message_node <$> a_batch (fa (g L))) →
  Inv X (set_w_next nx (set_w_loops (alter f L (w_loops w)) w)) (upd_g L fa g).
Proof.
  intros I HL E1 E2 E3 G1 G2 G3 G4 Hwork Hmsg Hnd Hown Hnone Hm Hb.
  assert (Hp : a_pending (fa (g L)) = a_pending (g L)) by (unfold a_pending; congruence).
  assert (Hother : ∀ L' y, L' ≠ L → y ∈ a_inflight (g L') → nx !! message_node y = w_next w !! message_node y).
  { intros L' y Hne Hy. destruct (inv_msg_node _ _ _ I _ _ Hy) as (m&Hym&Hyo). apply Hmsg; intros Hy'.
    - destruct (inv_msg_owner _ _ _ _ _ _ I Hym Hy'). congruence.
    - destruct (Hown _ Hy') as (m'&?&?). congruence. }
  assert (Hframe : ∀ L' q xs, L' ≠ L → (∀ y, y ∈ xs → y ∈ a_inflight (g L')) →
    rq_rep (w_next w) q (message_node <$> xs) → rq_rep nx q (message_node <$> xs)).
  { intros L' q xs Hne Hin. apply rq_rep_frame. intros n (y&->&?)%list_elem_of_fmap. eauto. }
  pose proof I as I'. inv_fields I.
  - intros L' l' [(<-&l0&?&->)|[? HL']]%lookup_alter_Some;
      [rewrite upd_g_eq, G1|rewrite upd_g_ne by done]; simplify_eq.
    + rewrite E1. eapply rq_rep_frame; [|by eapply inv_ready0]. by intros n (y&->&?)%list_elem_of_fmap.
    + eapply rq_rep_frame; [|by eapply inv_ready0]. by intros n (y&->&?)%list_elem_of_fmap.
  - intros L' l' [(<-&l0&?&->)|[? HL']]%lookup_alter_Some;
      [rewrite upd_g_eq|rewrite upd_g_ne by done]; simplify_eq; [done|].
    apply (Hframe L'); [done| |by eapply inv_msgs0]. unfold a_inflight. set_solver.
  - intros L' l' [(<-&l0&?&->)|[? HL']]%lookup_alter_Some;
      [rewrite upd_g_eq|rewrite upd_g_ne by done]; simplify_eq; [done|].
    apply (Hframe L'); [done| |by eapply inv_batch0]. unfold a_inflight. set_solver.
  - intros L'. unfold upd_g. by case_decide.
  - intros L' l' [(<-&l0&?&->)|[? HL']]%lookup_alter_Some;
      [rewrite upd_g_eq, G2|rewrite upd_g_ne by done]; simplify_eq; [rewrite E2|]; eauto.
  - intros L' l' [(<-&l0&?&->)|[? HL']]%lookup_alter_Some;
      [rewrite upd_g_eq, G3|rewrite upd_g_ne by done]; simplify_eq; [rewrite E3|]; eauto.
  - intros L' y. unfold upd_g. case_decide; [subst L'|]; eauto.
  - intros y o Ho. destruct (inv_op0 y o Ho) as [Hs ?]. split; [|done]. by apply lookup_alter_is_Some.
  - intros y k Hk. rewrite (upd_g_proj a_ready), Hwork by done. eauto.
  - intros y m Hym Hy. destruct (decide (msg_owner m = L)) as [HmL|Hne].
    + rewrite HmL, upd_g_eq in Hy. destruct (decide (y ∈ a_inflight (g L))) as [|Hy']; [eauto|].
      rewrite Hmsg by done. apply (inv_msg_next0 y m); [done|congruence].
    + rewrite upd_g_ne in Hy by done. rewrite Hmsg; [eauto| |].
      * intros Hy'. by destruct (inv_msg_owner _ _ _ _ _ _ I' Hym Hy').
      * intros Hy'. destruct (Hown _ Hy') as (m'&?&?). congruence.
Qed.

Lemma message_node_notin x (xs : list loc) : x ∉ xs → message_node x ∉ message_node <$> xs.
Proof. intros Hx (y&[= <-]&?)%list_elem_of_fmap. done. Qed.
Lemma work_node_notin x (xs : list loc) : work_node x ∉ message_node <$> xs.
Proof. by intros (y&?&?)%list_elem_of_fmap. Qed.

Lemma Inv_push_message X w g L l x m :
  Inv X w g → w_loops w !! L = Some l → w_messages w !! x = Some m → msg_owner m = L →
  x ∉ a_inflight (g L) →
  Inv X (message_pushed w g L x) (upd_g L (set_a_msgs (a_msgs (g L) ++ [x])) g).
Proof.
  intros I HL Hm Hown Hx. unfold a_inflight in Hx.
  assert (Hnext : w_next w !! message_node x = Some None) by (eapply inv_msg_next; [done..|by rewrite Hown]).
  pose proof (inv_inflight _ _ _ I L) as Hnd. unfold a_inflight in Hnd.
  pose proof Hnd as (_&Hdis&_)%NoDup_app.
  eapply Inv_messages; [done..| | | | | | |]; unfold a_inflight; simpl.
  - intros y. apply pushed_other, work_node_notin.
  - intros y Hy Hy'. apply pushed_other, message_node_notin. set_solver.
  - rewrite app_assoc. apply NoDup_app. split_and!; [done|set_solver|apply NoDup_singleton].
  - intros y. rewrite app_assoc. intros [?| ->%list_elem_of_singleton]%elem_of_app; [|eauto].
    by eapply inv_msg_node.
  - intros y Hy Hy'. set_solver.
  - rewrite fmap_app. eapply pushed_rep; [by eapply inv_msgs|done|]. apply message_node_notin. set_solver.
  - eapply rq_rep_frame; [|by eapply inv_batch]. intros n (y&->&?)%list_elem_of_fmap.
    apply pushed_other, message_node_notin. set_solver.
Qed.

Lemma set_l_ready_id w L l :
  w_loops w !! L = Some l →
  set_w_next (w_next w) (set_w_loops (alter (set_l_ready (l_ready l)) L (w_loops w)) w) = w.
Proof.
  intros HL. rewrite (alter_id _ _ L); [by destruct w|]. intros l'. rewrite HL. intros [= <-]. by destruct l.
Qed.

Lemma set_l_messages_id w L l :
  w_loops w !! L = Some l →
  set_w_next (w_next w) (set_w_loops (alter (set_l_messages (l_messages l)) L (w_loops w)) w) = w.
Proof.
  intros HL. rewrite (alter_id _ _ L); [by destruct w|]. intros l'. rewrite HL. intros [= <-]. by destruct l.
Qed.

Lemma set_l_batch_id w L l :
  w_loops w !! L = Some l →
  set_w_next (w_next w) (set_w_loops (alter (set_l_batch (l_batch l)) L (w_loops w)) w) = w.
Proof.
  intros HL. rewrite (alter_id _ _ L); [by destruct w|]. intros l'. rewrite HL. intros [= <-]. by destruct l.
Qed.

Definition ready_popped w L x xs : world D :=
  let ns := work_node <$> xs in
  set_w_next (<[work_node x := None]> (w_next w))
    (set_w_loops (alter (set_l_ready (ReadyQueue (head ns) (last ns))) L (w_loops w)) w).

Lemma pop_ready_run X w g L l x xs Q E :
  Inv X w g → w_loops w !! L = Some l → a_ready (g L) = x :: xs →
  Q (Some (work_node x)) (ready_popped w L x xs) → post (on_ready L pop) w Q E.
Proof.
  intros I HL Hxs HQ. pose proof (inv_ready _ _ _ I L l HL) as Hrep. rewrite Hxs in Hrep.
  eapply post_on_ready; [done|by apply pop_run_cons|exact HQ].
Qed.

Lemma pop_ready_nil X w g L l :
  Inv X w g → w_loops w !! L = Some l → a_ready (g L) = [] → on_ready L pop w = Ret None w.
Proof.
  intros I HL Hxs. pose proof (inv_ready _ _ _ I L l HL) as Hrep. rewrite Hxs in Hrep.
  unfold on_ready, zoom. rewrite HL. simpl. rewrite pop_run_nil by done. simpl. f_equal.
  by apply set_l_ready_id.
Qed.

Definition msgs_popped w L x xs : world D :=
  let ns := message_node <$> xs in
  set_w_next (<[message_node x := None]> (w_next w))
    (set_w_loops (alter (set_l_messages (ReadyQueue (head ns) (last ns))) L (w_loops w)) w).

Lemma pop_msgs_run X w g L l x xs Q E :
  Inv X w g → w_loops w !! L = Some l → a_msgs (g L) = x :: xs →
  Q (Some (message_node x)) (msgs_popped w L x xs) → post (on_messages L pop) w Q E.
Proof.
  intros I HL Hxs HQ. pose proof (inv_msgs _ _ _ I L l HL) as Hrep. rewrite Hxs in Hrep.
  eapply post_on_messages; [done|by apply pop_run_cons|exact HQ].
Qed.

Lemma pop_msgs_nil X w g L l :
  Inv X w g → w_loops w !! L = Some l → a_msgs (g L) = [] → on_messages L pop w = Ret None w.
Proof.
  intros I HL Hxs. pose proof (inv_msgs _ _ _ I L l HL) as Hrep. rewrite Hxs in Hrep.
  unfold on_messages, zoom. rewrite HL. simpl. rewrite pop_run_nil by done. simpl. f_equal.
  by apply set_l_messages_id.
Qed.

Definition batch_popped w L x xs : world D :=
  let ns := message_node <$> xs in
  set_w_next (<[message_node x := None]> (w_next w))
    (set_w_loops (alter (set_l_batch (ReadyQueue (head ns) (last ns))) L (w_loops w)) w).

Lemma pop_batch_run X w g L l x xs Q E :
  Inv X w g → w_loops w !! L = Some l → a_batch (g L) = x :: xs →
  Q (Some (message_node x)) (batch_popped w L x xs) → post (on_batch L pop) w Q E.
Proof.
  intros I HL Hxs HQ. pose proof (inv_batch _ _ _ I L l HL) as Hrep. rewrite Hxs in Hrep.
  eapply post_on_batch; [done|by apply pop_run_cons|exact HQ].
Qed.

Lemma pop_batch_nil X w g L l :
  Inv X w g → w_loops w !! L = Some l → a_batch (g L) = [] → on_batch L pop w = Ret None w.
Proof.
  intros I HL Hxs. pose proof (inv_batch _ _ _ I L l HL) as Hrep. rewrite Hxs in Hrep.
  unfold on_batch, zoom. rewrite HL. simpl. rewrite pop_run_nil by done. simpl. f_equal.
  by apply set_l_batch_id.
Qed.

Lemma Inv_pop_ready X w g L l x xs :
  Inv X w g → w_loops w !! L = Some l → a_ready (g L) = x :: xs →
  Inv X (ready_popped w L x xs) (upd_g L (set_a_ready xs) g).
Proof.
  intros I HL Hxs. pose proof (inv_ready _ _ _ I L l HL) as Hrep. rewrite Hxs in Hrep.
  assert (HxL : x ∈ a_ready (g L)) by (rewrite Hxs; set_solver).
  destruct (inv_ready_node _ _ _ I _ _ HxL) as (kx&Hkx&Hkown&_).
  unfold ready_popped. pose proof I as I'. inv_fields I.
  - intros L' l' HL'. rewrite lookup_alter_Some in HL'.
    destruct HL' as [(<-&l0&?&->)|[? HL']]; [rewrite upd_g_eq|rewrite upd_g_ne by done]; simpl.
    + by eapply popped_rep.
    + eapply rq_rep_frame; [|by eapply inv_ready0]. intros n Hn. apply lookup_insert_ne.
      intros <-. destruct (ready_disjoint _ _ _ L' L (work_node x) I'); [done| |done].
      apply list_elem_of_fmap. eauto.
  - intros L' l' HL'. apply (alter_proj l_messages) in HL' as (l0&HL'&->); [|done].
    rewrite (upd_g_proj a_msgs) by done. eapply rq_rep_frame; [|by eapply inv_msgs0].
    intros n (y&->&?)%list_elem_of_fmap. by apply lookup_insert_ne.
  - intros L' l' HL'. apply (alter_proj l_batch) in HL' as (l0&HL'&->); [|done].
    rewrite (upd_g_proj a_batch) by done. eapply rq_rep_frame; [|by eapply inv_batch0].
    intros n (y&->&?)%list_elem_of_fmap. by apply lookup_insert_ne.
  - intros L' y. unfold upd_g. case_decide as Hd; simpl; [subst L'|eauto].
    intros Hy. apply (inv_ready_node0 L). rewrite Hxs. set_solver.
  - intros y o Ho. destruct (inv_op0 y o Ho) as [Hs ?]. split; [|done]. by apply lookup_alter_is_Some.
  - intros y k Hk Hy. destruct (decide (x = y)) as [->|Hne]; [by rewrite lookup_insert_eq|].
    rewrite lookup_insert_ne by congruence. apply (inv_work_next0 y k); [done|].
    unfold upd_g in Hy. case_decide as Hd; [|done]. rewrite Hd, Hxs. simpl in Hy. set_solver.
  - intros y m Hm. rewrite (upd_g_proj a_inflight), lookup_insert_ne by done. eauto.
Qed.


Lemma Inv_pop_msgs X w g L l x xs :
  Inv X w g → w_loops w !! L = Some l → a_msgs (g L) = x :: xs →
  Inv X (msgs_popped w L x xs) (upd_g L (set_a_msgs xs) g).
Proof.
  intros I HL Hxs. pose proof (inv_inflight _ _ _ I L) as Hnd. unfold a_inflight in Hnd.
  rewrite Hxs in Hnd. apply NoDup_middle in Hnd as [Hnd Hx].
  eapply Inv_messages; [done..| | | | | | |]; unfold a_inflight; simpl; rewrite ?Hxs.
  - intros y. by apply lookup_insert_ne.
  - intros y Hy _. apply lookup_insert_ne. set_solver.
  - done.
  - intros y Hy. eapply inv_msg_node; [done|]. unfold a_inflight. rewrite Hxs. set_solver.
  - intros y Hy Hy'. assert (y = x) as -> by set_solver. apply lookup_insert_eq.
  - eapply popped_rep. pose proof (inv_msgs _ _ _ I L l HL) as Hrep. by rewrite Hxs in Hrep.
  - eapply rq_rep_frame; [|by eapply inv_batch]. intros n (y&->&?)%list_elem_of_fmap.
    apply lookup_insert_ne. set_solver.
Qed.

Lemma Inv_pop_batch X w g L l x xs :
  Inv X w g → w_loops w !! L = Some l → a_batch (g L) = x :: xs →
  Inv X (batch_popped w L x xs) (upd_g L (set_a_batch xs) g).
Proof.
  intros I HL Hxs. pose proof (inv_inflight _ _ _ I L) as Hnd. unfold a_inflight in Hnd.
  rewrite Hxs in Hnd. simpl in Hnd. apply NoDup_cons in Hnd as [Hx Hnd].
  eapply Inv_messages; [done..| | | | | | |]; unfold a_inflight; simpl; rewrite ?Hxs.
  - intros y. by apply lookup_insert_ne.
  - intros y Hy _. apply lookup_insert_ne. set_solver.
  - done.
  - intros y Hy. eapply inv_msg_node; [done|]. unfold a_inflight. rewrite Hxs. set_solver.
  - intros y Hy Hy'. assert (y = x) as -> by set_solver. apply lookup_insert_eq.
  - eapply rq_rep_frame; [|by eapply inv_msgs]. intros n (y&->&?)%list_elem_of_fmap.
    apply lookup_insert_ne. set_solver.
  - eapply popped_rep. pose proof (inv_batch _ _ _ I L l HL) as Hrep. by rewrite Hxs in Hrep.
Qed.

Definition batch_pushed w g L x : world D :=
  let ns := message_node <$> a_batch (g L) in
  set_w_next (pushed (w_next w) ns (message_node x))
    (set_w_loops (alter (set_l_batch (ReadyQueue (head (ns ++ [message_node x])) (Some (message_node x))))
                    L (w_loops w)) w).

Lemma push_batch_run X w g L l x m Q E :
  Inv X w g → w_loops w !! L = Some l → w_messages w !! x = Some m → msg_owner m = L →
  x ∉ a_inflight (g L) → Q tt (batch_pushed w g L x) → post (on_batch L (push (message_node x))) w Q E.
Proof.
  intros I HL Hk Hown Hx HQ. eapply post_on_batch; [done| |].
  - apply push_run; [by eapply inv_batch|]. eapply inv_msg_next; [done..|by rewrite Hown].
  - exact HQ.
Qed.

Lemma Inv_push_batch X w g L l x m :
  Inv X w g → w_loops w !! L = Some l → w_messages w !! x = Some m → msg_owner m = L →
  x ∉ a_inflight (g L) →
  Inv X (batch_pushed w g L x) (upd_g L (set_a_batch (a_batch (g L) ++ [x])) g).
Proof.
  intros I HL Hm Hown Hx. unfold a_inflight in Hx.
  assert (Hnext : w_next w !! message_node x = Some None) by (eapply inv_msg_next; [done..|by rewrite Hown]).
  pose proof (inv_inflight _ _ _ I L) as Hnd. unfold a_inflight in Hnd.
  pose proof Hnd as (_&Hdis&_)%NoDup_app.
  eapply Inv_messages; [done..| | | | | | |]; unfold a_inflight; simpl.
  - intros y. apply pushed_other, work_node_notin.
  - intros y Hy Hy'. apply pushed_other, message_node_notin. set_solver.
  - rewrite <- app_assoc. apply NoDup_middle. by split.
  - intros y Hy. destruct (decide (y = x)) as [->|]; [eauto|].
    eapply inv_msg_node; [done|]. unfold a_inflight. set_solver.
  - intros y Hy Hy'. set_solver.
  - eapply rq_rep_frame; [|by eapply inv_msgs]. intros n (y&->&?)%list_elem_of_fmap.
    apply pushed_other, message_node_notin. set_solver.
  - rewrite fmap_app. eapply pushed_rep; [by eapply inv_batch|done|]. apply message_node_notin. set_solver.
Qed.
End inv.
