(* ===== verification/LoopSpec.v ===== *)
(** * What the loop operations do to the lists

    One specification per operation of [Loop], for every branch: the step on the
    lists of [LoopInv], the fields of the operation that change, and that nothing
    else does ([frame]). *)
From S2P Require Import Prelude ReadyQueue Links Heap Core Loop LoopInv.

Section spec.
Context {D : Type} `{!StdHeap loc}.
Implicit Types (w : world D) (g : ghost) (X : gset loc) (x : loc) (L : loopid).

Definition without x (xs : list loc) : list loc := filter (λ y, y ≠ x) xs.

Lemma without_notin x xs : x ∉ xs → without x xs = xs.
Proof.
  induction xs as [|y xs IH]; [done|]. intros Hx. unfold without in *.
  rewrite filter_cons_True by set_solver. f_equal. apply IH. set_solver.
Qed.
Lemma without_middle l1 x l2 : NoDup (l1 ++ x :: l2) → without x (l1 ++ x :: l2) = l1 ++ l2.
Proof.
  intros [_ Hx]%NoDup_middle. unfold without. rewrite filter_app, filter_cons_False by auto.
  f_equal; apply without_notin; set_solver.
Qed.
Lemma elem_of_without x y xs : y ∈ without x xs ↔ y ≠ x ∧ y ∈ xs.
Proof. unfold without. by rewrite list_elem_of_filter. Qed.

(** Replace the list at one address. *)
Definition upd_at e (f : list loc → list loc) (ge : loc → list loc) : loc → list loc :=
  λ e', if decide (e' = e) then f (ge e) else ge e'.
Lemma upd_at_eq e f ge : upd_at e f ge e = f (ge e).
Proof. unfold upd_at. by rewrite decide_True. Qed.
Lemma upd_at_ne e e' f ge : e' ≠ e → upd_at e f ge e' = ge e'.
Proof. intros. unfold upd_at. by rewrite decide_False. Qed.

(** Ghost states are compared pointwise. *)
Lemma Inv_ext X w g g' : (∀ L, g L = g' L) → Inv X w g → Inv X w g'.
Proof.
  intros Hg I. destruct I; constructor; intros *; rewrite <- ?Hg; eauto.
Qed.
Lemma Inv_set X X' w g : X = X' → Inv X w g → Inv X' w g.
Proof. by intros ->. Qed.

(** ** Frames

    Scheduling touches only the operation table, the queue and wait links, and
    the queues, the wait list and the wake source of the loops. *)
Definition loop_frame (l l' : loop D) : Prop :=
  l' = set_l_ready (l_ready l') (set_l_waits (l_waits l')
         (set_l_messages (l_messages l') (set_l_woken (l_woken l') l))).
Definition frame w w' : Prop :=
  w' = set_w_next (w_next w') (set_w_wlinks (w_wlinks w')
         (set_w_loops (w_loops w') (set_w_ops (w_ops w') w))) ∧
  ∀ L, option_relation loop_frame (λ _, False) (λ _, False) (w_loops w !! L) (w_loops w' !! L).

#[global] Instance loop_frame_preorder : PreOrder loop_frame.
Proof.
  split; [by intros []|]. intros l1 l2 l3 H1 H2. unfold loop_frame in *. rewrite H2, H1. by destruct l3.
Qed.
#[global] Instance frame_preorder : PreOrder frame.
Proof.
  split.
  - intros w. split; [by destruct w|]. intros L. by destruct (w_loops w !! L) as [[]|].
  - intros w1 w2 w3 [E1 F1] [E2 F2]. split; [rewrite E2, E1; by destruct w3|].
    intros L. specialize (F1 L). specialize (F2 L).
    destruct (w_loops w1 !! L), (w_loops w2 !! L), (w_loops w3 !! L); simpl in *; try done.
    by etrans.
Qed.

Lemma frame_loops w w' L l : frame w w' → w_loops w !! L = Some l →
  ∃ l', w_loops w' !! L = Some l' ∧ loop_frame l l'.
Proof. intros [_ F] HL. specialize (F L). rewrite HL in F. destruct (w_loops w' !! L); [eauto|done]. Qed.

Lemma loop_frame_alter L f (m m' : gmap loopid (loop D)) :
  m' = alter f L m → (∀ l, loop_frame l (f l)) →
  ∀ L', option_relation loop_frame (λ _, False) (λ _, False) (m !! L') (m' !! L').
Proof.
  intros -> Hf L'. destruct (decide (L = L')) as [->|].
  - rewrite lookup_alter_eq. destruct (m !! L'); simpl; [apply Hf|done].
  - rewrite lookup_alter_ne by done. by destruct (m !! L') as [[]|].
Qed.

Lemma frame_ops w m : frame w (set_w_ops m w).
Proof. split; [by destruct w|]. intros L. simpl. by destruct (w_loops w !! L) as [[]|]. Qed.

(** ** [finish] and [notify] *)
Definition retired (o : op) : op := set_op_active false (set_op_callback None o).
Definition g_finish L x (g : ghost) : ghost := upd_g L (λ a, set_a_ready (a_ready a ++ [x]) a) g.
Definition g_notify L x (g : ghost) : ghost :=
  upd_g L (λ a, set_a_ready (a_ready a ++ [x]) (set_a_waits (without x (a_waits a)) a)) g.

Lemma finish_spec X w g x o :
  Inv X w g → x ∈ X → w_ops w !! x = Some o →
  runs (finish (op_owner o) x) w (λ _ w',
    Inv (X ∖ {[x]}) w' (g_finish (op_owner o) x g) ∧
    w_ops w' = <[x := retired o]> (w_ops w) ∧ frame w w' ∧ w_wlinks w' = w_wlinks w).
Proof.
  intros I HX Ho. destruct (inv_op _ _ _ I _ _ Ho) as ([l HL]&k&Hk&Hown).
  destruct (inv_between _ _ _ I _ HX) as (o'&?&Hact). simplify_eq.
  assert (Hr : x ∉ a_ready (g (op_owner o))) by (by eapply inv_not_ready).
  pose proof (Inv_deactivate X w g x o (retired o) I HX Ho eq_refl eq_refl) as I2.
  unfold finish. step. step. simpl. rewrite insert_insert_eq.
  eapply (push_ready_run (X ∖ {[x]}) _ g); [exact I2|done|exact Hk|done|done|].
  split_and!.
  - eapply Inv_ext; [|eapply Inv_push_ready; [exact I2|done|exact Hk|done|done|]]; [done|].
    intros o1. simpl. rewrite lookup_insert_eq. by intros [= <-].
  - done.
  - split; [by destruct w|]. eapply loop_frame_alter; [done|]. by intros [].
  - done.
Qed.

Lemma notify_inactive w x o :
  w_ops w !! x = Some o → op_active o = false → notify x w = Ret tt w.
Proof. intros Ho Ha. unfold notify, mbind, M_bind, the_op, deref. rewrite Ho. simpl. by rewrite Ha. Qed.

Lemma notify_spec_links X w g x o :
  Inv X w g → w_ops w !! x = Some o → x ∈ a_waits (g (op_owner o)) →
  runs (notify x) w (λ _ w',
    Inv X w' (g_notify (op_owner o) x g) ∧
    w_ops w' = <[x := retired o]> (w_ops w) ∧ frame w w' ∧
    (∀ y, y ∉ a_waits (g (op_owner o)) → w_wlinks w' !! y = w_wlinks w !! y)).
Proof.
  intros I Ho Hx. set (L := op_owner o) in *.
  destruct (inv_op _ _ _ I _ _ Ho) as ([l HL]&_). fold L in HL.
  destruct (inv_pending _ _ _ I L x) as (HX&o'&?&_&Hact); [unfold a_pending; set_solver|]. simplify_eq.
  destruct (elem_of_split _ _ Hx) as (l1&l2&Hws).
  pose proof (inv_waits _ _ _ I L l HL) as Hrep. rewrite Hws in Hrep.
  pose proof (Inv_unlink_wait _ _ _ _ _ _ _ _ I HL Hws) as I2.
  unfold notify. step. rewrite Hact. simpl. apply post_bind.
  eapply post_on_waits; [done| |].
  { rewrite (dl_rep_head _ _ _ Hrep). apply unlink_front_run. by rewrite <- (dl_rep_head _ _ _ Hrep). }
  simpl. eapply post_mono; [eapply (finish_spec _ _ _ x o); [exact I2|set_solver|done]| |done].
  intros [] w' (I3&Hops&Hframe&Hwl). split_and!; [|done| |].
  - eapply Inv_set, Inv_ext, I3; [set_solver|]. intros L'. unfold g_finish, g_notify.
    destruct (decide (L' = L)) as [->|]; [|by rewrite !upd_g_ne].
    rewrite !upd_g_eq. simpl. by rewrite Hws, without_middle by (by eapply dl_rep_NoDup).
  - etrans; [|exact Hframe]. split; [by destruct w|]. eapply loop_frame_alter; [done|]. by intros [].
  - intros y Hy. rewrite Hwl. simpl. apply unlinked_other. rewrite Hws in Hy. set_solver.
Qed.

Lemma notify_spec X w g x o :
  Inv X w g → w_ops w !! x = Some o → x ∈ a_waits (g (op_owner o)) →
  runs (notify x) w (λ _ w',
    Inv X w' (g_notify (op_owner o) x g) ∧
    w_ops w' = <[x := retired o]> (w_ops w) ∧ frame w w').
Proof. intros I Ho Hx. eapply post_mono; [by eapply notify_spec_links| |done]. by intros _ w' (?&?&?&_). Qed.

(** An active wait is on its loop's list, so [notify] always finds it there. *)
Lemma active_wait w g x o :
  Inv ∅ w g → w_ops w !! x = Some o → is_Some (w_waits w !! x) → op_active o = true →
  x ∈ a_waits (g (op_owner o)).
Proof.
  intros I Ho Hw Ha. destruct (inv_active _ _ _ I _ _ Ho Ha) as [|Hx]; [set_solver|].
  destruct (inv_class _ _ _ I _ Hw) as [Hio Htm]. unfold a_pending in Hx.
  rewrite !elem_of_app in Hx. destruct Hx as [|[Hx|Hx]]; [done|..].
  - destruct (inv_kind_io _ _ _ I _ _ Hx). congruence.
  - destruct (inv_kind_timer _ _ _ I _ _ Hx). congruence.
Qed.

Definition g_notified L x (o : op) (g : ghost) : ghost := if op_active o then g_notify L x g else g.
Definition notified (o : op) : op := if op_active o then retired o else o.

Lemma notify_wait_spec w g x o :
  Inv ∅ w g → w_ops w !! x = Some o → is_Some (w_waits w !! x) →
  runs (notify x) w (λ _ w',
    Inv ∅ w' (g_notified (op_owner o) x o g) ∧
    w_ops w' = <[x := notified o]> (w_ops w) ∧ frame w w').
Proof.
  intros I Ho Hw. unfold g_notified, notified. destruct (op_active o) eqn:Ha.
  - eapply notify_spec; [done..|]. by eapply active_wait.
  - unfold post. rewrite (notify_inactive _ _ _ Ho Ha). split_and!; [done| |done].
    by rewrite insert_id.
Qed.

(** ** [check] and [arm] *)
Definition requested w (t : token) : bool :=
  match t with Some s => default false (w_stops w !! s) | None => false end.
Definition possible w (t : token) : bool :=
  match t with Some s => bool_decide (is_Some (w_stops w !! s)) | None => false end.
Definition armed w (t : token) (o : op) : op :=
  set_op_active true (if possible w t then set_op_callback t o else o).
Definition refused (o : op) : op := set_op_error (Some operation_canceled) o.

Lemma check_run w L l :
  w_loops w !! L = Some l →
  check L w = if decide (l_thread l = w_thread w) then Ret tt w
              else Throw (logic_error "wrong loop thread") w.
Proof.
  intros HL. unfold check, mbind, M_bind, the_loop, deref, gets. rewrite HL. simpl. by case_decide.
Qed.

Lemma post_check w L l (Q : unit → world D → Prop) E :
  w_loops w !! L = Some l → l_thread l = w_thread w → Q tt w → post (check L) w Q E.
Proof. intros HL Ht HQ. unfold post. by rewrite (check_run _ _ _ HL), decide_True. Qed.
Lemma post_stopped w L l (Q : bool → world D → Prop) E :
  w_loops w !! L = Some l → Q (l_stopping l) w → post (stopped L) w Q E.
Proof. intros HL HQ. unfold stopped. apply post_bind. by eapply post_the_loop, post_ret. Qed.
Lemma post_stop_requested w t (Q : bool → world D → Prop) E :
  Q (requested w t) w → post (stop_requested t) w Q E.
Proof. done. Qed.

Lemma arm_run w L l x o t :
  w_loops w !! L = Some l → w_ops w !! x = Some o → l_thread l = w_thread w →
  arm L x t w =
    if l_stopping l || requested w t
    then Ret false (set_w_ops (<[x := refused o]> (w_ops w)) w)
    else Ret true (set_w_ops (<[x := armed w t o]> (w_ops w)) w).
Proof.
  intros HL Ho Ht. unfold arm. unfold mbind at 1, M_bind at 1.
  rewrite (check_run _ _ _ HL), decide_True by done.
  unfold mbind, M_bind, stopped, the_loop, upd_op, the_op, deref, stop_requested, gets, modify, mret, M_ret.
  unfold mbind, M_bind. rewrite HL. fold (requested w t). destruct (l_stopping l || requested w t) eqn:E.
  - by rewrite Ho.
  - apply orb_false_iff in E as [_ E]. unfold stop_possible, gets. fold (possible w t). unfold armed.
    destruct (possible w t); simpl.
    + unfold emplace_callback, upd_op, the_op, deref, stop_requested, gets, modify, mbind, M_bind. rewrite Ho.
      simpl. change (match t with Some s => default false (w_stops w !! s) | None => false end) with (requested w t).
      rewrite E. simpl. rewrite lookup_insert_eq. simpl. by rewrite insert_insert_eq.
    + by rewrite Ho.
Qed.

(** ** [park]

    A wait parks once: it is not active, not queued, and has never been linked. *)
Definition fresh_wait w g x : Prop :=
  ∃ o k, w_ops w !! x = Some o ∧ op_active o = false ∧ (x ∉ a_ready (g (op_owner o))) ∧
         w_wlinks w !! x = Some k ∧ l_prev k = None.
Definition g_park L x (g : ghost) : ghost := upd_g L (λ a, set_a_waits (x :: a_waits a) a) g.

(** Parked: linked in front of the loop's waits, active, with its continuation. *)
Definition parked w w' g x h t o v : Prop :=
  Inv ∅ w' (g_park (op_owner o) x g) ∧
  w_ops w' = <[x := if wait_interruptible v then armed w t o else set_op_active true o]> (w_ops w) ∧
  (∃ k, w_works w !! x = Some k ∧ w_works w' = <[x := set_work_handle (Some h) k]> (w_works w)) ∧
  frame (set_w_works (w_works w') w) w'.

Lemma link_wait_spec w w0 g x o o' v l k h :
  Inv ∅ w g → w_ops w !! x = Some o → w_waits w !! x = Some v → fresh_wait w g x →
  w_loops w !! op_owner o = Some l → w_works w !! x = Some k →
  op_owner o' = op_owner o → op_active o' = true →
  w0 = set_w_works (<[x := set_work_handle (Some h) k]> (w_works w)) (set_w_ops (<[x := o']> (w_ops w)) w) →
  runs (on_waits (op_owner o) (link_front x)) w0
    (λ _ w', Inv ∅ w' (g_park (op_owner o) x g) ∧ frame w0 w' ∧ w_works w' = w_works w0 ∧ w_ops w' = w_ops w0).
Proof.
  intros I Ho Hv (o1&lk&Ho1&Ha&Hr&Hlk&Hp) HL Hk Hown Hact ->. simplify_eq.
  pose proof (Inv_activate _ _ _ _ _ o' I Ho Ha Hr Hown Hact) as I2.
  assert (I3 := Inv_upd_work _ _ _ x k (set_work_handle (Some h) k) I2 Hk eq_refl). simpl in I3.
  pose proof (inv_waits _ _ _ I _ _ HL) as Hrep.
  assert (Hx : x ∉ a_waits (g (op_owner o))).
  { intros Hx. eapply (inv_inactive _ _ _ (op_owner o)); [exact I|done..|unfold a_pending; set_solver]. }
  eapply post_on_waits; [done| |].
  { simpl. rewrite (dl_rep_head _ _ _ Hrep). apply link_front_run; [|done|by eexists].
    by rewrite <- (dl_rep_head _ _ _ Hrep). }
  simpl. split_and!; [|split; [by destruct w|eapply loop_frame_alter; [done|by intros []]]|done|done].
  eapply Inv_set, Inv_ext, (Inv_link_wait _ _ _ (op_owner o) l x o' lk I3);
    [set_solver|done|done|set_solver|simpl; by rewrite lookup_insert_eq|done|by eexists|done|done].
Qed.

Lemma park_spec w g x o v l h t :
  Inv ∅ w g → w_ops w !! x = Some o → w_waits w !! x = Some v → fresh_wait w g x →
  w_loops w !! op_owner o = Some l →
  post (park x h t) w
    (λ b w', l_thread l = w_thread w ∧
       if b : bool
       then (wait_interruptible v = true → (l_stopping l || requested w t) = false) ∧
            parked w w' g x h t o v
       else wait_interruptible v = true ∧ (l_stopping l || requested w t) = true ∧
            w' = set_w_ops (<[x := refused o]> (w_ops w)) w)
    (λ e w', e = logic_error "wrong loop thread" ∧ l_thread l ≠ w_thread w ∧ w' = w).
Proof.
  intros I Ho Hv Hf HL. destruct (inv_op _ _ _ I _ _ Ho) as (_&k&Hk&_).
  unfold park. step. step. apply post_bind. unfold post at 1. rewrite (check_run _ _ _ HL).
  case_decide as Ht; [|done]. apply post_bind.
  destruct (wait_interruptible v) eqn:Hi.
  - unfold post at 1. rewrite (arm_run _ _ _ _ _ _ HL Ho Ht).
    destruct (l_stopping l || requested w t) eqn:Hs; simpl; [by apply post_ret|].
    step. step. simpl. rewrite insert_insert_eq. apply post_bind.
    eapply post_mono; [eapply (link_wait_spec w _ g x o (armed w t o)); eauto| |done].
    + unfold armed. by destruct (possible w t).
    + simpl. intros _ w' (I'&Hfr&Hw&Hops). apply post_ret. split_and!; [done..|].
      unfold parked. rewrite Hi, Hops, Hw. simpl. split_and!; [done| |eauto|].
      * done.
      * etrans; [|exact Hfr]. apply (frame_ops (set_w_works _ w)).
  - apply post_ret. simpl. step. step. simpl. apply post_bind.
    eapply post_mono; [eapply (link_wait_spec w _ g x o (set_op_active true o)); eauto| |done].
    simpl. intros _ w' (I'&Hfr&Hw&Hops). apply post_ret. split_and!; [done..|].
    unfold parked. rewrite Hi, Hops, Hw. simpl. split_and!; [done|done|eauto|].
    etrans; [|exact Hfr]. apply (frame_ops (set_w_works _ w)).
Qed.

(** ** Construction of operations and messages *)

(** [op(loop& context)]: the operation and its [work] sub-object. *)
Definition new_op x L w : world D :=
  set_w_next (<[work_node x := None]> (w_next w))
    (set_w_works (<[x := Work None L]> (w_works w))
      (set_w_ops (<[x := Op L None false false None]> (w_ops w)) w)).
(** [wait(loop& context, bool cancelable)] *)
Definition new_wait x L (v : wait) w : world D :=
  new_op x L (set_w_waits (<[x := v]> (w_waits w)) (set_w_wlinks (<[x := Link None None]> (w_wlinks w)) w)).
(** [timer(loop& context, clock::time_point deadline, std::stop_token stop)] *)
Definition new_timer x L (deadline : Z) (stop : token) w : world D :=
  new_op x L (set_w_timers (<[x := Timer deadline stop]> (w_timers w)) w).
(** [io(loop& context, opcode kind, socket_id socket, void* buffer, unsigned length,
    std::stop_token stop, bool* slot)] *)
Definition io_init (kind : opcode) (socket : Z) (buffer : nat) (length : Z) (stop : token) (slot : option loc) : io :=
  {| io_code := kind; io_fd := socket; io_data := buffer; io_size := length; io_offset := 0; io_address := [];
     io_address_size := 0; io_accepted := -1; io_bytes := 0; io_token := stop; io_canceling := false;
     io_cancel_sent := false; io_started := false; io_done := false; io_busy := slot; io_reserved := false;
     io_prepare := None; io_result := None; io_retire := None; io_draining := false |}.
Definition new_io x L (i : io) w : world D :=
  new_op x L (set_w_ios (<[x := i]> (w_ios w)) (set_w_iolinks (<[x := Link None None]> (w_iolinks w)) w)).
Definition new_message x (m : message) w : world D :=
  set_w_next (<[message_node x := None]> (w_next w))
    (set_w_messages (<[x := m]> (w_messages w)) w).

(** Storage no object lives in yet. *)
Definition unused w x : Prop :=
  w_works w !! x = None ∧ w_ops w !! x = None ∧ w_waits w !! x = None ∧ w_wlinks w !! x = None ∧
  w_ios w !! x = None ∧ w_timers w !! x = None ∧ w_messages w !! x = None.

Lemma rq_rep_new (m : gmap rnode (option rnode)) q ns n v :
  rq_rep m q ns → n ∉ ns → rq_rep (<[n := v]> m) q ns.
Proof. intros Hrep Hn. eapply rq_rep_frame, Hrep. intros n' Hn'. apply lookup_insert_ne. by intros <-. Qed.

Lemma unused_lists X w g x L : Inv X w g → unused w x →
  (x ∉ a_ready (g L)) ∧ (x ∉ a_inflight (g L)) ∧ (x ∉ a_pending (g L)).
Proof.
  intros I (Hk&Ho&_&_&_&_&Hm). split_and!; intros Hx.
  - destruct (inv_ready_node _ _ _ I _ _ Hx) as (?&?&_). congruence.
  - destruct (inv_msg_node _ _ _ I _ _ Hx) as (?&?&_). congruence.
  - destruct (inv_pending _ _ _ I _ _ Hx) as (_&?&?&_). congruence.
Qed.

Lemma Inv_new_op X w g x L :
  Inv X w g → w_works w !! x = None → w_ops w !! x = None → is_Some (w_loops w !! L) → Inv X (new_op x L w) g.
Proof.
  intros I Hk Ho HL.
  assert (Hr : ∀ L', x ∉ a_ready (g L')).
  { intros L' Hx. destruct (inv_ready_node _ _ _ I _ _ Hx) as (?&?&_). congruence. }
  assert (Hr' : ∀ L', work_node x ∉ work_node <$> a_ready (g L')).
  { intros L' (y&[= <-]&Hy)%list_elem_of_fmap. by eapply Hr. }
  destruct I; constructor; simpl; try assumption.
  - intros L' l HL'. apply rq_rep_new; eauto.
  - intros L' l HL'. apply rq_rep_new; [eauto|]. apply work_node_notin.
  - intros L' l HL'. apply rq_rep_new; [eauto|]. apply work_node_notin.
  - intros L' y Hy. destruct (inv_pending L' y Hy) as (?&o&?&?). split; [done|]. exists o.
    rewrite lookup_insert_ne; [done|]. congruence.
  - intros y Hy. destruct (inv_between y Hy) as (o&?&?). exists o. rewrite lookup_insert_ne; [done|congruence].
  - intros y o [[<- <-]|[_ ?]]%lookup_insert_Some; [done|eauto].
  - intros L' y Hy. destruct (inv_ready_node L' y Hy) as (k&?&?&Hko). exists k.
    rewrite !lookup_insert_ne by congruence. eauto.
  - intros y o [[<- <-]|[? Hy]]%lookup_insert_Some; simpl.
    + rewrite lookup_insert_eq. split; [done|]. by eexists.
    + destruct (inv_op y o Hy) as [? (k&?&?)]. split; [done|]. exists k. by rewrite lookup_insert_ne.
  - intros y k [[<- <-]|[? Hy]]%lookup_insert_Some Hy'; [by rewrite lookup_insert_eq|].
    rewrite lookup_insert_ne by congruence. eauto.
  - intros y m Hy Hi. rewrite lookup_insert_ne by congruence. eauto.
Qed.

(** A node that no operation uses yet is on no list. *)
Lemma links_new (m : gmap loc (link loc)) p xs x k : dl_rep m p xs → x ∉ xs → dl_rep (<[x := k]> m) p xs.
Proof. intros Hrep Hx. eapply dl_rep_frame, Hrep. intros y Hy. apply lookup_insert_ne. by intros <-. Qed.

Lemma Inv_new_wait X w g x L v :
  Inv X w g → unused w x → is_Some (w_loops w !! L) → Inv X (new_wait x L v w) g.
Proof.
  intros I Hf HL. pose proof (λ L, unused_lists X w g x L I Hf) as Hno.
  destruct Hf as (Hk&Ho&Hw&Hwl&Hio&Htm&Hm). apply Inv_new_op; [|done..].
  destruct I; constructor; simpl; try assumption.
  - intros L' l HL'. apply links_new; [eauto|]. destruct (Hno L') as (_&_&Hp). unfold a_pending in Hp. set_solver.
  - intros L' y Hy. rewrite lookup_insert_is_Some'. eauto.
  - intros y [->|Hy]%lookup_insert_is_Some'; eauto.
  - intros y [->|Hy]%lookup_insert_is_Some'; apply lookup_insert_is_Some'; [by left|right; eauto].
Qed.

Lemma Inv_new_timer X w g x L d t :
  Inv X w g → unused w x → is_Some (w_loops w !! L) → Inv X (new_timer x L d t w) g.
Proof.
  intros I (Hk&Ho&Hw&Hwl&Hio&Htm&Hm) HL. apply Inv_new_op; [|done..].
  destruct I; constructor; simpl; try assumption.
  - intros L' y Hy. rewrite lookup_insert_is_Some'. eauto.
  - intros y Hy. destruct (inv_class y Hy). rewrite lookup_insert_ne; [done|]. intros ->. rewrite Hw in Hy. by destruct Hy.
  - intros y Hy. rewrite lookup_insert_ne; [eauto|]. intros ->. rewrite Hio in Hy. by destruct Hy.
Qed.

Lemma Inv_new_io X w g x L i :
  Inv X w g → unused w x → is_Some (w_loops w !! L) → Inv X (new_io x L i w) g.
Proof.
  intros I Hf HL. pose proof (λ L, unused_lists X w g x L I Hf) as Hno.
  destruct Hf as (Hk&Ho&Hw&Hwl&Hio&Htm&Hm). apply Inv_new_op; [|done..].
  destruct I; constructor; simpl; try assumption.
  - intros L' l HL'. apply links_new; [eauto|]. destruct (Hno L') as (_&_&Hp). unfold a_pending in Hp. set_solver.
  - intros L' y Hy. rewrite lookup_insert_is_Some'. eauto.
  - intros y Hy. destruct (inv_class y Hy). rewrite lookup_insert_ne; [done|]. intros ->. rewrite Hw in Hy. by destruct Hy.
  - intros y [->|Hy]%lookup_insert_is_Some'; eauto.
  - intros y [->|Hy]%lookup_insert_is_Some'; apply lookup_insert_is_Some'; [by left|right; eauto].
Qed.

Lemma Inv_new_message X w g x m :
  Inv X w g → w_messages w !! x = None → Inv X (new_message x m w) g.
Proof.
  intros I Hm. assert (Hno : ∀ L, x ∉ a_inflight (g L)).
  { intros L Hx. destruct (inv_msg_node _ _ _ I _ _ Hx) as (?&?&_). congruence. }
  destruct I; constructor; simpl; try assumption.
  - intros L' l HL'. apply rq_rep_new; [eauto|]. by intros (y&?&?)%list_elem_of_fmap.
  - intros L' l HL'. apply rq_rep_new; [eauto|]. apply message_node_notin.
    specialize (Hno L'). unfold a_inflight in Hno. set_solver.
  - intros L' l HL'. apply rq_rep_new; [eauto|]. apply message_node_notin.
    specialize (Hno L'). unfold a_inflight in Hno. set_solver.
  - intros L' y Hy. destruct (inv_msg_node L' y Hy) as (k&?&?). exists k.
    rewrite lookup_insert_ne by congruence. eauto.
  - intros y k Hy Hi. rewrite lookup_insert_ne by congruence. eauto.
  - intros y k [[<- <-]|[? Hy]]%lookup_insert_Some Hi; [by rewrite lookup_insert_eq|].
    rewrite lookup_insert_ne by congruence. eauto.
Qed.

(** ** Cancellation from any thread *)
Lemma wake_run w L l :
  w_loops w !! L = Some l → wake L w = Ret tt (set_w_loops (<[L := set_l_woken true l]> (w_loops w)) w).
Proof. intros HL. unfold wake, upd_loop, the_loop, deref, modify, mbind, M_bind. by rewrite HL. Qed.

Definition signalled (l : loop D) : loop D := set_l_woken true (set_l_cancel true l).

Lemma cancel_fn_run w x o l :
  w_ops w !! x = Some o → w_loops w !! op_owner o = Some l →
  cancel_fn x w =
    Ret tt (set_w_loops (<[op_owner o := signalled l]> (w_loops w))
             (set_w_ops (<[x := set_op_canceled true o]> (w_ops w)) w)).
Proof.
  intros Ho HL. unfold cancel_fn, upd_op, the_op, deref, modify, mbind, M_bind. rewrite Ho. simpl.
  rewrite lookup_insert_eq. simpl. unfold wake, upd_loop, the_loop, deref, modify, mbind, M_bind. simpl.
  rewrite HL. simpl. rewrite lookup_insert_eq. simpl. by rewrite insert_insert_eq.
Qed.

Lemma Inv_cancel X w g x o l :
  Inv X w g → w_ops w !! x = Some o → w_loops w !! op_owner o = Some l →
  Inv X (set_w_loops (<[op_owner o := signalled l]> (w_loops w))
          (set_w_ops (<[x := set_op_canceled true o]> (w_ops w)) w)) g.
Proof.
  intros I Ho HL.
  apply (Inv_upd_loop _ (set_w_ops (<[x := set_op_canceled true o]> (w_ops w)) w) _ _ l); try done.
  by eapply Inv_upd_op.
Qed.

Lemma Inv_stops X w g m : Inv X w g → Inv X (set_w_stops m w) g.
Proof. intros []. by constructor. Qed.

Lemma elem_of_registered s w x : x ∈ registered s w ↔ ∃ o, w_ops w !! x = Some o ∧ op_callback o = Some s.
Proof.
  unfold registered. rewrite list_elem_of_fmap. split.
  - intros ([y o]&->&Hy%elem_of_map_to_list). apply map_lookup_filter_Some in Hy. eauto.
  - intros (o&Ho&Hc). exists (x, o). split; [done|]. apply elem_of_map_to_list.
    by apply map_lookup_filter_Some.
Qed.
Lemma NoDup_registered s w : NoDup (registered s w).
Proof. apply NoDup_fst_map_to_list. Qed.

(** A stop request marks every operation registered with the source, and leaves its
    owner's loop with a pending cancellation scan and a signalled wake source.  It touches
    no list: the owner thread does the rest. *)
Theorem request_stop_spec X w g s :
  Inv X w g → requested w (Some s) = false →
  runs (request_stop s) w (λ _ w',
    Inv X w' g ∧ requested w' (Some s) = true ∧
    ∀ x o, w_ops w !! x = Some o →
      if decide (op_callback o = Some s)
      then w_ops w' !! x = Some (set_op_canceled true o) ∧
           ∃ l, w_loops w' !! op_owner o = Some l ∧ l_cancel l = true ∧ l_woken l = true
      else w_ops w' !! x = Some o).
Proof.
  intros I Hs. unfold request_stop. apply post_bind, post_stop_requested. rewrite Hs. step. step. set (w1 := set_w_stops _ w).
  set (J := λ (rest : list loc) (w' : world D), Inv X w' g ∧ NoDup rest ∧ requested w' (Some s) = true ∧
    (∀ x, x ∈ rest → x ∈ registered s w) ∧
    ∀ x o, w_ops w !! x = Some o →
      if decide (op_callback o = Some s ∧ x ∉ rest)
      then w_ops w' !! x = Some (set_op_canceled true o) ∧
           ∃ l, w_loops w' !! op_owner o = Some l ∧ l_cancel l = true ∧ l_woken l = true
      else w_ops w' !! x = Some o).
  eapply post_mono; [apply (post_for_each _ J _ _ (λ _ _, False))| |done].
  - unfold J, w1. split_and!; [by apply Inv_stops|apply NoDup_registered| |done|].
    + simpl. by rewrite lookup_insert_eq.
    + intros x o Ho. case_decide as Hd; [|done]. destruct Hd as [? []]. apply elem_of_registered. eauto.
  - intros x rest w' (I'&[Hx Hnd]%NoDup_cons&Hreq&Hrest&Hall).
    destruct (proj1 (elem_of_registered s w x)) as (o&Ho&Hc); [apply Hrest; set_solver|].
    pose proof (Hall x o Ho) as Hx'. rewrite decide_False in Hx' by set_solver.
    destruct (inv_op _ _ _ I' _ _ Hx') as [[l HL] _].
    unfold post. rewrite (cancel_fn_run _ _ _ _ Hx' HL). unfold J.
    split_and!; [by apply Inv_cancel|done|done|set_solver|].
    intros y oy Hy. specialize (Hall y oy Hy). simpl.
    destruct (decide (x = y)) as [->|Hne].
    + simplify_eq. rewrite decide_True by done. rewrite lookup_insert_eq. split; [done|].
      exists (signalled l). by rewrite lookup_insert_eq.
    + rewrite lookup_insert_ne by done.
      assert (Hiff : y ∉ rest ↔ y ∉ x :: rest) by (rewrite not_elem_of_cons; naive_solver).
      case_decide as Hd; case_decide as Hd'; [|tauto|tauto|done].
      destruct Hall as (?&l1&Hl1&?&?). split; [done|].
      destruct (decide (op_owner o = op_owner oy)) as [He|]; [|exists l1; by rewrite lookup_insert_ne].
      rewrite He, lookup_insert_eq. by exists (signalled l).
  - intros [] w' (I'&_&Hreq&_&Hall). split_and!; [done..|]. intros x o Ho. specialize (Hall x o Ho).
    case_decide as Hd; case_decide as Hd'; set_solver.
Qed.

(** ** Messages *)
Definition g_send L x (g : ghost) : ghost := upd_g L (λ a, set_a_msgs (a_msgs a ++ [x]) a) g.

(** [send] appends the message and signals the target when it was idle. *)
Lemma send_spec X w g x m L l :
  Inv X w g → w_messages w !! x = Some m → msg_owner m = L → w_loops w !! L = Some l →
  x ∉ a_inflight (g L) →
  runs (send x L) w (λ _ w',
    Inv X w' (g_send L x g) ∧ w_ops w' = w_ops w ∧ frame w w' ∧ w_wlinks w' = w_wlinks w ∧
    ∃ l', w_loops w' !! L = Some l' ∧ l_woken l' = bool_decide (a_msgs (g L) = []) || l_woken l).
Proof.
  intros I Hm Hown HL Hx. unfold send. step. apply post_bind.
  pose proof (Inv_push_message _ _ _ _ _ _ _ I HL Hm Hown Hx) as I2.
  eapply push_message_run; [done..|].
  assert (HL2 : w_loops (message_pushed w g L x) !! L = Some (set_l_messages
    (ReadyQueue (head ((message_node <$> a_msgs (g L)) ++ [message_node x])) (Some (message_node x))) l)).
  { simpl. by rewrite lookup_alter_eq, HL. }
  rewrite (empty_spec _ _ _ (inv_msgs _ _ _ I L l HL)).
  assert (Hb : bool_decide (message_node <$> a_msgs (g L) = []) = bool_decide (a_msgs (g L) = [])).
  { apply bool_decide_ext. by destruct (a_msgs (g L)). }
  rewrite Hb. apply post_when; intros Hd.
  - unfold post. rewrite (wake_run _ _ _ HL2). split_and!; [|done| |done|].
    + by eapply Inv_upd_loop.
    + split; [by destruct w|]. intros L'. simpl. destruct (decide (L = L')) as [<-|].
      * rewrite lookup_insert_eq, HL. by destruct l.
      * rewrite lookup_insert_ne, lookup_alter_ne by done. by destruct (w_loops w !! L') as [[]|].
    + eexists. rewrite Hd. split; [apply lookup_insert_eq|done].
  - split_and!; [done|done| |done|].
    + split; [by destruct w|]. eapply loop_frame_alter; [done|]. by intros [].
    + eexists. rewrite Hd. split; [exact HL2|done].
Qed.

(** ** Timers *)
Lemma timer_keys_Some w xs ks :
  timer_keys w xs = Some ks ↔
  xs = ks.*1 ∧ Forall (λ k : loc * Z, ∃ v, w_timers w !! k.1 = Some v ∧ timer_due v = k.2) ks.
Proof.
  unfold timer_keys. rewrite mapM_Some. split.
  - induction 1 as [|x k xs ks Hx _ [IH1 IH2]]; [by split|].
    destruct (w_timers w !! x) as [v|] eqn:Hv; simplify_eq/=. split; [by f_equal|].
    constructor; [|done]. simpl. eauto.
  - intros [-> Hall]. induction Hall as [|[x d] ks (v&Hv&Hd) _ IH]; simpl in *; constructor; [|done].
    by rewrite Hv, <- Hd.
Qed.

Lemma timer_keys_perm w xs ks ks' :
  timer_keys w xs = Some ks → ks' ≡ₚ ks → timer_keys w ks'.*1 = Some ks'.
Proof.
  rewrite !timer_keys_Some. intros [-> Hall] Hp. split; [done|]. by rewrite Hp.
Qed.

Lemma timer_keys_app w xs ks x v :
  timer_keys w xs = Some ks → w_timers w !! x = Some v →
  timer_keys w (xs ++ [x]) = Some (ks ++ [(x, timer_due v)]).
Proof.
  rewrite !timer_keys_Some. intros [-> Hall] Hv. rewrite fmap_app. split; [done|].
  apply Forall_app. split; [done|]. constructor; [|done]. simpl. eauto.
Qed.

(** The vector of each loop holds its armed timers in heap order. *)
Definition timers_ok w g : Prop :=
  ∀ L l, w_loops w !! L = Some l →
    l_timers l = a_timers (g L) ∧ ∃ ks, timer_keys w (l_timers l) = Some ks ∧ is_heap ks.

Lemma pop_back_snoc {A} (xs : list A) (x : A) : pop_back (xs ++ [x]) = xs.
Proof.
  unfold pop_back. rewrite length_app. simpl. replace (length xs + 1 - 1) with (length xs) by lia.
  apply take_app_length.
Qed.

Lemma reheap_run w L l f ks :
  w_loops w !! L = Some l → timer_keys w (l_timers l) = Some ks →
  reheap L f w = Ret tt (set_w_loops (<[L := set_l_timers (f ks).*1 l]> (w_loops w)) w).
Proof.
  intros HL Hks. unfold reheap, upd_loop, the_loop, deref, modify, mbind, M_bind. rewrite HL, Hks.
  unfold mbind, M_bind. by rewrite HL.
Qed.

Lemma timer_await_suspend_refused w x o v l h :
  w_ops w !! x = Some o → w_timers w !! x = Some v → w_loops w !! op_owner o = Some l →
  l_thread l = w_thread w → (l_stopping l || requested w (timer_token v)) = true →
  timer_await_suspend x h w = Ret false (set_w_ops (<[x := refused o]> (w_ops w)) w).
Proof.
  intros Ho Hv HL Ht Hs. set (w1 := set_w_loops (<[op_owner o := set_l_timers (l_timers l ++ [x]) l]> (w_loops w)) w).
  assert (HL1 : w_loops w1 !! op_owner o = Some (set_l_timers (l_timers l ++ [x]) l)) by (by simpl; rewrite lookup_insert_eq).
  unfold timer_await_suspend, the_op, the_timer, upd_loop, the_loop, try_catch, deref, modify, mbind, M_bind.
  rewrite Ho, Hv, (check_run _ _ _ HL), decide_True, HL by done.
  fold w1. rewrite (arm_run w1 _ _ x o _ HL1 Ho Ht). simpl.
  change (requested w1 (timer_token v)) with (requested w (timer_token v)). rewrite Hs. simpl.
  unfold timers_pop_back, upd_loop, the_loop, deref, modify, mbind, M_bind. simpl.
  rewrite lookup_insert_eq. simpl. rewrite insert_insert_eq, pop_back_snoc. f_equal.
  unfold set_w_loops, set_w_ops; simpl. f_equal. apply insert_id. rewrite HL. by destruct l.
Qed.

(** Arming a timer adds it to the loop's vector, keeps the vector a heap on the deadlines,
    makes the operation active and registers its stop callback. *)
Theorem timer_await_suspend_armed w g x o v l h :
  Inv ∅ w g → timers_ok w g →
  w_ops w !! x = Some o → w_timers w !! x = Some v → w_loops w !! op_owner o = Some l →
  op_active o = false → x ∉ a_ready (g (op_owner o)) →
  l_thread l = w_thread w → (l_stopping l || requested w (timer_token v)) = false →
  runs (timer_await_suspend x h) w (λ b w', b = true ∧ ∃ ts,
    ts ≡ₚ x :: l_timers l ∧ Inv ∅ w' (upd_g (op_owner o) (set_a_timers ts) g) ∧
    timers_ok w' (upd_g (op_owner o) (set_a_timers ts) g) ∧
    w_ops w' = <[x := armed w (timer_token v) o]> (w_ops w)).
Proof.
  intros I HT Ho Hv HL Ha Hr Ht Hs. destruct (HT _ _ HL) as (Htm&ks&Hks&Hheap).
  destruct (inv_op _ _ _ I _ _ Ho) as (_&k&Hk&_).
  set (l1 := set_l_timers (l_timers l ++ [x]) l).
  set (w1 := set_w_loops (<[op_owner o := l1]> (w_loops w)) w).
  assert (HL1 : w_loops w1 !! op_owner o = Some l1) by (by simpl; rewrite lookup_insert_eq).
  unfold timer_await_suspend. step. step. apply post_bind. unfold post at 1.
  rewrite (check_run _ _ _ HL), decide_True by done. step. fold l1 w1.
  apply post_bind, post_try_catch. unfold post at 1. rewrite (arm_run w1 _ l1 x o _ HL1 Ho Ht).
  change (l_stopping l1 || requested w1 (timer_token v)) with (l_stopping l || requested w (timer_token v)).
  rewrite Hs. simpl. change (armed w1) with (armed w). step.
  set (ks' := push_heap (ks ++ [(x, timer_due v)])).
  apply post_bind. unfold post at 1.
  erewrite reheap_run; [|exact HL1|exact (timer_keys_app _ _ _ _ _ Hks Hv)]. fold ks'. simpl.
  rewrite insert_insert_eq. apply post_ret. split; [done|]. exists ks'.*1.
  assert (Hperm : ks' ≡ₚ ks ++ [(x, timer_due v)]) by apply push_heap_perm.
  assert (Hts : ks'.*1 ≡ₚ x :: l_timers l).
  { rewrite Hperm, fmap_app. simpl. apply timer_keys_Some in Hks as [<- _]. by rewrite Permutation_app_comm. }
  split_and!; [done| | |done].
  - apply (Inv_set ((∅ ∪ {[x]}) ∖ {[x]})); [set_solver|].
    eapply (Inv_add_timer _ _ _ _ _ (armed w (timer_token v) o)); [| |by simpl; rewrite lookup_insert_eq|..].
    + assert (Hown : op_owner (armed w (timer_token v) o) = op_owner o).
      { unfold armed. by destruct (possible w (timer_token v)). }
      pose proof (Inv_activate ∅ w g x o _ I Ho Ha Hr Hown eq_refl) as I2.
      pose proof (Inv_upd_work _ _ _ x k (set_work_handle (Some h) k) I2 Hk eq_refl) as I3.
      exact (Inv_upd_loop _ _ _ _ l (set_l_timers ks'.*1 l) I3 HL eq_refl eq_refl eq_refl eq_refl eq_refl).
    + set_solver.
    + unfold armed. by destruct (possible w (timer_token v)).
    + by eexists.
    + by rewrite <- Htm.
  - intros L l' HL'. simpl in HL'. apply lookup_insert_Some in HL' as [[<- <-]|[Hne HL']].
    + rewrite upd_g_eq. simpl. split; [done|]. exists ks'. split; [|by apply push_heap_heap].
      eapply (timer_keys_perm w), Hperm. by apply timer_keys_app.
    + rewrite upd_g_ne by done. by apply HT.
Qed.
End spec.

(** The deadline of [sleep] never overflows: for a clock between 0 and the largest
    64-bit tick it lies between now and the largest tick, is exactly [now + delay] when
    that is representable, and a later request is never due earlier. *)
Theorem sleep_bounds now delay delay' :
  (0 ≤ now ≤ time_max)%Z → (delay ≤ delay')%Z →
  (now ≤ sleep now delay ≤ time_max)%Z ∧ (sleep now delay ≤ sleep now delay')%Z ∧
  ((0 ≤ delay)%Z → (now + delay ≤ time_max)%Z → sleep now delay = (now + delay)%Z).
Proof. intros. unfold sleep. repeat case_bool_decide; lia. Qed.
