(* ===== verification/Event.v ===== *)
(** * Manual-reset events (include/snowy/event.hpp)

    An event broadcasts to the awaiters linked to it.  [EInv] describes the
    awaiter lists; the operations keep it together with the loop invariant. *)
From S2P Require Import Prelude ReadyQueue Links Heap Core Loop LoopInv LoopSpec.

Section event.
Context {D : Type}.
Local Abbreviation M := (M (world D)).
Implicit Types (x e : loc) (w : world D) (g : ghost).

(** ** Operations *)

(** [event::wait] and [event::join]: the sub-objects of the awaiter they make. *)
Definition event_wait e (t : token) : wait * awaiter := (Wait true None, Awaiter e t false).
Definition event_join e : wait * awaiter := (Wait false None, Awaiter e None false).

(** [for (auto* w = head_; w; w = w->next_) w->notify();]  The chain has no more
    nodes than there are awaiters. *)
Fixpoint notify_chain (fuel : nat) (p : option loc) : M unit :=
  match p, fuel with
  | None, _ => mret tt
  | Some _, O => undefined
  | Some x, S fuel' =>
      notify x ;;
      k ← deref (λ w, w_alinks w !! x);
      notify_chain fuel' (l_next k)
  end.

(** [void set()] *)
Definition event_signal e : M unit :=
  v ← the_event e;
  check (event_loop v) ;;
  upd_event e (set_event_set true) ;;
  v' ← the_event e;
  fuel ← gets (λ w, size (w_alinks w));
  notify_chain fuel (event_head v').

(** [void reset()] *)
Definition event_reset e : M unit :=
  v ← the_event e;
  check (event_loop v) ;;
  upd_event e (set_event_set false).

(** [bool awaiter::await_suspend(std::coroutine_handle<> h)] *)
Definition awaiter_await_suspend x (h : coro) : M bool :=
  a ← the_awaiter x;
  ok ← park x h (aw_token a);
  if negb ok then mret false else
    on_event (aw_event a) (link_front x) ;;
    upd_awaiter x (set_aw_linked true) ;;
    v ← the_event (aw_event a);
    when (event_set v) (notify x) ;;
    mret true.

(** [~awaiter()], then [~op()]; the awaiter's own fields end with it. *)
Definition awaiter_destroy x : M unit :=
  a ← the_awaiter x;
  when (aw_linked a) (on_event (aw_event a) (unlink_front x)) ;;
  op_destroy x ;;
  modify (λ w, set_w_awaiters (delete x (w_awaiters w)) w).

(** [~event()] *)
Definition event_destroy e : M unit :=
  v ← the_event e;
  match event_head v with Some _ => terminate | None => mret tt end.

(** ** Invariant: [ge e] are the awaiters linked to the event [e] *)
Record ELinks w (ge : loc → list loc) : Prop := {
  ei_rep e v : w_events w !! e = Some v → dl_rep (w_alinks w) (event_head v) (ge e);
  ei_linked e x : x ∈ ge e → ∃ a, w_awaiters w !! x = Some a ∧ aw_event a = e ∧ aw_linked a = true;
  ei_found x a : w_awaiters w !! x = Some a → aw_linked a = true → x ∈ ge (aw_event a);
  ei_awaiter x a : w_awaiters w !! x = Some a →
    is_Some (w_waits w !! x) ∧ is_Some (w_alinks w !! x) ∧
    ∃ o v, w_ops w !! x = Some o ∧ w_events w !! aw_event a = Some v ∧ op_owner o = event_loop v;
  ei_fresh x a : w_awaiters w !! x = Some a → aw_linked a = false →
    ∃ k, w_alinks w !! x = Some k ∧ l_prev k = None }.

(** No awaiter of a set event stays suspended. *)
Definition ESet w (ge : loc → list loc) : Prop :=
  ∀ e v x o, w_events w !! e = Some v → event_set v = true → x ∈ ge e →
    w_ops w !! x = Some o → op_active o = false.
Definition EInv w ge : Prop := ELinks w ge ∧ ESet w ge.

(** Scheduling does not touch the event lists; it can only retire awaiters. *)
Definition ops_retire w w' : Prop :=
  ∀ x o, w_ops w !! x = Some o → ∃ o', w_ops w' !! x = Some o' ∧ op_owner o' = op_owner o ∧
     (op_active o = false → op_active o' = false).

Lemma ELinks_frame w w' ge : ELinks w ge → frame w w' → ops_retire w w' → ELinks w' ge.
Proof.
  intros [] [-> _] Hops. constructor; simpl; try assumption.
  intros x a Ha. destruct (ei_awaiter0 x a Ha) as (?&?&o&v&Ho&?&?). split_and!; [done..|].
  destruct (Hops x o Ho) as (o'&?&?&_). exists o', v. split_and!; [done..|congruence].
Qed.

Lemma EInv_frame w w' ge : EInv w ge → frame w w' → ops_retire w w' → EInv w' ge.
Proof.
  intros [E S] F Hops. split; [by eapply ELinks_frame|]. destruct F as [-> _].
  intros e v x o' Hv Hs Hx Ho'. destruct (ei_linked _ _ E e x Hx) as (a&Ha&_&_).
  destruct (ei_awaiter _ _ E x a Ha) as (_&_&o&?&Ho&_). destruct (Hops x o Ho) as (o1&?&_&Hi).
  simplify_eq/=. eauto.
Qed.

Lemma notified_ops w w' x o :
  w_ops w !! x = Some o → w_ops w' = <[x := notified o]> (w_ops w) →
  ops_retire w w'.
Proof.
  intros Ho Hops y oy Hy. rewrite Hops. destruct (decide (x = y)) as [->|].
  - simplify_eq. rewrite lookup_insert_eq. eexists. split; [done|]. unfold notified.
    by destruct (op_active o) eqn:?.
  - rewrite lookup_insert_ne by done. eauto.
Qed.

(** ** Broadcast *)
Fixpoint g_broadcast L (xs : list loc) w (g : ghost) : ghost :=
  match xs with
  | [] => g
  | x :: xs' =>
      g_broadcast L xs' w (match w_ops w !! x with Some o => g_notified L x o g | None => g end)
  end.

(** The operations after the awaiters [xs] have been notified. *)
Definition retire_all (xs : list loc) (m : gmap loc op) : gmap loc op :=
  map_imap (λ x o, Some (if decide (x ∈ xs) then notified o else o)) m.

Lemma retire_all_nil m : retire_all [] m = m.
Proof.
  apply map_eq. intros y. unfold retire_all. rewrite map_lookup_imap.
  destruct (m !! y) as [o|]; [|done]. unfold mbind, option_bind. by destruct (decide (y ∈ [])) as [[]%not_elem_of_nil|].
Qed.
Lemma retire_all_cons x xs m o :
  m !! x = Some o → x ∉ xs → retire_all xs (<[x := notified o]> m) = retire_all (x :: xs) m.
Proof.
  intros Hx Hn. apply map_eq. intros y. unfold retire_all. rewrite !map_lookup_imap.
  destruct (decide (x = y)) as [<-|].
  - rewrite lookup_insert_eq, Hx. simpl. by rewrite decide_False, decide_True by set_solver.
  - rewrite lookup_insert_ne by done. destruct (m !! y); simpl; [|done].
    do 2 case_decide; set_solver.
Qed.

Lemma g_broadcast_ext L xs w w' g :
  (∀ x, x ∈ xs → w_ops w' !! x = w_ops w !! x) → g_broadcast L xs w' g = g_broadcast L xs w g.
Proof.
  revert g. induction xs as [|x xs IH]; intros g Hxs; simpl; [done|].
  rewrite Hxs by set_solver. apply IH. set_solver.
Qed.

Lemma notify_chain_spec fuel w g ge e v L done_ rest :
  Inv ∅ w g → ELinks w ge → w_events w !! e = Some v → event_loop v = L →
  ge e = done_ ++ rest → length rest ≤ fuel →
  runs (notify_chain fuel (head rest)) w (λ _ w',
    Inv ∅ w' (g_broadcast L rest w g) ∧ w_ops w' = retire_all rest (w_ops w) ∧ frame w w').
Proof.
  revert w g done_ rest. induction fuel as [|fuel IH]; intros w g done_ rest I E Hv HL Hge Hlen.
  all: destruct rest as [|x rest]; simpl in *; try lia.
  1,2: apply post_ret; by rewrite retire_all_nil.
  destruct (ei_linked _ _ E e x) as (a&Ha&Hae&_); [rewrite Hge; set_solver|].
  destruct (ei_awaiter _ _ E x a Ha) as (Hw&_&o&v'&Ho&Hv'&Hown). rewrite Hae in Hv'.
  assert (v' = v) as -> by congruence.
  pose proof (ei_rep _ _ E e _ Hv) as Hrep. rewrite Hge in Hrep.
  pose proof (dl_rep_NoDup _ _ _ Hrep) as Hnd. apply NoDup_app in Hnd as (_&_&[Hx Hnd]%NoDup_cons).
  apply post_bind. eapply post_mono; [by apply (notify_wait_spec _ _ _ _ I Ho Hw)| |done].
  intros _ w1 (I1&Hops1&F1).
  pose proof (ELinks_frame _ _ _ E F1 (notified_ops _ _ _ _ Ho Hops1)) as E1.
  pose proof F1 as [Heq _].
  apply post_bind. eapply post_deref.
  { rewrite Heq. simpl. eapply dl_rep_next. exact Hrep. }
  simpl. eapply post_mono; [eapply (IH w1 _ (done_ ++ [x]) rest I1 E1)| |done].
  - rewrite Heq. simpl. done.
  - done.
  - by rewrite <- app_assoc.
  - lia.
  - intros _ w2 (I2&Hops2&F2). split_and!.
    + rewrite Ho, <- HL, <- Hown. rewrite <- HL, <- Hown in I2.
      rewrite (g_broadcast_ext _ rest w w1) in I2; [done|].
      intros y Hy. rewrite Hops1. apply lookup_insert_ne. set_solver.
    + rewrite Hops2, Hops1. by apply retire_all_cons.
    + by etrans.
Qed.

Lemma retire_all_ops w w' xs : w_ops w' = retire_all xs (w_ops w) → ops_retire w w'.
Proof.
  intros Hw x o Ho. rewrite Hw. unfold retire_all. rewrite map_lookup_imap, Ho. simpl. eexists. split; [done|].
  case_decide; [|done]. unfold notified. by destruct (op_active o) eqn:?.
Qed.

(** The awaiters suspended when the event is set become ready in list order,
    after the continuations that were already queued. *)
Lemma g_broadcast_ready L xs w g :
  (∀ x, x ∈ xs → ∃ o, w_ops w !! x = Some o) → 
  a_ready (g_broadcast L xs w g L) =
    a_ready (g L) ++ filter (λ x, op_active <$> w_ops w !! x = Some true) xs.
Proof.
  revert g. induction xs as [|x xs IH]; intros g Hxs; simpl; [by rewrite app_nil_r|].
  destruct (Hxs x) as (o&Ho); [set_solver|]. rewrite IH by set_solver. rewrite Ho.
  unfold g_notified. destruct (op_active o) eqn:Ha.
  - rewrite filter_cons_True by (rewrite Ho; simpl; by rewrite Ha). unfold g_notify. rewrite upd_g_eq. simpl.
    by rewrite <- app_assoc.
  - rewrite filter_cons_False; [done|]. rewrite Ho. simpl. by rewrite Ha.
Qed.

(** Setting an event makes exactly its suspended awaiters ready, in list order, each once;
    awaiters already retired are left alone and nobody stays suspended on a set event. *)
Theorem event_signal_spec w g ge e v l :
  Inv ∅ w g → EInv w ge → w_events w !! e = Some v → w_loops w !! event_loop v = Some l →
  l_thread l = w_thread w →
  runs (event_signal e) w (λ _ w',
    Inv ∅ w' (g_broadcast (event_loop v) (ge e) w g) ∧ EInv w' ge ∧
    w_ops w' = retire_all (ge e) (w_ops w) ∧
    w_events w' = <[e := set_event_set true v]> (w_events w) ∧
    frame (set_w_events (w_events w') w) w').
Proof.
  intros I [E ES] Hv HL Ht. unfold event_signal. step. apply post_bind. unfold post at 1.
  rewrite (check_run _ _ _ HL), decide_True by done. step. step. step. simpl.
  set (w1 := set_w_events (<[e := set_event_set true v]> (w_events w)) w).
  assert (I1 : Inv ∅ w1 g) by (destruct I; by constructor).
  assert (E1 : ELinks w1 ge).
  { destruct E; constructor; simpl; try assumption.
    - intros e' v' [[<- <-]|[? ?]]%lookup_insert_Some; simpl; eauto.
    - intros x a Ha. destruct (ei_awaiter0 x a Ha) as (?&?&o&v'&?&?&?). split_and!; [done..|].
      destruct (decide (e = aw_event a)) as [->|]; [|exists o, v'; by rewrite lookup_insert_ne].
      exists o, (set_event_set true v). simplify_eq. by rewrite lookup_insert_eq. }
  assert (Hv1 : w_events w1 !! e = Some (set_event_set true v)) by (simpl; apply lookup_insert_eq).
  pose proof (ei_rep _ _ E e v Hv) as Hrep. rewrite (dl_rep_head _ _ _ Hrep).
  eapply post_mono; [eapply (notify_chain_spec _ w1 g ge e _ (event_loop v) [] (ge e) I1 E1 Hv1); [done..|]| |done].
  { apply NoDup_length_le_size; [by eapply dl_rep_NoDup|]. intros x Hx. by eapply dl_rep_lookup. }
  intros _ w' (I'&Hops&F). pose proof F as [Heq _].
  assert (Hev : w_events w' = w_events w1) by (rewrite Heq; done).
  rewrite (g_broadcast_ext _ _ w w1) in I' by done.
  split_and!; [done| |done|done|].
  - split; [eapply ELinks_frame; [exact E1|done|by eapply retire_all_ops]|].
    intros e' v' x o'. rewrite Hev, Hops. unfold retire_all. rewrite map_lookup_imap.
    intros He' Hs Hx. unfold w1 in He'. simpl in He'. apply lookup_insert_Some in He' as [[<- <-]|[Hne He']];
      simpl; destruct (w_ops w !! x) as [o|] eqn:Ho; simpl; try done.
    + rewrite decide_True by done. intros [= <-]. unfold notified. by destruct (op_active o) eqn:?.
    + intros [= <-]. assert (Ha : op_active o = false) by (by eapply ES).
      unfold notified. rewrite Ha. by case_decide.
  - rewrite Hev. exact F.
Qed.

Lemma event_signal_wrong_thread w e v l :
  w_events w !! e = Some v → w_loops w !! event_loop v = Some l → l_thread l ≠ w_thread w →
  event_signal e w = Throw (logic_error "wrong loop thread") w.
Proof.
  intros Hv HL Ht. unfold event_signal, the_event, mbind, M_bind, deref. rewrite Hv.
  by rewrite (check_run _ _ _ HL), decide_False.
Qed.

(** ** Suspension *)
(** The world after [x] has been linked in front of the awaiters of [e]. *)
Definition event_linked w ge e x a : world D :=
  set_w_awaiters (<[x := set_aw_linked true a]> (w_awaiters w))
    (set_w_alinks (linked_front (w_alinks w) (ge e) x)
      (set_w_events (alter (set_event_head (Some x)) e (w_events w)) w)).

Lemma ELinks_link w ge e v x a :
  ELinks w ge → w_events w !! e = Some v → w_awaiters w !! x = Some a → aw_event a = e →
  aw_linked a = false → ELinks (event_linked w ge e x a) (upd_at e (cons x) ge).
Proof.
  intros E Hv Ha Hae Hl. destruct (ei_fresh _ _ E x a Ha Hl) as (k&Hk&Hp).
  assert (Hx : ∀ e', x ∉ ge e').
  { intros e' Hx. destruct (ei_linked _ _ E e' x Hx) as (a'&?&?&?). congruence. }
  pose proof (ei_rep _ _ E e v Hv) as Hrep. destruct E; unfold upd_at; constructor; simpl.
  - intros e' v' [(<-&v0&Hv0&->)|[Hne Hv']]%lookup_alter_Some; simpl.
    + rewrite decide_True by done. eapply link_front_rep; [by rewrite <- (dl_rep_head _ _ _ Hrep)|done..].
    + rewrite decide_False by done. eapply dl_rep_frame; [|by apply ei_rep0].
      intros y Hy. apply linked_front_other; [|by intros ->; eapply Hx].
      intros Hy'. destruct (ei_linked0 _ _ Hy) as (?&?&?&_), (ei_linked0 _ _ Hy') as (?&?&?&_). congruence.
  - intros e' y Hy. destruct (decide (x = y)) as [->|Hxy].
    + exists (set_aw_linked true a). rewrite lookup_insert_eq. split_and!; [done| |done].
      simpl. case_decide; [congruence|]. by destruct (Hx e').
    + rewrite lookup_insert_ne by done. apply ei_linked0. case_decide; set_solver.
  - intros y a' [[<- <-]|[? Ha']]%lookup_insert_Some Hl'; simpl.
    + rewrite decide_True by done. set_solver.
    + specialize (ei_found0 _ _ Ha' Hl'). case_decide as Hd; [rewrite <- Hd|]; set_solver.
  - intros y a' Hy. assert (∃ a0, w_awaiters w !! y = Some a0 ∧ aw_event a0 = aw_event a') as (a0&Ha0&<-).
    { apply lookup_insert_Some in Hy as [[<- <-]|[? ?]]; eauto. }
    destruct (ei_awaiter0 y a0 Ha0) as (?&?&o&v'&?&?&?). rewrite linked_front_is_Some. split_and!; [done..|].
    destruct (decide (e = aw_event a0)) as [He|]; [|exists o, v'; by rewrite lookup_alter_ne].
    rewrite <- He in *. assert (v' = v) as -> by congruence.
    exists o, (set_event_head (Some x) v). rewrite lookup_alter_eq, Hv. by split_and!.
  - intros y a' [[<- <-]|[? Ha']]%lookup_insert_Some Hl'; simpl in *; [done|].
    destruct (ei_fresh0 y a' Ha' Hl') as (k'&?&?). exists k'. split; [|done].
    rewrite linked_front_other; [done| |done]. intros Hy. destruct (ei_linked0 _ _ Hy) as (?&?&?&?). congruence.
Qed.

Lemma EInv_works w ge m : EInv w ge → EInv (set_w_works m w) ge.
Proof. intros [[] ?]. by split. Qed.

Lemma frame_events w w' m : frame (set_w_works m w) w' →
  w_events w' = w_events w ∧ w_awaiters w' = w_awaiters w ∧ w_alinks w' = w_alinks w ∧ w_waits w' = w_waits w.
Proof. intros [-> _]. done. Qed.

(** [ESet] survives linking an awaiter to an event that is not set. *)
Lemma ESet_link w ge e v x a :
  ESet w ge → w_events w !! e = Some v → event_set v = false →
  ESet (event_linked w ge e x a) (upd_at e (cons x) ge).
Proof.
  intros ES Hv Hset e' v' y oy He' Hs. simpl in *. unfold upd_at.
  apply lookup_alter_Some in He' as [(<-&v0&?&->)|[Hne He']]; simplify_eq/=; [congruence|].
  rewrite decide_False by done. eauto.
Qed.

(** Parking an awaiter leaves the event lists alone. *)
Lemma ELinks_parked w w1 ge x a o o1 :
  ELinks w ge → w_awaiters w !! x = Some a → w_ops w !! x = Some o →
  w_ops w1 = <[x := o1]> (w_ops w) → op_owner o1 = op_owner o →
  frame (set_w_works (w_works w1) w) w1 → ELinks w1 ge.
Proof.
  intros [] Ha Ho Hops1 Hown (Hev&Haw&Hal&Hwt)%frame_events.
  constructor; rewrite ?Hev, ?Haw, ?Hal, ?Hwt; try assumption.
  intros y a' Hy. destruct (ei_awaiter0 y a' Hy) as (?&?&oy&vy&Hoy&?&?). split_and!; [done..|].
  rewrite Hops1. destruct (decide (x = y)) as [<-|]; [|exists oy, vy; by rewrite lookup_insert_ne].
  exists o1, vy. rewrite lookup_insert_eq. split_and!; [done..|congruence].
Qed.

(** The last statements of [awaiter_await_suspend], once the awaiter is parked:
    [w2] is the world with the awaiter linked. *)
Lemma awaiter_linked_spec w g ge x a o v :
  Inv ∅ w g → ELinks w ge → ESet w ge → w_awaiters w !! x = Some a → aw_linked a = false →
  w_events w !! aw_event a = Some v → w_ops w !! x = Some o → op_active o = true →
  is_Some (w_waits w !! x) →
  runs (when (event_set v) (notify x)) (event_linked w ge (aw_event a) x a) (λ _ w',
    EInv w' (upd_at (aw_event a) (cons x) ge) ∧
    (if event_set v then Inv ∅ w' (g_notify (op_owner o) x g) else Inv ∅ w' g) ∧
    op_active <$> w_ops w' !! x = Some (negb (event_set v))).
Proof.
  intros I E ES Ha Hlk Hv Ho Hact Hw.
  pose proof (ELinks_link _ _ _ _ _ _ E Hv Ha eq_refl Hlk) as E2.
  assert (I2 : Inv ∅ (event_linked w ge (aw_event a) x a) g) by (destruct I; by constructor).
  apply post_when; intros Hset; rewrite Hset.
  - eapply post_mono; [eapply (notify_wait_spec _ g x o); done| |done].
    intros _ w' (I'&Hops&F). unfold g_notified in I'. rewrite Hact in I'.
    unfold notified in Hops. rewrite Hact in Hops. simpl in Hops. split_and!; [split|done|].
    + eapply ELinks_frame; [exact E2|done|]. eapply notified_ops; [exact Ho|].
      unfold notified. by rewrite Hact.
    + destruct F as [-> _]. rewrite Hops. intros e' v' y oy. simpl. unfold upd_at.
      intros He' Hs Hy [[<- <-]|[Hne Hoy]]%lookup_insert_Some; [done|].
      apply lookup_alter_Some in He' as [(<-&v0&?&->)|[? He']]; case_decide; try done; simplify_eq/=.
      * eapply ES; [done..| |done]. set_solver.
      * eauto.
    + rewrite Hops. by rewrite lookup_insert_eq.
  - split_and!; [split; [done|by eapply ESet_link]|done|]. simpl. rewrite Ho. simpl. by rewrite Hact.
Qed.

(** Waiting on an event: refused with [operation_canceled] when the loop is stopping or
    the token is already requested (and the wait is interruptible); otherwise the awaiter
    is linked, and it is ready at once when the event is set and suspended when it is not. *)
Theorem awaiter_await_suspend_spec w g ge x a o v vt l h :
  Inv ∅ w g → EInv w ge → w_awaiters w !! x = Some a → aw_linked a = false →
  w_events w !! aw_event a = Some v → w_ops w !! x = Some o → w_waits w !! x = Some vt →
  fresh_wait w g x → w_loops w !! op_owner o = Some l → l_thread l = w_thread w →
  runs (awaiter_await_suspend x h) w (λ b w',
    if b : bool
    then EInv w' (upd_at (aw_event a) (cons x) ge) ∧
         (if event_set v then Inv ∅ w' (g_notify (op_owner o) x (g_park (op_owner o) x g))
          else Inv ∅ w' (g_park (op_owner o) x g)) ∧
         op_active <$> w_ops w' !! x = Some (negb (event_set v))
    else wait_interruptible vt = true ∧ (l_stopping l || requested w (aw_token a)) = true ∧
         w' = set_w_ops (<[x := refused o]> (w_ops w)) w).
Proof.
  intros I [E ES] Ha Hlk Hv Ho Hvt Hf HL Ht. unfold awaiter_await_suspend. step. apply post_bind.
  eapply post_mono; [by apply (park_spec _ _ _ _ _ _ h (aw_token a) I Ho Hvt Hf HL)| |by intros ? ? (?&?&?)].
  intros [] w1; [|intros (_&?&?&->); simpl; by apply post_ret].
  intros (_&_&(I1&Hops1&_&F1)). simpl. pose proof (frame_events _ _ _ F1) as (Hev&Haw&Hal&Hwt).
  set (o1 := if wait_interruptible vt then armed w (aw_token a) o else set_op_active true o) in *.
  assert (op_active o1 = true ∧ op_owner o1 = op_owner o) as [Hact Hown].
  { unfold o1, armed. by destruct (wait_interruptible vt), (possible w (aw_token a)). }
  pose proof (ELinks_parked _ _ _ _ _ _ _ E Ha Ho Hops1 Hown F1) as E1.
  assert (Hx : ∀ e', x ∉ ge e').
  { intros e' Hx. destruct (ei_linked _ _ E e' x Hx) as (a'&?&?&?). congruence. }
  assert (ES1 : ESet w1 ge).
  { intros e' v' y oy He' Hs Hy. rewrite Hev in He'. rewrite Hops1, lookup_insert_ne; [by eapply ES|].
    intros <-. by eapply Hx. }
  assert (Ho1 : w_ops w1 !! x = Some o1) by (rewrite Hops1; apply lookup_insert_eq).
  rewrite <- Hev in Hv. rewrite <- Haw in Ha. rewrite <- Hwt in Hvt.
  pose proof (ei_rep _ _ E1 _ _ Hv) as Hrep. destruct (ei_fresh _ _ E1 _ _ Ha Hlk) as (k&Hk&_).
  apply post_bind. eapply post_on_event; [done| |].
  { rewrite (dl_rep_head _ _ _ Hrep). apply link_front_run; [by rewrite <- (dl_rep_head _ _ _ Hrep)|done|by eexists]. }
  simpl. step. step. change (set_w_awaiters _ _) with (event_linked w1 ge (aw_event a) x a).
  apply post_bind. eapply post_mono; [apply (awaiter_linked_spec w1 _ ge x a o1 v I1 E1 ES1); try done; by eexists| |done].
  intros _ w' (?&?&?). apply post_ret. by rewrite Hown in *.
Qed.

(** ** Destruction *)

(** The world after [x] has left the list [l1 ++ x :: l2] of [e] and is gone. *)
Definition awaiter_removed w e l1 l2 x : world D :=
  set_w_awaiters (delete x (w_awaiters w))
    (set_w_alinks (unlinked (w_alinks w) l1 l2)
      (set_w_events (alter (set_event_head (head (l1 ++ l2))) e (w_events w)) w)).

Lemma ELinks_removed w ge e v x l1 l2 :
  ELinks w ge → w_events w !! e = Some v → ge e = l1 ++ x :: l2 →
  ELinks (awaiter_removed w e l1 l2 x) (upd_at e (without x) ge).
Proof.
  intros E Hv Hge. pose proof (ei_rep _ _ E e v Hv) as Hrep. rewrite Hge in Hrep.
  pose proof (dl_rep_NoDup _ _ _ Hrep) as Hnd.
  assert (Hother : ∀ e' y, e' ≠ e → y ∈ ge e' → y ∉ l1 ++ x :: l2).
  { intros e' y Hne Hy Hy'. rewrite <- Hge in Hy'.
    destruct (ei_linked _ _ E _ _ Hy) as (?&?&?&_), (ei_linked _ _ E _ _ Hy') as (?&?&?&_). congruence. }
  assert (Hxe : x ∈ ge e) by (rewrite Hge; set_solver).
  destruct E; unfold upd_at; constructor; simpl.
  - intros e' v' [(<-&v0&Hv0&->)|[Hne Hv']]%lookup_alter_Some; simpl.
    + rewrite decide_True, Hge, without_middle by done. eapply unlink_rep. by rewrite <- (dl_rep_head _ _ _ Hrep).
    + rewrite decide_False by done. eapply dl_rep_frame; [|by apply ei_rep0].
      intros y Hy. apply unlinked_other. specialize (Hother e' y). set_solver.
  - intros e' y Hy. assert (y ≠ x ∧ y ∈ ge e') as [Hne Hy'].
    { case_decide as He; [by apply elem_of_without in Hy; subst|]. split; [|done].
      intros ->. apply (Hother _ _ He Hy). set_solver. }
    rewrite lookup_delete_ne by done. eauto.
  - intros y a' [Hne Ha']%lookup_delete_Some Hl. specialize (ei_found0 _ _ Ha' Hl).
    case_decide as He; [|done]. apply elem_of_without. split; [done|congruence].
  - intros y a' [Hne Ha']%lookup_delete_Some. destruct (ei_awaiter0 y a' Ha') as (?&?&o&v'&?&Hv'&?).
    rewrite unlinked_is_Some. split_and!; [done..|]. rewrite lookup_alter. exists o. case_decide; [subst|eauto].
    rewrite Hv'. simpl. eexists. split_and!; [done..|]. done.
  - intros y a' [Hne Ha']%lookup_delete_Some Hl. destruct (ei_fresh0 y a' Ha' Hl) as (k&?&?). exists k.
    split; [|done]. rewrite unlinked_other; [done|]. intros Hy. assert (Hy' : y ∈ ge e) by (rewrite Hge; set_solver).
    destruct (ei_linked0 _ _ Hy') as (?&?&?&?). congruence.
Qed.

Lemma op_destroy_run w x o :
  w_ops w !! x = Some o → op_destroy x w = if op_active o then Terminate else Ret tt w.
Proof. intros Ho. unfold op_destroy, the_op, deref, mbind, M_bind. rewrite Ho. by destruct (op_active o). Qed.

(** Destroying an awaiter that is not suspended takes it off its event's list. *)
Lemma awaiter_destroy_spec w g ge x a o :
  Inv ∅ w g → EInv w ge → w_awaiters w !! x = Some a → w_ops w !! x = Some o → op_active o = false →
  runs (awaiter_destroy x) w (λ _ w',
    Inv ∅ w' g ∧ EInv w' (upd_at (aw_event a) (without x) ge) ∧ w_ops w' = w_ops w ∧
    w_awaiters w' = delete x (w_awaiters w)).
Proof.
  intros I [E ES] Ha Ho Hact. destruct (ei_awaiter _ _ E _ _ Ha) as (_&_&_&v&_&Hv&_).
  unfold awaiter_destroy. step. apply post_bind, post_when; intros Hl.
  - pose proof (ei_found _ _ E _ _ Ha Hl) as Hx. destruct (elem_of_split _ _ Hx) as (l1&l2&Hge).
    pose proof (ei_rep _ _ E _ _ Hv) as Hrep. rewrite Hge in Hrep.
    eapply post_on_event; [done| |].
    { rewrite (dl_rep_head _ _ _ Hrep). apply unlink_front_run. by rewrite <- (dl_rep_head _ _ _ Hrep). }
    simpl. apply post_bind. unfold post at 1. erewrite op_destroy_run by exact Ho. rewrite Hact.
    apply post_modify. change (set_w_awaiters _ _) with (awaiter_removed w (aw_event a) l1 l2 x).
    split_and!; [destruct I; by constructor| |done|done].
    split; [by eapply ELinks_removed|]. intros e' v' y oy He' Hs Hy. simpl in *. unfold upd_at in Hy.
    apply lookup_alter_Some in He' as [(<-&v0&?&->)|[Hne He']]; simplify_eq/=; case_decide; try done.
    + apply elem_of_without in Hy as [_ Hy]. by eapply ES.
    + by eapply ES.
  - apply post_bind. unfold post at 1. erewrite op_destroy_run by exact Ho. rewrite Hact.
    apply post_modify. assert (Hx : ∀ e', x ∉ ge e').
    { intros e' Hx. destruct (ei_linked _ _ E e' x Hx) as (a'&?&?&?). congruence. }
    assert (Hg : ∀ e', upd_at (aw_event a) (without x) ge e' = ge e').
    { intros e'. unfold upd_at. case_decide; [subst|done]. by apply without_notin. }
    split_and!; [destruct I; by constructor| |done|done].
    destruct E; split; [constructor|]; simpl.
    + intros *. rewrite Hg. eauto.
    + intros e' y. rewrite Hg. intros Hy. rewrite lookup_delete_ne; [eauto|]. intros <-. by destruct (Hx e').
    + intros y a' [? ?]%lookup_delete_Some. rewrite Hg. eauto.
    + intros y a' [? ?]%lookup_delete_Some. eauto.
    + intros y a' [? ?]%lookup_delete_Some. eauto.
    + intros e' v' y oy. rewrite Hg. apply ES.
Qed.

(** Destroying an awaiter while its wait is pending ends the process instead of leaving a
    dangling pointer on the lists. *)
Theorem awaiter_destroy_active w ge x a o :
  ELinks w ge → w_awaiters w !! x = Some a → w_ops w !! x = Some o → op_active o = true →
  awaiter_destroy x w = Terminate.
Proof.
  intros E Ha Ho Hact. destruct (ei_awaiter _ _ E _ _ Ha) as (_&_&_&v&_&Hv&_).
  assert (∃ w1, when (aw_linked a) (on_event (aw_event a) (unlink_front x)) w = Ret tt w1 ∧ w_ops w1 = w_ops w)
    as (w1&H1&H2).
  { destruct (aw_linked a) eqn:Hl; [|by eexists]. simpl. unfold on_event, zoom. rewrite Hv. simpl.
    pose proof (ei_found _ _ E _ _ Ha Hl) as Hx. destruct (elem_of_split _ _ Hx) as (l1&l2&Hge).
    pose proof (ei_rep _ _ E _ _ Hv) as Hrep. rewrite Hge in Hrep. rewrite (dl_rep_head _ _ _ Hrep).
    rewrite unlink_front_run by (by rewrite <- (dl_rep_head _ _ _ Hrep)). by eexists. }
  unfold awaiter_destroy, the_awaiter, deref, mbind, M_bind. rewrite Ha, H1.
  rewrite (op_destroy_run _ _ o) by (by rewrite H2). by rewrite Hact.
Qed.

(** An event may only be destroyed when no awaiter is linked to it. *)
Lemma event_destroy_run w ge e v :
  ELinks w ge → w_events w !! e = Some v →
  event_destroy e w = if bool_decide (ge e = []) then Ret tt w else Terminate.
Proof.
  intros E Hv. pose proof (dl_rep_head _ _ _ (ei_rep _ _ E _ _ Hv)) as Hh.
  unfold event_destroy, the_event, deref, mbind, M_bind. rewrite Hv, Hh. by destruct (ge e).
Qed.
End event.
