(* ===== verification/WaitQueue.v ===== *)
(** * Cross-thread waiters (include/snowy/detail/wait_queue.hpp)

    A [remote_wait] is linked to a shared FIFO by its owner loop and released from
    any thread: the releasing thread unlinks it and sends it as a message to its
    owner.  [WInv] says that a suspended waiter is always in exactly one of these
    two states, linked or in delivery; every operation preserves it, so a waiter
    is neither lost nor resumed twice.  The critical sections under [queue.mutex]
    are single steps. *)
From S2P Require Import Prelude ReadyQueue Links Heap Core Loop LoopInv LoopSpec.

Section wait_queue.
Context {D : Type}.
Local Abbreviation M := (M (world D)).
Implicit Types (x q : loc) (w : world D) (g : ghost).

(** ** Operations *)

(** [remote_wait(wait_queue& q, loop& context, std::stop_token stop)]: the sub-objects
    are placed at [x], with the [run] and [interrupt] hooks installed. *)
Definition remote_construct x q (L : loopid) (t : token) : M unit :=
  upd_queue q (λ v, set_q_users (S (q_users v)) v) ;;
  modify (λ w, set_w_remotes (<[x := RemoteWait q t false]> (w_remotes w))
    (set_w_rlinks (<[x := Link None None]> (w_rlinks w))
      (new_message x (Message run_notify L)
        (new_wait x L (Wait true (Some interrupt_remote)) w)))).

(** [void remote_wait::unlink()] *)
Definition remote_unlink x : M unit :=
  r ← the_remote x;
  on_queue (rw_queue r) (unlink_back x) ;;
  upd_remote x (set_rw_linked false).

(** The [interrupt] hook, under [queue.mutex] *)
Definition remote_interrupt x : M unit :=
  r ← the_remote x;
  if negb (rw_linked r) then mret tt else
    remote_unlink x ;;
    upd_op x (set_op_error (Some operation_canceled)) ;;
    notify x.

(** [~remote_wait()]; the [remote_wait] fields end with it. *)
Definition remote_destroy x : M unit :=
  r ← the_remote x;
  o ← the_op x;
  if rw_linked r || op_active o then terminate else
    upd_queue (rw_queue r) (λ v, set_q_users (pred (q_users v)) v) ;;
    modify (λ w, set_w_remotes (delete x (w_remotes w)) w).

(** [bool remote_wait::canceled_now()] *)
Definition canceled_now x : M bool :=
  o ← the_op x;
  r ← the_remote x;
  check (op_owner o) ;;
  st ← stopped (op_owner o);
  rq ← stop_requested (rw_token r);
  if negb st && negb rq then mret false else
    upd_op x (set_op_error (Some operation_canceled)) ;; mret true.

(** [bool remote_wait::enqueue(std::coroutine_handle<> h)] *)
Definition enqueue x (h : coro) : M bool :=
  r ← the_remote x;
  ok ← park x h (rw_token r);
  if negb ok then mret false else
    on_queue (rw_queue r) (link_back x) ;;
    upd_remote x (set_rw_linked true) ;;
    mret true.

(** [void remote_wait::deliver(std::error_code failure)] *)
Definition deliver x (failure : option errc) : M unit :=
  remote_unlink x ;;
  upd_op x (set_op_error failure) ;;
  o ← the_op x;
  send x (op_owner o).

(** [static remote_wait* remote_wait::front(wait_queue& q)]: the loop unlinks a
    waiter per iteration. *)
Fixpoint front_loop (fuel : nat) q : M (option loc) :=
  v ← the_queue q;
  match q_first v with
  | None => mret None
  | Some x =>
      k ← the_wait x;
      o ← the_op x;
      st ← stopped (op_owner o);
      if wait_interruptible k && (op_canceled o || st) then
        match fuel with
        | O => undefined
        | S fuel' => deliver x (Some operation_canceled) ;; front_loop fuel' q
        end
      else mret (Some x)
  end.
Definition remote_front q : M (option loc) :=
  fuel ← gets (λ w, size (w_rlinks w));
  front_loop fuel q.

(** [while (auto* w = remote_wait::front(q)) w->deliver(err(w));], the loop with
    which a futex wakes and a mailbox closes. *)
Fixpoint drain_loop (fuel : nat) q (err : loc → M (option errc)) : M unit :=
  f ← remote_front q;
  match f, fuel with
  | None, _ => mret tt
  | Some _, O => undefined
  | Some x, S fuel' => c ← err x; deliver x c ;; drain_loop fuel' q err
  end.
Definition drain q (err : loc → M (option errc)) : M unit :=
  fuel ← gets (λ w, size (w_rlinks w));
  drain_loop fuel q err.

(** [~wait_queue()] *)
Definition queue_destroy q : M unit :=
  v ← the_queue q;
  if bool_decide (q_users v = 0) then mret tt else terminate.

(** ** Invariant

    [gq q] are the waiters linked to the queue [q]; [Y] are waiters in the middle
    of a critical section, neither linked nor in delivery. *)
Implicit Types (gq : loc → list loc) (Y : gset loc).

Definition status Y g gq x (r : remote_wait) (o : op) : Prop :=
  if rw_linked r
  then op_active o = true ∧ (x ∉ a_inflight (g (op_owner o))) ∧ (x ∉ Y) ∧ x ∈ gq (rw_queue r)
  else (op_active o = true ↔ x ∈ a_inflight (g (op_owner o)) ∨ x ∈ Y) ∧
       (x ∈ Y → x ∉ a_inflight (g (op_owner o))).
Definition users_of w q : nat := size (filter (λ p : loc * remote_wait, rw_queue p.2 = q) (w_remotes w)).

Record WInv Y w g gq : Prop := {
  wi_rep q v : w_queues w !! q = Some v → dl_rep2 (w_rlinks w) (q_first v) (q_last v) (gq q);
  wi_users q v : w_queues w !! q = Some v → q_users v = users_of w q;
  wi_linked q x : x ∈ gq q → ∃ r, w_remotes w !! x = Some r ∧ rw_queue r = q ∧ rw_linked r = true;
  wi_remote x r : w_remotes w !! x = Some r →
    is_Some (w_waits w !! x) ∧ is_Some (w_rlinks w !! x) ∧ is_Some (w_queues w !! rw_queue r) ∧
    ∃ o, w_ops w !! x = Some o ∧ w_messages w !! x = Some (Message run_notify (op_owner o)) ∧
         status Y g gq x r o }.

(** An unlinked waiter is in no queue. *)
Lemma wi_unlinked Y w g gq x r q :
  WInv Y w g gq → w_remotes w !! x = Some r → rw_linked r = false → x ∉ gq q.
Proof. intros W Hr Hl Hx. destruct (wi_linked _ _ _ _ W _ _ Hx) as (r'&?&?&?). congruence. Qed.

Lemma users_of_upd (m : gmap loc remote_wait) x r r' q :
  m !! x = Some r → rw_queue r' = rw_queue r →
  size (filter (λ p : loc * remote_wait, rw_queue p.2 = q) (<[x := r']> m)) =
  size (filter (λ p : loc * remote_wait, rw_queue p.2 = q) m).
Proof.
  intros Hx Hq. rewrite map_filter_insert. simpl. rewrite Hq. case_decide as Hd.
  - rewrite map_size_insert_Some; [done|]. exists r. by apply map_lookup_filter_Some.
  - f_equal. rewrite map_filter_delete. apply delete_id. apply map_lookup_filter_None. right.
    intros r0 ?. simplify_eq. done.
Qed.

(** A step on one waiter [x]. *)
Lemma WInv_step Y Y' w w' g g' gq gq' x r r' o o' :
  WInv Y w g gq → w_remotes w !! x = Some r → w_ops w !! x = Some o →
  w_remotes w' = <[x := r']> (w_remotes w) → rw_queue r' = rw_queue r →
  w_waits w' = w_waits w → w_messages w' = w_messages w →
  (∀ y, is_Some (w_rlinks w !! y) → is_Some (w_rlinks w' !! y)) →
  (∀ q v', w_queues w' !! q = Some v' → ∃ v, w_queues w !! q = Some v ∧ q_users v' = q_users v) →
  (∀ q, is_Some (w_queues w !! q) → is_Some (w_queues w' !! q)) →
  (∀ q v, w_queues w' !! q = Some v → dl_rep2 (w_rlinks w') (q_first v) (q_last v) (gq' q)) →
  w_ops w' !! x = Some o' → op_owner o' = op_owner o →
  (∀ y, y ≠ x → w_ops w' !! y = w_ops w !! y) →
  (∀ y, y ≠ x → y ∈ Y' ↔ y ∈ Y) →
  (∀ y L, y ≠ x → y ∈ a_inflight (g' L) ↔ y ∈ a_inflight (g L)) →
  (∀ y q, y ≠ x → y ∈ gq' q ↔ y ∈ gq q) →
  (∀ q, x ∈ gq' q → q = rw_queue r ∧ rw_linked r' = true) →
  status Y' g' gq' x r' o' →
  WInv Y' w' g' gq'.
Proof.
  intros W Hr Ho Hrem Hq Hwaits Hmsg Hlk Hqu Hqs Hrep Ho' Hown Hops HY Hin Hgq Hx Hst.
  constructor; [done| | |].
  - intros q v' Hv'. destruct (Hqu q v' Hv') as (v&Hv&->). rewrite (wi_users _ _ _ _ W q v Hv).
    unfold users_of. rewrite Hrem. by rewrite (users_of_upd _ _ r).
  - intros q y Hy. rewrite Hrem. destruct (decide (y = x)) as [->|Hne].
    + destruct (Hx q Hy) as [-> ?]. exists r'. by rewrite lookup_insert_eq.
    + rewrite lookup_insert_ne by done. apply (wi_linked _ _ _ _ W). by apply Hgq.
  - intros y ry. rewrite Hrem, Hwaits, Hmsg. intros [[<- <-]|[Hne Hy]]%lookup_insert_Some.
    + destruct (wi_remote _ _ _ _ W x r Hr) as (?&?&?&o1&?&?&_). simplify_eq.
      rewrite Hq. split_and!; eauto. exists o'. rewrite Hown. done.
    + destruct (wi_remote _ _ _ _ W y ry Hy) as (?&?&?&oy&?&?&Hsy). split_and!; eauto.
      exists oy. rewrite Hops by done. split_and!; [done..|]. apply not_eq_sym in Hne. pose proof (HY y Hne).
      pose proof (Hin y (op_owner oy) Hne). pose proof (Hgq y (rw_queue ry) Hne). unfold status in *.
      destruct (rw_linked ry); tauto.
Qed.

Lemma frame_queues w w' : frame w w' →
  w_queues w' = w_queues w ∧ w_remotes w' = w_remotes w ∧ w_rlinks w' = w_rlinks w ∧
  w_waits w' = w_waits w ∧ w_messages w' = w_messages w.
Proof. intros [-> _]. done. Qed.

(** A scheduling step that leaves [x]'s queue links alone. *)
Lemma WInv_sched Y Y' w w' g g' gq x r o o' :
  WInv Y w g gq → w_remotes w !! x = Some r → w_ops w !! x = Some o →
  frame w w' → w_ops w' = <[x := o']> (w_ops w) → op_owner o' = op_owner o →
  (∀ y, y ≠ x → y ∈ Y' ↔ y ∈ Y) →
  (∀ y L, y ≠ x → y ∈ a_inflight (g' L) ↔ y ∈ a_inflight (g L)) →
  rw_linked r = false → status Y' g' gq x r o' →
  WInv Y' w' g' gq.
Proof.
  intros W Hr Ho (Hq&Hrm&Hrl&Hw&Hm)%frame_queues Hops Hown HY Hin Hl Hst.
  apply (WInv_step Y Y' w w' g g' gq gq x r r o o'); rewrite ?Hops, ?Hq, ?Hrm, ?Hrl; eauto.
  - by rewrite insert_id.
  - apply (wi_rep _ _ _ _ W).
  - apply lookup_insert_eq.
  - intros y Hne. by apply lookup_insert_ne.
  - intros q Hx. by destruct (wi_unlinked _ _ _ _ _ _ q W Hr Hl).
Qed.

(** ** Frames: what the queue operations may change *)
Definition rframe w w' : Prop :=
  w' = set_w_remotes (w_remotes w') (set_w_rlinks (w_rlinks w') (set_w_queues (w_queues w')
         (set_w_next (w_next w') (set_w_wlinks (w_wlinks w')
           (set_w_loops (w_loops w') (set_w_ops (w_ops w') w)))))) ∧
  ∀ L, option_relation loop_frame (λ _, False) (λ _, False) (w_loops w !! L) (w_loops w' !! L).
#[global] Instance rframe_preorder : PreOrder rframe.
Proof.
  split.
  - intros w. split; [by destruct w|]. intros L. by destruct (w_loops w !! L) as [[]|].
  - intros w1 w2 w3 [E1 F1] [E2 F2]. split; [rewrite E2, E1; by destruct w3|].
    intros L. specialize (F1 L). specialize (F2 L).
    destruct (w_loops w1 !! L), (w_loops w2 !! L), (w_loops w3 !! L); simpl in *; try done.
    by etrans.
Qed.
Lemma frame_rframe w w' : frame w w' → rframe w w'.
Proof. intros [E F]. split; [|done]. rewrite E. by destruct w, w'. Qed.

(** ** Unlinking *)
Definition unlinked_world w q l1 l2 x r : world D :=
  set_w_remotes (<[x := set_rw_linked false r]> (w_remotes w))
    (set_w_rlinks (unlinked (w_rlinks w) l1 l2)
      (set_w_queues (alter (set_q_ends (head (l1 ++ l2)) (last (l1 ++ l2))) q (w_queues w)) w)).

Lemma Inv_queues X w g m1 m2 m3 :
  Inv X w g → Inv X (set_w_remotes m1 (set_w_rlinks m2 (set_w_queues m3 w))) g.
Proof. intros []. by constructor. Qed.

Lemma rframe_queues w m1 m2 m3 : rframe w (set_w_remotes m1 (set_w_rlinks m2 (set_w_queues m3 w))).
Proof. split; [by destruct w|]. intros L. simpl. by destruct (w_loops w !! L) as [[]|]. Qed.

Lemma WInv_unlinked Y w g gq x r o l1 l2 :
  WInv Y w g gq → w_remotes w !! x = Some r → rw_linked r = true → w_ops w !! x = Some o →
  gq (rw_queue r) = l1 ++ x :: l2 →
  WInv (Y ∪ {[x]}) (unlinked_world w (rw_queue r) l1 l2 x r) g (upd_at (rw_queue r) (without x) gq).
Proof.
  intros W Hr Hl Ho Hgq. destruct (wi_remote _ _ _ _ W _ _ Hr) as (_&_&[v Hv]&o1&?&_&Hst). simplify_eq.
  unfold status in Hst. rewrite Hl in Hst. destruct Hst as (Ha&Hin&HY&_).
  destruct (wi_rep _ _ _ _ W _ _ Hv) as [Hrep Hlast]. rewrite Hgq in Hrep, Hlast.
  pose proof (dl_rep_NoDup _ _ _ Hrep) as Hnd.
  eapply (WInv_step Y _ w _ g g gq _ x r (set_rw_linked false r) o o); try done; simpl.
  - intros y. by rewrite unlinked_is_Some.
  - intros q v' [(<-&v0&?&->)|[? ?]]%lookup_alter_Some; eauto.
  - intros q. by rewrite lookup_alter_is_Some.
  - intros q v' [(<-&v0&?&->)|[Hne Hv']]%lookup_alter_Some; simpl.
    + rewrite upd_at_eq, Hgq, without_middle by done. split; [|done]. eapply unlink_rep.
      by rewrite <- (dl_rep_head _ _ _ Hrep).
    + rewrite upd_at_ne by done. destruct (wi_rep _ _ _ _ W _ _ Hv') as [Hrep' ?]. split; [|done].
      eapply dl_rep_frame, Hrep'. intros y Hy. apply unlinked_other. intros Hy'.
      assert (y ∈ gq (rw_queue r)) as Hy2 by (rewrite Hgq; set_solver).
      destruct (wi_linked _ _ _ _ W _ _ Hy) as (?&?&?&_), (wi_linked _ _ _ _ W _ _ Hy2) as (?&?&?&_). congruence.
  - set_solver.
  - intros y q Hne. unfold upd_at. case_decide; [subst|done]. rewrite elem_of_without. naive_solver.
  - intros q. unfold upd_at. case_decide as Hd; [rewrite elem_of_without; naive_solver|].
    intros Hx. destruct (wi_linked _ _ _ _ W _ _ Hx) as (?&?&?&_). congruence.
  - unfold status. simpl. split; [|done]. split; [set_solver|done].
Qed.

Lemma remote_unlink_spec Y w g gq x r o :
  WInv Y w g gq → w_remotes w !! x = Some r → rw_linked r = true → w_ops w !! x = Some o →
  runs (remote_unlink x) w (λ _ w', ∃ m1 m2 m3,
    w' = set_w_remotes m1 (set_w_rlinks m2 (set_w_queues m3 w)) ∧
    m1 = <[x := set_rw_linked false r]> (w_remotes w) ∧
    (∀ q, is_Some (w_queues w !! q) → is_Some (m3 !! q)) ∧
    (∀ y, y ∉ gq (rw_queue r) → m2 !! y = w_rlinks w !! y) ∧
    WInv (Y ∪ {[x]}) w' g (upd_at (rw_queue r) (without x) gq)).
Proof.
  intros W Hr Hl Ho. destruct (wi_remote _ _ _ _ W _ _ Hr) as (_&_&[v Hv]&o1&?&_&Hst). simplify_eq.
  unfold status in Hst. rewrite Hl in Hst. destruct Hst as (_&_&_&Hx).
  destruct (elem_of_split _ _ Hx) as (l1&l2&Hgq). destruct (wi_rep _ _ _ _ W _ _ Hv) as [Hrep Hlast].
  rewrite Hgq in Hrep, Hlast. unfold remote_unlink. step. apply post_bind. eapply post_on_queue; [done| |].
  { rewrite (dl_rep_head _ _ _ Hrep), Hlast. apply unlink_back_run. by rewrite <- (dl_rep_head _ _ _ Hrep). }
  step. do 3 eexists. split_and!; [reflexivity|done|simpl; intros q; by rewrite lookup_alter_is_Some| |].
  { intros y Hy. apply unlinked_other. rewrite Hgq in Hy. set_solver. }
  change (WInv (Y ∪ {[x]}) (unlinked_world w (rw_queue r) l1 l2 x r) g (upd_at (rw_queue r) (without x) gq)).
  by eapply WInv_unlinked.
Qed.

(** ** Release of one waiter *)

(** An unlinked waiter's error may change at any time. *)
Lemma WInv_error Y w g gq x r o c :
  WInv Y w g gq → w_remotes w !! x = Some r → rw_linked r = false → w_ops w !! x = Some o →
  WInv Y (set_w_ops (<[x := set_op_error c o]> (w_ops w)) w) g gq.
Proof.
  intros W Hr Hl Ho. destruct (wi_remote _ _ _ _ W _ _ Hr) as (_&_&_&o1&?&_&Hst). simplify_eq.
  eapply (WInv_sched Y Y w _ g g gq x r o (set_op_error c o)); try done.
  apply frame_ops.
Qed.

(** Resuming a waiter whose delivery has been taken out of the queues. *)
Lemma remote_notify_spec Y w g gq x r o :
  Inv ∅ w g → WInv Y w g gq → w_remotes w !! x = Some r → rw_linked r = false →
  w_ops w !! x = Some o → x ∈ Y →
  runs (notify x) w (λ _ w',
    Inv ∅ w' (g_notify (op_owner o) x g) ∧ WInv (Y ∖ {[x]}) w' (g_notify (op_owner o) x g) gq ∧
    w_ops w' = <[x := retired o]> (w_ops w) ∧ frame w w').
Proof.
  intros I W Hr Hl Ho HY. destruct (wi_remote _ _ _ _ W _ _ Hr) as (Hw&_&_&o1&?&_&Hst). simplify_eq.
  unfold status in Hst. rewrite Hl in Hst. destruct Hst as [Hact Hin].
  assert (Ha : op_active o = true) by (apply Hact; by right).
  eapply post_mono; [eapply notify_spec; [done..|by eapply active_wait]| |done].
  intros _ w' (I'&Hops&F). split_and!; [done| |done|done].
  assert (Hg : ∀ L, a_inflight (g_notify (op_owner o) x g L) = a_inflight (g L)).
  { intros L. by apply (upd_g_proj a_inflight). }
  eapply (WInv_sched Y _ w w' g _ gq x r o (retired o)); try done.
  - set_solver.
  - intros y L _. by rewrite Hg.
  - unfold status. rewrite Hl. simpl. rewrite Hg. split; [|set_solver].
    split; [done|]. intros [Hx|Hx]; [|set_solver]. by destruct (Hin HY).
Qed.

Lemma remote_interrupt_unlinked w x r :
  w_remotes w !! x = Some r → rw_linked r = false → remote_interrupt x w = Ret tt w.
Proof.
  intros Hr Hl. unfold remote_interrupt, the_remote, deref, mbind, M_bind. by rewrite Hr, Hl.
Qed.

(** Interrupting a linked waiter cancels it: it leaves its queue and is ready. *)
Lemma remote_interrupt_linked Y w g gq x r o :
  Inv ∅ w g → WInv Y w g gq → w_remotes w !! x = Some r → rw_linked r = true → w_ops w !! x = Some o →
  runs (remote_interrupt x) w (λ _ w',
    Inv ∅ w' (g_notify (op_owner o) x g) ∧
    WInv Y w' (g_notify (op_owner o) x g) (upd_at (rw_queue r) (without x) gq) ∧
    w_ops w' = <[x := retired (refused o)]> (w_ops w) ∧
    w_remotes w' = <[x := set_rw_linked false r]> (w_remotes w) ∧ rframe w w').
Proof.
  intros I W Hr Hl Ho. unfold remote_interrupt. step. rewrite Hl. simpl. apply post_bind.
  eapply post_mono; [eapply (remote_unlink_spec Y w g gq x r o); done| |done].
  intros _ w1 (m1&m2&m3&->&->&Hm3&Hm2&W1). step. simpl.
  set (w2 := set_w_ops _ _).
  assert (I2 : Inv ∅ w2 g) by (refine (Inv_upd_op _ _ _ _ _ _ (Inv_queues _ _ _ _ _ _ I) Ho _ _); done).
  assert (W2 : WInv (Y ∪ {[x]}) w2 g (upd_at (rw_queue r) (without x) gq)).
  { refine (WInv_error _ _ _ _ _ _ _ _ W1 (lookup_insert_eq _ _ _) _ Ho); done. }
  assert (HY : x ∉ Y).
  { destruct (wi_remote _ _ _ _ W _ _ Hr) as (_&_&_&?&_&_&Hst). unfold status in Hst. rewrite Hl in Hst. tauto. }
  eapply post_mono; [eapply (remote_notify_spec _ w2 g _ x _ (refused o) I2 W2);
    [apply lookup_insert_eq|done|apply lookup_insert_eq|set_solver]| |done].
  intros _ w' (I'&W'&Hops&F). split_and!; [done| | |by destruct F as [-> _]|].
  - by replace Y with ((Y ∪ {[x]}) ∖ {[x]}) by set_solver.
  - rewrite Hops. simpl. by rewrite insert_insert_eq.
  - etrans; [apply rframe_queues|]. etrans; [apply frame_rframe, frame_ops|]. by apply frame_rframe.
Qed.

(** Delivering a linked waiter from any thread: it leaves its queue and is sent to
    its owner. *)
Lemma deliver_spec Y w g gq x r o c :
  Inv ∅ w g → WInv Y w g gq → w_remotes w !! x = Some r → rw_linked r = true → w_ops w !! x = Some o →
  runs (deliver x c) w (λ _ w',
    Inv ∅ w' (g_send (op_owner o) x g) ∧
    WInv Y w' (g_send (op_owner o) x g) (upd_at (rw_queue r) (without x) gq) ∧
    w_ops w' = <[x := set_op_error c o]> (w_ops w) ∧
    w_remotes w' = <[x := set_rw_linked false r]> (w_remotes w) ∧
    (∀ q, is_Some (w_queues w !! q) → is_Some (w_queues w' !! q)) ∧
    (w_wlinks w' = w_wlinks w ∧ ∀ y, y ∉ gq (rw_queue r) → w_rlinks w' !! y = w_rlinks w !! y) ∧ rframe w w').
Proof.
  intros I W Hr Hl Ho. unfold deliver. apply post_bind.
  eapply post_mono; [eapply (remote_unlink_spec Y w g gq x r o); done| |done].
  intros _ w1 (m1&m2&m3&->&->&Hm3&Hm2&W1). step. step. simpl.
  destruct (wi_remote _ _ _ _ W _ _ Hr) as (_&_&_&o1&?&Hm&Hst). simplify_eq. unfold status in Hst. rewrite Hl in Hst.
  destruct Hst as (Ha&Hin&HY&_). destruct (inv_op _ _ _ I _ _ Ho) as [[l HL] _].
  set (w2 := set_w_ops _ _).
  assert (I2 : Inv ∅ w2 g) by (refine (Inv_upd_op _ _ _ _ _ _ (Inv_queues _ _ _ _ _ _ I) Ho _ _); done).
  assert (W2 : WInv (Y ∪ {[x]}) w2 g (upd_at (rw_queue r) (without x) gq)).
  { refine (WInv_error _ _ _ _ _ _ _ _ W1 (lookup_insert_eq _ _ _) _ Ho); done. }
  eapply post_mono; [eapply (send_spec _ w2 g x _ (op_owner o) l I2); [exact Hm|done|done|done]| |done].
  intros _ w' (I'&Hops&F&Hwl&_). pose proof (frame_queues _ _ F) as (Hqs&Hrm&Hrl&_).
  split_and!; [done| |done|done|by rewrite Hqs|done|by rewrite Hrl|].
  - eapply (WInv_sched (Y ∪ {[x]}) _ w2 w' g _ _ x (set_rw_linked false r) (set_op_error c o) (set_op_error c o));
      [exact W2|apply lookup_insert_eq|apply lookup_insert_eq|done| |done|set_solver| |done|].
    + rewrite Hops. simpl. by rewrite insert_insert_eq.
    + intros y L Hne. unfold g_send, upd_g. case_decide; [subst|done]. unfold a_inflight. simpl. set_solver.
    + unfold status. simpl. split; [|done]. split; [|done]. intros _. left.
      unfold g_send. rewrite upd_g_eq. unfold a_inflight. simpl. set_solver.
  - etrans; [apply rframe_queues|]. etrans; [apply frame_rframe, frame_ops|]. by apply frame_rframe.
Qed.

(** ** Release of a prefix of the queue *)
Lemma WInv_ext Y w g g' gq gq' :
  (∀ L, g L = g' L) → (∀ q, gq q = gq' q) → WInv Y w g gq → WInv Y w g' gq'.
Proof.
  intros Hg Hq []. constructor; intros *; rewrite <- ?Hq; eauto.
  intros Hr. destruct (wi_remote0 _ _ Hr) as (?&?&?&o&?&?&Hst). split_and!; [done..|]. exists o.
  split_and!; [done..|]. unfold status in *. by rewrite <- Hg, <- Hq.
Qed.

Definition g_delivers w (xs : list loc) (g : ghost) : ghost :=
  foldl (λ g x, match w_ops w !! x with Some o => g_send (op_owner o) x g | None => g end) g xs.
(** The operations after [xs] have been delivered with the errors [c]. *)
Definition ops_delivered (c : loc → option errc) (xs : list loc) (m : gmap loc op) : gmap loc op :=
  map_imap (λ x o, Some (if decide (x ∈ xs) then set_op_error (c x) o else o)) m.

Lemma ops_delivered_nil c m : ops_delivered c [] m = m.
Proof.
  apply map_eq. intros y. unfold ops_delivered. rewrite map_lookup_imap.
  destruct (m !! y) as [o|]; [|done]. unfold mbind, option_bind.
  by destruct (decide (y ∈ [])) as [[]%not_elem_of_nil|].
Qed.
Lemma ops_delivered_cons c x xs m o :
  m !! x = Some o → x ∉ xs →
  ops_delivered c xs (<[x := set_op_error (c x) o]> m) = ops_delivered c (x :: xs) m.
Proof.
  intros Hx Hn. apply map_eq. intros y. unfold ops_delivered. rewrite !map_lookup_imap.
  destruct (decide (x = y)) as [<-|].
  - rewrite lookup_insert_eq, Hx. simpl. by rewrite decide_False, decide_True by set_solver.
  - rewrite lookup_insert_ne by done. destruct (m !! y); simpl; [|done]. do 2 case_decide; set_solver.
Qed.
Lemma g_delivers_ext w w' xs g :
  (∀ x, x ∈ xs → op_owner <$> w_ops w' !! x = op_owner <$> w_ops w !! x) →
  g_delivers w' xs g = g_delivers w xs g.
Proof.
  revert g. induction xs as [|x xs IH]; intros g Hxs; simpl; [done|].
  rewrite IH by set_solver. f_equal. assert (Hx : x ∈ x :: xs) by set_solver. specialize (Hxs x Hx).
  destruct (w_ops w' !! x), (w_ops w !! x); simplify_eq/=; congruence.
Qed.

Lemma g_delivers_ready w xs g L : a_ready (g_delivers w xs g L) = a_ready (g L).
Proof.
  unfold g_delivers. revert g. induction xs as [|x xs IH]; intros g; simpl; [done|]. rewrite IH.
  destruct (w_ops w !! x); [|done]. by apply (upd_g_proj a_ready).
Qed.
(** Deliveries arrive at their owners in queue order. *)
Lemma g_delivers_msgs w xs g L :
  a_msgs (g_delivers w xs g L) = a_msgs (g L) ++ filter (λ x, op_owner <$> w_ops w !! x = Some L) xs.
Proof.
  unfold g_delivers. revert g. induction xs as [|x xs IH]; intros g; simpl; [by rewrite app_nil_r|].
  rewrite IH. destruct (w_ops w !! x) as [o|] eqn:Ho.
  - unfold g_send, upd_g. case_decide as Hd.
    + rewrite filter_cons_True by (rewrite Ho; simpl; congruence). subst L. simpl. by rewrite <- app_assoc.
    + rewrite filter_cons_False; [done|]. rewrite Ho. simpl. congruence.
  - rewrite filter_cons_False; [done|]. by rewrite Ho.
Qed.

(** A canceled waiter, or one whose loop is stopping. *)
Definition doomed w x : bool :=
  match w_waits w !! x, w_ops w !! x with
  | Some k, Some o =>
      wait_interruptible k &&
      (op_canceled o || match w_loops w !! op_owner o with Some l => l_stopping l | None => false end)
  | _, _ => false
  end.
Lemma doomed_rframe w w' y :
  rframe w w' → op_canceled <$> w_ops w' !! y = op_canceled <$> w_ops w !! y →
  op_owner <$> w_ops w' !! y = op_owner <$> w_ops w !! y → doomed w' y = doomed w y.
Proof.
  intros [E F] Hc Ho. unfold doomed. replace (w_waits w') with (w_waits w) by (rewrite E; done).
  destruct (w_waits w !! y); [|done]. destruct (w_ops w' !! y) as [o'|], (w_ops w !! y) as [o|]; try done.
  injection Hc as ->. injection Ho as ->. specialize (F (op_owner o)).
  destruct (w_loops w !! op_owner o), (w_loops w' !! op_owner o); simpl in F; try done. by rewrite F.
Qed.

(** What releasing the prefix [pre] of the queue [q] amounts to. *)
Record released Y w w' g gq q c pre rest : Prop := {
  rel_inv : Inv ∅ w' (g_delivers w pre g);
  rel_winv : WInv Y w' (g_delivers w pre g) (upd_at q (λ _, rest) gq);
  rel_ops : w_ops w' = ops_delivered c pre (w_ops w);
  rel_remotes y : y ∉ pre → w_remotes w' !! y = w_remotes w !! y;
  rel_queues q' : is_Some (w_queues w !! q') → is_Some (w_queues w' !! q');
  rel_links : w_wlinks w' = w_wlinks w ∧ ∀ y, y ∉ gq q → w_rlinks w' !! y = w_rlinks w !! y;
  rel_frame : rframe w w' }.

Lemma released_nil Y w g gq q c rest :
  Inv ∅ w g → WInv Y w g gq → gq q = rest → released Y w w g gq q c [] rest.
Proof.
  intros I W <-. split; [done| |by rewrite ops_delivered_nil|done|done|done|done].
  eapply WInv_ext, W; [done|]. intros q'. unfold upd_at. case_decide; by subst.
Qed.

Lemma released_cons Y w w1 w' g gq q c x o pre rest :
  x ∉ pre → w_ops w !! x = Some o →
  w_ops w1 = <[x := set_op_error (c x) o]> (w_ops w) →
  (∀ y, y ≠ x → w_remotes w1 !! y = w_remotes w !! y) →
  (∀ q', is_Some (w_queues w !! q') → is_Some (w_queues w1 !! q')) →
  (w_wlinks w1 = w_wlinks w ∧ ∀ y, y ∉ gq q → w_rlinks w1 !! y = w_rlinks w !! y) → rframe w w1 →
  released Y w1 w' (g_send (op_owner o) x g) (upd_at q (without x) gq) q c pre rest →
  released Y w w' g gq q c (x :: pre) rest.
Proof.
  intros Hx Ho Hops Hrem Hqs [Hwl Hrl] F [I' W' Hops' Hrem' Hqs' [Hwl' Hrl'] F'].
  assert (Hg : g_delivers w1 pre (g_send (op_owner o) x g) = g_delivers w (x :: pre) g).
  { simpl. rewrite Ho. apply g_delivers_ext. intros y Hy. rewrite Hops, lookup_insert_ne by set_solver. done. }
  rewrite Hg in I', W'. split; [done| | | |by auto| |by etrans].
  - eapply WInv_ext, W'; [done|]. intros q'. unfold upd_at. by case_decide.
  - rewrite Hops', Hops. by apply ops_delivered_cons.
  - intros y [? ?]%not_elem_of_cons. rewrite Hrem' by done. by apply Hrem.
  - split; [congruence|]. intros y Hy. rewrite Hrl', Hrl; [done|done|].
    rewrite upd_at_eq, elem_of_without. tauto.
Qed.

Lemma front_loop_spec fuel Y w g gq q :
  Inv ∅ w g → WInv Y w g gq → is_Some (w_queues w !! q) → length (gq q) ≤ fuel →
  runs (front_loop fuel q) w (λ res w',
    let rest := drop_while (doomed w) (gq q) in
    res = head rest ∧
    released Y w w' g gq q (λ _, Some operation_canceled) (take_while (doomed w) (gq q)) rest).
Proof.
  revert w g gq. induction fuel as [|fuel IH]; intros w g gq I W [v Hv] Hlen;
    destruct (wi_rep _ _ _ _ W _ _ Hv) as [Hrep _]; pose proof (dl_rep_head _ _ _ Hrep) as Hh.
  all: destruct (gq q) as [|x xs] eqn:Hgq; simpl in Hlen; try lia.
  1,2: simpl; step; rewrite Hh; apply post_ret; split; [done|]; by apply released_nil.
  assert (Hx : x ∈ gq q) by (rewrite Hgq; set_solver).
  destruct (wi_linked _ _ _ _ W _ _ Hx) as (r&Hr&Hq&Hl).
  destruct (wi_remote _ _ _ _ W _ _ Hr) as ([k Hk]&_&_&o&Ho&_&_).
  destruct (inv_op _ _ _ I _ _ Ho) as [[l HL] _].
  assert (Hd : doomed w x = wait_interruptible k && (op_canceled o || l_stopping l)).
  { unfold doomed. by rewrite Hk, Ho, HL. }
  simpl. step. rewrite Hh. simpl. step. step. apply post_bind. eapply post_stopped; [done|]. rewrite <- Hd.
  destruct (doomed w x) eqn:Hdx; [|apply post_ret; split; [done|]; by apply released_nil].
  apply post_bind. eapply post_mono; [by apply (deliver_spec Y w g gq x r o (Some operation_canceled) I W)| |done].
  intros _ w1 (I1&W1&Hops1&Hrem1&Hqs1&Hlk1&F1). rewrite Hq in W1, Hlk1.
  assert (Hnd : x ∉ xs) by (apply dl_rep_NoDup, NoDup_cons in Hrep; tauto).
  assert (Hwo : without x (x :: xs) = xs) by (apply (without_middle []); simpl; by eapply dl_rep_NoDup).
  assert (Hxs : upd_at q (without x) gq q = xs) by (by rewrite upd_at_eq, Hgq).
  assert (Hdd : ∀ y, y ∈ xs → doomed w1 y = doomed w y).
  { intros y Hy. apply doomed_rframe; [done|..]; rewrite Hops1, lookup_insert_ne by set_solver; done. }
  eapply post_mono; [eapply (IH w1 _ _ I1 W1)| |done].
  - by apply Hqs1.
  - rewrite Hxs. lia.
  - rewrite Hxs. intros res w' [-> R]. simpl.
    rewrite <- (drop_while_ext _ _ _ Hdd), <- (take_while_ext _ _ _ Hdd). split; [done|].
    eapply released_cons; [|exact Ho|exact Hops1| |done|done|done|exact R].
    + intros Hx'. apply Hnd. rewrite <- (take_drop_while (doomed w1) xs). set_solver.
    + intros y Hne. by rewrite Hrem1, lookup_insert_ne.
Qed.

Lemma remote_front_spec Y w g gq q :
  Inv ∅ w g → WInv Y w g gq → is_Some (w_queues w !! q) →
  runs (remote_front q) w (λ res w',
    let rest := drop_while (doomed w) (gq q) in
    res = head rest ∧
    released Y w w' g gq q (λ _, Some operation_canceled) (take_while (doomed w) (gq q)) rest).
Proof.
  intros I W Hq. unfold remote_front. step. apply front_loop_spec; [done..|]. destruct Hq as [v Hv].
  destruct (wi_rep _ _ _ _ W _ _ Hv) as [Hrep _].
  apply NoDup_length_le_size; [by eapply dl_rep_NoDup|]. intros y Hy. by eapply dl_rep_lookup.
Qed.

(** ** Draining the queue *)
Lemma ops_delivered_lookup c xs m x :
  ops_delivered c xs m !! x = (λ o, if decide (x ∈ xs) then set_op_error (c x) o else o) <$> m !! x.
Proof. unfold ops_delivered. rewrite map_lookup_imap. by destruct (m !! x). Qed.

Lemma released_app Y w w1 w2 g gq q c pre pre' rest rest' :
  NoDup (pre ++ pre') → (∀ y, y ∈ rest → y ∈ gq q) → released Y w w1 g gq q c pre rest →
  released Y w1 w2 (g_delivers w pre g) (upd_at q (λ _, rest) gq) q c pre' rest' →
  released Y w w2 g gq q c (pre ++ pre') rest'.
Proof.
  intros Hnd Hsub [I1 W1 Hops1 Hrem1 Hqs1 [Hwl1 Hrl1] F1] [I2 W2 Hops2 Hrem2 Hqs2 [Hwl2 Hrl2] F2].
  assert (Hown : ∀ x, op_owner <$> w_ops w1 !! x = op_owner <$> w_ops w !! x).
  { intros x. rewrite Hops1, ops_delivered_lookup. destruct (w_ops w !! x); [|done]. simpl. by case_decide. }
  assert (Hg : g_delivers w1 pre' (g_delivers w pre g) = g_delivers w (pre ++ pre') g).
  { rewrite (g_delivers_ext w) by done. unfold g_delivers. by rewrite foldl_app. }
  rewrite Hg in I2, W2. split; [done| | | |by auto| |by etrans].
  - eapply WInv_ext, W2; [done|]. intros q'. unfold upd_at. by case_decide.
  - rewrite Hops2, Hops1. apply map_eq. intros x. rewrite !ops_delivered_lookup.
    destruct (w_ops w !! x); [|done]. apply NoDup_app in Hnd as (_&Hdis&_). specialize (Hdis x).
    simpl. f_equal. do 3 case_decide; set_solver.
  - intros y Hy. rewrite Hrem2, Hrem1; [done|set_solver..].
  - split; [congruence|]. intros y Hy. rewrite Hrl2, Hrl1; [done|done|]. rewrite upd_at_eq. auto.
Qed.

Lemma released_ext Y w w' g gq q c c' pre rest :
  (∀ x, x ∈ pre → c x = c' x) → released Y w w' g gq q c pre rest → released Y w w' g gq q c' pre rest.
Proof.
  intros Hc [I W Hops Hrem Hqs Hlk F]. split; try done. rewrite Hops. apply map_eq. intros x.
  rewrite !ops_delivered_lookup. destruct (w_ops w !! x); [|done]. simpl. case_decide; [|done].
  by rewrite Hc.
Qed.

(** Delivering the first waiter. *)
Lemma deliver_released Y w g gq q x xs c :
  Inv ∅ w g → WInv Y w g gq → gq q = x :: xs → is_Some (w_queues w !! q) →
  runs (deliver x (c x)) w (λ _ w', released Y w w' g gq q c [x] xs).
Proof.
  intros I W Hgq [v Hv]. assert (Hx : x ∈ gq q) by (rewrite Hgq; set_solver).
  destruct (wi_linked _ _ _ _ W _ _ Hx) as (r&Hr&Hq&Hl). destruct (wi_remote _ _ _ _ W _ _ Hr) as (_&_&_&o&Ho&_&_).
  destruct (wi_rep _ _ _ _ W _ _ Hv) as [Hrep _]. rewrite Hgq in Hrep.
  eapply post_mono; [by apply (deliver_spec Y w g gq x r o (c x) I W)| |done].
  intros _ w1 (I1&W1&Hops1&Hrem1&Hqs1&Hlk1&F1). rewrite Hq in W1, Hlk1.
  assert (Hxs : upd_at q (without x) gq q = xs).
  { rewrite upd_at_eq, Hgq. apply (without_middle []). simpl. by eapply dl_rep_NoDup. }
  eapply released_cons; [set_solver|exact Ho|exact Hops1| |exact Hqs1|exact Hlk1|exact F1|by apply released_nil].
  intros y Hne. by rewrite Hrem1, lookup_insert_ne.
Qed.

(** Everything linked is delivered, pruned waiters with a cancellation. *)
Lemma drain_loop_spec fuel Y w g gq q err (e : loc → option errc) :
  Inv ∅ w g → WInv Y w g gq → is_Some (w_queues w !! q) → length (gq q) ≤ fuel →
  (∀ w' x, rframe w w' → x ∈ gq q → err x w' = Ret (e x) w') →
  runs (drain_loop fuel q err) w (λ _ w',
    released Y w w' g gq q (λ x, if doomed w x then Some operation_canceled else e x) (gq q) []).
Proof.
  revert w g gq. induction fuel as [|fuel IH]; intros w g gq I W Hq Hlen Herr; simpl; apply post_bind;
    (eapply post_mono; [by apply (remote_front_spec Y w g gq q I W Hq)| |done]);
    intros res w1 [-> R1]; cbv zeta in *; set (c := λ x, if doomed w x then Some operation_canceled else e x).
  all: pose proof (take_drop_while (doomed w) (gq q)) as Hsplit; set (pre := take_while _ _) in *.
  all: assert (R1' : released Y w w1 g gq q c pre (drop_while (doomed w) (gq q)))
    by (eapply released_ext, R1; intros x Hx; unfold c; by rewrite (elem_of_take_while _ _ _ Hx)).
  all: destruct (drop_while (doomed w) (gq q)) as [|x rest] eqn:Hdrop.
  1,3: simpl; apply post_ret; rewrite app_nil_r in Hsplit; by rewrite <- Hsplit.
  { rewrite <- Hsplit, length_app in Hlen. simpl in Hlen. lia. }
  assert (head (drop_while (doomed w) (gq q)) = Some x) as [Hx Hd]%head_drop_while by (by rewrite Hdrop).
  simpl. apply post_bind. unfold post at 1. rewrite Herr by (done || apply R1').
  replace (e x) with (c x) by (unfold c; by rewrite Hd).
  apply post_bind. eapply post_mono; [eapply (deliver_released Y w1 _ _ q x rest c)| |done];
    [apply R1'|apply R1'|by rewrite upd_at_eq|by apply R1'|].
  intros [] w2 R2. destruct Hq as [v Hv].
  assert (Hnd : NoDup ((pre ++ [x]) ++ rest)).
  { rewrite <- app_assoc. simpl. rewrite Hsplit. destruct (wi_rep _ _ _ _ W _ _ Hv). by eapply dl_rep_NoDup. }
  assert (R3 : released Y w w2 g gq q c (pre ++ [x]) rest).
  { eapply released_app; [| |exact R1'|exact R2]; [by apply NoDup_app in Hnd as (?&_&_)|]. rewrite <- Hsplit. set_solver. }
  pose proof R3 as [I3 W3 Hops3 _ Hqs3 _ F3].
  assert (Hrest : ∀ y, y ∈ rest → doomed w2 y = doomed w y).
  { intros y Hy. apply doomed_rframe; [done|..]; rewrite Hops3, ops_delivered_lookup;
      destruct (w_ops w !! y); [|done| |done]; simpl; by case_decide. }
  eapply post_mono; [eapply (IH w2 _ _ I3 W3)| |done].
  - by apply Hqs3.
  - rewrite upd_at_eq. rewrite <- Hsplit, length_app in Hlen. simpl in Hlen. lia.
  - rewrite upd_at_eq. intros w' y F' Hy. apply Herr; [by etrans|]. rewrite <- Hsplit. set_solver.
  - rewrite upd_at_eq. intros _ w' R4. rewrite <- Hsplit.
    replace (pre ++ x :: rest) with ((pre ++ [x]) ++ rest) by (by rewrite <- app_assoc).
    eapply released_app; [done| |exact R3|]; [rewrite <- Hsplit; set_solver|]. eapply released_ext, R4. intros y Hy. unfold c. by rewrite Hrest.
Qed.

Lemma drain_spec Y w g gq q err (e : loc → option errc) :
  Inv ∅ w g → WInv Y w g gq → is_Some (w_queues w !! q) →
  (∀ w' x, rframe w w' → x ∈ gq q → err x w' = Ret (e x) w') →
  runs (drain q err) w (λ _ w',
    released Y w w' g gq q (λ x, if doomed w x then Some operation_canceled else e x) (gq q) []).
Proof.
  intros I W Hq Herr. unfold drain. step. apply drain_loop_spec; [done..| |done]. destruct Hq as [v Hv].
  destruct (wi_rep _ _ _ _ W _ _ Hv) as [Hrep _].
  apply NoDup_length_le_size; [by eapply dl_rep_NoDup|]. intros y Hy. by eapply dl_rep_lookup.
Qed.

(** ** Suspension *)
Lemma canceled_now_run w x o r l :
  w_ops w !! x = Some o → w_remotes w !! x = Some r → w_loops w !! op_owner o = Some l →
  l_thread l = w_thread w →
  canceled_now x w =
    if l_stopping l || requested w (rw_token r)
    then Ret true (set_w_ops (<[x := refused o]> (w_ops w)) w) else Ret false w.
Proof.
  intros Ho Hr HL Ht. unfold canceled_now, the_op, the_remote, upd_op, deref, mbind, M_bind.
  rewrite Ho, Hr, (check_run _ _ _ HL), decide_True by done.
  unfold stopped, the_loop, deref, mbind, M_bind. rewrite HL. unfold stop_requested, gets, mret, M_ret.
  fold (requested w (rw_token r)). destruct (l_stopping l), (requested w (rw_token r)); try done;
  simpl; unfold the_op, deref; by rewrite Ho.
Qed.

(** The world after [x] has been appended to the waiters of [q]. *)
Definition linked_world w gq q x r : world D :=
  set_w_remotes (<[x := set_rw_linked true r]> (w_remotes w))
    (set_w_rlinks (linked_back (w_rlinks w) (gq q) x)
      (set_w_queues (alter (set_q_ends (head (gq q ++ [x])) (Some x)) q (w_queues w)) w)).

Lemma WInv_linked Y w g gq x r o k :
  WInv Y w g gq → w_remotes w !! x = Some r → rw_linked r = false → w_ops w !! x = Some o →
  op_active o = true → x ∈ Y → w_rlinks w !! x = Some k → l_next k = None →
  WInv (Y ∖ {[x]}) (linked_world w gq (rw_queue r) x r) g (upd_at (rw_queue r) (λ xs, xs ++ [x]) gq).
Proof.
  intros W Hr Hl Ho Ha HY Hk Hn. destruct (wi_remote _ _ _ _ W _ _ Hr) as (_&_&[v Hv]&o1&?&_&Hst). simplify_eq.
  unfold status in Hst. rewrite Hl in Hst. destruct Hst as [_ Hin]. specialize (Hin HY).
  pose proof (λ q, wi_unlinked _ _ _ _ _ _ q W Hr Hl) as Hx.
  destruct (wi_rep _ _ _ _ W _ _ Hv) as [Hrep Hlast].
  eapply (WInv_step Y _ w _ g g gq _ x r (set_rw_linked true r) o o); try done; simpl.
  - intros y. by rewrite linked_back_is_Some.
  - intros q v' [(<-&v0&?&->)|[? ?]]%lookup_alter_Some; eauto.
  - intros q. by rewrite lookup_alter_is_Some.
  - intros q v' [(<-&v0&?&->)|[Hne Hv']]%lookup_alter_Some; simpl.
    + rewrite upd_at_eq. split; [|by rewrite last_snoc].
      eapply link_back_rep; [by rewrite <- (dl_rep_head _ _ _ Hrep)|done..].
    + rewrite upd_at_ne by done. destruct (wi_rep _ _ _ _ W _ _ Hv') as [Hrep' ?]. split; [|done].
      eapply dl_rep_frame, Hrep'. intros y Hy. apply linked_back_other; [|intros ->; by eapply Hx].
      intros Hy2. destruct (wi_linked _ _ _ _ W _ _ Hy) as (?&?&?&_), (wi_linked _ _ _ _ W _ _ Hy2) as (?&?&?&_).
      congruence.
  - set_solver.
  - intros y q Hne. unfold upd_at. case_decide; [subst|done]. set_solver.
  - intros q. unfold upd_at. case_decide as Hd; [done|]. intros Hy. by destruct (Hx q).
  - unfold status. simpl. rewrite upd_at_eq. split_and!; [done..|set_solver|set_solver].
Qed.

(** Parking keeps the waiter out of the queues until it is linked. *)
Lemma WInv_parked Y w w' g gq x r o o' h t v :
  WInv Y w g gq → w_remotes w !! x = Some r → rw_linked r = false → w_ops w !! x = Some o →
  op_active o = false → parked w w' g x h t o v →
  w_ops w' !! x = Some o' → op_active o' = true ∧ op_owner o' = op_owner o →
  WInv (Y ∪ {[x]}) w' (g_park (op_owner o) x g) gq.
Proof.
  intros W Hr Hl Ho Ha (_&Hops&_&(Hq&Hrm&Hrl&Hw&Hm)%frame_queues) Ho' [Ha' Hown'].
  simpl in *. destruct (wi_remote _ _ _ _ W _ _ Hr) as (_&_&_&o1&?&_&Hst). simplify_eq.
  unfold status in Hst. rewrite Hl, Ha in Hst. destruct Hst as [Hst _].
  assert (Hg : ∀ L, a_inflight (g_park (op_owner o) x g L) = a_inflight (g L)).
  { intros L. by apply (upd_g_proj a_inflight). }
  eapply (WInv_step Y _ w w' g _ gq gq x r r o o'); rewrite ?Hq, ?Hrm, ?Hrl; eauto.
  - by rewrite insert_id.
  - apply (wi_rep _ _ _ _ W).
  - intros y Hne. rewrite Hops. by apply lookup_insert_ne.
  - set_solver.
  - intros y L _. by rewrite Hg.
  - intros q Hx. by destruct (wi_unlinked _ _ _ _ _ _ q W Hr Hl).
  - unfold status. rewrite Hl, Hown', Hg. split; [set_solver|]. intros _ Hi. assert (false = true) by (apply Hst; by left). done.
Qed.

Lemma enqueue_spec Y w g gq x r o v l k h :
  Inv ∅ w g → WInv Y w g gq → w_remotes w !! x = Some r → rw_linked r = false → w_ops w !! x = Some o →
  w_waits w !! x = Some v → fresh_wait w g x → w_rlinks w !! x = Some k → l_next k = None →
  x ∉ Y → w_loops w !! op_owner o = Some l → l_thread l = w_thread w →
  runs (enqueue x h) w (λ b w',
    if b : bool
    then (wait_interruptible v = true → (l_stopping l || requested w (rw_token r)) = false) ∧
         Inv ∅ w' (g_park (op_owner o) x g) ∧
         WInv Y w' (g_park (op_owner o) x g) (upd_at (rw_queue r) (λ xs, xs ++ [x]) gq) ∧
         w_ops w' = <[x := if wait_interruptible v then armed w (rw_token r) o else set_op_active true o]> (w_ops w) ∧
         (∀ q, is_Some (w_queues w !! q) → is_Some (w_queues w' !! q)) ∧
         rframe (set_w_works (w_works w') w) w'
    else wait_interruptible v = true ∧ (l_stopping l || requested w (rw_token r)) = true ∧
         w' = set_w_ops (<[x := refused o]> (w_ops w)) w).
Proof.
  intros I W Hr Hl Ho Hv Hf Hk Hn HY HL Ht. unfold enqueue. step. apply post_bind.
  eapply post_mono; [by apply (park_spec _ _ _ _ _ _ h (rw_token r) I Ho Hv Hf HL)| |by intros ? ? (?&?&?)].
  intros [] w1; [|intros (_&?&?&->); simpl; by apply post_ret].
  intros (_&Hst&P). simpl. pose proof P as (I1&Hops1&_&F1).
  pose proof (frame_queues _ _ F1) as (Hq&Hrm&Hrl&_). simpl in Hq, Hrm, Hrl.
  set (o1 := if wait_interruptible v then armed w (rw_token r) o else set_op_active true o) in *.
  assert (Ho1 : op_active o1 = true ∧ op_owner o1 = op_owner o).
  { unfold o1, armed. by destruct (wait_interruptible v), (possible w (rw_token r)). }
  assert (Hx1 : w_ops w1 !! x = Some o1) by (rewrite Hops1; apply lookup_insert_eq).
  destruct Hf as (o0&_&Hox&Hact&_). assert (o0 = o) as -> by congruence.
  pose proof (WInv_parked _ _ _ _ _ _ _ _ _ _ _ _ W Hr Hl Ho Hact P Hx1 Ho1) as W1.
  rewrite <- Hrm in Hr. rewrite <- Hrl in Hk.
  destruct (wi_remote _ _ _ _ W1 _ _ Hr) as (_&_&[vq Hvq]&_).
  destruct (wi_rep _ _ _ _ W1 _ _ Hvq) as [Hrep Hlast].
  apply post_bind. eapply post_on_queue; [done| |].
  { rewrite (dl_rep_head _ _ _ Hrep), Hlast. apply link_back_run; [|by eapply wi_unlinked|by eexists].
    by rewrite <- (dl_rep_head _ _ _ Hrep). }
  simpl. step. apply post_ret.
  pose proof (WInv_linked _ _ _ _ _ _ _ _ W1 Hr Hl Hx1 (proj1 Ho1) ltac:(set_solver) Hk Hn) as W2.
  replace ((Y ∪ {[x]}) ∖ {[x]}) with Y in W2 by set_solver.
  split_and!; [done|by apply Inv_queues|exact W2|done| |].
  { intros q. simpl. by rewrite lookup_alter_is_Some, Hq. }
  etrans; [apply frame_rframe; exact F1|]. apply rframe_queues.
Qed.

(** ** Lifetime *)
Lemma remote_construct_spec Y w g gq x q v L t :
  Inv ∅ w g → WInv Y w g gq → w_queues w !! q = Some v → is_Some (w_loops w !! L) →
  unused w x → w_remotes w !! x = None → w_rlinks w !! x = None → x ∉ Y →
  runs (remote_construct x q L t) w (λ _ w',
    Inv ∅ w' g ∧ WInv Y w' g gq ∧ fresh_wait w' g x ∧
    w_remotes w' = <[x := RemoteWait q t false]> (w_remotes w) ∧
    w_queues w' = <[q := set_q_users (S (q_users v)) v]> (w_queues w)).
Proof.
  intros I W Hq HL Hu Hr Hrl HY. unfold remote_construct. step. apply post_modify.
  assert (I1 : Inv ∅ (set_w_queues (<[q:=set_q_users (S (q_users v)) v]> (w_queues w)) w) g)
    by (destruct I; by constructor).
  destruct (unused_lists _ _ _ _ L I Hu) as (Hnr&Hni&_). pose proof Hu as (_&Hxo&_&_&_&_&Hxm).
  pose proof (Inv_new_message _ _ _ x (Message run_notify L)
    (Inv_new_wait _ _ _ x L (Wait true (Some interrupt_remote)) I1 Hu HL) Hxm) as I2.
  split_and!; [exact (Inv_queues _ _ _ _ _ (w_queues (set_w_queues (<[q:=set_q_users (S (q_users v)) v]> (w_queues w)) w)) I2)| | |done|done].
  - constructor; simpl.
    + intros q' v' Hv'. assert (∃ v0, w_queues w !! q' = Some v0 ∧ q_first v' = q_first v0 ∧ q_last v' = q_last v0)
        as (v0&Hv0&->&->) by (apply lookup_insert_Some in Hv' as [[<- <-]|[? ?]]; eauto).
      destruct (wi_rep _ _ _ _ W _ _ Hv0) as [Hrep ?]. split; [|done]. eapply dl_rep_frame, Hrep.
      intros y Hy. apply lookup_insert_ne. intros <-. destruct (dl_rep_lookup _ _ _ _ Hrep Hy). congruence.
    + intros q' v' Hv'. unfold users_of. simpl. rewrite map_filter_insert. simpl.
      apply lookup_insert_Some in Hv' as [[<- <-]|[Hne Hv']].
      * rewrite decide_True, map_size_insert_None by (done || (apply map_lookup_filter_None; by left)).
        simpl. by rewrite (wi_users _ _ _ _ W _ _ Hq).
      * rewrite decide_False by done. rewrite delete_id by done. by apply (wi_users _ _ _ _ W).
    + intros q' y Hy. destruct (wi_linked _ _ _ _ W _ _ Hy) as (r&?&?&?). exists r.
      rewrite lookup_insert_ne by congruence. done.
    + intros y r [[<- <-]|[Hne Hy]]%lookup_insert_Some; simpl.
      * rewrite !lookup_insert_eq. split_and!; [by eexists..|]. eexists. split_and!; [done..|].
        unfold status. simpl. split; [|done]. split; [done|]. intros [|]; done.
      * destruct (wi_remote _ _ _ _ W _ _ Hy) as (?&?&?&o&?&?&?). rewrite !lookup_insert_ne by done.
        split_and!; [done..|by apply lookup_insert_is_Some'; right|]. exists o. by rewrite !lookup_insert_ne by done.
  - exists (Op L None false false None), (Link None None). simpl. by rewrite !lookup_insert_eq.
Qed.

(** Destroying a remote waiter that is linked or whose delivery is in flight ends the
    process; otherwise it leaves no reference in the queue and gives its use count back. *)
Theorem remote_destroy_spec Y w g gq x r o v :
  Inv ∅ w g → WInv Y w g gq → w_remotes w !! x = Some r → w_ops w !! x = Some o →
  w_queues w !! rw_queue r = Some v →
  if rw_linked r || op_active o then remote_destroy x w = Terminate
  else runs (remote_destroy x) w (λ _ w',
    Inv ∅ w' g ∧ WInv Y w' g gq ∧ w_remotes w' = delete x (w_remotes w) ∧
    w_queues w' = <[rw_queue r := set_q_users (pred (q_users v)) v]> (w_queues w)).
Proof.
  intros I W Hr Ho Hv. destruct (rw_linked r || op_active o) eqn:E.
  - unfold remote_destroy, the_remote, the_op, deref, mbind, M_bind. by rewrite Hr, Ho, E.
  - unfold remote_destroy. step. step. rewrite E. step. apply post_modify. apply orb_false_iff in E as [Hl Ha].
    split_and!; [destruct I; by constructor| |done|done]. constructor; simpl.
    + intros q' v' Hv'. assert (∃ v0, w_queues w !! q' = Some v0 ∧ q_first v' = q_first v0 ∧ q_last v' = q_last v0)
        as (v0&Hv0&->&->) by (apply lookup_insert_Some in Hv' as [[<- <-]|[? ?]]; eauto).
      by apply (wi_rep _ _ _ _ W).
    + intros q' v' Hv'. unfold users_of. simpl. rewrite map_filter_delete.
      apply lookup_insert_Some in Hv' as [[<- <-]|[Hne Hv']].
      * rewrite map_size_delete_Some by (exists r; by apply map_lookup_filter_Some).
        simpl. by rewrite (wi_users _ _ _ _ W _ _ Hv).
      * rewrite delete_id; [by apply (wi_users _ _ _ _ W)|]. apply map_lookup_filter_None. right.
        intros r' ?. simplify_eq. done.
    + intros q' y Hy. destruct (wi_linked _ _ _ _ W _ _ Hy) as (r'&?&?&?). exists r'.
      rewrite lookup_delete_ne by congruence. done.
    + intros y r' [Hne Hy]%lookup_delete_Some. destruct (wi_remote _ _ _ _ W _ _ Hy) as (?&?&?&o'&?&?&?).
      split_and!; [done..| |eauto]. by apply lookup_insert_is_Some'; right.
Qed.

(** A wait queue is destroyed normally exactly when no waiter object refers to it, and
    ends the process otherwise. *)
Theorem queue_destroy_run Y w g gq q v :
  WInv Y w g gq → w_queues w !! q = Some v →
  queue_destroy q w = Ret tt w ∧ (∀ x r, w_remotes w !! x = Some r → rw_queue r ≠ q) ∨
  queue_destroy q w = Terminate ∧ (∃ x r, w_remotes w !! x = Some r ∧ rw_queue r = q).
Proof.
  intros W Hv. unfold queue_destroy, the_queue, deref, mbind, M_bind. rewrite Hv.
  rewrite (wi_users _ _ _ _ W _ _ Hv). unfold users_of. case_bool_decide as Hs; [left|right]; (split; [done|]).
  - apply map_size_empty_inv in Hs. intros x r Hr Hq.
    eapply (map_filter_empty_not_lookup (λ p : loc * remote_wait, rw_queue p.2 = q)); [exact Hs|exact Hq|done].
  - destruct (map_choose (filter (λ p : loc * remote_wait, rw_queue p.2 = q) (w_remotes w))) as (x&r&Hx).
    { intros He. apply Hs. by rewrite He. }
    apply map_lookup_filter_Some in Hx as [? ?]. eauto.
Qed.
End wait_queue.
