(* ===== verification/Fifo.v ===== *)
(** * The bounded FIFO

    [channel] and [mailbox] share one data structure, [slots_]/[head_]/[size_], and
    one contract.  The first part models the ring buffer and shows that it holds a
    list.  The second part is the contract: a bounded buffer with a queue of
    waiting senders or receivers, and the laws of its two operations.  The files
    [Channel] and [Mailbox] show that the two classes implement it. *)
From S2P Require Import Prelude.

(** ** The ring buffer *)
Section ring.
Context {T : Type}.
Implicit Types (v : T) (xs : list T).

(** [std::vector<std::optional<T>> slots_; std::size_t head_, size_;] *)
Record ring := Ring { slots : list (option T); head_ : nat; size_ : nat }.
Implicit Types r : ring.

Definition new_ring (capacity : nat) : ring := Ring (replicate capacity None) 0 0.
Definition ring_full r : bool := bool_decide (size_ r = length (slots r)).

(** [slots_[(head_ + size_) % slots_.size()].emplace(value); ++size_;]
    [None]: division by zero or an index out of range. *)
Definition ring_put v r : option ring :=
  if bool_decide (length (slots r) = 0) then None else
    let i := (head_ r + size_ r) mod length (slots r) in
    Some (Ring (<[i := Some v]> (slots r)) (head_ r) (S (size_ r))).

(** [*slots_[head_]], then [reset()], then the head moves on.  [None]: an empty
    optional is read. *)
Definition ring_get r : option (T * ring) :=
  match slots r !! head_ r with
  | Some (Some v) =>
      Some (v, Ring (<[head_ r := None]> (slots r)) ((head_ r + 1) mod length (slots r)) (pred (size_ r)))
  | _ => None
  end.

(** The ring holds [xs]: the [i]-th element is [i] slots after the head, and all
    other slots are disengaged. *)
Definition ring_rep r xs : Prop :=
  length xs = size_ r ∧ size_ r ≤ length (slots r) ∧
  (length (slots r) ≠ 0 → head_ r < length (slots r)) ∧
  ∀ i, i < length (slots r) → slots r !! ((head_ r + i) mod length (slots r)) = Some (xs !! i).

Lemma new_ring_rep n : ring_rep (new_ring n) [].
Proof.
  unfold ring_rep. simpl. rewrite length_replicate. split_and!; [done|lia..|].
  intros i Hi. apply lookup_replicate. split; [done|]. apply Nat.mod_upper_bound. lia.
Qed.

(** Distinct offsets are distinct slots. *)
Lemma mod_offset_inj n h i j : i < n → j < n → (h + i) mod n = (h + j) mod n → i = j.
Proof.
  intros Hi Hj Heq. destruct n as [|n]; [lia|].
  pose proof (Nat.div_mod_eq (h + i) (S n)) as E1. pose proof (Nat.div_mod_eq (h + j) (S n)) as E2.
  rewrite Heq in E1. assert (Hd : (h + i) / S n = (h + j) / S n); [nia|]. nia.
Qed.

Lemma ring_put_rep r xs v :
  ring_rep r xs → size_ r < length (slots r) →
  ∃ r', ring_put v r = Some r' ∧ ring_rep r' (xs ++ [v]) ∧ length (slots r') = length (slots r).
Proof.
  intros (Hlen&Hle&Hhd&Hat) Hlt. unfold ring_put. rewrite bool_decide_false by lia. eexists. split; [done|].
  unfold ring_rep. simpl. rewrite length_insert, length_app. simpl. split; [|done].
  split_and!; [lia|lia|done|]. intros i Hi. destruct (decide (i = size_ r)) as [->|Hne].
  - rewrite list_lookup_insert_eq by (apply Nat.mod_upper_bound; lia). f_equal.
    rewrite lookup_app_r, Hlen, Nat.sub_diag by lia. done.
  - rewrite list_lookup_insert_ne by (intros ?%mod_offset_inj; lia). rewrite Hat by done. f_equal.
    destruct (decide (i < size_ r)); [by rewrite lookup_app_l by lia|].
    rewrite lookup_ge_None_2 by lia. symmetry. apply lookup_ge_None_2. rewrite length_app. simpl. lia.
Qed.

Lemma ring_get_rep r x xs :
  ring_rep r (x :: xs) →
  ∃ r', ring_get r = Some (x, r') ∧ ring_rep r' xs ∧ length (slots r') = length (slots r).
Proof.
  intros (Hlen&Hle&Hhd&Hat). simpl in Hlen. set (n := length (slots r)) in *.
  assert (Hh : slots r !! head_ r = Some (Some x)).
  { specialize (Hat 0 ltac:(lia)). by rewrite Nat.add_0_r, Nat.mod_small in Hat by lia. }
  unfold ring_get. rewrite Hh. fold n. eexists. split; [done|]. unfold ring_rep. simpl. rewrite length_insert.
  fold n. split; [|done]. split_and!; [lia|lia|intros _; apply Nat.mod_upper_bound; lia|].
  intros i Hi. rewrite Nat.Div0.add_mod_idemp_l, <- Nat.add_assoc. destruct (decide (S i = n)) as [Hn|Hn].
  - replace (head_ r + (1 + i)) with (head_ r + 1 * n) by lia. rewrite Nat.Div0.mod_add, Nat.mod_small by lia.
    rewrite list_lookup_insert_eq by lia. f_equal. symmetry. apply lookup_ge_None_2. lia.
  - rewrite list_lookup_insert_ne.
    2:{ intros Heq. assert (E0 : (head_ r + 0) mod n = (head_ r + (1 + i)) mod n).
        { rewrite Nat.add_0_r, Nat.mod_small by lia. exact Heq. }
        apply mod_offset_inj in E0; lia. }
    change (1 + i) with (S i). rewrite Hat by lia. done.
Qed.

Lemma ring_full_spec r xs : ring_rep r xs → ring_full r = bool_decide (length xs = length (slots r)).
Proof. intros (->&_). done. Qed.

(** Index arithmetic stays below twice the capacity, which a [size_t] holds for any
    vector that can be allocated. *)
Lemma ring_index_bound r xs : ring_rep r xs → length (slots r) ≠ 0 →
  head_ r + size_ r < 2 * length (slots r).
Proof. intros (?&?&?&_) ?. lia. Qed.

(** Fill and drain. *)
Fixpoint ring_puts (vs : list T) r : option ring :=
  match vs with [] => Some r | v :: vs' => r' ← ring_put v r; ring_puts vs' r' end.
Fixpoint ring_gets (n : nat) r : option (list T * ring) :=
  match n with
  | O => Some ([], r)
  | S n' => '(v, r') ← ring_get r; '(vs, r'') ← ring_gets n' r'; Some (v :: vs, r'')
  end.
Lemma ring_puts_rep vs r xs :
  ring_rep r xs → length xs + length vs ≤ length (slots r) →
  ∃ r', ring_puts vs r = Some r' ∧ ring_rep r' (xs ++ vs) ∧ length (slots r') = length (slots r).
Proof.
  revert r xs. induction vs as [|v vs IH]; intros r xs Hr Hlen; simpl in *; [exists r; by rewrite app_nil_r|].
  destruct (ring_put_rep r xs v Hr) as (r1&->&Hr1&Hs); [destruct Hr as (<-&_); lia|]. simpl.
  destruct (IH r1 (xs ++ [v]) Hr1) as (r2&->&Hr2&Hs2); [rewrite length_app; simpl; lia|].
  exists r2. rewrite <- app_assoc in Hr2. split_and!; [done..|congruence].
Qed.
Lemma ring_gets_rep r xs ys :
  ring_rep r (xs ++ ys) → ∃ r', ring_gets (length xs) r = Some (xs, r') ∧ ring_rep r' ys.
Proof.
  revert r. induction xs as [|x xs IH]; intros r Hr; simpl in *; [eauto|].
  destruct (ring_get_rep r x _ Hr) as (r1&->&Hr1&_). simpl. destruct (IH r1 Hr1) as (r2&->&?). eauto.
Qed.

(** C40: The slot array is a circular buffer: values stored on top of [xs] while there
    is room come back in order after [xs], wherever the head is and however often the
    indices wrap. *)
Theorem ring_roundtrip r xs vs :
  ring_rep r xs → length xs + length vs ≤ length (slots r) →
  ∃ r1 r2, ring_puts vs r = Some r1 ∧ ring_gets (length xs + length vs) r1 = Some (xs ++ vs, r2) ∧ ring_rep r2 [].
Proof.
  intros Hr Hlen. destruct (ring_puts_rep vs r xs Hr Hlen) as (r1&H1&Hr1&_). exists r1.
  rewrite <- (app_nil_r (xs ++ vs)) in Hr1. destruct (ring_gets_rep r1 _ _ Hr1) as (r2&H2&?).
  rewrite length_app in H2. eauto.
Qed.
End ring.
Arguments ring : clear implicits.

(** ** The contract *)
Section fifo.
Context {T : Type}.

(** A waiter and, for a sender, its payload. *)
Definition waiter : Type := nat * option T.
Record fifo := Fifo { f_cap : nat; f_buf : list T; f_waiters : list waiter; f_closed : bool }.
Implicit Types (s : fifo) (live : nat → bool).

Definition is_sender (x : waiter) : bool := match x.2 with Some _ => true | None => false end.
Definition prune live s : list waiter := drop_while (λ x, negb (live x.1)) (f_waiters s).

(** Try to send [v]: whether it was taken, the receiver to resume with it, and the
    new state. *)
Definition fifo_push live (v : T) s : bool * option nat * fifo :=
  match prune live s with
  | (x, None) :: ws => (true, Some x, Fifo (f_cap s) (f_buf s) ws (f_closed s))
  | ws => if bool_decide (length (f_buf s) = f_cap s)
          then (false, None, Fifo (f_cap s) (f_buf s) ws (f_closed s))
          else (true, None, Fifo (f_cap s) (f_buf s ++ [v]) ws (f_closed s))
  end.

(** Try to receive: the value, the sender to resume, and the new state. *)
Definition fifo_pop live s : option T * option nat * fifo :=
  match f_buf s, prune live s with
  | v :: buf, (x, Some u) :: ws => (Some v, Some x, Fifo (f_cap s) (buf ++ [u]) ws (f_closed s))
  | v :: buf, ws => (Some v, None, Fifo (f_cap s) buf ws (f_closed s))
  | [], (x, Some u) :: ws => (Some u, Some x, Fifo (f_cap s) [] ws (f_closed s))
  | [], ws => (None, None, Fifo (f_cap s) [] ws (f_closed s))
  end.

Lemma fifo_pop_alt live s :
  fifo_pop live s =
  match prune live s with
  | (x, Some u) :: ws =>
      match f_buf s with
      | v :: buf => (Some v, Some x, Fifo (f_cap s) (buf ++ [u]) ws (f_closed s))
      | [] => (Some u, Some x, Fifo (f_cap s) [] ws (f_closed s))
      end
  | ws => (head (f_buf s), None, Fifo (f_cap s) (tail (f_buf s)) ws (f_closed s))
  end.
Proof. unfold fifo_pop. by destruct (f_buf s), (prune live s) as [|[? []] ?]. Qed.

(** Block: append a waiter. *)
Definition fifo_wait (x : waiter) s : fifo := Fifo (f_cap s) (f_buf s) (f_waiters s ++ [x]) (f_closed s).
(** A whole send: whether [x] suspends, the receiver resumed with the value, and the
    new state.  A whole receive: the value, whether [x] suspends, and the new state. *)
Definition fifo_send live x (v : T) s : bool * option nat * fifo :=
  if f_closed s then (false, None, s) else
    match fifo_push live v s with
    | (true, rx, s') => (false, rx, s')
    | (false, _, s') => (true, None, fifo_wait (x, Some v) s')
    end.
Definition fifo_recv live x s : option T * bool * fifo :=
  match fifo_pop live s with
  | (Some v, _, s') => (Some v, false, s')
  | (None, _, s') => if f_closed s then (None, false, s') else (None, true, fifo_wait (x, None) s')
  end.
Definition fifo_close s : fifo := Fifo (f_cap s) (f_buf s) [] true.

Record fifo_wf s : Prop := {
  wf_cap : length (f_buf s) ≤ f_cap s;
  wf_full x : x ∈ f_waiters s → is_sender x = true → length (f_buf s) = f_cap s;
  wf_empty x : x ∈ f_waiters s → is_sender x = false → f_buf s = [];
  wf_uniform x y : x ∈ f_waiters s → y ∈ f_waiters s → is_sender x = is_sender y;
  wf_closed : f_closed s = true → f_waiters s = [] }.

Definition live_payload live (x : waiter) : option T := if live x.1 then x.2 else None.
Definition live_receiver live (x : waiter) : option nat :=
  if live x.1 then match x.2 with Some _ => None | None => Some x.1 end else None.
(** What is sent and not yet received, oldest first. *)
Definition contents live s : list T :=
  f_buf s ++ omap (live_payload live) (f_waiters s).
(** Receivers waiting for a value. *)
Definition receivers live s : list nat :=
  omap (live_receiver live) (f_waiters s).

Lemma omap_nil {A B} (f : A → option B) xs : (∀ x, x ∈ xs → f x = None) → omap f xs = [].
Proof.
  induction xs as [|x xs IH]; intros Hf; simpl; [done|]. rewrite Hf by set_solver. apply IH. set_solver.
Qed.
Lemma elem_of_prune live s x : x ∈ prune live s → x ∈ f_waiters s.
Proof.
  intros Hx. unfold prune in Hx. rewrite <- (take_drop_while (λ x, negb (live x.1)) (f_waiters s)).
  apply elem_of_app. by right.
Qed.
Lemma omap_prune {B} live s (f : waiter → option B) :
  (∀ x, live x.1 = false → f x = None) → omap f (prune live s) = omap f (f_waiters s).
Proof.
  intros Hf. unfold prune. induction (f_waiters s) as [|x ws IH]; simpl; [done|].
  destruct (live x.1) eqn:E; simpl; [done|]. by rewrite IH, Hf.
Qed.
Lemma prune_live live s x ws : prune live s = x :: ws → live x.1 = true.
Proof.
  intros Hp. assert (head (prune live s) = Some x) as [_ H]%head_drop_while by (by rewrite Hp).
  by destruct (live x.1).
Qed.

Lemma payload_cons live x p ws : live x = true →
  omap (live_payload live) ((x, p) :: ws) =
    match p with Some v => v :: omap (live_payload live) ws | None => omap (live_payload live) ws end.
Proof. intros Hl. simpl. unfold live_payload at 1. simpl. by rewrite Hl. Qed.

(** The shape of the pruned queue of a well-formed state. *)
Lemma prune_cases live s : fifo_wf s →
  prune live s = [] ∧ omap (live_payload live) (f_waiters s) = [] ∧
    receivers live s = [] ∨
  (∃ x ws, prune live s = (x, None) :: ws ∧ live x = true ∧ contents live s = [] ∧ f_buf s = [] ∧
     receivers live s = x :: omap (live_receiver live) ws ∧
     omap (live_payload live) ws = []) ∨
  (∃ x v ws, prune live s = (x, Some v) :: ws ∧ live x = true ∧ length (f_buf s) = f_cap s ∧ receivers live s = [] ∧
     omap (live_receiver live) ws = [] ∧
     contents live s = f_buf s ++ v :: omap (live_payload live) ws).
Proof.
  intros W. unfold contents, receivers.
  rewrite <- (omap_prune live s (live_payload live)) by (intros x Hx; unfold live_payload, live_receiver; by rewrite Hx).
  rewrite <- (omap_prune live s (live_receiver live)) by (intros x Hx; unfold live_payload, live_receiver; by rewrite Hx).
  pose proof (elem_of_prune live s) as Hin.
  destruct (prune live s) as [|[x [v|]] ws] eqn:E; [by left|right; right|right; left];
    pose proof (prune_live _ _ _ _ E) as Hl; simpl in Hl; simpl; unfold live_payload at 1, live_receiver at 1; simpl; rewrite Hl.
  - exists x, v, ws. assert (Hx : (x, Some v) ∈ f_waiters s) by (apply Hin; set_solver).
    assert (Hr : omap (live_receiver live) ws = []).
    { apply omap_nil. intros y Hy. unfold live_payload, live_receiver. pose proof (wf_uniform _ W _ y Hx ltac:(apply Hin; set_solver)) as Hu.
      unfold is_sender in Hu. simpl in Hu. destruct (live y.1), (y.2); done. }
    split_and!; [done..|by apply (wf_full _ W _ Hx)|done|done|done].
  - exists x, ws. assert (Hx : (x, None) ∈ f_waiters s) by (apply Hin; set_solver).
    assert (Hr : omap (live_payload live) ws = []).
    { apply omap_nil. intros y Hy. unfold live_payload, live_receiver. pose proof (wf_uniform _ W _ y Hx ltac:(apply Hin; set_solver)) as Hu.
      unfold is_sender in Hu. simpl in Hu. destruct (live y.1), (y.2); done. }
    pose proof (wf_empty _ W _ Hx eq_refl) as Hb. rewrite Hb, Hr. done.
Qed.

(** Sending hands the value to the longest waiting receiver or appends it. *)
Lemma fifo_push_contents live v s : fifo_wf s →
  match fifo_push live v s with
  | (true, Some x, s') => contents live s = [] ∧ contents live s' = [] ∧
                          receivers live s = x :: receivers live s'
  | (true, None, s') => receivers live s = [] ∧ length (f_buf s) < f_cap s ∧
                        contents live s' = contents live s ++ [v]
  | (false, _, s') => receivers live s = [] ∧ length (f_buf s) = f_cap s ∧
                      contents live s' = contents live s
  end.
Proof.
  intros W. pose proof (wf_cap _ W) as Hcap. unfold fifo_push.
  destruct (prune_cases live s W) as [(Hp&Hc&Hr)|[(x&ws&Hp&Hl&Hc&Hb&Hr&Ho)|(x&u&ws&Hp&Hl&Hb&Hr&Ho&Hc)]]; rewrite Hp.
  - case_bool_decide as Hd; unfold contents; simpl; rewrite Hc, !app_nil_r; split_and!; try done. lia.
  - rewrite Hc. unfold contents, receivers at 2. simpl. rewrite Hb, Ho. done.
  - rewrite bool_decide_true by done. rewrite Hc. unfold contents. cbn [f_buf f_waiters]. by rewrite payload_cons.
Qed.

(** Receiving takes the oldest value. *)
Lemma fifo_pop_contents live s : fifo_wf s →
  let '(o, _, s') := fifo_pop live s in
  o = head (contents live s) ∧ contents live s' = tail (contents live s).
Proof.
  intros W. unfold fifo_pop.
  destruct (prune_cases live s W) as [(Hp&Hc&Hr)|[(x&ws&Hp&Hl&Hc&Hb&Hr&Ho)|(x&u&ws&Hp&Hl&Hb&Hr&Ho&Hc)]]; rewrite Hp.
  - unfold contents. rewrite Hc, app_nil_r. destruct (f_buf s); simpl; by rewrite ?app_nil_r.
  - rewrite Hb, Hc. unfold contents. cbn [f_buf f_waiters]. by rewrite payload_cons, Ho.
  - rewrite Hc. unfold contents. destruct (f_buf s); simpl; [done|]. by rewrite <- app_assoc.
Qed.

(** ** Preservation of well-formedness *)
Lemma fifo_wf_sub s buf ws :
  fifo_wf s → (∀ x, x ∈ ws → x ∈ f_waiters s) → length buf ≤ f_cap s →
  (∀ x, x ∈ ws → is_sender x = true → length buf = f_cap s) →
  (∀ x, x ∈ ws → is_sender x = false → buf = []) →
  fifo_wf (Fifo (f_cap s) buf ws (f_closed s)).
Proof.
  intros W Hws Hlen Hf He. constructor; simpl; [done|done|done| |].
  - intros x y Hx Hy. apply (wf_uniform _ W); auto.
  - intros Hc. pose proof (wf_closed _ W Hc) as Hn. rewrite Hn in Hws. destruct ws as [|x ws]; [done|].
    specialize (Hws x). set_solver.
Qed.

Lemma fifo_push_wf live v s b x s' : fifo_wf s → fifo_push live v s = (b, x, s') → fifo_wf s'.
Proof.
  intros W Hp. pose proof (wf_cap _ W) as Hcap. pose proof (elem_of_prune live s) as Hin. unfold fifo_push in Hp.
  destruct (prune live s) as [|[y [u|]] ws] eqn:E; [| |simplify_eq].
  - case_bool_decide; simplify_eq; apply fifo_wf_sub; try done; try set_solver. rewrite length_app. simpl. lia.
  - assert (Hy : (y, Some u) ∈ f_waiters s) by (apply Hin; set_solver).
    rewrite bool_decide_true in Hp by (by eapply (wf_full _ W)). simplify_eq.
    apply fifo_wf_sub; try done; intros z Hz; [by apply (wf_full _ W), Hin|by apply (wf_empty _ W), Hin].
  - apply fifo_wf_sub; try done; intros z Hz; [apply Hin; set_solver|apply (wf_full _ W), Hin; set_solver|
      apply (wf_empty _ W), Hin; set_solver].
Qed.

Lemma fifo_pop_wf live s o x s' : fifo_wf s → fifo_pop live s = (o, x, s') → fifo_wf s'.
Proof.
  intros W Hp. pose proof (wf_cap _ W) as Hcap. pose proof (elem_of_prune live s) as Hin. unfold fifo_pop in Hp.
  assert (Hs : ∀ z, z ∈ prune live s → z ∈ f_waiters s) by done.
  destruct (f_buf s) as [|v buf] eqn:Eb, (prune live s) as [|[y [u|]] ws] eqn:E; simplify_eq; simpl in Hcap;
    apply fifo_wf_sub; try done; simpl; try lia; try set_solver; rewrite ?length_app; simpl; try lia.
  - intros z Hz. assert (Hz' : z ∈ f_waiters s) by (apply Hin; set_solver).
    intros Hsd. pose proof (wf_full _ W _ Hz' Hsd) as Hl. by rewrite Eb in Hl.
  - intros z Hz. assert (Hz' : z ∈ f_waiters s) by (apply Hin; set_solver).
    intros Hsd. pose proof (wf_full _ W _ Hz' Hsd) as Hl. by rewrite Eb in Hl.
  - intros z Hz. assert (Hz' : z ∈ f_waiters s) by (apply Hin; set_solver).
    intros Hsd. pose proof (wf_full _ W _ Hz' Hsd) as Hl. rewrite Eb in Hl. simpl in Hl. lia.
  - intros z Hz Hsd. assert (Hz' : z ∈ f_waiters s) by (apply Hin; set_solver).
    pose proof (wf_empty _ W _ Hz' Hsd) as Hl. by rewrite Eb in Hl.
  - intros z Hz Hsd. assert (Hy : (y, None) ∈ f_waiters s) by (apply Hin; set_solver).
    pose proof (wf_empty _ W _ Hy eq_refl) as Hl. by rewrite Eb in Hl.
  - intros z Hz Hsd. assert (Hy : (y, None) ∈ f_waiters s) by (apply Hin; set_solver).
    pose proof (wf_empty _ W _ Hy eq_refl) as Hl. by rewrite Eb in Hl.
Qed.

(** Blocking after a refused operation keeps the state well formed: the waiter
    joins waiters of its own direction. *)
Lemma fifo_wait_wf s x :
  fifo_wf s → f_closed s = false → (∀ y, y ∈ f_waiters s → is_sender y = is_sender x) →
  (if is_sender x then length (f_buf s) = f_cap s else f_buf s = []) → fifo_wf (fifo_wait x s).
Proof.
  intros W Hc Hu Hx. constructor; simpl; [apply W| | | |congruence].
  - intros y [Hy| ->%list_elem_of_singleton]%elem_of_app Hs; [by eapply (wf_full _ W)|by rewrite Hs in Hx].
  - intros y [Hy| ->%list_elem_of_singleton]%elem_of_app Hs; [by eapply (wf_empty _ W)|by rewrite Hs in Hx].
  - assert (Hall : ∀ y, y ∈ f_waiters s ++ [x] → is_sender y = is_sender x).
    { intros y [Hy| ->%list_elem_of_singleton]%elem_of_app; auto. }
    intros y z Hy Hz. by rewrite (Hall y), (Hall z).
Qed.

Lemma fifo_push_wait live v s x0 s' x :
  fifo_wf s → f_closed s = false → fifo_push live v s = (false, x0, s') → fifo_wf (fifo_wait (x, Some v) s').
Proof.
  intros W Hc Hp. pose proof (fifo_push_wf _ _ _ _ _ _ W Hp) as W'. pose proof (elem_of_prune live s) as Hin.
  unfold fifo_push in Hp. destruct (prune live s) as [|[y [u|]] ws] eqn:E; [| |done];
    case_bool_decide as Hd; simplify_eq; apply fifo_wait_wf; try done; simpl; intros z Hz; [set_solver|].
  apply (wf_uniform _ W z (y, Some u)); apply Hin; [done|set_solver].
Qed.

Lemma fifo_pop_wait live s x0 s' x :
  fifo_wf s → f_closed s = false → fifo_pop live s = (None, x0, s') → fifo_wf (fifo_wait (x, None) s').
Proof.
  intros W Hc Hp. pose proof (fifo_pop_wf _ _ _ _ _ W Hp) as W'. pose proof (elem_of_prune live s) as Hin.
  unfold fifo_pop in Hp. destruct (f_buf s) eqn:Eb, (prune live s) as [|[y [u|]] ws] eqn:E; simplify_eq;
    apply fifo_wait_wf; try done; simpl; intros z Hz; [set_solver|].
  apply (wf_uniform _ W z (y, None)); apply Hin; [done|set_solver].
Qed.

Lemma fifo_close_wf s : fifo_wf s → fifo_wf (fifo_close s).
Proof. intros W. constructor; simpl; try set_solver. apply W. Qed.

(** ** Order of a whole history

    Sends and receives of an open channel, with what has been sent so far and what
    receivers have got, in the order they got it. *)
Inductive fifo_event := ev_send (x : nat) (v : T) | ev_recv (x : nat).
Record history := History { h_state : fifo; h_sent : list T; h_got : list T }.
Definition fifo_event_step (e : fifo_event) (h : history) : history :=
  match e with
  | ev_send x v =>
      let '(_, rx, s') := fifo_send (λ _, true) x v (h_state h) in
      History s' (h_sent h ++ [v]) (h_got h ++ match rx with Some _ => [v] | None => [] end)
  | ev_recv x =>
      let '(o, _, s') := fifo_recv (λ _, true) x (h_state h) in
      History s' (h_sent h) (h_got h ++ match o with Some v => [v] | None => [] end)
  end.
Definition fifo_events (es : list fifo_event) (h : history) : history := fold_left (λ h e, fifo_event_step e h) es h.

Definition ordered (h : history) : Prop :=
  fifo_wf (h_state h) ∧ f_closed (h_state h) = false ∧ h_sent h = h_got h ++ contents (λ _, true) (h_state h).

Lemma contents_wait s x p :
  contents (λ _, true) (fifo_wait (x, p) s) =
    contents (λ _, true) s ++ match p with Some v => [v] | None => [] end.
Proof.
  unfold contents, fifo_wait. simpl. rewrite omap_app, app_assoc. simpl. unfold live_payload at 2. simpl. by destruct p.
Qed.
Lemma fifo_push_closed live v s b x s' : fifo_push live v s = (b, x, s') → f_closed s' = f_closed s.
Proof.
  unfold fifo_push. destruct (prune live s) as [|[? [?|]] ?]; try case_bool_decide; by intros [= <- <- <-].
Qed.
Lemma fifo_pop_closed live s o x s' : fifo_pop live s = (o, x, s') → f_closed s' = f_closed s.
Proof. unfold fifo_pop. destruct (f_buf s), (prune live s) as [|[? [?|]] ?]; by intros [= <- <- <-]. Qed.

Lemma fifo_event_ordered e h : ordered h → ordered (fifo_event_step e h).
Proof.
  intros (W&Hc&Ho). destruct e as [x v|x]; simpl.
  - unfold fifo_send. rewrite Hc. pose proof (fifo_push_contents (λ _, true) v _ W) as Hp.
    destruct (fifo_push (λ _, true) v (h_state h)) as [[[] rx] s'] eqn:E.
    + pose proof (fifo_push_wf _ _ _ _ _ _ W E). pose proof (fifo_push_closed _ _ _ _ _ _ E).
      split_and!; simpl; [done|congruence|]. rewrite Ho. destruct rx; [destruct Hp as (H1&H2&_)|destruct Hp as (_&_&H2)];
        rewrite H2, ?H1, ?app_nil_r, <- ?app_assoc; done.
    + pose proof (fifo_push_wait _ _ _ _ _ x W Hc E). pose proof (fifo_push_closed _ _ _ _ _ _ E).
      destruct Hp as (_&_&H2). split_and!; simpl; [done|congruence|]. rewrite contents_wait, H2, Ho, app_nil_r. by rewrite app_assoc.
  - unfold fifo_recv. pose proof (fifo_pop_contents (λ _, true) _ W) as Hp.
    destruct (fifo_pop (λ _, true) (h_state h)) as [[[v|] tx] s'] eqn:E; destruct Hp as [H1 H2].
    + pose proof (fifo_pop_wf _ _ _ _ _ W E). pose proof (fifo_pop_closed _ _ _ _ _ E).
      split_and!; simpl; [done|congruence|]. rewrite Ho, H2.
      destruct (contents (λ _, true) (h_state h)); simplify_eq/=. by rewrite <- app_assoc.
    + rewrite Hc. pose proof (fifo_pop_wait _ _ _ _ x W Hc E). pose proof (fifo_pop_closed _ _ _ _ _ E).
      split_and!; simpl; [done|congruence|]. rewrite contents_wait, H2, Ho, !app_nil_r.
      by destruct (contents (λ _, true) (h_state h)).
Qed.

(** The contract of channels and mailboxes is a queue: after any history of sends
    and receives on a new channel of capacity [n], the values sent are those received,
    in the same order, followed by what the channel still holds; nothing is lost,
    duplicated or reordered, whatever blocked in between. *)
Theorem fifo_order n es :
  let h := fifo_events es (History (Fifo n [] [] false) [] []) in
  h_sent h = h_got h ++ contents (λ _, true) (h_state h) ∧ length (f_buf (h_state h)) ≤ n.
Proof.
  assert (Hgen : ∀ h, ordered h → f_cap (h_state h) = n →
    ordered (fifo_events es h) ∧ f_cap (h_state (fifo_events es h)) = n).
  { induction es as [|e es IH]; intros h Hh Hn; [done|]. apply IH; [by apply fifo_event_ordered|].
    rewrite <- Hn. destruct e as [x v|x]; simpl; unfold fifo_send, fifo_push, fifo_recv, fifo_pop.
    - destruct (f_closed (h_state h)), (prune (λ _, true) (h_state h)) as [|[? [?|]] ?]; try case_bool_decide; done.
    - destruct (f_buf (h_state h)), (prune (λ _, true) (h_state h)) as [|[? [?|]] ?], (f_closed (h_state h)); done. }
  destruct (Hgen (History (Fifo n [] [] false) [] [])) as [(W&_&Ho) Hn]; [|done|].
  { split_and!; [|done..]. constructor; simpl; try set_solver. lia. }
  split; [exact Ho|]. rewrite <- Hn at 2. apply W.
Qed.
End fifo.
Arguments fifo : clear implicits.
Arguments waiter : clear implicits.
