(* ===== verification/Channel.v ===== *)
(** * Channels (include/snowy/channel.hpp)

    A bounded FIFO for the tasks of one loop.  Waiters are linked to the channel and
    to the loop's wait list; a waiter canceled by the loop stays linked here, inactive,
    until the next operation or its own destructor removes it.  [CInv] relates a channel
    to the contract of [Fifo], its waiters being the active ones. *)
From S2P Require Import Prelude ReadyQueue Links Heap Core Loop LoopInv LoopSpec Fifo.

Section channel.
Context {D T : Type}.

(** [class channel] and its [node], which extends the [wait] at the same address. *)
Record channel := Channel { ch_loop : loopid; ch_ring : ring T; ch_closed : bool;
                            ch_first : option loc; ch_last : option loc }.
Record cnode := CNode { cn_queue : loc; cn_token : token; cn_value : option T;
                        cn_sending : bool; cn_linked : bool }.
Record cworld := CWorld { cw : world D; chans : gmap loc channel; cnodes : gmap loc cnode;
                          clinks : gmap loc (link loc) }.
Local Abbreviation M := (M cworld).
Implicit Types (b x : loc) (v : T) (s : cworld) (g : ghost) (gc : loc → list loc) (c : channel) (n : cnode).

Definition set_cw w s := CWorld w (chans s) (cnodes s) (clinks s).
Definition set_chans m s := CWorld (cw s) m (cnodes s) (clinks s).
Definition set_cnodes m s := CWorld (cw s) (chans s) m (clinks s).
Definition set_clinks m s := CWorld (cw s) (chans s) (cnodes s) m.
Definition set_ch_ring r c := Channel (ch_loop c) r (ch_closed c) (ch_first c) (ch_last c).
Definition set_ch_closed z c := Channel (ch_loop c) (ch_ring c) z (ch_first c) (ch_last c).
Definition set_ch_ends f t c := Channel (ch_loop c) (ch_ring c) (ch_closed c) f t.
Definition set_cn_value o n := CNode (cn_queue n) (cn_token n) o (cn_sending n) (cn_linked n).
Definition set_cn_linked z n := CNode (cn_queue n) (cn_token n) (cn_value n) (cn_sending n) z.

Definition in_loop {A} (k : Prelude.M (world D) A) : M A := zoom (λ s, Some (cw s)) set_cw k.
Definition the_chan b : M channel := deref (λ s, chans s !! b).
Definition upd_chan b (f : channel → channel) : M unit :=
  c ← the_chan b; modify (λ s, set_chans (<[b := f c]> (chans s)) s).
Definition the_cnode x : M cnode := deref (λ s, cnodes s !! x).
Definition upd_cnode x (f : cnode → cnode) : M unit :=
  n ← the_cnode x; modify (λ s, set_cnodes (<[x := f n]> (cnodes s)) s).
Definition value_of {A} (o : option A) : M A := deref (λ _, o).
Definition on_chan {A} b (k : Prelude.M (dl_mem loc) A) : M A :=
  zoom (λ s, c ← chans s !! b; Some (DlMem (clinks s) (ch_first c) (ch_last c)))
       (λ t s, set_clinks (dl_links t)
                 (set_chans (alter (set_ch_ends (dl_first t) (dl_last t)) b (chans s)) s)) k.

(** ** Operations *)

(** [void channel::unlink(node& waiter)] *)
Definition channel_unlink x : M unit :=
  n ← the_cnode x;
  on_chan (cn_queue n) (unlink_back x) ;;
  upd_cnode x (set_cn_linked false).

(** [node* channel::take(bool sending)]: an iteration unlinks a waiter or returns. *)
Fixpoint take_loop (fuel : nat) b (sending : bool) : M (option loc) :=
  c ← the_chan b;
  match ch_first c with
  | None => mret None
  | Some x =>
      o ← in_loop (the_op x);
      st ← in_loop (stopped (ch_loop c));
      if op_active o && negb (op_canceled o) && negb st then
        n ← the_cnode x;
        if eqb (cn_sending n) sending then channel_unlink x ;; mret (Some x) else mret None
      else
        match fuel with
        | O => undefined
        | S fuel' =>
            channel_unlink x ;;
            when (op_active o)
              (in_loop (upd_op x (set_op_error (Some operation_canceled)) ;; notify x)) ;;
            take_loop fuel' b sending
        end
  end.
Definition take b (sending : bool) : M (option loc) :=
  fuel ← gets (λ s, size (clinks s));
  take_loop fuel b sending.

(** [bool channel::push(T& value)] *)
Definition channel_push b v : M bool :=
  f ← take b false;
  match f with
  | Some x =>
      upd_cnode x (set_cn_value (Some v)) ;;
      in_loop (notify x) ;;
      mret true
  | None =>
      c ← the_chan b;
      if ring_full (ch_ring c) then mret false else
        r ← value_of (ring_put v (ch_ring c));
        upd_chan b (set_ch_ring r) ;;
        mret true
  end.

(** [std::optional<T> channel::pop()] *)
Definition channel_pop b : M (option T) :=
  c ← the_chan b;
  value ← (if bool_decide (size_ (ch_ring c) = 0) then mret None else
             vr ← value_of (ring_get (ch_ring c));
             upd_chan b (set_ch_ring vr.2) ;;
             mret (Some vr.1));
  f ← take b true;
  match f with
  | None => mret value
  | Some x =>
      n ← the_cnode x;
      u ← value_of (cn_value n);
      value' ← match value with
               | Some v =>
                   c' ← the_chan b;
                   r ← value_of (ring_put u (ch_ring c'));
                   upd_chan b (set_ch_ring r) ;;
                   mret (Some v)
               | None => mret (Some u)
               end;
      in_loop (notify x) ;;
      mret value'
  end.

(** [bool node::await_suspend(std::coroutine_handle<> h)] *)
Definition channel_await_suspend x (h : coro) : M bool :=
  n ← the_cnode x;
  o ← in_loop (the_op x);
  in_loop (check (op_owner o)) ;;
  st ← in_loop (stopped (op_owner o));
  rq ← in_loop (stop_requested (cn_token n));
  if st || rq then
    in_loop (upd_op x (set_op_error (Some operation_canceled))) ;; mret false
  else
    let block :=
      ok ← in_loop (park x h (cn_token n));
      if negb ok then mret false else
        upd_cnode x (set_cn_linked true) ;;
        on_chan (cn_queue n) (link_back x) ;;
        mret true in
    c ← the_chan (cn_queue n);
    if cn_sending n then
      if ch_closed c then
        in_loop (upd_op x (set_op_error (Some broken_pipe))) ;; mret false
      else
        v ← value_of (cn_value n);
        ok ← channel_push (cn_queue n) v;
        if ok : bool then mret false else block
    else
      received ← channel_pop (cn_queue n);
      match received with
      | Some v => upd_cnode x (set_cn_value (Some v)) ;; mret false
      | None =>
          c ← the_chan (cn_queue n);
          if ch_closed c then mret false else block
      end.

(** [bool channel::try_send(T& value)], [std::optional<T> channel::try_recv()],
    [bool channel::closed() const] *)
Definition channel_try_send b v : M bool :=
  c ← the_chan b;
  in_loop (check (ch_loop c)) ;;
  if ch_closed c then mret false else
    st ← in_loop (stopped (ch_loop c));
    if st : bool then mret false else channel_push b v.
Definition channel_try_recv b : M (option T) :=
  c ← the_chan b;
  in_loop (check (ch_loop c)) ;;
  st ← in_loop (stopped (ch_loop c));
  if st : bool then mret None else channel_pop b.
Definition channel_closed b : M bool :=
  c ← the_chan b;
  in_loop (check (ch_loop c)) ;;
  mret (ch_closed c).

(** [void channel::close()]: the body of its loop on the first waiter, then the loop. *)
Definition close_one x : M unit :=
  channel_unlink x ;;
  o ← in_loop (the_op x);
  n ← the_cnode x;
  when (op_active o)
    (when (cn_sending n) (in_loop (upd_op x (set_op_error (Some broken_pipe)))) ;;
     in_loop (notify x)).
Fixpoint close_loop (fuel : nat) b : M unit :=
  c ← the_chan b;
  match ch_first c, fuel with
  | None, _ => mret tt
  | Some _, O => undefined
  | Some x, S fuel' => close_one x ;; close_loop fuel' b
  end.
Definition channel_close b : M unit :=
  c ← the_chan b;
  in_loop (check (ch_loop c)) ;;
  upd_chan b (set_ch_closed true) ;;
  fuel ← gets (λ s, size (clinks s));
  close_loop fuel b.

(** [~channel()]; [~node()], then [~op()] *)
Definition channel_destroy b : M unit :=
  c ← the_chan b;
  match ch_first c with Some _ => terminate | None => mret tt end.
Definition cnode_destroy x : M unit :=
  n ← the_cnode x;
  when (cn_linked n) (channel_unlink x) ;;
  in_loop (op_destroy x) ;;
  modify (λ s, set_cnodes (delete x (cnodes s)) s).

(** ** Invariant

    [gc b] are the nodes linked to [b]; [Y] are active nodes being handed a value. *)
Implicit Types Y : gset loc.
Record CLinks Y s g gc : Prop := {
  cl_inv : Inv ∅ (cw s) g;
  cl_rep b c : chans s !! b = Some c → dl_rep2 (clinks s) (ch_first c) (ch_last c) (gc b);
  cl_linked b x : x ∈ gc b → ∃ n, cnodes s !! x = Some n ∧ cn_queue n = b ∧ cn_linked n = true;
  cl_found x n : cnodes s !! x = Some n → cn_linked n = true → x ∈ gc (cn_queue n);
  cl_node x n : cnodes s !! x = Some n →
    is_Some (w_waits (cw s) !! x) ∧ is_Some (clinks s !! x) ∧ (cn_sending n = true → is_Some (cn_value n)) ∧
    ∃ c o, chans s !! cn_queue n = Some c ∧ w_ops (cw s) !! x = Some o ∧ op_owner o = ch_loop c ∧
           (op_active o = true → cn_linked n = true ∨ x ∈ Y);
  cl_between x : x ∈ Y → ∃ n, cnodes s !! x = Some n ∧ cn_linked n = false }.

Definition active_in s x : bool := match w_ops (cw s) !! x with Some o => op_active o | None => false end.
Definition stopping_in s b : bool :=
  match chans s !! b with
  | Some c => match w_loops (cw s) !! ch_loop c with Some l => l_stopping l | None => false end
  | None => false
  end.
(** A waiter that a value may still be handed to. *)
Definition live_on s b x : bool :=
  match w_ops (cw s) !! x with
  | Some o => op_active o && negb (op_canceled o) && negb (stopping_in s b)
  | None => false
  end.
Definition cpayload s x : option T :=
  match cnodes s !! x with Some n => if cn_sending n then cn_value n else None | None => None end.
Definition cwaiters s (xs : list loc) : list (waiter T) :=
  (λ x, (x, cpayload s x)) <$> filter (λ x, active_in s x = true) xs.

Record CAbs s gc b c (st : fifo T) : Prop := {
  ca_ring : ring_rep (ch_ring c) (f_buf st);
  ca_cap : f_cap st = length (slots (ch_ring c));
  ca_waiters : f_waiters st = cwaiters s (gc b);
  ca_closed : f_closed st = ch_closed c }.
Record CInv s g gc : Prop := {
  ci_links : CLinks ∅ s g gc;
  ci_chan b c : chans s !! b = Some c → ∃ st, CAbs s gc b c st ∧ fifo_wf st }.

(** ** Rules for the accessors *)
Lemma post_in_loop {A} (k : Prelude.M (world D) A) s (Q : A → cworld → Prop) (E : exn → cworld → Prop) :
  post k (cw s) (λ a w', Q a (set_cw w' s)) (λ e w', E e (set_cw w' s)) → post (in_loop k) s Q E.
Proof. intros H. unfold in_loop. by eapply post_zoom. Qed.
Lemma post_the_chan b c s (Q : channel → cworld → Prop) (E : exn → cworld → Prop) :
  chans s !! b = Some c → Q c s → post (the_chan b) s Q E.
Proof. intros. by eapply post_deref. Qed.
Lemma post_upd_chan b c f s (Q : unit → cworld → Prop) (E : exn → cworld → Prop) :
  chans s !! b = Some c → Q tt (set_chans (<[b := f c]> (chans s)) s) → post (upd_chan b f) s Q E.
Proof. intros. apply post_bind. by eapply post_the_chan, post_modify. Qed.
Lemma post_the_cnode x n s (Q : cnode → cworld → Prop) (E : exn → cworld → Prop) :
  cnodes s !! x = Some n → Q n s → post (the_cnode x) s Q E.
Proof. intros. by eapply post_deref. Qed.
Lemma post_upd_cnode x n f s (Q : unit → cworld → Prop) (E : exn → cworld → Prop) :
  cnodes s !! x = Some n → Q tt (set_cnodes (<[x := f n]> (cnodes s)) s) → post (upd_cnode x f) s Q E.
Proof. intros. apply post_bind. by eapply post_the_cnode, post_modify. Qed.
Lemma post_value {A} (o : option A) a s (Q : A → cworld → Prop) (E : exn → cworld → Prop) :
  o = Some a → Q a s → post (value_of o) s Q E.
Proof. intros. by eapply post_deref. Qed.
Lemma post_on_chan {A} (k : Prelude.M (dl_mem loc) A) b c a t s (Q : A → cworld → Prop) (E : exn → cworld → Prop) :
  chans s !! b = Some c → k (DlMem (clinks s) (ch_first c) (ch_last c)) = Ret a t →
  Q a (set_clinks (dl_links t) (set_chans (alter (set_ch_ends (dl_first t) (dl_last t)) b (chans s)) s)) →
  post (on_chan b k) s Q E.
Proof.
  intros Hc Hk HQ. unfold on_chan. eapply post_zoom; [by rewrite Hc|]. unfold post. by rewrite Hk.
Qed.
Lemma set_cw_id s : set_cw (cw s) s = s.
Proof. by destruct s. Qed.
(** Reading the world through [in_loop]. *)
Lemma post_loop_read {A} (k : Prelude.M (world D) A) a s (Q : A → cworld → Prop) (E : exn → cworld → Prop) :
  k (cw s) = Ret a (cw s) → Q a s → post (in_loop k) s Q E.
Proof. intros Hk HQ. apply post_in_loop. unfold post. rewrite Hk. by rewrite set_cw_id. Qed.
Lemma the_op_run x o (w : world D) : w_ops w !! x = Some o → the_op x w = Ret o w.
Proof. intros Ho. unfold the_op, deref. by rewrite Ho. Qed.
Lemma stopped_run L l (w : world D) : w_loops w !! L = Some l → stopped L w = Ret (l_stopping l) w.
Proof. intros HL. unfold stopped, the_loop, deref, mbind, M_bind. by rewrite HL. Qed.

(** ** Steps on the links *)
Definition cunlinked s b l1 l2 x n : cworld :=
  set_cnodes (<[x := set_cn_linked false n]> (cnodes s))
    (set_clinks (unlinked (clinks s) l1 l2)
      (set_chans (alter (set_ch_ends (head (l1 ++ l2)) (last (l1 ++ l2))) b (chans s)) s)).

Lemma CLinks_unlinked Y s g gc x n l1 l2 :
  CLinks Y s g gc → cnodes s !! x = Some n → cn_linked n = true → gc (cn_queue n) = l1 ++ x :: l2 →
  CLinks (Y ∪ {[x]}) (cunlinked s (cn_queue n) l1 l2 x n) g (upd_at (cn_queue n) (without x) gc).
Proof.
  intros C Hn Hl Hgc. destruct (cl_node _ _ _ _ C _ _ Hn) as (Hw&Hk&Hval&c&o&Hc&Ho&Hown&Hact).
  destruct (cl_rep _ _ _ _ C _ _ Hc) as [Hrep Hlast]. rewrite Hgc in Hrep, Hlast.
  pose proof (dl_rep_NoDup _ _ _ Hrep) as Hnd.
  assert (Hother : ∀ b y, b ≠ cn_queue n → y ∈ gc b → y ∉ l1 ++ x :: l2).
  { intros b y Hne Hy Hy'. rewrite <- Hgc in Hy'.
    destruct (cl_linked _ _ _ _ C _ _ Hy) as (?&?&?&_), (cl_linked _ _ _ _ C _ _ Hy') as (?&?&?&_). congruence. }
  constructor; simpl; [apply C| | | | |].
  - intros b c' [(<-&c0&?&->)|[Hne Hc']]%lookup_alter_Some; simpl.
    + rewrite upd_at_eq, Hgc, without_middle by done. split; [|done]. eapply unlink_rep.
      by rewrite <- (dl_rep_head _ _ _ Hrep).
    + rewrite upd_at_ne by done. destruct (cl_rep _ _ _ _ C _ _ Hc') as [Hrep' ?]. split; [|done].
      eapply dl_rep_frame, Hrep'. intros y Hy. apply unlinked_other. specialize (Hother b y). set_solver.
  - intros b y Hy. assert (y ≠ x ∧ y ∈ gc b) as [Hne Hy'].
    { unfold upd_at in Hy. case_decide as Hb; [apply elem_of_without in Hy; naive_solver|]. split; [|done].
      intros ->. apply (Hother _ _ Hb Hy). set_solver. }
    rewrite lookup_insert_ne by done. by apply (cl_linked _ _ _ _ C).
  - intros y ny [[<- <-]|[Hne Hy]]%lookup_insert_Some; simpl; [done|]. intros Hl'.
    pose proof (cl_found _ _ _ _ C _ _ Hy Hl') as Hf. unfold upd_at. case_decide as Hd; [|done].
    apply elem_of_without. split; [done|congruence].
  - intros y ny Hy. assert (∃ n0, cnodes s !! y = Some n0 ∧ cn_queue n0 = cn_queue ny ∧ cn_sending n0 = cn_sending ny ∧
      cn_value n0 = cn_value ny ∧ (cn_linked n0 = true → cn_linked ny = true ∨ y = x)) as (n0&Hn0&Eq&Es&Ev&El).
    { apply lookup_insert_Some in Hy as [[<- <-]|[? ?]]; [exists n|exists ny]; naive_solver. }
    destruct (cl_node _ _ _ _ C _ _ Hn0) as (?&?&?&c0&o0&Hc0&?&?&Ha0). rewrite Eq in Hc0.
    rewrite unlinked_is_Some, <- Es, <- Ev. split_and!; [done..|].
    assert (∃ c1, alter (set_ch_ends (head (l1 ++ l2)) (last (l1 ++ l2))) (cn_queue n) (chans s) !! cn_queue ny = Some c1
      ∧ ch_loop c1 = ch_loop c0) as (c1&Hc1&Hloop).
    { destruct (decide (cn_queue n = cn_queue ny)) as [->|]; [rewrite lookup_alter_eq, Hc0|rewrite lookup_alter_ne by done]; eauto. }
    exists c1, o0. split_and!; [done|done|congruence|]. intros Ha. destruct (Ha0 Ha) as [Hl0|]; [|set_solver].
    destruct (El Hl0) as [| ->]; set_solver.
  - intros y [Hy| ->%elem_of_singleton]%elem_of_union.
    + destruct (cl_between _ _ _ _ C _ Hy) as (ny&?&?). exists ny. rewrite lookup_insert_ne; [done|]. congruence.
    + rewrite lookup_insert_eq. eauto.
Qed.

Lemma channel_unlink_spec Y s g gc x n :
  CLinks Y s g gc → cnodes s !! x = Some n → cn_linked n = true →
  runs (channel_unlink x) s (λ _ s', ∃ l1 l2, gc (cn_queue n) = l1 ++ x :: l2 ∧
    s' = cunlinked s (cn_queue n) l1 l2 x n ∧
    CLinks (Y ∪ {[x]}) s' g (upd_at (cn_queue n) (without x) gc)).
Proof.
  intros C Hn Hl. destruct (cl_node _ _ _ _ C _ _ Hn) as (_&_&_&c&_&Hc&_).
  pose proof (cl_found _ _ _ _ C _ _ Hn Hl) as Hx. destruct (elem_of_split _ _ Hx) as (l1&l2&Hgc).
  destruct (cl_rep _ _ _ _ C _ _ Hc) as [Hrep Hlast]. rewrite Hgc in Hrep, Hlast.
  unfold channel_unlink. apply post_bind. eapply post_the_cnode; [done|]. apply post_bind.
  eapply post_on_chan; [done| |].
  { rewrite (dl_rep_head _ _ _ Hrep), Hlast. apply unlink_back_run. by rewrite <- (dl_rep_head _ _ _ Hrep). }
  simpl. apply (post_upd_cnode x n); [exact Hn|]. exists l1, l2.
  split_and!; [done|done|exact (CLinks_unlinked _ _ _ _ _ _ _ _ C Hn Hl Hgc)].
Qed.

(** A change of the world that keeps every node's owner. *)
Lemma CLinks_world Y Y' s g g' gc w' :
  CLinks Y s g gc → Inv ∅ w' g' → w_waits w' = w_waits (cw s) → Y' ⊆ Y →
  (∀ x n o, cnodes s !! x = Some n → w_ops (cw s) !! x = Some o →
     ∃ o', w_ops w' !! x = Some o' ∧ op_owner o' = op_owner o ∧
           (op_active o' = true → op_active o = true ∧ (x ∈ Y → x ∈ Y'))) →
  CLinks Y' (set_cw w' s) g' gc.
Proof.
  intros C I' Hw HY Hops. constructor; simpl; try apply C; [done| |].
  - intros x n Hn. destruct (cl_node _ _ _ _ C _ _ Hn) as (?&?&?&c&o&?&Ho&?&Ha). rewrite Hw. split_and!; [done..|].
    destruct (Hops x n o Hn Ho) as (o'&?&?&Ha'). exists c, o'. split_and!; [done|done|congruence|].
    intros H'. destruct (Ha' H') as [Hao HYY]. destruct (Ha Hao); [by left|right; auto].
  - intros x Hx. apply (cl_between _ _ _ _ C). set_solver.
Qed.

Definition g_notifies L (xs : list loc) (g : ghost) : ghost := foldl (λ g x, g_notify L x g) g xs.
Lemma g_notifies_ready L xs g : a_ready (g_notifies L xs g L) = a_ready (g L) ++ xs.
Proof.
  unfold g_notifies. revert g. induction xs as [|x xs IH]; intros g; simpl; [by rewrite app_nil_r|].
  rewrite IH. unfold g_notify. rewrite upd_g_eq. simpl. by rewrite <- app_assoc.
Qed.

(** Resuming an active node that is no longer linked. *)
Lemma cnode_notify_spec Y s g gc x n o :
  CLinks Y s g gc → cnodes s !! x = Some n → w_ops (cw s) !! x = Some o → op_active o = true →
  runs (notify x) (cw s) (λ _ w',
    CLinks (Y ∖ {[x]}) (set_cw w' s) (g_notify (op_owner o) x g) gc ∧
    w_ops w' = <[x := retired o]> (w_ops (cw s)) ∧ frame (cw s) w' ∧
    ∀ y, y ∉ a_waits (g (op_owner o)) → w_wlinks w' !! y = w_wlinks (cw s) !! y).
Proof.
  intros C Hn Ho Ha. destruct (cl_node _ _ _ _ C _ _ Hn) as (Hw&_&_&_).
  eapply post_mono; [eapply notify_spec_links; [apply C|done|]; eapply active_wait; [apply C|done..]| |done].
  intros _ w' (I'&Hops&F&Hwl). split_and!; [|done|done|done].
  eapply CLinks_world; [exact C|done|by destruct F as [-> _]|set_solver|].
  intros y ny oy Hy Hoy. rewrite Hops. destruct (decide (x = y)) as [<-|Hne].
  - rewrite lookup_insert_eq. simplify_eq. eexists. split_and!; done.
  - rewrite lookup_insert_ne by done. exists oy. split_and!; [done..|]. intros ->. set_solver.
Qed.

(** ** Pruning canceled waiters *)
Definition ops_canceled (xs : list loc) (m : gmap loc op) : gmap loc op :=
  map_imap (λ x o, Some (if bool_decide (x ∈ xs) && op_active o then retired (refused o) else o)) m.
Definition nodes_unlinked (xs : list loc) (m : gmap loc cnode) : gmap loc cnode :=
  map_imap (λ x n, Some (if bool_decide (x ∈ xs) then set_cn_linked false n else n)) m.
Lemma ops_canceled_lookup xs m x :
  ops_canceled xs m !! x =
    (λ o, if bool_decide (x ∈ xs) && op_active o then retired (refused o) else o) <$> m !! x.
Proof. unfold ops_canceled. rewrite map_lookup_imap. by destruct (m !! x). Qed.
Lemma nodes_unlinked_lookup xs m x :
  nodes_unlinked xs m !! x = (λ n, if bool_decide (x ∈ xs) then set_cn_linked false n else n) <$> m !! x.
Proof. unfold nodes_unlinked. rewrite map_lookup_imap. by destruct (m !! x). Qed.

Abbreviation actives s xs := (filter (λ x, active_in s x = true) xs).

Record pruned_to Y s s' g gc b c pre rest : Prop := {
  pt_links : CLinks Y s' (g_notifies (ch_loop c) (actives s pre) g) (upd_at b (λ _, rest) gc);
  pt_ops : w_ops (cw s') = ops_canceled pre (w_ops (cw s));
  pt_nodes : cnodes s' = nodes_unlinked pre (cnodes s);
  pt_chans : ∃ f t, chans s' = <[b := set_ch_ends f t c]> (chans s);
  pt_frame : frame (cw s) (cw s');
  pt_wlinks y : y ∉ a_waits (g (ch_loop c)) → w_wlinks (cw s') !! y = w_wlinks (cw s) !! y;
  pt_clinks y : y ∉ gc b → clinks s' !! y = clinks s !! y }.

Lemma CLinks_ext Y s g g' gc gc' :
  (∀ L, g L = g' L) → (∀ b, gc b = gc' b) → CLinks Y s g gc → CLinks Y s g' gc'.
Proof.
  intros Hg Hc []. constructor; intros *; rewrite <- ?Hc; eauto. by eapply Inv_ext.
Qed.

Lemma pruned_nil Y s g gc b c rest :
  CLinks Y s g gc → chans s !! b = Some c → gc b = rest → pruned_to Y s s g gc b c [] rest.
Proof.
  intros C Hc <-. split; try done.
  - eapply CLinks_ext, C; [done|]. intros b'. unfold upd_at. case_decide; by subst.
  - apply map_eq. intros y. rewrite ops_canceled_lookup, bool_decide_false by set_solver.
    by destruct (w_ops (cw s) !! y).
  - apply map_eq. intros y. rewrite nodes_unlinked_lookup, bool_decide_false by set_solver.
    by destruct (cnodes s !! y).
  - exists (ch_first c), (ch_last c). by rewrite insert_id; destruct c.
Qed.

(** Pruning one waiter [x]. *)
Record pruned_one s s1 g g1 gc b c x o n : Prop := {
  po_ghost : g1 = (if op_active o then g_notify (ch_loop c) x g else g);
  po_ops : w_ops (cw s1) = <[x := if op_active o then retired (refused o) else o]> (w_ops (cw s));
  po_nodes : cnodes s1 = <[x := set_cn_linked false n]> (cnodes s);
  po_chans : ∃ f t, chans s1 = <[b := set_ch_ends f t c]> (chans s);
  po_frame : frame (cw s) (cw s1);
  po_wlinks y : y ∉ a_waits (g (ch_loop c)) → w_wlinks (cw s1) !! y = w_wlinks (cw s) !! y;
  po_clinks y : y ∉ gc b → clinks s1 !! y = clinks s !! y }.

Lemma actives_ext s s1 x (xs : list loc) :
  x ∉ xs → (∀ y, y ≠ x → w_ops (cw s1) !! y = w_ops (cw s) !! y) → actives s1 xs = actives s xs.
Proof.
  intros Hx Hops. induction xs as [|y xs IH]; [done|]. rewrite !filter_cons, IH by set_solver.
  unfold active_in. rewrite Hops by set_solver. done.
Qed.

Lemma pruned_ghost s s1 g g1 gc b c x o n pre L :
  x ∉ pre → w_ops (cw s) !! x = Some o → pruned_one s s1 g g1 gc b c x o n →
  g_notifies (ch_loop c) (actives s1 pre) g1 L = g_notifies (ch_loop c) (actives s (x :: pre)) g L.
Proof.
  intros Hx Ho [Hg1 Hops1 _ _ _ _ _]. rewrite (actives_ext s s1 x pre Hx), Hg1.
  2:{ intros y Hy. rewrite Hops1. by apply lookup_insert_ne. }
  assert (Hax : active_in s x = op_active o) by (unfold active_in; by rewrite Ho).
  destruct (op_active o); [rewrite filter_cons_True by done|rewrite filter_cons_False by (by rewrite Hax)]; done.
Qed.

Lemma pruned_cons Y s s1 s' g g1 gc b c c1 x o n pre rest :
  x ∉ pre → w_ops (cw s) !! x = Some o → cnodes s !! x = Some n → pruned_one s s1 g g1 gc b c x o n →
  chans s1 !! b = Some c1 →
  pruned_to Y s1 s' g1 (upd_at b (without x) gc) b c1 pre rest →
  pruned_to Y s s' g gc b c (x :: pre) rest.
Proof.
  intros Hx Ho Hn P Hc1 [C Hops Hns (f&t&Hcs) F Hwl Hcl].
  pose proof P as [Hg1 Hops1 Hns1 (f1&t1&Hcs1) F1 Hwl1 Hcl1].
  assert (c1 = set_ch_ends f1 t1 c) as -> by (rewrite Hcs1, lookup_insert_eq in Hc1; congruence). simpl in *.
  assert (Hops1' : ∀ y, y ≠ x → w_ops (cw s1) !! y = w_ops (cw s) !! y).
  { intros y Hy. rewrite Hops1. by apply lookup_insert_ne. }
  assert (Hsub : ∀ y, y ∉ a_waits (g (ch_loop c)) → y ∉ a_waits (g1 (ch_loop c))).
  { intros y Hy. rewrite Hg1. destruct (op_active o); [|done]. unfold g_notify. rewrite upd_g_eq. simpl.
    rewrite elem_of_without. tauto. }
  split.
  - eapply CLinks_ext, C.
    + intros L. by eapply pruned_ghost.
    + intros b'. unfold upd_at. by case_decide.
  - rewrite Hops. apply map_eq. intros y. rewrite !ops_canceled_lookup. destruct (decide (y = x)) as [->|Hne].
    + rewrite Hops1, lookup_insert_eq, Ho. simpl. rewrite bool_decide_false, bool_decide_true by set_solver.
      simpl. by destruct (op_active o).
    + rewrite Hops1' by done. destruct (w_ops (cw s) !! y); [|done]. simpl.
      by rewrite (bool_decide_ext (y ∈ x :: pre) (y ∈ pre)) by set_solver.
  - rewrite Hns, Hns1. apply map_eq. intros y. rewrite !nodes_unlinked_lookup. destruct (decide (y = x)) as [->|Hne].
    + rewrite lookup_insert_eq, Hn. simpl. rewrite bool_decide_false, bool_decide_true by set_solver. done.
    + rewrite lookup_insert_ne by done. destruct (cnodes s !! y); [|done]. simpl.
      by rewrite (bool_decide_ext (y ∈ x :: pre) (y ∈ pre)) by set_solver.
  - exists f, t. rewrite Hcs, Hcs1. by rewrite insert_insert_eq.
  - by etrans.
  - intros y Hy. rewrite Hwl by auto. auto.
  - intros y Hy. rewrite Hcl, Hcl1; [done|done|]. rewrite upd_at_eq, elem_of_without. tauto.
Qed.

Lemma insert_alter {A} (m : gmap loc A) (f : A → A) i a : m !! i = Some a → alter f i m = <[i := f a]> m.
Proof.
  intros Hi. apply map_eq. intros j. destruct (decide (i = j)) as [<-|].
  - by rewrite lookup_alter_eq, Hi, lookup_insert_eq.
  - by rewrite lookup_alter_ne, lookup_insert_ne.
Qed.

Lemma prune_one_spec Y s g gc b c x o n :
  CLinks Y s g gc → chans s !! b = Some c → cnodes s !! x = Some n → cn_queue n = b → cn_linked n = true →
  w_ops (cw s) !! x = Some o → x ∉ Y →
  runs (channel_unlink x ;;
        when (op_active o) (in_loop (upd_op x (set_op_error (Some operation_canceled)) ;; notify x))) s
    (λ _ s1, ∃ g1, pruned_one s s1 g g1 gc b c x o n ∧ CLinks Y s1 g1 (upd_at b (without x) gc)).
Proof.
  intros C Hc Hn Hq Hl Ho HY. apply post_bind.
  eapply post_mono; [by apply (channel_unlink_spec Y s g gc x n C Hn Hl)| |done].
  rewrite Hq. intros _ s1 (l1&l2&Hgc&->&C1).
  destruct (cl_node _ _ _ _ C _ _ Hn) as (_&_&_&c0&o0&Hc0&Ho0&Hown&_). rewrite Hq in Hc0. simplify_eq.
  assert (Hcl : ∀ y, y ∉ gc (cn_queue n) → unlinked (clinks s) l1 l2 !! y = clinks s !! y).
  { intros y Hy. apply unlinked_other. rewrite Hgc in Hy. set_solver. }
  assert (Hch : alter (set_ch_ends (head (l1 ++ l2)) (last (l1 ++ l2))) (cn_queue n) (chans s) =
    <[cn_queue n := set_ch_ends (head (l1 ++ l2)) (last (l1 ++ l2)) c]> (chans s)) by (by apply insert_alter).
  assert (HYx : (Y ∪ {[x]}) ∖ {[x]} = Y) by set_solver.
  apply post_when; intros Ha.
  - apply post_in_loop. simpl. step. simpl. set (w1 := set_w_ops _ (cw s)).
    assert (C2 : CLinks (Y ∪ {[x]}) (set_cw w1 (cunlinked s (cn_queue n) l1 l2 x n)) g (upd_at (cn_queue n) (without x) gc)).
    { eapply CLinks_world; [exact C1|eapply Inv_upd_op; [apply C|done..]|done|done|].
      intros y ny oy Hy Hoy. simpl. destruct (decide (x = y)) as [<-|Hne].
      - rewrite lookup_insert_eq. simpl in Hoy. simplify_eq. eexists. split_and!; done.
      - rewrite lookup_insert_ne by done. exists oy. split_and!; try done. }
    eapply post_mono; [eapply (cnode_notify_spec _ _ _ _ x _ (refused o) C2); [apply lookup_insert_eq|apply lookup_insert_eq|done]| |done].
    rewrite HYx. intros _ w2 (C3&Hops&F&Hwl). eexists. split; [|exact C3]. split; rewrite ?Ha; simpl.
    + by rewrite <- Hown.
    + rewrite Hops. simpl. by rewrite insert_insert_eq.
    + done.
    + eauto.
    + etrans; [apply frame_ops|exact F].
    + rewrite <- Hown. exact Hwl.
    + exact Hcl.
  - exists g. split.
    + split; rewrite ?Ha; simpl; try done; eauto. by rewrite insert_id.
    + rewrite <- (set_cw_id (cunlinked _ _ _ _ _ _)). eapply CLinks_world; [exact C1|apply C|done|set_solver|].
      intros y ny oy Hy Hoy. exists oy. split_and!; try done. intros Hay. split; [done|].
      intros [?| ->%elem_of_singleton]%elem_of_union; [done|]. simpl in Hoy. congruence.
Qed.

Lemma live_on_frame s s' b x :
  frame (cw s) (cw s') → ch_loop <$> chans s' !! b = ch_loop <$> chans s !! b →
  w_ops (cw s') !! x = w_ops (cw s) !! x → live_on s' b x = live_on s b x.
Proof.
  intros [_ F] Hc Hx. unfold live_on. rewrite Hx. destruct (w_ops (cw s) !! x); [|done]. f_equal. f_equal.
  unfold stopping_in. destruct (chans s' !! b) as [c'|], (chans s !! b) as [c|]; try done. simpl in Hc.
  injection Hc as ->. specialize (F (ch_loop c)).
  destruct (w_loops (cw s) !! ch_loop c), (w_loops (cw s') !! ch_loop c); simpl in F; try done. by rewrite F.
Qed.

Abbreviation dead_on s b := (λ x, negb (live_on s b x)).

(** [take]: dead waiters are removed and canceled; the first live one is unlinked and
    returned when it goes the right way. *)
Definition taken Y s1 s' g1 gc1 b (sending : bool) (rest : list loc) (res : option loc) : Prop :=
  match rest with
  | [] => res = None ∧ s' = s1
  | x :: rest' => ∃ n, cnodes s1 !! x = Some n ∧
      if eqb (cn_sending n) sending
      then res = Some x ∧ s' = cunlinked s1 b [] rest' x n ∧ CLinks (Y ∪ {[x]}) s' g1 (upd_at b (λ _, rest') gc1)
      else res = None ∧ s' = s1
  end.

Lemma take_loop_spec fuel Y s g gc b c sending :
  CLinks Y s g gc → chans s !! b = Some c → (∀ x, x ∈ gc b → x ∉ Y) → length (gc b) ≤ fuel →
  runs (take_loop fuel b sending) s (λ res s', ∃ s1,
    let pre := take_while (dead_on s b) (gc b) in let rest := drop_while (dead_on s b) (gc b) in
    pruned_to Y s s1 g gc b c pre rest ∧
    taken Y s1 s' (g_notifies (ch_loop c) (actives s pre) g) (upd_at b (λ _, rest) gc) b sending rest res).
Proof.
  revert s g gc c. induction fuel as [|fuel IH]; intros s g gc c C Hc HY Hlen;
    destruct (cl_rep _ _ _ _ C _ _ Hc) as [Hrep _]; pose proof (dl_rep_head _ _ _ Hrep) as Hh.
  all: destruct (gc b) as [|x xs] eqn:Hgc; simpl in Hlen; try lia.
  1,2: simpl; apply post_bind; eapply post_the_chan; [done|]; rewrite Hh; apply post_ret; exists s; split; [by apply pruned_nil|done].
  assert (Hx : x ∈ gc b) by (rewrite Hgc; set_solver).
  destruct (cl_linked _ _ _ _ C _ _ Hx) as (n&Hn&Hq&Hl).
  destruct (cl_node _ _ _ _ C _ _ Hn) as (_&_&_&c0&o&Hc0&Ho&Hown&_). rewrite Hq in Hc0. simplify_eq.
  destruct (inv_op _ _ _ (cl_inv _ _ _ _ C) _ _ Ho) as [[l HL] _]. rewrite Hown in HL.
  assert (Hlive : live_on s (cn_queue n) x = op_active o && negb (op_canceled o) && negb (l_stopping l)).
  { unfold live_on, stopping_in. by rewrite Ho, Hc, HL. }
  simpl. apply post_bind. eapply post_the_chan; [done|]. rewrite Hh. simpl.
  apply post_bind. eapply post_loop_read; [by apply the_op_run|].
  apply post_bind. eapply post_loop_read; [by apply stopped_run|]. rewrite <- Hlive.
  destruct (live_on s (cn_queue n) x) eqn:Hlx; simpl.
  - apply post_bind. eapply post_the_cnode; [done|]. destruct (eqb (cn_sending n) sending) eqn:Hs.
    + apply post_bind. eapply post_mono; [by apply (channel_unlink_spec Y s g gc x n C Hn Hl)| |done].
      intros _ s' (l1&l2&Hgc'&->&C'). apply post_ret.
      assert (l1 = [] ∧ l2 = xs) as [-> ->].
      { rewrite Hgc in Hgc'. apply dl_rep_NoDup in Hrep. rewrite Hgc' in Hrep. destruct l1 as [|y l1]; [by simplify_eq/=|].
        simplify_eq/=. apply NoDup_cons in Hrep as [Hni _]. set_solver. }
      exists s. split; [by apply pruned_nil|]. exists n. rewrite Hs. split_and!; [done..|].
      eapply CLinks_ext, C'; [done|]. intros b'. unfold upd_at. case_decide; [|done].
      rewrite Hgc. apply (without_middle []). simpl. by eapply dl_rep_NoDup.
    + apply post_ret. exists s. split; [by apply pruned_nil|]. exists n. by rewrite Hs.
  - apply post_seq2. eapply post_mono; [apply (prune_one_spec Y s g gc (cn_queue n) c x o n C Hc Hn eq_refl Hl Ho)| |done].
    { apply HY. set_solver. }
    intros [] s1 (g1&P&C1). pose proof P as [Hg1 Hops1 _ (f&t&Hcs1) F1 _ _].
    pose proof (dl_rep_NoDup _ _ _ Hrep) as Hnd. pose proof Hnd as [Hni _]%NoDup_cons.
    assert (Hxs : upd_at (cn_queue n) (without x) gc (cn_queue n) = xs).
    { rewrite upd_at_eq, Hgc. by apply (without_middle []). }
    assert (Hc1 : chans s1 !! cn_queue n = Some (set_ch_ends f t c)) by (rewrite Hcs1; apply lookup_insert_eq).
    assert (Hdd : ∀ y, y ∈ xs → dead_on s1 (cn_queue n) y = dead_on s (cn_queue n) y).
    { intros y Hy. f_equal. apply live_on_frame; [done|by rewrite Hc1, Hc|].
      rewrite Hops1. apply lookup_insert_ne. set_solver. }
    assert (Hpre : x ∉ take_while (dead_on s1 (cn_queue n)) xs).
    { intros Hx'. apply Hni. rewrite <- (take_drop_while (dead_on s1 (cn_queue n)) xs). set_solver. }
    eapply post_mono; [eapply (IH s1 g1 _ _ C1 Hc1)| |done].
    + rewrite Hxs. intros y Hy. apply HY. set_solver.
    + rewrite Hxs. lia.
    + rewrite Hxs. cbv zeta. intros res s' (s2&R&Tk). exists s2.
      rewrite <- (take_while_ext _ _ _ Hdd), <- (drop_while_ext _ _ _ Hdd). split.
      * eapply pruned_cons; [exact Hpre|exact Ho|exact Hn|exact P|exact Hc1|exact R].
      * unfold taken in *. destruct (drop_while _ xs) as [|y rest]; [done|].
        destruct Tk as (ny&?&Hm). exists ny. split; [done|]. destruct (eqb (cn_sending ny) sending); [|done].
        destruct Hm as (->&->&C3). split_and!; [done..|]. eapply CLinks_ext, C3.
        -- intros L. exact (pruned_ghost _ _ _ _ _ _ _ _ _ _ _ L Hpre Ho P).
        -- intros b'. unfold upd_at. by case_decide.
Qed.

Lemma take_spec Y s g gc b c sending :
  CLinks Y s g gc → chans s !! b = Some c → (∀ x, x ∈ gc b → x ∉ Y) →
  runs (take b sending) s (λ res s', ∃ s1,
    let pre := take_while (dead_on s b) (gc b) in let rest := drop_while (dead_on s b) (gc b) in
    pruned_to Y s s1 g gc b c pre rest ∧
    taken Y s1 s' (g_notifies (ch_loop c) (actives s pre) g) (upd_at b (λ _, rest) gc) b sending rest res).
Proof.
  intros C Hc HY. unfold take. apply post_bind, post_gets. apply take_loop_spec; [done..|].
  destruct (cl_rep _ _ _ _ C _ _ Hc) as [Hrep _].
  apply NoDup_length_le_size; [by eapply dl_rep_NoDup|]. intros y Hy. by eapply dl_rep_lookup.
Qed.

(** ** Steps of the contract *)
Lemma cwaiters_ext s s' (xs : list loc) :
  (∀ x, x ∈ xs → cpayload s' x = cpayload s x ∧ active_in s' x = active_in s x) → cwaiters s' xs = cwaiters s xs.
Proof.
  intros Hxs. unfold cwaiters. induction xs as [|x xs IH]; [done|].
  destruct (Hxs x) as [Hp Ha]; [set_solver|]. specialize (IH ltac:(set_solver)).
  rewrite !filter_cons, Ha. destruct (decide (active_in s x = true)); [|done].
  rewrite !fmap_cons, Hp, IH. done.
Qed.

Lemma prune_cwaiters s b xs st :
  f_waiters st = cwaiters s xs → prune (live_on s b) st = cwaiters s (drop_while (dead_on s b) xs).
Proof.
  intros Hw. unfold prune. rewrite Hw. unfold cwaiters. clear. induction xs as [|x xs IH]; [done|].
  assert (Hla : live_on s b x = true → active_in s x = true).
  { unfold live_on, active_in. destruct (w_ops (cw s) !! x) as [o|]; [|done]. by destruct (op_active o). }
  simpl. destruct (live_on s b x) eqn:Hl; simpl.
  - rewrite filter_cons_True by auto. simpl. by rewrite Hl.
  - rewrite filter_cons. case_decide; [|done]. simpl. by rewrite Hl.
Qed.

Lemma CInv_step s s' g g' gc gc' b c c' st' :
  CInv s g gc → chans s !! b = Some c → CLinks ∅ s' g' gc' → chans s' = <[b := c']> (chans s) →
  (∀ b', b' ≠ b → gc' b' = gc b') →
  (∀ b' x, b' ≠ b → x ∈ gc b' → cnodes s' !! x = cnodes s !! x ∧ w_ops (cw s') !! x = w_ops (cw s) !! x) →
  CAbs s' gc' b c' st' → fifo_wf st' → CInv s' g' gc'.
Proof.
  intros I Hc C Hcs Hgc Hx A Hwf. split; [done|]. intros b1 c1. rewrite Hcs.
  intros [[<- <-]|[Hne Hc1]]%lookup_insert_Some; [eauto|].
  destruct (ci_chan _ _ _ I _ _ Hc1) as (st&[]&?). exists st. split; [|done]. constructor; try done.
  rewrite ca_waiters0, Hgc by done. symmetry. apply cwaiters_ext. intros x Hin.
  destruct (Hx b1 x) as [E1 E2]; [done..|]. unfold cpayload, active_in. by rewrite E1, E2.
Qed.

(** What another node of the loop can observe of an operation on [b]. *)
Record cframe s s' g gc b c : Prop := {
  cf_nodes y : y ∉ gc b → cnodes s' !! y = cnodes s !! y;
  cf_ops y : y ∉ gc b → w_ops (cw s') !! y = w_ops (cw s) !! y;
  cf_links y : y ∉ gc b → clinks s' !! y = clinks s !! y;
  cf_wlinks y : y ∉ a_waits (g (ch_loop c)) → w_wlinks (cw s') !! y = w_wlinks (cw s) !! y;
  cf_frame : frame (cw s) (cw s') }.

Lemma pruned_frame Y s s' g gc b c pre rest :
  (∀ x, x ∈ pre → x ∈ gc b) → pruned_to Y s s' g gc b c pre rest → cframe s s' g gc b c.
Proof.
  intros Hpre [C Hops Hns _ F Hwl Hcl]. split; try done; intros y Hy.
  - rewrite Hns, nodes_unlinked_lookup, bool_decide_false by auto. by destruct (cnodes s !! y).
  - rewrite Hops, ops_canceled_lookup, bool_decide_false by auto. by destruct (w_ops (cw s) !! y).
Qed.

(** The chosen waiter, unlinked, is resumed. *)
Lemma notify_taken s s1 s' g gc b c pre x rest n' o :
  pruned_to ∅ s s1 g gc b c pre (x :: rest) → gc b = pre ++ x :: rest →
  cnodes s' = <[x := n']> (cnodes s1) → clinks s' = unlinked (clinks s1) [] rest →
  w_ops (cw s') = <[x := retired o]> (w_ops (cw s1)) → frame (cw s1) (cw s') →
  (∀ y, y ∉ a_waits (g_notifies (ch_loop c) (actives s pre) g (ch_loop c)) →
     w_wlinks (cw s') !! y = w_wlinks (cw s1) !! y) →
  cframe s s' g gc b c.
Proof.
  intros P Hgc Hns Hcl Hops F Hwl.
  assert (Hpre : ∀ y, y ∈ pre → y ∈ gc b) by (rewrite Hgc; set_solver).
  pose proof (pruned_frame _ _ _ _ _ _ _ _ _ Hpre P) as [N0 O0 L0 W0 F0].
  assert (Hg : ∀ xs g', (∀ y, y ∉ a_waits (g' (ch_loop c)) → y ∉ a_waits (g_notifies (ch_loop c) xs g' (ch_loop c)))).
  { intros xs. unfold g_notifies. induction xs as [|z xs IH]; intros g' y Hy; simpl; [done|]. apply IH.
    unfold g_notify. rewrite upd_g_eq. simpl. rewrite elem_of_without. tauto. }
  split.
  - intros y Hy. rewrite Hns, lookup_insert_ne by (intros ->; rewrite Hgc in Hy; set_solver). by apply N0.
  - intros y Hy. rewrite Hops, lookup_insert_ne by (intros ->; rewrite Hgc in Hy; set_solver). by apply O0.
  - intros y Hy. rewrite Hcl, unlinked_other; [by apply L0|]. rewrite Hgc in Hy. set_solver.
  - intros y Hy. rewrite Hwl by auto. auto.
  - by etrans.
Qed.

(** A step of the channel [b]. *)
Record cstep s s' g g' gc b c c' rest st' : Prop := {
  cs_inv : CInv s' g' (upd_at b (λ _, rest) gc);
  cs_abs : CAbs s' (upd_at b (λ _, rest) gc) b c' st';
  cs_chan : chans s' !! b = Some c';
  cs_loop : ch_loop c' = ch_loop c;
  cs_closed : ch_closed c' = ch_closed c;
  cs_ready : ∃ woken, a_ready (g' (ch_loop c)) = a_ready (g (ch_loop c)) ++ woken ∧ ∀ y, y ∈ woken → y ∈ gc b;
  cs_frame : cframe s s' g gc b c }.

Lemma cstep_intro s s' g g' gc b c c' pre rest st' :
  CInv s g gc → chans s !! b = Some c → gc b = pre ++ rest → NoDup (gc b) →
  CLinks ∅ s' g' (upd_at b (λ _, rest) gc) → chans s' = <[b := c']> (chans s) →
  ch_loop c' = ch_loop c → ch_closed c' = ch_closed c → cframe s s' g gc b c →
  (∃ woken, a_ready (g' (ch_loop c)) = a_ready (g (ch_loop c)) ++ woken ∧ ∀ y, y ∈ woken → y ∈ gc b) →
  (∀ x, x ∈ rest → cpayload s' x = cpayload s x ∧ active_in s' x = active_in s x) →
  ring_rep (ch_ring c') (f_buf st') → f_cap st' = length (slots (ch_ring c')) →
  f_waiters st' = cwaiters s rest → f_closed st' = ch_closed c' → fifo_wf st' →
  cstep s s' g g' gc b c c' rest st'.
Proof.
  intros I Hc Hgc Hnd C Hcs Hloop Hcl F Hready Hrest Hring Hcap Hws Hclosed Hwf.
  assert (A : CAbs s' (upd_at b (λ _, rest) gc) b c' st').
  { constructor; [done..| |done]. rewrite Hws, upd_at_eq. symmetry. by apply cwaiters_ext. }
  split; [|done|rewrite Hcs; apply lookup_insert_eq|done..].
  eapply (CInv_step s s' g g' gc _ b c c' st' I Hc C Hcs); [| |done|done].
  - intros b' Hne. by rewrite upd_at_ne.
  - intros b' x Hne Hx. assert (Hxb : x ∉ gc b).
    { intros Hx'. destruct (cl_linked _ _ _ _ (ci_links _ _ _ I) _ _ Hx) as (?&?&?&_).
      destruct (cl_linked _ _ _ _ (ci_links _ _ _ I) _ _ Hx') as (?&?&?&_). congruence. }
    split; by apply F.
Qed.

Lemma woken_pruned s g gc b c pre xs :
  (∀ x, x ∈ pre → x ∈ gc b) → (∀ x, x ∈ xs → x ∈ gc b) →
  ∃ woken, a_ready (g_notifies (ch_loop c) xs (g_notifies (ch_loop c) (actives s pre) g) (ch_loop c)) =
           a_ready (g (ch_loop c)) ++ woken ∧ ∀ y, y ∈ woken → y ∈ gc b.
Proof.
  intros Hpre Hxs. rewrite !g_notifies_ready, <- app_assoc. eexists. split; [done|].
  intros y [[_ ?]%list_elem_of_filter|?]%elem_of_app; auto.
Qed.

(** The remaining waiters of a pruned queue are as they were. *)
Lemma pruned_rest Y s s1 g gc b c pre rest x :
  pruned_to Y s s1 g gc b c pre rest → x ∉ pre →
  cnodes s1 !! x = cnodes s !! x ∧ w_ops (cw s1) !! x = w_ops (cw s) !! x.
Proof.
  intros [_ Hops Hns _ _ _ _] Hx.
  rewrite Hns, Hops, nodes_unlinked_lookup, ops_canceled_lookup, bool_decide_false by done.
  by destruct (cnodes s !! x), (w_ops (cw s) !! x).
Qed.

Lemma CInv_NoDup s g gc b c : CInv s g gc → chans s !! b = Some c → NoDup (gc b).
Proof. intros I Hc. destruct (cl_rep _ _ _ _ (ci_links _ _ _ I) _ _ Hc). by eapply dl_rep_NoDup. Qed.

(** The first live waiter: its node, its operation and its payload. *)
Lemma live_head s g gc b c x rest :
  CInv s g gc → chans s !! b = Some c → drop_while (dead_on s b) (gc b) = x :: rest →
  ∃ n o, cnodes s !! x = Some n ∧ cn_queue n = b ∧ cn_linked n = true ∧ w_ops (cw s) !! x = Some o ∧
    op_active o = true ∧ op_owner o = ch_loop c ∧ live_on s b x = true ∧ active_in s x = true ∧
    (x ∉ take_while (dead_on s b) (gc b)) ∧
    cpayload s x = (if cn_sending n then cn_value n else None) ∧ (cn_sending n = true → is_Some (cn_value n)).
Proof.
  intros I Hc Hd. pose proof (take_drop_while (dead_on s b) (gc b)) as Hsp. rewrite Hd in Hsp.
  assert (head (drop_while (dead_on s b) (gc b)) = Some x) as [Hx Hl]%head_drop_while by (by rewrite Hd).
  apply negb_false_iff in Hl.
  destruct (cl_linked _ _ _ _ (ci_links _ _ _ I) _ _ Hx) as (n&Hn&Hq&Hln).
  destruct (cl_node _ _ _ _ (ci_links _ _ _ I) _ _ Hn) as (_&_&Hv&c0&o&Hc0&Ho&Hown&_). rewrite Hq in Hc0. simplify_eq.
  assert (Ha : op_active o = true).
  { unfold live_on in Hl. rewrite Ho in Hl. by destruct (op_active o). }
  exists n, o. split_and!; try done.
  - unfold active_in. by rewrite Ho.
  - intros Hx'%elem_of_take_while. by rewrite Hl in Hx'.
  - unfold cpayload. by rewrite Hn.
Qed.

Lemma CLinks_value Y s g gc x n v :
  CLinks Y s g gc → cnodes s !! x = Some n →
  CLinks Y (set_cnodes (<[x := set_cn_value (Some v) n]> (cnodes s)) s) g gc.
Proof.
  intros C Hn. constructor; simpl; try apply C.
  - intros b y Hy. destruct (cl_linked _ _ _ _ C _ _ Hy) as (ny&?&?&?).
    destruct (decide (x = y)) as [<-|]; [|exists ny; by rewrite lookup_insert_ne].
    simplify_eq. eexists. by rewrite lookup_insert_eq.
  - intros y ny [[<- <-]|[? ?]]%lookup_insert_Some; [|by apply C]. simpl. by apply C.
  - intros y ny [[<- <-]|[? Hy]]%lookup_insert_Some; [|by apply C].
    destruct (cl_node _ _ _ _ C _ _ Hn) as (?&?&_&?). by split_and!.
  - intros y Hy. destruct (cl_between _ _ _ _ C _ Hy) as (ny&?&?).
    destruct (decide (x = y)) as [<-|]; [|exists ny; by rewrite lookup_insert_ne].
    simplify_eq. eexists. by rewrite lookup_insert_eq.
Qed.

Lemma CLinks_ring Y s g gc b c c' :
  CLinks Y s g gc → chans s !! b = Some c → ch_first c' = ch_first c → ch_last c' = ch_last c →
  ch_loop c' = ch_loop c → CLinks Y (set_chans (<[b := c']> (chans s)) s) g gc.
Proof.
  intros C Hc Hf Ht Hl. constructor; simpl; try apply C.
  - intros b' c0 [[<- <-]|[? ?]]%lookup_insert_Some; [|by apply C]. rewrite Hf, Ht. by apply C.
  - intros x n Hn. destruct (cl_node _ _ _ _ C _ _ Hn) as (?&?&?&c0&o&Hc0&?&?&?). split_and!; [done..|].
    destruct (decide (b = cn_queue n)) as [->|]; [|exists c0, o; by rewrite lookup_insert_ne].
    exists c', o. rewrite lookup_insert_eq. simplify_eq. split_and!; [done|done|congruence|done].
Qed.

Lemma cframe_loop s s' g gc b c c0 :
  ch_loop c0 = ch_loop c → cframe s s' g gc b c0 → cframe s s' g gc b c.
Proof. intros E []. split; try done. by rewrite <- E. Qed.

Lemma resume_taken s s1 s2 g gc b c c0 c2 x rest n' st' :
  CInv s g gc → chans s !! b = Some c → drop_while (dead_on s b) (gc b) = x :: rest → ch_loop c0 = ch_loop c →
  pruned_to ∅ s s1 g gc b c0 (take_while (dead_on s b) (gc b)) (x :: rest) →
  CLinks (∅ ∪ {[x]}) s2 (g_notifies (ch_loop c) (actives s (take_while (dead_on s b) (gc b))) g) (upd_at b (λ _, rest) gc) →
  cnodes s2 = <[x := n']> (cnodes s1) → clinks s2 = unlinked (clinks s1) [] rest → cw s2 = cw s1 →
  chans s2 = <[b := c2]> (chans s) → ch_loop c2 = ch_loop c → ch_closed c2 = ch_closed c →
  ring_rep (ch_ring c2) (f_buf st') → f_cap st' = length (slots (ch_ring c2)) →
  f_waiters st' = cwaiters s rest → f_closed st' = ch_closed c2 → fifo_wf st' →
  runs (notify x) (cw s2) (λ _ w',
    cstep s (set_cw w' s2) g
      (g_notify (ch_loop c) x (g_notifies (ch_loop c) (actives s (take_while (dead_on s b) (gc b))) g)) gc b c c2 rest st' ∧
    ∃ o, w_ops (cw s) !! x = Some o ∧ w_ops w' !! x = Some (retired o)).
Proof.
  intros I Hc Hd Hc0 P C Hns Hcl Hcw Hcs Hloop Hclosed Hring Hcap Hws Hfc Hwf.
  destruct (live_head _ _ _ _ _ _ _ I Hc Hd) as (n&o&Hn&Hq&_&Ho&Ha&Hown&_&_&Hpre&_).
  pose proof (take_drop_while (dead_on s b) (gc b)) as Hsp. rewrite Hd in Hsp. set (pre := take_while _ _) in *.
  destruct (pruned_rest _ _ _ _ _ _ _ _ _ x P Hpre) as [Hn1 Ho1].
  pose proof (CInv_NoDup _ _ _ _ _ I Hc) as Hnd. rewrite <- Hsp in Hnd.
  eapply post_mono; [eapply (cnode_notify_spec _ s2 _ _ x n' o C); [by rewrite Hns, lookup_insert_eq|by rewrite Hcw, Ho1|done]| |done].
  intros _ w' (C'&Hops&F&Hwl). rewrite Hown in *. rewrite Hcw in *. split.
  - eapply (cstep_intro s _ g _ gc b c c2 (pre ++ [x]) rest); try done.
    + rewrite <- app_assoc. by rewrite <- Hsp.
    + by rewrite <- Hsp.
    + by replace (∅ : gset loc) with ((∅ ∪ {[x]}) ∖ {[x]} : gset loc) by set_solver.
    + eapply cframe_loop; [exact Hc0|]. eapply (notify_taken s s1); try done. by rewrite Hc0.
    + apply (woken_pruned s g gc b c pre [x]); rewrite <- Hsp; set_solver.
    + intros y Hy. assert (y ≠ x ∧ y ∉ pre) as [Hyx Hyp].
      { apply NoDup_app in Hnd as (_&Hdis&[? ?]%NoDup_cons). split; [by intros ->|]. intros Hy'. apply (Hdis y Hy'). set_solver. }
      destruct (pruned_rest _ _ _ _ _ _ _ _ _ y P Hyp) as [Hn2 Ho2]. unfold cpayload, active_in. simpl.
      rewrite Hns, Hops, !lookup_insert_ne, Hn2, Ho2 by done. done.
  - exists o. split; [done|]. rewrite Hops. apply lookup_insert_eq.
Qed.

Lemma channel_push_spec s g gc b c st v :
  CInv s g gc → chans s !! b = Some c → CAbs s gc b c st → fifo_wf st →
  runs (channel_push b v) s (λ res s', ∃ g' c' rest,
    let '(ok, rx, st') := fifo_push (live_on s b) v st in
    res = ok ∧ cstep s s' g g' gc b c c' rest st' ∧ (∃ pre, gc b = pre ++ rest) ∧
    match rx with
    | Some x => cn_value <$> cnodes s' !! x = Some (Some v) ∧
                ∃ o, w_ops (cw s) !! x = Some o ∧ w_ops (cw s') !! x = Some (retired o)
    | None => True
    end).
Proof.
  intros I Hc A Hwf. pose proof A as [Hring Hcap Hws Hcl]. pose proof (CInv_NoDup _ _ _ _ _ I Hc) as Hnd.
  pose proof (fifo_push_wf (live_on s b) v st) as Hwf'. unfold fifo_push in *. rewrite (prune_cwaiters s b _ st Hws) in *.
  unfold channel_push. apply post_bind.
  eapply post_mono; [apply (take_spec ∅ s g gc b c false (ci_links _ _ _ I) Hc); set_solver| |done].
  cbv zeta. intros res s2 (s1&P&Tk). pose proof (take_drop_while (dead_on s b) (gc b)) as Hsp.
  set (pre := take_while (dead_on s b) (gc b)) in *.
  assert (Hpre : ∀ y, y ∈ pre → y ∈ gc b) by (rewrite <- Hsp; set_solver).
  pose proof (pruned_frame _ _ _ _ _ _ _ _ _ Hpre P) as CF.
  destruct (pt_chans _ _ _ _ _ _ _ _ _ P) as (f&t&Hcs1).
  assert (Hc1 : chans s1 !! b = Some (set_ch_ends f t c)) by (rewrite Hcs1; apply lookup_insert_eq).
  assert (Hsame : ∀ y, y ∈ drop_while (dead_on s b) (gc b) → cpayload s1 y = cpayload s y ∧ active_in s1 y = active_in s y).
  { intros y Hy. rewrite <- Hsp in Hnd. apply NoDup_app in Hnd as (_&Hdis&_).
    destruct (pruned_rest _ _ _ _ _ _ _ _ _ y P) as [E1 E2]; [intros Hy'; by apply (Hdis y)|].
    unfold cpayload, active_in. by rewrite E1, E2. }
  destruct (drop_while (dead_on s b) (gc b)) as [|x rest] eqn:Hd; simpl in Tk.
  - destruct Tk as [-> ->]. apply post_bind. eapply post_the_chan; [done|]. simpl in *.
    rewrite (ring_full_spec _ _ Hring), <- Hcap. case_bool_decide as Hfull.
    + apply post_ret. eexists _, (set_ch_ends f t c), []. split_and!; [done| |eauto|done].
      eapply cstep_intro; eauto; try apply P. apply (woken_pruned s g gc b c pre []); [done|set_solver].
    + destruct (ring_put_rep _ _ v Hring) as (r'&Hr'&Hrep'&Hlen').
      { pose proof (wf_cap _ Hwf). destruct Hring as (<-&_). lia. }
      apply post_bind. eapply post_value; [done|]. apply post_bind. eapply post_upd_chan; [done|]. apply post_ret.
      eexists _, (set_ch_ring r' (set_ch_ends f t c)), []. split_and!; [done| |eauto|done].
      eapply cstep_intro; eauto; simpl.
      * eapply CLinks_ring; [apply P|done..].
      * by rewrite Hcs1, insert_insert_eq.
      * destruct CF. by split.
      * apply (woken_pruned s g gc b c pre []); [done|set_solver].
      * congruence.
  - destruct (live_head _ _ _ _ _ _ _ I Hc Hd) as (n&o&Hn&Hq&Hln&Ho&Ha&Hown&Hl&Hax&Hxp&Hpay&Hval).
    destruct (pruned_rest _ _ _ _ _ _ _ _ _ x P Hxp) as [Hn1 Ho1]. destruct Tk as (n1&Hn1'&Hm).
    assert (n1 = n) as -> by congruence.
    unfold cwaiters in *. rewrite filter_cons_True in * by done. cbn [fmap list_fmap] in *. rewrite Hpay in *.
    destruct (cn_sending n) eqn:Hs; simpl in Hm.
    + destruct Hm as [-> ->]. destruct (Hval eq_refl) as [u Hu]. rewrite Hu in *.
      assert (Hfull : length (f_buf st) = f_cap st).
      { apply (wf_full _ Hwf (x, Some u)); [|done]. rewrite Hws, <- Hsp. unfold cwaiters. rewrite filter_app, fmap_app.
        rewrite filter_cons_True by done. cbn [fmap list_fmap]. rewrite Hpay. set_solver. }
      rewrite (bool_decide_true _ Hfull) in *.
      apply post_bind. eapply post_the_chan; [done|]. simpl.
      rewrite (ring_full_spec _ _ Hring), <- Hcap, bool_decide_true by done. apply post_ret.
      eexists _, (set_ch_ends f t c), (x :: rest). split_and!; [done| |eauto|done].
      eapply cstep_intro; eauto; try apply P; [apply (woken_pruned s g gc b c pre []); [done|set_solver]|]. simpl. unfold cwaiters. rewrite filter_cons_True by done.
      cbn [fmap list_fmap]. by rewrite Hpay.
    + destruct Hm as (->&->&C2). apply post_bind. apply (post_upd_cnode x (set_cn_linked false n)); [apply lookup_insert_eq|].
      apply post_bind, post_in_loop.
      set (s3 := set_cnodes _ (cunlinked s1 b [] rest x n)).
      assert (C3 : CLinks (∅ ∪ {[x]}) s3 (g_notifies (ch_loop c) (actives s pre) g) (upd_at b (λ _, rest) gc)).
      { eapply CLinks_ext; [done| |eapply CLinks_value; [exact C2|apply lookup_insert_eq]].
        intros b'. unfold upd_at. by case_decide. }
      eapply post_mono; [eapply (resume_taken s s1 s3 g gc b c c (set_ch_ends (head rest) (last rest) c) x rest _
        (Fifo (f_cap st) (f_buf st) (cwaiters s rest) (f_closed st))); try done| |done].
      * simpl. by rewrite insert_insert_eq.
      * simpl. rewrite (insert_alter _ _ _ _ Hc1), Hcs1, insert_insert_eq. done.
      * by eapply Hwf'.
      * intros _ w' [CS Hop]. apply post_ret. eexists _, _, rest. split_and!; [done|exact CS| |by simpl; rewrite lookup_insert_eq|exact Hop].
        exists (pre ++ [x]). rewrite <- app_assoc. by rewrite <- Hsp.
Qed.

(** ** [pop] *)
Lemma cpop_buffer s b c buf :
  chans s !! b = Some c → ring_rep (ch_ring c) buf →
  runs (if bool_decide (size_ (ch_ring c) = 0) then mret None else
          vr ← value_of (ring_get (ch_ring c));
          upd_chan b (set_ch_ring vr.2) ;;
          mret (Some vr.1)) s (λ res s', ∃ r,
    res = head buf ∧ s' = set_chans (<[b := set_ch_ring r c]> (chans s)) s ∧
    ring_rep r (tail buf) ∧ length (slots r) = length (slots (ch_ring c))).
Proof.
  intros Hb Hr. pose proof Hr as (Hlen&_). destruct buf as [|v buf]; simpl in Hlen.
  - rewrite bool_decide_true by done. apply post_ret. exists (ch_ring c). split_and!; [done| |done|done].
    rewrite insert_id; [by destruct s|]. by destruct c.
  - rewrite bool_decide_false by lia. destruct (ring_get_rep _ _ _ Hr) as (r&Hg&Hr'&Hl).
    apply post_bind. eapply post_value; [done|]. apply post_bind. eapply post_upd_chan; [done|].
    apply post_ret. eauto.
Qed.

Lemma cpop_refill s b c buf u :
  chans s !! b = Some c → ring_rep (ch_ring c) (tail buf) → length buf ≤ length (slots (ch_ring c)) →
  runs (match head buf with
        | Some v =>
            c' ← the_chan b;
            r ← value_of (ring_put u (ch_ring c'));
            upd_chan b (set_ch_ring r) ;;
            mret (Some v)
        | None => mret (Some u)
        end) s (λ res s', ∃ r2,
    res = Some (match head buf with Some v => v | None => u end) ∧
    s' = set_chans (<[b := set_ch_ring r2 c]> (chans s)) s ∧
    ring_rep r2 (match buf with v :: buf' => buf' ++ [u] | [] => [] end) ∧
    length (slots r2) = length (slots (ch_ring c))).
Proof.
  intros Hc Hr Hle. destruct buf as [|v buf]; simpl in *.
  - apply post_ret. exists (ch_ring c). split_and!; [done| |done|done].
    rewrite insert_id; [by destruct s|]. by destruct c.
  - destruct (ring_put_rep _ _ u Hr) as (r2&Hp&Hr2&Hl2).
    { destruct Hr as (<-&_). lia. }
    apply post_bind. eapply post_the_chan; [done|]. apply post_bind. eapply post_value; [done|].
    apply post_bind. eapply post_upd_chan; [done|]. apply post_ret. eauto.
Qed.

(** Pruning after the buffer of [b] has changed, seen from the state before. *)
Lemma pruned_ring s s1 g gc b c r pre rest :
  pruned_to ∅ (set_chans (<[b := set_ch_ring r c]> (chans s)) s) s1 g gc b (set_ch_ring r c) pre rest →
  pruned_to ∅ s s1 g gc b (set_ch_ring r c) pre rest.
Proof.
  intros [C Hops Hns (f&t&Hcs) F Hwl Hcl]. split; try done. exists f, t. rewrite Hcs. simpl. by rewrite insert_insert_eq.
Qed.
Lemma live_on_ring s b c r x :
  chans s !! b = Some c → live_on (set_chans (<[b := set_ch_ring r c]> (chans s)) s) b x = live_on s b x.
Proof. intros Hc. apply live_on_frame; [done| |done]. simpl. by rewrite lookup_insert_eq, Hc. Qed.

Lemma channel_pop_spec s g gc b c st :
  CInv s g gc → chans s !! b = Some c → CAbs s gc b c st → fifo_wf st →
  runs (channel_pop b) s (λ res s', ∃ g' c' rest,
    let '(o, tx, st') := fifo_pop (live_on s b) st in
    res = o ∧ cstep s s' g g' gc b c c' rest st' ∧ (∃ pre, gc b = pre ++ rest) ∧
    match tx with
    | Some x => ∃ o, w_ops (cw s) !! x = Some o ∧ w_ops (cw s') !! x = Some (retired o)
    | None => True
    end).
Proof.
  intros I Hc A Hwf. pose proof A as [Hring Hcap Hws Hcl]. pose proof (CInv_NoDup _ _ _ _ _ I Hc) as Hnd.
  pose proof (fifo_pop_wf (live_on s b) st) as Hwf'. rewrite fifo_pop_alt in *. rewrite (prune_cwaiters s b _ st Hws) in *.
  unfold channel_pop. apply post_bind. eapply post_the_chan; [done|]. apply post_bind.
  eapply post_mono; [by apply (cpop_buffer s b c (f_buf st))| |done].
  intros res s0 (r&->&->&Hr1&Hl1). set (s0 := set_chans _ s).
  assert (C0 : CLinks ∅ s0 g gc) by (eapply CLinks_ring; [apply I|done..]).
  assert (Hc0 : chans s0 !! b = Some (set_ch_ring r c)) by (simpl; apply lookup_insert_eq).
  apply post_bind. eapply post_mono; [apply (take_spec ∅ s0 g gc b _ true C0 Hc0); set_solver| |done].
  assert (Hdead : ∀ y, y ∈ gc b → dead_on s0 b y = dead_on s b y) by (intros y _; f_equal; by apply live_on_ring).
  rewrite (take_while_ext _ _ _ Hdead), (drop_while_ext _ _ _ Hdead).
  cbv zeta. intros res s2 (s1&P%pruned_ring&Tk). pose proof (take_drop_while (dead_on s b) (gc b)) as Hsp.
  change (active_in s0) with (active_in s) in Tk.
  set (pre := take_while (dead_on s b) (gc b)) in *.
  assert (Hpre : ∀ y, y ∈ pre → y ∈ gc b) by (rewrite <- Hsp; set_solver).
  pose proof (cframe_loop _ _ _ _ _ c (set_ch_ring r c) eq_refl (pruned_frame _ _ _ _ _ _ _ _ _ Hpre P)) as CF.
  destruct (pt_chans _ _ _ _ _ _ _ _ _ P) as (f&t&Hcs1).
  assert (Hc1 : chans s1 !! b = Some (set_ch_ends f t (set_ch_ring r c))) by (rewrite Hcs1; apply lookup_insert_eq).
  assert (Hsame : ∀ y, y ∈ drop_while (dead_on s b) (gc b) → cpayload s1 y = cpayload s y ∧ active_in s1 y = active_in s y).
  { intros y Hy. rewrite <- Hsp in Hnd. apply NoDup_app in Hnd as (_&Hdis&_).
    destruct (pruned_rest _ _ _ _ _ _ _ _ _ y P) as [E1 E2]; [intros Hy'; by apply (Hdis y)|].
    unfold cpayload, active_in. by rewrite E1, E2. }
  destruct (drop_while (dead_on s b) (gc b)) as [|x rest] eqn:Hd; simpl in Tk.
  - destruct Tk as [-> ->]. apply post_ret. simpl in *. eexists _, (set_ch_ends f t (set_ch_ring r c)), [].
    split_and!; [done| |eauto|done]. eapply cstep_intro; eauto; try apply P; [apply (woken_pruned s g gc b c pre []); [done|set_solver]|]. simpl. congruence.
  - destruct (live_head _ _ _ _ _ _ _ I Hc Hd) as (n&o&Hn&Hq&Hln&Ho&Ha&Hown&Hl&Hax&Hxp&Hpay&Hval).
    destruct (pruned_rest _ _ _ _ _ _ _ _ _ x P Hxp) as [Hn1 Ho1]. destruct Tk as (n1&Hn1'&Hm).
    assert (n1 = n) as -> by congruence.
    unfold cwaiters in *. rewrite filter_cons_True in * by done. cbn [fmap list_fmap] in *. rewrite Hpay in *.
    destruct (cn_sending n) eqn:Hs; simpl in Hm.
    + destruct Hm as (->&->&C2). destruct (Hval eq_refl) as [u Hu]. rewrite Hu in *.
      apply post_bind. apply (post_the_cnode x (set_cn_linked false n)); [apply lookup_insert_eq|].
      apply post_bind. apply (post_value _ u); [done|]. apply post_bind. pose proof (wf_cap _ Hwf) as Hle.
      set (c1 := set_ch_ends (head rest) (last rest) (set_ch_ring r c)).
      assert (Hc2 : chans (cunlinked s1 b [] rest x n) !! b = Some c1) by (simpl; by rewrite lookup_alter_eq, Hc1).
      eapply post_mono; [apply (cpop_refill _ b c1 (f_buf st) u Hc2 Hr1); simpl; lia| |done].
      intros res s3 (r2&->&->&Hr2&Hl2). apply post_bind, post_in_loop.
      set (s3 := set_chans _ (cunlinked s1 b [] rest x n)).
      assert (C3 : CLinks (∅ ∪ {[x]}) s3 (g_notifies (ch_loop c) (actives s pre) g) (upd_at b (λ _, rest) gc)).
      { eapply CLinks_ext; [done| |eapply CLinks_ring; [exact C2|exact Hc2|done..]].
        intros b'. unfold upd_at. by case_decide. }
      eapply post_mono; [eapply (resume_taken s s1 s3 g gc b c (set_ch_ring r c) (set_ch_ring r2 c1) x rest _
        (Fifo (f_cap st) (match f_buf st with _ :: buf => buf ++ [u] | [] => [] end) (cwaiters s rest) (f_closed st)));
        try done| |done].
      * simpl. rewrite (insert_alter _ _ _ _ Hc1), insert_insert_eq, Hcs1, insert_insert_eq. done.
      * simpl in *. congruence.
      * destruct (f_buf st); by eapply Hwf'.
      * intros _ w' [CS Hop]. apply post_ret. exists (g_notify (ch_loop c) x (g_notifies (ch_loop c) (actives s pre) g)),
          (set_ch_ring r2 c1), rest.
        destruct (f_buf st); (split_and!; [done|exact CS| |exact Hop]); exists (pre ++ [x]); rewrite <- app_assoc; by rewrite <- Hsp.
    + destruct Hm as [-> ->]. apply post_ret. eexists _, (set_ch_ends f t (set_ch_ring r c)), (x :: rest).
      split_and!; [done| |eauto|done]. eapply cstep_intro; eauto; try apply P; simpl; [apply (woken_pruned s g gc b c pre []); [done|set_solver]|congruence|].
      unfold cwaiters. rewrite filter_cons_True by done. cbn [fmap list_fmap]. by rewrite Hpay.
Qed.

(** ** Suspension *)

(** A node that has not been used yet. *)
Record cfresh s g x n o vt k : Prop := {
  cx_node : cnodes s !! x = Some n;
  cx_unlinked : cn_linked n = false;
  cx_op : w_ops (cw s) !! x = Some o;
  cx_wait : w_waits (cw s) !! x = Some vt;
  cx_stop : wait_interruptible vt = true;
  cx_fresh : fresh_wait (cw s) g x;
  cx_link : clinks s !! x = Some k;
  cx_next : l_next k = None }.

Lemma cunlinked_notin Y s g gc x n b : CLinks Y s g gc → cnodes s !! x = Some n → cn_linked n = false → x ∉ gc b.
Proof. intros C Hn Hl Hx. destruct (cl_linked _ _ _ _ C _ _ Hx) as (n'&?&?&?). congruence. Qed.

(** Operations on a channel leave a fresh node fresh. *)
Lemma cfresh_step s s' g g' gc b c c' rest st' x n o vt k :
  cfresh s g x n o vt k → CInv s g gc → chans s !! b = Some c → cn_queue n = b →
  cstep s s' g g' gc b c c' rest st' → cfresh s' g' x n o vt k.
Proof.
  intros [Hn Hl Ho Hv Hi Hf Hk Ha] I Hc Hq CS.
  pose proof (cunlinked_notin _ _ _ _ _ _ b (ci_links _ _ _ I) Hn Hl) as Hx.
  destruct (cs_frame _ _ _ _ _ _ _ _ _ _ CS) as [N O K W F].
  destruct (cl_node _ _ _ _ (ci_links _ _ _ I) _ _ Hn) as (_&_&_&c0&o0&Hc0&Ho0&Hown&_).
  rewrite Hq in Hc0. simplify_eq. destruct Hf as (o1&k1&?&Hact&Hr&Hwk&Hp). simplify_eq.
  split; rewrite ?N, ?O, ?K by done; try done.
  - destruct F as [-> _]. done.
  - exists o, k1. rewrite O by done. split_and!; try done.
    + rewrite Hown in *. destruct (cs_ready _ _ _ _ _ _ _ _ _ _ CS) as (woken&->&Hw). set_solver.
    + rewrite W; [done|]. rewrite <- Hown. intros Hxw. eapply (inv_inactive _ _ _ (op_owner o) x); [apply I|done|done|].
      unfold a_pending. set_solver.
Qed.

Definition clinked s gc b x n : cworld :=
  set_clinks (linked_back (clinks s) (gc b) x)
    (set_chans (alter (set_ch_ends (head (gc b ++ [x])) (Some x)) b (chans s))
      (set_cnodes (<[x := set_cn_linked true n]> (cnodes s)) s)).

Lemma CLinks_linked Y s g gc x n k :
  CLinks Y s g gc → cnodes s !! x = Some n → cn_linked n = false → clinks s !! x = Some k → l_next k = None →
  CLinks (Y ∖ {[x]}) (clinked s gc (cn_queue n) x n) g (upd_at (cn_queue n) (λ xs, xs ++ [x]) gc).
Proof.
  intros C Hn Hl Hk Hnx. pose proof (λ b, cunlinked_notin _ _ _ _ _ _ b C Hn Hl) as Hx.
  destruct (cl_node _ _ _ _ C _ _ Hn) as (_&_&_&c&_&Hc&_). destruct (cl_rep _ _ _ _ C _ _ Hc) as [Hrep _].
  constructor; simpl; [apply C| | | | |].
  - intros b c' [(<-&c0&?&->)|[Hne Hc']]%lookup_alter_Some; simpl.
    + rewrite upd_at_eq. split; [|by rewrite last_snoc].
      eapply link_back_rep; [by rewrite <- (dl_rep_head _ _ _ Hrep)|done..].
    + rewrite upd_at_ne by done. destruct (cl_rep _ _ _ _ C _ _ Hc') as [Hrep' ?]. split; [|done].
      eapply dl_rep_frame, Hrep'. intros y Hy. apply linked_back_other; [|intros ->; by eapply Hx].
      intros Hy2. destruct (cl_linked _ _ _ _ C _ _ Hy) as (?&?&?&_), (cl_linked _ _ _ _ C _ _ Hy2) as (?&?&?&_). congruence.
  - intros b y Hy. destruct (decide (y = x)) as [->|Hne].
    + exists (set_cn_linked true n). rewrite lookup_insert_eq. split_and!; [done| |done]. simpl.
      unfold upd_at in Hy. case_decide; [done|]. by destruct (Hx b).
    + rewrite lookup_insert_ne by done. apply (cl_linked _ _ _ _ C). unfold upd_at in Hy. case_decide; [subst|done]. set_solver.
  - intros y ny [[<- <-]|[Hne Hy]]%lookup_insert_Some Hly; simpl; [rewrite upd_at_eq; set_solver|].
    pose proof (cl_found _ _ _ _ C _ _ Hy Hly). unfold upd_at. case_decide as Hd; [rewrite <- Hd; set_solver|done].
  - intros y ny Hy. assert (∃ n0, cnodes s !! y = Some n0 ∧ cn_queue n0 = cn_queue ny ∧ cn_sending n0 = cn_sending ny ∧
      cn_value n0 = cn_value ny ∧ (cn_linked n0 = true ∨ y = x → cn_linked ny = true)) as (n0&Hn0&Eq&Es&Ev&El).
    { apply lookup_insert_Some in Hy as [[<- <-]|[? ?]]; [exists n|exists ny]; naive_solver. }
    destruct (cl_node _ _ _ _ C _ _ Hn0) as (?&?&?&c0&o0&Hc0&?&?&Ha0). rewrite Eq in Hc0.
    rewrite linked_back_is_Some, <- Es, <- Ev. split_and!; [done..|].
    assert (∃ c1, alter (set_ch_ends (head (gc (cn_queue n) ++ [x])) (Some x)) (cn_queue n) (chans s) !! cn_queue ny = Some c1
      ∧ ch_loop c1 = ch_loop c0) as (c1&Hc1&Hloop).
    { destruct (decide (cn_queue n = cn_queue ny)) as [->|]; [rewrite lookup_alter_eq, Hc0|rewrite lookup_alter_ne by done]; eauto. }
    exists c1, o0. split_and!; [done|done|congruence|]. intros Ha. destruct (decide (y = x)) as [->|]; [auto|].
    destruct (Ha0 Ha); [auto|set_solver].
  - intros y [Hy Hne]%elem_of_difference. destruct (cl_between _ _ _ _ C _ Hy) as (ny&?&?). exists ny.
    rewrite lookup_insert_ne by set_solver. done.
Qed.

Lemma CLinks_parked s w1 g gc x n o o1 :
  CLinks ∅ s g gc → cnodes s !! x = Some n → cn_linked n = false → w_ops (cw s) !! x = Some o →
  Inv ∅ w1 (g_park (op_owner o) x g) → w_ops w1 = <[x := o1]> (w_ops (cw s)) → op_owner o1 = op_owner o →
  w_waits w1 = w_waits (cw s) → CLinks {[x]} (set_cw w1 s) (g_park (op_owner o) x g) gc.
Proof.
  intros C Hn Hl Ho I1 Hops Hown Hw. constructor; simpl; try apply C; [done| |].
  - intros y ny Hy. destruct (cl_node _ _ _ _ C _ _ Hy) as (?&?&?&c0&oy&Hc0&Hoy&?&Ha). rewrite Hw, Hops.
    split_and!; [done..|]. exists c0. destruct (decide (x = y)) as [<-|Hne].
    + exists o1. rewrite lookup_insert_eq. simplify_eq. split_and!; [done..|congruence|set_solver].
    + exists oy. rewrite lookup_insert_ne by done. split_and!; [done..|]. intros Hay. left. destruct (Ha Hay); set_solver.
  - intros y ->%elem_of_singleton. eauto.
Qed.

(** Parking and linking, the tail of [await_suspend]. *)
Lemma channel_block_spec s g gc b c st x n o vt k l h :
  CInv s g gc → chans s !! b = Some c → CAbs s gc b c st → cfresh s g x n o vt k → cn_queue n = b →
  w_loops (cw s) !! op_owner o = Some l → l_thread l = w_thread (cw s) →
  (l_stopping l || requested (cw s) (cn_token n)) = false →
  fifo_wf (fifo_wait (x, cpayload s x) st) →
  runs (ok ← in_loop (park x h (cn_token n));
        if negb ok then mret false else
          upd_cnode x (set_cn_linked true) ;; on_chan b (link_back x) ;; mret true) s
    (λ res s', res = true ∧ ∃ c',
      chans s' !! b = Some c' ∧ CInv s' (g_park (op_owner o) x g) (upd_at b (λ xs, xs ++ [x]) gc) ∧
      CAbs s' (upd_at b (λ xs, xs ++ [x]) gc) b c' (fifo_wait (x, cpayload s x) st) ∧
      active_in s' x = true ∧ cn_value <$> cnodes s' !! x = Some (cn_value n)).
Proof.
  intros I Hc A [Hn Hl Ho Hv Hi Hf Hk Hnx] Hq HL Ht Hns Hwf. pose proof (ci_links _ _ _ I) as C.
  apply post_bind, post_in_loop.
  eapply post_mono; [by apply (park_spec _ _ _ _ _ _ h (cn_token n) (cl_inv _ _ _ _ C) Ho Hv Hf HL)| |by intros ? ? (?&?&?)].
  intros [] w1; [|intros (_&_&?&_); congruence]. intros (_&_&(I1&Hops1&_&F1)). simpl. rewrite Hi in Hops1.
  set (o1 := armed (cw s) (cn_token n) o) in *.
  assert (op_active o1 = true ∧ op_owner o1 = op_owner o) as [Hact Hown].
  { unfold o1, armed. by destruct (possible (cw s) (cn_token n)). }
  assert (Hw1 : w_waits w1 = w_waits (cw s)) by (destruct F1 as [-> _]; done).
  pose proof (CLinks_parked s w1 g gc x n o o1 C Hn Hl Ho I1 Hops1 Hown Hw1) as C1.
  apply post_bind. apply (post_upd_cnode x n); [exact Hn|]. apply post_bind.
  destruct (cl_rep _ _ _ _ C _ _ Hc) as [Hrep Hlast].
  pose proof (cunlinked_notin _ _ _ _ _ _ b C Hn Hl) as Hx.
  eapply (post_on_chan _ b c); [exact Hc| |].
  { simpl. rewrite (dl_rep_head _ _ _ Hrep), Hlast. apply link_back_run; [by rewrite <- (dl_rep_head _ _ _ Hrep)|done|by eexists]. }
  apply post_ret. split; [done|]. simpl.
  change (set_clinks _ _) with (clinked (set_cw w1 s) gc b x n).
  pose proof (CLinks_linked _ _ _ _ x n k C1 Hn Hl Hk Hnx) as C2. rewrite Hq in C2.
  replace ({[x]} ∖ {[x]} : gset loc) with (∅ : gset loc) in C2 by set_solver.
  assert (Hax : active_in (clinked (set_cw w1 s) gc b x n) x = true).
  { unfold active_in. simpl. by rewrite Hops1, lookup_insert_eq. }
  set (c' := set_ch_ends (head (gc b ++ [x])) (Some x) c). set (s2 := clinked (set_cw w1 s) gc b x n) in *.
  assert (Hold : ∀ y, y ≠ x → cpayload s2 y = cpayload s y ∧ active_in s2 y = active_in s y).
  { intros y Hy. unfold cpayload, active_in. simpl. rewrite Hops1, !lookup_insert_ne by done. done. }
  assert (Hpx : cpayload s2 x = cpayload s x) by (unfold cpayload; simpl; by rewrite lookup_insert_eq, Hn).
  assert (A' : CAbs s2 (upd_at b (λ xs, xs ++ [x]) gc) b c' (fifo_wait (x, cpayload s x) st)).
  { destruct A. constructor; simpl; [done..| |done]. rewrite upd_at_eq, ca_waiters0. unfold cwaiters at 2.
    rewrite filter_app, fmap_app, filter_cons_True by done. cbn [fmap list_fmap]. rewrite Hpx. f_equal.
    symmetry. apply cwaiters_ext. intros y Hy. apply Hold. by intros ->. }
  exists c'. split_and!; [simpl; by rewrite lookup_alter_eq, Hc| |done|done|simpl; by rewrite lookup_insert_eq].
  eapply (CInv_step s s2 g _ gc _ b c c' _ I Hc C2); [simpl; by apply insert_alter| | |done|done].
  - intros b' Hne. by rewrite upd_at_ne.
  - intros b' y Hne Hy. assert (y ≠ x) by (intros ->; by apply (cunlinked_notin _ _ _ _ _ _ b' C Hn Hl)).
    simpl. rewrite Hops1, !lookup_insert_ne by done. done.
Qed.

Lemma cloop_step s s' L l t :
  frame (cw s) (cw s') → w_loops (cw s) !! L = Some l → l_thread l = w_thread (cw s) →
  ∃ l', w_loops (cw s') !! L = Some l' ∧ l_thread l' = w_thread (cw s') ∧
        (l_stopping l' || requested (cw s') t) = (l_stopping l || requested (cw s) t).
Proof.
  intros F HL Ht. destruct (frame_loops _ _ _ _ F HL) as (l'&HL'&Hl'). destruct F as [E _]. exists l'. split_and!; [done| |].
  - replace (w_thread (cw s')) with (w_thread (cw s)) by (rewrite E; done). by rewrite Hl'.
  - unfold requested. replace (w_stops (cw s')) with (w_stops (cw s)) by (rewrite E; done). by rewrite Hl'.
Qed.

(** Failing an operation that is not suspended. *)
Lemma CInv_error s g gc b c st x n o e :
  CInv s g gc → chans s !! b = Some c → CAbs s gc b c st → fifo_wf st →
  cnodes s !! x = Some n → cn_linked n = false → w_ops (cw s) !! x = Some o →
  CInv (set_cw (set_w_ops (<[x := set_op_error e o]> (w_ops (cw s))) (cw s)) s) g gc ∧
  CAbs (set_cw (set_w_ops (<[x := set_op_error e o]> (w_ops (cw s))) (cw s)) s) gc b c st.
Proof.
  intros I Hc A Hwf Hn Hl Ho. pose proof (ci_links _ _ _ I) as C. set (s' := set_cw _ s).
  assert (Hact : ∀ y, active_in s' y = active_in s y).
  { intros y. unfold active_in. simpl. destruct (decide (x = y)) as [<-|];
      [by rewrite lookup_insert_eq, Ho|by rewrite lookup_insert_ne]. }
  assert (A' : CAbs s' gc b c st).
  { destruct A. constructor; try done. rewrite ca_waiters0. symmetry. apply cwaiters_ext. intros y _. by rewrite Hact. }
  split; [|done]. eapply (CInv_step s s' g g gc gc b c c st I Hc); try done.
  - eapply CLinks_world; [exact C|eapply Inv_upd_op; [apply C|done..]|done|done|].
    intros y ny oy Hy Hoy. simpl. destruct (decide (x = y)) as [<-|].
    + rewrite lookup_insert_eq. simplify_eq. eexists. split_and!; done.
    + rewrite lookup_insert_ne by done. eauto.
  - simpl. by rewrite insert_id.
  - intros b' y _ Hy. split; [done|]. simpl. apply lookup_insert_ne. intros <-.
    by apply (cunlinked_notin _ _ _ _ _ _ b' C Hn Hl).
Qed.

Lemma CInv_value s g gc b c st x n v :
  CInv s g gc → chans s !! b = Some c → CAbs s gc b c st → fifo_wf st →
  cnodes s !! x = Some n → cn_linked n = false →
  CInv (set_cnodes (<[x := set_cn_value (Some v) n]> (cnodes s)) s) g gc ∧
  CAbs (set_cnodes (<[x := set_cn_value (Some v) n]> (cnodes s)) s) gc b c st.
Proof.
  intros I Hc A Hwf Hn Hl. pose proof (ci_links _ _ _ I) as C. set (s' := set_cnodes _ s).
  assert (Hne : ∀ b' y, y ∈ gc b' → cnodes s' !! y = cnodes s !! y).
  { intros b' y Hy. simpl. apply lookup_insert_ne. intros <-. by apply (cunlinked_notin _ _ _ _ _ _ b' C Hn Hl). }
  assert (A' : CAbs s' gc b c st).
  { destruct A. constructor; try done. rewrite ca_waiters0. symmetry. apply cwaiters_ext. intros y Hy.
    split; [|done]. unfold cpayload. by rewrite (Hne b). }
  split; [|done]. eapply (CInv_step s s' g g gc gc b c c st I Hc); try done.
  - by apply CLinks_value.
  - simpl. by rewrite insert_id.
  - intros b' y _ Hy. split; [by eapply Hne|done].
Qed.

(** The common prologue: affinity and cancellation. *)
Lemma channel_await_prologue {A} (k : cnode → M A) s x n o l (Q : A → cworld → Prop) E (refuse : M A) :
  cnodes s !! x = Some n → w_ops (cw s) !! x = Some o → w_loops (cw s) !! op_owner o = Some l →
  l_thread l = w_thread (cw s) → (l_stopping l || requested (cw s) (cn_token n)) = false →
  post (k n) s Q E →
  post (n ← the_cnode x;
        o ← in_loop (the_op x);
        in_loop (check (op_owner o)) ;;
        st ← in_loop (stopped (op_owner o));
        rq ← in_loop (stop_requested (cn_token n));
        if st || rq then refuse else k n) s Q E.
Proof.
  intros Hn Ho HL Ht Hns Hk. apply post_bind. eapply post_the_cnode; [done|].
  apply post_bind. eapply post_loop_read; [by apply the_op_run|].
  apply post_bind. eapply post_loop_read; [by rewrite (check_run _ _ _ HL), decide_True|].
  apply post_bind. eapply post_loop_read; [by apply stopped_run|].
  apply post_bind. eapply post_loop_read; [reflexivity|]. fold (requested (cw s) (cn_token n)). by rewrite Hns.
Qed.

(** C3: Sending on a channel performs the send of the FIFO contract: hand the value to the
    longest waiting live receiver, store it, block, or fail with [broken_pipe] when
    closed. *)
Theorem channel_send_spec s g gc b c st x n o vt k l h v :
  CInv s g gc → chans s !! b = Some c → CAbs s gc b c st → fifo_wf st → cfresh s g x n o vt k →
  cn_queue n = b → cn_sending n = true → cn_value n = Some v →
  w_loops (cw s) !! op_owner o = Some l → l_thread l = w_thread (cw s) →
  (l_stopping l || requested (cw s) (cn_token n)) = false →
  runs (channel_await_suspend x h) s (λ res s', ∃ g' gc' c',
    let '(susp, rx, st') := fifo_send (live_on s b) x v st in
    res = susp ∧ chans s' !! b = Some c' ∧ CInv s' g' gc' ∧ CAbs s' gc' b c' st' ∧
    (if susp then active_in s' x = true
     else w_ops (cw s') !! x = Some (if f_closed st then set_op_error (Some broken_pipe) o else o)) ∧
    match rx with Some y => cn_value <$> cnodes s' !! y = Some (Some v) | None => True end).
Proof.
  intros I Hc A Hwf F Hq Hs Hv HL Ht Hns. pose proof F as [Hn Hl Ho _ _ _ _ _].
  unfold channel_await_suspend. eapply (channel_await_prologue _ s x n o l); [done..|].
  apply post_bind. rewrite Hq. eapply post_the_chan; [done|]. rewrite Hs. unfold fifo_send. rewrite (ca_closed _ _ _ _ _ A).
  destruct (ch_closed c) eqn:Hcl.
  - apply post_bind, post_in_loop. step. apply post_ret.
    destruct (CInv_error s g gc b c st x n o (Some broken_pipe) I Hc A Hwf Hn Hl Ho) as [I' A'].
    exists g, gc, c. split_and!; [done|done|exact I'|exact A'|simpl; apply lookup_insert_eq|done].
  - apply post_bind. eapply post_value; [done|]. apply post_bind.
    eapply post_mono; [by apply (channel_push_spec s g gc b c st v)| |done].
    intros ok s' (g'&c'&rest&Hp). destruct (fifo_push (live_on s b) v st) as [[b' rx] st'] eqn:Hpush.
    destruct Hp as (->&CS&_&Hrx).
    pose proof (cfresh_step _ _ _ _ _ _ _ _ _ _ _ _ _ _ _ F I Hc Hq CS) as F'. destruct b'.
    + apply post_ret. eexists _, _, c'. split_and!; [done|apply CS|apply CS|apply CS|apply F'|].
      destruct rx; [apply Hrx|done].
    + destruct (cloop_step s s' _ _ (cn_token n) (cf_frame _ _ _ _ _ _ (cs_frame _ _ _ _ _ _ _ _ _ _ CS)) HL Ht) as (l'&HL'&Ht'&Hns').
      assert (Hpx : cpayload s' x = Some v).
      { unfold cpayload. rewrite (cx_node _ _ _ _ _ _ _ F'). by rewrite Hs. }
      eapply post_mono; [eapply (channel_block_spec s' g' _ b c' st' x n o vt k l' h); try done; try apply CS| |done].
      * by rewrite Hns'.
      * rewrite Hpx. eapply (fifo_push_wait (live_on s b) v st); [done| |done]. by rewrite (ca_closed _ _ _ _ _ A).
      * rewrite Hpx. intros res s2 (->&c2&?&?&?&?&_). eexists _, _, c2. split_and!; done.
Qed.

(** C4: Receiving from a channel performs the receive of the FIFO contract: the oldest value,
    refilled from the longest waiting live sender; block when there is none; nothing when
    closed and empty. *)
Theorem channel_recv_spec s g gc b c st x n o vt k l h :
  CInv s g gc → chans s !! b = Some c → CAbs s gc b c st → fifo_wf st → cfresh s g x n o vt k →
  cn_queue n = b → cn_sending n = false →
  w_loops (cw s) !! op_owner o = Some l → l_thread l = w_thread (cw s) →
  (l_stopping l || requested (cw s) (cn_token n)) = false →
  runs (channel_await_suspend x h) s (λ res s', ∃ g' gc' c',
    let '(v, susp, st') := fifo_recv (live_on s b) x st in
    res = susp ∧ chans s' !! b = Some c' ∧ CInv s' g' gc' ∧ CAbs s' gc' b c' st' ∧
    (if susp then active_in s' x = true
     else w_ops (cw s') !! x = Some o ∧
          cn_value <$> cnodes s' !! x = Some (match v with Some v => Some v | None => cn_value n end))).
Proof.
  intros I Hc A Hwf F Hq Hs HL Ht Hns. pose proof F as [Hn Hl Ho _ _ _ _ _].
  unfold channel_await_suspend. eapply (channel_await_prologue _ s x n o l); [done..|].
  apply post_bind. rewrite Hq. eapply post_the_chan; [done|]. rewrite Hs. unfold fifo_recv. rewrite (ca_closed _ _ _ _ _ A).
  apply post_bind. eapply post_mono; [by apply (channel_pop_spec s g gc b c st)| |done].
  intros res s' (g'&c'&rest&Hp). pose proof (fifo_pop_wf (live_on s b) st) as Hwf'.
  destruct (fifo_pop (live_on s b) st) as [[v tx] st'] eqn:Hpop. destruct Hp as (->&CS&_&_).
  specialize (Hwf' _ _ _ Hwf eq_refl).
  pose proof (cfresh_step _ _ _ _ _ _ _ _ _ _ _ _ _ _ _ F I Hc Hq CS) as F'.
  pose proof F' as [Hn' _ Ho' _ _ _ _ _]. destruct v as [v|].
  - apply post_bind. eapply post_upd_cnode; [done|]. apply post_ret.
    destruct (CInv_value s' g' _ b c' st' x n v (cs_inv _ _ _ _ _ _ _ _ _ _ CS) (cs_chan _ _ _ _ _ _ _ _ _ _ CS)
      (cs_abs _ _ _ _ _ _ _ _ _ _ CS) Hwf' Hn' Hl) as [I' A'].
    eexists _, _, c'. split_and!; [done|apply CS|exact I'|exact A'|exact Ho'|simpl; by rewrite lookup_insert_eq].
  - apply post_bind. eapply post_the_chan; [apply CS|]. rewrite (cs_closed _ _ _ _ _ _ _ _ _ _ CS).
    destruct (ch_closed c) eqn:Hcl.
    + apply post_ret. eexists _, _, c'. split_and!; [done|apply CS|apply CS|apply CS|exact Ho'|by rewrite Hn'].
    + destruct (cloop_step s s' _ _ (cn_token n) (cf_frame _ _ _ _ _ _ (cs_frame _ _ _ _ _ _ _ _ _ _ CS)) HL Ht) as (l'&HL'&Ht'&Hns').
      assert (Hpx : cpayload s' x = None).
      { unfold cpayload. rewrite Hn'. by rewrite Hs. }
      eapply post_mono; [eapply (channel_block_spec s' g' _ b c' st' x n o vt k l' h); try done; try apply CS| |done].
      * by rewrite Hns'.
      * rewrite Hpx. eapply (fifo_pop_wait (live_on s b) st); [done| |done]. by rewrite (ca_closed _ _ _ _ _ A).
      * rewrite Hpx. intros res s2 (->&c2&?&?&?&?&_). eexists _, _, c2. split_and!; done.
Qed.

(** ** [close] *)
Lemma set_w_ops_id (w : world D) : set_w_ops (w_ops w) w = w.
Proof. by destruct w. Qed.
Definition closed_op n (o : op) : op :=
  if op_active o then retired (if cn_sending n then set_op_error (Some broken_pipe) o else o) else o.

Record closing s s' g g' gc b c : Prop := {
  cg_links : CLinks ∅ s' g' (upd_at b (λ _, []) gc);
  cg_chans : ∃ f t, chans s' = <[b := set_ch_ends f t c]> (chans s);
  cg_other y : y ∉ gc b → cnodes s' !! y = cnodes s !! y ∧ w_ops (cw s') !! y = w_ops (cw s) !! y;
  cg_ops y n o : y ∈ gc b → cnodes s !! y = Some n → w_ops (cw s) !! y = Some o →
    w_ops (cw s') !! y = Some (closed_op n o);
  cg_ready : a_ready (g' (ch_loop c)) = a_ready (g (ch_loop c)) ++ actives s (gc b) }.

(** One iteration: the first waiter is unlinked and, if suspended, completed. *)
Lemma close_one_spec s g gc b c x xs n o :
  CLinks ∅ s g gc → chans s !! b = Some c → gc b = x :: xs → cnodes s !! x = Some n → cn_queue n = b →
  cn_linked n = true → w_ops (cw s) !! x = Some o → op_owner o = ch_loop c →
  runs (close_one x) s (λ _ s1,
    CLinks ∅ s1 (if op_active o then g_notify (ch_loop c) x g else g) (upd_at b (without x) gc) ∧
    (∃ f t, chans s1 = <[b := set_ch_ends f t c]> (chans s)) ∧
    cnodes s1 = <[x := set_cn_linked false n]> (cnodes s) ∧
    w_ops (cw s1) = <[x := closed_op n o]> (w_ops (cw s))).
Proof.
  intros C Hc Hgc Hn Hq Hl Ho Hown. unfold close_one. apply post_bind.
  eapply post_mono; [by apply (channel_unlink_spec ∅ s g gc x n C Hn Hl)| |done].
  rewrite Hq. intros _ s1 (l1&l2&_&->&C1).
  assert (Hch : alter (set_ch_ends (head (l1 ++ l2)) (last (l1 ++ l2))) b (chans s) =
    <[b := set_ch_ends (head (l1 ++ l2)) (last (l1 ++ l2)) c]> (chans s)) by (by apply insert_alter).
  assert (HY : (∅ ∪ {[x]}) ∖ {[x]} = (∅ : gset loc)) by set_solver.
  apply post_bind. eapply post_loop_read; [by apply the_op_run|].
  apply post_bind. apply (post_the_cnode x (set_cn_linked false n)); [apply lookup_insert_eq|]. simpl.
  unfold closed_op. apply post_when; intros Ha; rewrite Ha.
  - set (o1 := if cn_sending n then set_op_error (Some broken_pipe) o else o).
    set (w1 := set_w_ops (<[x := o1]> (w_ops (cw s))) (cw s)).
    assert (Ho1 : op_active o1 = true ∧ op_owner o1 = op_owner o) by (unfold o1; by destruct (cn_sending n)).
    assert (C2 : CLinks (∅ ∪ {[x]}) (set_cw w1 (cunlinked s b l1 l2 x n)) g (upd_at b (without x) gc)).
    { eapply CLinks_world; [exact C1|eapply Inv_upd_op; [apply C|done|apply Ho1|by destruct Ho1 as [-> _]]|done|done|].
      intros y ny oy Hy Hoy. simpl. destruct (decide (x = y)) as [<-|].
      - rewrite lookup_insert_eq. simpl in Hoy. simplify_eq. eexists. split_and!; [done|apply Ho1|]. intros _. by split.
      - rewrite lookup_insert_ne by done. eauto. }
    apply post_bind. eapply (post_mono _ _ (λ _ s', s' = set_cw w1 (cunlinked s b l1 l2 x n)) _ (λ _ _, False)).
    + unfold w1, o1. apply post_when; intros Hsd; rewrite Hsd; simpl.
      * apply post_in_loop. step. done.
      * rewrite insert_id by done. by rewrite set_w_ops_id.
    + intros _ ? ->. apply post_in_loop.
      eapply post_mono; [eapply (cnode_notify_spec _ _ _ _ x _ o1 C2); [apply lookup_insert_eq|apply lookup_insert_eq|apply Ho1]| |done].
      rewrite HY. destruct Ho1 as [_ Ho1]. rewrite Ho1, Hown. intros _ w2 (C3&Hops&_). split_and!; [exact C3|simpl; eauto|done|].
      simpl. rewrite Hops. simpl. by rewrite insert_insert_eq.
    + done.
  - split_and!; [|simpl; eauto|done|simpl; by rewrite insert_id].
    rewrite <- (set_cw_id (cunlinked _ _ _ _ _ _)). eapply CLinks_world; [exact C1|apply C|done|set_solver|].
    intros y ny oy Hy Hoy. exists oy. split_and!; try done. intros Hay. split; [done|].
    intros [?| ->%elem_of_singleton]%elem_of_union; [done|]. simpl in Hoy. congruence.
Qed.

Lemma close_loop_spec fuel s g gc b c :
  CLinks ∅ s g gc → chans s !! b = Some c → length (gc b) ≤ fuel →
  runs (close_loop fuel b) s (λ _ s', ∃ g', closing s s' g g' gc b c).
Proof.
  revert s g gc c. induction fuel as [|fuel IH]; intros s g gc c C Hc Hlen;
    destruct (cl_rep _ _ _ _ C _ _ Hc) as [Hrep _]; pose proof (dl_rep_head _ _ _ Hrep) as Hh;
    destruct (gc b) as [|x xs] eqn:Hgc; simpl in Hlen; try lia; simpl; apply post_bind;
    (eapply post_the_chan; [done|]); rewrite Hh; simpl.
  1,2: apply post_ret; exists g; split; [|exists (ch_first c), (ch_last c); by rewrite insert_id; destruct c|done|
    rewrite Hgc; set_solver|rewrite Hgc; simpl; by rewrite app_nil_r]; eapply CLinks_ext, C; [done|]; intros b'; unfold upd_at; case_decide; by subst.
  assert (Hx : x ∈ gc b) by (rewrite Hgc; set_solver). destruct (cl_linked _ _ _ _ C _ _ Hx) as (n&Hn&Hq&Hl).
  destruct (cl_node _ _ _ _ C _ _ Hn) as (_&_&_&c0&o&Hc0&Ho&Hown&_). rewrite Hq in Hc0.
  assert (c0 = c) as -> by congruence.
  pose proof (dl_rep_NoDup _ _ _ Hrep) as Hnd. pose proof Hnd as [Hni _]%NoDup_cons.
  pose proof (close_one_spec s g gc b c x xs n o C Hc Hgc Hn Hq Hl Ho Hown) as Hone.
  apply post_bind. eapply post_mono; [exact Hone| |done]. intros [] s1 (C1&(f&t&Hcs1)&Hns1&Hops1).
  assert (Hxs : upd_at b (without x) gc b = xs) by (rewrite upd_at_eq, Hgc; by apply (without_middle [])).
  assert (Hc1 : chans s1 !! b = Some (set_ch_ends f t c)) by (rewrite Hcs1; apply lookup_insert_eq).
  assert (Hops1' : ∀ y, y ≠ x → w_ops (cw s1) !! y = w_ops (cw s) !! y).
  { intros y Hy. rewrite Hops1. by apply lookup_insert_ne. }
  assert (Hns1' : ∀ y, y ≠ x → cnodes s1 !! y = cnodes s !! y).
  { intros y Hy. rewrite Hns1. by apply lookup_insert_ne. }
  eapply post_mono; [eapply (IH s1 _ _ _ C1 Hc1); rewrite Hxs; lia| |done].
  intros _ s' (g'&[C' (f'&t'&Hcs') Hoth Hops Hrdy]). rewrite Hxs in *. exists g'. split; rewrite ?Hgc.
  - eapply CLinks_ext, C'; [done|]. intros b'. unfold upd_at. by case_decide.
  - exists f', t'. rewrite Hcs', Hcs1. by rewrite insert_insert_eq.
  - intros y [? ?]%not_elem_of_cons. destruct (Hoth y) as [-> ->]; auto.
  - intros y ny oy [->|Hy]%elem_of_cons Hny Hoy.
    + simplify_eq. destruct (Hoth x) as [_ ->]; [done|]. rewrite Hops1. apply lookup_insert_eq.
    + assert (y ≠ x) by (by intros ->). apply Hops; [done|by rewrite Hns1'|by rewrite Hops1'].
  - simpl in Hrdy. rewrite Hrdy. rewrite (actives_ext s s1 x xs Hni Hops1').
    assert (Hax : active_in s x = op_active o) by (unfold active_in; by rewrite Ho). rewrite filter_cons, Hax.
    destruct (op_active o); [rewrite decide_True by done|by rewrite decide_False by done].
    unfold g_notify. rewrite upd_g_eq. simpl. by rewrite <- app_assoc.
Qed.

(** C39: Closing a channel releases every waiter in order, senders with [broken_pipe], keeps
    the buffered values, and leaves it in the closed state of the contract. *)
Theorem channel_close_spec s g gc b c st l :
  CInv s g gc → chans s !! b = Some c → CAbs s gc b c st → fifo_wf st →
  w_loops (cw s) !! ch_loop c = Some l → l_thread l = w_thread (cw s) →
  runs (channel_close b) s (λ _ s', ∃ g' c',
    chans s' !! b = Some c' ∧ CInv s' g' (upd_at b (λ _, []) gc) ∧
    CAbs s' (upd_at b (λ _, []) gc) b c' (fifo_close st) ∧
    (∀ y n o, y ∈ gc b → cnodes s !! y = Some n → w_ops (cw s) !! y = Some o →
       w_ops (cw s') !! y = Some (closed_op n o)) ∧
    a_ready (g' (ch_loop c)) = a_ready (g (ch_loop c)) ++ actives s (gc b)).
Proof.
  intros I Hc A Hwf HL Ht. pose proof (ci_links _ _ _ I) as C. unfold channel_close.
  apply post_bind. eapply post_the_chan; [done|].
  apply post_bind. eapply post_loop_read; [by rewrite (check_run _ _ _ HL), decide_True|].
  apply post_bind. eapply post_upd_chan; [done|]. apply post_bind, post_gets. simpl.
  set (s1 := set_chans _ s). assert (C1 : CLinks ∅ s1 g gc) by (eapply CLinks_ring; [exact C|done..]).
  assert (Hc1 : chans s1 !! b = Some (set_ch_closed true c)) by apply lookup_insert_eq.
  destruct (cl_rep _ _ _ _ C _ _ Hc) as [Hrep _].
  eapply post_mono; [apply (close_loop_spec _ s1 g gc b _ C1 Hc1)| |done].
  { apply NoDup_length_le_size; [by eapply dl_rep_NoDup|]. intros y Hy. by eapply dl_rep_lookup. }
  intros _ s' (g'&[C' (f&t&Hcs) Hoth Hops Hrdy]). simpl in *.
  assert (Hcs' : chans s' = <[b := set_ch_ends f t (set_ch_closed true c)]> (chans s)) by (by rewrite Hcs, insert_insert_eq).
  assert (A' : CAbs s' (upd_at b (λ _, []) gc) b (set_ch_ends f t (set_ch_closed true c)) (fifo_close st)).
  { destruct A. constructor; simpl; [done..|by rewrite upd_at_eq|done]. }
  exists g', (set_ch_ends f t (set_ch_closed true c)). split_and!; [by rewrite Hcs', lookup_insert_eq| |done|exact Hops|exact Hrdy].
  eapply (CInv_step s s' g g' gc _ b c _ _ I Hc C' Hcs'); [| |done|by apply fifo_close_wf].
  - intros b' Hne. by rewrite upd_at_ne.
  - intros b' y Hne Hy. apply Hoth. intros Hy'.
    destruct (cl_linked _ _ _ _ C _ _ Hy) as (?&?&?&_), (cl_linked _ _ _ _ C _ _ Hy') as (?&?&?&_). congruence.
Qed.
End channel.
