(* ===== verification/ChannelOrder.v ===== *)
(** * A channel without waiting is a bounded queue

    Programs of [try_send] and [try_recv], run on the code of the channel, against the
    same programs run on a list. *)
From S2P Require Import Prelude ReadyQueue Links Heap Core Loop LoopInv LoopSpec Fifo Channel.

(** ** The reference: a list of at most [cap] values *)
Section reference.
Context {T : Type}.
Implicit Types (q : list T) (es : list (option T)).

(** [Some v] sends [v], [None] receives; the values accepted, those received, and the
    queue at the end. *)
Fixpoint queue_run (cap : nat) es q : list T * list T * list T :=
  match es with
  | [] => ([], [], q)
  | Some v :: es' =>
      if bool_decide (length q = cap) then queue_run cap es' q
      else let '(a, r, q') := queue_run cap es' (q ++ [v]) in (v :: a, r, q')
  | None :: es' =>
      match q with
      | [] => queue_run cap es' []
      | v :: q' => let '(a, r, q'') := queue_run cap es' q' in (a, v :: r, q'')
      end
  end.
Lemma queue_run_fifo cap es : ∀ q, length q ≤ cap →
  let '(a, r, q') := queue_run cap es q in q ++ a = r ++ q' ∧ length q' ≤ cap.
Proof.
  induction es as [|[v|] es IH]; intros q Hq; simpl; [by rewrite app_nil_r| |].
  - case_bool_decide as Hf; [by apply IH|].
    assert (length (q ++ [v]) ≤ cap) as Hl by (rewrite length_app; simpl; lia). specialize (IH _ Hl).
    destruct (queue_run cap es (q ++ [v])) as [[a r] q']. by rewrite <- app_assoc in IH.
  - destruct q as [|v q]; [by apply IH|]. simpl in Hq. specialize (IH q ltac:(lia)).
    destruct (queue_run cap es q) as [[a r] q']. simpl. destruct IH as [-> ?]. done.
Qed.
End reference.

Section order.
Context {D T : Type}.
Implicit Types (b : loc) (v : T) (s : @cworld D T) (g : ghost) (gc : loc → list loc) (c : channel (T := T)) (es : list (option T)).

(** The same program on a channel. *)
Fixpoint try_all b es : M (@cworld D T) (list T * list T) :=
  match es with
  | [] => mret ([], [])
  | Some v :: es' =>
      ok ← channel_try_send b v;
      ar ← try_all b es';
      mret (if ok : bool then v :: ar.1 else ar.1, ar.2)
  | None :: es' =>
      o ← channel_try_recv b;
      ar ← try_all b es';
      mret (ar.1, match o with Some v => v :: ar.2 | None => ar.2 end)
  end.

(** An open channel nobody waits on, used by its own thread, holding [q]. *)
Record quiet s g gc b (q : list T) (cap : nat) : Prop := {
  qu_inv : CInv s g gc;
  qu_alone : gc b = [];
  qu_chan : ∃ c l, chans s !! b = Some c ∧ CAbs s gc b c (Fifo cap q [] false) ∧ ch_closed c = false ∧
              w_loops (cw s) !! ch_loop c = Some l ∧ l_thread l = w_thread (cw s) ∧ l_stopping l = false;
  qu_cap : length q ≤ cap }.

Lemma quiet_wf (q : list T) cap : length q ≤ cap → fifo_wf (Fifo cap q [] false).
Proof. intros Hq. constructor; simpl; try done; set_solver. Qed.
Lemma quiet_step s s' g g' gc b c c' rest (q' : list T) cap l :
  chans s !! b = Some c → ch_closed c = false → w_loops (cw s) !! ch_loop c = Some l → l_thread l = w_thread (cw s) →
  l_stopping l = false → gc b = [] → (∃ pre, gc b = pre ++ rest) → length q' ≤ cap →
  cstep s s' g g' gc b c c' rest (Fifo cap q' [] false) → ∃ gc', quiet s' g' gc' b q' cap.
Proof.
  intros Hc Hcl HL Ht Hs Hgc (pre&Hpre) Hq [I' A' Hc' Hlp Hcl' _ F]. rewrite Hgc in Hpre.
  destruct (cloop_step s s' _ l None (cf_frame _ _ _ _ _ _ F) HL Ht) as (l'&HL'&Ht'&Hs'). simpl in Hs'. rewrite !orb_false_r in Hs'.
  exists (upd_at b (λ _, rest) gc). split; [done| | |done].
  - rewrite upd_at_eq. by destruct rest, pre.
  - exists c', l'. rewrite Hlp. split_and!; [done..|congruence|done|done|congruence].
Qed.

Lemma quiet_send s g gc b q cap v :
  quiet s g gc b q cap →
  runs (channel_try_send b v) s (λ ok s', ok = negb (bool_decide (length q = cap)) ∧
    ∃ g' gc', quiet s' g' gc' b (if ok : bool then q ++ [v] else q) cap).
Proof.
  intros [I Hgc (c&l&Hc&A&Hcl&HL&Ht&Hs) Hq]. unfold channel_try_send. apply post_bind. eapply post_the_chan; [done|].
  apply post_bind. eapply post_loop_read; [by rewrite (check_run _ _ _ HL), decide_True|]. rewrite Hcl.
  apply post_bind. eapply post_loop_read; [by apply stopped_run|]. rewrite Hs.
  eapply post_mono; [apply (channel_push_spec s g gc b c _ v I Hc A (quiet_wf q cap Hq))| |done].
  intros ok s' (g'&c'&rest&H). unfold fifo_push in H. simpl in H. case_bool_decide as Hf; simpl.
  all: destruct H as (->&CS&Hpre&_); split; [done|]; exists g'; eapply (quiet_step s s' g g' gc b c c' rest); try done.
  rewrite length_app. simpl. lia.
Qed.
Lemma quiet_recv s g gc b q cap :
  quiet s g gc b q cap →
  runs (channel_try_recv b) s (λ o s', o = head q ∧ ∃ g' gc', quiet s' g' gc' b (tail q) cap).
Proof.
  intros [I Hgc (c&l&Hc&A&Hcl&HL&Ht&Hs) Hq]. unfold channel_try_recv. apply post_bind. eapply post_the_chan; [done|].
  apply post_bind. eapply post_loop_read; [by rewrite (check_run _ _ _ HL), decide_True|].
  apply post_bind. eapply post_loop_read; [by apply stopped_run|]. rewrite Hs.
  eapply post_mono; [apply (channel_pop_spec s g gc b c _ I Hc A (quiet_wf q cap Hq))| |done].
  intros o s' (g'&c'&rest&H). rewrite fifo_pop_alt in H. simpl in H. destruct H as (->&CS&Hpre&_).
  split; [done|]. exists g'. eapply (quiet_step s s' g g' gc b c c' rest); try done. destruct q; simpl in *; lia.
Qed.

(** C7: A channel on which nobody waits is a bounded first-in first-out queue: any program of
    [try_send] and [try_recv] accepts, refuses and returns exactly what it would on a
    list of at most the capacity, so that values come out in the order they went in and
    none is lost or duplicated. *)
Theorem channel_queue_equiv s g gc b q cap es :
  quiet s g gc b q cap →
  runs (try_all b es) s (λ ar s', ∃ g' gc' q', quiet s' g' gc' b q' cap ∧
    queue_run cap es q = (ar.1, ar.2, q') ∧ q ++ ar.1 = ar.2 ++ q' ∧ length q' ≤ cap).
Proof.
  intros Hs. assert (runs (try_all b es) s (λ ar s', ∃ g' gc' q', quiet s' g' gc' b q' cap ∧
    queue_run cap es q = (ar.1, ar.2, q'))) as H.
  { revert s g gc q Hs. induction es as [|[v|] es IH]; intros s g gc q Hs; simpl.
    - apply post_ret. by exists g, gc, q.
    - apply post_bind. eapply post_mono; [by apply (quiet_send s g gc b q cap v)| |done].
      intros ok s1 (->&g1&gc1&H1). apply post_bind. eapply post_mono; [apply (IH _ _ _ _ H1)| |done].
      intros ar s2 (g2&gc2&q2&H2&Hr). apply post_ret. exists g2, gc2, q2. split; [done|].
      case_bool_decide; simpl in *; rewrite Hr; done.
    - apply post_bind. eapply post_mono; [by apply (quiet_recv s g gc b q cap)| |done].
      intros o s1 (->&g1&gc1&H1). apply post_bind. eapply post_mono; [apply (IH _ _ _ _ H1)| |done].
      intros ar s2 (g2&gc2&q2&H2&Hr). apply post_ret. exists g2, gc2, q2. split; [done|].
      destruct q; simpl in *; rewrite Hr; done. }
  eapply post_mono; [exact H| |done]. intros ar s' (g'&gc'&q'&H1&H2). exists g', gc', q'. split_and!; try done.
  all: pose proof (queue_run_fifo cap es q (qu_cap _ _ _ _ _ _ Hs)) as Hf; rewrite H2 in Hf; apply Hf.
Qed.
End order.
