(* ===== verification/Mailbox.v ===== *)
(** * Mailboxes (include/snowy/mailbox.hpp)

    A bounded FIFO shared by several loops.  Its waiters are [remote_wait]s of one
    [wait_queue]; every operation is a critical section under [queue_.mutex].
    [MInv] relates a mailbox to the contract of [Fifo], and every operation is shown
    to perform its step of the contract. *)
From S2P Require Import Prelude ReadyQueue Links Heap Core Loop LoopInv LoopSpec WaitQueue Fifo.

Section mailbox.
Context {D T : Type}.

(** [class mailbox] and its [node], which extends the [remote_wait] at the same
    address. *)
Record mailbox := Mailbox { mb_queue : loc; mb_ring : ring T; mb_closed : bool }.
Record mnode := MNode { mn_box : loc; mn_value : option T; mn_sending : bool }.
Record mworld := MWorld { mw : world D; boxes : gmap loc mailbox; mnodes : gmap loc mnode }.
Local Abbreviation M := (M mworld).
Implicit Types (b x : loc) (v : T) (s : mworld) (g : ghost) (gq : loc → list loc) (m : mailbox).

Definition set_mw w s := MWorld w (boxes s) (mnodes s).
Definition set_boxes bs s := MWorld (mw s) bs (mnodes s).
Definition set_mnodes ns s := MWorld (mw s) (boxes s) ns.
Definition set_mb_ring r m := Mailbox (mb_queue m) r (mb_closed m).
Definition set_mb_closed c m := Mailbox (mb_queue m) (mb_ring m) c.
Definition set_mn_value o (n : mnode) := MNode (mn_box n) o (mn_sending n).

Definition in_world {A} (c : Prelude.M (world D) A) : M A := zoom (λ s, Some (mw s)) set_mw c.
Definition the_box b : M mailbox := deref (λ s, boxes s !! b).
Definition upd_box b (f : mailbox → mailbox) : M unit :=
  m ← the_box b; modify (λ s, set_boxes (<[b := f m]> (boxes s)) s).
Definition the_mnode x : M mnode := deref (λ s, mnodes s !! x).
Definition upd_mnode x (f : mnode → mnode) : M unit :=
  n ← the_mnode x; modify (λ s, set_mnodes (<[x := f n]> (mnodes s)) s).
Definition some_ {A} (o : option A) : M A := deref (λ _, o).

(** ** Operations *)

(** [node* mailbox::front(bool sending)] *)
Definition mailbox_front b (sending : bool) : M (option loc) :=
  m ← the_box b;
  f ← in_world (remote_front (mb_queue m));
  match f with
  | Some x => n ← the_mnode x; mret (if eqb (mn_sending n) sending then Some x else None)
  | None => mret None
  end.

(** [bool mailbox::push(T& value)] *)
Definition mailbox_push b v : M bool :=
  f ← mailbox_front b false;
  match f with
  | Some x =>
      upd_mnode x (set_mn_value (Some v)) ;;
      in_world (deliver x None) ;;
      mret true
  | None =>
      m ← the_box b;
      if ring_full (mb_ring m) then mret false else
        r ← some_ (ring_put v (mb_ring m));
        upd_box b (set_mb_ring r) ;;
        mret true
  end.

(** [std::optional<T> mailbox::pop()] *)
Definition mailbox_pop b : M (option T) :=
  m ← the_box b;
  result ← (if bool_decide (size_ (mb_ring m) = 0) then mret None else
              vr ← some_ (ring_get (mb_ring m));
              upd_box b (set_mb_ring vr.2) ;;
              mret (Some vr.1));
  f ← mailbox_front b true;
  match f with
  | None => mret result
  | Some x =>
      n ← the_mnode x;
      u ← some_ (mn_value n);
      result' ← match result with
                | Some v =>
                    m' ← the_box b;
                    r ← some_ (ring_put u (mb_ring m'));
                    upd_box b (set_mb_ring r) ;;
                    mret (Some v)
                | None => mret (Some u)
                end;
      in_world (deliver x None) ;;
      mret result'
  end.

(** [bool node::await_suspend(std::coroutine_handle<> h)] *)
Definition mailbox_await_suspend x (h : coro) : M bool :=
  c ← in_world (canceled_now x);
  if c : bool then mret false else
    n ← the_mnode x;
    m ← the_box (mn_box n);
    if mn_sending n then
      if mb_closed m then
        in_world (upd_op x (set_op_error (Some broken_pipe))) ;; mret false
      else
        v ← some_ (mn_value n);
        ok ← mailbox_push (mn_box n) v;
        if ok : bool then mret false else in_world (enqueue x h)
    else
      v ← mailbox_pop (mn_box n);
      match v with
      | Some v => upd_mnode x (set_mn_value (Some v)) ;; mret false
      | None =>
          m ← the_box (mn_box n);
          if mb_closed m then mret false else in_world (enqueue x h)
      end.

(** [bool mailbox::try_send(T& value)], [std::optional<T> mailbox::try_recv()] *)
Definition mailbox_try_send b v : M bool :=
  m ← the_box b;
  if mb_closed m then mret false else mailbox_push b v.
Definition mailbox_try_recv b : M (option T) := mailbox_pop b.

(** [void mailbox::close()] *)
Definition mailbox_close b : M unit :=
  upd_box b (set_mb_closed true) ;;
  m ← the_box b;
  ns ← gets mnodes;
  in_world (drain (mb_queue m) (λ x,
    n ← deref (λ _, ns !! x);
    mret (if mn_sending n then Some broken_pipe else None))).

(** ** Abstraction *)
Definition payload s x : option T :=
  match mnodes s !! x with Some n => if mn_sending n then mn_value n else None | None => None end.
Definition waiters_of s (xs : list loc) : list (waiter T) := (λ x, (x, payload s x)) <$> xs.
Definition live_in s x : bool := negb (doomed (mw s) x).

Record MAbs s gq m (st : fifo T) : Prop := {
  ma_ring : ring_rep (mb_ring m) (f_buf st);
  ma_cap : f_cap st = length (slots (mb_ring m));
  ma_waiters : f_waiters st = waiters_of s (gq (mb_queue m));
  ma_closed : f_closed st = mb_closed m }.

Record MInv s g gq : Prop := {
  mi_inv : Inv ∅ (mw s) g;
  mi_winv : WInv ∅ (mw s) g gq;
  mi_queue b b' m m' : boxes s !! b = Some m → boxes s !! b' = Some m' → mb_queue m = mb_queue m' → b = b';
  mi_box b m : boxes s !! b = Some m →
    is_Some (w_queues (mw s) !! mb_queue m) ∧ ∃ st, MAbs s gq m st ∧ fifo_wf st;
  mi_node b m x : boxes s !! b = Some m → x ∈ gq (mb_queue m) →
    ∃ n, mnodes s !! x = Some n ∧ mn_box n = b ∧ (mn_sending n = true → is_Some (mn_value n)) }.

Lemma set_mw_id s : set_mw (mw s) s = s.
Proof. by destruct s. Qed.

(** ** Rules for the accessors *)
Lemma post_in_world {A} (c : Prelude.M (world D) A) s (Q : A → mworld → Prop) (E : exn → mworld → Prop) :
  post c (mw s) (λ a w', Q a (set_mw w' s)) (λ e w', E e (set_mw w' s)) → post (in_world c) s Q E.
Proof. intros H. unfold in_world. by eapply post_zoom. Qed.
Lemma post_the_box b m s (Q : mailbox → mworld → Prop) (E : exn → mworld → Prop) :
  boxes s !! b = Some m → Q m s → post (the_box b) s Q E.
Proof. intros. by eapply post_deref. Qed.
Lemma post_upd_box b m f s (Q : unit → mworld → Prop) (E : exn → mworld → Prop) :
  boxes s !! b = Some m → Q tt (set_boxes (<[b := f m]> (boxes s)) s) → post (upd_box b f) s Q E.
Proof. intros. apply post_bind. by eapply post_the_box, post_modify. Qed.
Lemma post_the_mnode x n s (Q : mnode → mworld → Prop) (E : exn → mworld → Prop) :
  mnodes s !! x = Some n → Q n s → post (the_mnode x) s Q E.
Proof. intros. by eapply post_deref. Qed.
Lemma post_upd_mnode x n f s (Q : unit → mworld → Prop) (E : exn → mworld → Prop) :
  mnodes s !! x = Some n → Q tt (set_mnodes (<[x := f n]> (mnodes s)) s) → post (upd_mnode x f) s Q E.
Proof. intros. apply post_bind. by eapply post_the_mnode, post_modify. Qed.
Lemma post_some {A} (o : option A) a s (Q : A → mworld → Prop) (E : exn → mworld → Prop) :
  o = Some a → Q a s → post (some_ o) s Q E.
Proof. intros. by eapply post_deref. Qed.

(** ** Steps on one mailbox *)
Lemma MInv_step s s' g g' gq gq' b m m' st' :
  MInv s g gq → boxes s !! b = Some m →
  Inv ∅ (mw s') g' → WInv ∅ (mw s') g' gq' →
  boxes s' = <[b := m']> (boxes s) → mb_queue m' = mb_queue m →
  (∀ q, is_Some (w_queues (mw s) !! q) → is_Some (w_queues (mw s') !! q)) →
  (∀ q, q ≠ mb_queue m → gq' q = gq q) →
  (∀ x q, q ≠ mb_queue m → x ∈ gq q → mnodes s' !! x = mnodes s !! x) →
  (∀ x, x ∈ gq' (mb_queue m) →
     ∃ n, mnodes s' !! x = Some n ∧ mn_box n = b ∧ (mn_sending n = true → is_Some (mn_value n))) →
  MAbs s' gq' m' st' → fifo_wf st' → MInv s' g' gq'.
Proof.
  intros I Hb Hi Hw Hbs Hq Hqs Hgq Hns Hnode Habs Hwf.
  assert (Hsep : ∀ b' m0, b' ≠ b → boxes s !! b' = Some m0 → mb_queue m0 ≠ mb_queue m).
  { intros b' m0 Hne Hm0 He. apply Hne. by eapply (mi_queue _ _ _ I). }
  constructor; [done|done| | |]; rewrite Hbs.
  - intros b1 b2 m1 m2 [[<- <-]|[? H1]]%lookup_insert_Some [[<- <-]|[? H2]]%lookup_insert_Some; rewrite ?Hq.
    + done.
    + intros He. by eapply (mi_queue _ _ _ I).
    + intros He. by eapply (mi_queue _ _ _ I).
    + by eapply (mi_queue _ _ _ I).
  - intros b1 m1 [[<- <-]|[Hne H1]]%lookup_insert_Some.
    + rewrite Hq. split; [apply Hqs; by eapply (mi_box _ _ _ I)|eauto].
    + destruct (mi_box _ _ _ I _ _ H1) as (?&st&[]&?). split; [by apply Hqs|]. exists st. split; [|done].
      constructor; try done. rewrite ma_waiters0, Hgq by (by eapply Hsep). unfold waiters_of.
      apply list_fmap_ext. intros _ x Hx%list_elem_of_lookup_2. f_equal. unfold payload.
      rewrite (Hns x (mb_queue m1)); [done|by eapply Hsep|done].
  - intros b1 m1 x [[<- <-]|[Hne H1]]%lookup_insert_Some; [rewrite Hq; apply Hnode|].
    assert (Hs : mb_queue m1 ≠ mb_queue m) by (by eapply Hsep). rewrite Hgq by done. intros Hx.
    rewrite (Hns x (mb_queue m1)) by done. by eapply (mi_node _ _ _ I).
Qed.

Definition verdict s x : option errc := if doomed (mw s) x then Some operation_canceled else None.

Lemma prune_waiters s xs st :
  f_waiters st = waiters_of s xs →
  prune (live_in s) st = waiters_of s (drop_while (doomed (mw s)) xs).
Proof.
  intros Hw. unfold prune. rewrite Hw. unfold live_in. clear. induction xs as [|x xs IH]; simpl; [done|].
  rewrite negb_involutive. by destruct (doomed (mw s) x).
Qed.

(** The result of [mailbox_front]: the first live waiter, when it goes the right way. *)
Definition matching s (sending : bool) (rest : list loc) : option loc :=
  match rest with
  | x :: _ => if eqb (is_sender (x, payload s x)) sending then Some x else None
  | [] => None
  end.

(** What looking at the queue of [b] relies on, the buffer apart. *)
Record MQueue s g gq b m : Prop := {
  mq_inv : Inv ∅ (mw s) g;
  mq_winv : WInv ∅ (mw s) g gq;
  mq_box : boxes s !! b = Some m;
  mq_queue : is_Some (w_queues (mw s) !! mb_queue m);
  mq_node x : x ∈ gq (mb_queue m) →
    ∃ n, mnodes s !! x = Some n ∧ mn_box n = b ∧ (mn_sending n = true → is_Some (mn_value n)) }.
Lemma MInv_queue s g gq b m : MInv s g gq → boxes s !! b = Some m → MQueue s g gq b m.
Proof. intros I Hb. split; try apply I; [done|by eapply (mi_box _ _ _ I)|]. intros x. by eapply (mi_node _ _ _ I). Qed.
Lemma MQueue_ring s g gq b m r :
  MQueue s g gq b m → MQueue (set_boxes (<[b := set_mb_ring r m]> (boxes s)) s) g gq b (set_mb_ring r m).
Proof. intros []. split; try done. simpl. by rewrite lookup_insert_eq. Qed.

Lemma payload_node s g gq b m x :
  MQueue s g gq b m → x ∈ gq (mb_queue m) →
  ∃ n, mnodes s !! x = Some n ∧ mn_box n = b ∧ is_sender (x, payload s x) = mn_sending n ∧
       payload s x = if mn_sending n then mn_value n else None.
Proof.
  intros I Hx. destruct (mq_node _ _ _ _ _ I _ Hx) as (n&Hn&Hbn&Hs). exists n. split_and!; [done..| |].
  - unfold payload, is_sender. rewrite Hn. simpl. destruct (mn_sending n); [|done]. by destruct Hs as [? ->].
  - unfold payload. by rewrite Hn.
Qed.

Lemma mailbox_front_spec s g gq b m sending :
  MQueue s g gq b m →
  runs (mailbox_front b sending) s (λ res s1, ∃ w1, s1 = set_mw w1 s ∧
    released ∅ (mw s) w1 g gq (mb_queue m) (verdict s)
      (take_while (doomed (mw s)) (gq (mb_queue m))) (drop_while (doomed (mw s)) (gq (mb_queue m))) ∧
    res = matching s sending (drop_while (doomed (mw s)) (gq (mb_queue m)))).
Proof.
  intros I. pose proof I as [Hi Hw Hb Hq _]. unfold mailbox_front.
  apply post_bind. eapply post_the_box; [done|]. apply post_bind, post_in_world.
  eapply post_mono; [apply (remote_front_spec ∅ _ g gq _ Hi Hw Hq)| |done].
  intros res w1 [-> R]. cbv zeta in *.
  assert (R' : released ∅ (mw s) w1 g gq (mb_queue m) (verdict s) (take_while (doomed (mw s)) (gq (mb_queue m)))
                 (drop_while (doomed (mw s)) (gq (mb_queue m)))).
  { eapply released_ext, R. intros x Hx. unfold verdict. by rewrite (elem_of_take_while _ _ _ Hx). }
  destruct (drop_while (doomed (mw s)) (gq (mb_queue m))) as [|x rest] eqn:E; simpl.
  - apply post_ret. eauto.
  - destruct (payload_node s g gq b m x I) as (n&Hn&_&Hs&_).
    { rewrite <- (take_drop_while (doomed (mw s)) (gq (mb_queue m))), E. set_solver. }
    apply post_bind. eapply post_the_mnode; [done|]. apply post_ret. rewrite Hs. eauto.
Qed.

(** A step of the mailbox [b]: the waiters [rel] have been released, [rest] are
    still linked, and the new state is [st']. *)
Record mstep s s' g gq b m m' rel rest st' : Prop := {
  ms_inv : MInv s' (g_delivers (mw s) rel g) (upd_at (mb_queue m) (λ _, rest) gq);
  ms_abs : MAbs s' (upd_at (mb_queue m) (λ _, rest) gq) m' st';
  ms_box : boxes s' = <[b := m']> (boxes s);
  ms_rel : released ∅ (mw s) (mw s') g gq (mb_queue m) (verdict s) rel rest }.

Lemma mstep_intro s s' g gq b m m' rel rest st' :
  MInv s g gq → boxes s !! b = Some m →
  released ∅ (mw s) (mw s') g gq (mb_queue m) (verdict s) rel rest →
  gq (mb_queue m) = rel ++ rest → boxes s' = <[b := m']> (boxes s) → mb_queue m' = mb_queue m →
  (∀ y, y ∉ rel → mnodes s' !! y = mnodes s !! y) →
  ring_rep (mb_ring m') (f_buf st') → f_cap st' = length (slots (mb_ring m')) →
  f_waiters st' = waiters_of s rest → f_closed st' = mb_closed m' → fifo_wf st' →
  mstep s s' g gq b m m' rel rest st'.
Proof.
  intros I Hb R Hgq Hbs Hq Hns Hr Hcap Hws Hcl Hwf.
  destruct (mi_box _ _ _ I _ _ Hb) as [[vq Hvq] _].
  destruct (wi_rep _ _ _ _ (mi_winv _ _ _ I) _ _ Hvq) as [Hrep _].
  pose proof (dl_rep_NoDup _ _ _ Hrep) as Hnd. rewrite Hgq in Hnd. apply NoDup_app in Hnd as (_&Hdis&_).
  assert (Habs : MAbs s' (upd_at (mb_queue m) (λ _, rest) gq) m' st').
  { constructor; [done..| |done]. rewrite Hws, Hq, upd_at_eq. unfold waiters_of. apply list_fmap_ext.
    intros _ x Hx%list_elem_of_lookup_2. f_equal. unfold payload. rewrite Hns; [done|]. set_solver. }
  split; [|done|done|done].
  eapply (MInv_step s s' g _ gq _ b m m' st' I Hb); [apply R|apply R|done|done|apply R| | | |done|done].
  - intros q Hne. by rewrite upd_at_ne.
  - intros x q Hne Hx. apply Hns. intros Hx'. assert (Hx2 : x ∈ gq (mb_queue m)) by (rewrite Hgq; set_solver).
    destruct (wi_linked _ _ _ _ (mi_winv _ _ _ I) _ _ Hx) as (?&?&?&_).
    destruct (wi_linked _ _ _ _ (mi_winv _ _ _ I) _ _ Hx2) as (?&?&?&_). congruence.
  - rewrite upd_at_eq. intros x Hx. rewrite Hns by set_solver. eapply (mi_node _ _ _ I); [done|].
    rewrite Hgq. set_solver.
Qed.

(** Releasing the first live waiter after the queue has been pruned. *)
Lemma deliver_front s w1 g gq q x rest :
  Inv ∅ (mw s) g → WInv ∅ (mw s) g gq → is_Some (w_queues (mw s) !! q) →
  released ∅ (mw s) w1 g gq q (verdict s) (take_while (doomed (mw s)) (gq q)) (x :: rest) →
  drop_while (doomed (mw s)) (gq q) = x :: rest →
  runs (deliver x None) w1 (λ _ w2,
    released ∅ (mw s) w2 g gq q (verdict s) (take_while (doomed (mw s)) (gq q) ++ [x]) rest ∧
    gq q = (take_while (doomed (mw s)) (gq q) ++ [x]) ++ rest).
Proof.
  intros I W [v Hv] R Hd.
  assert (Hsplit : gq q = (take_while (doomed (mw s)) (gq q) ++ [x]) ++ rest).
  { rewrite <- app_assoc. simpl. rewrite <- Hd. by rewrite take_drop_while. }
  assert (Hx : verdict s x = None).
  { assert (head (drop_while (doomed (mw s)) (gq q)) = Some x) as [_ H]%head_drop_while by (by rewrite Hd).
    unfold verdict. by rewrite H. }
  pose proof (deliver_released ∅ w1 (g_delivers (mw s) (take_while (doomed (mw s)) (gq q)) g)
    (upd_at q (λ _, x :: rest) gq) q x rest (verdict s)) as Hdel. rewrite Hx in Hdel.
  eapply post_mono; [apply Hdel| |done].
  - apply R.
  - apply R.
  - by rewrite upd_at_eq.
  - apply R. by eexists.
  - intros [] w2 R2. split; [|done]. eapply released_app; [| |exact R|exact R2]; [|rewrite Hsplit; set_solver].
    destruct (wi_rep _ _ _ _ W _ _ Hv) as [Hrep _]. apply dl_rep_NoDup in Hrep. rewrite Hsplit in Hrep.
    by apply NoDup_app in Hrep as (?&_&_).
Qed.

(** ** [push] performs the contract's step *)
Lemma mailbox_push_spec s g gq b m st v :
  MInv s g gq → boxes s !! b = Some m → MAbs s gq m st → fifo_wf st →
  runs (mailbox_push b v) s (λ res s', ∃ m' rel rest,
    let '(ok, rx, st') := fifo_push (live_in s) v st in
    res = ok ∧ mstep s s' g gq b m m' rel rest st' ∧ gq (mb_queue m) = rel ++ rest ∧
    mb_queue m' = mb_queue m ∧ mb_closed m' = mb_closed m ∧
    match rx with
    | Some x => x ∈ rel ∧ live_in s x = true ∧ ∃ n, mnodes s !! x = Some n ∧
                mnodes s' = <[x := set_mn_value (Some v) n]> (mnodes s)
    | None => mnodes s' = mnodes s
    end).
Proof.
  intros I Hb A Hwf. pose proof A as [Hring Hcap Hws Hcl]. destruct (mi_box _ _ _ I _ _ Hb) as [Hq _].
  pose proof (fifo_push_wf (live_in s) v st) as Hwf'. unfold fifo_push in *. rewrite (prune_waiters s _ st Hws) in *.
  unfold mailbox_push. apply post_bind.
  eapply post_mono; [by apply (mailbox_front_spec s g gq b m false), MInv_queue| |done].
  intros res s1 (w1&->&R&->). set (pre := take_while (doomed (mw s)) (gq (mb_queue m))) in *.
  pose proof (take_drop_while (doomed (mw s)) (gq (mb_queue m))) as Hsplit. fold pre in Hsplit.
  destruct (drop_while (doomed (mw s)) (gq (mb_queue m))) as [|x rest] eqn:Hd.
  - simpl. apply post_bind. eapply post_the_box; [done|]. rewrite (ring_full_spec _ _ Hring), <- Hcap.
    simpl in Hwf'. case_bool_decide as Hfull.
    + apply post_ret. exists m, pre, []. split_and!; try done.
      eapply mstep_intro; eauto; simpl; by rewrite ?insert_id.
    + destruct (ring_put_rep _ _ v Hring) as (r'&Hr'&Hrep'&Hlen').
      { pose proof (wf_cap _ Hwf). destruct Hring as (<-&_). lia. }
      apply post_bind. eapply post_some; [done|]. apply post_bind. eapply post_upd_box; [done|].
      apply post_ret. exists (set_mb_ring r' m), pre, []. split_and!; try done.
      eapply mstep_intro; eauto; simpl; congruence.
  - destruct (payload_node s g gq b m x (MInv_queue _ _ _ _ _ I Hb)) as (n&Hn&Hbn&Hs&Hpay); [rewrite <- Hsplit; set_solver|].
    assert (head (drop_while (doomed (mw s)) (gq (mb_queue m))) = Some x) as [_ Hdx]%head_drop_while by (by rewrite Hd).
    cbn [waiters_of matching fmap list_fmap] in *. destruct (payload s x) as [u|] eqn:Hp; simpl.
    + assert (Hfull : length (f_buf st) = f_cap st).
      { apply (wf_full _ Hwf (x, Some u)); [|done]. rewrite Hws, <- Hsplit. unfold waiters_of. rewrite fmap_app.
        cbn. rewrite Hp. set_solver. }
      rewrite (bool_decide_true _ Hfull) in *. 
      apply post_bind. eapply post_the_box; [done|]. rewrite (ring_full_spec _ _ Hring), <- Hcap, bool_decide_true by done.
      apply post_ret. exists m, pre, (x :: rest). split_and!; try done.
      eapply mstep_intro; eauto; simpl; rewrite ?insert_id, ?Hp; done.
    + apply post_bind. eapply post_upd_mnode; [done|]. apply post_bind, post_in_world. simpl.
      eapply post_mono; [eapply (deliver_front s w1 g gq (mb_queue m) x rest); try done; apply I| |done].
      intros _ w2 [R2 Hsp2]. apply post_ret. exists m, (pre ++ [x]), rest. split_and!; try done.
      * eapply mstep_intro; eauto; simpl; [by rewrite insert_id|]. 
        intros y Hy. apply lookup_insert_ne. set_solver.
      * set_solver.
      * unfold live_in. by rewrite Hdx.
      * eauto.
Qed.

(** ** [pop] performs the contract's step *)

(** The first part of [pop] takes the oldest buffered value. *)
Lemma pop_buffer s b m buf :
  boxes s !! b = Some m → ring_rep (mb_ring m) buf →
  runs (if bool_decide (size_ (mb_ring m) = 0) then mret None else
          vr ← some_ (ring_get (mb_ring m));
          upd_box b (set_mb_ring vr.2) ;;
          mret (Some vr.1)) s (λ res s', ∃ r,
    res = head buf ∧ s' = set_boxes (<[b := set_mb_ring r m]> (boxes s)) s ∧
    ring_rep r (tail buf) ∧ length (slots r) = length (slots (mb_ring m))).
Proof.
  intros Hb Hr. pose proof Hr as (Hlen&_). destruct buf as [|v buf]; simpl in Hlen.
  - rewrite bool_decide_true by done. apply post_ret. exists (mb_ring m). split_and!; [done| |done|done].
    rewrite insert_id; [by destruct s|]. by destruct m.
  - rewrite bool_decide_false by lia. destruct (ring_get_rep _ _ _ Hr) as (r&Hg&Hr'&Hl).
    apply post_bind. eapply post_some; [done|]. apply post_bind. eapply post_upd_box; [done|].
    apply post_ret. eauto.
Qed.

(** The second part refills the freed slot from a blocked sender. *)
Lemma pop_refill w1 s b m r buf u :
  ring_rep r (tail buf) → length buf ≤ length (slots r) →
  runs (match head buf with
        | Some v =>
            m' ← the_box b;
            r ← some_ (ring_put u (mb_ring m'));
            upd_box b (set_mb_ring r) ;;
            mret (Some v)
        | None => mret (Some u)
        end) (set_mw w1 (set_boxes (<[b := set_mb_ring r m]> (boxes s)) s)) (λ res s', ∃ r2,
    res = Some (match head buf with Some v => v | None => u end) ∧
    s' = set_mw w1 (set_boxes (<[b := set_mb_ring r2 m]> (boxes s)) s) ∧
    ring_rep r2 (match buf with v :: buf' => buf' ++ [u] | [] => [] end) ∧
    length (slots r2) = length (slots r)).
Proof.
  intros Hr Hle. destruct buf as [|v buf]; simpl in *.
  - apply post_ret. eauto.
  - destruct (ring_put_rep _ _ u Hr) as (r2&Hp&Hr2&Hl2).
    { destruct Hr as (<-&_). lia. }
    apply post_bind. eapply post_the_box; [by simpl; rewrite lookup_insert_eq|].
    apply post_bind. eapply post_some; [done|]. apply post_bind.
    eapply post_upd_box; [by simpl; rewrite lookup_insert_eq|]. apply post_ret. exists r2. split_and!; [done| |done|done].
    unfold set_mw, set_boxes. simpl. by rewrite insert_insert_eq.
Qed.

Lemma mailbox_pop_spec s g gq b m st :
  MInv s g gq → boxes s !! b = Some m → MAbs s gq m st → fifo_wf st →
  runs (mailbox_pop b) s (λ res s', ∃ m' rel rest,
    let '(o, tx, st') := fifo_pop (live_in s) st in
    res = o ∧ mstep s s' g gq b m m' rel rest st' ∧ gq (mb_queue m) = rel ++ rest ∧
    mb_queue m' = mb_queue m ∧ mb_closed m' = mb_closed m ∧ mnodes s' = mnodes s ∧
    match tx with Some x => x ∈ rel ∧ live_in s x = true | None => True end).
Proof.
  intros I Hb A Hwf. pose proof A as [Hring Hcap Hws Hcl]. pose proof (MInv_queue _ _ _ _ _ I Hb) as MQ.
  pose proof (fifo_pop_wf (live_in s) st) as Hwf'. rewrite fifo_pop_alt in *. rewrite (prune_waiters s _ st Hws) in *.
  unfold mailbox_pop. apply post_bind. eapply post_the_box; [done|]. apply post_bind.
  eapply post_mono; [by apply (pop_buffer s b m (f_buf st))| |done].
  intros res s1 (r&->&->&Hr1&Hl1). pose proof (MQueue_ring _ _ _ _ _ r MQ) as MQ1.
  apply post_bind. eapply post_mono; [by apply (mailbox_front_spec _ g gq b _ true MQ1)| |done].
  intros ? ? (w1&->&R&->). cbn [mb_queue set_mb_ring] in *.
  change (mw (set_boxes _ s)) with (mw s) in *. set (pre := take_while (doomed (mw s)) (gq (mb_queue m))) in *.
  change (verdict (set_boxes _ s)) with (verdict s) in R.
  pose proof (take_drop_while (doomed (mw s)) (gq (mb_queue m))) as Hsplit. fold pre in Hsplit.
  destruct (drop_while (doomed (mw s)) (gq (mb_queue m))) as [|x rest] eqn:Hd.
  - simpl. apply post_ret. exists (set_mb_ring r m), pre, []. simpl in Hwf'. split_and!; try done.
    eapply mstep_intro; eauto; simpl; congruence.
  - destruct (payload_node s g gq b m x MQ) as (n&Hn&Hbn&Hs&Hpay); [rewrite <- Hsplit; set_solver|].
    assert (head (drop_while (doomed (mw s)) (gq (mb_queue m))) = Some x) as [_ Hdx]%head_drop_while by (by rewrite Hd).
    cbn [waiters_of matching fmap list_fmap] in *. change (payload (set_boxes _ s) x) with (payload s x).
    destruct (payload s x) as [u|] eqn:Hp; simpl in Hs; rewrite <- Hs in Hpay; simpl.
    + apply post_bind. eapply post_the_mnode; [done|]. apply post_bind. eapply post_some; [done|]. apply post_bind.
      pose proof (wf_cap _ Hwf) as Hle.
      eapply post_mono; [apply (pop_refill w1 s b m r (f_buf st) u Hr1); rewrite Hl1, <- Hcap; done| |done].
      intros res s2 (r2&->&->&Hr2&Hl2). apply post_bind, post_in_world. simpl.
      eapply post_mono; [eapply (deliver_front s w1 g gq (mb_queue m) x rest); try done; apply MQ| |done].
      intros _ w2 [R2 Hsp2]. apply post_ret. exists (set_mb_ring r2 m), (pre ++ [x]), rest.
      assert (Hx : x ∈ pre ++ [x] ∧ live_in s x = true) by (split; [set_solver|unfold live_in; by rewrite Hdx]).
      destruct (f_buf st) as [|v buf] eqn:Eb; simpl in *; (split_and!; [done| |done|done|done|done|apply Hx|apply Hx]);
        (eapply mstep_intro; eauto; simpl; congruence).
    + apply post_ret. exists (set_mb_ring r m), pre, (x :: rest). split_and!; try done.
      eapply mstep_intro; eauto; simpl; rewrite ?Hp; try done; congruence.
Qed.

(** ** [close] *)
Definition close_error s x : option errc :=
  if doomed (mw s) x then Some operation_canceled
  else match payload s x with Some _ => Some broken_pipe | None => None end.

(** Closing a mailbox delivers every waiter, senders with [broken_pipe] and canceled ones
    with [operation_canceled], and leaves it in the closed state of the contract. *)
Theorem mailbox_close_spec s g gq b m st :
  MInv s g gq → boxes s !! b = Some m → MAbs s gq m st → fifo_wf st →
  runs (mailbox_close b) s (λ _ s',
    MInv s' (g_delivers (mw s) (gq (mb_queue m)) g) (upd_at (mb_queue m) (λ _, []) gq) ∧
    MAbs s' (upd_at (mb_queue m) (λ _, []) gq) (set_mb_closed true m) (fifo_close st) ∧
    boxes s' = <[b := set_mb_closed true m]> (boxes s) ∧
    released ∅ (mw s) (mw s') g gq (mb_queue m) (close_error s) (gq (mb_queue m)) []).
Proof.
  intros I Hb A Hwf. pose proof (MInv_queue _ _ _ _ _ I Hb) as MQ. pose proof MQ as [Hi Hw _ Hq _].
  unfold mailbox_close. apply post_bind. eapply post_upd_box; [done|]. apply post_bind.
  eapply post_the_box; [by simpl; rewrite lookup_insert_eq|]. apply post_bind, post_gets, post_in_world. simpl.
  eapply post_mono; [apply (drain_spec ∅ _ g gq _ _ (λ x, if is_sender (x, payload s x) then Some broken_pipe else None) Hi Hw Hq)| |done].
  - intros w' x F Hx. destruct (payload_node s g gq b m x MQ Hx) as (n&Hn&_&Hs&_). unfold mbind, M_bind, deref.
    by rewrite Hn, Hs.
  - intros [] w' R.
    assert (R' : released ∅ (mw s) w' g gq (mb_queue m) (close_error s) (gq (mb_queue m)) []).
    { eapply released_ext, R. intros x Hx. unfold close_error, is_sender. simpl. by destruct (payload s x). }
    assert (A' : MAbs (set_mw w' (set_boxes (<[b:=set_mb_closed true m]> (boxes s)) s))
                   (upd_at (mb_queue m) (λ _, []) gq) (set_mb_closed true m) (fifo_close st)).
    { destruct A. constructor; simpl; [done|done|by rewrite upd_at_eq|done]. }
    split_and!; [|done|done|done].
    eapply (MInv_step s _ g _ gq _ b m (set_mb_closed true m) (fifo_close st) I Hb); try done; try apply R'.
    + intros q Hne. by rewrite upd_at_ne.
    + rewrite upd_at_eq. intros x Hx. set_solver.
    + by apply fifo_close_wf.
Qed.

(** ** Suspension *)

(** A node that has not been used yet: constructed for the mailbox [b], unlinked
    and inactive. *)
Record mfresh s g x n r o vt k : Prop := {
  mf_node : mnodes s !! x = Some n;
  mf_remote : w_remotes (mw s) !! x = Some r;
  mf_unlinked : rw_linked r = false;
  mf_op : w_ops (mw s) !! x = Some o;
  mf_wait : w_waits (mw s) !! x = Some vt;
  mf_stop : wait_interruptible vt = true;
  mf_fresh : fresh_wait (mw s) g x;
  mf_link : w_rlinks (mw s) !! x = Some k;
  mf_after : l_next k = None }.

(** Releasing other waiters leaves a fresh node fresh. *)
Lemma mfresh_step s s' g gq b m m' rel rest st' x n r o vt k :
  mfresh s g x n r o vt k → MInv s g gq → gq (mb_queue m) = rel ++ rest →
  mstep s s' g gq b m m' rel rest st' → mnodes s' !! x = mnodes s !! x →
  mfresh s' (g_delivers (mw s) rel g) x n r o vt k.
Proof.
  intros [Hn Hr Hl Ho Hv Hi Hf Hk Ha] I Hgq [_ _ _ [_ _ Hops Hrem _ [Hwl Hrl] [F _]]] Hnode.
  pose proof (wi_unlinked _ _ _ _ _ _ (mb_queue m) (mi_winv _ _ _ I) Hr Hl) as Hx.
  assert (Hx' : x ∉ rel) by (rewrite Hgq in Hx; set_solver).
  assert (Ho' : w_ops (mw s') !! x = Some o).
  { rewrite Hops, ops_delivered_lookup, Ho. simpl. by rewrite decide_False. }
  split; try done.
  - by rewrite Hnode.
  - by rewrite Hrem.
  - replace (w_waits (mw s')) with (w_waits (mw s)) by (rewrite F; done). done.
  - destruct Hf as (o'&k'&?&?&?&?&?). simplify_eq. exists o, k'. rewrite g_delivers_ready, Hwl. done.
  - by rewrite Hrl.
Qed.

(** Appending a waiter of the right direction. *)
Lemma MInv_enqueue s g gq b m st x n r o vt k w' :
  MInv s g gq → boxes s !! b = Some m → MAbs s gq m st → mfresh s g x n r o vt k →
  rw_queue r = mb_queue m → mn_box n = b → (mn_sending n = true → is_Some (mn_value n)) →
  fifo_wf (fifo_wait (x, payload s x) st) →
  Inv ∅ w' (g_park (op_owner o) x g) →
  WInv ∅ w' (g_park (op_owner o) x g) (upd_at (rw_queue r) (λ xs, xs ++ [x]) gq) →
  (∀ q, is_Some (w_queues (mw s) !! q) → is_Some (w_queues w' !! q)) →
  MInv (set_mw w' s) (g_park (op_owner o) x g) (upd_at (rw_queue r) (λ xs, xs ++ [x]) gq) ∧
  MAbs (set_mw w' s) (upd_at (rw_queue r) (λ xs, xs ++ [x]) gq) m (fifo_wait (x, payload s x) st).
Proof.
  intros I Hb A F Hq Hbox Hval Hwf I' W' Hqs. rewrite Hq in *.
  assert (A' : MAbs (set_mw w' s) (upd_at (mb_queue m) (λ xs, xs ++ [x]) gq) m (fifo_wait (x, payload s x) st)).
  { destruct A. constructor; simpl; try done. rewrite upd_at_eq, ma_waiters0. unfold waiters_of. by rewrite fmap_app. }
  split; [|done].
  eapply (MInv_step s _ g _ gq _ b m m _ I Hb); try done.
  - simpl. by rewrite insert_id.
  - intros q Hne. by rewrite upd_at_ne.
  - rewrite upd_at_eq. intros y [Hy| ->%list_elem_of_singleton]%elem_of_app.
    + by eapply (mi_node _ _ _ I).
    + exists n. split_and!; [apply F|done|done].
Qed.

Lemma enqueue_mailbox s g gq b m st x n r o vt k l h :
  MInv s g gq → boxes s !! b = Some m → MAbs s gq m st → mfresh s g x n r o vt k →
  rw_queue r = mb_queue m → mn_box n = b → (mn_sending n = true → is_Some (mn_value n)) →
  w_loops (mw s) !! op_owner o = Some l → l_thread l = w_thread (mw s) →
  (l_stopping l || requested (mw s) (rw_token r)) = false →
  fifo_wf (fifo_wait (x, payload s x) st) →
  runs (in_world (enqueue x h)) s (λ res s', res = true ∧ ∃ g' gq',
    MInv s' g' gq' ∧ MAbs s' gq' m (fifo_wait (x, payload s x) st) ∧ boxes s' = boxes s ∧ mnodes s' = mnodes s ∧
    op_active <$> w_ops (mw s') !! x = Some true ∧ x ∈ gq' (mb_queue m)).
Proof.
  intros I Hb A F Hq Hbox Hval HL Ht Hns Hwf. pose proof F as [Hn Hr Hl Ho Hv Hi Hf Hk Ha].
  apply post_in_world. eapply post_mono; [eapply (enqueue_spec ∅ (mw s) g gq x r o vt l k h); try done; apply I| |done].
  intros [] w'; [|intros (_&?&_); congruence]. intros (_&I'&W'&Hops&Hqs&_). split; [done|].
  destruct (MInv_enqueue _ _ _ _ _ _ _ _ _ _ _ _ w' I Hb A F Hq Hbox Hval Hwf I' W' Hqs) as [MI MA].
  eexists _, _. split_and!; [exact MI|exact MA|done|done| |].
  - simpl. rewrite Hops, lookup_insert_eq, Hi. unfold armed. by destruct (possible (mw s) (rw_token r)).
  - rewrite Hq, upd_at_eq. set_solver.
Qed.

(** The facts about the owner loop that other releases do not change. *)
Lemma loop_step s s' g gq b m m' rel rest st' L l t :
  mstep s s' g gq b m m' rel rest st' → w_loops (mw s) !! L = Some l → l_thread l = w_thread (mw s) →
  ∃ l', w_loops (mw s') !! L = Some l' ∧ l_thread l' = w_thread (mw s') ∧
        (l_stopping l' || requested (mw s') t) = (l_stopping l || requested (mw s) t).
Proof.
  intros [_ _ _ [_ _ _ _ _ _ [E F]]] HL Ht. specialize (F L). rewrite HL in F.
  destruct (w_loops (mw s') !! L) as [l'|]; [|done]. simpl in F. exists l'. split_and!; [done| |].
  - replace (w_thread (mw s')) with (w_thread (mw s)) by (rewrite E; done). by rewrite F.
  - unfold requested. replace (w_stops (mw s')) with (w_stops (mw s)) by (rewrite E; done). by rewrite F.
Qed.

Lemma payload_fresh s s' g x n r o vt k :
  mfresh s g x n r o vt k → mnodes s' !! x = mnodes s !! x → payload s' x = if mn_sending n then mn_value n else None.
Proof. intros F Hx. unfold payload. rewrite Hx. by rewrite (mf_node _ _ _ _ _ _ _ _ F). Qed.

(** Failing an operation that is not linked changes nothing else. *)
Lemma MInv_error s g gq b m st x r o c :
  MInv s g gq → boxes s !! b = Some m → MAbs s gq m st → fifo_wf st →
  w_remotes (mw s) !! x = Some r → rw_linked r = false → w_ops (mw s) !! x = Some o →
  MInv (set_mw (set_w_ops (<[x := set_op_error c o]> (w_ops (mw s))) (mw s)) s) g gq.
Proof.
  intros I Hb A Hwf Hr Hl Ho.
  eapply (MInv_step s _ g g gq gq b m m st I Hb); try done; simpl.
  - eapply Inv_upd_op; [apply I|done..].
  - eapply WInv_error; [apply I|done..].
  - by rewrite insert_id.
  - intros x' Hx'. by eapply (mi_node _ _ _ I).
  - by destruct A.
Qed.

(** C5: Sending to a mailbox from any loop performs the send of the FIFO contract, the
    receiver being delivered through its own loop's message queue. *)
Theorem mailbox_send_spec s g gq b m st x n r o vt k l h v :
  MInv s g gq → boxes s !! b = Some m → MAbs s gq m st → fifo_wf st → mfresh s g x n r o vt k →
  rw_queue r = mb_queue m → mn_box n = b → mn_sending n = true → mn_value n = Some v →
  w_loops (mw s) !! op_owner o = Some l → l_thread l = w_thread (mw s) →
  (l_stopping l || requested (mw s) (rw_token r)) = false →
  runs (mailbox_await_suspend x h) s (λ res s', ∃ g' gq' m',
    let '(susp, rx, st') := fifo_send (live_in s) x v st in
    res = susp ∧ boxes s' !! b = Some m' ∧ MInv s' g' gq' ∧ MAbs s' gq' m' st' ∧
    (if susp then op_active <$> w_ops (mw s') !! x = Some true
     else w_ops (mw s') !! x = Some (if f_closed st then set_op_error (Some broken_pipe) o else o)) ∧
    match rx with
    | Some y => mn_value <$> mnodes s' !! y = Some (Some v)
    | None => mnodes s' = mnodes s
    end).
Proof.
  intros I Hb A Hwf F Hq Hbox Hs Hv HL Ht Hns. pose proof F as [Hn Hr Hl Ho Hvt _ _ _ _].
  unfold mailbox_await_suspend. apply post_bind, post_in_world. unfold post at 1.
  rewrite (canceled_now_run _ _ _ _ _ Ho Hr HL Ht), Hns. rewrite set_mw_id.
  apply post_bind. eapply post_the_mnode; [done|]. apply post_bind. rewrite Hbox. eapply post_the_box; [done|].
  rewrite Hs. unfold fifo_send. rewrite (ma_closed _ _ _ _ A). destruct (mb_closed m) eqn:Hc.
  - apply post_bind, post_in_world. simpl. step. apply post_ret. exists g, gq, m. split_and!; try done.
    + by apply (MInv_error s g gq b m st x r o).
    + by destruct A.
    + simpl. apply lookup_insert_eq.
  - apply post_bind. eapply post_some; [done|]. apply post_bind.
    eapply post_mono; [eapply (mailbox_push_spec s); done| |done].
    intros ok s' (m'&rel&rest&Hp).
    destruct (fifo_push (live_in s) v st) as [[b' rx] st'] eqn:Hpush. destruct Hp as (->&MS&Hgq&Hq'&Hc'&Hrx).
    assert (Hb' : boxes s' !! b = Some m') by (rewrite (ms_box _ _ _ _ _ _ _ _ _ _ MS); apply lookup_insert_eq).
    pose proof (wi_unlinked _ _ _ _ _ _ (mb_queue m) (mi_winv _ _ _ I) Hr Hl) as Hx.
    assert (Hnx : mnodes s' !! x = mnodes s !! x).
    { destruct rx as [y|]; [|by rewrite Hrx]. destruct Hrx as (Hy&_&ny&_&->). apply lookup_insert_ne.
      intros ->. apply Hx. rewrite Hgq. set_solver. }
    pose proof (mfresh_step _ _ _ _ _ _ _ _ _ _ _ _ _ _ _ _ F I Hgq MS Hnx) as F'.
    destruct b'.
    + apply post_ret. eexists _, _, m'. split_and!; [done|done|apply MS|apply MS| |].
      * apply F'.
      * destruct rx as [y|]; [|done]. destruct Hrx as (_&_&ny&_&->). by rewrite lookup_insert_eq.
    + destruct (loop_step _ _ _ _ _ _ _ _ _ _ _ _ (rw_token r) MS HL Ht) as (l'&HL'&Ht'&Hns').
      assert (rx = None) as ->.
      { unfold fifo_push in Hpush. destruct (prune _ _) as [|[? []] ?]; [| |done]; case_bool_decide; by simplify_eq. }
      pose proof (payload_fresh _ s' _ _ _ _ _ _ _ F Hnx) as Hpx. rewrite Hs, Hv in Hpx.
      eapply post_mono; [eapply (enqueue_mailbox s' _ _ b m' st' x n r o vt k l' h (ms_inv _ _ _ _ _ _ _ _ _ _ MS) Hb' (ms_abs _ _ _ _ _ _ _ _ _ _ MS) F'); [congruence|done|by rewrite Hv; eauto|done|done|by rewrite Hns'|]| |done].
      * rewrite Hpx. eapply fifo_push_wait; [done| |done]. by rewrite (ma_closed _ _ _ _ A).
      * rewrite Hpx. intros ? s2 (->&g'&gq'&MI&MA&Hbs&Hns2&Hact&_). exists g', gq', m'. 
        split_and!; try done; congruence.
Qed.

(** Storing the received value in a node that is not linked. *)
Lemma MInv_value s g gq b m st x n r o :
  MInv s g gq → boxes s !! b = Some m → MAbs s gq m st → fifo_wf st →
  mnodes s !! x = Some n → w_remotes (mw s) !! x = Some r → rw_linked r = false →
  MInv (set_mnodes (<[x := set_mn_value o n]> (mnodes s)) s) g gq ∧
  MAbs (set_mnodes (<[x := set_mn_value o n]> (mnodes s)) s) gq m st.
Proof.
  intros I Hb A Hwf Hn Hr Hl. pose proof (λ q, wi_unlinked _ _ _ _ _ _ q (mi_winv _ _ _ I) Hr Hl) as Hx.
  assert (A' : MAbs (set_mnodes (<[x := set_mn_value o n]> (mnodes s)) s) gq m st).
  { destruct A. constructor; try done. rewrite ma_waiters0. unfold waiters_of. apply list_fmap_ext.
    intros _ y Hy%list_elem_of_lookup_2. f_equal. unfold payload. simpl. rewrite lookup_insert_ne; [done|].
    intros ->. by eapply Hx. }
  split; [|done]. eapply (MInv_step s _ g g gq gq b m m st I Hb); try done; try apply I; simpl.
  - by rewrite insert_id.
  - intros y q _ Hy. apply lookup_insert_ne. intros ->. by eapply Hx.
  - intros y Hy. rewrite lookup_insert_ne by (intros ->; by eapply Hx). by eapply (mi_node _ _ _ I).
Qed.

(** C6: Receiving from a mailbox performs the receive of the FIFO contract, with refill from
    the longest waiting live sender. *)
Theorem mailbox_recv_spec s g gq b m st x n r o vt k l h :
  MInv s g gq → boxes s !! b = Some m → MAbs s gq m st → fifo_wf st → mfresh s g x n r o vt k →
  rw_queue r = mb_queue m → mn_box n = b → mn_sending n = false →
  w_loops (mw s) !! op_owner o = Some l → l_thread l = w_thread (mw s) →
  (l_stopping l || requested (mw s) (rw_token r)) = false →
  runs (mailbox_await_suspend x h) s (λ res s', ∃ g' gq' m',
    let '(v, susp, st') := fifo_recv (live_in s) x st in
    res = susp ∧ boxes s' !! b = Some m' ∧ MInv s' g' gq' ∧ MAbs s' gq' m' st' ∧
    (if susp then op_active <$> w_ops (mw s') !! x = Some true
     else w_ops (mw s') !! x = Some o ∧
          mn_value <$> mnodes s' !! x = Some (match v with Some v => Some v | None => mn_value n end))).
Proof.
  intros I Hb A Hwf F Hq Hbox Hs HL Ht Hns. pose proof F as [Hn Hr Hl Ho Hvt _ _ _ _].
  unfold mailbox_await_suspend. apply post_bind, post_in_world. unfold post at 1.
  rewrite (canceled_now_run _ _ _ _ _ Ho Hr HL Ht), Hns. rewrite set_mw_id.
  apply post_bind. eapply post_the_mnode; [done|]. apply post_bind. rewrite Hbox. eapply post_the_box; [done|].
  rewrite Hs. unfold fifo_recv. rewrite (ma_closed _ _ _ _ A). apply post_bind.
  eapply post_mono; [eapply (mailbox_pop_spec s); done| |done].
  intros res s' (m'&rel&rest&Hp). pose proof (fifo_pop_wf (live_in s) st) as Hwf'.
  destruct (fifo_pop (live_in s) st) as [[v tx] st'] eqn:Hpop.
  destruct Hp as (->&MS&Hgq&Hq'&Hc'&Hnodes&_). specialize (Hwf' _ _ _ Hwf eq_refl).
  assert (Hb' : boxes s' !! b = Some m') by (rewrite (ms_box _ _ _ _ _ _ _ _ _ _ MS); apply lookup_insert_eq).
  assert (Hnx : mnodes s' !! x = mnodes s !! x) by (by rewrite Hnodes).
  pose proof (mfresh_step _ _ _ _ _ _ _ _ _ _ _ _ _ _ _ _ F I Hgq MS Hnx) as F'.
  pose proof F' as [Hn' Hr' _ Ho' _ _ _ _ _]. destruct v as [v|].
  - apply post_bind. eapply post_upd_mnode; [done|]. apply post_ret.
    destruct (MInv_value _ _ _ _ _ _ x n r (Some v) (ms_inv _ _ _ _ _ _ _ _ _ _ MS) Hb'
                (ms_abs _ _ _ _ _ _ _ _ _ _ MS) Hwf' Hn' Hr' Hl) as [MI MA].
    eexists _, _, m'. split_and!; [done|done|exact MI|exact MA|exact Ho'|]. simpl. by rewrite lookup_insert_eq.
  - apply post_bind. eapply post_the_box; [done|]. rewrite Hc'. destruct (mb_closed m) eqn:Hc.
    + apply post_ret. eexists _, _, m'. split_and!; [done|done|apply MS|apply MS|done|by rewrite Hn'].
    + destruct (loop_step _ _ _ _ _ _ _ _ _ _ _ _ (rw_token r) MS HL Ht) as (l'&HL'&Ht'&Hns').
      pose proof (payload_fresh _ s' _ _ _ _ _ _ _ F Hnx) as Hpx. rewrite Hs in Hpx.
      eapply post_mono; [eapply (enqueue_mailbox s' _ _ b m' st' x n r o vt k l' h (ms_inv _ _ _ _ _ _ _ _ _ _ MS) Hb'
        (ms_abs _ _ _ _ _ _ _ _ _ _ MS) F'); [congruence|done|by rewrite Hs|done|done|by rewrite Hns'|]| |done].
      * rewrite Hpx. eapply (fifo_pop_wait (live_in s) st); [done| |done]. by rewrite (ma_closed _ _ _ _ A).
      * rewrite Hpx. intros ? s2 (->&g'&gq'&MI&MA&Hbs&Hns2&Hact&_). exists g', gq', m'.
        split_and!; try done; congruence.
Qed.
End mailbox.
