(* ===== verification/Clients.v ===== *)
(** * Producers and consumers (examples/pipeline.cpp, examples/mailbox.cpp,
      bench/channel.cpp, bench/mailbox.cpp)

    Four programs of one shape: a coroutine sends a list of values and closes the queue,
    others receive until it is closed.  They are composed here with the bounded FIFO
    contract, which [Channel] and [Mailbox] implement.  A step is one coroutine running
    until it suspends or calls the queue again; which one runs is any schedule's choice. *)
From S2P Require Import Prelude Fifo.
From stdpp Require Import relations.
Local Open Scope Z_scope.

(** The producer, with the values it still has to send; it is suspended in [send], has
    closed the queue, or has failed because the queue was closed *)
Inductive pstate := p_ready (todo : list Z) | p_wait (todo : list Z) | p_done | p_failed.
(** A consumer: about to call [recv], suspended in it, resumed with its result, with a
    value in the pool, ended by the closed queue, or ended by an exception *)
Inductive cstate := c_ready | c_wait | c_resumed (o : option Z) | c_run (v : Z) | c_done | c_failed (e : exn).
#[global] Instance cstate_inhabited : Inhabited cstate := populate c_ready.

(** Nobody cancels a wait. *)
Definition everybody (x : nat) : bool := true.

Section clients.
Context {A : Type}.
(** The state the consumers share; [log] and [out] record the values taken from the queue
    and those used, in order *)
Record client := Client { cl_prod : pstate; cl_chan : fifo Z; cl_cons : list cstate; cl_acc : A; cl_log : list Z; cl_out : list Z }.
Implicit Types (s : client) (cs : list cstate) (j k : nat).
(** What a consumer does with a value, whether in the pool first, and what it does when
    the queue is closed *)
Variables (offload : bool) (use : A → Z → exn + A) (at_end : A → option exn).

Definition set_cons (f : list cstate → list cstate) s : client :=
  Client (cl_prod s) (cl_chan s) (f (cl_cons s)) (cl_acc s) (cl_log s) (cl_out s).
Definition unblock (o : option nat) (p : pstate) : pstate :=
  match o, p with Some 0%nat, p_wait todo => p_ready todo | _, _ => p end.

(** [for (v : values) co_await queue.send(v); queue.close();] *)
Definition cl_produce s : option client :=
  match cl_prod s with
  | p_ready (v :: todo) =>
      let '(suspended, receiver, q) := fifo_send everybody 0 v (cl_chan s) in
      if f_closed (cl_chan s) then Some (Client p_failed q (cl_cons s) (cl_acc s) (cl_log s) (cl_out s))
      else if suspended : bool then Some (Client (p_wait todo) q (cl_cons s) (cl_acc s) (cl_log s) (cl_out s))
      else match receiver with
           | Some (S j) => Some (Client (p_ready todo) q (<[j := c_resumed (Some v)]> (cl_cons s)) (cl_acc s) (cl_log s ++ [v]) (cl_out s))
           | _ => Some (Client (p_ready todo) q (cl_cons s) (cl_acc s) (cl_log s) (cl_out s))
           end
  | p_ready [] =>
      Some (Client p_done (fifo_close (cl_chan s)) ((λ c, match c with c_wait => c_resumed None | _ => c end) <$> cl_cons s)
              (cl_acc s) (cl_log s) (cl_out s))
  | _ => None
  end.
(** The value is used *)
Definition cl_finish (j : nat) (v : Z) s : client :=
  match use (cl_acc s) v with
  | inr acc => Client (cl_prod s) (cl_chan s) (<[j := c_ready]> (cl_cons s)) acc (cl_log s) (cl_out s ++ [v])
  | inl e => set_cons (<[j := c_failed e]>) s
  end.
(** [while (auto value = co_await queue.recv()) ...] with the value used *)
Definition cl_consume (j : nat) s : option client :=
  match cl_cons s !! j with
  | Some c_ready =>
      let '(o, suspended, q) := fifo_recv everybody (S j) (cl_chan s) in
      Some (Client (unblock (fifo_pop everybody (cl_chan s)).1.2 (cl_prod s)) q
              (<[j := if suspended : bool then c_wait else c_resumed o]> (cl_cons s))
              (cl_acc s) (cl_log s ++ option_list o) (cl_out s))
  | Some (c_resumed (Some v)) => Some (if offload then set_cons (<[j := c_run v]>) s else cl_finish j v s)
  | Some (c_resumed None) => Some (set_cons (<[j := match at_end (cl_acc s) with None => c_done | Some e => c_failed e end]>) s)
  | Some (c_run v) => Some (cl_finish j v s)
  | _ => None
  end.
Definition client_step s s' : Prop := cl_produce s = Some s' ∨ ∃ j, cl_consume j s = Some s'.
Definition client_new (values : list Z) (capacity consumers : nat) (acc : A) : client :=
  Client (p_ready values) (Fifo capacity [] [] false) (replicate consumers c_ready) acc [] [].

(** ** Invariant *)
Definition todo_of (p : pstate) : list Z := match p with p_ready l | p_wait l => l | _ => [] end.
Definition holds (c : cstate) : option Z := match c with c_resumed (Some v) | c_run v => Some v | _ => None end.
Definition held s : list Z := omap holds (cl_cons s).
Fixpoint uses (acc : A) (vs : list Z) : option A :=
  match vs with [] => Some acc | v :: vs' => match use acc v with inr a => uses a vs' | inl _ => None end end.
(** A consumer in the queue of waiters. *)
Definition receiver_of (j : nat) : waiter Z := (S j, None).
(** Who waits: nobody, the producer on a full queue, or consumers on an empty one. *)
Inductive waiting_for : pstate → list Z → nat → list (waiter Z) → list nat → Prop :=
| wf_nobody p buf cap : (∀ l, p ≠ p_wait l) → waiting_for p buf cap [] []
| wf_producer l buf cap v : length buf = cap → waiting_for (p_wait l) buf cap [(0%nat, Some v)] []
| wf_consumers p cap js : (∀ l, p ≠ p_wait l) → NoDup js → waiting_for p [] cap (receiver_of <$> js) js.

Section run.
Variables (values : list Z) (capacity : nat) (acc0 : A) (consumers : nat).
(** What may have been used so far: a prefix, or with several consumers any part. *)
Definition possible (out : list Z) : Prop :=
  (∃ rest, values ≡ₚ out ++ rest) ∧ (consumers = 1%nat → out `prefix_of` values).
Hypothesis use_ok : ∀ out, possible out → is_Some (uses acc0 out).
Hypothesis end_ok : ∀ out acc, possible out → (consumers = 1%nat → out = values) → uses acc0 out = Some acc → at_end acc = None.

(** A consumer has not failed, and one that has seen the end saw an empty queue. *)
Definition fits (q : fifo Z) (c : cstate) : Prop :=
  match c with
  | c_failed _ => False
  | c_done | c_resumed None => f_closed q = true ∧ contents everybody q = []
  | _ => True
  end.
Record CI s : Prop := {
  ci_buf : (length (f_buf (cl_chan s)) ≤ capacity)%nat ∧ f_cap (cl_chan s) = capacity;
  ci_wait : ∃ js, waiting_for (cl_prod s) (f_buf (cl_chan s)) capacity (f_waiters (cl_chan s)) js ∧
    ∀ j, cl_cons s !! j = Some c_wait ↔ j ∈ js;
  ci_order : cl_log s ++ contents everybody (cl_chan s) ++ todo_of (cl_prod s) = values;
  ci_closed : f_closed (cl_chan s) = true ↔ cl_prod s = p_done;
  ci_open : cl_prod s ≠ p_failed;
  ci_len : length (cl_cons s) = consumers;
  ci_cons : Forall (fits (cl_chan s)) (cl_cons s);
  ci_idle : f_closed (cl_chan s) = true → f_waiters (cl_chan s) = [];
  ci_taken : cl_log s ≡ₚ cl_out s ++ held s;
  ci_single : consumers = 1%nat → cl_log s = cl_out s ++ held s;
  ci_acc : uses acc0 (cl_out s) = Some (cl_acc s) }.

(** ** The queue without cancellation *)
Lemma prune_everybody (q : fifo Z) : prune everybody q = f_waiters q.
Proof. unfold prune. by destruct (f_waiters q). Qed.
Lemma contents_everybody (q : fifo Z) : contents everybody q = f_buf q ++ omap snd (f_waiters q).
Proof. done. Qed.
Lemma receivers_empty (js : list nat) : omap snd (receiver_of <$> js) = [].
Proof. by induction js. Qed.
Hint Rewrite prune_everybody contents_everybody : clients.

Lemma held_insert cs j c c' :
  cs !! j = Some c → option_list (holds c) ++ omap holds (<[j := c']> cs) ≡ₚ option_list (holds c') ++ omap holds cs.
Proof.
  revert j. induction cs as [|d cs IH]; intros [|j] Hj; simplify_eq/=.
  - destruct (holds c), (holds c'); simpl; try done. apply perm_swap.
  - destruct (holds d) as [v|]; [|by apply IH]. rewrite <- !Permutation_middle. by rewrite (IH j Hj).
Qed.
Lemma held_single (cs : list cstate) j c c' : length cs = 1%nat → cs !! j = Some c →
  omap holds cs = option_list (holds c) ∧ omap holds (<[j := c']> cs) = option_list (holds c').
Proof.
  destruct cs as [|d [|]]; try done. destruct j; [|done]. intros _ [= ->]. simpl. by destruct (holds c), (holds c').
Qed.
(** A consumer whose value does not change hands. *)
Lemma held_same cs j c c' : cs !! j = Some c → holds c' = holds c → omap holds (<[j := c']> cs) = omap holds cs.
Proof.
  revert j. induction cs as [|d cs IH]; intros [|j] Hj E; simplify_eq/=; [by rewrite E|]. by rewrite (IH j Hj E).
Qed.
(** Taking a value and using it. *)
Lemma take_out (log out : list Z) cs j c c' v :
  log ≡ₚ out ++ omap holds cs → (consumers = 1%nat → log = out ++ omap holds cs) → length cs = consumers →
  cs !! j = Some c → holds c = None → holds c' = Some v →
  log ++ [v] ≡ₚ out ++ omap holds (<[j := c']> cs) ∧ (consumers = 1%nat → log ++ [v] = out ++ omap holds (<[j := c']> cs)).
Proof.
  intros Hp H1 Hl Hj Hc Hc'. pose proof (held_insert cs j c c' Hj) as Hh. rewrite Hc, Hc' in Hh. simpl in Hh. split.
  - rewrite Hh, Hp, <- app_assoc. apply Permutation_app_head. by rewrite (Permutation_app_comm _ [v]).
  - intros Hn. destruct (held_single cs j c c') as [E E']; [congruence|done|]. rewrite H1, E, E', Hc, Hc' by done. simpl. by rewrite app_nil_r.
Qed.
Lemma use_out (log out : list Z) cs j c c' v :
  log ≡ₚ out ++ omap holds cs → (consumers = 1%nat → log = out ++ omap holds cs) → length cs = consumers →
  cs !! j = Some c → holds c = Some v → holds c' = None →
  log ≡ₚ (out ++ [v]) ++ omap holds (<[j := c']> cs) ∧ (consumers = 1%nat → log = (out ++ [v]) ++ omap holds (<[j := c']> cs)).
Proof.
  intros Hp H1 Hl Hj Hc Hc'. pose proof (held_insert cs j c c' Hj) as Hh. rewrite Hc, Hc' in Hh. simpl in Hh. split.
  - rewrite Hp, <- Hh, <- app_assoc. done.
  - intros Hn. destruct (held_single cs j c c') as [E E']; [congruence|done|]. rewrite H1, E, E', Hc, Hc' by done. simpl. by rewrite app_nil_r.
Qed.
Lemma uses_snoc vs v acc : uses acc0 vs = Some acc → uses acc0 (vs ++ [v]) = match use acc v with inr a => Some a | inl _ => None end.
Proof.
  clear. revert acc0. induction vs as [|u vs IH]; intros a; simpl; [by intros [= ->]; destruct (use acc v)|].
  destruct (use a u); [done|]. apply IH.
Qed.
Lemma cons_waiting cs j c (js : list nat) :
  (∀ k, cs !! k = Some c_wait ↔ k ∈ js) → c ≠ c_wait → j ∉ js → ∀ k, <[j := c]> cs !! k = Some c_wait ↔ k ∈ js.
Proof.
  intros HW Hc Hj k. destruct (decide (j = k)) as [<-|]; [|by rewrite list_lookup_insert_ne].
  split; [|tauto]. intros [(_&?&_)|[]]%list_lookup_insert_Some; [congruence|done].
Qed.

(** ** Every step keeps the invariant *)
Ltac cl_simpl := cbn [cl_prod cl_chan cl_cons cl_acc cl_log cl_out f_buf f_cap f_waiters f_closed].
Lemma CI_new : CI (client_new values capacity consumers acc0).
Proof.
  unfold client_new. assert (∀ n, omap holds (replicate n c_ready) = []) as Hh by (by intros n; induction n).
  split; cbn [cl_prod cl_chan cl_cons cl_acc cl_log cl_out f_buf f_cap f_waiters f_closed todo_of]; unfold held; cbn [cl_cons];
    rewrite ?Hh, ?length_replicate; try done.
  - simpl. split; [lia|done].
  - exists []. split; [by constructor|]. intros j. split; [|by intros ?%not_elem_of_nil]. by intros [? _]%lookup_replicate.
  - by apply Forall_replicate.
Qed.

Lemma produce_inv s s' : CI s → cl_produce s = Some s' → CI s'.
Proof.
  destruct s as [p [cap buf ws cl] cs acc log out]. intros [[Hb Hcap] (js&Hw&HW) Ho Hc Hop Hl Hf Hi Ht H1 Ha]. simpl in *. subst cap.
  unfold cl_produce, fifo_send, fifo_push. simpl. rewrite contents_everybody in Ho. simpl in Ho.
  destruct p as [[|v todo]| | |]; simpl; try done.
  - (* close *) intros [= <-]. assert (omap snd ws = [] ∧ ∀ l, l ∈ js → buf = []) as [Hws HWb].
    { inversion Hw; subst; simpl; [split; [done|set_solver]|]. split; [apply receivers_empty|done]. }
    assert (omap holds ((λ c, match c with c_wait => c_resumed None | _ => c end) <$> cs) = omap holds cs) as Hh.
    { clear. induction cs as [|[| |[]| | |] cs IH]; simpl; first [done|exact IH|f_equal; exact IH]. }
    split; simpl; try done; [|by rewrite contents_everybody; simpl; rewrite Hws in Ho|by rewrite length_fmap| |unfold held; simpl; by rewrite Hh..].
    + exists []. split; [by constructor|]. intros k. rewrite list_lookup_fmap. split; [|by intros ?%not_elem_of_nil]. destruct (cs !! k) as [[]|]; done.
    + apply Forall_fmap, Forall_lookup. intros k c Hk. rewrite Forall_lookup in Hf. specialize (Hf k c Hk). unfold fits in *.
      destruct c as [| |[]| | |]; try done; simpl; (split; [done|]).
      * apply HW in Hk. by rewrite (HWb _ Hk).
      * destruct Hf as [_ Hf]. rewrite contents_everybody in Hf. simpl in Hf. apply app_nil in Hf as [-> _]. done.
      * destruct Hf as [_ Hf]. rewrite contents_everybody in Hf. simpl in Hf. apply app_nil in Hf as [-> _]. done.
  - assert (cl = false) as -> by (destruct cl; [discriminate (proj1 Hc eq_refl)|done]). simpl. rewrite prune_everybody. simpl.
    assert (∀ q, Forall (fits q) cs) as Hf'.
    { intros q. eapply Forall_impl; [exact Hf|]. intros [| |[]| | |]; simpl; naive_solver. }
    assert (∀ buf', buf' = buf → ws = [] → js = [] → (if bool_decide (length buf' = capacity)
      then Some (Client (p_wait todo) (Fifo capacity buf' [(0%nat, Some v)] false) cs acc log out)
      else Some (Client (p_ready todo) (Fifo capacity (buf' ++ [v]) [] false) cs acc log out)) = Some s' → CI s') as Hnobody.
    { intros ? -> -> ->. simpl in Ho. rewrite app_nil_r in Ho. case_bool_decide as Hfull; intros [= <-]; simpl.
      - split; simpl; try first [done|by apply Hf'].
        + exists []. split; [by constructor|done].
        + rewrite contents_everybody. simpl. by rewrite <- !app_assoc.
      - split; simpl; try first [done|by apply Hf'].
        + rewrite length_app. simpl. split; [lia|done].
        + exists []. split; [by constructor|done].
        + rewrite contents_everybody. simpl. by rewrite app_nil_r, <- !app_assoc. }
    inversion Hw as [? ? ? Hnp| |? ? js' Hnp Hnd]; subst; simpl; [|destruct js as [|j js]; simpl].
    + intros H. apply (Hnobody buf); [done..|]. revert H. by case_bool_decide.
    + intros H. apply (Hnobody []); [done..|]. revert H. simpl. by case_bool_decide.
    + (* handed to the first consumer *) intros [= <-]. simpl in Ho. rewrite receivers_empty in Ho. simpl in Ho.
      assert (cs !! j = Some c_wait) as Hj by (apply HW; by left). apply NoDup_cons in Hnd as [Hni Hnd].
      destruct (take_out log out cs j c_wait (c_resumed (Some v)) v Ht H1 Hl Hj eq_refl eq_refl) as [Ht' H1'].
      split; simpl; try first [done|by rewrite length_insert|by apply Forall_insert; [apply Hf'|]].
      * exists js. split; [by constructor|]. intros k. destruct (decide (j = k)) as [<-|Hne]; [rewrite list_lookup_insert_eq by (by eapply lookup_lt_Some); split; [done|set_solver]|].
        rewrite list_lookup_insert_ne by done. rewrite HW, elem_of_cons. naive_solver.
      * rewrite contents_everybody. simpl. by rewrite receivers_empty, <- app_assoc.
Qed.

Lemma possible_used (log out h rest : list Z) : log ++ rest = values → log ≡ₚ out ++ h → (consumers = 1%nat → log = out ++ h) → possible out.
Proof.
  intros Hv Hp H1. split.
  - exists (h ++ rest). by rewrite <- Hv, Hp, app_assoc.
  - intros Hn. exists (h ++ rest). by rewrite <- Hv, (H1 Hn), app_assoc.
Qed.
Lemma fits_take (q q' : fifo Z) c : fits q c → f_closed q' = f_closed q → (contents everybody q = [] → contents everybody q' = []) → fits q' c.
Proof. unfold fits. intros H E Hc. destruct c as [| |[]| | |]; try done; rewrite E; destruct H; auto. Qed.

Lemma finish_inv s j c v : CI s → cl_cons s !! j = Some c → holds c = Some v → CI (cl_finish j v s).
Proof.
  destruct s as [p q cs acc log out]. intros [Hb (js&Hw&HW) Ho Hc Hop Hl Hf Hi Ht H1 Ha] Hj Hh. simpl in *.
  assert (c ≠ c_wait) as Hnw by (by intros ->). unfold held in Ht, H1. simpl in Ht, H1.
  destruct (use_out log out cs j c c_ready v Ht H1 Hl Hj Hh eq_refl) as [Ht' H1'].
  destruct (use_ok (out ++ [v])) as [acc' Hacc']; [by eapply possible_used|].
  rewrite (uses_snoc _ _ _ Ha) in Hacc'. unfold cl_finish. simpl. destruct (use acc v) as [e|a] eqn:Hu; [done|]. simplify_eq.
  split; simpl; try done.
  - exists js. split; [done|]. apply cons_waiting; [done|done|]. rewrite <- HW, Hj. congruence.
  - by rewrite length_insert.
  - by apply Forall_insert.
  - by rewrite (uses_snoc _ _ _ Ha), Hu.
Qed.

(** A consumer that keeps what it holds. *)
Lemma set_cons_inv s j c c' :
  CI s → cl_cons s !! j = Some c → c ≠ c_wait → c' ≠ c_wait → holds c' = holds c → fits (cl_chan s) c' → CI (set_cons (<[j := c']>) s).
Proof.
  destruct s as [p q cs acc log out]. intros [Hb (js&Hw&HW) Ho Hc Hop Hl Hf Hi Ht H1 Ha] Hj Hnw Hnw' Hh Hfit. simpl in *.
  unfold held in Ht, H1. simpl in Ht, H1. pose proof (held_same cs j c c' Hj Hh) as E.
  split; simpl; try done; unfold held; simpl; rewrite ?E, ?length_insert; try done.
  - exists js. split; [done|]. apply cons_waiting; [done|done|]. rewrite <- HW, Hj. congruence.
  - by apply Forall_insert.
Qed.

(** What a receive finds. *)
Lemma recv_inv s j : CI s → cl_cons s !! j = Some c_ready → ∀ s', cl_consume j s = Some s' → CI s'.
Proof.
  destruct s as [p [cap buf ws cl] cs acc log out]. intros [[Hb Hcap] (js&Hw&HW) Ho Hc Hop Hl Hf Hi Ht H1 Ha] Hj s'. simpl in *. subst cap.
  unfold cl_consume. cbn [cl_cons]. rewrite Hj. unfold fifo_recv, fifo_pop. simpl. rewrite prune_everybody. cbn [f_waiters f_buf f_cap f_closed].
  rewrite contents_everybody in Ho. simpl in Ho. unfold held in Ht, H1. simpl in Ht, H1.
  assert (j ∉ js) as Hnj by (rewrite <- HW, Hj; congruence). assert (j < length cs)%nat as Hlt by (by eapply lookup_lt_Some).
  (* a value is taken *)
  assert (∀ v p' q, f_cap q = capacity → (length (f_buf q) ≤ capacity)%nat → f_closed q = cl → f_waiters q = [] →
    buf ++ omap snd ws = v :: f_buf q → todo_of p' = todo_of p → (∀ l, p' ≠ p_wait l) → (p' = p_done ↔ p = p_done) → p' ≠ p_failed → js = [] →
    CI (Client p' q (<[j := c_resumed (Some v)]> cs) acc (log ++ [v]) out)) as Htake.
  { intros v p' q Hq1 Hq2 Hq3 Hq4 Hv Hp1 Hp2 Hp3 Hp4 ->. rewrite Hv in Ho.
    destruct (take_out log out cs j c_ready (c_resumed (Some v)) v Ht H1 Hl Hj eq_refl eq_refl) as [Ht' H1'].
    assert (contents everybody q = f_buf q) as Eq by (rewrite contents_everybody, Hq4; apply app_nil_r).
    split; simpl; try done; rewrite ?length_insert, ?Hq3, ?Hp3; try done.
    - exists []. rewrite Hq4. split; [by constructor|]. by apply cons_waiting.
    - rewrite Eq, Hp1, <- Ho. by rewrite <- app_assoc.
    - apply Forall_insert; [|done]. eapply Forall_impl; [exact Hf|]. intros c Hc'. eapply fits_take; [exact Hc'|done|].
      rewrite contents_everybody. simpl. by rewrite Hv. }
  (* nothing is there *)
  assert (buf = [] → omap snd ws = [] → ∀ p', p' = p → ws = (receiver_of <$> js) → (∀ l, p ≠ p_wait l) → NoDup js →
    CI (Client p' (if cl then Fifo capacity [] ws cl else Fifo capacity [] (ws ++ [receiver_of j]) cl)
      (<[j := if cl then c_resumed None else c_wait]> cs) acc (log ++ []) out)) as Hnone.
  { intros -> Hws p' -> -> Hnp Hnd. rewrite app_nil_r. rewrite Hws in Ho. simpl in Ho.
    assert (∀ c', holds c' = None → omap holds (<[j := c']> cs) = omap holds cs) as Hsame by (intros c' ?; by eapply held_same).
    destruct cl.
    - split; simpl; try done; unfold held; simpl; rewrite ?Hsame, ?length_insert by done; try done.
      + exists js. split; [by constructor|]. by apply cons_waiting.
      + by rewrite contents_everybody; simpl; rewrite receivers_empty.
      + apply Forall_insert; [done|]. split; [done|]. by rewrite contents_everybody; simpl; rewrite receivers_empty.
    - assert (omap snd ((receiver_of <$> js) ++ [receiver_of j]) = []) as Hnil.
      { change [receiver_of j] with (receiver_of <$> [j]). rewrite <- fmap_app. apply receivers_empty. }
      split; cl_simpl; try done; unfold held; cl_simpl; rewrite ?Hsame, ?length_insert by done; try done.
      + exists (js ++ [j]). split.
        { replace (_ ++ [receiver_of j]) with (receiver_of <$> (js ++ [j])) by (by rewrite fmap_app). constructor; [done|].
          apply NoDup_app. split_and!; [done| |apply NoDup_singleton]. by intros x Hx ->%list_elem_of_singleton. }
        intros k. rewrite elem_of_app, list_elem_of_singleton. destruct (decide (k = j)) as [->|]; [rewrite list_lookup_insert_eq by done; tauto|].
        rewrite list_lookup_insert_ne by done. rewrite HW. tauto.
      + rewrite contents_everybody. cbn [f_buf f_waiters]. by rewrite Hnil.
      + apply Forall_insert; [|done]. eapply Forall_impl; [exact Hf|]. intros c Hc'. eapply fits_take; [exact Hc'|done|].
        intros _. rewrite contents_everybody. cbn [f_buf f_waiters]. by rewrite Hnil. }
  inversion Hw as [p1 b1 c1 Hnp|l b1 c1 u Hfull|p1 c1 js1 Hnp Hnd]; subst; simpl.
  - destruct buf as [|v buf]; simpl; [intros H; assert (NoDup ([] : list nat)) as Hnd by constructor; specialize (Hnone eq_refl eq_refl p eq_refl eq_refl Hnp Hnd); by destruct cl; simplify_eq|].
    intros [= <-]. apply Htake; simpl in *; try done; [lia|by rewrite app_nil_r].
  - destruct buf as [|v buf]; simpl; intros [= <-]; apply Htake; simpl in *; try done.
    rewrite length_app. simpl. lia.
  - destruct js as [|j' js]; simpl; intros H; specialize (Hnone eq_refl (receivers_empty _) p eq_refl eq_refl Hnp Hnd); by destruct cl; simplify_eq.
Qed.

Lemma step_inv s s' : CI s → client_step s s' → CI s'.
Proof.
  intros I [Hp|[j Hj]]; [by eapply produce_inv|]. pose proof Hj as Hj'. unfold cl_consume in Hj.
  destruct (cl_cons s !! j) as [[| |[v|]|v| |e]|] eqn:Hc; try done; [by eapply recv_inv| | |]; injection Hj as <-.
  - destruct offload; [by eapply set_cons_inv|by eapply finish_inv].
  - pose proof (ci_cons _ I) as Hf. rewrite Forall_lookup in Hf. pose proof (Hf _ _ Hc) as [Hcl Hq].
    enough (at_end (cl_acc s) = None) as -> by (by eapply set_cons_inv). apply (end_ok (cl_out s)); [| |apply I].
    + eapply possible_used; [apply I..].
    + intros Hn. rewrite <- (ci_order _ I), Hq, (ci_single _ I Hn). apply (ci_closed _ I) in Hcl. rewrite Hcl. simpl. rewrite app_nil_r.
      unfold held. destruct (held_single (cl_cons s) j (c_resumed None) c_ready) as [-> _]; [by rewrite (ci_len _ I)|done|]. by rewrite app_nil_r.
  - by eapply finish_inv.
Qed.

(** ** Termination *)
Definition cweight (c : cstate) : nat :=
  match c with c_ready => 3 | c_wait => 2 | c_resumed (Some _) => 7 | c_run _ => 6 | c_resumed None => 1 | c_done | c_failed _ => 0 end.
Definition pweight (p : pstate) : nat := match p with p_ready l | p_wait l => S (6 * length l) | _ => 0 end.
Definition cl_weight s : nat := pweight (cl_prod s) + 5 * length (contents everybody (cl_chan s)) + sum_list_with cweight (cl_cons s).
Lemma weight_close cs :
  (sum_list_with cweight ((λ c, match c with c_wait => c_resumed None | _ => c end) <$> cs) ≤ sum_list_with cweight cs)%nat.
Proof. induction cs as [|c cs IH]; [done|]. rewrite fmap_cons. cbn [sum_list_with]. destruct c as [| |[]| | |]; cbn [cweight]; lia. Qed.
(** What is in the queue, counted from what is not. *)
Lemma contents_length s : CI s →
  (length (cl_log s) + length (contents everybody (cl_chan s)) + length (todo_of (cl_prod s)) = length values)%nat.
Proof. intros I. rewrite <- (ci_order _ I), !length_app. lia. Qed.

Lemma produce_weight s s' : CI s → CI s' → cl_produce s = Some s' → (cl_weight s' < cl_weight s)%nat.
Proof.
  intros I I' H. pose proof (contents_length s I) as L. pose proof (contents_length s' I') as L'. unfold cl_weight.
  unfold cl_produce in H. destruct (cl_prod s) as [[|v todo]| | |] eqn:Hp; try done.
  - injection H as <-. cbn [cl_prod cl_chan cl_cons cl_log] in *. simpl in L, L'. pose proof (weight_close (cl_cons s)). simpl pweight. lia.
  - destruct (fifo_send _ _ _ _) as [[susp rx] q] eqn:Hs.
    assert (f_closed (cl_chan s) = false) as Hcl.
    { destruct (f_closed (cl_chan s)) eqn:E; [|done]. apply (ci_closed _ I) in E. congruence. }
    rewrite Hcl in H. destruct susp; [|destruct rx as [[|j]|]]; injection H as <-; cbn [cl_prod cl_chan cl_cons cl_log] in *;
      rewrite ?length_app in L'; simpl in L, L'; simpl pweight; try lia.
    assert (cl_cons s !! j = Some c_wait) as Hj.
    { destruct (ci_wait _ I) as (js&Hw&HW). apply HW. unfold fifo_send, fifo_push in Hs. rewrite Hcl, prune_everybody in Hs.
      rewrite Hp in Hw. inversion Hw as [p1 b1 c1 Hnp Ep Eb Ec Ew|?|p1 c1 js1 Hnp Hnd Ep Eb Ec Ew]; rewrite <- Ew in Hs; simpl in Hs; [by case_bool_decide; simplify_eq|].
      destruct js1 as [|j' js1]; simpl in Hs; [by case_bool_decide; simplify_eq|]. simplify_eq. by left. }
    pose proof (sum_insert cweight _ _ _ (c_resumed (Some v)) Hj). simpl cweight in *. lia.
Qed.
Lemma consume_weight s j s' : CI s → CI s' → cl_consume j s = Some s' → (cl_weight s' < cl_weight s)%nat.
Proof.
  intros I I' H. pose proof (contents_length s I) as L. pose proof (contents_length s' I') as L'. unfold cl_weight. unfold cl_consume in H.
  destruct (cl_cons s !! j) as [[| |[v|]|v| |e]|] eqn:Hj; try done.
  - destruct (fifo_recv _ _ _) as [[o susp] q] eqn:Hr. injection H as <-. cbn [cl_prod cl_chan cl_cons cl_log] in *.
    assert (∀ o p, pweight (unblock o p) = pweight p ∧ todo_of (unblock o p) = todo_of p) as Hu by (by intros [[]|] []).
    destruct (Hu (fifo_pop everybody (cl_chan s)).1.2 (cl_prod s)) as [E1 E2]. rewrite E1, E2 in *. rewrite length_app in L'.
    pose proof (sum_insert cweight _ _ _ (if susp : bool then c_wait else c_resumed o) Hj) as Hw.
    unfold fifo_recv in Hr. destruct (fifo_pop everybody (cl_chan s)) as [[[v|] tx] q0]; [|destruct (f_closed (cl_chan s))]; simplify_eq;
      simpl in *; lia.
  - destruct offload; injection H as <-.
    + cbn [set_cons cl_prod cl_chan cl_cons] in *. pose proof (sum_insert cweight _ _ _ (c_run v) Hj). simpl cweight in *. lia.
    + unfold cl_finish. destruct (use _ _); cbn [set_cons cl_prod cl_chan cl_cons] in *.
      * pose proof (sum_insert cweight _ _ _ (c_failed e) Hj). simpl cweight in *. lia.
      * pose proof (sum_insert cweight _ _ _ c_ready Hj). simpl cweight in *. lia.
  - injection H as <-. cbn [set_cons cl_prod cl_chan cl_cons] in *. pose proof (sum_insert cweight _ _ _ (match at_end (cl_acc s) with None => c_done | Some e => c_failed e end) Hj).
    destruct (at_end _); simpl cweight in *; lia.
  - injection H as <-. unfold cl_finish. destruct (use _ _); cbn [set_cons cl_prod cl_chan cl_cons] in *.
    + pose proof (sum_insert cweight _ _ _ (c_failed e) Hj). simpl cweight in *. lia.
    + pose proof (sum_insert cweight _ _ _ c_ready Hj). simpl cweight in *. lia.
Qed.
Lemma step_weight s s' : CI s → client_step s s' → (cl_weight s' < cl_weight s)%nat.
Proof.
  intros I H. pose proof (step_inv s s' I H) as I'. destruct H as [H|[j H]]; [by apply produce_weight|by eapply consume_weight].
Qed.

(** ** No schedule gets stuck *)
Definition ended s : Prop := cl_prod s = p_done ∧ Forall (λ c, c = c_done) (cl_cons s).
Lemma progress s : CI s → consumers ≠ 0%nat → (∃ s', client_step s s') ∨ ended s.
Proof.
  intros I Hn. destruct (cl_produce s) as [s'|] eqn:Hp; [left; exists s'; by left|].
  destruct (decide (Exists (λ c, match c with c_ready | c_resumed _ | c_run _ => true | _ => false end = true) (cl_cons s))) as [Hx|Hx].
  { left. apply Exists_exists in Hx as (c&[j Hj]%list_elem_of_lookup&Hc). assert (is_Some (cl_consume j s)) as [s' Hs'].
    { unfold cl_consume. rewrite Hj. destruct c as [| |[]| | |]; try done; [|by eexists..]. by destruct (fifo_recv _ _ _) as [[]]. }
    exists s'. right. by exists j. }
  right. destruct (ci_wait _ I) as (js&Hw&HW). pose proof (ci_cons _ I) as Hf. rewrite Forall_lookup in Hf.
  assert (∀ j c, cl_cons s !! j = Some c → c = c_wait ∨ c = c_done) as Hc.
  { intros j c Hj. specialize (Hf j c Hj). rewrite Exists_exists in Hx.
    destruct c; try (by auto); (destruct Hx; eexists; split; [by eapply list_elem_of_lookup_2|done]). }
  assert (cl_prod s = p_done) as Hd.
  { unfold cl_produce in Hp. destruct (cl_prod s) as [[]|todo| |] eqn:E; try done; [by destruct (fifo_send _ _ _ _) as [[[] [[]|]]]; destruct (f_closed _)| |by destruct (ci_open _ I)].
    exfalso. inversion Hw as [? ? ? Hnp| |? ? ? Hnp]; try (by edestruct Hnp). subst.
    destruct (cl_cons s) as [|c cs] eqn:Ecs; [apply Hn; by rewrite <- (ci_len _ I), Ecs|].
    destruct (Hc 0%nat c eq_refl) as [->| ->]; [apply (not_elem_of_nil 0%nat); by apply HW|].
    destruct (Hf 0%nat _ eq_refl) as [Hcl _]. apply (ci_closed _ I) in Hcl. congruence. }
  split; [done|]. apply Forall_lookup. intros j c Hj. destruct (Hc j c Hj) as [->|]; [|done]. exfalso.
  assert (f_waiters (cl_chan s) = []) as Hnil by (by apply (ci_idle _ I), (ci_closed _ I)). apply HW in Hj.
  rewrite Hnil in Hw. remember [] as ws eqn:Ews in Hw. destruct Hw as [| |? ? js]; [by apply not_elem_of_nil in Hj..|].
  apply fmap_nil_inv in Ews. subst. by apply not_elem_of_nil in Hj.
Qed.
Lemma ended_complete s : CI s → consumers ≠ 0%nat → ended s →
  cl_out s ≡ₚ values ∧ (consumers = 1%nat → cl_out s = values).
Proof.
  intros I Hn [Hp Hc]. assert (held s = []) as Hh.
  { unfold held. clear -Hc. induction Hc as [|? ? ->]; done. }
  assert (contents everybody (cl_chan s) = []) as Hq.
  { pose proof (ci_cons _ I) as Hf. pose proof (ci_len _ I) as Hl. destruct (cl_cons s) as [|c cs]; [simpl in Hl; lia|].
    apply Forall_cons in Hc as [-> _], Hf as [[_ Hf] _]. done. }
  pose proof (ci_order _ I) as Ho. rewrite Hp, Hq in Ho. simpl in Ho. rewrite app_nil_r in Ho.
  pose proof (ci_taken _ I) as Ht. pose proof (ci_single _ I) as H1. rewrite Hh, app_nil_r in Ht, H1.
  split; [by rewrite <- Ht, Ho|intros; by rewrite <- H1, Ho].
Qed.

(** The whole program: every schedule is finite, can only stop with everything received
    and used, and fails nowhere on the way. *)
Lemma clients_complete : consumers ≠ 0%nat →
  (∀ n s, nsteps client_step n (client_new values capacity consumers acc0) s → (n ≤ 6 * length values + 3 * consumers + 1)%nat) ∧
  ∀ s, rtc client_step (client_new values capacity consumers acc0) s →
    cl_prod s ≠ p_failed ∧ (∀ e, c_failed e ∉ cl_cons s) ∧ possible (cl_out s) ∧ uses acc0 (cl_out s) = Some (cl_acc s) ∧
    ((∃ s', client_step s s') ∨ ended s ∧ cl_out s ≡ₚ values ∧ (consumers = 1%nat → cl_out s = values)).
Proof.
  intros Hn. split.
  - assert (cl_weight (client_new values capacity consumers acc0) = 6 * length values + 3 * consumers + 1)%nat as <-.
    { unfold cl_weight, client_new. cl_simpl. assert (∀ n, sum_list_with cweight (replicate n c_ready) = 3 * n)%nat as ->; [|simpl; lia].
      intros n. induction n; simpl in *; lia. }
    intros n s H. assert (n + cl_weight s ≤ cl_weight (client_new values capacity consumers acc0))%nat; [|lia].
    generalize CI_new. induction H as [s|n s1 s2 s3 Hs Hr IH]; intros I; [lia|].
    specialize (IH (step_inv _ _ I Hs)). pose proof (step_weight _ _ I Hs). lia.
  - intros s Hs. assert (CI s) as I.
    { revert s Hs. apply rtc_ind_r; [apply CI_new|]. intros ? ? _ H I. by eapply step_inv. }
    split_and!; [apply I| |by eapply possible_used; [apply I..]|apply I|].
    + intros e He. pose proof (ci_cons _ I) as Hf. rewrite Forall_forall in Hf. exact (Hf _ He).
    + destruct (progress s I Hn) as [|He]; [by left|right]. split; [done|]. by apply ended_complete.
Qed.
End run.
End clients.


(** ** What the programs make of it *)
(** [co_await when_all(loop, tasks)], the producer first: the first error in that order,
    once all have ended *)
Definition child_result (c : cstate) : option (option exn) :=
  match c with c_done => Some None | c_failed e => Some (Some e) | _ => None end.
Definition prod_result (p : pstate) : option (option exn) :=
  match p with p_done => Some None | p_failed => Some (Some (system_error broken_pipe)) | _ => None end.
Definition cl_first_error (rs : list (option exn)) : option exn := head (omap id rs).
Definition cl_joined {A} (s : client (A := A)) : option (option exn) :=
  cl_first_error <$> mapM id (prod_result (cl_prod s) :: (child_result <$> cl_cons s)).
Lemma joined_ended {A} (s : client (A := A)) : ended s → cl_joined s = Some None.
Proof.
  intros [Hp Hc]. unfold cl_joined. rewrite Hp. assert (mapM id (child_result <$> cl_cons s) = Some (replicate (length (cl_cons s)) None)) as E.
  { induction Hc as [|c cs -> Hc IH]; [done|]. rewrite fmap_cons. simpl in *. by rewrite IH. }
  simpl in *. rewrite E. simpl. f_equal. unfold cl_first_error. simpl. clear E. induction (length (cl_cons s)); done.
Qed.

(** *** examples/pipeline.cpp: ten jobs, two consumers, squares summed *)
Definition pipeline_values : list Z := Z.of_nat <$> seq 1 10.
Definition pipeline_use (sum v : Z) : exn + Z := inr (sum + v * v).
Definition pipeline_new : client (A := Z) := client_new pipeline_values 2 2 0.
Definition pipeline_step : relation (client (A := Z)) := client_step true pipeline_use (λ _, None).
(** The end of [run]: the exception it throws or the sum it prints *)
Definition pipeline_run (s : client (A := Z)) : option (exn + Z) :=
  match cl_joined s with
  | None => None
  | Some (Some e) => Some (inl e)
  | Some None => Some (if bool_decide (cl_acc s = 385) then inr (cl_acc s) else inl (runtime_error "pipeline result mismatch"))
  end.

Definition squares (vs : list Z) : Z := foldr (λ v a, v * v + a) 0 vs.
Lemma squares_app vs ws : squares (vs ++ ws) = squares vs + squares ws.
Proof. induction vs as [|v vs IH]; simpl; [done|]. rewrite IH. lia. Qed.
#[global] Instance squares_proper : Proper ((≡ₚ) ==> (=)) squares.
Proof. induction 1; simpl; lia. Qed.
Lemma squares_nonneg vs : 0 ≤ squares vs.
Proof. induction vs; simpl; nia. Qed.
Lemma pipeline_uses sum vs : uses pipeline_use sum vs = Some (sum + squares vs).
Proof. revert sum. induction vs as [|v vs IH]; intros sum; simpl; [by rewrite Z.add_0_r|]. rewrite IH. f_equal. lia. Qed.

(** *** bench/channel.cpp, bench/mailbox.cpp: the receiver checks order and count *)
Definition u32 (x : Z) : Z := x mod 2 ^ 32.
Definition stream_use (name : string) (seen v : Z) : exn + Z :=
  if bool_decide (v = seen) then inr (u32 (seen + 1)) else inl (runtime_error (name +:+ " order mismatch")).
Definition stream_end (name : string) (count seen : Z) : option exn :=
  if bool_decide (seen = count) then None else Some (runtime_error (name +:+ " count mismatch")).
Definition stream_values (count : Z) : list Z := seqZ 0 count.
Definition stream_step (name : string) (count : Z) : relation (client (A := Z)) :=
  client_step false (stream_use name) (stream_end name count).
Definition bench_new (count : Z) (capacity : nat) : client (A := Z) := client_new (stream_values count) capacity 1 0.

Lemma stream_uses name seen n : 0 ≤ seen → 0 ≤ n → seen + n < 2 ^ 32 →
  uses (stream_use name) seen (seqZ seen n) = Some (seen + n).
Proof.
  intros Hs Hn. revert seen Hs. pattern n. apply natlike_ind; [|intros m Hm IH|done]; intros seen Hs Hlt.
  - simpl. by rewrite Z.add_0_r.
  - rewrite seqZ_cons by lia. cbn [uses]. unfold stream_use at 1. rewrite bool_decide_true by done.
    unfold u32. rewrite Z.mod_small by lia. replace (Z.succ seen) with (seen + 1) by lia. replace (Z.pred (Z.succ m)) with m by lia.
    rewrite IH by lia. f_equal. lia.
Qed.

Lemma stream_use_ok name count : 0 ≤ count < 2 ^ 32 → ∀ out, possible (stream_values count) 1 out → is_Some (uses (stream_use name) 0 out).
Proof.
  intros Hc out [_ Hp]. destruct (Hp eq_refl) as [rest E]. unfold stream_values in E.
  assert (is_Some (uses (stream_use name) 0 (out ++ rest))) as H by (rewrite <- E, stream_uses by lia; done).
  clear -H. revert H. generalize 0. induction out as [|v out IH]; intros a; [done|]. simpl. destruct (stream_use name a v); [done|apply IH].
Qed.
Lemma stream_end_ok name count : 0 ≤ count < 2 ^ 32 → ∀ out acc, possible (stream_values count) 1 out → (1%nat = 1%nat → out = stream_values count) →
  uses (stream_use name) 0 out = Some acc → stream_end name count acc = None.
Proof.
  intros Hc out acc _ ->; [|done]. unfold stream_values. rewrite stream_uses by lia. intros [= <-]. unfold stream_end. by rewrite bool_decide_true by lia.
Qed.

(** *** examples/mailbox.cpp: ten values printed *)
Definition print_use (printed : list Z) (v : Z) : exn + list Z := inr (printed ++ [v]).
Definition print_new : client (A := list Z) := client_new (stream_values 10) 2 1 [].
Definition print_step : relation (client (A := list Z)) := client_step false print_use (λ _, None).
Lemma print_uses printed vs : uses print_use printed vs = Some (printed ++ vs).
Proof. revert printed. induction vs as [|v vs IH]; intros pr; simpl; [by rewrite app_nil_r|]. by rewrite IH, <- app_assoc. Qed.

(** ** Theorems *)
(** C22: examples/pipeline.cpp prints 385 under every schedule: no schedule of the producer,
    the consumers and the pool is longer than 67 steps, the running sum stays an [int], and
    the program can only stop by printing the sum of squares, never with an exception and
    never stuck. *)
Theorem pipeline_prints :
  (∀ n s, nsteps pipeline_step n pipeline_new s → (n ≤ 67)%nat) ∧
  ∀ s, rtc pipeline_step pipeline_new s →
    0 ≤ cl_acc s ≤ 385 ∧ ((∃ s', pipeline_step s s') ∨ pipeline_run s = Some (inr 385)).
Proof.
  destruct (clients_complete true pipeline_use (λ _, None) pipeline_values 2 0 2) as [Hb Hr]; [|done|done|].
  { intros out _. rewrite pipeline_uses. done. }
  split; [exact Hb|]. intros s Hs. destruct (Hr s Hs) as (_&_&[[rest Hp] _]&Ha&H). rewrite pipeline_uses in Ha. injection Ha as Ha.
  assert (squares pipeline_values = 385) as Hv by done. split.
  { rewrite Hp, squares_app in Hv. pose proof (squares_nonneg (cl_out s)). pose proof (squares_nonneg rest). lia. }
  destruct H as [|(He&Ho&_)]; [by left|right]. rewrite Ho, Hv in Ha. unfold pipeline_run. by rewrite (joined_ended _ He), <- Ha.
Qed.

(** the receivers of bench/channel.cpp and bench/mailbox.cpp never report a mismatch:
    for every count an [unsigned] holds and every capacity, each schedule ends within
    [6 * count + 4] steps, nobody fails on the way, and at the end exactly [count] values
    have been received in order. *)
Theorem stream_checks name count capacity : 0 ≤ count < 2 ^ 32 →
  (∀ n s, nsteps (stream_step name count) n (bench_new count capacity) s → (n ≤ 6 * Z.to_nat count + 4)%nat) ∧
  ∀ s, rtc (stream_step name count) (bench_new count capacity) s →
    (∃ s', stream_step name count s s') ∨ cl_joined s = Some None ∧ cl_acc s = count ∧ cl_out s = stream_values count.
Proof.
  intros Hc. destruct (clients_complete false (stream_use name) (stream_end name count) (stream_values count) capacity 0 1) as [Hb Hr].
  - by apply stream_use_ok.
  - by apply stream_end_ok.
  - done.
  - split.
    + intros n s H. apply Hb in H. unfold stream_values in H. rewrite length_seqZ in H. lia.
    + intros s Hs. destruct (Hr s Hs) as (_&_&_&Ha&[H|(He&_&Ho)]); [by left|right]. specialize (Ho eq_refl).
      rewrite Ho in Ha. unfold stream_values in Ha. rewrite stream_uses in Ha by lia. split; [by apply joined_ended|]. split; [by injection Ha|done].
Qed.
Lemma stream_checks_witness : (0 ≤ 3 < 2 ^ 32) ∧
  ∀ s, rtc (stream_step "mailbox" 3) (bench_new 3 0) s →
    (∃ s', stream_step "mailbox" 3 s s') ∨ cl_joined s = Some None ∧ cl_acc s = 3 ∧ cl_out s = [0; 1; 2].
Proof. split; [lia|]. apply (stream_checks "mailbox" 3 0). lia. Defined.

(** examples/mailbox.cpp prints 0 to 9 in order. *)
Lemma mailbox_prints :
  (∀ n s, nsteps print_step n print_new s → (n ≤ 64)%nat) ∧
  ∀ s, rtc print_step print_new s → cl_acc s `prefix_of` seqZ 0 10 ∧ ((∃ s', print_step s s') ∨ cl_joined s = Some None ∧ cl_acc s = seqZ 0 10).
Proof.
  destruct (clients_complete false print_use (λ _, None) (stream_values 10) 2 [] 1) as [Hb Hr]; [|done|done|].
  { intros out _. rewrite print_uses. done. }
  split; [exact Hb|]. intros s Hs. destruct (Hr s Hs) as (_&_&[_ Hp]&Ha&H). rewrite print_uses in Ha. injection Ha as <-.
  split; [by apply Hp|]. destruct H as [|(He&_&Ho)]; [by left|right]. split; [by apply joined_ended|by apply Ho].
Qed.
