(* ===== verification/Measure.v ===== *)
(** * The two threads of the mailbox benchmark (bench/mailbox.cpp, [measure])

    Two threads construct a loop each, signal that they are ready and wait for a common
    start; then one sends and the other receives.  A thread that fails closes the box, so
    that the other does not wait for it.  Constructing a loop or a thread may fail at any
    time; the schedule is any interleaving of the three threads. *)
From S2P Require Import Prelude Fifo Clients.
From stdpp Require Import relations.
Local Open Scope Z_scope.

(** A thread: not created, constructing its loop, waiting for the start, in [loop.run()],
    or ended with what it stored in [errors] *)
Inductive wphase := wk_none | wk_new | wk_wait | wk_run | wk_end (error : option exn).
(** The caller: about to create the consumer, waiting for the ready signal of a thread,
    joining both, joining the producer after a failure, or returned or thrown *)
Inductive mphase := mn_create | mn_ready (consumer : bool) | mn_join | mn_unwind (e : exn) | mn_done (r : option exn).
(** [h_failed] records that a construction failed *)
Record hs := Hs { h_main : mphase; h_w0 : wphase; h_w1 : wphase; h_go : bool; h_cl : client (A := Z); h_failed : bool }.

Section measure.
Variables (count : Z) (capacity : nat).
Implicit Types (s : hs) (i : bool).

Definition phase i s : wphase := if i then h_w1 s else h_w0 s.
Definition set_phase i (p : wphase) s : hs :=
  if i then Hs (h_main s) (h_w0 s) p (h_go s) (h_cl s) (h_failed s) else Hs (h_main s) p (h_w1 s) (h_go s) (h_cl s) (h_failed s).
Definition set_cl (c : client (A := Z)) s : hs := Hs (h_main s) (h_w0 s) (h_w1 s) (h_go s) c (h_failed s).
Definition set_main (m : mphase) (go : bool) s : hs := Hs m (h_w0 s) (h_w1 s) (h_go s || go) (h_cl s) (h_failed s).
Definition mark s : hs := Hs (h_main s) (h_w0 s) (h_w1 s) (h_go s) (h_cl s) true.
(** [box.close()]: a waiting receiver gets nothing, a waiting sender an error *)
Definition cl_close (c : client (A := Z)) : client :=
  Client (match cl_prod c with p_wait _ => p_failed | p => p end) (fifo_close (cl_chan c))
    ((λ x, match x with c_wait => c_resumed None | _ => x end) <$> cl_cons c) (cl_acc c) (cl_log c) (cl_out c).
Definition close_box s : hs := set_cl (cl_close (h_cl s)) s.
(** [ready[index]] is set when the thread starts to wait and when it fails before *)
Definition is_ready (p : wphase) : bool := match p with wk_none | wk_new => false | _ => true end.
(** How the coroutine of a thread has ended *)
Definition root_result i (c : client (A := Z)) : option (option exn) :=
  if i then match cl_cons c with x :: _ => child_result x | [] => None end else prod_result (cl_prod c).

(** The steps of [worker] *)
Definition worker_start i (f : option exn) s : option hs :=
  match phase i s with
  | wk_new => Some (match f with None => set_phase i wk_wait s | Some e => set_phase i (wk_end (Some e)) (close_box (mark s)) end)
  | _ => None
  end.
Definition worker_go i s : option hs :=
  match phase i s with wk_wait => if h_go s then Some (set_phase i wk_run s) else None | _ => None end.
Definition worker_run i s : option hs :=
  match phase i s with
  | wk_run => (λ c, set_cl c s) <$> (if i then cl_consume false (stream_use "mailbox") (stream_end "mailbox" count) 0 (h_cl s) else cl_produce (h_cl s))
  | _ => None
  end.
Definition worker_end i s : option hs :=
  match phase i s, root_result i (h_cl s) with
  | wk_run, Some None => Some (set_phase i (wk_end None) s)
  | wk_run, Some (Some e) => Some (set_phase i (wk_end (Some e)) (close_box s))
  | _, _ => None
  end.
(** The steps of [measure] *)
Definition main_create (f : option exn) s : option hs :=
  match h_main s with
  | mn_create => Some (match f with None => set_phase true wk_new (set_main (mn_ready false) false s) | Some e => set_main (mn_unwind e) true (close_box (mark s)) end)
  | _ => None
  end.
Definition main_step s : option hs :=
  match h_main s with
  | mn_ready i => if is_ready (phase i s) then Some (if i then set_main mn_join true s else set_main (mn_ready true) false s) else None
  | mn_join => match h_w0 s, h_w1 s with wk_end e0, wk_end e1 => Some (set_main (mn_done (match e0 with None => e1 | _ => e0 end)) false s) | _, _ => None end
  | mn_unwind e => match h_w0 s with wk_end _ => Some (set_main (mn_done (Some e)) false s) | _ => None end
  | _ => None
  end.
Definition measure_step : relation hs := λ s s',
  main_step s = Some s' ∨ (∃ f, main_create f s = Some s') ∨
  ∃ i, (∃ f, worker_start i f s = Some s') ∨ worker_go i s = Some s' ∨ worker_run i s = Some s' ∨ worker_end i s = Some s'.
Definition measure_new : hs := Hs mn_create wk_new wk_none false (bench_new count capacity) false.

(** ** Invariant *)
Hypothesis count_range : 1 ≤ count < 2 ^ 32.
Notation inv := (CI (stream_use "mailbox") (stream_values count) capacity 0 1).

(** Where the caller is, against the threads. *)
Definition main_fits s : Prop :=
  match h_main s with
  | mn_create => h_w1 s = wk_none ∧ h_go s = false
  | mn_ready i => h_w1 s ≠ wk_none ∧ h_go s = false ∧ (i = true → is_ready (h_w0 s) = true)
  | mn_join => h_go s = true ∧ is_ready (h_w0 s) = true ∧ is_ready (h_w1 s) = true
  | mn_unwind _ => h_go s = true ∧ h_w1 s = wk_none ∧ h_failed s = true
  | mn_done r => r = None ↔ h_failed s = false
  end ∧ h_w0 s ≠ wk_none.
(** Nothing has failed: the two coroutines run as in [Clients]. *)
Record alive s : Prop := {
  al_failed : h_failed s = false;
  al_inv : inv (h_cl s);
  al_before : h_go s = false → h_cl s = bench_new count capacity ∧ (∀ i, match phase i s with wk_run | wk_end _ => False | _ => True end);
  al_ended : ∀ i, match phase i s with wk_end e => e = None ∧ root_result i (h_cl s) = Some None | _ => True end;
  al_done : ∀ r, h_main s = mn_done r → ∀ i, phase i s = wk_end None }.
(** A construction has failed: the box is closed and empty and was before anyone ran. *)
Record dead s : Prop := {
  de_failed : h_failed s = true;
  de_chan : f_closed (cl_chan (h_cl s)) = true ∧ f_buf (cl_chan (h_cl s)) = [] ∧ f_waiters (cl_chan (h_cl s)) = [];
  de_prod : cl_prod (h_cl s) = p_ready (stream_values count) ∨ cl_prod (h_cl s) = p_failed;
  de_cons : ∃ c, cl_cons (h_cl s) = [c] ∧ match c with c_ready | c_resumed None | c_failed _ => True | _ => False end;
  de_acc : cl_acc (h_cl s) = 0;
  de_ended : ∀ i, phase i s ≠ wk_end None }.
Definition HI s : Prop := main_fits s ∧ (alive s ∨ dead s).
Definition wphase_weight (p : wphase) : nat := match p with wk_none => 4 | wk_new => 3 | wk_wait => 2 | wk_run => 1 | wk_end _ => 0 end.
Definition mphase_weight (m : mphase) : nat := match m with mn_create => 4 | mn_ready false => 3 | mn_ready true => 2 | mn_join | mn_unwind _ => 1 | mn_done _ => 0 end.
Definition hs_weight s : nat := mphase_weight (h_main s) + wphase_weight (h_w0 s) + wphase_weight (h_w1 s) + cl_weight (h_cl s).

Lemma values_cons : stream_values count = 0 :: seqZ 1 (count - 1).
Proof. unfold stream_values. rewrite seqZ_cons by lia. done. Qed.
Lemma HI_new : HI measure_new.
Proof.
  split; [done|left]. split; [done|apply CI_new|intros _; split; [done|by intros []]|by intros []|done].
Qed.
(** Closing the box before anyone has run. *)
Lemma close_fresh s : alive s → h_go s = false → cl_close (h_cl s) = Client (p_ready (stream_values count)) (Fifo capacity [] [] true) [c_ready] 0 [] [].
Proof. intros I H. by destruct (al_before _ I H) as [-> _]. Qed.
Lemma close_dead s : dead s → cl_close (h_cl s) = h_cl s.
Proof.
  intros I. destruct (h_cl s) as [p [cap buf ws cl] cs acc log out] eqn:E. destruct (de_chan _ I) as (H1&H2&H3). rewrite E in *. simpl in *. subst.
  destruct (de_cons _ I) as (c&Hc&Hm). destruct (de_prod _ I) as [Hp|Hp]; rewrite E in *; simpl in *; subst; unfold cl_close, fifo_close; simpl; destruct c as [| |[]| | |]; done.
Qed.

(** A step of the coroutines over the closed box. *)
Lemma dead_run i s s' : dead s → worker_run i s = Some s' → dead s' ∧ (cl_weight (h_cl s') < cl_weight (h_cl s))%nat.
Proof.
  intros I H. unfold worker_run in H. destruct (phase i s) eqn:Hph; try done.
  destruct s as [m w0 w1 go [p [cap buf ws cl] cs acc log out] fl]. destruct I as [H1 (H2&H3&H4) H5 (c&H6&H6') H7 H8]. simpl in *. subst.
  unfold cl_weight, contents. simpl. destruct i.
  - unfold cl_consume in H. simpl in H. destruct c as [| |[]| | |e]; try done; simpl in H; injection H as <-.
    + split; [|simpl; lia]. split; try done. by exists (c_resumed None).
    + unfold stream_end. rewrite bool_decide_false by lia. split; [|simpl; lia]. split; try done. by eexists.
  - unfold cl_produce in H. simpl in H. destruct H5 as [->| ->]; [|done]. rewrite values_cons in *. simpl in H. injection H as <-.
    split; [|simpl; lia]. split; try done; [by right|by exists c].
Qed.
(** A step of the coroutines over the open box. *)
Lemma alive_run i s s' : alive s → worker_run i s = Some s' → h_go s = true → (∀ r, h_main s ≠ mn_done r) →
  alive s' ∧ (cl_weight (h_cl s') < cl_weight (h_cl s))%nat.
Proof.
  intros I H Hgo Hm. assert (client_step false (stream_use "mailbox") (stream_end "mailbox" count) (h_cl s) (h_cl s') ∧ s' = set_cl (h_cl s') s ∧ phase i s = wk_run) as (Hs&E&Hph).
  { unfold worker_run in H. destruct (phase i s); try done. destruct i.
    - destruct (cl_consume _ _ _ 0 (h_cl s)) as [c|] eqn:Hc; [|done]. injection H as <-. split; [right; by exists 0%nat|done].
    - destruct (cl_produce (h_cl s)) as [c|] eqn:Hc; [|done]. injection H as <-. split; [by left|done]. }
  split; [|apply (step_weight false (stream_use "mailbox") (stream_end "mailbox" count) (stream_values count) capacity 0 1); [apply stream_use_ok; lia|apply stream_end_ok; lia|apply I|done]].
  split.
  - rewrite E. apply I.
  - apply (step_inv false (stream_use "mailbox") (stream_end "mailbox" count) (stream_values count) capacity 0 1 ) with (h_cl s); [apply stream_use_ok; lia|apply stream_end_ok; lia|apply I|done].
  - rewrite E. simpl. congruence.
  - intros j. pose proof (al_ended _ I j) as Hj. assert (phase j s' = phase j s) as -> by (rewrite E; by destruct j). destruct (phase j s) as [| | | |e] eqn:Hpj; try done.
    destruct Hj as [-> Hj]. split; [done|]. assert (i ≠ j) by congruence. unfold worker_run in H. rewrite Hph in H. destruct i, j; try done; simpl in Hj.
    + (* the consumer moves on after the producer has ended *)
      unfold root_result in *. destruct (cl_consume _ _ _ 0 (h_cl s)) as [c|] eqn:Hc; [|done]. injection H as <-. simpl.
      enough (cl_prod c = cl_prod (h_cl s)) as -> by done. assert (cl_prod (h_cl s) = p_done) as Hp by (by destruct (cl_prod (h_cl s))).
      unfold cl_consume in Hc. destruct (cl_cons (h_cl s) !! 0%nat) as [[| |[v|]|v| |e]|]; try done.
      * destruct (fifo_recv _ _ _) as [[]]. injection Hc as <-. simpl. rewrite Hp. by destruct ((fifo_pop everybody (cl_chan (h_cl s))).1.2) as [[]|].
      * injection Hc as <-. unfold cl_finish. by destruct (stream_use _ _ _).
      * by injection Hc as <-.
      * injection Hc as <-. unfold cl_finish. by destruct (stream_use _ _ _).
    + (* the producer has nothing left once the consumer has seen the end *)
      exfalso. unfold root_result in Hj. destruct (cl_cons (h_cl s)) as [|x xs] eqn:Hcs; [done|].
      assert (x = c_done) as -> by (by destruct x as [| |[]| | |]). pose proof (ci_cons _ _ _ _ _ _ (al_inv _ I)) as Hf. rewrite Hcs in Hf.
      apply Forall_cons in Hf as [[Hf _] _]. apply (ci_closed _ _ _ _ _ _ (al_inv _ I)) in Hf. unfold cl_produce in H. by rewrite Hf in H.
  - intros r. rewrite E. intros Hr. by destruct (Hm r).
Qed.

(** ** Every step keeps the invariant *)
Lemma phase_set i j p s : phase j (set_phase i p s) = if bool_decide (i = j) then p else phase j s.
Proof. by destruct i, j. Qed.
Lemma fits_phase i p s : main_fits s → phase i s ≠ wk_none → p ≠ wk_none → (is_ready (phase i s) = true → is_ready p = true) → main_fits (set_phase i p s).
Proof.
  intros [Hm H0] Hn Hp Hs. unfold main_fits. destruct i; simpl in *; (split; [|done]).
  - destruct (h_main s) as [|[]| | |]; try done; naive_solver.
  - destruct (h_main s) as [|[]| | |]; try done; naive_solver.
Qed.
Lemma weight_phase i p s : (hs_weight (set_phase i p s) + wphase_weight (phase i s) = hs_weight s + wphase_weight p)%nat.
Proof. unfold hs_weight. destruct i; simpl; lia. Qed.
(** Before a thread has signalled nobody has started. *)
Lemma not_started i s : main_fits s → alive s → is_ready (phase i s) = false → h_go s = false.
Proof.
  intros [Hm _] I Hs. destruct (h_go s) eqn:Hg; [|done]. pose proof (al_failed _ I) as Hf.
  destruct (h_main s) as [| | | |r] eqn:E; [naive_solver|naive_solver| |destruct Hm as (_&_&?); congruence|].
  - destruct Hm as (_&H0&H1). destruct i; simpl in Hs; congruence.
  - by rewrite (al_done _ I r E i) in Hs.
Qed.
(** A construction fails, of a thread that has not started or of the thread itself. *)
Lemma fail_dead s : main_fits s → alive s ∨ dead s → h_go s = false ∨ dead s → dead (close_box (mark s)) ∧ cl_weight (cl_close (h_cl s)) = cl_weight (h_cl s).
Proof.
  intros Hm Hs Hg. assert (dead s ∨ alive s ∧ h_go s = false) as [I|[I Hgo]] by tauto.
  - rewrite (close_dead s I). split; [|done]. unfold close_box. simpl. rewrite (close_dead s I). split; simpl; try apply I. done.
  - assert (∀ i, phase i s ≠ wk_end None) as He. { intros i E. destruct (al_before _ I Hgo) as [_ Hp]. specialize (Hp i). by rewrite E in Hp. }
    split; [|rewrite (close_fresh s I Hgo); by destruct (al_before _ I Hgo) as [-> _]]. unfold close_box. simpl. rewrite (close_fresh s I Hgo).
    split; simpl; try done; [by left|by exists c_ready].
Qed.
Lemma alive_phase i p s : alive s → phase i s ≠ wk_end None → (h_go s = false → match p with wk_run | wk_end _ => False | _ => True end) →
  match p with wk_end e => e = None ∧ root_result i (h_cl s) = Some None | _ => True end → alive (set_phase i p s).
Proof.
  intros I Hi Hp He. split.
  - by destruct i; apply I.
  - by destruct i; apply I.
  - assert (h_go (set_phase i p s) = h_go s ∧ h_cl (set_phase i p s) = h_cl s) as [-> ->] by (by destruct i). intros Hg.
    destruct (al_before _ I Hg) as [H1 H2]. split; [done|]. intros j. rewrite phase_set. case_bool_decide; [by apply Hp|apply H2].
  - intros j. assert (h_cl (set_phase i p s) = h_cl s) as -> by (by destruct i). rewrite phase_set. case_bool_decide as E; [by subst|apply I].
  - assert (h_main (set_phase i p s) = h_main s) as -> by (by destruct i). intros r Hr. destruct Hi. by apply (al_done _ I r Hr).
Qed.
Lemma dead_phase i p s : dead s → p ≠ wk_end None → dead (set_phase i p s).
Proof.
  intros I Hp. assert (h_failed (set_phase i p s) = h_failed s ∧ h_cl (set_phase i p s) = h_cl s) as [E1 E2] by (by destruct i).
  split; rewrite ?E1, ?E2; try apply I. intros j. rewrite phase_set. case_bool_decide; [done|apply I].
Qed.

Lemma worker_start_ok i f s s' : HI s → worker_start i f s = Some s' → HI s' ∧ (hs_weight s' < hs_weight s)%nat.
Proof.
  intros [Hm Hs] H. unfold worker_start in H. destruct (phase i s) eqn:Hp; try done. injection H as <-. destruct f as [e|].
  - destruct (fail_dead s Hm Hs) as [Hd Hw].
    { destruct Hs as [I|I]; [left; apply (not_started i s Hm I); by rewrite Hp|by right]. }
    assert (phase i (close_box (mark s)) = wk_new) as Hp' by (by rewrite <- Hp; destruct i).
    split; [split; [apply fits_phase; rewrite ?Hp'; try done|right; by apply dead_phase]|].
    + destruct Hm as [Hm H0]. split; [|done]. simpl. destruct (h_main s) as [| | | |r] eqn:E; try done; [naive_solver|].
      destruct Hs as [I|I]; [by rewrite (al_done _ I r E i) in Hp|]. by rewrite (de_failed _ I) in Hm.
    + pose proof (weight_phase i (wk_end (Some e)) (close_box (mark s))) as Hx. rewrite Hp' in Hx.
      assert (hs_weight (close_box (mark s)) = hs_weight s) as Hy by (unfold hs_weight; simpl; by rewrite Hw). simpl in Hx. lia.
  - split; [split; [apply fits_phase; rewrite ?Hp; done|]|pose proof (weight_phase i wk_wait s) as Hx; rewrite Hp in Hx; simpl in Hx; lia].
    destruct Hs as [I|I]; [left; apply alive_phase; rewrite ?Hp; done|right; by apply dead_phase].
Qed.
Lemma worker_go_ok i s s' : HI s → worker_go i s = Some s' → HI s' ∧ (hs_weight s' < hs_weight s)%nat.
Proof.
  intros [Hm Hs] H. unfold worker_go in H. destruct (phase i s) eqn:Hp; try done. destruct (h_go s) eqn:Hg; [|done]. injection H as <-.
  split; [split; [apply fits_phase; rewrite ?Hp; done|]|pose proof (weight_phase i wk_run s) as Hx; rewrite Hp in Hx; simpl in Hx; lia].
  destruct Hs as [I|I]; [left; apply alive_phase; rewrite ?Hp; try done; congruence|right; by apply dead_phase].
Qed.
Lemma worker_run_ok i s s' : HI s → worker_run i s = Some s' → HI s' ∧ (hs_weight s' < hs_weight s)%nat.
Proof.
  intros [Hm Hs] H. assert (phase i s = wk_run ∧ s' = set_cl (h_cl s') s) as [Hp E].
  { unfold worker_run in H. destruct (phase i s); try done. split; [done|]. destruct i; [destruct (cl_consume _ _ _ 0 (h_cl s)) as [c|]|destruct (cl_produce (h_cl s)) as [c|]]; simpl in H; by simplify_eq. }
  assert ((alive s' ∨ dead s') ∧ (cl_weight (h_cl s') < cl_weight (h_cl s))%nat) as [Hs' Hw].
  { destruct Hs as [I|I]; [|destruct (dead_run i s s' I H); tauto]. destruct (alive_run i s s' I H) as [? ?]; [| |tauto].
    - destruct (h_go s) eqn:Hg; [done|]. destruct (al_before _ I Hg) as [_ Hb]. specialize (Hb i). by rewrite Hp in Hb.
    - intros r Hr. by rewrite (al_done _ I r Hr i) in Hp. }
  split; [split; [rewrite E; exact Hm|done]|]. rewrite E. unfold hs_weight. simpl. lia.
Qed.
Lemma worker_end_ok i s s' : HI s → worker_end i s = Some s' → HI s' ∧ (hs_weight s' < hs_weight s)%nat.
Proof.
  intros [Hm Hs] H. unfold worker_end in H. destruct (phase i s) eqn:Hp; try done.
  destruct (root_result i (h_cl s)) as [[e|]|] eqn:Hr; try done; injection H as <-.
  - assert (dead s) as I.
    { destruct Hs as [I|I]; [exfalso|done]. pose proof (al_inv _ I) as Hi. destruct i; simpl in Hr.
      - destruct (cl_cons (h_cl s)) as [|x xs] eqn:Hc; [done|]. pose proof (ci_cons _ _ _ _ _ _ Hi) as Hf. rewrite Hc in Hf. apply Forall_cons in Hf as [Hf _].
        destruct x as [| |[]| | |]; done.
      - apply (ci_open _ _ _ _ _ _ Hi). by destruct (cl_prod (h_cl s)). }
    assert (close_box s = s) as -> by (unfold close_box; rewrite (close_dead s I); by destruct s).
    split; [split; [apply fits_phase; rewrite ?Hp; done|right; by apply dead_phase]|]. pose proof (weight_phase i (wk_end (Some e)) s) as Hx. rewrite Hp in Hx. simpl in Hx. lia.
  - split; [split; [apply fits_phase; rewrite ?Hp; done|]|pose proof (weight_phase i (wk_end None) s) as Hx; rewrite Hp in Hx; simpl in Hx; lia].
    left. destruct Hs as [I|I].
    + apply alive_phase; rewrite ?Hp; try done. intros Hg. destruct (al_before _ I Hg) as [_ Hb]. specialize (Hb i). by rewrite Hp in Hb.
    + exfalso. destruct i; simpl in Hr.
      * destruct (de_cons _ I) as (c&Hc&Hx). rewrite Hc in Hr. by destruct c as [| |[]| | |].
      * destruct (de_prod _ I) as [E|E]; by rewrite E in Hr.
Qed.
Lemma alive_main m go s : alive s → (∀ r, m ≠ mn_done r) → alive (set_main m go s).
Proof.
  intros I Hm. split; simpl; try apply I; [|intros r Hr; by destruct (Hm r)]. intros [Hg _]%orb_false_iff. exact (al_before _ I Hg).
Qed.
Lemma dead_main m go s : dead s → dead (set_main m go s).
Proof. intros I. split; simpl; apply I. Qed.
Lemma main_create_ok f s s' : HI s → main_create f s = Some s' → HI s' ∧ (hs_weight s' < hs_weight s)%nat.
Proof.
  intros [Hm Hs] H. unfold main_create in H. destruct (h_main s) eqn:E; try done. injection H as <-.
  pose proof Hm as [Hm' H0]. rewrite E in Hm'. destruct Hm' as [Hw Hg]. destruct f as [e|].
  - destruct (fail_dead s Hm Hs) as [Hd Hwt]; [by left|]. split; [split; [split; simpl; [|done]|right; by apply dead_main]|].
    + by rewrite Hg.
    + unfold hs_weight. simpl. rewrite Hwt, E. simpl. lia.
  - split; [split; [split; simpl; [|done]|]|unfold hs_weight; simpl; rewrite E, Hw; simpl; lia].
    + by rewrite Hg.
    + destruct Hs as [I|I]; [left|right; apply (dead_phase true wk_new (set_main (mn_ready false) false s)); [by apply dead_main|done]].
      apply (alive_phase true wk_new (set_main (mn_ready false) false s)); [by apply alive_main|by simpl; rewrite Hw|done|done].
Qed.
Lemma main_step_ok s s' : HI s → main_step s = Some s' → HI s' ∧ (hs_weight s' < hs_weight s)%nat.
Proof.
  intros [Hm Hs] H. unfold main_step in H. destruct Hm as [Hm H0]. destruct (h_main s) as [|i| |e|] eqn:E; try done.
  - destruct (is_ready (phase i s)) eqn:Hsig; [|done]. destruct Hm as (H1&Hg&H2). destruct i; injection H as <-.
    + split; [split; [split; simpl; [by rewrite orb_true_r, H2|done]|]|unfold hs_weight; simpl; rewrite E; simpl; lia].
      destruct Hs; [left; by apply alive_main|right; by apply dead_main].
    + split; [split; [split; simpl; [by rewrite Hg|done]|]|unfold hs_weight; simpl; rewrite E; simpl; lia].
      destruct Hs; [left; by apply alive_main|right; by apply dead_main].
  - destruct (h_w0 s) as [| | | |e0] eqn:E0; try done. destruct (h_w1 s) as [| | | |e1] eqn:E1; try done. injection H as <-.
    set (r := match e0 with None => e1 | _ => e0 end). split; [|unfold hs_weight; simpl; rewrite E; simpl; lia].
    destruct Hs as [I|I].
    + pose proof (al_ended _ I false) as Ha. pose proof (al_ended _ I true) as Hb. simpl in Ha, Hb. rewrite E0 in Ha. rewrite E1 in Hb.
      destruct Ha as [-> _], Hb as [-> _]. split; [split; simpl; [|by rewrite E0]; by rewrite (al_failed _ I)|left]. split; simpl; try apply I.
      * intros [Hg _]%orb_false_iff. exact (al_before _ I Hg).
      * intros ? _ []; done.
    + assert (e0 ≠ None) as Hne by (intros ->; by apply (de_ended _ I false)). split; [split; simpl; [|by rewrite E0]|right; by apply dead_main].
      rewrite (de_failed _ I). subst r. by destruct e0.
  - destruct (h_w0 s) as [| | | |e0] eqn:E0; try done. injection H as <-. destruct Hm as (Hg&Hw&Hf).
    split; [|unfold hs_weight; simpl; rewrite E; simpl; lia].
    split; [split; simpl; [by rewrite Hf|by rewrite E0]|]. right. destruct Hs as [I|I]; [by rewrite (al_failed _ I) in Hf|by apply dead_main].
Qed.
Lemma measure_step_ok s s' : HI s → measure_step s s' → HI s' ∧ (hs_weight s' < hs_weight s)%nat.
Proof.
  intros I [H|[[f H]|[i [[f H]|[H|[H|H]]]]]]; [by eapply main_step_ok|by eapply main_create_ok|by eapply worker_start_ok|by eapply worker_go_ok|by eapply worker_run_ok|by eapply worker_end_ok].
Qed.

(** ** No schedule gets stuck *)
Lemma can_worker i s s' : ((∃ f, worker_start i f s = Some s') ∨ worker_go i s = Some s' ∨ worker_run i s = Some s' ∨ worker_end i s = Some s') → ∃ s', measure_step s s'.
Proof. intros H. exists s'. right. right. by exists i. Qed.
(** A thread that is not in [loop.run()] can go on once the start is signalled. *)
Lemma can_start i s : phase i s = wk_new ∨ phase i s = wk_wait ∧ h_go s = true → ∃ s', measure_step s s'.
Proof.
  intros [H|[H Hg]]; eapply (can_worker i).
  - left. exists None. unfold worker_start. by rewrite H.
  - right. left. unfold worker_go. by rewrite H, Hg.
Qed.
Lemma can_end i s r : phase i s = wk_run → root_result i (h_cl s) = Some r → ∃ s', measure_step s s'.
Proof. intros H Hr. destruct r as [e|]; eapply (can_worker i); right; right; right; unfold worker_end; by rewrite H, Hr. Qed.
Lemma can_run i s c : phase i s = wk_run →
  (if i then cl_consume false (stream_use "mailbox") (stream_end "mailbox" count) 0 (h_cl s) else cl_produce (h_cl s)) = Some c → ∃ s', measure_step s s'.
Proof. intros H Hr. eapply (can_worker i). right. right. left. unfold worker_run. rewrite H. destruct i; by rewrite Hr. Qed.
(** Over the closed box each thread can end by itself. *)
Lemma can_dead i s : dead s → phase i s = wk_run → ∃ s', measure_step s s'.
Proof.
  intros I Hp. destruct i.
  - destruct (de_cons _ I) as (c&Hc&Hx). destruct c as [| |[]| | |e]; try done.
    + assert (is_Some (cl_consume false (stream_use "mailbox") (stream_end "mailbox" count) 0 (h_cl s))) as [d Hd].
      { unfold cl_consume. rewrite Hc. simpl. by destruct (fifo_recv _ _ _) as [[]]. }
      by eapply (can_run true).
    + eapply (can_run true); [done|]. unfold cl_consume. by rewrite Hc.
    + eapply (can_end true); [done|]. simpl. by rewrite Hc.
  - destruct (de_prod _ I) as [E|E]; [|eapply (can_end false); [done|]; simpl; by rewrite E].
    assert (is_Some (cl_produce (h_cl s))) as [d Hd]; [|by eapply (can_run false)].
    unfold cl_produce. rewrite E, values_cons. destruct (fifo_send _ _ _ _) as [[]]. rewrite (proj1 (de_chan _ I)). by eexists.
Qed.
Lemma can_alive s : alive s → h_go s = true → (∀ i, phase i s = wk_run ∨ phase i s = wk_end None) → (∃ i, phase i s = wk_run) → ∃ s', measure_step s s'.
Proof.
  intros I Hg Hp [i Hi]. pose proof (al_inv _ I) as Hinv.
  assert (∀ j, root_result j (h_cl s) = Some None → phase j s = wk_run → ∃ s', measure_step s s') as Hend by (intros j H1 H2; by eapply (can_end j)).
  destruct (progress false (stream_use "mailbox") (stream_end "mailbox" count) _ _ _ _ _ Hinv ltac:(lia)) as [[c Hc]|[He1 He2]].
  - destruct Hc as [Hc|[j Hc]].
    + destruct (Hp false) as [Hf|Hf]; [by eapply (can_run false)|]. exfalso. pose proof (al_ended _ I false) as Ha. rewrite Hf in Ha. destruct Ha as [_ Ha]. simpl in Ha.
      unfold cl_produce in Hc. by destruct (cl_prod (h_cl s)).
    + assert (j = 0%nat) as ->.
      { pose proof (ci_len _ _ _ _ _ _ Hinv) as Hl. unfold cl_consume in Hc. destruct j; [done|]. rewrite lookup_ge_None_2 in Hc by lia. done. }
      destruct (Hp true) as [Hf|Hf]; [by eapply (can_run true)|]. exfalso. pose proof (al_ended _ I true) as Ha. rewrite Hf in Ha. destruct Ha as [_ Ha]. simpl in Ha.
      unfold cl_consume in Hc. destruct (cl_cons (h_cl s)) as [|x xs]; [done|]. simpl in Hc. by destruct x as [| |[]| | |].
  - apply (Hend i); [|done]. destruct i; simpl.
    + pose proof (ci_len _ _ _ _ _ _ Hinv) as Hl. destruct (cl_cons (h_cl s)) as [|x xs]; [done|]. apply Forall_cons in He2 as [-> _]. done.
    + by rewrite He1.
Qed.
Lemma measure_progress s : HI s → (∃ s', measure_step s s') ∨ ∃ r, h_main s = mn_done r.
Proof.
  intros [Hm Hs]. destruct Hm as [Hm H0]. destruct (h_main s) as [|i| |e|r] eqn:E; [left..|by right; exists r].
  - eexists. right. left. exists None. unfold main_create. by rewrite E.
  - destruct (is_ready (phase i s)) eqn:Hsig; [eexists; left; unfold main_step; by rewrite E, Hsig|].
    apply (can_start i). left. destruct Hm as (H1&_). destruct i; simpl in *; [by destruct (h_w1 s)|by destruct (h_w0 s)].
  - destruct Hm as (Hg&S0&S1).
    assert (∀ i, phase i s = wk_wait ∨ phase i s = wk_run ∨ ∃ e, phase i s = wk_end e) as Hp.
    { intros []; simpl; [destruct (h_w1 s)|destruct (h_w0 s)]; try done; eauto. }
    destruct (Hp false) as [H|H]; [by apply (can_start false); right|]. destruct (Hp true) as [H'|H']; [by apply (can_start true); right|].
    destruct H as [H|[e0 H]]; [|destruct H' as [H'|[e1 H']]].
    + destruct Hs as [I|I]; [|by apply (can_dead false)]. apply can_alive; [done|done| |by exists false]. intros j. pose proof (al_ended _ I j) as Ha.
      destruct j; [|by left]. destruct H' as [?|[e1 He]]; [by left|]. rewrite He in *. right. by destruct Ha as [-> _].
    + destruct Hs as [I|I]; [|by apply (can_dead true)]. apply can_alive; [done|done| |by exists true]. intros j. pose proof (al_ended _ I j) as Ha.
      destruct j; [by left|]. rewrite H in *. right. by destruct Ha as [-> _].
    + simpl in H, H'. eexists. left. unfold main_step. by rewrite E, H, H'.
  - destruct Hm as (Hg&Hw&Hf). destruct Hs as [I|I]; [by rewrite (al_failed _ I) in Hf|].
    destruct (h_w0 s) as [| | | |e0] eqn:Hw0; [done|apply (can_start false); by left|apply (can_start false); by right|by apply (can_dead false)|].
    eexists. left. unfold main_step. by rewrite E, Hw0.
Qed.
End measure.

(** C21: the mailbox benchmark ends whatever fails.  For every count and capacity and every
    interleaving of the three threads, in which constructing a loop or the second thread may
    fail at any point, [measure] returns or throws after a bounded number of steps; it throws
    exactly if a construction failed, and otherwise all values were received in order. *)
Theorem measure_ends count capacity : 1 ≤ count < 2 ^ 32 →
  (∀ n s, nsteps (measure_step count) n (measure_new count capacity) s → (n ≤ 6 * Z.to_nat count + 15)%nat) ∧
  ∀ s, rtc (measure_step count) (measure_new count capacity) s →
    (∃ s', measure_step count s s') ∨
    ∃ r, h_main s = mn_done r ∧ (r = None ↔ h_failed s = false) ∧ (r = None → cl_acc (h_cl s) = count ∧ cl_out (h_cl s) = stream_values count).
Proof.
  intros Hc. split.
  - intros n s H. enough (n + hs_weight s ≤ hs_weight (measure_new count capacity))%nat as Hle.
    { assert (hs_weight (measure_new count capacity) = 6 * Z.to_nat count + 15)%nat as E; [|lia].
      unfold hs_weight, measure_new, cl_weight, bench_new, client_new. simpl. unfold stream_values. rewrite length_seqZ. simpl. lia. }
    generalize (HI_new count capacity). induction H as [s|n s1 s2 s3 Hs H IH]; intros I; [lia|].
    destruct (measure_step_ok count capacity Hc _ _ I Hs) as [I2 Hlt]. specialize (IH I2). lia.
  - intros s H. assert (HI count capacity s) as I.
    { revert s H. apply rtc_ind_r; [by apply HI_new|]. intros s s' _ Hs I. by eapply measure_step_ok. }
    destruct (measure_progress count capacity Hc s I) as [|[r Hr]]; [by left|right]. exists r. split; [done|].
    destruct I as [[Hm _] Hs]. rewrite Hr in Hm. split; [done|]. intros ->. destruct Hs as [I|I]; [|rewrite (de_failed _ _ I) in Hm; naive_solver].
    pose proof (al_inv _ _ _ I) as Hi. assert (ended (h_cl s)) as He.
    { pose proof (al_ended _ _ _ I false) as Ha. pose proof (al_ended _ _ _ I true) as Hb. rewrite (al_done _ _ _ I None Hr) in Ha, Hb.
      destruct Ha as [_ Ha], Hb as [_ Hb]. simpl in Ha, Hb. split; [by destruct (cl_prod (h_cl s))|]. pose proof (ci_len _ _ _ _ _ _ Hi) as Hl.
      destruct (cl_cons (h_cl s)) as [|x [|]]; try done. apply Forall_singleton. by destruct x as [| |[]| | |]. }
    destruct (ended_complete _ _ _ _ _ _ Hi ltac:(lia) He) as [_ Ho]. specialize (Ho eq_refl). pose proof (ci_acc _ _ _ _ _ _ Hi) as Ha.
    rewrite Ho in Ha. unfold stream_values in Ha. rewrite stream_uses in Ha by lia. by injection Ha as <-.
Qed.
Lemma measure_ends_witness : (1 ≤ 2 < 2 ^ 32) ∧ ∀ s, rtc (measure_step 2) (measure_new 2 0) s →
  (∃ s', measure_step 2 s s') ∨ ∃ r, h_main s = mn_done r ∧ (r = None ↔ h_failed s = false).
Proof.
  split; [lia|]. intros s H. destruct (proj2 (measure_ends 2 0 ltac:(lia)) s H) as [?|(r&?&?&_)]; [by left|right; by exists r].
Defined.
