(* ===== verification/Bench.v ===== *)
(** * The command lines and the reporting of the benchmarks (bench/common.hpp and the
      [main] functions)

    [count] and the [std::from_chars] it uses, the arguments each benchmark accepts, the
    order statistics it prints and the checksum of the task benchmarks.  An argument vector
    is the list of the words after the program's name, so [argc] is one more than its
    length; a time in nanoseconds is an integer. *)
From S2P Require Import Prelude.
From stdpp Require Import pretty sorting.
From Stdlib Require Import Ascii.
Local Open Scope Z_scope.

(** ** [std::from_chars] on an unsigned, base ten *)
Definition uint_max : Z := 2 ^ 32 - 1.
Definition digit (c : ascii) : option Z :=
  let n := Z.of_N (N_of_ascii c) in if bool_decide (48 ≤ n ≤ 57) then Some (n - 48) else None.
(** The digits at the front of a string, and what follows them *)
Fixpoint digits (s : string) : list Z * string :=
  match s with
  | String c s' => match digit c with Some d => let '(ds, rest) := digits s' in (d :: ds, rest) | None => ([], s) end
  | EmptyString => ([], s)
  end.
Definition decimal (acc : Z) (ds : list Z) : Z := fold_left (λ a d, 10 * a + d) ds acc.
(** Where the parse ended, its error, and the value, which an error leaves alone *)
Definition from_chars (text : string) (value : Z) : string * bool * Z :=
  match digits text with
  | ([], _) => (text, true, value)
  | (ds, rest) => if bool_decide (decimal 0 ds ≤ uint_max) then (rest, false, decimal 0 ds) else (rest, true, value)
  end.
Definition count (text : string) (max : Z) : exn + Z :=
  let '(rest, error, value) := from_chars text 0 in
  if (error || bool_decide (rest ≠ EmptyString) || bool_decide (value = 0) || bool_decide (max < value))%bool
  then inl (invalid_argument "count is zero, invalid, or too large") else inr value.
Definition default_max : Z := 100000000.

(** ** Command lines *)
(** [argc > n ? bench::count(argv[n], max) : def] *)
Definition count_arg (argv : list string) (n : nat) (max def : Z) : exn + Z :=
  match argv !! pred n with Some a => count a max | None => inr def end.
Definition bind {A B} (x : exn + A) (f : A → exn + B) : exn + B := match x with inl e => inl e | inr a => f a end.
Definition guard {A} (bad : bool) (e : string) (x : exn + A) : exn + A := if bad then inl (invalid_argument e) else x.
(** [for (x : xs) f(x);], where [f] may throw *)
Fixpoint each {A S} (f : A → S → exn + S) (xs : list A) (s : S) : exn + S :=
  match xs with [] => inr s | x :: xs' => bind (f x s) (each f xs') end.
Definition one_of (mode : string) (modes : list string) : bool := bool_decide (mode ∈ modes).

Definition channel_args (argv : list string) : exn + Z * Z :=
  guard (bool_decide (2 < length argv)%nat) "usage: snowy_channel [messages] [capacity]"
    (bind (count_arg argv 1 default_max 1000000) (λ c, bind (count_arg argv 2 default_max 1024) (λ k, inr (c, k)))).
(** A mailbox may have no slots at all *)
Definition mailbox_args (argv : list string) : exn + Z * Z :=
  guard (bool_decide (2 < length argv)%nat) "usage: snowy_mailbox [messages] [capacity]"
    (bind (count_arg argv 1 default_max 100000) (λ c,
     bind (if bool_decide (argv !! 1%nat = Some "0"%string) then inr 0 else count_arg argv 2 default_max 1024) (λ k, inr (c, k)))).
Definition tcp_args (argv : list string) : exn + Z * Z :=
  guard (bool_decide (2 < length argv)%nat) "usage: snowy_tcp [roundtrips] [bytes]"
    (bind (count_arg argv 1 1000000 10000) (λ c, bind (count_arg argv 2 65536 128) (λ b, inr (c, b)))).
Definition uring_args (argv : list string) : exn + Z * Z :=
  guard (bool_decide (2 < length argv)%nat) "usage: snowy_uring [count-per-lane] [depth:1..128]"
    (bind (count_arg argv 1 default_max 100000) (λ c, bind (count_arg argv 2 128 32) (λ d, inr (c, d)))).
Definition rx_args (argv : list string) : exn + string * Z * Z :=
  guard (bool_decide (3 < length argv)%nat) "usage: snowy_rx [single|multi|bundle] [blocks] [bytes]"
    (let mode := default "single"%string (argv !! 0%nat) in
     guard (negb (one_of mode ["single"; "multi"; "bundle"]%string)) "unknown receive mode"
       (bind (count_arg argv 2 default_max 10000) (λ c, bind (count_arg argv 3 65536 2048) (λ b, inr (mode, c, b))))).
(** These two check after parsing *)
Definition runtime_args (argv : list string) : exn + string * Z :=
  let mode := default "schedule"%string (argv !! 0%nat) in
  bind (count_arg argv 2 default_max 1000000) (λ c,
  guard (bool_decide (2 < length argv)%nat || negb (one_of mode ["task"; "pmr"; "schedule"; "spawn"]%string))
    "usage: snowy_runtime [task|pmr|schedule|spawn] [count]" (inr (mode, c))).
Definition compare_args (argv : list string) : exn + string * Z * Z :=
  let mode := default "task"%string (argv !! 0%nat) in
  bind (count_arg argv 2 default_max 1000000) (λ c, bind (count_arg argv 3 128 1) (λ d,
  guard (bool_decide (3 < length argv)%nat || negb (one_of mode ["task"; "schedule"; "nop"]%string) ||
         (bool_decide (mode = "task"%string) && bool_decide (d ≠ 1)))
    "usage: snowy_compare [task|schedule|nop] [count/lane] [depth]" (inr (mode, c, d)))).
Definition file_args (argv : list string) : exn + Z * Z * string * Z :=
  guard (bool_decide (length argv < 1)%nat || bool_decide (5 < length argv)%nat)
    "usage: snowy_file path [count/lane] [depth] [random|seq] [bytes]"
    (bind (count_arg argv 2 default_max 10000) (λ c, bind (count_arg argv 3 128 32) (λ d,
     let pattern := default "random"%string (argv !! 3%nat) in
     bind (count_arg argv 5 (16 * 1024 * 1024) 4096) (λ b,
     guard (negb (one_of pattern ["random"; "seq"]%string)) "unknown access pattern" (inr (c, d, pattern, b)))))).

(** The ring options the storage modes select *)
Inductive setup := plain | iopoll | sqpoll.
#[global] Instance setup_eq_dec : EqDecision setup.
Proof. solve_decision. Defined.
Record workload := Workload { w_path : string; w_count : Z; w_depth : Z; w_size : Z; w_direct : bool; w_fixed : bool; w_setup : setup }.
Definition storage_modes : list string := ["buffered"; "direct"; "fixed"; "fixed-direct"; "iopoll"; "sqpoll"]%string.
Definition storage_args (argv : list string) : exn + workload :=
  guard (bool_decide (length argv < 2)%nat || bool_decide (5 < length argv)%nat)
    "usage: snowy_storage buffered|direct|fixed|fixed-direct|iopoll|sqpoll path [count/lane] [depth] [bytes]"
    (let mode := default EmptyString (argv !! 0%nat) in
     bind (count_arg argv 3 default_max 10000) (λ c, bind (count_arg argv 4 128 32) (λ d, bind (count_arg argv 5 65536 4096) (λ b,
     guard (negb (one_of mode storage_modes)) "unknown storage mode"
       (let direct := one_of mode ["direct"; "fixed-direct"; "iopoll"; "sqpoll"]%string in
        let fixed := one_of mode ["fixed"; "fixed-direct"; "iopoll"; "sqpoll"]%string in
        guard (direct && bool_decide (b mod 4096 ≠ 0)) "direct mode requires 4096-byte multiples"
          (inr (Workload (default EmptyString (argv !! 1%nat)) c d b direct fixed
             (if bool_decide (mode = "iopoll"%string) then iopoll else if bool_decide (mode = "sqpoll"%string) then sqpoll else plain)))))))).

(** ** Reporting *)
(** Median, minimum and maximum of the sorted samples *)
Definition report (samples : list Z) : option (Z * Z * Z) :=
  let sorted := merge_sort Z.le samples in
  med ← sorted !! (length sorted / 2)%nat; lo ← head sorted; hi ← last sorted; Some (med, lo, hi).
(** The percentiles of bench/tcp.cpp, indices computed in [std::size_t] *)
Definition u64 (x : Z) : Z := x mod 2 ^ 64.
Definition p50_index (n : Z) : Z := u64 (n - 1) / 2.
Definition p99_index (n : Z) : Z := u64 (u64 (u64 (n * 99) + 99) / 100 - 1).
Definition tcp_report (samples : list Z) : option (Z * Z * Z) :=
  let sorted := merge_sort Z.le samples in let n := Z.of_nat (length sorted) in
  a ← sorted !! Z.to_nat (p50_index n); b ← sorted !! Z.to_nat (p99_index n); c ← last sorted; Some (a, b, c).

(** ** The checksum of the task benchmarks (runtime.cpp, compare.cpp) *)
(** [for (i = 0; i < count; ++i) sum += co_await value(i);] *)
Fixpoint tasks (n : nat) (i sum : Z) : Z := match n with O => sum | S n' => tasks n' (i + 1) (u64 (sum + i)) end.
Definition tasks_check (count sum : Z) : bool := bool_decide (sum = u64 (count * (count - 1)) / 2).

(** The batches of [spawn]: [while (base < count) { batch = min(64, count - base); ... }] *)
Fixpoint spawn_batches (fuel : nat) (base count : Z) : list Z :=
  match fuel with
  | O => []
  | S fuel' => if bool_decide (base < count) then let batch := Z.min 64 (count - base) in batch :: spawn_batches fuel' (base + batch) count else []
  end.

(** ** Lemmas *)
Lemma decimal_app acc ds es : decimal acc (ds ++ es) = decimal (decimal acc ds) es.
Proof. apply fold_left_app. Qed.
Lemma digit_range c d : digit c = Some d → 0 ≤ d ≤ 9.
Proof. unfold digit. case_bool_decide; intros; simplify_eq; lia. Qed.
Lemma digits_range s : Forall (λ d, 0 ≤ d ≤ 9) (digits s).1.
Proof.
  induction s as [|c s IH]; simpl; [constructor|]. destruct (digit c) as [d|] eqn:Hd; [|constructor].
  destruct (digits s). simpl in *. constructor; [by eapply digit_range|done].
Qed.
Lemma decimal_mono ds acc : Forall (λ d, 0 ≤ d ≤ 9) ds → 0 ≤ acc → acc ≤ decimal acc ds.
Proof.
  intros H. revert acc. unfold decimal. induction H as [|d ds Hd H IH]; intros acc Ha; simpl; [lia|].
  specialize (IH (10 * acc + d)). lia.
Qed.

(** Printing a number and reading it back. *)
Lemma digit_pretty d : (d < 10)%N → digit (pretty_N_char d) = Some (Z.of_N d).
Proof.
  intros H. assert (d = 0 ∨ d = 1 ∨ d = 2 ∨ d = 3 ∨ d = 4 ∨ d = 5 ∨ d = 6 ∨ d = 7 ∨ d = 8 ∨ d = 9)%N as Hd by lia.
  by repeat destruct Hd as [->|Hd]; [..|subst].
Qed.
Lemma digits_pretty_go x s :
  (digits (pretty_N_go x s)).2 = (digits s).2 ∧
  decimal 0 (digits (pretty_N_go x s)).1 = decimal (Z.of_N x) (digits s).1 ∧
  (x ≠ 0%N → (digits (pretty_N_go x s)).1 ≠ []) ∧ ((digits s).1 ≠ [] → (digits (pretty_N_go x s)).1 ≠ []).
Proof.
  revert s. induction (N.lt_wf_0 x) as [x _ IH]; intros s. destruct (decide (x = 0)%N) as [->|Hx]; [by rewrite pretty_N_go_0|].
  rewrite pretty_N_go_step by lia. assert (x `mod` 10 < 10)%N as Hm by (by apply N.mod_lt).
  destruct (IH (x `div` 10)%N ltac:(apply N.div_lt; lia) (String (pretty_N_char (x `mod` 10)) s)) as (E1&E2&_&E4).
  simpl in *. rewrite (digit_pretty _ Hm) in E1, E2, E4. destruct (digits s) as [ds rest]. simpl in *.
  split_and!; [done| |by intros; apply E4|by intros; apply E4].
  rewrite E2. unfold decimal. simpl. f_equal. pose proof (N.div_mod x 10). lia.
Qed.

Lemma digits_all s : (digits s).2 = EmptyString → Forall (λ c, is_Some (digit c)) (String.list_ascii_of_string s).
Proof.
  induction s as [|c s IH]; simpl; [constructor|]. destruct (digit c) as [d|] eqn:Hd; [|done].
  destruct (digits s). simpl in *. intros H. constructor; [by rewrite Hd|by apply IH].
Qed.
Lemma count_inr text max v : count text max = inr v →
  (digits text).2 = EmptyString ∧ decimal 0 (digits text).1 = v ∧ v ≤ uint_max ∧ 1 ≤ v ≤ max.
Proof.
  unfold count, from_chars. pose proof (digits_range text) as Hr. destruct (digits text) as [[|d ds] rest]; [done|]. cbn [fst snd] in *.
  pose proof (decimal_mono (d :: ds) 0 Hr ltac:(lia)) as H0. revert H0. generalize (decimal 0 (d :: ds)). intros w H0.
  repeat (case_bool_decide; cbn [orb]; try done). intros [= <-].
  split_and!; [by destruct (decide (rest = EmptyString))|done|done|lia..].
Qed.
Lemma count_arg_inr argv n max def v : 1 ≤ def ≤ max → count_arg argv n max def = inr v → 1 ≤ v ≤ max.
Proof. unfold count_arg. destruct (argv !! pred n); intros ? H; [by apply count_inr in H as (_&_&_&?)|by injection H as <-]. Qed.
Lemma bind_inr {A B} (x : exn + A) (f : A → exn + B) b : bind x f = inr b → ∃ a, x = inr a ∧ f a = inr b.
Proof. destruct x; [done|]. eauto. Qed.
Lemma guard_inr {A} bad e (x : exn + A) a : guard bad e x = inr a → bad = false ∧ x = inr a.
Proof. by destruct bad. Qed.

(** What the storage benchmark accepts. *)
Lemma storage_args_ok argv w : storage_args argv = inr w →
  1 ≤ w_count w ≤ default_max ∧ 1 ≤ w_depth w ≤ 128 ∧ 1 ≤ w_size w ≤ 65536 ∧
  (w_direct w = true → w_size w mod 4096 = 0) ∧ (w_setup w ≠ plain → w_direct w = true ∧ w_fixed w = true).
Proof.
  intros (_&(c&Hc&(d&Hd&(b&Hb&(Hm&(Hx&H)%guard_inr)%guard_inr)%bind_inr)%bind_inr)%bind_inr)%guard_inr.
  injection H as <-. cbn [w_count w_depth w_size w_direct w_fixed w_setup].
  apply count_arg_inr in Hc; [|unfold default_max; lia]. apply count_arg_inr in Hd; [|lia]. apply count_arg_inr in Hb; [|lia].
  split_and!; try lia.
  - intros Hdir. rewrite Hdir in Hx. simpl in Hx. apply bool_decide_eq_false in Hx. by destruct (decide (b mod 4096 = 0)).
  - clear Hx Hm. case_bool_decide as E; [intros _; by rewrite E|]. case_bool_decide as E'; [intros _; by rewrite E'|]. done.
Qed.

(** Sorted samples. *)
Lemma sorted_lookup (l : list Z) i j x y : StronglySorted Z.le l → l !! i = Some x → l !! j = Some y → (i ≤ j)%nat → x ≤ y.
Proof.
  intros H. revert i j. induction H as [|z l Hl IH Hz]; intros i j Hi Hj Hij; [done|].
  destruct i, j; simplify_eq/=; [lia| |lia|]; [|eapply IH; eauto; lia].
  rewrite Forall_forall in Hz. apply Hz. by eapply list_elem_of_lookup_2.
Qed.
Lemma filter_all (P : Z → Prop) `{!∀ x, Decision (P x)} l : Forall P l → filter P l = l.
Proof. induction 1 as [|x l Hx _ IH]; [done|]. by rewrite filter_cons_True, IH. Qed.
Lemma sorted_samples (l : list Z) : StronglySorted Z.le (merge_sort Z.le l) ∧ merge_sort Z.le l ≡ₚ l.
Proof. split; [apply StronglySorted_merge_sort; apply _|apply merge_sort_Permutation]. Qed.

(** ** Theorems *)
(** [count] reads back what is printed: the decimal form of a number from 1 to the
    limit gives that number, and whatever text is accepted consists of digits only and
    gives a number between 1 and the limit which an [unsigned] holds. *)
Theorem count_roundtrip max :
  (∀ v, 1 ≤ v ≤ max → v ≤ uint_max → count (pretty (Z.to_N v)) max = inr v) ∧
  ∀ text v, count text max = inr v →
    1 ≤ v ≤ max ∧ v ≤ uint_max ∧ Forall (λ c, is_Some (digit c)) (String.list_ascii_of_string text).
Proof.
  split.
  - intros v Hv Hu. unfold pretty, pretty_N. rewrite decide_False by lia. unfold count, from_chars.
    destruct (digits_pretty_go (Z.to_N v) EmptyString) as (E1&E2&E3&_). specialize (E3 ltac:(lia)).
    destruct (digits (pretty_N_go (Z.to_N v) EmptyString)) as [[|d ds] rest]; [done|]. simpl digits in *. cbn [fst snd] in *. subst rest.
    rewrite E2. unfold decimal. cbn [fold_left]. rewrite Z2N.id by lia. rewrite bool_decide_true by done.
    cbn [fst snd] in *. rewrite (bool_decide_false (EmptyString ≠ EmptyString)) by (by intros []). rewrite !bool_decide_false by lia. done.
  - intros text v (E1&_&E3&E4)%count_inr. split_and!; [lia..|done|by apply digits_all].
Qed.
Lemma count_roundtrip_witness : count (pretty 1024%N) default_max = inr 1024.
Proof. apply (proj1 (count_roundtrip default_max) 1024); unfold default_max, uint_max; lia. Defined.

(** The printed statistics: the smallest and the largest sample, and one with at least
    half of the samples on either side. *)
Lemma report_median (samples : list Z) : samples ≠ [] → ∃ m lo hi, report samples = Some (m, lo, hi) ∧
  (∀ x, x ∈ samples → lo ≤ x ≤ hi) ∧
  (length samples < 2 * length (filter (λ x, x ≤ m)%Z samples) ∧ length samples ≤ 2 * length (filter (λ x, m ≤ x)%Z samples))%nat.
Proof.
  intros Hne. destruct (sorted_samples samples) as [Hs Hp]. unfold report. set (l := merge_sort Z.le samples) in *.
  assert (length l = length samples) as Hl by (by rewrite Hp). assert (length samples ≠ 0%nat) as Hn by (by destruct samples).
  assert (length l / 2 < length l)%nat as Hmid by (apply Nat.div_lt; lia).
  destruct (lookup_lt_is_Some_2 l _ Hmid) as [m Hm]. destruct (lookup_lt_is_Some_2 l (pred (length l)) ltac:(lia)) as [hi Hhi].
  destruct (lookup_lt_is_Some_2 l 0 ltac:(lia)) as [lo Hlo]. rewrite Hm. rewrite last_lookup, Hhi. rewrite head_lookup, Hlo.
  exists m, lo, hi. split; [done|]. split.
  { intros x Hx. rewrite <- Hp in Hx. apply list_elem_of_lookup in Hx as [i Hi]. pose proof (lookup_lt_Some _ _ _ Hi).
    split; eapply sorted_lookup; eauto; lia. }
  set (k := (length l / 2)%nat) in *. rewrite <- Hl.
  assert (∀ P `{!∀ x, Decision (P x)}, P m → length (filter P samples) = (length (filter P (take k l)) + S (length (filter P (drop (S k) l))))%nat) as Hf.
  { intros P ? HP. rewrite <- Hp at 1. rewrite <- (take_drop_middle l k m Hm) at 1. by rewrite filter_app, filter_cons_True, length_app. }
  rewrite !Hf by lia. clear Hf.
  assert (filter (λ x, x ≤ m) (take k l) = take k l) as ->.
  { apply filter_all, Forall_lookup. intros i x [Hx Hik]%lookup_take_Some. eapply sorted_lookup; eauto. lia. }
  assert (filter (λ x, m ≤ x) (drop (S k) l) = drop (S k) l) as ->.
  { apply filter_all, Forall_lookup. intros i x Hx. rewrite lookup_drop in Hx. eapply sorted_lookup; eauto. lia. }
  rewrite length_take, length_drop. pose proof (Nat.div_mod_eq (length l) 2). pose proof (Nat.mod_upper_bound (length l) 2). fold k in H.
  simpl. lia.
Qed.

(** The printed percentiles exist, and the 99th is the nearest rank: the first sample with
    at least 99 of 100 samples up to it. *)
Lemma tcp_percentiles (samples : list Z) : let n := Z.of_nat (length samples) in 0 < n < 2 ^ 32 →
  is_Some (tcp_report samples) ∧ 99 * n ≤ 100 * (p99_index n + 1) < 99 * n + 100.
Proof.
  intros n Hn. destruct (sorted_samples samples) as [_ Hp%Permutation_length].
  assert (p50_index n = (n - 1) / 2) as E1 by (unfold p50_index, u64; by rewrite Z.mod_small by lia).
  pose proof (Z.div_mod (n * 99 + 99) 100 ltac:(lia)) as Hd. pose proof (Z.mod_pos_bound (n * 99 + 99) 100 ltac:(lia)) as Hm.
  assert (p99_index n = (n * 99 + 99) / 100 - 1) as E2.
  { unfold p99_index, u64. rewrite (Z.mod_small (n * 99)) by lia. rewrite (Z.mod_small (n * 99 + 99)) by lia. rewrite Z.mod_small; lia. }
  rewrite E2. split; [|lia]. unfold tcp_report. rewrite Hp. fold n. rewrite E1, E2. pose proof (Z.div_mod (n - 1) 2 ltac:(lia)) as Hd'.
  pose proof (Z.mod_pos_bound (n - 1) 2 ltac:(lia)). assert (∀ i, 0 ≤ i < n → is_Some (merge_sort Z.le samples !! Z.to_nat i)) as Hi.
  { intros i Hi. apply lookup_lt_is_Some_2. rewrite Hp. lia. }
  destruct (Hi ((n - 1) / 2) ltac:(lia)) as [a ->]. destruct (Hi ((n * 99 + 99) / 100 - 1) ltac:(lia)) as [b ->].
  rewrite last_lookup, Hp. destruct (Hi (n - 1) ltac:(lia)) as [c Hc]. replace (Nat.pred (length samples)) with (Z.to_nat (n - 1)) by lia.
  rewrite Hc. by eexists.
Qed.

(** The children of the task benchmarks return 0 to [count - 1]: the checksum test passes. *)
Lemma tasks_sum n i sum : 0 ≤ i → 0 ≤ sum → i + Z.of_nat n ≤ 2 ^ 32 → sum + Z.of_nat n * (2 * i + Z.of_nat n - 1) / 2 < 2 ^ 64 →
  tasks n i sum = sum + Z.of_nat n * (2 * i + Z.of_nat n - 1) / 2.
Proof.
  revert i sum. induction n as [|n IH]; intros i sum Hi Hs Hn Hb; [simpl; rewrite Z.div_0_l; lia|]. cbn [tasks].
  assert (Z.of_nat (S n) * (2 * i + Z.of_nat (S n) - 1) / 2 = i + Z.of_nat n * (2 * (i + 1) + Z.of_nat n - 1) / 2) as E.
  { replace (Z.of_nat (S n) * (2 * i + Z.of_nat (S n) - 1)) with (i * 2 + Z.of_nat n * (2 * (i + 1) + Z.of_nat n - 1)) by lia.
    by rewrite Z.div_add_l. }
  rewrite E in *. assert (0 ≤ Z.of_nat n * (2 * (i + 1) + Z.of_nat n - 1) / 2).
  { apply Z.div_pos; [|lia]. destruct n; [simpl; lia|]. nia. }
  unfold u64. rewrite Z.mod_small by lia. rewrite IH by lia. lia.
Qed.
Lemma tasks_check_passes count : 0 ≤ count < 2 ^ 32 → tasks_check count (tasks (Z.to_nat count) 0 0) = true.
Proof.
  intros Hc. assert (0 ≤ count * (count - 1) < 2 ^ 64) as Hb by (destruct (decide (count = 0)) as [->|]; [lia|nia]).
  pose proof (Z.div_mod (count * (count - 1)) 2 ltac:(lia)). pose proof (Z.mod_pos_bound (count * (count - 1)) 2 ltac:(lia)).
  unfold tasks_check, u64. rewrite Z.mod_small by lia. rewrite tasks_sum; rewrite ?Z2Nat.id by lia; replace (2 * 0 + count - 1) with (count - 1) by lia; try lia.
  apply bool_decide_true. lia.
Qed.

(** The spawn benchmark starts exactly [count] roots, at most 64 at a time. *)
Lemma spawn_batches_ok fuel base count : 0 ≤ base ≤ count → (Z.to_nat (count - base) ≤ fuel)%nat →
  foldr Z.add 0 (spawn_batches fuel base count) = count - base ∧ Forall (λ b, 1 ≤ b ≤ 64) (spawn_batches fuel base count).
Proof.
  revert base. induction fuel as [|fuel IH]; intros base Hb Hf; simpl; [split; [lia|constructor]|].
  case_bool_decide as Hlt; [|split; [simpl; lia|constructor]]. destruct (IH (base + Z.min 64 (count - base))) as [H1 H2]; [lia|lia|].
  simpl. split; [rewrite H1; lia|]. constructor; [lia|done].
Qed.
