(* ===== verification/Storage.v ===== *)
(** * The storage benchmarks (bench/storage.cpp, bench/file.cpp, bench/uring.cpp)

    The random offsets of a lane, the lanes as coroutines over the library, and the loop
    over liburing they are compared with.  A read answers a result and the first byte of
    its buffer; the answers are a parameter, and so are the order and the batches in which
    the kernel completes.  The two programs are shown to compute the same checksum. *)
From S2P Require Import Prelude Bench.
From stdpp Require Import relations.
Local Open Scope Z_scope.

(** ** Offsets *)
(** [seed ^= seed << 13; seed ^= seed >> 7; seed ^= seed << 17;] *)
Definition seed_next (seed : Z) : Z :=
  let seed := Z.lxor seed (u64 (Z.shiftl seed 13)) in
  let seed := Z.lxor seed (Z.shiftr seed 7) in
  Z.lxor seed (u64 (Z.shiftl seed 17)).
Definition offset (seed blocks size : Z) : Z * Z :=
  let seed := seed_next seed in (seed, u64 ((seed mod blocks) * size)).
(** The block a lane of bench/file.cpp reads next, given the seed after it has moved *)
Definition file_block (random : bool) (seed i depth lane blocks : Z) : Z :=
  (if random then seed else u64 (u64 (i * depth) + lane)) mod blocks.

(** examples/read.cpp: the loop over a file of [file_size] bytes; [given] is how many bytes a
    read at an offset gives of the up to 4096 that are there *)
Fixpoint read_file (given : Z → Z) (file_size : Z) (fuel : nat) (offset : Z) : option Z :=
  match fuel with
  | O => None
  | S fuel' =>
      if bool_decide (file_size ≤ offset) then Some offset
      else read_file given file_size fuel' (u64 (offset + Z.max 1 (Z.min (given offset) (Z.min 4096 (file_size - offset)))))
  end.

Section programs.
(** What the kernel answers to a read at an offset: the result and the first byte *)
Variables (rd : Z → Z * Z) (blocks size count entries : Z) (depth : nat).
Implicit Types l i j : nat.

(** ** The lanes *)
(** Where lane [l] reads in its round [i], given the seed after it has moved, and what it
    throws when the result is not the size of its buffer *)
Variables (place : nat → Z → Z → Z) (fail : Z → exn).
(** A lane waits for its read number [i], or has ended *)
Inductive lstate := l_wait (i seed pos : Z) | l_done | l_failed (e : exn).
Record lanes := Lanes { la_lanes : list lstate; la_sum : Z }.
Definition lane_next (l : nat) (i seed : Z) : lstate :=
  if bool_decide (i < count) then let seed := seed_next seed in l_wait i seed (place l i seed) else l_done.
Definition lane (l : nat) (s : lanes) : option lanes :=
  match la_lanes s !! l with
  | Some (l_wait i seed pos) =>
      let '(res, byte) := rd pos in
      if bool_decide (res ≠ size) then Some (Lanes (<[l := l_failed (fail res)]> (la_lanes s)) (la_sum s))
      else Some (Lanes (<[l := lane_next l (i + 1) seed]> (la_lanes s)) (u64 (la_sum s + byte)))
  | _ => None
  end.
Definition lane_step : relation lanes := λ s s', ∃ l, lane l s = Some s'.
(** [for (i < depth) loop.spawn(lane(..., i, ...))], each run up to its first read *)
Definition lanes_new : lanes := Lanes ((λ l, lane_next l 0 (Z.of_nat l + 1)) <$> seq 0 depth) 0.

(** ** The loop over liburing *)
(** A read of a lane: in the submission queue, or with the kernel *)
Inductive flight := queued (pos : Z) | sent (pos : Z).
Record raw := Raw { r_done : list Z; r_seeds : list Z; r_flight : list (option flight); r_left : Z; r_sum : Z; r_error : option errc }.
Definition is_queued (f : option flight) : nat := match f with Some (queued _) => 1 | _ => 0 end.
Definition in_flight (f : option flight) : nat := match f with Some _ => 1 | None => 0 end.
Definition pos_of (f : flight) : Z := match f with queued pos | sent pos => pos end.

(** [submit(i)]: the entry carries [i + 1] as its data.  Registered files and buffers choose
    another request for the same read; [rd] answers for either *)
Definition raw_submit (i : nat) (s : raw) : exn + raw :=
  if bool_decide (entries ≤ Z.of_nat (sum_list_with is_queued (r_flight s))) then inl (runtime_error "raw SQ full") else
  let '(seed, pos) := offset (r_seeds s !!! i) blocks size in
  inr (Raw (r_done s) (<[i := seed]> (r_seeds s)) (<[i := Some (queued pos)]> (r_flight s)) (r_left s) (r_sum s) (r_error s)).
(** One completion of the batch, of the lane [i], after its data has been decoded *)
Definition raw_complete (i : nat) (s : raw) : exn + raw :=
  let pos := match r_flight s !! i with Some (Some f) => pos_of f | _ => 0 end in
  let '(res, byte) := rd pos in
  let error := if bool_decide (res ≠ size) then Some (if bool_decide (res < 0) then native_error (- res) else io_error) else r_error s in
  let sum := if bool_decide (res ≠ size) then r_sum s else u64 (r_sum s + byte) in
  let done := (r_done s !!! i + 1) mod 2 ^ 32 in
  let s := Raw (<[i := done]> (r_done s)) (r_seeds s) (<[i := None]> (r_flight s)) (r_left s - 1) sum error in
  if bool_decide (done ≠ count ∧ error = None) then
    match raw_submit i s with inl e => inl e | inr s => inr (Raw (r_done s) (r_seeds s) (r_flight s) (r_left s + 1) (r_sum s) (r_error s)) end
  else inr s.
Definition raw_cqe (id : Z) (s : raw) : exn + raw :=
  if bool_decide (id = 0) then inl (runtime_error "unexpected raw wake CQE") else raw_complete (Z.to_nat ((id - 1) mod 2 ^ 32)) s.
(** What [io_uring_submit_and_wait] hands to the kernel, of the lanes in the queue *)
Definition raw_send (taken : nat → bool) (s : raw) : raw :=
  Raw (r_done s) (r_seeds s) (imap (λ i f, match f with Some (queued pos) => if taken i then Some (sent pos) else f | _ => f end) (r_flight s))
    (r_left s) (r_sum s) (r_error s).
Definition EINTR : Z := 4.
(** One round of [while (left)] *)
Definition raw_round (r : Z) (taken : nat → bool) (batch : list Z) (s : raw) : exn + raw :=
  if bool_decide (r < 0 ∧ r ≠ - EINTR) then inl (system_error (native_error (- r))) else each raw_cqe batch (raw_send taken s).
Definition raw_start : exn + raw :=
  each raw_submit (seq 0 depth)
    (Raw (replicate depth 0) ((λ l, Z.of_nat l + 1) <$> seq 0 depth) (replicate depth None) (Z.of_nat depth) 0 None).
(** A batch the kernel may deliver: the data of distinct reads it has *)
Definition data64 (i : nat) : Z := Z.of_nat i + 1.
Definition deliverable (taken : nat → bool) (batch : list Z) (s : raw) : Prop :=
  NoDup batch ∧ (length batch ≤ 128)%nat ∧
  ∀ id, id ∈ batch → ∃ i pos, id = data64 i ∧ r_flight (raw_send taken s) !! i = Some (Some (sent pos)).
Definition raw_step : relation raw := λ s s', r_left s ≠ 0 ∧
  ∃ r taken batch, deliverable taken batch s ∧ batch ≠ [] ∧ raw_round r taken batch s = inr s'.

(** ** What they compute *)
(** Where lane [l] reads in round [k] *)
Variable pos : nat → nat → Z.
Fixpoint partial (l k : nat) : Z := match k with O => 0 | S k' => partial l k' + (rd (pos l k')).2 end.
Fixpoint total (l : nat) (ks : list nat) : Z := match ks with [] => 0 | k :: ks' => partial l k + total (S l) ks' end.
(** Every lane's first bytes, summed in 64 bits *)
Definition checksum : Z := u64 (total 0 (replicate depth (Z.to_nat count))).
End programs.
Definition seed_at (l k : nat) : Z := Nat.iter k seed_next (Z.of_nat l + 1).
(** The lanes of bench/storage.cpp, of the library and of the reference, and of bench/file.cpp *)
Definition storage_place (blocks size : Z) (l : nat) (i seed : Z) : Z := u64 ((seed mod blocks) * size).
Definition file_place (random : bool) (depth blocks size : Z) (l : nat) (i seed : Z) : Z :=
  u64 (file_block random seed i depth (Z.of_nat l) blocks * size).
Definition read_failure (short : string) (res : Z) : exn :=
  if bool_decide (res < 0) then system_error (native_error (- res)) else runtime_error short.
Definition storage_failure : Z → exn := read_failure "short file read".
Definition file_failure : Z → exn := read_failure "short file read: file changed during benchmark".
Definition reference_failure (res : Z) : exn := runtime_error "Condy short file read".
Definition placed (place : nat → Z → Z → Z) (l k : nat) : Z := place l (Z.of_nat k) (seed_at l (S k)).
Definition pos_at (blocks size : Z) : nat → nat → Z := placed (storage_place blocks size).

(** ** Offsets stay inside the file *)
Lemma lxor_range x y : 0 ≤ x < 2 ^ 64 → 0 ≤ y < 2 ^ 64 → 0 ≤ Z.lxor x y < 2 ^ 64.
Proof.
  intros Hx Hy. assert (0 ≤ Z.lxor x y) as H0 by (apply Z.lxor_nonneg; lia). split; [done|].
  destruct (decide (Z.lxor x y = 0)) as [->|Hn]; [lia|]. apply Z.log2_lt_pow2; [lia|].
  eapply Z.le_lt_trans; [apply Z.log2_lxor; lia|]. apply Z.max_lub_lt; (destruct (decide (0 < x)), (decide (0 < y));
    first [apply Z.log2_lt_pow2; lia|rewrite Z.log2_nonpos by lia; lia]).
Qed.
Lemma u64_range x : 0 ≤ u64 x < 2 ^ 64.
Proof. apply Z.mod_pos_bound. lia. Qed.
(** A word that is its own shift is zero. *)
Lemma shiftl_fix x k : 0 ≤ x < 2 ^ 64 → 0 < k → Z.gcd (2 ^ 64) (2 ^ k - 1) = 1 → x = u64 (Z.shiftl x k) → x = 0.
Proof.
  intros Hx Hk Hg E. unfold u64 in E. rewrite Z.shiftl_mul_pow2 in E by lia.
  pose proof (Z.div_mod (x * 2 ^ k) (2 ^ 64) ltac:(lia)) as Hd. rewrite <- E in Hd.
  assert (2 ^ 64 | x) as [q Hq]; [|lia]. apply (Z.gauss _ (2 ^ k - 1)); [|done].
  exists (x * 2 ^ k / 2 ^ 64). lia.
Qed.
Lemma xor_shiftl x k : 0 < x < 2 ^ 64 → 0 < k → Z.gcd (2 ^ 64) (2 ^ k - 1) = 1 → 0 < Z.lxor x (u64 (Z.shiftl x k)) < 2 ^ 64.
Proof.
  intros Hx Hk Hg. pose proof (lxor_range x (u64 (Z.shiftl x k)) ltac:(lia) (u64_range _)).
  enough (Z.lxor x (u64 (Z.shiftl x k)) ≠ 0) by lia. intros E%Z.lxor_eq. apply shiftl_fix in E; lia.
Qed.
Lemma seed_next_range seed : 0 < seed < 2 ^ 64 → 0 < seed_next seed < 2 ^ 64.
Proof.
  intros H. unfold seed_next. apply (xor_shiftl seed 13) in H; [|done|done]. revert H. generalize (Z.lxor seed (u64 (Z.shiftl seed 13))). intros x H.
  apply xor_shiftl; [|done|done]. assert (Z.shiftr x 7 = x / 128) as E by (by rewrite Z.shiftr_div_pow2).
  pose proof (Z.div_lt x 128 ltac:(lia) ltac:(lia)). pose proof (Z.div_pos x 128 ltac:(lia) ltac:(lia)).
  pose proof (lxor_range x (Z.shiftr x 7) ltac:(lia) ltac:(lia)). enough (Z.lxor x (Z.shiftr x 7) ≠ 0) by lia. intros ?%Z.lxor_eq. lia.
Qed.
Lemma seed_at_range l k : (l < 128)%nat → 0 < seed_at l k < 2 ^ 64.
Proof. intros Hl. induction k as [|k IH]; [unfold seed_at; simpl; lia|]. by apply seed_next_range. Qed.
(** A block of the file, as an offset. *)
Lemma block_range x file_size size : 0 < size → size ≤ file_size < 2 ^ 64 →
  let blocks := file_size / size in 0 ≤ u64 ((x mod blocks) * size) ∧ u64 ((x mod blocks) * size) + size ≤ file_size ∧
  u64 ((x mod blocks) * size) = (x mod blocks) * size.
Proof.
  intros Hs Hf blocks. assert (0 < blocks) as Hb by (apply Z.div_str_pos; lia). pose proof (Z.mod_pos_bound x blocks Hb) as Hm.
  pose proof (Z.mul_div_le file_size size Hs) as Hd. fold blocks in Hd. assert (x mod blocks * size + size ≤ file_size) by nia.
  unfold u64. rewrite Z.mod_small by nia. nia.
Qed.

(** the offsets of the storage benchmarks: a lane's generator never reaches zero, from
    which it would not move, and every offset is that of a whole block inside the file, so
    a read of [size] bytes there is complete. *)
Theorem offset_in_file l k file_size size : (l < 128)%nat → 0 < size → size ≤ file_size < 2 ^ 64 →
  let '(seed, pos) := offset (seed_at l k) (file_size / size) size in
  seed = seed_at l (S k) ∧ 0 < seed < 2 ^ 64 ∧ 0 ≤ pos ∧ pos + size ≤ file_size ∧ pos mod size = 0.
Proof.
  intros Hl Hs Hf. unfold offset. destruct (block_range (seed_next (seed_at l k)) file_size size Hs Hf) as (H1&H2&H3).
  split_and!; [done|by apply (seed_at_range l (S k))..|done|done|]. rewrite H3. by apply Z.mod_mul; lia.
Qed.
Lemma offset_in_file_witness : let '(seed, pos) := offset (seed_at 0 0) (1000000 / 4096) 4096 in
  seed = seed_at 0 1 ∧ 0 < seed < 2 ^ 64 ∧ 0 ≤ pos ∧ pos + 4096 ≤ 1000000 ∧ pos mod 4096 = 0.
Proof. apply (offset_in_file 0 0 1000000 4096); lia. Defined.

(** examples/read.cpp counts the bytes of the file, however short the reads. *)
Lemma read_file_ok given file_size offset fuel : 0 ≤ offset ≤ file_size → file_size < 2 ^ 64 → (Z.to_nat (file_size - offset) < fuel)%nat →
  read_file given file_size fuel offset = Some file_size.
Proof.
  revert offset. induction fuel as [|fuel IH]; intros off Ho Hs Hf; [lia|]. simpl. case_bool_decide; [f_equal; lia|].
  unfold u64. rewrite Z.mod_small by lia. apply IH; lia.
Qed.
(** Sequential lanes read different blocks while there are enough of them. *)
Lemma sequential_distinct i i' lane lane' depth blocks seed seed' :
  0 ≤ lane < depth → 0 ≤ lane' < depth → 0 ≤ i → 0 ≤ i' → (i + 1) * depth ≤ blocks → (i' + 1) * depth ≤ blocks → blocks < 2 ^ 64 →
  file_block false seed i depth lane blocks = file_block false seed' i' depth lane' blocks → i = i' ∧ lane = lane'.
Proof.
  intros Hl Hl' Hi Hi' Hb Hb' HB. unfold file_block, u64. rewrite !(Z.mod_small (_ * _) (2 ^ 64)), !(Z.mod_small (_ + _) (2 ^ 64)), !Z.mod_small by nia.
  intros E. assert (i = i') by nia. subst. lia.
Qed.

(** ** Sums over the lanes *)
Lemma total_insert rd pos l ds i d : ds !! i = Some d →
  total rd pos l (<[i := S d]> ds) = total rd pos l ds + (rd (pos (l + i)%nat d)).2.
Proof.
  revert l i. induction ds as [|e ds IH]; intros l [|i] Hi; simplify_eq/=; [rewrite Nat.add_0_r; lia|].
  rewrite (IH (S l) i Hi). replace (l + S i)%nat with (S l + i)%nat by lia. lia.
Qed.
Lemma total_zero rd pos l n : total rd pos l (replicate n 0%nat) = 0.
Proof. revert l. induction n as [|n IH]; intros l; [done|]. simpl. apply IH. Qed.

(** ** The raw loop *)
Section raw_loop.
Context (rd : Z → Z * Z) (blocks size count entries : Z) (depth : nat).
Hypothesis count_range : 1 ≤ count < 2 ^ 32.
Hypothesis depth_fits : Z.of_nat depth ≤ entries ∧ Z.of_nat depth ≤ 2 ^ 32.
Notation raw_submit := (raw_submit blocks size entries).
Notation raw_complete := (raw_complete rd blocks size count entries).
Notation raw_step := (raw_step rd blocks size count entries).
Notation pos_at := (pos_at blocks size).
Notation total := (total rd pos_at).
Implicit Types (s : raw) (ds : list nat).

(** The lanes: how far each has come, and its read if it has one. *)
Definition lane_ok (f : option flight) (seed : Z) (error : option errc) (l d : nat) : Prop :=
  (Z.of_nat d ≤ count) ∧
  match f with
  | Some f => pos_of f = pos_at l d ∧ Z.of_nat d < count ∧ seed = seed_at l (S d)
  | None => error = None → Z.of_nat d = count
  end.
Record RI s ds : Prop := {
  ri_len : length ds = depth ∧ length (r_seeds s) = depth ∧ length (r_flight s) = depth;
  ri_done : r_done s = Z.of_nat <$> ds;
  ri_lanes : ∀ l d f seed, ds !! l = Some d → r_flight s !! l = Some f → r_seeds s !! l = Some seed → lane_ok f seed (r_error s) l d;
  ri_left : r_left s = Z.of_nat (sum_list_with in_flight (r_flight s));
  ri_sum : r_error s = None → r_sum s = u64 (total 0 ds) }.

(** There is a submission entry for a lane that has none. *)
Lemma queued_le (fs : list (option flight)) : (sum_list_with is_queued fs ≤ sum_list_with in_flight fs ≤ length fs)%nat.
Proof. induction fs as [|[[]|] fs IH]; simpl; lia. Qed.
Lemma room (fs : list (option flight)) i : fs !! i = Some None → length fs = depth → ¬ entries ≤ Z.of_nat (sum_list_with is_queued fs).
Proof.
  intros Hi Hl. pose proof (sum_insert in_flight fs i None (Some (queued 0)) Hi) as H. pose proof (queued_le fs).
  pose proof (queued_le (<[i := Some (queued 0)]> fs)) as Hq. rewrite length_insert in Hq. simpl in H. lia.
Qed.
Lemma raw_submit_ok i s : r_flight s !! i = Some None → length (r_flight s) = depth →
  raw_submit i s = inr (Raw (r_done s) (<[i := seed_next (r_seeds s !!! i)]> (r_seeds s))
    (<[i := Some (queued (u64 ((seed_next (r_seeds s !!! i) mod blocks) * size)))]> (r_flight s)) (r_left s) (r_sum s) (r_error s)).
Proof. intros Hi Hl. unfold raw_submit. rewrite bool_decide_false by (by eapply room). done. Qed.

Lemma raw_complete_ok i s ds f : RI s ds → r_flight s !! i = Some (Some f) → ∃ s' d, raw_complete i s = inr s' ∧
  ds !! i = Some d ∧ RI s' (<[i := S d]> ds) ∧ (∀ j, j ≠ i → r_flight s' !! j = r_flight s !! j) ∧ (Z.of_nat d < count) ∧
  (r_error s = None → (rd (pos_at i d)).1 = size → r_error s' = None).
Proof.
  intros I Hf. destruct (ri_len _ _ I) as (L1&L2&L3). pose proof (lookup_lt_Some _ _ _ Hf) as Hlt.
  destruct (lookup_lt_is_Some_2 ds i ltac:(lia)) as [d Hd]. destruct (lookup_lt_is_Some_2 (r_seeds s) i ltac:(lia)) as [seed Hs].
  destruct (ri_lanes _ _ I i d _ seed Hd Hf Hs) as (Hle&Hpos&Hdc&Hseed).
  unfold raw_complete. rewrite Hf, Hpos. pose proof (total_insert rd pos_at 0 ds i d Hd) as Ht. simpl in Ht.
  assert (r_done s !!! i = Z.of_nat d) as Hdone by (apply list_lookup_total_correct; rewrite (ri_done _ _ I), list_lookup_fmap, Hd; done).
  rewrite Hdone, Z.mod_small by lia. replace (Z.of_nat d + 1) with (Z.of_nat (S d)) by lia.
  destruct (rd (pos_at i d)) as [res byte] eqn:Hrd. simpl in Ht.
  set (error := if bool_decide (res ≠ size) then _ else _). set (sum := if bool_decide (res ≠ size) then _ else _).
  assert (error = None → sum = u64 (total 0 (<[i := S d]> ds)) ∧ r_error s = None) as Hsum.
  { subst error sum. case_bool_decide; [done|]. intros Hn. split; [|done]. rewrite (ri_sum _ _ I Hn), Ht. unfold u64. by rewrite Zplus_mod_idemp_l. }
  assert (∀ x, sum_list_with in_flight (<[i := x]> (r_flight s)) + 1 = sum_list_with in_flight (r_flight s) + in_flight x)%nat as Hsl
    by (intros x; by rewrite <- (sum_insert in_flight (r_flight s) i (Some f) x Hf)).
  assert (Z.of_nat <$> <[i := S d]> ds = <[i := Z.of_nat (S d)]> (r_done s)) as Hdn by (by rewrite (ri_done _ _ I), list_fmap_insert).
  assert (∀ g seed', lane_ok g seed' error i (S d) → ∀ l e fl sd, <[i := S d]> ds !! l = Some e → <[i := g]> (r_flight s) !! l = Some fl →
    <[i := seed']> (r_seeds s) !! l = Some sd → lane_ok fl sd error l e) as Hlanes.
  { intros g seed' Hg l e fl sd He Hfl Hsd. destruct (decide (l = i)) as [->|Hne].
    - rewrite list_lookup_insert_eq in He by lia. rewrite list_lookup_insert_eq in Hfl by lia. rewrite list_lookup_insert_eq in Hsd by lia. by simplify_eq.
    - rewrite list_lookup_insert_ne in He by done. rewrite list_lookup_insert_ne in Hfl by done. rewrite list_lookup_insert_ne in Hsd by done. destruct (ri_lanes _ _ I l e fl sd He Hfl Hsd) as [H1 H2].
      split; [done|]. destruct fl; [done|]. intros Hn. apply H2. by apply Hsum. }
  assert (r_error s = None → (rd (pos_at i d)).1 = size → error = None) as Herr by (subst error; rewrite Hrd; simpl; case_bool_decide; done).
  case_bool_decide as Hc.
  - destruct Hc as [Hc Hn]. rewrite raw_submit_ok; cbn [r_done r_seeds r_flight r_left r_sum r_error]; [|rewrite list_lookup_insert_eq by lia; done|by rewrite length_insert].
    rewrite list_insert_insert_eq. eexists _, d. split_and!; [done|done| | |done|exact Herr].
    + rewrite (list_lookup_total_correct _ _ _ Hs), Hseed. split; cbn [r_done r_seeds r_flight r_left r_sum r_error]; rewrite ?length_insert; try done.
      * apply Hlanes. split; [lia|]. split_and!; [done|lia|done].
      * pose proof (Hsl (Some (queued (u64 (seed_next (seed_at i (S d)) mod blocks * size))))) as E. cbn [in_flight] in E. rewrite (ri_left _ _ I). lia.
      * intros _. by apply Hsum.
    + intros j Hj. cbn [r_flight]. by rewrite list_lookup_insert_ne.
  - eexists _, d. split_and!; [done|done| | |done|exact Herr].
    + split; cbn [r_done r_seeds r_flight r_left r_sum r_error]; rewrite ?length_insert; try done.
      * rewrite <- (list_insert_id (r_seeds s) i seed) by done. apply Hlanes. split; [lia|]. intros Hn. destruct (decide (Z.of_nat (S d) = count)); [done|]. tauto.
      * pose proof (Hsl None) as E. simpl in E. rewrite (ri_left _ _ I). lia.
      * intros Hn. by apply Hsum.
    + intros j Hj. cbn [r_flight]. by rewrite list_lookup_insert_ne.
Qed.

(** The data of a lane is decoded to the lane. *)
Lemma raw_cqe_data i s : Z.of_nat i < 2 ^ 32 → raw_cqe rd blocks size count entries (data64 i) s = raw_complete i s.
Proof.
  intros Hi. unfold raw_cqe, data64. rewrite bool_decide_false by lia. replace (Z.of_nat i + 1 - 1) with (Z.of_nat i) by lia.
  by rewrite Z.mod_small, Nat2Z.id by lia.
Qed.
(** A batch: every lane of it moves on by one read. *)
Lemma raw_batch_ok batch s ds : RI s ds → NoDup batch → (∀ id, id ∈ batch → ∃ i f, id = data64 i ∧ r_flight s !! i = Some (Some f)) →
  ∃ s' ds', each (raw_cqe rd blocks size count entries) batch s = inr s' ∧ RI s' ds' ∧ (sum_list ds' = sum_list ds + length batch)%nat ∧
    ((∀ l k, (l < depth)%nat → Z.of_nat k < count → (rd (pos_at l k)).1 = size) → r_error s = None → r_error s' = None).
Proof.
  revert s ds. induction batch as [|id batch IH]; intros s ds I Hnd Hf; [exists s, ds; split_and!; [done|done|simpl; lia|done]|].
  apply NoDup_cons in Hnd as [Hi Hnd]. destruct (Hf id ltac:(by left)) as (i&f&->&Hfi).
  destruct (raw_complete_ok i s ds f I Hfi) as (s1&d&E&Hd&I1&Hs&Hlt&Herr).
  assert (Z.of_nat i < 2 ^ 32) as H32. { destruct (ri_len _ _ I) as (_&_&L3). apply lookup_lt_Some in Hfi. rewrite L3 in Hfi. lia. }
  cbn [each]. rewrite raw_cqe_data, E by done. cbn [bind].
  destruct (IH s1 _ I1 Hnd) as (s'&ds'&E'&I'&Hsum&Herr').
  { intros id Hid. destruct (Hf id ltac:(by right)) as (j&g&->&Hg). exists j, g. split; [done|]. by rewrite Hs by (by intros ->). }
  exists s', ds'. split_and!; [done|done| |].
  - pose proof (sum_insert id ds i d (S d) Hd) as Hsi. change (sum_list_with id) with sum_list in Hsi. simpl in Hsi. simpl. lia.
  - intros Hfull Hn. apply Herr'; [done|]. apply Herr; [done|]. apply Hfull; [|done].
    destruct (ri_len _ _ I) as (<-&_). by eapply lookup_lt_Some.
Qed.
Lemma raw_send_ok taken s ds : RI s ds → RI (raw_send taken s) ds.
Proof.
  intros I. destruct (ri_len _ _ I) as (L1&L2&L3).
  assert (∀ (g : nat → option flight → option flight) fs, (∀ i f, in_flight (g i f) = in_flight f) →
    sum_list_with in_flight (imap g fs) = sum_list_with in_flight fs) as Hsum.
  { intros g fs. revert g. induction fs as [|f fs IH]; intros g Hg; simpl; [done|]. rewrite Hg, IH; [done|]. intros. apply Hg. }
  split; cbn [raw_send r_done r_seeds r_flight r_left r_sum r_error].
  - by rewrite length_imap.
  - apply I.
  - intros l d f seed Hd Hf Hs. rewrite list_lookup_imap in Hf. destruct (r_flight s !! l) as [f0|] eqn:Hf0; simpl in Hf; [|done].
    injection Hf as <-. pose proof (ri_lanes _ _ I l d f0 seed Hd Hf0 Hs) as H. destruct f0 as [[pos|pos]|]; [destruct (taken l); exact H|exact H..].
  - rewrite Hsum; [apply I|]. intros i [[]|]; [by destruct (taken i)|done..].
  - apply I.
Qed.
Lemma raw_round_ok r taken batch s ds : RI s ds → deliverable taken batch s → ¬ (r < 0 ∧ r ≠ - EINTR) →
  ∃ s' ds', raw_round rd blocks size count entries r taken batch s = inr s' ∧ RI s' ds' ∧ (sum_list ds' = sum_list ds + length batch)%nat ∧
    ((∀ l k, (l < depth)%nat → Z.of_nat k < count → (rd (pos_at l k)).1 = size) → r_error s = None → r_error s' = None).
Proof.
  intros I (Hnd&_&Hb) Hr. unfold raw_round. rewrite bool_decide_false by done.
  destruct (raw_batch_ok batch (raw_send taken s) ds) as (s'&ds'&H); [by apply raw_send_ok|done| |eauto].
  intros id Hid. destruct (Hb id Hid) as (i&pos&->&Hi). eauto.
Qed.

(** The first submissions. *)
Lemma raw_submits ls s : NoDup ls → length (r_flight s) = depth → length (r_seeds s) = depth → (∀ i, i ∈ ls → r_flight s !! i = Some None) →
  ∃ seeds fs, each raw_submit ls s = inr (Raw (r_done s) seeds fs (r_left s) (r_sum s) (r_error s)) ∧ length seeds = depth ∧ length fs = depth ∧
  (∀ l, l ∉ ls → fs !! l = r_flight s !! l ∧ seeds !! l = r_seeds s !! l) ∧
  (∀ l sd, l ∈ ls → r_seeds s !! l = Some sd → seeds !! l = Some (seed_next sd) ∧ fs !! l = Some (Some (queued (u64 ((seed_next sd mod blocks) * size))))).
Proof.
  revert s. induction ls as [|i ls IH]; intros s Hnd L1 L2 Hf.
  { exists (r_seeds s), (r_flight s). split_and!; [by destruct s|done|done|done|]. by intros ? ? ?%not_elem_of_nil. }
  apply NoDup_cons in Hnd as [Hi Hnd]. simpl. pose proof (Hf i ltac:(by left)) as Hfi. rewrite raw_submit_ok by done. simpl.
  pose proof (lookup_lt_Some _ _ _ Hfi) as Hlt. destruct (lookup_lt_is_Some_2 (r_seeds s) i ltac:(lia)) as [sd Hsd].
  rewrite (list_lookup_total_correct _ _ _ Hsd). match goal with |- context [each _ ls ?s1] => destruct (IH s1) as (seeds&fs&E&L3&L4&H1&H2) end; [done|by cbn [r_flight]; rewrite length_insert|by cbn [r_seeds]; rewrite length_insert| |].
  { intros j Hj. cbn [r_flight]. rewrite list_lookup_insert_ne by (by intros ->). apply Hf. by right. }
  cbn [r_done r_seeds r_flight r_left r_sum r_error] in *. exists seeds, fs. split_and!; [done|done|done| |].
  - intros l [Hne Hl]%not_elem_of_cons. destruct (H1 l Hl) as [-> ->]. by rewrite !list_lookup_insert_ne by done.
  - intros l sd' [->|Hl]%elem_of_cons Hsd'; simplify_eq.
    + destruct (H1 i Hi) as [-> ->]. rewrite !list_lookup_insert_eq by lia. done.
    + apply H2; [done|]. by rewrite list_lookup_insert_ne by (by intros ->).
Qed.
Lemma all_in_flight (fs : list (option flight)) : (∀ l f, fs !! l = Some f → f ≠ None) → sum_list_with in_flight fs = length fs.
Proof.
  induction fs as [|f fs IH]; intros H; simpl; [done|]. rewrite IH by (intros l; apply (H (S l))). pose proof (H 0%nat f eq_refl). by destruct f.
Qed.
Lemma raw_start_ok : ∃ s, raw_start blocks size entries depth = inr s ∧ RI s (replicate depth 0%nat) ∧ r_error s = None.
Proof.
  unfold raw_start. set (s0 := Raw _ _ _ _ _ _).
  assert (∀ l, (l < depth)%nat → r_seeds s0 !! l = Some (seed_at l 0)) as Hseed.
  { intros l Hl. cbn [s0 r_seeds]. rewrite list_lookup_fmap, lookup_seq_lt by done. done. }
  destruct (raw_submits (seq 0 depth) s0) as (seeds&fs&E&L1&L2&_&H2).
  - apply NoDup_seq.
  - apply length_replicate.
  - cbn [s0 r_seeds]. by rewrite length_fmap, length_seq.
  - intros i Hi%elem_of_seq. by apply lookup_replicate_2; lia.
  - assert (∀ l, (l < depth)%nat → seeds !! l = Some (seed_at l 1) ∧ fs !! l = Some (Some (queued (pos_at l 0)))) as H3.
    { intros l Hl. apply (H2 l (seed_at l 0)); [by apply elem_of_seq; lia|by apply Hseed]. }
    rewrite E. eexists. split; [done|]. split; [|done]. split; cbn [s0 r_done r_seeds r_flight r_left r_sum r_error].
    + by rewrite length_replicate.
    + by rewrite fmap_replicate.
    + intros l d f sd [-> Hl]%lookup_replicate Hf Hsd. destruct (H3 l Hl). simplify_eq. split; [lia|]. split_and!; [done|lia|done].
    + rewrite all_in_flight; [by rewrite L2|]. intros l f Hf. pose proof (lookup_lt_Some _ _ _ Hf). destruct (H3 l ltac:(lia)). by simplify_eq.
    + intros _. by rewrite total_zero.
Qed.

(** What holds in every round: nothing is thrown but a failure of the wait itself, a lane
    is in flight while the loop waits, and at the end nothing is. *)
Definition raw_reached s : Prop := ∃ s0, raw_start blocks size entries depth = inr s0 ∧ rtc raw_step s0 s.
Lemma raw_step_ok s s' ds : RI s ds → raw_step s s' → ∃ ds', RI s' ds' ∧ (sum_list ds < sum_list ds')%nat ∧
    ((∀ l k, (l < depth)%nat → Z.of_nat k < count → (rd (pos_at l k)).1 = size) → r_error s = None → r_error s' = None).
Proof.
  intros I (_&r&taken&batch&Hd&Hne&E). destruct (decide (r < 0 ∧ r ≠ - EINTR)) as [Hr|Hr].
  { unfold raw_round in E. by rewrite bool_decide_true in E. }
  destruct (raw_round_ok r taken batch s ds I Hd Hr) as (s1&ds'&E1&I'&Hs&Herr). rewrite E1 in E. injection E as ->. exists ds'. split_and!; [exact I'| |exact Herr].
  destruct batch; [done|]. simpl in Hs. lia.
Qed.
Lemma raw_reached_ok s : raw_reached s → ∃ ds, RI s ds ∧ ((∀ l k, (l < depth)%nat → Z.of_nat k < count → (rd (pos_at l k)).1 = size) → r_error s = None).
Proof.
  intros (s0&E&H). destruct raw_start_ok as (s1&E1&I&Hn). rewrite E1 in E. injection E as ->. revert s H. apply rtc_ind_r; [by exists (replicate depth 0%nat)|].
  intros s s' _ Hstep (ds&Ids&Hds). destruct (raw_step_ok s s' ds Ids Hstep) as (ds'&I'&_&He). eauto.
Qed.
Lemma done_bound s ds : RI s ds → (sum_list ds ≤ Z.to_nat count * depth)%nat.
Proof.
  intros I. destruct (ri_len _ _ I) as (L1&L2&L3). assert (Forall (λ d, d ≤ Z.to_nat count)%nat ds) as H.
  { apply Forall_lookup. intros l d Hd. pose proof (lookup_lt_Some _ _ _ Hd). destruct (lookup_lt_is_Some_2 (r_seeds s) l ltac:(lia)) as [sd Hsd].
    destruct (lookup_lt_is_Some_2 (r_flight s) l ltac:(lia)) as [f Hf]. destruct (ri_lanes _ _ I l d f sd Hd Hf Hsd). lia. }
  rewrite <- L1. clear -H. induction H; simpl; lia.
Qed.
Lemma raw_steps n s : ∀ s0 ds0, RI s0 ds0 → nsteps raw_step n s0 s → (n + sum_list ds0 ≤ Z.to_nat count * depth)%nat.
Proof.
  intros s0 ds0 I H. revert ds0 I. induction H as [s|n s1 s2 s3 Hs H IH]; intros ds0 I; [by eapply done_bound|].
  destruct (raw_step_ok _ _ _ I Hs) as (ds'&I'&Hlt&_). specialize (IH _ I'). lia.
Qed.
Lemma none_in_flight (fs : list (option flight)) : sum_list_with in_flight fs = 0%nat → ∀ l f, fs !! l = Some f → f = None.
Proof. induction fs as [|g fs IH]; intros H [|l] f Hf; simplify_eq/=; [by destruct f|]. eapply IH; [lia|done]. Qed.
Lemma raw_end s ds : RI s ds → r_left s = 0 → (∀ l f, r_flight s !! l = Some f → f = None) ∧
  (r_error s = None → ds = replicate depth (Z.to_nat count)).
Proof.
  intros I Hl. destruct (ri_len _ _ I) as (L1&L2&L3). assert (∀ l f, r_flight s !! l = Some f → f = None) as Hf.
  { apply none_in_flight. rewrite (ri_left _ _ I) in Hl. lia. }
  split; [done|]. intros Hn. apply list_eq_same_length with depth; [by rewrite length_replicate|done|]. intros l d d' Hlt Hd [-> _]%lookup_replicate.
  destruct (lookup_lt_is_Some_2 (r_seeds s) l ltac:(lia)) as [sd Hsd]. destruct (lookup_lt_is_Some_2 (r_flight s) l ltac:(lia)) as [f Hfl].
  pose proof (ri_lanes _ _ I l d f sd Hd Hfl Hsd) as H. rewrite (Hf _ _ Hfl) in H. destruct H as [_ H]. specialize (H Hn). lia.
Qed.
Lemma raw_waiting s ds : RI s ds → r_left s ≠ 0 → ∃ l f, r_flight s !! l = Some (Some f).
Proof.
  intros I Hl. rewrite (ri_left _ _ I) in Hl.
  revert Hl. generalize (r_flight s). intros fs. induction fs as [|[f|] fs IH]; simpl; intros H; [done|by exists 0%nat, f|].
  destruct IH as (l&f&Hf); [lia|]. by exists (S l), f.
Qed.
Lemma raw_progress s ds : RI s ds → r_left s ≠ 0 → ∃ s', raw_step s s'.
Proof.
  intros I Hl. destruct (raw_waiting s ds I Hl) as (l&f&Hf). rewrite (ri_left _ _ I) in Hl.
  assert (deliverable (λ _, true) [data64 l] s) as Hd.
  { split_and!; [apply NoDup_singleton|simpl; lia|]. intros i ->%list_elem_of_singleton. exists l, (pos_of f). split; [done|].
    cbn [raw_send r_flight]. rewrite list_lookup_imap, Hf. by destruct f. }
  destruct (raw_round_ok 0 _ _ s ds I Hd ltac:(lia)) as (s'&ds'&E&_). exists s'. split; [rewrite (ri_left _ _ I); lia|]. by eexists 0, _, _.
Qed.

End raw_loop.

(** ** The lanes of the library *)
Section wrapped.
Context (rd : Z → Z * Z) (size count : Z) (depth : nat) (place : nat → Z → Z → Z) (fail : Z → exn).
Hypothesis count_range : 1 ≤ count < 2 ^ 32.
Notation pos_at := (placed place).
Notation total := (total rd pos_at).
Implicit Types (s : lanes) (ds : list nat).
Notation lane := (lane rd size count place fail).
Notation lane_step := (lane_step rd size count place fail).
Notation lane_next := (lane_next count place).
Definition fails (st : lstate) : nat := match st with l_failed _ => 1 | _ => 0 end.
Definition lstate_ok (st : lstate) (l d : nat) : Prop :=
  (Z.of_nat d ≤ count) ∧
  match st with
  | l_wait i seed pos => i = Z.of_nat d ∧ Z.of_nat d < count ∧ seed = seed_at l (S d) ∧ pos = pos_at l d
  | l_done => Z.of_nat d = count
  | l_failed _ => Z.of_nat d < count ∧ (rd (pos_at l d)).1 ≠ size
  end.
Record LI (s : lanes) ds : Prop := {
  li_len : length ds = depth ∧ length (la_lanes s) = depth;
  li_lanes : ∀ l d st, ds !! l = Some d → la_lanes s !! l = Some st → lstate_ok st l d;
  li_sum : la_sum s = u64 (total 0 ds) }.

Lemma lane_next_ok l d : Z.of_nat d ≤ count → lstate_ok (lane_next l (Z.of_nat d) (seed_at l d)) l d.
Proof. intros Hd. unfold lane_next. case_bool_decide; split; try done. lia. Qed.
Lemma lanes_new_ok : LI (lanes_new count depth place) (replicate depth 0%nat).
Proof.
  split; cbn [lanes_new la_lanes la_sum].
  - by rewrite length_replicate, length_fmap, length_seq.
  - intros l d st [-> Hl]%lookup_replicate Hst. rewrite list_lookup_fmap, lookup_seq_lt in Hst by done. injection Hst as <-. apply (lane_next_ok l 0). lia.
  - by rewrite total_zero.
Qed.
Lemma lane_step_ok (s s' : lanes) ds : LI s ds → lane_step s s' →
  ∃ ds', LI s' ds' ∧ (sum_list ds' + sum_list_with fails (la_lanes s') = S (sum_list ds + sum_list_with fails (la_lanes s)))%nat.
Proof.
  intros I [l E]. unfold lane in E. destruct (la_lanes s !! l) as [[i seed pos| |]|] eqn:Hl; try done.
  destruct (li_len _ _ I) as [L1 L2]. pose proof (lookup_lt_Some _ _ _ Hl). destruct (lookup_lt_is_Some_2 ds l ltac:(lia)) as [d Hd].
  destruct (li_lanes _ _ I l d _ Hd Hl) as (_&->&Hlt&->&->). destruct (rd (pos_at l d)) as [res byte] eqn:Hrd.
  pose proof (sum_insert fails _ _ _ (l_failed (fail res)) Hl) as Hf1. simpl in Hf1.
  assert (∀ e, res ≠ size → LI (Lanes (<[l := l_failed e]> (la_lanes s)) (la_sum s)) ds) as Hfail.
  { intros e Hr. split; cbn [la_lanes la_sum]; [by rewrite length_insert| |apply I]. intros k dk st Hdk Hst. destruct (decide (k = l)) as [->|Hne].
    - rewrite list_lookup_insert_eq in Hst by done. simplify_eq. split; [lia|]. split; [done|]. by rewrite Hrd.
    - rewrite list_lookup_insert_ne in Hst by done. by apply (li_lanes _ _ I). }
  case_bool_decide as Hs; injection E as <-; [exists ds|exists (<[l := S d]> ds)]; cbn [la_lanes].
  - split; [by apply Hfail|lia].
  - assert (res = size) as Hr by (by destruct (decide (res = size))). replace (Z.of_nat d + 1) with (Z.of_nat (S d)) by lia.
    pose proof (lane_next_ok l (S d) ltac:(lia)) as Hn. pose proof (total_insert rd pos_at 0 ds l d Hd) as Ht. simpl in Ht. rewrite Hrd in Ht. simpl in Ht. split.
    + split; cbn [la_lanes la_sum]; [by rewrite !length_insert| |rewrite Ht, (li_sum _ _ I); unfold u64; by rewrite Zplus_mod_idemp_l].
      intros k dk st Hdk Hst. destruct (decide (k = l)) as [->|Hne].
      * rewrite list_lookup_insert_eq in Hst by done. rewrite list_lookup_insert_eq in Hdk by lia. by simplify_eq.
      * rewrite list_lookup_insert_ne in Hst by done. rewrite list_lookup_insert_ne in Hdk by done. by apply (li_lanes _ _ I).
    + pose proof (sum_insert fails _ _ _ (lane_next l (Z.of_nat (S d)) (seed_at l (S d))) Hl) as Hf. cbn [fails] in Hf.
      assert (fails (lane_next l (Z.of_nat (S d)) (seed_at l (S d))) = 0%nat) as E by (unfold lane_next; by case_bool_decide).
      pose proof (sum_insert id ds l d (S d) Hd) as Hsi. change (sum_list_with id) with sum_list in Hsi. simpl in Hsi.
      change (seed_next (seed_at l d)) with (seed_at l (S d)). lia.
Qed.
Lemma lanes_reached (s : lanes) : rtc lane_step (lanes_new count depth place) s → ∃ ds, LI s ds.
Proof.
  revert s. apply rtc_ind_r; [eexists; apply lanes_new_ok|]. intros s s' _ Hs [ds I]. destruct (lane_step_ok s s' ds I Hs) as (ds'&I'&_). by exists ds'.
Qed.
Lemma pointwise_bound (sts : list lstate) ds c : length sts = length ds →
  (∀ l d st, ds !! l = Some d → sts !! l = Some st → d + fails st ≤ c)%nat → (sum_list ds + sum_list_with fails sts ≤ c * length ds)%nat.
Proof.
  revert sts. induction ds as [|d ds IH]; intros [|st sts] Hl H; try done; [simpl; lia|]. simpl.
  pose proof (H 0%nat d st eq_refl eq_refl). specialize (IH sts ltac:(simpl in Hl; lia) ltac:(intros k; apply (H (S k)))). lia.
Qed.
Lemma lanes_bound (s : lanes) ds : LI s ds → (sum_list ds + sum_list_with fails (la_lanes s) ≤ Z.to_nat count * depth)%nat.
Proof.
  intros I. destruct (li_len _ _ I) as [<- L2]. apply pointwise_bound; [done|]. intros l d st Hd Hst.
  destruct (li_lanes _ _ I l d st Hd Hst) as [Hle Hst']. destruct st; simpl; lia.
Qed.
Lemma lanes_steps n (s : lanes) : ∀ (s0 : lanes) ds0, LI s0 ds0 → nsteps lane_step n s0 s →
  (n + (sum_list ds0 + sum_list_with fails (la_lanes s0)) ≤ Z.to_nat count * depth)%nat.
Proof.
  intros s0 ds0 I H. revert ds0 I. induction H as [s|n s1 s2 s3 Hs H IH]; intros ds0 I; [by apply lanes_bound|].
  destruct (lane_step_ok _ _ _ I Hs) as (ds'&I'&Hlt). specialize (IH _ I'). lia.
Qed.
(** A lane that has not ended can go on; when all have, the sum is complete. *)
Lemma lanes_end (s : lanes) ds : LI s ds → (∀ l k, (l < depth)%nat → Z.of_nat k < count → (rd (pos_at l k)).1 = size) →
  (∃ s' : lanes, lane_step s s') ∨ Forall (λ st, st = l_done) (la_lanes s) ∧ la_sum s = checksum rd count depth pos_at.
Proof.
  intros I Hfull. destruct (li_len _ _ I) as [L1 L2].
  destruct (decide (Exists (λ st, match st with l_wait _ _ _ => true | _ => false end = true) (la_lanes s))) as [Hx|Hx].
  { left. apply Exists_exists in Hx as (st&[l Hl]%list_elem_of_lookup&Hst). destruct st as [i seed pos| |]; try done.
    assert (is_Some (lane l s)) as [s' Hs]; [|exists s'; by exists l]. unfold lane. rewrite Hl. destruct (rd pos). repeat case_bool_decide; by eexists. }
  right. assert (∀ l d st, ds !! l = Some d → la_lanes s !! l = Some st → st = l_done ∧ d = Z.to_nat count) as H.
  { intros l d st Hd Hst. destruct (li_lanes _ _ I l d st Hd Hst) as [_ H]. destruct st as [| |].
    - destruct Hx. apply Exists_exists. eexists. split; [by eapply list_elem_of_lookup_2|done].
    - split; [done|lia].
    - destruct H as [H1 H2]. destruct H2. apply Hfull; [|done]. rewrite <- L1. by eapply lookup_lt_Some. }
  split.
  - apply Forall_lookup. intros l st Hst. pose proof (lookup_lt_Some _ _ _ Hst). destruct (lookup_lt_is_Some_2 ds l ltac:(lia)) as [d Hd]. by eapply H.
  - rewrite (li_sum _ _ I). unfold checksum. do 2 f_equal. apply list_eq_same_length with depth; [by rewrite length_replicate|done|].
    intros l d d' Hlt Hd [-> _]%lookup_replicate. destruct (lookup_lt_is_Some_2 (la_lanes s) l ltac:(lia)) as [st Hst]. by eapply H.
Qed.
End wrapped.


(** C18: the two programs bench/storage.cpp compares compute the same checksum.  For every
    command line it accepts and every file of at least a block whose reads are complete,
    the raw loop under any order and batches of completions, and the lanes of the library
    (and of the reference runtime) under any interleaving, end after at most [count * depth] steps, without an error,
    with the 64-bit sum of the first bytes of the same blocks. *)
Theorem checksums_agree rd argv w file_size : storage_args argv = inr w → w_size w ≤ file_size < 2 ^ 64 →
  (∀ pos, 0 ≤ pos → pos + w_size w ≤ file_size → (rd pos).1 = w_size w) →
  let blocks := file_size / w_size w in let depth := Z.to_nat (w_depth w) in
  let sum := checksum rd (w_count w) depth (pos_at blocks (w_size w)) in
  ∃ s0, raw_start blocks (w_size w) 256 depth = inr s0 ∧
  (∀ n s, nsteps (raw_step rd blocks (w_size w) (w_count w) 256) n s0 s → Z.of_nat n ≤ w_count w * w_depth w) ∧
  (∀ s, rtc (raw_step rd blocks (w_size w) (w_count w) 256) s0 s →
    (∃ s', raw_step rd blocks (w_size w) (w_count w) 256 s s') ∨ r_left s = 0 ∧ r_error s = None ∧ r_sum s = sum) ∧
  ∀ fail, let step := lane_step rd (w_size w) (w_count w) (storage_place blocks (w_size w)) fail in
  let new := lanes_new (w_count w) depth (storage_place blocks (w_size w)) in
  (∀ n s, nsteps step n new s → Z.of_nat n ≤ w_count w * w_depth w) ∧
  (∀ s, rtc step new s → (∃ s', step s s') ∨ Forall (λ st, st = l_done) (la_lanes s) ∧ la_sum s = sum).
Proof.
  intros (Hc&Hd&Hs&_)%storage_args_ok Hf Hrd blocks depth sum. unfold default_max in Hc.
  assert (1 ≤ w_count w < 2 ^ 32) as Hc' by lia. assert (Z.of_nat depth ≤ 256 ∧ Z.of_nat depth ≤ 2 ^ 32) as Hd' by lia. assert (0 < w_size w) as Hs' by lia.
  assert (∀ l k, (l < depth)%nat → Z.of_nat k < w_count w → (rd (pos_at blocks (w_size w) l k)).1 = w_size w) as Hfull.
  { intros l k _ _. destruct (block_range (seed_at l (S k)) file_size (w_size w) Hs' Hf) as (H1&H2&_). by apply Hrd. }
  destruct (raw_start_ok rd blocks (w_size w) (w_count w) 256 depth Hc' Hd') as (s0&E&I&_). exists s0. split_and!; [done| | |intros fail step new; split].
  - intros n s H. pose proof (raw_steps rd blocks (w_size w) (w_count w) 256 _ Hc' Hd' n s s0 _ I H). nia.
  - intros s H. destruct (raw_reached_ok rd blocks (w_size w) (w_count w) 256 _ Hc' Hd' s) as (ds&Ids&Hn); [by exists s0|].
    specialize (Hn Hfull). destruct (decide (r_left s = 0)) as [Hl|Hl]; [right|left; by eapply raw_progress].
    split_and!; [done|done|]. destruct (raw_end rd blocks (w_size w) (w_count w) depth Hc' s ds Ids Hl) as [_ Hds]. rewrite (ri_sum _ _ _ _ _ _ _ Ids Hn), (Hds Hn). done.
  - intros n s H. pose proof (lanes_steps rd (w_size w) (w_count w) depth _ fail Hc' n s _ _ (lanes_new_ok rd (w_size w) (w_count w) depth _ Hc') H). nia.
  - intros s H. destruct (lanes_reached rd (w_size w) (w_count w) depth _ fail Hc' s H) as [ds Ids]. by eapply lanes_end.
Qed.
(** A kernel that fails reads at the start of the file, and one that does not. *)
Definition flaky (pos : Z) : Z * Z := if bool_decide (pos = 0) then (-5, 0) else (4096, 7).
Definition healthy (pos : Z) : Z * Z := (4096, pos mod 251).
Lemma checksums_agree_witness :
  storage_args ["fixed-direct"; "f"; "3"; "2"]%string = inr (Workload "f" 3 2 4096 true true plain) ∧
  ∀ s s', (∃ s0, raw_start (100000 / 4096) 4096 256 2 = inr s0 ∧ rtc (raw_step healthy (100000 / 4096) 4096 3 256) s0 s) → r_left s = 0 →
    rtc (lane_step healthy 4096 3 (storage_place (100000 / 4096) 4096) storage_failure) (lanes_new 3 2 (storage_place (100000 / 4096) 4096)) s' →
    (∀ s'', ¬ lane_step healthy 4096 3 (storage_place (100000 / 4096) 4096) storage_failure s' s'') → r_sum s = la_sum s'.
Proof.
  split; [reflexivity|]. intros s s' (s0&E&Hs) Hl Hs' Hend.
  destruct (checksums_agree healthy ["fixed-direct"; "f"; "3"; "2"]%string (Workload "f" 3 2 4096 true true plain) 100000) as (s1&E1&_&H1&H2);
    [reflexivity|simpl; lia|done|]. cbn [w_count w_depth w_size] in *. change (Z.to_nat 2) with 2%nat in *. rewrite E in E1. injection E1 as <-.
  destruct (H1 s Hs) as [(?&[]&_)|(_&_&->)]; [done|].
  destruct (proj2 (H2 storage_failure) s' Hs') as [[s'' Hx]|[_ ->]]; [by destruct (Hend s'')|done].
Defined.

(** The lanes of bench/file.cpp, sequential or random: every interleaving ends, without an
    error if the reads inside the file are complete, with the sum over its blocks. *)
Lemma file_lanes rd random file_size size count depth : 1 ≤ count < 2 ^ 32 → 0 < size → size ≤ file_size < 2 ^ 64 →
  (∀ pos, 0 ≤ pos → pos + size ≤ file_size → (rd pos).1 = size) →
  let place := file_place random (Z.of_nat depth) (file_size / size) size in let step := lane_step rd size count place file_failure in
  (∀ n s, nsteps step n (lanes_new count depth place) s → Z.of_nat n ≤ count * Z.of_nat depth) ∧
  ∀ s, rtc step (lanes_new count depth place) s →
    (∃ s', step s s') ∨ Forall (λ st, st = l_done) (la_lanes s) ∧ la_sum s = checksum rd count depth (placed place).
Proof.
  intros Hc Hs Hf Hrd place step. split.
  - intros n s H. pose proof (lanes_steps rd size count depth place file_failure Hc n s _ _ (lanes_new_ok rd size count depth _ Hc) H). nia.
  - intros s H. destruct (lanes_reached rd size count depth place file_failure Hc s H) as [ds I]. eapply lanes_end; [done|done|].
    intros l k _ _. unfold placed, place, file_place, file_block.
    match goal with |- context [u64 ((?x mod _) * _)] => destruct (block_range x file_size size Hs Hf) as (H1&H2&_) end. by apply Hrd.
Qed.

(** One run of each, step by step. *)
Example checksum_run :
  let rd := λ pos, (4096, pos mod 251) in let blocks := 100000 / 4096 in
  match raw_start blocks 4096 256 2 with
  | inr s => match raw_round rd blocks 4096 2 256 0 (λ _, true) [2; 1] s with
             | inr s => match raw_round rd blocks 4096 2 256 0 (λ _, true) [1; 2] s with
                        | inr s => (r_left s, r_sum s, r_error s) = (0, checksum rd 2 2 (pos_at blocks 4096), None) | _ => False end
             | _ => False end
  | _ => False
  end.
Proof. vm_compute. reflexivity. Qed.

(** A failure of the wait itself is thrown at once, with reads outstanding: here lane 0's
    read is with the kernel when [io_uring_submit_and_wait] answers [-EBUSY], and the
    exception releases the memory it writes to. *)
Lemma raw_throw_outstanding : ∃ s0 s, raw_start 3 4096 256 2 = inr s0 ∧ rtc (raw_step healthy 3 4096 2 256) s0 s ∧
  r_flight s !! 0%nat = Some (Some (sent (pos_at 3 4096 0 0))) ∧
  raw_round healthy 3 4096 2 256 (-16) (λ _, false) [] s = inl (system_error (native_error 16)).
Proof.
  destruct (raw_start 3 4096 256 2) as [|s0] eqn:E0; [vm_compute in E0; discriminate|].
  destruct (raw_round healthy 3 4096 2 256 0 (λ _, true) [2] s0) as [|s] eqn:E; [vm_compute in E0; injection E0 as <-; vm_compute in E; discriminate|].
  exists s0, s. split; [done|]. split.
  - apply rtc_once. vm_compute in E0. injection E0 as <-. split; [done|]. exists 0, (λ _, true), [2]. split; [|done].
    split_and!; [apply NoDup_singleton|simpl; lia|]. intros id ->%list_elem_of_singleton. by exists 1%nat, (pos_at 3 4096 1 0).
  - vm_compute in E0. injection E0 as <-. vm_compute in E. injection E as <-. split; vm_compute; reflexivity.
Qed.
