(* ===== verification/Nops.v ===== *)
(** * The completion benchmark (bench/uring.cpp)

    A raw loop that keeps one NOP per lane outstanding until every lane has done [count]
    of them, and the coroutines it is compared with.  Which NOPs the kernel takes and in
    which batches it completes them is any schedule's choice. *)
From S2P Require Import Prelude Bench.
From stdpp Require Import relations.
Local Open Scope Z_scope.

(** [ring()]: the flag first, then without it where the kernel does not know it; [init]
    answers for each of the two calls *)
Definition EINVAL : Z := 22.
Definition ring_new (init : bool → Z) : option exn :=
  let error := init true in
  let error := if bool_decide (error = - EINVAL) then init false else error in
  if bool_decide (error < 0) then Some (system_error (native_error (- error))) else None.

Section nops.
Variables (count entries : Z) (depth : nat).
(** A lane's NOP: in the submission queue, or with the kernel *)
Inductive nop_state := nop_queued | nop_sent.
Record nops := Nops { n_done : list Z; n_flight : list (option nop_state); n_left : Z }.
Implicit Types (s : nops) (l : nat) (ds : list nat).
Definition nop_is_queued (f : option nop_state) : nat := match f with Some nop_queued => 1 | _ => 0 end.

(** [ring.nop(lane)] *)
Definition raw_nop (l : nat) s : exn + nops :=
  if bool_decide (entries ≤ Z.of_nat (sum_list_with nop_is_queued (n_flight s))) then inl (runtime_error "benchmark SQ full")
  else inr (Nops (n_done s) (<[l := Some nop_queued]> (n_flight s)) (n_left s)).
(** One completion: the lane and its result *)
Definition nop_complete (c : nat * Z) s : exn + nops :=
  if bool_decide (c.2 ≠ 0) then inl (runtime_error "NOP failed") else
  let done := (n_done s !!! c.1 + 1) mod 2 ^ 32 in
  let s := Nops (<[c.1 := done]> (n_done s)) (<[c.1 := None]> (n_flight s)) (u64 (n_left s - 1)) in
  if bool_decide (done ≠ count) then raw_nop c.1 s else inr s.
Definition nop_send (taken : nat → bool) s : nops :=
  Nops (n_done s) (imap (λ l f, match f with Some nop_queued => if taken l then Some nop_sent else f | _ => f end) (n_flight s)) (n_left s).
Definition nop_EINTR : Z := 4.
Definition nop_round (r : Z) (taken : nat → bool) (batch : list (nat * Z)) s : exn + nops :=
  if bool_decide (r < 0 ∧ r ≠ - nop_EINTR) then inl (system_error (native_error (- r))) else each nop_complete batch (nop_send taken s).
(** [raw]: a NOP for every lane, then rounds while completions are left *)
Definition nop_start : exn + nops :=
  each raw_nop (seq 0 depth) (Nops (replicate depth 0) (replicate depth None) (u64 (count * Z.of_nat depth))).
Definition nop_deliverable (taken : nat → bool) (batch : list (nat * Z)) s : Prop :=
  NoDup batch.*1 ∧ (length batch ≤ 128)%nat ∧ ∀ c, c ∈ batch → n_flight (nop_send taken s) !! c.1 = Some (Some nop_sent) ∧ c.2 = 0.
Definition nop_step : relation nops := λ s s', n_left s ≠ 0 ∧
  ∃ r taken batch, nop_deliverable taken batch s ∧ batch ≠ [] ∧ nop_round r taken batch s = inr s'.

Hypothesis count_range : 1 ≤ count < 2 ^ 32.
Hypothesis depth_fits : Z.of_nat depth ≤ 2 ^ 31 ∧ Z.of_nat depth ≤ entries.

(** How far each lane has come; a lane has a NOP exactly while it needs one more. *)
Record NI s ds : Prop := {
  ni_len : length ds = depth ∧ length (n_flight s) = depth;
  ni_done : n_done s = Z.of_nat <$> ds;
  ni_lanes : ∀ l d f, ds !! l = Some d → n_flight s !! l = Some f → (Z.of_nat d ≤ count) ∧ (f = None ↔ Z.of_nat d = count);
  ni_left : n_left s + Z.of_nat (sum_list ds) = count * Z.of_nat depth }.

Lemma nop_queued_le (fs : list (option nop_state)) : (sum_list_with nop_is_queued fs ≤ length fs)%nat.
Proof. induction fs as [|[[]|] fs IH]; simpl; lia. Qed.
Lemma nop_ok l s : n_flight s !! l = Some None → length (n_flight s) = depth →
  raw_nop l s = inr (Nops (n_done s) (<[l := Some nop_queued]> (n_flight s)) (n_left s)).
Proof.
  intros Hl Hlen. unfold raw_nop. rewrite bool_decide_false; [done|]. pose proof (sum_insert nop_is_queued _ _ _ (Some nop_queued) Hl) as H.
  pose proof (nop_queued_le (<[l := Some nop_queued]> (n_flight s))) as Hq. rewrite length_insert in Hq. simpl in H. lia.
Qed.
Lemma nop_total s ds : NI s ds → (Z.of_nat (sum_list ds) ≤ count * Z.of_nat depth) ∧ (sum_list ds = Z.to_nat count * depth → Forall (λ d, d = Z.to_nat count) ds)%nat.
Proof.
  intros I. destruct (ni_len _ _ I) as [L1 L2]. assert (Forall (λ d, d ≤ Z.to_nat count)%nat ds) as H.
  { apply Forall_lookup. intros l d Hd. pose proof (lookup_lt_Some _ _ _ Hd). destruct (lookup_lt_is_Some_2 (n_flight s) l ltac:(lia)) as [f Hf].
    destruct (ni_lanes _ _ I l d f Hd Hf). lia. }
  assert (sum_list ds ≤ Z.to_nat count * length ds)%nat as Hle by (clear -H; induction H; simpl; lia). split; [rewrite <- L1; nia|].
  rewrite <- L1. clear -H. induction H as [|d ds Hd H IH]; intros E; [constructor|]. simpl in E.
  assert (sum_list ds ≤ Z.to_nat count * length ds)%nat as Hle by (clear -H; induction H; simpl; lia). constructor; [lia|]. apply IH. lia.
Qed.

Lemma nop_complete_ok l s ds : NI s ds → (∃ f, n_flight s !! l = Some (Some f)) → ∃ s' d, nop_complete (l, 0) s = inr s' ∧
  ds !! l = Some d ∧ NI s' (<[l := S d]> ds) ∧ ∀ k, k ≠ l → n_flight s' !! k = n_flight s !! k.
Proof.
  intros I [f Hf]. destruct (ni_len _ _ I) as (L1&L2). pose proof (lookup_lt_Some _ _ _ Hf) as Hlt.
  destruct (lookup_lt_is_Some_2 ds l ltac:(lia)) as [d Hd]. destruct (ni_lanes _ _ I l d _ Hd Hf) as [Hle Hn].
  assert (Z.of_nat d < count) as Hdc. { destruct (decide (Z.of_nat d = count)) as [E|]; [|lia]. by apply Hn in E. }
  assert (n_done s !!! l = Z.of_nat d) as Hdone by (apply list_lookup_total_correct; rewrite (ni_done _ _ I), list_lookup_fmap, Hd; done).
  assert (sum_list (<[l := S d]> ds) = S (sum_list ds)) as Hsum.
  { pose proof (sum_insert id ds l d (S d) Hd) as H. change (sum_list_with id) with sum_list in H. simpl in H. lia. }
  assert (Z.of_nat <$> <[l := S d]> ds = <[l := Z.of_nat (S d)]> (n_done s)) as Hdn by (by rewrite (ni_done _ _ I), list_fmap_insert).
  pose proof (proj1 (nop_total _ _ I)) as Htot. pose proof (ni_left _ _ I) as Hleft.
  assert (n_left s ≠ 0) as Hnz.
  { intros E. destruct (nop_total _ _ I) as [_ Hall]. rewrite Forall_lookup in Hall. specialize (Hall ltac:(lia) l d Hd). lia. }
  assert (u64 (n_left s - 1) = n_left s - 1) as Hu by (unfold u64; apply Z.mod_small; nia).
  unfold nop_complete. cbn [fst snd]. rewrite (bool_decide_false (0 ≠ 0)) by lia. rewrite Hdone, Z.mod_small, Hu by lia.
  replace (Z.of_nat d + 1) with (Z.of_nat (S d)) by lia.
  assert (∀ g, (g = None ↔ Z.of_nat (S d) = count) → NI (Nops (<[l := Z.of_nat (S d)]> (n_done s)) (<[l := g]> (n_flight s)) (n_left s - 1)) (<[l := S d]> ds)) as HNI.
  { intros g Hg. split; cbn [n_done n_flight n_left]; rewrite ?length_insert, ?Hsum; [done|done| |rewrite Nat2Z.inj_succ; lia].
    intros k e h He Hh. destruct (decide (k = l)) as [->|Hne].
    - rewrite list_lookup_insert_eq in He by lia. rewrite list_lookup_insert_eq in Hh by lia. simplify_eq. split; [lia|done].
    - rewrite list_lookup_insert_ne in He by done. rewrite list_lookup_insert_ne in Hh by done. by apply (ni_lanes _ _ I k). }
  case_bool_decide as Hc.
  - rewrite nop_ok; cbn [n_flight n_done n_left]; [|by rewrite list_lookup_insert_eq by lia|by rewrite length_insert].
    rewrite list_insert_insert_eq. eexists _, d. split_and!; [done|done|by apply HNI|]. intros k Hk. cbn [n_flight]. by rewrite list_lookup_insert_ne.
  - eexists _, d. split_and!; [done|done|apply HNI; split; [lia|done]|]. intros k Hk. cbn [n_flight]. by rewrite list_lookup_insert_ne.
Qed.

Lemma nop_batch_ok batch s ds : NI s ds → NoDup batch.*1 → (∀ c, c ∈ batch → (∃ f, n_flight s !! c.1 = Some (Some f)) ∧ c.2 = 0) →
  ∃ s' ds', each nop_complete batch s = inr s' ∧ NI s' ds' ∧ (sum_list ds' = sum_list ds + length batch)%nat.
Proof.
  revert s ds. induction batch as [|[l r] batch IH]; intros s ds I Hnd Hf; [exists s, ds; split_and!; [done|done|simpl; lia]|].
  apply NoDup_cons in Hnd as [Hi Hnd]. destruct (Hf (l, r) ltac:(by left)) as [Hl Hr]. simpl in Hl, Hr. subst r.
  destruct (nop_complete_ok l s ds I Hl) as (s1&d&E&Hd&I1&Hs). cbn [each]. rewrite E. cbn [bind].
  destruct (IH s1 _ I1 Hnd) as (s'&ds'&E'&I'&Hsum).
  { intros c Hc. rewrite Hs; [apply Hf; by right|]. intros Heq. apply Hi. rewrite <- Heq. apply (list_elem_of_fmap fst). by exists c. }
  exists s', ds'. split_and!; [done|done|]. pose proof (sum_insert id ds l d (S d) Hd) as H. change (sum_list_with id) with sum_list in H. simpl in *. lia.
Qed.
Lemma nop_send_ok taken s ds : NI s ds → NI (nop_send taken s) ds.
Proof.
  intros I. destruct (ni_len _ _ I) as (L1&L2). split; cbn [nop_send n_done n_flight n_left]; [by rewrite length_imap|apply I| |apply I].
  intros l d f Hd Hf. rewrite list_lookup_imap in Hf. destruct (n_flight s !! l) as [f0|] eqn:Hf0; simpl in Hf; [|done]. injection Hf as <-.
  destruct (ni_lanes _ _ I l d f0 Hd Hf0) as [H1 H2]. split; [done|]. rewrite <- H2. destruct f0 as [[]|]; [by destruct (taken l)|done..].
Qed.
Lemma nop_round_ok r taken batch s ds : NI s ds → nop_deliverable taken batch s → ¬ (r < 0 ∧ r ≠ - nop_EINTR) →
  ∃ s' ds', nop_round r taken batch s = inr s' ∧ NI s' ds' ∧ (sum_list ds' = sum_list ds + length batch)%nat.
Proof.
  intros I (Hnd&_&Hb) Hr. unfold nop_round. rewrite bool_decide_false by done. apply nop_batch_ok; [by apply nop_send_ok|done|]. naive_solver.
Qed.
Lemma nop_submits ls s : NoDup ls → length (n_flight s) = depth → (∀ l, l ∈ ls → n_flight s !! l = Some None) →
  ∃ fs, each raw_nop ls s = inr (Nops (n_done s) fs (n_left s)) ∧ length fs = depth ∧ (∀ l, l ∉ ls → fs !! l = n_flight s !! l) ∧
  ∀ l, l ∈ ls → fs !! l = Some (Some nop_queued).
Proof.
  revert s. induction ls as [|i ls IH]; intros s Hnd L Hf.
  { exists (n_flight s). split_and!; [by destruct s|done|done|]. by intros ? ?%not_elem_of_nil. }
  apply NoDup_cons in Hnd as [Hi Hnd]. pose proof (Hf i ltac:(by left)) as Hfi. pose proof (lookup_lt_Some _ _ _ Hfi). cbn [each].
  rewrite nop_ok by done. cbn [bind].
  match goal with |- context [each _ ls ?s1] => destruct (IH s1) as (fs&E&L'&H1&H2) end; [done|by cbn [n_flight]; rewrite length_insert| |].
  { intros j Hj. cbn [n_flight]. rewrite list_lookup_insert_ne by (by intros ->). apply Hf. by right. }
  exists fs. cbn [n_done n_flight n_left] in *. split_and!; [done|done| |].
  - intros l [Hne Hl]%not_elem_of_cons. rewrite (H1 l Hl). by rewrite list_lookup_insert_ne.
  - intros l [->|Hl]%elem_of_cons; [|by apply H2]. rewrite (H1 i Hi). by rewrite list_lookup_insert_eq by lia.
Qed.
Lemma nop_start_ok : ∃ s, nop_start = inr s ∧ NI s (replicate depth 0%nat).
Proof.
  unfold nop_start. set (s0 := Nops _ _ _). destruct (nop_submits (seq 0 depth) s0) as (fs&E&L&_&H).
  - apply NoDup_seq.
  - apply length_replicate.
  - intros l Hl%elem_of_seq. apply lookup_replicate_2. lia.
  - rewrite E. eexists. split; [done|]. split; cbn [s0 n_done n_flight n_left].
    + by rewrite length_replicate.
    + by rewrite fmap_replicate.
    + intros l d f [-> Hl]%lookup_replicate Hf. rewrite H in Hf by (apply elem_of_seq; lia). simplify_eq. split; [lia|]. split; [done|lia].
    + assert (sum_list (replicate depth 0%nat) = 0%nat) as -> by (clear; induction depth; done). unfold u64. rewrite Z.mod_small; nia.
Qed.
Lemma nop_step_ok s s' ds : NI s ds → nop_step s s' → ∃ ds', NI s' ds' ∧ (sum_list ds < sum_list ds')%nat.
Proof.
  intros I (_&r&taken&batch&Hd&Hne&E). destruct (decide (r < 0 ∧ r ≠ - nop_EINTR)) as [Hr|Hr].
  { unfold nop_round in E. by rewrite bool_decide_true in E. }
  destruct (nop_round_ok r taken batch s ds I Hd Hr) as (s1&ds'&E1&I'&Hs). rewrite E1 in E. injection E as ->. exists ds'. split; [done|].
  destruct batch; [done|]. simpl in Hs. lia.
Qed.
Lemma nop_progress s ds : NI s ds → n_left s ≠ 0 → ∃ s', nop_step s s'.
Proof.
  intros I Hl. destruct (ni_len _ _ I) as (L1&L2). pose proof (proj1 (nop_total _ _ I)) as Ht.
  assert (∃ l f, n_flight s !! l = Some (Some f)) as (l&f&Hf).
  { destruct (decide (Exists (λ f, f ≠ None) (n_flight s))) as [([f|]&[l Hf]%list_elem_of_lookup&Hne)%Exists_exists|Hx]; [by eauto|done|].
    exfalso. apply Hl. assert (Forall (λ d, d = Z.to_nat count) ds) as Hall.
    { apply Forall_lookup. intros l d Hd. pose proof (lookup_lt_Some _ _ _ Hd). destruct (lookup_lt_is_Some_2 (n_flight s) l ltac:(lia)) as [f Hf].
      destruct (ni_lanes _ _ I l d f Hd Hf) as [_ Hd2]. destruct f; [|rewrite <- (proj1 Hd2 eq_refl); lia]. destruct Hx. apply Exists_exists. eexists. split; [by eapply list_elem_of_lookup_2|done]. }
    pose proof (ni_left _ _ I) as Hle. assert (sum_list ds = Z.to_nat count * depth)%nat as E; [|nia].
    rewrite <- L1. clear -Hall. induction Hall as [|? ? ->]; simpl; lia. }
  assert (nop_deliverable (λ _, true) [(l, 0)] s) as Hd.
  { split_and!; [apply NoDup_singleton|simpl; lia|]. intros c ->%list_elem_of_singleton. split; [|done].
    cbn [nop_send n_flight fst]. rewrite list_lookup_imap, Hf. by destruct f. }
  destruct (nop_round_ok 0 _ _ s ds I Hd ltac:(lia)) as (s'&ds'&E&_). exists s'. split; [done|]. by eexists 0, _, _.
Qed.
Lemma nop_steps n s s0 ds0 : NI s0 ds0 → nsteps nop_step n s0 s → Z.of_nat (n + sum_list ds0) ≤ count * Z.of_nat depth.
Proof.
  intros I H. revert ds0 I. induction H as [s|n s1 s2 s3 Hs H IH]; intros ds0 I; [by apply (nop_total s)|].
  destruct (nop_step_ok _ _ _ I Hs) as (ds'&I'&Hlt). specialize (IH _ I'). lia.
Qed.
Lemma nop_end s ds : NI s ds → n_left s = 0 → n_done s = replicate depth count ∧ ∀ l f, n_flight s !! l = Some f → f = None.
Proof.
  intros I Hl. destruct (ni_len _ _ I) as (L1&L2). destruct (nop_total _ _ I) as [_ Hall]. pose proof (ni_left _ _ I) as Hle.
  specialize (Hall ltac:(nia)). split.
  - rewrite (ni_done _ _ I), <- L1. clear -Hall count_range. induction Hall as [|d ds -> H IH]; [done|]. simpl. rewrite Z2Nat.id by lia. f_equal. exact IH.
  - intros l f Hf. pose proof (lookup_lt_Some _ _ _ Hf). destruct (lookup_lt_is_Some_2 ds l ltac:(lia)) as [d Hd].
    destruct (ni_lanes _ _ I l d f Hd Hf) as [_ H2]. apply H2. rewrite Forall_lookup in Hall. specialize (Hall _ _ Hd). lia.
Qed.

(** The loop of bench/uring.cpp: for the depths its command line accepts, the queue never
    overflows, no round waits for a completion that cannot come, and after at most
    [count * depth] rounds every lane has done exactly [count] NOPs and none is left. *)
Lemma nops_complete : ∃ s0, nop_start = inr s0 ∧ (∀ n s, nsteps nop_step n s0 s → Z.of_nat n ≤ count * Z.of_nat depth) ∧
  ∀ s, rtc nop_step s0 s → (∃ s', nop_step s s') ∨ n_left s = 0 ∧ n_done s = replicate depth count ∧ ∀ l f, n_flight s !! l = Some f → f = None.
Proof.
  destruct nop_start_ok as (s0&E&I0). exists s0. split_and!; [done| |].
  - intros n s H. pose proof (nop_steps n s s0 _ I0 H). lia.
  - intros s H. assert (∃ ds, NI s ds) as [ds I].
    { revert s H. apply rtc_ind_r; [by eexists|]. intros s s' _ Hs [ds I]. destruct (nop_step_ok s s' ds I Hs) as (ds'&I'&_). by exists ds'. }
    destruct (decide (n_left s = 0)) as [Hl|Hl]; [right|left; by eapply nop_progress]. split; [done|]. by apply (nop_end s ds).
Qed.
End nops.

(** The command line gives a depth the ring of 256 entries has room for. *)
Lemma uring_args_ok argv c d : uring_args argv = inr (c, d) → 1 ≤ c < 2 ^ 32 ∧ Z.of_nat (Z.to_nat d) ≤ 2 ^ 31 ∧ Z.of_nat (Z.to_nat d) ≤ 256.
Proof.
  intros (_&(c'&Hc&(d'&Hd&H)%bind_inr)%bind_inr)%guard_inr. injection H as <- <-.
  apply count_arg_inr in Hc; [|unfold default_max; lia]. apply count_arg_inr in Hd; [|lia]. unfold default_max in Hc. lia.
Qed.
