(* ===== verification/Echo.v ===== *)
(** * Echo over a byte stream (examples/echo.cpp, bench/tcp.cpp)

    A server that sends back what it reads and a client that checks the echo, over a
    connection whose two directions hold at most [cap] bytes each.  A read gives any
    positive number of the bytes that are there, a write takes any positive number that
    fits, and any schedule may choose who runs.  bench/tcp.cpp reads whole messages before
    it replies; examples/echo.cpp replies to every read. *)
From S2P Require Import Prelude.
From stdpp Require Import relations.
Local Open Scope Z_scope.

(** The server: filling its buffer, writing the rest of a reply, or ended *)
Inductive server := s_read (got : list Z) | s_write (rest : list Z) | s_done | s_failed (e : exn).
(** The client, with the message it is about and those still to come: writing its rest,
    reading the echo, or ended *)
Inductive peer := p_write (rest m : list Z) (todo : list (list Z)) | p_read (got m : list Z) (todo : list (list Z)) | p_end | p_error (e : exn).
(** The connection: the bytes under way and whether the client has shut down its side *)
Record net := Net { srv : server; cli : peer; up : list Z; fin : bool; down : list Z; echoed : list (list Z) }.

Section echo.
(** The server's buffer, whether it waits until it is full, whether the client shuts down
    as soon as it has sent its last message, and the room of the connection *)
Variables (size : nat) (whole early : bool) (cap : nat) (mismatch : string).
Implicit Types (s : net) (m : list Z).

(** [read] with [k] bytes given; 0 is the end of the stream *)
Definition server_read (k : nat) s : option net :=
  match srv s with
  | s_read got =>
      if bool_decide (up s = []) then
        if fin s then Some (Net (if bool_decide (whole = true ∧ got ≠ []) then s_failed (runtime_error "partial message at EOF") else s_done)
                              (cli s) (up s) (fin s) (down s) (echoed s))
        else None
      else if bool_decide (1 ≤ k ∧ k ≤ length (up s) ∧ k ≤ size - length got)%nat then
        let got' := got ++ take k (up s) in
        Some (Net (if bool_decide (whole = true ∧ length got' ≠ size) then s_read got' else s_write got')
                (cli s) (drop k (up s)) (fin s) (down s) (echoed s))
      else None
  | _ => None
  end.
(** [write_all], one write of [k] bytes at a time *)
Definition server_write (k : nat) s : option net :=
  match srv s with
  | s_write rest =>
      if bool_decide (1 ≤ k ∧ k ≤ length rest ∧ length (down s) + k ≤ cap)%nat then
        Some (Net (if bool_decide (drop k rest = []) then s_read [] else s_write (drop k rest))
                (cli s) (up s) (fin s) (down s ++ take k rest) (echoed s))
      else None
  | _ => None
  end.
Definition client_write (k : nat) s : option net :=
  match cli s with
  | p_write rest m todo =>
      if bool_decide (1 ≤ k ∧ k ≤ length rest ∧ length (up s) + k ≤ cap)%nat then
        let sent := bool_decide (drop k rest = []) in
        Some (Net (srv s) (if sent then p_read [] m todo else p_write (drop k rest) m todo) (up s ++ take k rest)
                (fin s || (sent && early && bool_decide (todo = []))) (down s) (echoed s))
      else None
  | _ => None
  end.
(** A complete echo is compared; the client goes on or shuts down *)
Definition client_read (k : nat) s : option net :=
  match cli s with
  | p_read got m todo =>
      if bool_decide (down s = []) then
        match srv s with
        | s_done | s_failed _ => Some (Net (srv s) (p_error (runtime_error "unexpected EOF")) (up s) (fin s) (down s) (echoed s))
        | _ => None
        end
      else if bool_decide (1 ≤ k ∧ k ≤ length (down s) ∧ k ≤ length m - length got)%nat then
        let got' := got ++ take k (down s) in
        if bool_decide (length got' ≠ length m) then Some (Net (srv s) (p_read got' m todo) (up s) (fin s) (drop k (down s)) (echoed s))
        else if bool_decide (got' ≠ m) then Some (Net (srv s) (p_error (runtime_error mismatch)) (up s) (fin s) (drop k (down s)) (echoed s))
        else match todo with
             | m' :: todo' => Some (Net (srv s) (p_write m' m' todo') (up s) (fin s) (drop k (down s)) (echoed s ++ [m]))
             | [] => Some (Net (srv s) p_end (up s) true (drop k (down s)) (echoed s ++ [m]))
             end
      else None
  | _ => None
  end.
Definition echo_step : relation net := λ s s', ∃ k,
  server_read k s = Some s' ∨ server_write k s = Some s' ∨ client_write k s = Some s' ∨ client_read k s = Some s'.
Definition echo_new (ms : list (list Z)) : net :=
  match ms with
  | m :: todo => Net (s_read []) (p_write m m todo) [] false [] []
  | [] => Net (s_read []) p_end [] true [] []
  end.

(** ** Invariant *)
Section run.
Variable ms : list (list Z).
Hypothesis size_pos : (1 ≤ size)%nat.
Hypothesis cap_pos : (1 ≤ cap)%nat.
Hypothesis messages : Forall (λ m, m ≠ [] ∧ (whole = true → length m = size) ∧ (whole = false → length m ≤ cap)%nat) ms.

Definition message (p : peer) : list Z := match p with p_write _ m _ | p_read _ m _ => m | _ => [] end.
Definition waiting (p : peer) : list (list Z) := match p with p_write _ _ t | p_read _ _ t => t | _ => [] end.
Definition unsent (p : peer) : list Z := match p with p_write r _ _ => r | _ => [] end.
Definition answered (p : peer) : list Z := match p with p_read g _ _ => g | _ => [] end.
Definition filled (sv : server) : list Z := match sv with s_read g => g | _ => [] end.
Definition reply (sv : server) : list Z := match sv with s_write r => r | _ => [] end.
(** The bytes of the current message, from the client's buffer back to its start. *)
Record EI s : Prop := {
  ei_bytes : message (cli s) = answered (cli s) ++ down s ++ reply (srv s) ++ filled (srv s) ++ up s ++ unsent (cli s);
  ei_whole : whole = true → answered (cli s) ++ down s ++ reply (srv s) = [] ∨ filled (srv s) ++ up s ++ unsent (cli s) = [];
  ei_part : whole = false → filled (srv s) = [];
  ei_srv : match srv s with s_read g => length g < size | s_write r => r ≠ [] | s_done => fin s = true ∧ up s = [] | s_failed _ => False end%nat;
  ei_cli : match cli s with p_write r _ _ => r ≠ [] ∧ fin s = false | p_read g m t => (length g < length m)%nat ∧ (fin s = true → t = [] ∧ early = true)
           | p_end => fin s = true | p_error _ => False end;
  ei_todo : ms = echoed s ++ match cli s with p_write _ m t | p_read _ m t => m :: t | _ => [] end;
  ei_up : (length (up s) ≤ cap)%nat ∧ (length (down s) ≤ cap)%nat }.
Definition esum (l : list (list Z)) : nat := sum_list_with length l.
Definition eweight s : nat :=
  4 * length (unsent (cli s)) + 3 * length (up s) + 2 * (length (filled (srv s)) + length (reply (srv s))) + length (down s) +
  4 * esum (waiting (cli s)) + match srv s with s_done | s_failed _ => 0 | _ => 1 end.

Lemma EI_new : EI (echo_new ms) ∧ eweight (echo_new ms) = (4 * esum ms + 1)%nat.
Proof.
  unfold echo_new. destruct ms as [|m todo] eqn:E; (split; [split; simpl; try done; try lia|]); simpl.
  - intros _. by left.
  - done.
  - intros _. by left.
  - apply Forall_cons in messages as [[? _] _]. done.
  - unfold eweight. simpl. lia.
Qed.
Lemma message_in s : EI s → message (cli s) ≠ [] → message (cli s) ∈ ms.
Proof. intros I. rewrite (ei_todo _ I). destruct (cli s); simpl; try done; intros; apply elem_of_app; right; by left. Qed.

(** Moving [k] bytes from one place to the next. *)
Lemma move (k : nat) (l : list Z) : (1 ≤ k ≤ length l)%nat → length (take k l) = k ∧ (length (drop k l) + k = length l)%nat ∧ take k l ++ drop k l = l.
Proof. intros H. rewrite length_take, length_drop, take_drop. split_and!; [lia..|done]. Qed.
Lemma moved_some (k : nat) (l : list Z) : (1 ≤ k ≤ length l)%nat → take k l ≠ [].
Proof. intros H. destruct k, l; simpl in *; [lia..|done]. Qed.
Ltac echo := cbn [srv cli up fin down echoed message waiting unsent answered filled reply] in *.

Lemma server_read_ok k s s' : EI s → server_read k s = Some s' → EI s' ∧ (eweight s' < eweight s)%nat.
Proof.
  destruct s as [sv cl u f d e]. intros [Hb Hw Hp Hs Hc Ht Hu] H. unfold server_read in H. unfold eweight. echo.
  destruct sv as [got| | |]; try done. case_bool_decide as Hup.
  - subst u. destruct f; [|done]. injection H as <-. echo.
    assert (¬ (whole = true ∧ got ≠ [])) as Hg.
    { intros [Hwt Hg]. destruct (Hw Hwt) as [[Ha [-> _]%app_nil]%app_nil|H]; [|by apply app_nil in H as [? _]]. rewrite Ha in Hb. simpl in Hb.
      destruct cl as [r m t|g m t| |]; echo; [by destruct Hc| | |done].
      - rewrite app_nil_r in Hb. assert (length m = size); [|subst; lia]. rewrite Forall_forall in messages.
        apply (messages m); [|done]. rewrite Ht. apply elem_of_app. right. by left.
      - by destruct got. }
    rewrite bool_decide_false by done. assert (got = []) as ->.
    { destruct whole; [by destruct (decide (got = [])); [|tauto]|by apply Hp]. }
    split; [|simpl; lia]. by split; echo.
  - case_bool_decide as Hk; [|done]. destruct Hk as (Hk1&Hk2&Hk3). injection H as <-. echo.
    destruct (move k u ltac:(lia)) as (M1&M2&M3). pose proof (moved_some k u ltac:(lia)) as M4.
    assert (got ++ take k u ≠ []) as Hne by (by intros [_ ?]%app_nil).
    assert (got ++ u = (got ++ take k u) ++ drop k u) as Hgu by (by rewrite <- app_assoc, M3).
    assert (length (got ++ take k u) = length got + k)%nat as Hlen by (rewrite length_app; lia).
    case_bool_decide as Hfull; (split; [split|]); echo; try done.
    + rewrite Hb. do 2 f_equal. simpl. by rewrite !app_assoc, Hgu, <- !app_assoc.
    + intros Hwt. destruct (Hw Hwt) as [?|[_ [? _]%app_nil]%app_nil]; [by left|done].
    + intros Hwf. rewrite Hwf in Hfull. by destruct Hfull.
    + lia.
    + lia.
    + simpl. rewrite Hlen. lia.
    + rewrite Hb. do 2 f_equal. simpl. by rewrite !app_assoc, Hgu, <- !app_assoc.
    + intros Hwt. right. assert (length got + k = size)%nat as Hsz by (rewrite <- Hlen; destruct (decide (length (got ++ take k u) = size)); [done|tauto]).
      destruct (Hw Hwt) as [Hn|[_ [? _]%app_nil]%app_nil]; [|done]. apply app_nil in Hn as [Ha Hn]. apply app_nil in Hn as [-> _]. rewrite Ha in Hb. simpl in Hb.
      assert (length (message cl) = size) as Hm.
      { rewrite Forall_forall in messages. apply messages; [|done]. rewrite Ht. destruct cl; echo; try (by destruct got, u); apply elem_of_app; right; by left. }
      apply (f_equal length) in Hb. rewrite Hm, !length_app in Hb. simpl. apply nil_length_inv. rewrite length_app. lia.
    + lia.
    + simpl. rewrite Hlen. lia.
Qed.

Lemma server_write_ok k s s' : EI s → server_write k s = Some s' → EI s' ∧ (eweight s' < eweight s)%nat.
Proof.
  destruct s as [sv cl u f d e]. intros [Hb Hw Hp Hs Hc Ht Hu] H. unfold server_write in H. unfold eweight. echo.
  destruct sv as [|rest| |]; try done. case_bool_decide as Hk; [|done]. destruct Hk as (Hk1&Hk2&Hk3). injection H as <-. echo.
  destruct (move k rest ltac:(lia)) as (M1&M2&M3). pose proof (moved_some k rest ltac:(lia)) as M4.
  assert (∀ sv', reply sv' = drop k rest → filled sv' = [] →
    message cl = answered cl ++ (d ++ take k rest) ++ reply sv' ++ filled sv' ++ u ++ unsent cl ∧
    (whole = true → answered cl ++ (d ++ take k rest) ++ reply sv' = [] ∨ filled sv' ++ u ++ unsent cl = [])) as H.
  { intros sv' -> ->. simpl in *. split; [rewrite Hb, <- M3 at 1; by rewrite <- !app_assoc|]. intros Hwt. destruct (Hw Hwt) as [[_ [_ ?]%app_nil]%app_nil|?]; [done|by right]. }
  assert (length (d ++ take k rest) = length d + k)%nat as Hlen by (rewrite length_app; lia).
  case_bool_decide as Hd; destruct (H (if bool_decide (drop k rest = []) then s_read [] else s_write (drop k rest))) as [H1 H2];
    try (by case_bool_decide); rewrite ?bool_decide_true, ?bool_decide_false in H1, H2 by done; (split; [split|]); echo; try done; simpl; rewrite ?Hlen; try lia.
Qed.

Lemma client_write_ok k s s' : EI s → client_write k s = Some s' → EI s' ∧ (eweight s' < eweight s)%nat.
Proof.
  destruct s as [sv cl u f d e]. intros [Hb Hw Hp Hs Hc Ht Hu] H. unfold client_write in H. unfold eweight. echo.
  destruct cl as [rest m todo| | |]; try done. case_bool_decide as Hk; [|done]. destruct Hk as (Hk1&Hk2&Hk3). injection H as <-. echo.
  destruct Hc as [_ ->]. destruct (move k rest ltac:(lia)) as (M1&M2&M3). pose proof (moved_some k rest ltac:(lia)) as M4.
  assert (m ≠ []) as Hm. { rewrite Forall_forall in messages. apply messages. rewrite Ht. apply elem_of_app. right. by left. }
  assert (length (u ++ take k rest) = length u + k)%nat as Hlen by (rewrite length_app; lia).
  assert (whole = true → d = [] ∧ reply sv = []) as Hnone.
  { intros Hwt. destruct (Hw Hwt) as [[_ [? ?]%app_nil]%app_nil|[_ [_ ->]%app_nil]%app_nil]; [done|simpl in *; lia]. }
  assert (match sv with s_done => False | _ => True end) as Hsv by (by destruct sv as [| |[]|]; naive_solver).
  case_bool_decide as Hd; (split; [split|]); echo; rewrite ?Hlen; try done; try lia.
  - rewrite Hd, app_nil_r in M3. by rewrite Hb, M3, app_nil_r.
  - intros Hwt. left. by destruct (Hnone Hwt) as [-> ->].
  - by destruct sv.
  - split; [by destruct m; simpl; [|lia]|]. simpl. intros [? ?%bool_decide_eq_true]%andb_true_iff. done.
  - rewrite Hd in M2. simpl in *. destruct sv; lia.
  - rewrite Hb. by rewrite <- (app_assoc u), M3.
  - intros Hwt. left. by destruct (Hnone Hwt) as [-> ->].
  - by destruct sv.
Qed.

Lemma client_read_ok k s s' : EI s → client_read k s = Some s' → EI s' ∧ (eweight s' < eweight s)%nat.
Proof.
  destruct s as [sv cl u f d e]. intros [Hb Hw Hp Hs Hc Ht Hu] H. unfold client_read in H. unfold eweight. echo.
  destruct cl as [|got m todo| |]; try done. destruct Hc as [Hgot Hfin]. case_bool_decide as Hdn.
  { subst d. destruct sv as [| | |]; try done. injection H as <-. destruct Hs as [_ ->]. simpl in Hb. rewrite app_nil_r in Hb. subst. lia. }
  case_bool_decide as Hk; [|done]. destruct Hk as (Hk1&Hk2&Hk3).
  destruct (move k d ltac:(lia)) as (M1&M2&M3). pose proof (moved_some k d ltac:(lia)) as M4.
  assert (length (got ++ take k d) = length got + k)%nat as Hlen by (rewrite length_app; lia).
  assert (m = (got ++ take k d) ++ drop k d ++ reply sv ++ filled sv ++ u) as Hm.
  { rewrite Hb at 1. rewrite <- M3 at 1. by rewrite app_nil_r, <- !app_assoc. }
  assert (whole = true → filled sv ++ u = []) as Hnone.
  { intros Hwt. destruct (Hw Hwt) as [[_ [? _]%app_nil]%app_nil|H0]; [done|]. by rewrite app_nil_r in H0. }
  case_bool_decide as Hne.
  - injection H as <-. split; [split|]; echo; try done; try lia.
    + by rewrite app_nil_r.
    + intros Hwt. right. rewrite app_nil_r. by apply Hnone.
    + split; [|done]. rewrite Hlen in *. lia.
  - assert (length (got ++ take k d) = length m) as E by (by destruct (decide (length (got ++ take k d) = length m))).
    assert (drop k d = [] ∧ reply sv = [] ∧ filled sv = [] ∧ u = []) as (E1&E2&E3&E4).
    { apply (f_equal length) in Hm. rewrite length_app, E, !length_app in Hm. split_and!; apply nil_length_inv; lia. }
    rewrite E1, E2, E3, E4, !app_nil_r in Hm. subst u. rewrite bool_decide_false in H by (by intros []).
    destruct todo as [|m' todo]; injection H as <-; rewrite ?E1, ?E2, ?E3 in *; (split; [split|]); echo; rewrite ?E1, ?E2, ?E3; simpl; try done; try lia.
    + by left.
    + by destruct sv.
    + by rewrite <- app_assoc.
    + by left.
    + rewrite Forall_forall in messages. split; [apply (messages m'); rewrite Ht; apply elem_of_app; right; right; by left|].
      destruct f; [|done]. by destruct (Hfin eq_refl).
    + by rewrite <- app_assoc.
Qed.
Lemma echo_step_ok s s' : EI s → echo_step s s' → EI s' ∧ (eweight s' < eweight s)%nat.
Proof.
  intros I (k&[H|[H|[H|H]]]); [by eapply server_read_ok|by eapply server_write_ok|by eapply client_write_ok|by eapply client_read_ok].
Qed.

(** ** No schedule gets stuck *)
Lemma can_server_read s got : srv s = s_read got → (length got < size)%nat → up s ≠ [] → ∃ s', echo_step s s'.
Proof.
  intros Hs Hg Hu. assert (is_Some (server_read 1 s)) as [s' H]; [|exists s', 1%nat; by left]. unfold server_read. rewrite Hs, bool_decide_false by done.
  rewrite bool_decide_true; [by eexists|]. destruct (up s); [done|simpl; lia].
Qed.
Lemma can_server_end s got : srv s = s_read got → up s = [] → fin s = true → ∃ s', echo_step s s'.
Proof.
  intros Hs Hu Hf. assert (is_Some (server_read 0 s)) as [s' H]; [|exists s', 0%nat; by left]. unfold server_read. rewrite Hs, bool_decide_true, Hf by done. by eexists.
Qed.
Lemma can_server_write s r : srv s = s_write r → r ≠ [] → (length (down s) < cap)%nat → ∃ s', echo_step s s'.
Proof.
  intros Hs Hr Hd. assert (is_Some (server_write 1 s)) as [s' H]; [|exists s', 1%nat; by right; left]. unfold server_write. rewrite Hs.
  rewrite bool_decide_true; [by eexists|]. destruct r; [done|simpl; lia].
Qed.
Lemma can_client_write s r m todo : cli s = p_write r m todo → r ≠ [] → (length (up s) < cap)%nat → ∃ s', echo_step s s'.
Proof.
  intros Hs Hr Hd. assert (is_Some (client_write 1 s)) as [s' H]; [|exists s', 1%nat; by right; right; left]. unfold client_write. rewrite Hs.
  rewrite bool_decide_true; [by eexists|]. destruct r; [done|simpl; lia].
Qed.
Lemma can_client_read s g m todo : cli s = p_read g m todo → (length g < length m)%nat → down s ≠ [] → ∃ s', echo_step s s'.
Proof.
  intros Hs Hg Hd. assert (is_Some (client_read 1 s)) as [s' H]; [|exists s', 1%nat; by right; right; right]. unfold client_read. rewrite Hs.
  rewrite bool_decide_false by done. rewrite bool_decide_true by (destruct (down s); [done|simpl; lia]). repeat case_bool_decide; [by eexists..|]. destruct todo; by eexists.
Qed.
Lemma echo_progress s : EI s → (∃ s', echo_step s s') ∨ cli s = p_end ∧ srv s = s_done.
Proof.
  intros I. pose proof (ei_bytes _ I) as Hb. pose proof (ei_whole _ I) as Hw. pose proof (ei_part _ I) as Hp. pose proof (ei_srv _ I) as Hs. pose proof (ei_cli _ I) as Hc.
  assert (∀ m t, ms = echoed s ++ m :: t → (whole = true → length m = size) ∧ (whole = false → length m ≤ cap)%nat) as Hm.
  { intros m t E. rewrite Forall_forall in messages. apply messages. rewrite E. apply elem_of_app. right. by left. }
  pose proof (ei_todo _ I) as Ht. destruct (cli s) as [r m t|g m t| |] eqn:Ecli; echo; [left|left| |done].
  - destruct Hc as [Hr Hf]. destruct (Hm _ _ Ht) as [Hm1 Hm2]. destruct (decide (length (up s) < cap)%nat) as [Hlt|Hge]; [by eapply can_client_write|].
    assert (up s ≠ []) as Hu by (intros E; rewrite E in Hge; simpl in Hge; lia). destruct whole.
    + destruct (Hw eq_refl) as [[_ [_ H]%app_nil]%app_nil|[_ [? _]%app_nil]%app_nil]; [|done].
      destruct (srv s) as [got|r'| |] eqn:Esrv; echo; [by eapply can_server_read|done|by destruct Hs|done].
    + exfalso. specialize (Hm2 eq_refl). apply (f_equal length) in Hb. rewrite !length_app in Hb. destruct r; [done|]. simpl in Hb. lia.
  - destruct Hc as [Hg Hf]. destruct (Hm _ _ Ht) as [Hm1 Hm2]. destruct (decide (down s = [])) as [Hd|Hd]; [|by eapply can_client_read].
    destruct (srv s) as [got|r'| |] eqn:Esrv; echo; [|eapply can_server_write; [done|done|rewrite Hd; simpl; lia]| |done].
    + destruct (decide (up s = [])) as [Hu|Hu]; [|by eapply can_server_read]. exfalso. rewrite Hd, Hu in *. simpl in *. rewrite !app_nil_r in *.
      destruct whole; [|rewrite Hp, app_nil_r in Hb by done; subst; lia].
      destruct (Hw eq_refl) as [->| ->]; [|rewrite app_nil_r in Hb; subst; lia]. simpl in Hb. subst. specialize (Hm1 eq_refl). lia.
    + exfalso. destruct Hs as [_ Hu]. rewrite Hd, Hu in Hb. simpl in Hb. rewrite app_nil_r in Hb. subst. lia.
  - symmetry in Hb. apply app_nil in Hb as [_ [_ Hb]%app_nil]. apply app_nil in Hb as [Hr [_ [Hu _]%app_nil]%app_nil].
    destruct (srv s) as [got|r'| |] eqn:Esrv; echo; [left; by eapply can_server_end|done|by right|done].
Qed.
Lemma echo_complete :
  (∀ n s, nsteps echo_step n (echo_new ms) s → (n ≤ 4 * esum ms + 1)%nat) ∧
  ∀ s, rtc echo_step (echo_new ms) s → (∃ s', echo_step s s') ∨ cli s = p_end ∧ srv s = s_done ∧ echoed s = ms.
Proof.
  destruct EI_new as [I0 Hw]. split.
  - intros n s H. rewrite <- Hw. enough (n + eweight s ≤ eweight (echo_new ms))%nat by lia.
    revert I0. clear Hw. induction H as [s|n s1 s2 s3 Hs H IH]; intros I; [lia|]. destruct (echo_step_ok _ _ I Hs) as [I2 Hlt]. specialize (IH I2). lia.
  - intros s H. assert (EI s) as I. { revert s H. apply rtc_ind_r; [done|]. intros s s' _ I Hs. by eapply echo_step_ok. }
    destruct (echo_progress s I) as [|[E1 E2]]; [by left|right]. split_and!; [done|done|]. pose proof (ei_todo _ I) as Ht. rewrite E1, app_nil_r in Ht. done.
Qed.
End run.
End echo.

(** ** The programs *)
(** examples/echo.cpp: "Hello, TCP!", a buffer of 1024 bytes *)
Definition hello : list Z := [72; 101; 108; 108; 111; 44; 32; 84; 67; 80; 33].
Definition hello_step (cap : nat) : relation net := echo_step 1024 false true cap "echo mismatch".
(** bench/tcp.cpp: the warm-up and [count] round trips of [size] bytes *)
Definition rounds (count : nat) : nat := count `min` 1000 + count.
Definition tcp_messages (count size : nat) : list (list Z) := replicate (rounds count) (replicate size 42).
Definition tcp_step (size cap : nat) : relation net := echo_step size true false cap "payload mismatch".

(** C20: the echo programs answer every byte and then end.  With whatever short reads and
    writes the connection makes and whatever schedule, the benchmark of bench/tcp.cpp, whose
    server reads whole messages, ends for every room of the connection; examples/echo.cpp,
    which replies to every read, where the room is at least its message.  Neither reports a
    mismatch, an unexpected end or a partial message, and neither blocks. *)
Theorem echo_programs :
  (∀ cap, (11 ≤ cap)%nat →
    (∀ n s, nsteps (hello_step cap) n (echo_new [hello]) s → (n ≤ 45)%nat) ∧
    ∀ s, rtc (hello_step cap) (echo_new [hello]) s → (∃ s', hello_step cap s s') ∨ cli s = p_end ∧ srv s = s_done ∧ echoed s = [hello]) ∧
  (∀ count size cap, (1 ≤ size)%nat → (1 ≤ cap)%nat →
    (∀ n s, nsteps (tcp_step size cap) n (echo_new (tcp_messages count size)) s → (n ≤ 4 * (rounds count * size) + 1)%nat) ∧
    ∀ s, rtc (tcp_step size cap) (echo_new (tcp_messages count size)) s →
      (∃ s', tcp_step size cap s s') ∨ cli s = p_end ∧ srv s = s_done ∧ echoed s = tcp_messages count size).
Proof.
  split.
  - intros cap Hcap. apply (echo_complete 1024 false true cap "echo mismatch" [hello]); [lia|lia|]. apply Forall_singleton. done.
  - intros count size cap Hs Hcap. destruct (echo_complete size true false cap "payload mismatch" (tcp_messages count size)) as [H1 H2]; [lia|lia| |].
    { apply Forall_replicate. split_and!; [by destruct size; [lia|]|intros _; apply length_replicate|done]. }
    split; [|exact H2]. intros n s H. apply H1 in H. assert (∀ n, esum (replicate n (replicate size 42%Z)) = n * size)%nat as E.
    { intros k. unfold esum. induction k as [|k IH]; simpl; [done|]. by rewrite IH, length_replicate. }
    unfold tcp_messages in H. rewrite E in H. done.
Qed.
Lemma echo_programs_witness : (1 ≤ 3 ∧ 1 ≤ 4)%nat ∧
  ∀ s, rtc (tcp_step 3 4) (echo_new (tcp_messages 2 3)) s → (∃ s', tcp_step 3 4 s s') ∨ echoed s = tcp_messages 2 3.
Proof.
  split; [lia|]. intros s H. destruct (proj2 (proj2 echo_programs 2%nat 3%nat 4%nat ltac:(lia) ltac:(lia)) s H) as [?|(_&_&?)]; [by left|by right].
Defined.

(** Why bench/tcp.cpp reads whole messages: a server that replies to every read blocks with
    a client that writes a message longer than the connection and both buffers hold. *)
Example crossed_writes_block :
  let step := echo_step 1 false false 1 "payload mismatch" in
  let stuck := Net (s_write [2]) (p_write [4] [1; 2; 3; 4] []) [3] false [1] [] in
  rtc step (echo_new [[1; 2; 3; 4]]) stuck ∧ ∀ s, ¬ step stuck s.
Proof.
  intros step stuck. split.
  - apply (rtc_l _ _ (Net (s_read []) (p_write [2; 3; 4] [1; 2; 3; 4] []) [1] false [] [])); [exists 1%nat; right; right; left; vm_compute; reflexivity|].
    apply (rtc_l _ _ (Net (s_write [1]) (p_write [2; 3; 4] [1; 2; 3; 4] []) [] false [] [])); [exists 1%nat; left; vm_compute; reflexivity|].
    apply (rtc_l _ _ (Net (s_read []) (p_write [2; 3; 4] [1; 2; 3; 4] []) [] false [1] [])); [exists 1%nat; right; left; vm_compute; reflexivity|].
    apply (rtc_l _ _ (Net (s_read []) (p_write [3; 4] [1; 2; 3; 4] []) [2] false [1] [])); [exists 1%nat; right; right; left; vm_compute; reflexivity|].
    apply (rtc_l _ _ (Net (s_write [2]) (p_write [3; 4] [1; 2; 3; 4] []) [] false [1] [])); [exists 1%nat; left; vm_compute; reflexivity|].
    apply rtc_once. exists 1%nat. right. right. left. vm_compute. reflexivity.
  - intros s (k&[H|[H|[H|H]]]); [done| | |done]; unfold server_write, client_write in H; simpl in H; case_bool_decide; [lia|done|lia|done].
Qed.
