(* ===== verification/Rx.v ===== *)
(** * Receive throughput (bench/rx.cpp)

    A thread connects, sends [count] blocks, whatever short sends it gets, and closes the
    connection; the receiver accepts it under a deadline, checks every byte and the number
    of bytes at the end, and [measure] reports what went wrong.  The results of the system
    calls, the sizes of the chunks received and the moment of the deadline are any
    schedule's choice. *)
From S2P Require Import Prelude Bench.
From stdpp Require Import relations.
Local Open Scope Z_scope.

(** The sender: before [socket], before [connect], in block [i] at [offset], or closed, after
    an error or all blocks *)
Inductive sender := t_socket | t_connect | t_send (i offset : Z) | t_closed (error : option exn).
(** The receiver: in [accept], reading with its total, or ended *)
Inductive receiver := r_accept | r_read (total : Z) | r_end (error : option exn).
(** Both, whether they are connected, and the bytes between them *)
Record link := Link { snd_ : sender; connected : bool; wire : list Z; rcv : receiver }.

Definition mismatch : exn := runtime_error "received byte count mismatch".
Definition send_failed : exn := runtime_error "sender send failed".

Section rx.
(** [chunk]: the most bytes of one receive, the buffer's size or that of a bundle; [room]:
    the bytes the connection holds before [send] blocks *)
Variables (count size chunk room : Z).
Implicit Types s : link.

(** [::socket] and [::connect], and whether they succeed *)
Definition rx_socket (ok : bool) s : option link :=
  match snd_ s with
  | t_socket => Some (Link (if ok then t_connect else t_closed (Some (runtime_error "sender socket failed"))) (connected s) (wire s) (rcv s))
  | _ => None
  end.
Definition first_send : sender := if bool_decide (0 < count) then t_send 0 0 else t_closed None.
Definition rx_connect (ok : bool) s : option link :=
  match snd_ s with
  | t_connect =>
      if ok then Some (Link first_send true (wire s) (rcv s))
      else Some (Link (t_closed (Some (runtime_error "sender connect failed"))) (connected s) (wire s) (rcv s))
  | _ => None
  end.
(** [for (i < count) { offset = 0; while (offset != size) ... }], up to the next [send] *)
Definition next_send (i offset : Z) : sender :=
  if bool_decide (offset ≠ size) then t_send i offset
  else if bool_decide (i + 1 < count) then t_send (i + 1) 0 else t_closed None.
(** One [send], answered [n]; it blocks while the connection is full *)
Definition rx_send (n : Z) s : option link :=
  match snd_ s with
  | t_send i offset =>
      if bool_decide (n ≤ 0) then Some (Link (t_closed (Some send_failed)) (connected s) (wire s) (rcv s))
      else if bool_decide (n ≤ size - offset ∧ Z.of_nat (length (wire s)) + n ≤ room) then
        Some (Link (next_send i (offset + n)) (connected s) (wire s ++ replicate (Z.to_nat n) 42) (rcv s))
      else None
  | _ => None
  end.
(** [co_await listener.accept(token)] *)
Definition rx_accept s : option link :=
  match rcv s with
  | r_accept => if connected s then Some (Link (snd_ s) true (wire s) (r_read 0)) else None
  | _ => None
  end.
(** [consume]: the bytes checked, then counted *)
Definition rx_consume (data : list Z) (total : Z) : exn + Z :=
  if forallb (λ b, bool_decide (b = 42)) data then inr (u64 (total + Z.of_nat (length data))) else inl (runtime_error "payload mismatch").
(** One receive of [k] bytes; none at the end of the stream *)
Definition rx_receive (k : nat) s : option link :=
  match rcv s with
  | r_read total =>
      if bool_decide (wire s = []) then
        match snd_ s with
        | t_closed _ => Some (Link (snd_ s) (connected s) (wire s) (r_end (if bool_decide (total ≠ u64 (count * size)) then Some mismatch else None)))
        | _ => None
        end
      else if bool_decide (1 ≤ Z.of_nat k ≤ chunk ∧ (k ≤ length (wire s))%nat) then
        Some (Link (snd_ s) (connected s) (drop k (wire s))
               (match rx_consume (take k (wire s)) total with inr t => r_read t | inl e => r_end (Some e) end))
      else None
  | _ => None
  end.
(** The receiver is cut off: by the deadline of [snowy::timeout], which makes it throw
    [timed_out], or by a failing [accept] or [read] *)
Definition rx_cut (code : errc) s : option link :=
  match rcv s with
  | r_end _ => None
  | _ => Some (Link (snd_ s) (connected s) (wire s) (r_end (Some (system_error code))))
  end.
Definition rx_deadline : link → option link := rx_cut timed_out.
(** [measure], when both have ended: [loop.run] throws what the receiver threw; otherwise
    the error of the sender is rethrown *)
Definition rx_result s : option (option exn) :=
  match snd_ s, rcv s with
  | t_closed err, r_end e => Some (match e with Some e => Some e | None => err end)
  | _, _ => None
  end.

Definition rx_step : relation link := λ s s',
  (∃ ok, rx_socket ok s = Some s') ∨ (∃ ok, rx_connect ok s = Some s') ∨ (∃ n, rx_send n s = Some s') ∨
  rx_accept s = Some s' ∨ (∃ k, rx_receive k s = Some s') ∨ rx_deadline s = Some s' ∨ ∃ code, rx_cut code s = Some s'.
Definition rx_new : link := Link t_socket false [] r_accept.
(** The steps that need neither the deadline nor the failure of a call, but for a [send] to a
    receiver that has closed the connection *)
Definition rx_live s : Prop := ∃ s',
  rx_socket true s = Some s' ∨ rx_connect true s = Some s' ∨ (∃ n, 0 < n ∧ rx_send n s = Some s') ∨
  rx_accept s = Some s' ∨ (∃ k, rx_receive k s = Some s').

Hypothesis sizes : 0 < count < 2 ^ 32 ∧ 0 < size < 2 ^ 32 ∧ 0 < chunk ∧ 0 < room.

(** The bytes sent: all of them if the sender closed without an error, and none unless it is
    connected. *)
Definition sent_ok (sd : sender) (on : bool) (n : Z) : Prop :=
  match sd with
  | t_socket | t_connect => on = false ∧ n = 0
  | t_send i offset => on = true ∧ 0 ≤ i < count ∧ 0 ≤ offset < size ∧ n = i * size + offset
  | t_closed None => on = true ∧ n = count * size
  | t_closed (Some e) => if on then e = send_failed ∧ 0 ≤ n < count * size else n = 0
  end.
Definition pending (sd : sender) : Z := match sd with t_socket => 3 | t_connect => 2 | t_send _ _ => 1 | t_closed _ => 0 end.
Definition reading (rc : receiver) : Z := match rc with r_accept => 2 | r_read _ => 1 | r_end _ => 0 end.
Definition rcv_ok (rc : receiver) (sd : sender) (on : bool) (total : Z) : Prop :=
  match rc with
  | r_accept => total = 0
  | r_read t => t = total ∧ on = true
  | r_end None => on = true ∧ sd = t_closed None
  | r_end (Some e) => (e = mismatch ∧ on = true ∧ sd = t_closed (Some send_failed)) ∨ ∃ code, e = system_error code
  end.
(** As long as the sender is not done, the receiver has not judged it. *)
Lemma rcv_keep rc sd on total sd' on' :
  rcv_ok rc sd on total → on = false ∨ pending sd ≠ 0 → (on = true → on' = true) → rcv_ok rc sd' on' total.
Proof.
  intros Hc Hsd Hon. destruct rc as [|t|[e|]]; simpl in *; [done|naive_solver| |].
  - destruct Hc as [(_&->&->)|?]; [|by right]. by destruct Hsd.
  - destruct Hc as [-> ->]. by destruct Hsd.
Qed.
(** [n] bytes sent, [total] received. *)
Record XI s (n total : Z) : Prop := {
  xi_sent : sent_ok (snd_ s) (connected s) n;
  xi_range : 0 ≤ total;
  xi_wire : total + Z.of_nat (length (wire s)) = n ∧ Forall (λ b, b = 42) (wire s);
  xi_rcv : rcv_ok (rcv s) (snd_ s) (connected s) total }.
Definition xweight (n total : Z) s : Z := 2 * (count * size - n) + (n - total) + pending (snd_ s) + reading (rcv s).

Lemma product_bound : 0 < count * size < 2 ^ 64.
Proof. destruct sizes as (?&?&_). split; [lia|]. assert (count * size ≤ (2 ^ 32 - 1) * (2 ^ 32 - 1)) by (apply Z.mul_le_mono_nonneg; lia). lia. Qed.
Lemma sent_bound sd on n : sent_ok sd on n → 0 ≤ n ≤ count * size.
Proof. pose proof product_bound. destruct sd as [| |i o|[]]; simpl; [nia..| |nia]. destruct on; nia. Qed.
Lemma next_send_ok i offset : 0 ≤ i < count → 0 < offset ≤ size → sent_ok (next_send i offset) true (i * size + offset).
Proof. intros Hi Ho. unfold next_send. repeat case_bool_decide; simpl; split_and!; try done; nia. Qed.

(** A step of the sender before it sends, and of the receiver before it reads *)
Definition shrinks s s' n total : Prop := ∃ n' total', XI s' n' total' ∧ xweight n' total' s' < xweight n total s.
Lemma rx_connect_ok ok s s' n total : XI s n total → rx_socket ok s = Some s' ∨ rx_connect ok s = Some s' → shrinks s s' n total.
Proof.
  destruct s as [sd on w rc]. intros [Hs Hr [Hw Hb] Hc] H. unfold rx_socket, rx_connect, first_send in H. simpl in *.
  rewrite (bool_decide_true (0 < count)) in H by lia.
  unfold shrinks. exists n, total. destruct sd as [| |i o|]; [| |by destruct H..]; destruct Hs as [-> ->].
  - destruct H as [[= <-]|H]; [|done]. split; [|unfold xweight; destruct ok; simpl; lia].
    split; simpl; [by destruct ok|done|done|]. eapply rcv_keep; [exact Hc|by left|done].
  - destruct H as [H|H]; [done|]. destruct ok; injection H as <-; (split; [|unfold xweight; simpl; lia]);
      (split; simpl; [|done|done|eapply rcv_keep; [exact Hc|by left|done]]); [|done]. split_and!; lia || done.
Qed.
Lemma rx_send_ok k s s' n total : XI s n total → rx_send k s = Some s' → shrinks s s' n total.
Proof.
  destruct s as [sd on w rc]. intros [Hs Hr [Hw Hb] Hc] H. unfold rx_send in H. simpl in *. destruct sd as [| |i o|]; try done.
  destruct Hs as (->&Hi&Ho&->).
  assert (∀ sd', rcv_ok rc sd' true total) as Hsame by (intros sd'; eapply rcv_keep; [exact Hc|by right|done]).
  unfold shrinks. case_bool_decide as Hk.
  - injection H as <-. exists (i * size + o), total. split; [|unfold xweight; simpl; lia].
    split; simpl; [split; [done|nia]|done|done|apply Hsame].
  - case_bool_decide as Hk2; [|done]. injection H as <-. exists (i * size + (o + k)), total. split.
    + split; simpl; [apply next_send_ok; lia|done| |apply Hsame]. rewrite length_app, length_replicate. split; [lia|].
      apply Forall_app. split; [done|]. by apply Forall_replicate.
    + unfold xweight. simpl. assert (pending (next_send i (o + k)) ≤ 1) by (unfold next_send; by repeat case_bool_decide). lia.
Qed.
Lemma rx_consume_ok data total : Forall (λ b, b = 42) data → rx_consume data total = inr (u64 (total + Z.of_nat (length data))).
Proof.
  intros H. unfold rx_consume. assert (forallb (λ b, bool_decide (b = 42)) data = true) as ->; [|done].
  induction H as [|b data -> H IH]; simpl; [done|]. exact IH.
Qed.
Lemma rx_receive_ok k s s' n total : XI s n total → rx_receive k s = Some s' → shrinks s s' n total.
Proof.
  destruct s as [sd on w rc]. intros [Hs Hr [Hw Hb] Hc] H. unfold rx_receive in H. simpl in *. destruct rc as [|t|]; try done. destruct Hc as [-> ->].
  pose proof product_bound as Hp. pose proof (sent_bound _ _ _ Hs) as Hn. unfold shrinks. case_bool_decide as He.
  - subst w. destruct sd as [| | |err]; try done. injection H as <-. exists n, total. split; [|unfold xweight; simpl; lia]. split; simpl; try done.
    simpl in Hw. unfold u64. rewrite (Z.mod_small (count * size)) by lia. simpl in Hs.
    destruct err as [e|]; case_bool_decide as Ht; try done; [|destruct Hs; lia..]. left. by destruct Hs as [-> _].
  - case_bool_decide as Hk; [|done]. destruct Hk as [Hk1 Hk2]. injection H as <-. exists n, (total + Z.of_nat k).
    rewrite rx_consume_ok by (by apply Forall_take). rewrite length_take, Nat.min_l by done. unfold u64. rewrite Z.mod_small by lia. split.
    + split; simpl; try done; [lia|]. rewrite length_drop. split; [lia|by apply Forall_drop].
    + unfold xweight. simpl. lia.
Qed.
Lemma rx_cut_ok code s s' n total : XI s n total → rx_accept s = Some s' ∨ rx_cut code s = Some s' → shrinks s s' n total.
Proof.
  destruct s as [sd on w rc]. intros [Hs Hr [Hw Hb] Hc] H. unfold rx_accept, rx_cut in H. simpl in *. unfold shrinks. exists n, total.
  destruct rc as [|t|]; [|destruct H as [|[= <-]]; [done|]|by destruct H].
  - destruct H as [H|[= <-]]; [destruct on; [|done]; injection H as <-|];
      (split; [split; simpl; try done; by eauto|unfold xweight; simpl; lia]).
  - split; [split; simpl; try done; by eauto|unfold xweight; simpl; lia].
Qed.
Lemma rx_step_ok s s' n total : XI s n total → rx_step s s' → shrinks s s' n total.
Proof.
  intros I [[ok H]|[[ok H]|[[k H]|[H|[[k H]|[H|[code H]]]]]]];
    [by eapply rx_connect_ok; [|left]|by eapply rx_connect_ok; [|right]|by eapply rx_send_ok| |by eapply rx_receive_ok|..];
    [by eapply (rx_cut_ok timed_out); [|left]|by eapply rx_cut_ok; [|right]..].
Qed.
Lemma XI_new : XI rx_new 0 0.
Proof. split; simpl; try done; lia. Qed.

(** What keeps a run from going on by itself: it has ended, the receiver waits for a sender
    that has failed before it was connected, or the receiver has been cut off. *)
Lemma rx_progress s n total : XI s n total →
  rx_live s ∨ is_Some (rx_result s) ∨
  (connected s = false ∧ rcv s = r_accept ∧ ∃ e, snd_ s = t_closed (Some e)) ∨
  (∃ i o code, snd_ s = t_send i o ∧ rcv s = r_end (Some (system_error code))).
Proof.
  destruct s as [sd on w rc]. intros [Hs Hr [Hw Hb] Hc]. unfold rx_live, rx_result. simpl in *. destruct sd as [| |i o|err].
  - left. eexists. left. done.
  - left. eexists. right; left. done.
  - destruct Hs as (->&Hi&Ho&->). destruct rc as [|t|[e|]].
    + left. eexists. do 3 right. left. done.
    + destruct (decide (w = [])) as [->|Hw0].
      * left. eexists. do 2 right. left. exists 1. split; [lia|]. unfold rx_send. simpl. rewrite bool_decide_true by lia. done.
      * left. eexists. do 4 right. exists 1%nat. unfold rx_receive. simpl. rewrite bool_decide_false by done.
        rewrite bool_decide_true; [done|]. destruct w; [done|]. simpl. lia.
    + do 3 right. destruct Hc as [(_&_&?)|[code ->]]; [done|by eauto].
    + by destruct Hc.
  - destruct rc as [|t|e]; [|left|right; left; by eauto].
    + destruct on; [left; eexists; do 3 right; left; done|]. right. right. left. split_and!; [done|done|]. simpl in Hs. destruct err; [by eauto|by destruct Hs].
    + destruct w as [|b w]; eexists; do 4 right; exists 1%nat; unfold rx_receive; cbn [rcv wire snd_ connected]; [by rewrite (bool_decide_true ([] = []))|].
      rewrite bool_decide_false, bool_decide_true by (done || simpl; lia). done.
Qed.
End rx.

(** C23: what [measure] of bench/rx.cpp makes of a run, whatever the results of the calls, the
    chunks, the interleaving and the moment of the deadline.  Every run ends within
    [2 * count * size + 5] steps.  It succeeds only if every byte was sent, and if every byte
    was sent it fails only because the receiver was cut off, by the deadline or by an error
    of [accept] or [read]; it reports a count mismatch only if the sender was connected and
    failed before it had sent everything, and in that case it reports either that or what
    cut the receiver off.  A sender that fails to open or to connect its socket leaves the
    receiver in [accept] until it is cut off, and that is what is reported, the error of the
    sender being lost.  A wrong byte is never seen.  As long as it has not ended, a run can go
    on by itself, unless the receiver waits for a sender that was never connected, in which
    case the deadline ends it with [timed_out], or has been cut off while the sender still
    sends. *)
Theorem rx_detects count size chunk room : 0 < count < 2 ^ 32 ∧ 0 < size < 2 ^ 32 ∧ 0 < chunk ∧ 0 < room →
  (∀ n s, nsteps (rx_step count size chunk room) n rx_new s → Z.of_nat n ≤ 2 * (count * size) + 5) ∧
  ∀ s, rtc (rx_step count size chunk room) rx_new s →
    match rx_result s with
    | Some None => connected s = true ∧ snd_ s = t_closed None
    | Some (Some e) =>
        (e = mismatch ∧ connected s = true ∧ snd_ s = t_closed (Some send_failed)) ∨ ∃ code, rcv s = r_end (Some (system_error code)) ∧ e = system_error code
    | None => True
    end ∧
    (connected s = false → rcv s = r_accept ∨ ∃ code, rcv s = r_end (Some (system_error code))) ∧
    (rx_live count size chunk room s ∨ is_Some (rx_result s) ∨
     (connected s = false ∧ rcv s = r_accept ∧ (∃ e, snd_ s = t_closed (Some e)) ∧
        ∃ s', rx_deadline s = Some s' ∧ rx_result s' = Some (Some (system_error timed_out))) ∨
     (∃ i o code, snd_ s = t_send i o ∧ rcv s = r_end (Some (system_error code)))).
Proof.
  intros H. split.
  - assert (∀ s0 s k n total, XI count size s0 n total → nsteps (rx_step count size chunk room) k s0 s → Z.of_nat k ≤ xweight count size n total s0) as Hk.
    { intros s0 s k n total I Hs. revert n total I. induction Hs as [s|k s1 s2 s3 Hs Hr IH]; intros n total I.
      - destruct I as [I1 I2 [I3 _] _]. pose proof (sent_bound count size chunk room H _ _ _ I1). unfold xweight. destruct (snd_ s), (rcv s); simpl; lia.
      - destruct (rx_step_ok count size chunk room H _ _ _ _ I Hs) as (n'&total'&I'&Hlt). specialize (IH _ _ I'). lia. }
    intros n s Hs. apply (Hk _ _ _ _ _ (XI_new count size)) in Hs. unfold xweight in Hs. simpl in Hs. lia.
  - intros s Hs. assert (∃ n total, XI count size s n total) as (n&total&I).
    { revert s Hs. apply rtc_ind_r; [exists 0, 0; by eapply XI_new|]. intros s s' _ Hs (n&total&I).
      destruct (rx_step_ok count size chunk room H _ _ _ _ I Hs) as (n'&t'&I'&_). eauto. }
    pose proof (rx_progress count size chunk room H s n total I) as Hp. destruct I as [Is Ir [Iw _] Ic]. split_and!.
    + unfold rx_result. destruct (snd_ s) as [| | |err] eqn:E; try done. destruct (rcv s) as [|t|[e|]]; try done; [|by destruct Ic as [-> [= ->]]].
      destruct Ic as [?|[code ->]]; [by left|right; eauto].
    + intros Ho. rewrite Ho in Ic. destruct (rcv s) as [|t|[e|]]; [by left|by destruct Ic|right|by destruct Ic]. destruct Ic as [(_&?&_)|[code ->]]; [done|eauto].
    + destruct Hp as [?|[?|[(?&Hrc&e&He)|?]]]; [by left|by right; left| |by do 3 right]. do 2 right. left.
      split_and!; [done|done|by eauto|]. unfold rx_deadline, rx_cut, rx_result. rewrite Hrc, He. by eexists.
Qed.
Lemma rx_detects_witness : (0 < 3 < 2 ^ 32 ∧ 0 < 2048 < 2 ^ 32 ∧ 0 < 2048 ∧ 0 < 4096) ∧
  ∀ s, rtc (rx_step 3 2048 2048 4096) rx_new s → connected s = false → rcv s = r_accept ∨ ∃ code, rcv s = r_end (Some (system_error code)).
Proof.
  split; [lia|]. destruct (rx_detects 3 2048 2048 4096) as [_ H]; [lia|]. intros s Hs. apply (H s Hs).
Defined.

(** One block of two bytes, sent and received one by one; the same with a second send that
    fails; and a sender that cannot connect *)
Definition runs_to (fs : list (link → option link)) : option link := foldl (λ s f, s ≫= f) (Some rx_new) fs.
Definition opened : list (link → option link) := [rx_socket true; rx_connect 1 true; rx_accept].
Example rx_complete :
  runs_to (opened ++ [rx_send 1 2 10 1; rx_receive 1 2 10 1; rx_send 1 2 10 1; rx_receive 1 2 10 1; rx_receive 1 2 10 1]) ≫= rx_result = Some None.
Proof. vm_compute. reflexivity. Qed.
Example rx_lost : runs_to (opened ++ [rx_send 1 2 10 1; rx_send 1 2 10 0; rx_receive 1 2 10 1; rx_receive 1 2 10 1]) ≫= rx_result = Some (Some mismatch).
Proof. vm_compute. reflexivity. Qed.
Example rx_unconnected : runs_to [rx_socket true; rx_connect 1 false; rx_deadline] ≫= rx_result = Some (Some (system_error timed_out)).
Proof. vm_compute. reflexivity. Qed.
