(* ===== verification/Futex.v ===== *)
(** * Futexes (include/snowy/futex.hpp)

    Atomic-value wait and notify over a [wait_queue].  The observed atomic is a cell
    of the world, owned by the client; the check of its value and the insertion
    into the queue are one critical section. *)
From S2P Require Import Prelude ReadyQueue Links Heap Core Loop LoopInv LoopSpec WaitQueue.

Section futex.
Context {D : Type}.
Local Abbreviation M := (M (world D)).
Implicit Types (x q : loc) (w : world D) (g : ghost) (gq : loc → list loc).

(** [futex::awaiter]: the queue and the atomic come from the futex, [old] from the
    call; [cancelable] is false for [join]. *)
Definition futex_construct x q (L : loopid) (t : token) (cancelable : bool) : M unit :=
  remote_construct x q L t ;;
  upd_wait x (λ v, Wait cancelable (wait_interrupt v)).

(** [bool awaiter::await_suspend(std::coroutine_handle<> h)] *)
Definition futex_await_suspend (value : loc) (old : Z) x (h : coro) : M bool :=
  o ← the_op x;
  v ← the_wait x;
  check (op_owner o) ;;
  c ← (if wait_interruptible v then canceled_now x else mret false);
  if c : bool then mret false else
    cur ← the_cell value;
    if bool_decide (cur = old) then enqueue x h else mret false.

(** [void notify_one()], [void notify_all()] *)
Definition notify_one q : M unit :=
  f ← remote_front q;
  match f with Some x => deliver x None | None => mret tt end.
Definition notify_all q : M unit := drain q (λ _, mret None).

Definition pruned w x : option errc := if doomed w x then Some operation_canceled else None.

(** C36: [notify_all] empties the queue: every linked waiter is sent to its owner loop exactly
    once, in queue order, without an error unless it has been canceled. *)
Theorem notify_all_spec Y w g gq q :
  Inv ∅ w g → WInv Y w g gq → is_Some (w_queues w !! q) →
  runs (notify_all q) w (λ _ w', released Y w w' g gq q (pruned w) (gq q) []).
Proof. intros I W Hq. unfold notify_all. by apply (drain_spec Y w g gq q _ (λ _, None)). Qed.

(** [notify_one] sends the longest waiting live waiter, after the canceled ones in front
    of it; the rest of the queue keeps waiting in order. *)
Theorem notify_one_spec Y w g gq q :
  Inv ∅ w g → WInv Y w g gq → is_Some (w_queues w !! q) →
  runs (notify_one q) w (λ _ w',
    let dead := take_while (doomed w) (gq q) in
    match drop_while (doomed w) (gq q) with
    | [] => released Y w w' g gq q (pruned w) dead []
    | x :: rest => released Y w w' g gq q (pruned w) (dead ++ [x]) rest
    end).
Proof.
  intros I W Hq. unfold notify_one. apply post_bind.
  eapply post_mono; [by apply (remote_front_spec Y w g gq q I W Hq)| |done].
  intros res w1 [-> R]. cbv zeta in *. pose proof (take_drop_while (doomed w) (gq q)) as Hsplit.
  assert (R' : released Y w w1 g gq q (pruned w) (take_while (doomed w) (gq q)) (drop_while (doomed w) (gq q))).
  { eapply released_ext, R. intros x Hx. unfold pruned. by rewrite (elem_of_take_while _ _ _ Hx). }
  destruct (drop_while (doomed w) (gq q)) as [|x rest] eqn:Hd; simpl; [by apply post_ret|].
  assert (head (drop_while (doomed w) (gq q)) = Some x) as [_ Hx]%head_drop_while by (by rewrite Hd).
  pose proof (deliver_released Y w1 (g_delivers w (take_while (doomed w) (gq q)) g) (upd_at q (λ _, x :: rest) gq)
    q x rest (pruned w)) as Hdel. replace (pruned w x) with (@None errc) in Hdel by (unfold pruned; by rewrite Hx).
  eapply post_mono; [apply Hdel| |done]; [apply R'|apply R'|by rewrite upd_at_eq|by apply R'|].
  intros [] w2 R2. destruct Hq as [v Hv]. destruct (wi_rep _ _ _ _ W _ _ Hv) as [Hrep _].
  apply dl_rep_NoDup in Hrep. rewrite <- Hsplit in Hrep.
  eapply released_app; [| |exact R'|exact R2].
  - replace (take_while (doomed w) (gq q) ++ x :: rest) with ((take_while (doomed w) (gq q) ++ [x]) ++ rest) in Hrep
      by (by rewrite <- app_assoc). by apply NoDup_app in Hrep as (?&_&_).
  - intros y Hy. rewrite <- Hsplit. set_solver.
Qed.

(** Waiting on a futex suspends exactly when the wait is not canceled and the value is
    still [old] at the moment the waiter is linked, so that a notification after a change
    of the value cannot be missed. *)
Theorem futex_await_suspend_spec Y w g gq x r o v l k h value cur old :
  Inv ∅ w g → WInv Y w g gq → w_remotes w !! x = Some r → rw_linked r = false → w_ops w !! x = Some o →
  w_waits w !! x = Some v → fresh_wait w g x → w_rlinks w !! x = Some k → l_next k = None →
  x ∉ Y → w_loops w !! op_owner o = Some l → l_thread l = w_thread w → w_cells w !! value = Some cur →
  runs (futex_await_suspend value old x h) w (λ b w',
    if wait_interruptible v && (l_stopping l || requested w (rw_token r))
    then b = false ∧ w' = set_w_ops (<[x := refused o]> (w_ops w)) w
    else if bool_decide (cur = old)
    then b = true ∧ Inv ∅ w' (g_park (op_owner o) x g) ∧
         WInv Y w' (g_park (op_owner o) x g) (upd_at (rw_queue r) (λ xs, xs ++ [x]) gq) ∧
         op_active <$> w_ops w' !! x = Some true
    else b = false ∧ w' = w).
Proof.
  intros I W Hr Hl Ho Hv Hf Hk Hn HY HL Ht Hc. unfold futex_await_suspend. step. step.
  apply post_bind. eapply post_check; [done..|]. apply post_bind.
  assert (Hcn : post (if wait_interruptible v then canceled_now x else mret false) w
    (λ c w', c = wait_interruptible v && (l_stopping l || requested w (rw_token r)) ∧
       w' = if c : bool then set_w_ops (<[x := refused o]> (w_ops w)) w else w) (λ _ _, False)).
  { destruct (wait_interruptible v); [|by apply post_ret]. unfold post.
    rewrite (canceled_now_run _ _ _ _ _ Ho Hr HL Ht). by destruct (l_stopping l || requested w (rw_token r)). }
  eapply post_mono; [exact Hcn| |done]. intros c w1 [-> ->].
  destruct (wait_interruptible v && (l_stopping l || requested w (rw_token r))) eqn:Hs; [by apply post_ret|].
  step. case_bool_decide; [|by apply post_ret].
  eapply post_mono; [by eapply (enqueue_spec Y w g gq x r o v l k h)| |done].
  intros [] w'; [|intros (Hi&Hs'&_); rewrite Hi, Hs' in Hs; done].
  intros (_&I'&W'&Hops&_). split_and!; [done..|]. rewrite Hops, lookup_insert_eq. unfold armed.
  by destruct (wait_interruptible v), (possible w (rw_token r)).
Qed.
End futex.
