(* ===== verification/Io.v ===== *)
(** * Native requests (include/snowy/detail/io.hpp, src/loop.cpp)

    Submission, completion and rollback of a request.  The native queue behind a
    loop is reached through the interface [Driver]; what the portable code relies on
    is stated by [DriverOk] and discharged by the io_uring backend in [Uring]. *)
From S2P Require Import Prelude ReadyQueue Links Heap Core Loop LoopInv LoopSpec Event.

(** ** The driver interface: [loop::submit], [loop::cancel], [loop::poll] *)
Class Driver (D : Type) := {
  submit : loopid → loc → M (world D) unit;
  cancel : loopid → loc → M (world D) unit;
  poll : loopid → Z → M (world D) unit }.

Section io.
Context {D : Type} `{!Driver D}.
Local Abbreviation M := (M (world D)).
Implicit Types (x : loc) (L : loopid) (w : world D) (g : ghost).

(** ** Operations *)

(** The [retire] hooks of [uring::zc_send] and of a batch entry, both [noexcept]. *)
Definition retire_hook (r : retire_fn) : M unit :=
  nothrow (match r with
           | retire_zc sent released => event_signal sent ;; event_signal released
           | retire_entry pending done =>
               upd_cell pending (λ n, n - 1)%Z ;;
               n ← the_cell pending;
               when (bool_decide (n = 0%Z)) (event_signal done)
           end).

(** [void loop::complete(detail::io& op) noexcept] *)
Definition complete L x : M unit :=
  on_ios L (unlink_front x) ;;
  i ← the_io x;
  match io_retire i with
  | Some r =>
      upd_op x (set_op_callback None) ;;
      upd_op x (set_op_active false) ;;
      retire_hook r
  | None => finish L x
  end.

(** [if (next) next->prev = nullptr; owner.io_ = next;] *)
Definition unlink_head x : Prelude.M (dl_mem loc) unit :=
  k ← deref (λ m, dl_links m !! x);
  (match l_next k with Some n => set_prev n None | None => mret tt end) ;;
  set_first (l_next k).

(** [bool io::await_suspend(std::coroutine_handle<> h)] *)
Definition is_stream (c : opcode) : bool := bool_decide (c = op_read) || bool_decide (c = op_write).
Definition io_await_suspend x (h : coro) : M bool :=
  o ← the_op x;
  i ← the_io x;
  let L := op_owner o in
  check L ;;
  used ← match io_busy i with Some f => the_flag f | None => mret false end;
  if used : bool then throw (logic_error "socket direction already in use") else
    armed ← arm L x (io_token i);
    if negb armed then mret false else
      (match io_busy i with
       | Some f => upd_flag f (λ _, true) ;; upd_io x (set_io_reserved true)
       | None => mret tt
       end) ;;
      upd_work x (set_work_handle (Some h)) ;;
      on_ios L (link_front x) ;;
      try_catch
        (if bool_decide (io_size i = 0%Z) && is_stream (io_code i) then complete L x else submit L x)
        (λ e,
          on_ios L (unlink_head x) ;;
          upd_op x (set_op_callback None) ;;
          upd_op x (set_op_active false) ;;
          throw e) ;;
      mret true.

(** [std::size_t io::await_resume()] *)
Definition release_direction x : M unit :=
  i ← the_io x;
  if io_reserved i
  then match io_busy i with Some f => upd_flag f (λ _, false) | None => undefined end
  else mret tt.
Definition io_await_resume x : M Z :=
  release_direction x ;;
  upd_io x (set_io_reserved false) ;;
  op_await_resume x ;;
  i ← the_io x;
  mret (io_bytes i).

(** [~io()], then [~op()]; the descriptor [accepted] is closed as well. *)
Definition io_destroy x : M unit :=
  release_direction x ;;
  op_destroy x.

(** ** What the portable code relies on *)

(** Submission and cancellation touch the driver, the wake source and the request. *)
Definition drv_loop (l l' : loop D) : Prop := l' = set_l_driver (l_driver l') (set_l_woken (l_woken l') l).
Definition drv_frame w w' : Prop :=
  w' = set_w_ios (w_ios w') (set_w_loops (w_loops w') w) ∧
  (∀ L, option_relation drv_loop (λ _, False) (λ _, False) (w_loops w !! L) (w_loops w' !! L)) ∧
  (∀ x i, w_ios w !! x = Some i →
     ∃ i', w_ios w' !! x = Some i' ∧ io_busy i' = io_busy i ∧ io_reserved i' = io_reserved i) ∧
  (∀ x, is_Some (w_ios w' !! x) → is_Some (w_ios w !! x)).

#[global] Instance drv_loop_preorder : PreOrder drv_loop.
Proof. split; [by intros []|]. intros l1 l2 l3 H1 H2. unfold drv_loop in *. rewrite H2, H1. by destruct l3. Qed.
#[global] Instance drv_frame_preorder : PreOrder drv_frame.
Proof.
  split.
  - intros w. split_and!; [by destruct w| |by eauto|done]. intros L. by destruct (w_loops w !! L) as [[]|].
  - intros w1 w2 w3 (E1&F1&I1&J1) (E2&F2&I2&J2). split_and!; [rewrite E2, E1; by destruct w3| | |by auto].
    + intros L. specialize (F1 L). specialize (F2 L).
      destruct (w_loops w1 !! L), (w_loops w2 !! L), (w_loops w3 !! L); simpl in *; try done. by etrans.
    + intros x i Hi. destruct (I1 x i Hi) as (i1&H1&?&?). destruct (I2 x i1 H1) as (i2&?&?&?).
      exists i2. split_and!; [done|congruence..].
Qed.

Lemma Inv_drv X w w' g : Inv X w g → drv_frame w w' → Inv X w' g.
Proof.
  intros I (E&F&HI&HJ).
  assert (HL : ∀ L l', w_loops w' !! L = Some l' → ∃ l, w_loops w !! L = Some l ∧ drv_loop l l').
  { intros L l' Hl'. specialize (F L). rewrite Hl' in F. destruct (w_loops w !! L); [eauto|done]. }
  assert (Hs : ∀ L, is_Some (w_loops w !! L) → is_Some (w_loops w' !! L)).
  { intros L [l Hl]. specialize (F L). rewrite Hl in F. destruct (w_loops w' !! L); [eauto|done]. }
  assert (Hio : ∀ x, is_Some (w_ios w' !! x) ↔ is_Some (w_ios w !! x)).
  { intros x. split; [apply HJ|]. intros [i Hi]. destruct (HI x i Hi) as (?&?&_). eauto. }
  assert (Hnone : ∀ x, w_ios w !! x = None → w_ios w' !! x = None).
  { intros x Hx. apply eq_None_not_Some. rewrite Hio, Hx. by intros []. }
  assert (Hg : w_next w' = w_next w ∧ w_wlinks w' = w_wlinks w ∧ w_iolinks w' = w_iolinks w ∧ w_waits w' = w_waits w ∧
    w_timers w' = w_timers w ∧ w_ops w' = w_ops w ∧ w_works w' = w_works w ∧ w_messages w' = w_messages w) by (rewrite E; done).
  destruct Hg as (G1&G2&G3&G4&G5&G6&G7&G8).
  destruct I; constructor; rewrite ?G1, ?G2, ?G3, ?G4, ?G5, ?G6, ?G7, ?G8; try assumption.
  1-5: intros L l' Hl'; destruct (HL L l' Hl') as (l&Hl&->); simpl; eauto.
  - intros L x Hx. apply Hio. eauto.
  - intros x Hx. destruct (inv_class x Hx). auto.
  - intros x Hx%Hio. auto.
  - intros x Hx%Hio. auto.
  - intros x o Ho. destruct (inv_op x o Ho). auto.
Qed.
End io.

(** ** Completion *)
Section complete.
Context {D : Type}.
Implicit Types (x : loc) (L : loopid) (w : world D) (g : ghost).
Definition g_complete L x (g : ghost) : ghost :=
  upd_g L (λ a, set_a_ready (a_ready a ++ [x]) (set_a_ios (without x (a_ios a)) a)) g.
Definition g_start L x (g : ghost) : ghost := upd_g L (λ a, set_a_ios (x :: a_ios a) a) g.

Lemma frame_drivers w w' : frame w w' → ∀ L, l_driver <$> w_loops w' !! L = l_driver <$> w_loops w !! L.
Proof.
  intros [_ F] L. specialize (F L). destruct (w_loops w !! L), (w_loops w' !! L); simpl in *; try done.
  unfold loop_frame in F. by rewrite F.
Qed.

(** Completing a request without a hook makes its continuation ready. *)
Lemma complete_spec w g L x o i :
  Inv ∅ w g → x ∈ a_ios (g L) → w_ops w !! x = Some o → w_ios w !! x = Some i → io_retire i = None →
  runs (complete L x) w (λ _ w',
    Inv ∅ w' (g_complete L x g) ∧ w_ops w' = <[x := retired o]> (w_ops w) ∧ w_ios w' = w_ios w ∧ w_flags w' = w_flags w ∧
    ∀ L', l_driver <$> w_loops w' !! L' = l_driver <$> w_loops w !! L').
Proof.
  intros I Hx Ho Hi Hr. destruct (inv_pending _ _ _ I L x) as (_&o'&?&Hown&Ha); [unfold a_pending; set_solver|]. simplify_eq.
  destruct (inv_op _ _ _ I _ _ Ho) as ([l HL]&_). destruct (elem_of_split _ _ Hx) as (l1&l2&Hios).
  pose proof (inv_ios _ _ _ I _ _ HL) as Hrep. rewrite Hios in Hrep.
  pose proof (Inv_unlink_io _ _ _ _ _ _ _ _ I HL Hios) as I2.
  unfold complete. apply post_bind. eapply post_on_ios; [done| |].
  { rewrite (dl_rep_head _ _ _ Hrep). apply unlink_front_run. by rewrite <- (dl_rep_head _ _ _ Hrep). }
  simpl. step. rewrite Hr.
  eapply post_mono; [eapply (finish_spec _ _ _ x o I2); [set_solver|done]| |done].
  intros _ w' (I3&Hops&F&_). split_and!; [|done|by destruct F as [-> _]|by destruct F as [-> _]|].
  2: { intros L'. rewrite (frame_drivers _ _ F L'). simpl.
       destruct (decide (op_owner o = L')) as [<-|]; [|by rewrite lookup_alter_ne].
       by rewrite lookup_alter_eq, HL. }
  eapply Inv_set, Inv_ext, I3; [set_solver|]. intros L'. unfold g_finish, g_complete.
  destruct (decide (L' = op_owner o)) as [->|]; [|by rewrite !upd_g_ne].
  rewrite !upd_g_eq. simpl. by rewrite Hios, without_middle by (by eapply dl_rep_NoDup).
Qed.
End complete.

(** The driver only has to stay within its frame, and [cancel] has to record that a
    cancellation has been sent. *)
Class DriverOk (D : Type) `{!Driver D} := {
  submit_ok L x (w : world D) :
    is_Some (w_loops w !! L) → is_Some (w_ios w !! x) →
    post (submit L x) w (λ _ w', drv_frame w w') (λ _ w', drv_frame w w');
  cancel_ok L x (w : world D) :
    is_Some (w_loops w !! L) → is_Some (w_ios w !! x) →
    post (cancel L x) w
      (λ _ w', drv_frame w w' ∧ io_cancel_sent <$> w_ios w' !! x = Some true ∧
               (∀ y, y ≠ x → w_ios w' !! y = w_ios w !! y))
      (λ _ w', drv_frame w w') }.

(** ** Suspension *)
Section starting.
Context {D : Type}.
Implicit Types (x : loc) (L : loopid) (w : world D) (g : ghost).

(** Events and their awaiters are not touched, by the same thread. *)
Definition same_events w w' : Prop :=
  w_events w' = w_events w ∧ w_awaiters w' = w_awaiters w ∧ w_alinks w' = w_alinks w ∧ w_waits w' = w_waits w ∧
  w_thread w' = w_thread w.

(** Rollback of a request that is still the first of its loop. *)
Lemma unlink_head_run (m : gmap loc (link loc)) t x xs :
  dl_rep m (Some x) (x :: xs) →
  unlink_head x (DlMem m (Some x) t) = Ret tt (DlMem (unlinked m [] xs) (head xs) t).
Proof.
  intros Hrep. pose proof (dl_rep_next _ _ [] x xs Hrep) as Hx. unfold unlink_head, mbind, M_bind, deref. simpl.
  rewrite Hx. simpl. unfold unlinked. simpl. destruct xs as [|y xs]; simpl; [done|].
  destruct (dl_rep_lookup _ _ _ y Hrep) as [k Hk]; [set_solver|]. by erewrite set_prev_run.
Qed.

(** A request that has not been used yet. *)
Record fresh_io w g x o i k : Prop := {
  fi_op : w_ops w !! x = Some o;
  fi_io : w_ios w !! x = Some i;
  fi_idle : op_active o = false;
  fi_ready : x ∉ a_ready (g (op_owner o));
  fi_link : w_iolinks w !! x = Some k;
  fi_prev : l_prev k = None;
  fi_hook : is_stream (io_code i) = true → io_retire i = None }.

(** The request armed and its direction reserved. *)
Definition dir_flags (i : io) w : gmap loc bool :=
  match io_busy i with Some f => <[f := true]> (w_flags w) | None => w_flags w end.
Definition reserved_io (i : io) : io := match io_busy i with Some _ => set_io_reserved true i | None => i end.
Definition io_armed w x o i t kw h : world D :=
  set_w_works (<[x := set_work_handle (Some h) kw]> (w_works w))
    (set_w_ios (<[x := reserved_io i]> (w_ios w))
      (set_w_flags (dir_flags i w) (set_w_ops (<[x := armed w t o]> (w_ops w)) w))).

Lemma Inv_upd_io X w g x i i' fl :
  Inv X w g → w_ios w !! x = Some i →
  Inv X (set_w_ios (<[x := i']> (w_ios w)) (set_w_flags fl w)) g.
Proof.
  intros [] Hi. constructor; simpl; try assumption.
  - intros L y Hy. apply lookup_insert_is_Some'. right. eauto.
  - intros y Hy. destruct (inv_class y Hy) as [Hy1 ?]. rewrite lookup_insert_ne by congruence. done.
  - intros y [<-|?]%lookup_insert_is_Some'; eauto.
  - intros y [<-|?]%lookup_insert_is_Some'; eauto.
Qed.

Lemma link_io_spec w g x o i k kw l h t :
  Inv ∅ w g → fresh_io w g x o i k → w_loops w !! op_owner o = Some l → w_works w !! x = Some kw →
  runs (on_ios (op_owner o) (link_front x)) (io_armed w x o i t kw h) (λ _ w',
    Inv ∅ w' (g_start (op_owner o) x g) ∧ w_ops w' = <[x := armed w t o]> (w_ops w) ∧
    w_ios w' = <[x := reserved_io i]> (w_ios w) ∧ w_flags w' = dir_flags i w ∧
    same_events w w' ∧ ∃ l', w_loops w' !! op_owner o = Some l' ∧ l_driver l' = l_driver l ∧ l_thread l' = l_thread l).
Proof.
  intros I [Ho Hi Ha Hr Hk Hp _] HL Hkw. pose proof (inv_ios _ _ _ I _ _ HL) as Hrep.
  assert (Hown : op_owner (armed w t o) = op_owner o) by (unfold armed; by destruct (possible w t)).
  pose proof (Inv_activate _ _ _ _ _ _ I Ho Ha Hr Hown eq_refl) as I2.
  pose proof (Inv_upd_io _ _ _ x i (reserved_io i) (dir_flags i w) I2 Hi) as I3.
  pose proof (Inv_upd_work _ _ _ x kw (set_work_handle (Some h) kw) I3 Hkw eq_refl) as I4.
  assert (Hx : x ∉ a_ios (g (op_owner o))).
  { intros Hx. eapply (inv_inactive _ _ _ (op_owner o)); [exact I|done..|unfold a_pending; set_solver]. }
  eapply post_on_ios; [done| |].
  { simpl. rewrite (dl_rep_head _ _ _ Hrep). apply link_front_run; [|done|by eexists].
    by rewrite <- (dl_rep_head _ _ _ Hrep). }
  simpl. split_and!; [|done|done|done|done|by eexists; rewrite lookup_alter_eq, HL].
  eapply Inv_set, Inv_ext, (Inv_link_io _ _ _ (op_owner o) l x (armed w t o) k I4);
    [set_solver|done|done|set_solver|simpl; by rewrite lookup_insert_eq|done| |done|done].
  simpl. rewrite lookup_insert_eq. by eexists.
Qed.

(** Rollback: the request leaves the list it was just put on. *)
Lemma io_rollback_spec w g x o e :
  Inv ∅ w (g_start (op_owner o) x g) → w_ops w !! x = Some o → 
  post (on_ios (op_owner o) (unlink_head x) ;;
        upd_op x (set_op_callback None) ;; upd_op x (set_op_active false) ;; throw e : M (world D) unit) w
    (λ _ _, False)
    (λ e' w', e' = e ∧ Inv ∅ w' g ∧ w_ops w' = <[x := retired o]> (w_ops w) ∧
              w_ios w' = w_ios w ∧ w_flags w' = w_flags w ∧
              same_events w w' ∧ (∀ L, l_thread <$> w_loops w' !! L = l_thread <$> w_loops w !! L) ∧
              ∀ L, l_driver <$> w_loops w' !! L = l_driver <$> w_loops w !! L).
Proof.
  intros I Ho. destruct (inv_op _ _ _ I _ _ Ho) as ([l HL]&_).
  assert (Hios : a_ios (g_start (op_owner o) x g (op_owner o)) = [] ++ x :: a_ios (g (op_owner o))).
  { unfold g_start. by rewrite upd_g_eq. }
  pose proof (inv_ios _ _ _ I _ _ HL) as Hrep. rewrite Hios in Hrep. pose proof (dl_rep_head _ _ _ Hrep) as Hh.
  pose proof (Inv_unlink_io _ _ _ _ _ _ _ _ I HL Hios) as I2. simpl in *.
  apply post_bind. eapply post_on_ios; [done| |].
  { rewrite Hh. apply unlink_head_run. by rewrite <- Hh. }
  simpl. step. step. apply post_throw. simpl. rewrite insert_insert_eq. split_and!; try done.
  2-3: intros L'; destruct (decide (op_owner o = L')) as [<-|]; [by rewrite lookup_alter_eq, HL|by rewrite lookup_alter_ne].
  eapply Inv_set, Inv_ext, (Inv_deactivate _ _ _ x o (retired o) I2); [set_solver| |set_solver|done|done|done].
  intros L'. unfold g_start. destruct (decide (L' = op_owner o)) as [->|]; [|by rewrite !upd_g_ne].
  rewrite !upd_g_eq. by destruct (g (op_owner o)).
Qed.

Lemma reserve_run w x i (Q : unit → world D → Prop) E :
  w_ios w !! x = Some i → (∀ f, io_busy i = Some f → is_Some (w_flags w !! f)) →
  Q tt (set_w_ios (<[x := reserved_io i]> (w_ios w)) (set_w_flags (dir_flags i w) w)) →
  post (match io_busy i with
        | Some f => upd_flag f (λ _, true) ;; upd_io x (set_io_reserved true)
        | None => mret tt
        end : M (world D) unit) w Q E.
Proof.
  intros Hi Hf HQ. unfold reserved_io, dir_flags in HQ. destruct (io_busy i) as [f|].
  - destruct (Hf f eq_refl) as [b Hb]. step. step. exact HQ.
  - apply post_ret. rewrite insert_id in HQ by done. by destruct w.
Qed.

(** Suspension on native I/O, on every branch. *)
Definition busy_now w (i : io) : bool := match io_busy i with Some f => default false (w_flags w !! f) | None => false end.
(** The request armed, reserved and linked, about to be submitted. *)
Record launched w g x o i l w2 l2 : Prop := {
  la_inv : Inv ∅ w2 (g_start (op_owner o) x g);
  la_op : w_ops w2 = <[x := armed w (io_token i) o]> (w_ops w);
  la_io : w_ios w2 = <[x := reserved_io i]> (w_ios w);
  la_flags : w_flags w2 = dir_flags i w;
  la_loop : w_loops w2 !! op_owner o = Some l2;
  la_driver : l_driver l2 = l_driver l;
  la_thread : l_thread l2 = l_thread l;
  la_events : same_events w w2 }.
Lemma armed_owner w t o : op_owner (armed w t o) = op_owner o.
Proof. unfold armed. by destruct (possible w t). Qed.
(** Everything [await_suspend] does before it submits, for any driver. *)
Lemma io_await_cases `{!Driver D} w g x o i k l h (Q : bool → world D → Prop) (E : exn → world D → Prop) :
  Inv ∅ w g → fresh_io w g x o i k → w_loops w !! op_owner o = Some l → l_thread l = w_thread w →
  (∀ f, io_busy i = Some f → is_Some (w_flags w !! f)) →
  (busy_now w i = true → E (logic_error "socket direction already in use") w) →
  (busy_now w i = false → (l_stopping l || requested w (io_token i)) = true → Q false (set_w_ops (<[x := refused o]> (w_ops w)) w)) →
  (busy_now w i = false → (l_stopping l || requested w (io_token i)) = false → ∀ w2 l2, launched w g x o i l w2 l2 →
    post (if bool_decide (io_size i = 0%Z) && is_stream (io_code i) then complete (op_owner o) x else submit (op_owner o) x) w2
      (λ _ w', Q true w')
      (λ e w', post (on_ios (op_owner o) (unlink_head x) ;;
                     upd_op x (set_op_callback None) ;; upd_op x (set_op_active false) ;; throw e : M (world D) unit) w' (λ _, Q true) E)) →
  post (io_await_suspend x h) w Q E.
Proof.
  intros I F HL Ht Hf Hbusy Hstop Hgo. pose proof F as [Ho Hi Ha Hr Hk Hp Hhook]. destruct (inv_op _ _ _ I _ _ Ho) as (_&kw&Hkw&_).
  unfold io_await_suspend. step. step. apply post_bind. eapply post_check; [done..|].
  apply post_bind. eapply (post_mono _ _ (λ b w', b = busy_now w i ∧ w' = w) _ (λ _ _, False)); [| |done].
  { unfold busy_now. destruct (io_busy i) as [f|]; [|by apply post_ret]. destruct (Hf f eq_refl) as [b Hb].
    eapply post_the_flag; [done|]. by rewrite Hb. }
  intros b w' [-> ->]. destruct (busy_now w i) eqn:Hb; [by apply post_throw, Hbusy|].
  apply post_bind. unfold post at 1. rewrite (arm_run _ _ _ _ _ _ HL Ho Ht).
  destruct (l_stopping l || requested w (io_token i)) eqn:Hs; simpl; [by apply post_ret, Hstop|].
  apply post_bind. eapply reserve_run; [exact Hi|exact Hf|]. step.
  set (w1 := set_w_works _ _). change w1 with (io_armed w x o i (io_token i) kw h).
  apply post_bind. eapply post_mono; [by apply (link_io_spec w g x o i k kw l h (io_token i) I F HL Hkw)| |done].
  intros _ w2 (I2&Hops2&Hios2&Hfl2&Hev&l2&HL2&Hd2&Ht2). apply post_bind, post_try_catch.
  eapply post_mono; [apply (Hgo eq_refl eq_refl w2 l2); by split| |].
  - intros [] w3 HQ. by apply post_ret.
  - intros e w3 HE. eapply post_mono; [exact HE| |done]. intros [] w4 HQ. by apply post_ret.
Qed.
End starting.

Section io_spec.
Context {D : Type} `{!Driver D, !DriverOk D}.
Implicit Types (x : loc) (L : loopid) (w : world D) (g : ghost).

(** C15: Suspension on native I/O, on every branch: a busy direction is refused without effect;
    a stop already requested refuses the request with [operation_canceled] and suspends
    nothing; an empty stream transfer completes at once; otherwise the request is linked
    and submitted.  If submission throws, the request is unlinked and inactive again and
    the exception propagates. *)
Theorem io_await_suspend_spec w g x o i k l h :
  Inv ∅ w g → fresh_io w g x o i k → w_loops w !! op_owner o = Some l → l_thread l = w_thread w →
  (∀ f, io_busy i = Some f → is_Some (w_flags w !! f)) →
  post (io_await_suspend x h) w
    (λ b w', busy_now w i = false ∧
       if b : bool
       then (l_stopping l || requested w (io_token i)) = false ∧ w_flags w' = dir_flags i w ∧
            (if bool_decide (io_size i = 0%Z) && is_stream (io_code i)
             then Inv ∅ w' (g_complete (op_owner o) x (g_start (op_owner o) x g)) ∧
                  op_active <$> w_ops w' !! x = Some false
             else Inv ∅ w' (g_start (op_owner o) x g) ∧ op_active <$> w_ops w' !! x = Some true)
       else (l_stopping l || requested w (io_token i)) = true ∧
            w' = set_w_ops (<[x := refused o]> (w_ops w)) w)
    (λ e w', if busy_now w i then e = logic_error "socket direction already in use" ∧ w' = w
             else Inv ∅ w' g ∧ op_active <$> w_ops w' !! x = Some false ∧
                  w_flags w' = dir_flags i w ∧ (∃ i', w_ios w' !! x = Some i' ∧ io_busy i' = io_busy i ∧
                                                     io_reserved i' = io_reserved (reserved_io i))).
Proof.
  intros I F HL Ht Hf. eapply io_await_cases; [exact I|exact F|exact HL|exact Ht|exact Hf|by intros ->|by auto|].
  intros Hb Hs w2 l2 [I2 Hops2 Hios2 Hfl2 HL2 _ _ _]. rewrite Hb. apply mk_is_Some in HL2. pose proof (armed_owner w (io_token i) o) as Hown.
  assert (Ho2 : w_ops w2 !! x = Some (armed w (io_token i) o)) by (rewrite Hops2; apply lookup_insert_eq).
  assert (Hi2 : w_ios w2 !! x = Some (reserved_io i)) by (rewrite Hios2; apply lookup_insert_eq).
  destruct (bool_decide (io_size i = 0%Z) && is_stream (io_code i)) eqn:Hz.
  - apply andb_true_iff in Hz as [_ Hz]. 
    eapply post_mono; [eapply (complete_spec w2 _ (op_owner o) x _ _ I2); [|exact Ho2|exact Hi2|]| |done].
    + unfold g_start. rewrite upd_g_eq. simpl. set_solver.
    + pose proof (fi_hook _ _ _ _ _ _ F Hz). unfold reserved_io. by destruct (io_busy i).
    + intros _ w3 (I3&Hops3&_&Hfl3&_).
      split_and!; [done|done|by rewrite Hfl3|exact I3|by rewrite Hops3, lookup_insert_eq].
  - eapply post_mono; [eapply (submit_ok (op_owner o) x w2 HL2); eauto| |].
    + intros [] w3 Fr. pose proof (Inv_drv _ _ _ _ I2 Fr) as I3. destruct Fr as (E&_).
      split_and!; [done|done|by rewrite E|exact I3|]. rewrite E. simpl. rewrite Ho2. done.
    + intros e w3 Fr. pose proof (Inv_drv _ _ _ _ I2 Fr) as I3. destruct Fr as (E&_&HI&_).
      assert (Ho3 : w_ops w3 !! x = Some (armed w (io_token i) o)) by (rewrite E; done).
      destruct (HI _ _ Hi2) as (i3&Hi3&Hb3&Hr3). rewrite <- Hown in I3.
      eapply post_mono; [rewrite <- Hown; apply (io_rollback_spec w3 g x _ e I3 Ho3)|done|].
      intros e' w4 (->&I4&Hops4&Hios4&Hfl4&_). split_and!; [done|by rewrite Hops4, lookup_insert_eq| |].
      * rewrite Hfl4, E. done.
      * exists i3. rewrite Hios4. split_and!; [done| |done]. rewrite Hb3. unfold reserved_io. by destruct (io_busy i) eqn:?.
Qed.
End io_spec.
