(* ===== verification/Run.v ===== *)
(** * The event loop (src/loop.cpp: [expire], [run])

    Cancellation and expiry of pending work, and the loop that drives everything.
    The code a loop executes for its users is reached through [Program]: posted
    functions, resumed coroutines and the monotonic clock. *)
From S2P Require Import Prelude ReadyQueue Links Heap Core Loop LoopInv LoopSpec Event WaitQueue Io.

Class Program (D : Type) := {
  clock_now : M (world D) Z;          (** [std::chrono::steady_clock::now()] *)
  call : fn → M (world D) unit;       (** a posted [std::function<void()>] *)
  resume : coro → M (world D) unit }. (** [std::coroutine_handle<>::resume()] *)

Section run.
Context {D : Type} `{!StdHeap loc, !Driver D, !Program D}.
Local Abbreviation M := (M (world D)).
Implicit Types (x : loc) (L : loopid) (w : world D) (g : ghost).

(** ** [void loop::expire()] *)

(** The predicate of [std::remove_if] runs once per timer, in order. *)
Fixpoint remove_timers L (all : bool) (ts : list loc) : M (list loc) :=
  match ts with
  | [] => mret []
  | t :: ts' =>
      o ← the_op t;
      if negb all && negb (op_canceled o) then
        kept ← remove_timers L all ts';
        mret (t :: kept)
      else
        upd_op t (set_op_error (Some operation_canceled)) ;;
        finish L t ;;
        remove_timers L all ts'
  end.

Fixpoint cancel_ios (fuel : nat) L (all : bool) (p : option loc) : M unit :=
  match p, fuel with
  | None, _ => mret tt
  | Some _, O => undefined
  | Some x, S fuel' =>
      k ← deref (λ w, w_iolinks w !! x);
      i ← the_io x;
      o ← the_op x;
      when (negb (io_cancel_sent i) && (all || op_canceled o)) (cancel L x) ;;
      cancel_ios fuel' L all (l_next k)
  end.

(** [if (w->interrupt) w->interrupt( *w); else { w->error = ...; w->notify(); }] *)
Definition interrupt x : M unit :=
  v ← the_wait x;
  match wait_interrupt v with
  | Some interrupt_remote => nothrow (remote_interrupt x)
  | None => upd_op x (set_op_error (Some operation_canceled)) ;; notify x
  end.
Fixpoint interrupt_waits (fuel : nat) (all : bool) (p : option loc) : M unit :=
  match p, fuel with
  | None, _ => mret tt
  | Some _, O => undefined
  | Some x, S fuel' =>
      k ← deref (λ w, w_wlinks w !! x);
      v ← the_wait x;
      o ← the_op x;
      when (wait_interruptible v && (all || op_canceled o)) (interrupt x) ;;
      interrupt_waits fuel' all (l_next k)
  end.

(** [while (!timers_.empty() && timers_.front()->due <= now) ...] *)
Fixpoint fire_due (fuel : nat) L (now : Z) : M unit :=
  l ← the_loop L;
  match l_timers l with
  | [] => mret tt
  | t :: _ =>
      v ← the_timer t;
      if bool_decide (timer_due v ≤ now)%Z then
        match fuel with
        | O => undefined
        | S fuel' =>
            reheap L pop_heap ;;
            timers_pop_back L ;;
            finish L t ;;
            fire_due fuel' L now
        end
      else mret tt
  end.

(** [remove_if], [erase] and [make_heap] *)
Definition cancel_timers L (all : bool) (ts : list loc) : M unit :=
  kept ← remove_timers L all ts;
  upd_loop L (set_l_timers kept) ;;
  reheap L make_heap.
(** [for (auto* op = io_; op;) ...] and [for (auto* w = waits_; w;) ...] *)
Definition cancel_requests L (all : bool) : M unit :=
  l ← the_loop L;
  fuel ← gets (λ w, size (w_iolinks w));
  cancel_ios fuel L all (l_io l).
Definition interrupt_all L (all : bool) : M unit :=
  l ← the_loop L;
  fuel ← gets (λ w, size (w_wlinks w));
  interrupt_waits fuel all (l_waits l).
Definition cancel_pending L : M unit :=
  l ← the_loop L;
  let all := l_stopping l in
  cancel_timers L all (l_timers l) ;;
  cancel_requests L all ;;
  interrupt_all L all.
Definition expire L : M unit :=
  l ← the_loop L;
  upd_loop L (set_l_cancel false) ;;
  when (l_cancel l) (cancel_pending L) ;;
  now ← clock_now;
  l ← the_loop L;
  fire_due (length (l_timers l)) L now.

(** ** [void loop::run()] *)

(** [for (unsigned i = 0; i < budget_; ++i) { ... messages.push( *node); }] *)
Fixpoint detach (n : nat) L : M unit :=
  match n with
  | O => mret tt
  | S n' =>
      node ← on_messages L pop;
      match node with
      | None => mret tt
      | Some nd => on_batch L (push nd) ;; detach n' L
      end
  end.

(** [msg.run(msg)] *)
Definition run_message x : M unit :=
  m ← the_message x;
  match msg_run m with
  | run_notify => nothrow (notify x)
  | run_resume h => nothrow (resume h)
  end.
Fixpoint run_batch (fuel : nat) L : M unit :=
  node ← on_batch L pop;
  match node, fuel with
  | None, _ => mret tt
  | Some (message_node x), S fuel' => run_message x ;; run_batch fuel' L
  | Some _, _ => undefined
  end.

Fixpoint run_ready (n : nat) L : M unit :=
  match n with
  | O => mret tt
  | S n' =>
      node ← on_ready L pop;
      match node with
      | None => mret tt
      | Some (work_node x) =>
          k ← the_work x;
          match work_handle k with
          | Some h => resume h ;; run_ready n' L
          | None => undefined
          end
      | Some (message_node _) => undefined
      end
  end.

Definition posted (l : loop D) : bool :=
  negb (bool_decide (l_posts l = [])) || negb (empty (l_messages l)).
Definition is_nil {A} (xs : list A) : bool := match xs with [] => true | _ => false end.
Definition is_null {A} (p : option A) : bool := match p with None => true | Some _ => false end.
(** The condition under which [run] leaves its loop. *)
Definition idle (l : loop D) : bool :=
  bool_decide (l_roots l = 0) && is_null (l_io l) && is_null (l_waits l) && is_nil (l_timers l) &&
  empty (l_ready l) && negb (posted l) && (bool_decide (l_holds l = 0) || l_stopping l).

(** The delay passed to [poll]: -1 blocks. *)
Definition poll_delay L (l : loop D) : M Z :=
  if negb (empty (l_ready l)) || posted l then mret 0%Z else
    match l_timers l with
    | [] => mret (-1)%Z
    | t :: _ =>
        v ← the_timer t;
        now ← clock_now;
        mret (Z.max 0 (timer_due v - now))
    end.

(** One iteration of [for (;;)]; [false] is [break]. *)
Definition tick L : M bool :=
  upd_loop L (set_l_batch (ReadyQueue None None)) ;;
  l ← the_loop L;
  upd_loop L (set_l_posts []) ;;
  detach (l_budget l) L ;;
  for_each (λ f, try_catch (call f) (fail L)) (l_posts l) ;;
  run_batch (l_budget l) L ;;
  expire L ;;
  run_ready (l_budget l) L ;;
  l ← the_loop L;
  if idle l then mret false
  else if is_null (l_io l) && (negb (empty (l_ready l)) || posted l) then mret true
  else delay ← poll_delay L l; poll L delay ;; mret true.

(** [None]: still running after [fuel] iterations. *)
Fixpoint run_loop (fuel : nat) L : M (option unit) :=
  match fuel with
  | O => mret None
  | S fuel' =>
      b ← tick L;
      if b : bool then run_loop fuel' L else mret (Some tt)
  end.

Definition set_current (c : option loopid) : M unit :=
  modify (λ w, set_w_current (partial_alter (λ _, c) (w_thread w) (w_current w)) w).
Definition run (fuel : nat) L : M (option unit) :=
  check L ;;
  l ← the_loop L;
  if l_running l then throw (logic_error "nested loop.run") else
    upd_loop L (set_l_running true) ;;
    this ← gets w_thread;
    previous ← gets (λ w, w_current w !! this);
    set_current (Some L) ;;
    r ← try_catch (run_loop fuel L)
          (λ e, set_current previous ;; upd_loop L (set_l_running false) ;; throw e);
    match r with
    | None => mret None
    | Some _ =>
        upd_loop L (set_l_running false) ;;
        set_current previous ;;
        l ← the_loop L;
        upd_loop L (set_l_error None) ;;
        match l_error l with Some e => throw e | None => mret (Some tt) end
    end.
End run.
