(* ===== verification/RunSpec.v ===== *)
(** * The event loop: theorems

    What one scan of [expire] and one iteration of [run] do to the lists of a
    loop, and how [run] enters and leaves. *)
From S2P Require Import Prelude ReadyQueue Links Heap Core Loop LoopInv LoopSpec Event WaitQueue Io Run.
From stdpp Require Import sorting.

(** Apply [f] to the operations of [xs]. *)
Definition alter_all (f : op → op) (xs : list loc) (m : gmap loc op) : gmap loc op :=
  map_imap (λ x o, Some (if decide (x ∈ xs) then f o else o)) m.

Lemma lookup_alter_all f xs m x :
  alter_all f xs m !! x = (λ o, if decide (x ∈ xs) then f o else o) <$> m !! x.
Proof. unfold alter_all. rewrite map_lookup_imap. by destruct (m !! x). Qed.
Lemma alter_all_nil f m : alter_all f [] m = m.
Proof.
  apply map_eq. intros x. rewrite lookup_alter_all. by destruct (m !! x).
Qed.
Lemma alter_all_cons f x xs m o :
  m !! x = Some o → x ∉ xs → alter_all f xs (<[x := f o]> m) = alter_all f (x :: xs) m.
Proof.
  intros Hx Hn. apply map_eq. intros y. rewrite !lookup_alter_all. destruct (decide (x = y)) as [<-|].
  - rewrite lookup_insert_eq, Hx. simpl. by rewrite decide_False, decide_True by set_solver.
  - rewrite lookup_insert_ne by done. destruct (m !! y); simpl; [|done]. f_equal.
    apply decide_ext. set_solver.
Qed.

Lemma StronglySorted_sub {A} (R R' : A → A → Prop) xs :
  (∀ x y, R x y → R' x y) → StronglySorted R xs → StronglySorted R' xs.
Proof. intros HR. induction 1 as [|x xs _ IH Hx]; constructor; [done|]. eapply Forall_impl; eauto. Qed.

Section expire.
Context {D : Type} `{!StdHeap loc}.
Implicit Types (x : loc) (L : loopid) (w : world D) (g : ghost).

(** ** Frames of a scan: [frame], and the timers of the loops *)
Definition tframe w w' : Prop :=
  w' = set_w_next (w_next w') (set_w_wlinks (w_wlinks w')
         (set_w_loops (w_loops w') (set_w_ops (w_ops w') w))) ∧
  ∀ L, option_relation (λ l l', loop_frame (set_l_timers (l_timers l') l) l')
         (λ _, False) (λ _, False) (w_loops w !! L) (w_loops w' !! L).
#[global] Instance tframe_preorder : PreOrder tframe.
Proof.
  split.
  - intros w. split; [by destruct w|]. intros L. by destruct (w_loops w !! L) as [[]|].
  - intros w1 w2 w3 [E1 F1] [E2 F2]. split; [rewrite E2, E1; by destruct w3|].
    intros L. specialize (F1 L). specialize (F2 L).
    destruct (w_loops w1 !! L), (w_loops w2 !! L) as [l2|], (w_loops w3 !! L); simpl in *; try done.
    unfold loop_frame in *. rewrite F2, F1. by destruct l2.
Qed.
Lemma frame_tframe w w' : frame w w' → tframe w w'.
Proof.
  intros [E F]. split; [done|]. intros L. specialize (F L).
  destruct (w_loops w !! L), (w_loops w' !! L); simpl in *; try done. unfold loop_frame in *. rewrite F. done.
Qed.

Lemma tframe_loop w w' L l : tframe w w' → w_loops w !! L = Some l →
  ∃ l', w_loops w' !! L = Some l' ∧ loop_frame (set_l_timers (l_timers l') l) l'.
Proof. intros [_ F] HL. specialize (F L). rewrite HL in F. destruct (w_loops w' !! L); [eauto|done]. Qed.

Lemma tframe_timers w L l ts : w_loops w !! L = Some l →
  tframe w (set_w_loops (<[L := set_l_timers ts l]> (w_loops w)) w).
Proof.
  intros HL. split; [by destruct w|]. intros L'. simpl. destruct (decide (L = L')) as [<-|].
  - rewrite lookup_insert_eq, HL. by destruct l.
  - rewrite lookup_insert_ne by done. by destruct (w_loops w !! L') as [[]|].
Qed.

(** [timers_ok] only depends on the vectors and the deadlines. *)
Definition same_timers w w' : Prop :=
  w_timers w' = w_timers w ∧ ∀ L, l_timers <$> w_loops w' !! L = l_timers <$> w_loops w !! L.
Lemma timers_ok_same w w' g g' :
  timers_ok w g → same_timers w w' → (∀ L, a_timers (g' L) = a_timers (g L)) → timers_ok w' g'.
Proof.
  intros HT [E F] Hg L l' HL'. specialize (F L). rewrite HL' in F.
  destruct (w_loops w !! L) as [l|] eqn:HL; simplify_eq/=. destruct (HT L l HL) as (Ht&ks&Hks&?).
  rewrite Hg, F. split; [done|]. exists ks. split; [|done]. unfold timer_keys. rewrite E. exact Hks.
Qed.
Lemma same_timers_loops (R : loop D → loop D → Prop) w w' :
  w_timers w' = w_timers w → (∀ l l', R l l' → l_timers l' = l_timers l) →
  (∀ L, option_relation R (λ _, False) (λ _, False) (w_loops w !! L) (w_loops w' !! L)) → same_timers w w'.
Proof.
  intros E HR F. split; [done|]. intros L. specialize (F L).
  destruct (w_loops w !! L), (w_loops w' !! L); simpl in *; try done. f_equal. auto.
Qed.
Lemma loop_frame_timers (l l' : loop D) : loop_frame l l' → l_timers l' = l_timers l.
Proof. intros ->. done. Qed.
Lemma frame_same_timers w w' : frame w w' → same_timers w w'.
Proof. intros [E F]. eapply same_timers_loops, F; [by rewrite E|apply loop_frame_timers]. Qed.
Lemma rframe_same_timers w w' : rframe w w' → same_timers w w'.
Proof. intros [E F]. eapply same_timers_loops, F; [by rewrite E|apply loop_frame_timers]. Qed.
Lemma drv_same_timers w w' : drv_frame w w' → same_timers w w'.
Proof. intros (E&F&_). eapply same_timers_loops, F; [by rewrite E|]. by intros l l' ->. Qed.

(** ** [remove_if] over the timers *)
Definition to_cancel w (all : bool) x : bool := all || default false (op_canceled <$> w_ops w !! x).
Definition g_timers L xs ts (g : ghost) : ghost :=
  upd_g L (λ a, set_a_ready (a_ready a ++ xs) (set_a_timers ts a)) g.

Lemma g_timers_id L ts g : a_timers (g L) = ts → ∀ L', g_timers L [] ts g L' = g L'.
Proof.
  intros <- L'. unfold g_timers, upd_g. case_decide as Hd; [subst|done].
  rewrite app_nil_r. by destruct (g L).
Qed.

Lemma remove_timers_spec L all ts w g pre :
  Inv ∅ w g → a_timers (g L) = pre ++ ts →
  runs (remove_timers L all ts) w (λ kept w',
    let gone := filter (λ x, to_cancel w all x = true) ts in
    kept = filter (λ x, to_cancel w all x = false) ts ∧
    Inv ∅ w' (g_timers L gone (pre ++ kept) g) ∧
    w_ops w' = alter_all (λ o, retired (refused o)) gone (w_ops w) ∧ frame w w').
Proof.
  revert w g pre. induction ts as [|t ts IH]; intros w g pre I Hts; simpl.
  { apply post_ret. split_and!; [done| |by rewrite alter_all_nil|done].
    eapply Inv_ext, I. intros L'. by rewrite g_timers_id. }
  destruct (inv_pending _ _ _ I L t) as (_&o&Ho&Hown&Ha); [unfold a_pending; rewrite Hts; set_solver|].
  pose proof (inv_timers _ _ _ I L) as Hnd. rewrite Hts in Hnd.
  pose proof Hnd as [_ Hnt]%NoDup_middle.
  assert (Hd : to_cancel w all t = all || op_canceled o) by (unfold to_cancel; by rewrite Ho).
  step. rewrite !filter_cons, !Hd, <- negb_orb. destruct (all || op_canceled o) eqn:Hc; simpl.
  - step. apply post_bind.
    assert (I1 : Inv ∅ (set_w_ops (<[t := refused o]> (w_ops w)) w) g) by (by eapply Inv_upd_op).
    assert (Hp : a_timers (g L) ≡ₚ t :: pre ++ ts) by (rewrite Hts; by rewrite Permutation_middle).
    pose proof (Inv_remove_timer _ _ _ _ _ _ I1 Hp) as I2.
    assert (Ht : t ∈ (∅ ∪ {[t]} : gset loc)) by set_solver.
    pose proof (finish_spec _ _ _ t (refused o) I2 Ht (lookup_insert_eq _ _ _)) as Hfin.
    change (op_owner (refused o)) with (op_owner o) in Hfin. rewrite Hown in Hfin.
    eapply post_mono; [exact Hfin| |done]. clear Hfin.
    intros [] w2 (I3&Hops&F&_). simpl in *. rewrite insert_insert_eq in Hops.
    assert (F1 : frame w w2) by (etrans; [apply frame_ops|exact F]).
    assert (Hext : ∀ x, x ∈ ts → to_cancel w2 all x = to_cancel w all x).
    { intros x Hx. unfold to_cancel. rewrite Hops, lookup_insert_ne; [done|]. set_solver. }
    eapply post_mono; [eapply (IH w2 _ pre); [eapply Inv_set, I3; set_solver|by unfold g_finish; rewrite !upd_g_eq]| |done].
    intros kept w3 (->&I4&Hops4&F4).
    assert (Hfilt : ∀ b, filter (λ x, to_cancel w2 all x = b) ts = filter (λ x, to_cancel w all x = b) ts).
    { intros b. apply filter_agree. intros x Hx. by rewrite Hext. }
    rewrite !Hfilt in *. split_and!; [done| | |by etrans].
    + eapply Inv_ext, I4. intros L'. unfold g_timers, g_finish.
      destruct (decide (L' = L)) as [->|]; [|by rewrite !upd_g_ne]. rewrite !upd_g_eq. simpl. by rewrite <- app_assoc.
    + rewrite Hops4, Hops. apply (alter_all_cons (λ o, retired (refused o))); [done|].
      intros [_ ?]%list_elem_of_filter. set_solver.
  - apply post_bind. eapply post_mono; [eapply (IH w g (pre ++ [t])); [done|by rewrite <- app_assoc]| |done].
    intros kept w' (->&I'&Hops&F). apply post_ret. split_and!; [done| |done|done].
    by rewrite <- app_assoc in I'.
Qed.

(** ** Due timers *)
Definition due w x : Z := default 0%Z (timer_due <$> w_timers w !! x).

Lemma timer_keys_due w xs ks k : timer_keys w xs = Some ks → k ∈ ks → k.2 = due w k.1.
Proof.
  intros [_ Hall]%timer_keys_Some Hk. rewrite Forall_forall in Hall.
  destruct (Hall k Hk) as (v&Hv&Hd). unfold due. by rewrite Hv.
Qed.

(** The front of the vector has the least deadline. *)
Lemma front_due w x xs ks y :
  timer_keys w (x :: xs) = Some ks → is_heap ks → y ∈ x :: xs → (due w x ≤ due w y)%Z.
Proof.
  intros Hks Hh Hy. pose proof Hks as [Heq _]%timer_keys_Some. rewrite Heq in Hy.
  apply list_elem_of_fmap in Hy as (k&->&Hk). destruct ks as [|k0 ks]; [done|]. injection Heq as -> ->.
  rewrite <- (timer_keys_due _ _ _ k Hks Hk), <- (timer_keys_due _ _ _ k0 Hks) by set_solver.
  by apply (is_heap_front (k0 :: ks)).
Qed.

(** Taking the front timer off the vector. *)
Lemma pop_timer_run w L l t xs ks :
  w_loops w !! L = Some l → l_timers l = t :: xs → timer_keys w (l_timers l) = Some ks → is_heap ks →
  ∃ ys, ys.*1 ≡ₚ xs ∧ is_heap ys ∧ timer_keys w ys.*1 = Some ys ∧
    (reheap L pop_heap ;; timers_pop_back L) w =
      Ret tt (set_w_loops (<[L := set_l_timers ys.*1 l]> (w_loops w)) w).
Proof.
  intros HL Ht Hks Hh. pose proof Hks as [Heq Hall]%timer_keys_Some.
  destruct ks as [|[t' d] ks]; [by rewrite Ht in Heq|]. rewrite Ht in Heq. simplify_eq/=.
  destruct (pop_heap_last ks (t', d) Hh) as (ys&Hpop&Hp&Hys). exists ys. split_and!; [by rewrite Hp|done| |].
  - apply (timer_keys_perm w ks.*1 ks); [|done]. apply timer_keys_Some. split; [done|]. by inv Hall.
  - unfold mbind, M_bind. rewrite (reheap_run _ _ _ _ _ HL Hks), Hpop, fmap_app. simpl.
    unfold timers_pop_back, upd_loop, the_loop, deref, modify, mbind, M_bind. simpl.
    rewrite lookup_insert_eq. simpl. rewrite insert_insert_eq, pop_back_snoc. done.
Qed.

Lemma due_tframe w w' x : tframe w w' → due w' x = due w x.
Proof. intros [E _]. unfold due. by rewrite E. Qed.

(** What firing the due timers does: the fired ones are exactly those due, and they
    are ready in the order of their deadlines. *)
Definition fired_spec w g L (l : loop D) now w' : Prop := ∃ fired ts,
  fired ++ ts ≡ₚ l_timers l ∧ (∀ x, x ∈ fired → due w x ≤ now)%Z ∧ (∀ x, x ∈ ts → now < due w x)%Z ∧
  StronglySorted (λ x y, due w x ≤ due w y)%Z fired ∧
  Inv ∅ w' (g_timers L fired ts g) ∧ timers_ok w' (g_timers L fired ts g) ∧
  w_ops w' = alter_all retired fired (w_ops w) ∧ tframe w w'.

Lemma fire_due_done w g L l now :
  Inv ∅ w g → timers_ok w g → w_loops w !! L = Some l → (∀ x, x ∈ l_timers l → now < due w x)%Z →
  fired_spec w g L l now w.
Proof.
  intros I HT HL Hx. destruct (HT L l HL) as (Hat&_). exists [], (l_timers l).
  rewrite alter_all_nil. split_and!; try done; [set_solver|constructor| |].
  - eapply Inv_ext, I. intros L'. by rewrite g_timers_id.
  - intros L' l'. rewrite g_timers_id by done. apply HT.
Qed.

Lemma fire_due_spec fuel w g L l now :
  Inv ∅ w g → timers_ok w g → w_loops w !! L = Some l → length (l_timers l) ≤ fuel →
  runs (fire_due fuel L now) w (λ _ w', fired_spec w g L l now w').
Proof.
  revert w g l. induction fuel as [|fuel IH]; intros w g l I HT HL Hlen;
    destruct (HT L l HL) as (Hat&ks&Hks&Hh); cbn [fire_due]; step;
    destruct (l_timers l) as [|t xs] eqn:Hl; simpl in Hlen; try lia.
  1-2: apply post_ret, fire_due_done; rewrite ?Hl; set_solver.
  destruct (inv_kind_timer _ _ _ I L t) as [v Hv]; [rewrite <- Hat; set_solver|]. step.
  assert (Hdt : due w t = timer_due v) by (unfold due; by rewrite Hv).
  case_bool_decide as Hdue; [|apply post_ret, fire_due_done; try done].
  2: { intros x Hx. rewrite Hl in Hx. pose proof (front_due _ _ _ _ _ Hks Hh Hx). lia. }
  assert (Hfront : ∀ y, y ∈ t :: xs → (due w t ≤ due w y)%Z) by (intros y; by eapply front_due).
  pose proof (inv_timers _ _ _ I L) as Hnt. rewrite <- Hat in Hnt. apply NoDup_cons in Hnt as [Hnt _].
  rewrite <- Hl in Hks. destruct (pop_timer_run _ _ _ _ _ _ HL Hl Hks Hh) as (ys&Hys&Hhy&Hky&Hpop).
  apply post_seq2. unfold post at 1. rewrite Hpop. set (w1 := set_w_loops _ _).
  destruct (inv_pending _ _ _ I L t) as (_&o&Ho&Hown&Ha); [unfold a_pending; rewrite <- Hat; set_solver|].
  assert (I1 : Inv ∅ w1 g) by (by eapply Inv_upd_loop).
  assert (Hp : a_timers (g L) ≡ₚ t :: ys.*1) by (by rewrite <- Hat, Hys).
  pose proof (Inv_remove_timer _ _ _ _ _ _ I1 Hp) as I2.
  assert (Ht : t ∈ (∅ ∪ {[t]} : gset loc)) by set_solver.
  pose proof (finish_spec _ _ _ t o I2 Ht Ho) as Hfin. rewrite Hown in Hfin.
  apply post_bind. eapply post_mono; [exact Hfin| |done]. clear Hfin.
  intros [] w2 (I3&Hops&F&_). set (g2 := g_finish L t (upd_g L (set_a_timers ys.*1) g)) in *.
  set (l1 := set_l_timers ys.*1 l).
  assert (HT1 : timers_ok w1 (upd_g L (set_a_timers ys.*1) g)).
  { intros L' l' HL'. subst w1. simpl in HL'. apply lookup_insert_Some in HL' as [[<- <-]|[Hne HL']].
    - rewrite upd_g_eq. simpl. eauto.
    - rewrite upd_g_ne by done. by apply HT. }
  assert (HT2 : timers_ok w2 g2) by (eapply timers_ok_same; [exact HT1|by apply frame_same_timers|intros L'; by apply (upd_g_proj a_timers)]).
  destruct (frame_loops _ _ L l1 F) as (l2&HL2&Hl2); [apply lookup_insert_eq|].
  assert (Hlt : l_timers l2 = ys.*1) by (rewrite Hl2; done).
  assert (I4 : Inv ∅ w2 g2) by (eapply Inv_set, I3; set_solver).
  eapply post_mono; [apply (IH w2 g2 l2 I4 HT2 HL2); rewrite Hlt, Hys; lia| |done].
  intros [] w3 (fired&ts&Hpm&Hf&Hts&Hso&I5&HT5&Hops5&F5).
  assert (F2 : tframe w w2) by (etrans; [by apply tframe_timers|by apply frame_tframe]).
  assert (Hd : ∀ x, due w2 x = due w x) by (intros x; by apply due_tframe).
  assert (Hg : ∀ L', g_timers L fired ts g2 L' = g_timers L (t :: fired) ts g L').
  { intros L'. unfold g2, g_timers, g_finish. destruct (decide (L' = L)) as [->|]; [|by rewrite !upd_g_ne].
    rewrite !upd_g_eq. simpl. by rewrite <- app_assoc. }
  rewrite Hlt, Hys in Hpm. exists (t :: fired), ts. split_and!.
  - simpl. by rewrite Hpm, Hl.
  - intros x [->|Hx]%elem_of_cons; [lia|]. rewrite <- Hd. auto.
  - intros x Hx. rewrite <- Hd. auto.
  - constructor; [eapply StronglySorted_sub, Hso; intros x y; simpl; by rewrite !Hd|].
    apply Forall_forall. intros x Hx. apply Hfront. right. rewrite <- Hpm. set_solver.
  - eapply Inv_ext, I5. exact Hg.
  - intros L' l'. rewrite <- Hg. apply HT5.
  - rewrite Hops5, Hops. apply alter_all_cons; [done|]. intros Hx. apply Hnt. rewrite <- Hpm. set_solver.
  - by etrans.
Qed.

(** ** The scan over suspended waits *)

(** A step that leaves the remote waiters alone. *)
Lemma WInv_same Y w w' g g' gq :
  WInv Y w g gq → w_queues w' = w_queues w → w_remotes w' = w_remotes w → w_rlinks w' = w_rlinks w →
  w_waits w' = w_waits w → w_messages w' = w_messages w →
  (∀ y, is_Some (w_remotes w !! y) → w_ops w' !! y = w_ops w !! y) →
  (∀ L, a_inflight (g' L) = a_inflight (g L)) → WInv Y w' g' gq.
Proof.
  intros [] E1 E2 E3 E4 E5 Ho Hi. constructor; unfold users_of; rewrite ?E1, ?E2, ?E3, ?E4, ?E5; try assumption.
  intros x r Hr. rewrite Ho by eauto. destruct (wi_remote x r Hr) as (?&?&?&o&?&?&Hst).
  split_and!; [done..|]. exists o. split_and!; [done..|]. unfold status in *. by rewrite Hi.
Qed.

(** Active waits have the interrupt hook exactly when they are remote waiters. *)
Definition hooks_ok w g : Prop := ∀ L x v, x ∈ a_waits (g L) → w_waits w !! x = Some v →
  is_Some (wait_interrupt v) ↔ is_Some (w_remotes w !! x).
(** A remote waiter that has been delivered is not interrupted any more. *)
Definition interruptible_now w x : bool :=
  match w_waits w !! x with
  | Some (Wait _ None) => true
  | Some (Wait _ (Some _)) => default false (rw_linked <$> w_remotes w !! x)
  | None => false
  end.
Definition hit w (all : bool) x : bool :=
  default false (wait_interruptible <$> w_waits w !! x) &&
  (all || default false (op_canceled <$> w_ops w !! x)) && interruptible_now w x.

Lemma interrupt_spec w g gq L x o :
  Inv ∅ w g → WInv ∅ w g gq → hooks_ok w g → x ∈ a_waits (g L) → w_ops w !! x = Some o →
  runs (interrupt x) w (λ _ w',
    if interruptible_now w x
    then Inv ∅ w' (g_notify L x g) ∧ WInv ∅ w' (g_notify L x g) (λ q, without x (gq q)) ∧
         w_ops w' = <[x := retired (refused o)]> (w_ops w) ∧ rframe w w' ∧
         (∀ y, y ≠ x → w_remotes w' !! y = w_remotes w !! y) ∧
         (∀ y, is_Some (w_remotes w' !! y) ↔ is_Some (w_remotes w !! y))
    else w' = w).
Proof.
  intros I W HK Hx Ho.
  destruct (inv_pending _ _ _ I L x) as (_&o1&?&Hown&_); [unfold a_pending; set_solver|]. simplify_eq.
  destruct (inv_kind_wait _ _ _ I _ _ Hx) as [v Hv]. pose proof (HK _ _ _ Hx Hv) as Hk.
  unfold interrupt, interruptible_now. step. rewrite Hv. destruct v as [b [[]|]]; simpl in *.
  - destruct (proj1 Hk) as [r Hr]; [by eexists|]. rewrite Hr. simpl. apply post_nothrow.
    destruct (rw_linked r) eqn:Hl; [|unfold post; by rewrite (remote_interrupt_unlinked _ _ _ Hr Hl)].
    eapply post_mono; [by apply (remote_interrupt_linked ∅ w g gq x r o)| |done].
    intros _ w' (I'&W'&Hops&Hrem&F). split_and!; [done| |done|done| |].
    + eapply WInv_ext, W'; [done|]. intros q. destruct (decide (q = rw_queue r)) as [->|]; [by rewrite upd_at_eq|].
      rewrite upd_at_ne, without_notin by (congruence || intros (?&?&?&_)%(wi_linked _ _ _ _ W); congruence). done.
    + intros y Hy. by rewrite Hrem, lookup_insert_ne.
    + intros y. rewrite Hrem, lookup_insert_is_Some'. naive_solver.
  - assert (Hnr : w_remotes w !! x = None).
    { apply eq_None_not_Some. intros [? ?]%Hk. done. }
    step. pose proof (Inv_upd_op _ _ _ x o (refused o) I Ho eq_refl eq_refl) as I1.
    eapply post_mono; [apply (notify_spec _ _ _ x (refused o) I1 (lookup_insert_eq _ _ _) Hx)| |done].
    intros _ w' (I'&Hops&F). simpl in *. rewrite insert_insert_eq in Hops.
    destruct (frame_queues _ _ F) as (Q1&Q2&Q3&Q4&Q5). simpl in *. split_and!.
    + done.
    + eapply (WInv_ext ∅ _ _ _ gq); [done| |].
      { intros q. rewrite without_notin; [done|]. intros (?&?&_)%(wi_linked _ _ _ _ W). congruence. }
      eapply WInv_same; [exact W|done..| |].
      * intros y [? ?]. rewrite Hops. apply lookup_insert_ne. congruence.
      * intros L'. by apply (upd_g_proj a_inflight).
    + done.
    + etrans; [apply frame_rframe, frame_ops|]. by apply frame_rframe.
    + intros y _. by rewrite Q2.
    + intros y. by rewrite Q2.
Qed.

Definition minus (hits xs : list loc) : list loc := filter (λ y, y ∉ hits) xs.
Lemma minus_nil xs : minus [] xs = xs.
Proof. unfold minus. induction xs as [|x xs IH]; [done|]. by rewrite filter_cons_True, IH by apply not_elem_of_nil. Qed.
Lemma minus_cons x hits xs : minus (x :: hits) xs = minus hits (without x xs).
Proof.
  unfold minus, without. rewrite list_filter_filter. apply filter_agree. intros y _.
  rewrite not_elem_of_cons. tauto.
Qed.

Definition g_interrupts L hits (g : ghost) : ghost :=
  upd_g L (λ a, set_a_ready (a_ready a ++ hits) (set_a_waits (minus hits (a_waits a)) a)) g.

Lemma hooks_ok_sub w w' g g' :
  hooks_ok w g → w_waits w' = w_waits w → (∀ y, is_Some (w_remotes w' !! y) ↔ is_Some (w_remotes w !! y)) →
  (∀ L x, x ∈ a_waits (g' L) → x ∈ a_waits (g L)) → hooks_ok w' g'.
Proof. intros HK Hw Hr Hg L x v Hx Hv. rewrite Hr. rewrite Hw in Hv. by apply (HK L), Hv; apply Hg. Qed.

Lemma g_notify_waits L x g : a_waits (g_notify L x g L) = without x (a_waits (g L)).
Proof. unfold g_notify. by rewrite upd_g_eq. Qed.

Lemma rframe_loops w w' L l : rframe w w' → w_loops w !! L = Some l →
  ∃ l', w_loops w' !! L = Some l' ∧ loop_frame l l'.
Proof. intros [_ F] HL. specialize (F L). rewrite HL in F. destruct (w_loops w' !! L); [eauto|done]. Qed.

Lemma interrupt_waits_spec fuel all rest w g gq L l pre :
  Inv ∅ w g → WInv ∅ w g gq → hooks_ok w g → w_loops w !! L = Some l →
  a_waits (g L) = pre ++ rest → length rest ≤ fuel →
  runs (interrupt_waits fuel all (head rest)) w (λ _ w',
    let hits := filter (λ x, hit w all x = true) rest in
    Inv ∅ w' (g_interrupts L hits g) ∧ WInv ∅ w' (g_interrupts L hits g) (λ q, minus hits (gq q)) ∧
    w_ops w' = alter_all (λ o, retired (refused o)) hits (w_ops w) ∧ rframe w w').
Proof.
  revert w g gq l pre rest. induction fuel as [|fuel IH]; intros w g gq l pre rest I W HK HL Hws Hlen;
    destruct rest as [|x rest]; simpl in Hlen; try lia.
  1-2: apply post_ret; simpl; rewrite (alter_all_nil (λ o, retired (refused o))); split_and!; [eapply Inv_ext, I|eapply WInv_ext, W|done|done];
    intros; unfold g_interrupts, upd_g; try case_decide; subst; rewrite ?minus_nil, ?app_nil_r; by destruct (g L).
  pose proof (inv_waits _ _ _ I _ _ HL) as Hrep. rewrite Hws in Hrep.
  pose proof (dl_rep_NoDup _ _ _ Hrep) as Hnd. pose proof Hnd as [_ Hnx]%NoDup_middle.
  pose proof (dl_rep_next _ _ pre x rest Hrep) as Hk.
  assert (Hx : x ∈ a_waits (g L)) by (rewrite Hws; set_solver).
  destruct (inv_pending _ _ _ I L x) as (_&o&Ho&Hown&_); [unfold a_pending; set_solver|].
  destruct (inv_kind_wait _ _ _ I _ _ Hx) as [v Hv].
  cbn [interrupt_waits head]. apply post_bind. eapply post_deref; [exact Hk|]. step. step. simpl.
  assert (Hhit : hit w all x = wait_interruptible v && (all || op_canceled o) && interruptible_now w x).
  { unfold hit. by rewrite Hv, Ho. }
  apply post_bind. destruct (wait_interruptible v && (all || op_canceled o)) eqn:Hb; simpl in *.
  2: { apply post_ret. rewrite filter_cons, Hhit. simpl.
       apply (IH w g gq l (pre ++ [x])); [done..|by rewrite <- app_assoc|lia]. }
  eapply post_mono; [by apply (interrupt_spec w g gq L x o)| |done]. intros [] w1 Hw1.
  rewrite filter_cons, Hhit. destruct (interruptible_now w x); simpl.
  2: { subst w1. apply (IH w g gq l (pre ++ [x])); [done..|by rewrite <- app_assoc|lia]. }
  destruct Hw1 as (I1&W1&Hops1&F1&Hrem&HremS). pose proof F1 as [E1 _].
  assert (Hext : ∀ y, y ∈ rest → hit w1 all y = hit w all y).
  { intros y Hy. assert (y ≠ x) by set_solver. unfold hit, interruptible_now.
    rewrite (Hrem y), Hops1, lookup_insert_ne by done. by replace (w_waits w1) with (w_waits w) by (rewrite E1; done). }
  destruct (rframe_loops _ _ L l F1 HL) as (l1&HL1&_).
  assert (Hwo : without x (pre ++ x :: rest) = pre ++ rest) by (by apply without_middle).
  eapply post_mono; [eapply (IH w1 _ _ l1 pre rest I1 W1); [|done|by rewrite g_notify_waits, Hws|lia]| |done].
  { eapply hooks_ok_sub; [exact HK|by rewrite E1|done|]. intros L' y. unfold g_notify, upd_g.
    case_decide; [subst; simpl; rewrite elem_of_without; tauto|done]. }
  intros [] w2 (I2&W2&Hops2&F2).
  assert (Hfilt : filter (λ y, hit w1 all y = true) rest = filter (λ y, hit w all y = true) rest).
  { apply filter_agree. intros y Hy. by rewrite Hext. }
  rewrite Hfilt in *. set (hits := filter _ rest) in *.
  assert (Hg : ∀ L', g_interrupts L hits (g_notify L x g) L' = g_interrupts L (x :: hits) g L').
  { intros L'. unfold g_interrupts, g_notify. destruct (decide (L' = L)) as [->|]; [|by rewrite !upd_g_ne].
    rewrite !upd_g_eq. simpl. by rewrite <- app_assoc, minus_cons. }
  split_and!.
  - eapply Inv_ext, I2. exact Hg.
  - eapply WInv_ext, W2; [exact Hg|]. intros q. by rewrite minus_cons.
  - rewrite Hops2, Hops1. apply (alter_all_cons (λ o, retired (refused o))); [done|].
    intros [_ ?]%list_elem_of_filter. set_solver.
  - by etrans.
Qed.

(** ** Cancellation requests to the driver *)
Context `{!Driver D, !DriverOk D}.

(** A request the driver is still to be asked to cancel. *)
Definition unasked w (all : bool) x : bool :=
  to_cancel w all x && bool_decide (io_cancel_sent <$> w_ios w !! x = Some false).

Lemma cancel_ios_spec fuel all rest w g L l pre :
  Inv ∅ w g → w_loops w !! L = Some l → a_ios (g L) = pre ++ rest → length rest ≤ fuel →
  post (cancel_ios fuel L all (head rest)) w
    (λ _ w', drv_frame w w' ∧ (∀ x, ¬ (x ∈ rest ∧ unasked w all x = true) → w_ios w' !! x = w_ios w !! x) ∧
       ∀ x, x ∈ rest → to_cancel w all x = true → io_cancel_sent <$> w_ios w' !! x = Some true)
    (λ _ w', drv_frame w w').
Proof.
  revert w l pre rest. induction fuel as [|fuel IH]; intros w l pre rest I HL Hios Hlen;
    destruct rest as [|x rest]; simpl in Hlen; try lia; [apply post_ret; split_and!; [done..|set_solver]..|].
  pose proof (inv_ios _ _ _ I _ _ HL) as Hrep. rewrite Hios in Hrep.
  pose proof (dl_rep_NoDup _ _ _ Hrep) as [_ Hnx]%NoDup_middle.
  pose proof (dl_rep_next _ _ pre x rest Hrep) as Hk.
  destruct (inv_pending _ _ _ I L x) as (_&o&Ho&Hown&_); [unfold a_pending; rewrite Hios; set_solver|].
  destruct (inv_kind_io _ _ _ I L x) as [i Hi]; [rewrite Hios; set_solver|].
  cbn [cancel_ios head]. apply post_bind. eapply post_deref; [exact Hk|]. step. step. simpl.
  assert (Hd : to_cancel w all x = all || op_canceled o) by (unfold to_cancel; by rewrite Ho).
  apply post_bind.
  assert (Hu : unasked w all x = negb (io_cancel_sent i) && (all || op_canceled o)).
  { unfold unasked. rewrite Hd, Hi, andb_comm. f_equal. simpl. by destruct (io_cancel_sent i). }
  eapply (post_mono _ _ (λ _ w', drv_frame w w' ∧
    (∀ y, ¬ (y = x ∧ unasked w all x = true) → w_ios w' !! y = w_ios w !! y) ∧
    (to_cancel w all x = true → io_cancel_sent <$> w_ios w' !! x = Some true))
    _ (λ _ w', drv_frame w w')); [|intros [] w1 (F1&Ho1&Hs1)|done].
  - rewrite Hd. apply post_when.
    + intros Hc. eapply post_mono; [apply cancel_ok; eauto| |done]. intros _ w' (?&?&?). rewrite Hu, Hc. naive_solver.
    + intros Hc. split_and!; [done..|]. intros Hd'. rewrite Hd', andb_true_r in Hc.
      apply negb_false_iff in Hc. by rewrite Hi, <- Hc.
  - pose proof F1 as (E1&F1'&_).
    assert (∃ l1, w_loops w1 !! L = Some l1) as [l1 HL1].
    { specialize (F1' L). rewrite HL in F1'. destruct (w_loops w1 !! L); [eauto|done]. }
    eapply post_mono; [eapply (IH w1 l1 (pre ++ [x]) rest); [by eapply Inv_drv|done|by rewrite <- app_assoc|lia]| |].
    + intros _ w2 (F2&Ho2&Hs2). split_and!; [by etrans| |].
      * intros y Hy. destruct (decide (y = x)) as [->|Hne].
        { rewrite Ho2 by (intros [? _]; apply Hnx, elem_of_app; by right). apply Ho1. intros [_ Hux].
          apply Hy. split; [by left|done]. }
        assert (Hy1 : unasked w1 all y = unasked w all y).
        { unfold unasked, to_cancel. rewrite Ho1 by (by intros [-> _]). by rewrite E1. }
        rewrite Ho2, Ho1; [done|by intros [-> _]|]. rewrite Hy1. intros [? ?]. apply Hy. split; [by right|done].
      * intros y Hy Hdy. assert (to_cancel w1 all y = true) by (unfold to_cancel; rewrite E1; exact Hdy).
        apply elem_of_cons in Hy as [->|Hy]; [|by apply Hs2].
        rewrite Ho2 by (intros [? _]; apply Hnx, elem_of_app; by right). by apply Hs1.
    + intros e w2 F2. by etrans.
Qed.

(** ** The cancellation scan *)
Lemma Inv_timers_perm X w g L ts :
  Inv X w g → ts ≡ₚ a_timers (g L) → Inv X w (upd_g L (set_a_timers ts) g).
Proof.
  intros I Hp.
  assert (Hpend : ∀ L' y, y ∈ a_pending (upd_g L (set_a_timers ts) g L') ↔ y ∈ a_pending (g L')).
  { intros L' y. unfold upd_g. case_decide as Hd; [subst L'|done]. unfold a_pending. simpl.
    rewrite !elem_of_app. by rewrite Hp. }
  inv_fields I.
  - intros L'. unfold upd_g. case_decide; simpl; [by rewrite Hp|done].
  - intros L' y. unfold upd_g. case_decide; simpl; [rewrite Hp|]; eauto.
  - intros L' y Hy%Hpend. eauto.
  - intros y o Ho Ha. rewrite Hpend. eauto.
Qed.

Lemma set_w_loops_2 m m' w : set_w_loops m (set_w_loops m' w) = set_w_loops m w.
Proof. done. Qed.

(** Dropping the cancelled timers and rebuilding the heap. *)
Definition gone_timers w (l : loop D) : list loc := filter (λ x, to_cancel w (l_stopping l) x = true) (l_timers l).
Lemma cancel_timers_spec w g L l :
  Inv ∅ w g → timers_ok w g → w_loops w !! L = Some l →
  runs (cancel_timers L (l_stopping l) (l_timers l)) w (λ _ w', ∃ ts,
    ts ≡ₚ filter (λ x, to_cancel w (l_stopping l) x = false) (l_timers l) ∧
    Inv ∅ w' (g_timers L (gone_timers w l) ts g) ∧ timers_ok w' (g_timers L (gone_timers w l) ts g) ∧
    w_ops w' = alter_all (λ o, retired (refused o)) (gone_timers w l) (w_ops w) ∧ tframe w w').
Proof.
  intros I HT HL. destruct (HT L l HL) as (Hat&ks0&Hks0&_). unfold cancel_timers. apply post_bind.
  eapply post_mono; [apply (remove_timers_spec L (l_stopping l) (l_timers l) w g [] I); by rewrite <- Hat| |done].
  intros kept w1 (->&I1&Hops1&F1). fold (gone_timers w l) in *. set (kept := filter _ (l_timers l)) in *. simpl in *.
  destruct (frame_loops _ _ _ _ F1 HL) as (l1&HL1&Hl1). step.
  set (w2 := set_w_loops _ w1).
  assert (HL2 : w_loops w2 !! L = Some (set_l_timers kept l1)) by (unfold w2; simpl; apply lookup_insert_eq).
  assert (∃ ks, timer_keys w2 kept = Some ks) as [ks Hks].
  { exists (filter (λ k : loc * Z, to_cancel w (l_stopping l) k.1 = false) ks0).
    assert (Ht : w_timers w2 = w_timers w) by (destruct F1 as [E _]; unfold w2; simpl; by rewrite E).
    unfold timer_keys. rewrite Ht. fold (timer_keys w kept). apply timer_keys_Some in Hks0 as [Heq Hall].
    apply timer_keys_Some. unfold kept. rewrite Heq. rewrite !Forall_forall in *.
    split; [|intros k [_ ?]%list_elem_of_filter; by apply Hall].
    clear. induction ks0 as [|k ks0 IH]; [done|]. simpl. rewrite !filter_cons. simpl.
    destruct (decide (to_cancel w (l_stopping l) k.1 = false)); [apply (f_equal (cons k.1))|]; exact IH. }
  unfold post. rewrite (reheap_run _ _ _ make_heap _ HL2 Hks). exists (make_heap ks).*1.
  pose proof (make_heap_perm ks) as Hp. pose proof Hks as [Hkeq _]%timer_keys_Some.
  assert (Hperm : (make_heap ks).*1 ≡ₚ kept) by (by rewrite Hp, <- Hkeq).
  assert (Hg : ∀ L', upd_g L (set_a_timers (make_heap ks).*1) (g_timers L (gone_timers w l) kept g) L' =
                     g_timers L (gone_timers w l) (make_heap ks).*1 g L').
  { intros L'. unfold g_timers. destruct (decide (L' = L)) as [->|]; [|by rewrite !upd_g_ne]. by rewrite !upd_g_eq. }
  unfold w2. simpl. rewrite insert_insert_eq, set_w_loops_2. split_and!; [done| | |done|].
  - eapply Inv_ext; [exact Hg|]. apply Inv_timers_perm; [|unfold g_timers; by rewrite upd_g_eq].
    by eapply Inv_upd_loop.
  - intros L' l' HL'. simpl in HL'. apply lookup_insert_Some in HL' as [[<- <-]|[Hne HL']].
    + unfold g_timers. rewrite upd_g_eq. simpl. split; [done|]. exists (make_heap ks).
      split; [|apply make_heap_heap]. eapply (timer_keys_perm w2); [exact Hks|done].
    + unfold g_timers. rewrite upd_g_ne by done.
      apply (timers_ok_same w w1 g g HT); [by apply frame_same_timers|done|done].
  - etrans; [by apply frame_tframe|]. by apply (tframe_timers w1 L l1).
Qed.

Definition hit_waits w g L (l : loop D) : list loc := filter (λ x, hit w (l_stopping l) x = true) (a_waits (g L)).
Definition g_cancel L gone ts hits (g : ghost) : ghost :=
  upd_g L (λ a, set_a_ready (a_ready a ++ gone ++ hits) (set_a_waits (minus hits (a_waits a)) (set_a_timers ts a))) g.

(** The operations of waits and requests are not those of timers. *)
Lemma not_timer w g L L' x :
  Inv ∅ w g → x ∈ a_waits (g L) ∨ x ∈ a_ios (g L) → x ∉ a_timers (g L').
Proof.
  intros I Hx Hx'. destruct (inv_kind_timer _ _ _ I _ _ Hx') as [v Hv]. destruct Hx as [Hx|Hx].
  - destruct (inv_class _ _ _ I x) as [_ ?]; [by eapply inv_kind_wait|congruence].
  - pose proof (inv_classes _ _ _ I x (inv_kind_io _ _ _ I _ _ Hx)). congruence.
Qed.

(** Retiring timers leaves every other operation alone. *)
Lemma timers_other f w w1 g gq L xs ts :
  Inv ∅ w g → WInv ∅ w g gq → (∀ x, x ∈ xs → x ∈ a_timers (g L)) → tframe w w1 →
  w_ops w1 = alter_all f xs (w_ops w) →
  (∀ x, x ∉ a_timers (g L) → w_ops w1 !! x = w_ops w !! x) ∧ WInv ∅ w1 (g_timers L xs ts g) gq.
Proof.
  intros I W Hxs [E1 _] Hops.
  assert (Hx : ∀ x, x ∉ a_timers (g L) → w_ops w1 !! x = w_ops w !! x).
  { intros x Hx. rewrite Hops, lookup_alter_all. destruct (w_ops w !! x); [|done]. simpl.
    rewrite decide_False; [done|]. auto. }
  split; [done|]. eapply WInv_same; [exact W|by rewrite E1..| |intros L'; by apply (upd_g_proj a_inflight)].
  intros y [r Hr]. apply Hx. intros [v Hv]%(inv_kind_timer _ _ _ I).
  destruct (wi_remote _ _ _ _ W _ _ Hr) as (Hw&_). destruct (inv_class _ _ _ I _ Hw). congruence.
Qed.
Lemma gone_timers_in w g L l x : timers_ok w g → w_loops w !! L = Some l → x ∈ gone_timers w l → x ∈ a_timers (g L).
Proof. intros HT HL [_ Hx]%list_elem_of_filter. destruct (HT L l HL) as (<-&_). done. Qed.

Lemma cancel_requests_spec w g gq L l all :
  Inv ∅ w g → timers_ok w g → WInv ∅ w g gq → w_loops w !! L = Some l →
  post (cancel_requests L all) w
    (λ _ w', (Inv ∅ w' g ∧ timers_ok w' g ∧ WInv ∅ w' g gq) ∧ drv_frame w w' ∧ is_Some (w_loops w' !! L) ∧
       (∀ x, ¬ (x ∈ a_ios (g L) ∧ unasked w all x = true) → w_ios w' !! x = w_ios w !! x) ∧
       ∀ x, x ∈ a_ios (g L) → to_cancel w all x = true → io_cancel_sent <$> w_ios w' !! x = Some true)
    (λ _ w', Inv ∅ w' g ∧ timers_ok w' g ∧ WInv ∅ w' g gq).
Proof.
  intros I HT W HL.
  assert (Hkeep : ∀ w', drv_frame w w' → Inv ∅ w' g ∧ timers_ok w' g ∧ WInv ∅ w' g gq).
  { intros w' F. pose proof F as (E&_). split_and!; [by eapply Inv_drv| |].
    - eapply timers_ok_same; [exact HT|by apply drv_same_timers|done].
    - eapply WInv_same; [exact W|by rewrite E..| |done]. intros y _. by rewrite E. }
  unfold cancel_requests. step. step. pose proof (inv_ios _ _ _ I _ _ HL) as Hrep. rewrite (dl_rep_head _ _ _ Hrep).
  eapply post_mono; [eapply (cancel_ios_spec _ _ (a_ios (g L)) w g L l []); [done..|]| |auto].
  { apply NoDup_length_le_size; [by eapply dl_rep_NoDup|]. intros y Hy. by eapply dl_rep_lookup. }
  intros [] w2 (F&Hn&Hs). split_and!; [by apply Hkeep..|done| |done|done].
  destruct F as (_&F&_). specialize (F L). rewrite HL in F. destruct (w_loops w2 !! L); [eauto|done].
Qed.

Lemma interrupt_all_spec w g gq L l all :
  Inv ∅ w g → timers_ok w g → WInv ∅ w g gq → hooks_ok w g → w_loops w !! L = Some l →
  runs (interrupt_all L all) w (λ _ w',
    let hits := filter (λ x, hit w all x = true) (a_waits (g L)) in
    Inv ∅ w' (g_interrupts L hits g) ∧ timers_ok w' (g_interrupts L hits g) ∧
    WInv ∅ w' (g_interrupts L hits g) (λ q, minus hits (gq q)) ∧
    w_ops w' = alter_all (λ o, retired (refused o)) hits (w_ops w) ∧ rframe w w').
Proof.
  intros I HT W HK HL. unfold interrupt_all. step. step.
  pose proof (inv_waits _ _ _ I _ _ HL) as Hrep. rewrite (dl_rep_head _ _ _ Hrep).
  eapply post_mono; [eapply (interrupt_waits_spec _ _ (a_waits (g L)) w g gq L l []); [done..|]| |done].
  { apply NoDup_length_le_size; [by eapply dl_rep_NoDup|]. intros y Hy. by eapply dl_rep_lookup. }
  intros [] w' (I'&W'&Hops&F). split_and!; [done| |done..].
  eapply timers_ok_same; [done|by apply rframe_same_timers|]. intros L'. by apply (upd_g_proj a_timers).
Qed.

Lemma alter_all_app f xs ys m : (∀ x, x ∈ xs → x ∉ ys) → alter_all f ys (alter_all f xs m) = alter_all f (xs ++ ys) m.
Proof.
  intros Hxy. apply map_eq. intros x. rewrite !lookup_alter_all. destruct (m !! x) as [o|]; [|done]. simpl. f_equal.
  repeat case_decide; set_solver.
Qed.

(** What a scan leaves behind, when the driver refuses nothing and when it does. *)
Record canceled_spec w g gq L l w' ts : Prop := {
  cs_kept : ts ≡ₚ filter (λ x, to_cancel w (l_stopping l) x = false) (l_timers l);
  cs_inv : Inv ∅ w' (g_cancel L (gone_timers w l) ts (hit_waits w g L l) g);
  cs_timers : timers_ok w' (g_cancel L (gone_timers w l) ts (hit_waits w g L l) g);
  cs_queues : WInv ∅ w' (g_cancel L (gone_timers w l) ts (hit_waits w g L l) g) (λ q, minus (hit_waits w g L l) (gq q));
  cs_ops : w_ops w' = alter_all (λ o, retired (refused o)) (gone_timers w l ++ hit_waits w g L l) (w_ops w);
  cs_ios x : x ∈ a_ios (g L) → to_cancel w (l_stopping l) x = true → io_cancel_sent <$> w_ios w' !! x = Some true;
  cs_others x : ¬ (x ∈ a_ios (g L) ∧ unasked w (l_stopping l) x = true) → w_ios w' !! x = w_ios w !! x;
  cs_due x : due w' x = due w x;
  cs_loop : is_Some (w_loops w' !! L) }.
Definition refused_spec w g gq L l w' : Prop := ∃ ts,
  ts ≡ₚ filter (λ x, to_cancel w (l_stopping l) x = false) (l_timers l) ∧
  Inv ∅ w' (g_timers L (gone_timers w l) ts g) ∧ timers_ok w' (g_timers L (gone_timers w l) ts g) ∧
  WInv ∅ w' (g_timers L (gone_timers w l) ts g) gq.

Lemma cancel_pending_spec w g gq L l :
  Inv ∅ w g → timers_ok w g → WInv ∅ w g gq → hooks_ok w g → w_loops w !! L = Some l →
  post (cancel_pending L) w (λ _ w', ∃ ts, canceled_spec w g gq L l w' ts) (λ _ w', refused_spec w g gq L l w').
Proof.
  intros I HT W HK HL. destruct (HT L l HL) as (Hat&_). unfold cancel_pending. step. apply post_bind.
  eapply post_mono; [by apply (cancel_timers_spec w g L l)| |done]. intros [] w1 (ts&Hts&I1&HT1&Hops1&F1).
  destruct (timers_other _ _ _ _ _ L _ ts I W (λ x, gone_timers_in w g L l x HT HL) F1 Hops1) as [Hops1x W1].
  set (gone := gone_timers w l) in *. set (g1 := g_timers L gone ts g) in *. pose proof F1 as [E1 _].
  destruct (tframe_loop _ _ _ _ F1 HL) as (l1&HL1&_).
  assert (Hg1i : a_ios (g1 L) = a_ios (g L)) by (by apply (upd_g_proj a_ios)).
  assert (Hg1w : ∀ L', a_waits (g1 L') = a_waits (g L')) by (intros L'; by apply (upd_g_proj a_waits)).
  apply post_bind. eapply post_mono; [apply (cancel_requests_spec w1 g1 gq L l1 (l_stopping l)); done| |].
  2: { intros e w2 (I2&HT2&W2). exists ts. done. }
  intros [] w2 ((I2&HT2&W2)&F2&[l2 HL2]&Hn2&Hs2). rewrite Hg1i in Hs2, Hn2. pose proof F2 as (E2&_).
  assert (HK2 : hooks_ok w2 g1).
  { eapply hooks_ok_sub; [exact HK|by rewrite E2, E1|intros y; by rewrite E2, E1|]. intros L' x. by rewrite Hg1w. }
  eapply post_mono; [apply (interrupt_all_spec w2 g1 gq L l2 (l_stopping l) I2 HT2 W2 HK2 HL2)| |done].
  rewrite Hg1w. intros [] w3 (I3&HT3&W3&Hops3&F3). pose proof F3 as [E3 _].
  assert (Hops2 : w_ops w2 = w_ops w1) by (by rewrite E2).
  assert (Hh : filter (λ x, hit w2 (l_stopping l) x = true) (a_waits (g L)) = hit_waits w g L l).
  { apply filter_agree. intros x Hx. unfold hit, interruptible_now. rewrite Hops2, Hops1x by (eapply not_timer; [done|by left]).
    by replace (w_waits w2) with (w_waits w) by (by rewrite E2, E1);
      replace (w_remotes w2) with (w_remotes w) by (by rewrite E2, E1). }
  rewrite Hh in *. set (hits := hit_waits w g L l) in *.
  assert (Hg : ∀ L', g_interrupts L hits g1 L' = g_cancel L gone ts hits g L').
  { intros L'. unfold g1, g_interrupts, g_timers, g_cancel.
    destruct (decide (L' = L)) as [->|]; [|by rewrite !upd_g_ne]. rewrite !upd_g_eq. simpl. by rewrite <- app_assoc. }
  assert (Hio : ∀ x, x ∈ a_ios (g L) → to_cancel w1 (l_stopping l) x = to_cancel w (l_stopping l) x).
  { intros x Hx. unfold to_cancel. rewrite Hops1x; [done|]. eapply not_timer; [done|by right]. }
  exists ts. constructor; fold gone hits.
  - done.
  - eapply Inv_ext, I3. exact Hg.
  - intros L' l'. rewrite <- Hg. apply HT3.
  - eapply WInv_ext, W3; [exact Hg|done].
  - rewrite Hops3, Hops2, Hops1. apply alter_all_app. intros x [_ Hx]%list_elem_of_filter [_ Hx']%list_elem_of_filter.
    rewrite Hat in Hx. eapply not_timer, Hx; [done|by left].
  - intros x Hx Hd. rewrite E3. simpl. apply Hs2; [done|]. by rewrite Hio.
  - intros x Hx. rewrite E3. simpl. rewrite Hn2 by (unfold unasked; intros [Hin Hy]; rewrite Hio, E1 in Hy by done; by apply Hx).
    by rewrite E1.
  - intros x. unfold due. by rewrite E3, E2, E1.
  - destruct (rframe_loops _ _ _ _ F3 HL2) as (l3&?&_). by eexists.
Qed.

(** ** [expire] *)
Context `{!Program D}.
Variable clock : world D → Z.
Hypothesis clock_reads : ∀ w, clock_now w = Ret (clock w) w.

(** The system as it is when [expire] reads the clock: [cancel_] is cleared, and a pending
    cancellation has been carried out. *)
Definition scanned w L (l : loop D) w1 : Prop :=
  when (l_cancel l) (cancel_pending L) (set_w_loops (<[L := set_l_cancel false l]> (w_loops w)) w) = Ret tt w1.

(** The lists after a scan that cancels [gone] and [hits] and fires [fired]. *)
Definition g_expire L gone hits fired ts (g : ghost) : ghost :=
  upd_g L (λ a, set_a_ready (a_ready a ++ (gone ++ hits) ++ fired)
                  (set_a_waits (minus hits (a_waits a)) (set_a_timers ts a))) g.

Record expired_spec w g (gq : loc → list loc) L (l : loop D) w' (gone hits fired ts : list loc) now : Prop := {
  es_live : fired ++ ts ≡ₚ filter (λ x, x ∉ gone) (l_timers l);
  es_due x : x ∈ fired → (due w x ≤ now)%Z;
  es_later x : x ∈ ts → (now < due w x)%Z;
  es_order : StronglySorted (λ x y, due w x ≤ due w y)%Z fired;
  es_inv : Inv ∅ w' (g_expire L gone hits fired ts g);
  es_timers : timers_ok w' (g_expire L gone hits fired ts g);
  es_queues : WInv ∅ w' (g_expire L gone hits fired ts g) (λ q, minus hits (gq q));
  es_ops : w_ops w' = alter_all retired fired (alter_all (λ o, retired (refused o)) (gone ++ hits) (w_ops w)) }.

Lemma fire_spec w0 w g gq L l gone hits ts0 now :
  w_loops w !! L = Some l → l_timers l ≡ₚ ts0 → (∀ x, due w x = due w0 x) →
  Inv ∅ w (g_cancel L gone ts0 hits g) → timers_ok w (g_cancel L gone ts0 hits g) →
  WInv ∅ w (g_cancel L gone ts0 hits g) (λ q, minus hits (gq q)) →
  w_ops w = alter_all (λ o, retired (refused o)) (gone ++ hits) (w_ops w0) →
  runs (fire_due (length (l_timers l)) L now) w (λ _ w', w_ios w' = w_ios w ∧ ∃ fired ts,
    ∀ l0, ts0 ≡ₚ filter (λ x, x ∉ gone) (l_timers l0) →
      expired_spec w0 g gq L l0 w' gone hits fired ts now).
Proof.
  intros HL Hl Hdue I HT W Hops. set (g1 := g_cancel L gone ts0 hits g) in *.
  eapply post_mono; [by apply (fire_due_spec _ w g1 L l now)| |done].
  intros [] w' (fired&ts&Hp&Hf&Hts&Hs&I'&HT'&Hops'&F).
  destruct (HT L l HL) as (Hat&_).
  destruct (timers_other retired w w' g1 _ L fired ts I W) as [_ W']; [|done..|].
  { intros x Hx. rewrite <- Hat, <- Hp. set_solver. }
  assert (Hg : ∀ L', g_timers L fired ts g1 L' = g_expire L gone hits fired ts g L').
  { intros L'. unfold g1, g_timers, g_cancel, g_expire. destruct (decide (L' = L)) as [->|]; [|by rewrite !upd_g_ne].
    rewrite !upd_g_eq. simpl. by rewrite <- app_assoc. }
  split; [by destruct F as [-> _]|]. exists fired, ts. intros l0 Hl0. constructor.
  - by rewrite Hp, Hl.
  - intros x. rewrite <- Hdue. apply Hf.
  - intros x. rewrite <- Hdue. apply Hts.
  - eapply StronglySorted_sub, Hs. intros x y. simpl. by rewrite !Hdue.
  - eapply Inv_ext, I'. exact Hg.
  - intros L' l'. rewrite <- Hg. apply HT'.
  - eapply WInv_ext, W'; [exact Hg|done].
  - by rewrite Hops', Hops.
Qed.

Lemma filter_true (P : loc → Prop) `{!∀ x, Decision (P x)} (xs : list loc) : (∀ x, x ∈ xs → P x) → filter P xs = xs.
Proof. induction xs as [|x xs IH]; intros HP; [done|]. rewrite filter_cons_True, IH by set_solver. done. Qed.

(** The requests after a scan: every request concerned has its cancellation sent, and only
    those concerned that had not been asked before are touched. *)
Record asked_spec w g L (l : loop D) w' : Prop := {
  as_sent x : l_cancel l = true → x ∈ a_ios (g L) → to_cancel w (l_stopping l) x = true →
    io_cancel_sent <$> w_ios w' !! x = Some true;
  as_others x : ¬ (l_cancel l = true ∧ x ∈ a_ios (g L) ∧ unasked w (l_stopping l) x = true) →
    w_ios w' !! x = w_ios w !! x }.

(** C1: One scan of [expire].  A pending cancellation (of everything when the loop is
    stopping, of the marked operations otherwise) retires the timers and interruptible
    waits it concerns with [operation_canceled] and sends a cancellation for exactly the
    requests it concerns that have not been asked before; every other request, delivered
    remote waiters and non-interruptible waits stay as they are.  Then the clock is read,
    once, and exactly the remaining timers whose deadline is at or before that reading
    become ready, in the order of their deadlines.  Every list keeps its representation; if
    the driver refuses a cancellation, the exception leaves the system consistent with the
    timers already scanned. *)
Theorem expire_spec w g gq L l :
  Inv ∅ w g → timers_ok w g → WInv ∅ w g gq → hooks_ok w g → w_loops w !! L = Some l →
  post (expire L) w
    (λ _ w', ∃ w1 fired ts, scanned w L l w1 ∧
       expired_spec w g gq L l w' (if l_cancel l then gone_timers w l else [])
         (if l_cancel l then hit_waits w g L l else []) fired ts (clock w1) ∧
       asked_spec w g L l w')
    (λ _ w', l_cancel l = true ∧ refused_spec w g gq L l w').
Proof.
  intros I HT W HK HL. unfold expire, scanned. step. step. set (w0 := set_w_loops _ w).
  set (l0 := set_l_cancel false l).
  assert (I0 : Inv ∅ w0 g) by (by eapply Inv_upd_loop).
  assert (HL0 : w_loops w0 !! L = Some l0) by apply lookup_insert_eq.
  assert (HT0 : timers_ok w0 g).
  { eapply timers_ok_same; [exact HT| |done]. split; [done|]. intros L'. unfold w0. simpl.
    destruct (decide (L = L')) as [<-|]; [by rewrite lookup_insert_eq, HL|by rewrite lookup_insert_ne]. }
  assert (W0 : WInv ∅ w0 g gq) by (destruct W; by constructor).
  apply post_bind. destruct (l_cancel l) eqn:Hc; simpl.
  - eapply post_mono; [apply post_self; by apply (cancel_pending_spec w0 g gq L l0)| |].
    2: { intros e w' Hr. split; [done|exact Hr]. }
    intros [] w1 (Hw1&ts0&[Hk I1 HT1 W1 Hops1 Hios1 Hoth1 Hdue1 [l1 HL1]]).
    apply post_bind. unfold post at 1. rewrite clock_reads. step.
    destruct (HT1 _ _ HL1) as (Hat1&_). unfold g_cancel in Hat1. rewrite upd_g_eq in Hat1. simpl in Hat1.
    eapply post_mono; [apply (fire_spec w0 w1 g gq L l1 (gone_timers w l) (hit_waits w g L l) ts0 (clock w1)); done || by rewrite Hat1| |done].
    intros [] w2 (Hios2&fired&ts&Hsp). exists w1, fired, ts. split_and!; [done| |].
    2: { constructor; intros x; rewrite Hios2; [intros _; apply Hios1|intros Hx; apply Hoth1; naive_solver]. }
    destruct (Hsp l) as []; [|by constructor]. rewrite Hk. change (to_cancel w0) with (to_cancel w).
    change (l_stopping l0) with (l_stopping l). simpl. erewrite filter_agree; [done|].
    intros x Hx. simpl. unfold gone_timers. rewrite list_elem_of_filter. destruct (to_cancel w (l_stopping l) x); naive_solver.
  - apply post_ret. apply post_bind. unfold post at 1. rewrite clock_reads. step.
    destruct (HT0 _ _ HL0) as (Hat0&_).
    assert (Hg : ∀ L', g L' = g_cancel L [] (l_timers l) [] g L').
    { intros L'. unfold g_cancel, upd_g. case_decide; [subst|done]. simpl in Hat0. rewrite Hat0, minus_nil, app_nil_r. by destruct (g L). }
    eapply post_mono; [apply (fire_spec w0 w0 g gq L l0 [] [] (l_timers l) (clock w0)); try done| |done].
    + eapply Inv_ext, I0. exact Hg.
    + intros L' l'. rewrite <- Hg. apply HT0.
    + eapply WInv_ext, W0; [exact Hg|]. intros q. by rewrite minus_nil.
    + by rewrite (alter_all_nil (λ o, retired (refused o))).
    + intros [] w2 (Hios2&fired&ts&Hsp). exists w0, fired, ts. split_and!; [done| |].
      2: { constructor; [by rewrite Hc|]. intros x _. by rewrite Hios2. }
      destruct (Hsp l) as []; [|by constructor]. rewrite filter_true; [done|]. intros x _. apply not_elem_of_nil.
Qed.
End expire.
