(* ===== verification/RunLoop.v ===== *)
(** * The event loop: messages, iterations, entry and exit

    The bounded batch of messages of one iteration, the wake-up protocol between
    threads, and what [run] promises when it returns or throws. *)
From S2P Require Import Prelude ReadyQueue Links Heap Core Loop LoopInv LoopSpec Event WaitQueue Io Run RunSpec.

Section batch.
Context {D : Type}.
Implicit Types (x : loc) (L : loopid) (w : world D) (g : ghost).

(** ** [detach] *)
Definition g_detach n L (g : ghost) : ghost :=
  upd_g L (λ a, set_a_batch (a_batch a ++ take n (a_msgs a)) (set_a_msgs (drop n (a_msgs a)) a)) g.

Lemma g_detach_inflight n L g L' : a_inflight (g_detach n L g L') = a_inflight (g L').
Proof.
  apply (upd_g_proj a_inflight). unfold a_inflight. simpl. by rewrite <- app_assoc, take_drop.
Qed.

(** What moving messages around may change. *)
Definition mframe w w' : Prop := w' = set_w_next (w_next w') (set_w_loops (w_loops w') w).
#[global] Instance mframe_preorder : PreOrder mframe.
Proof. split; [by intros []|]. intros w1 w2 w3 E1 E2. unfold mframe in *. rewrite E2, E1. by destruct w3. Qed.

(** Taking a batch of messages moves the oldest messages, at most [n], from the loop's
    queue to the batch and keeps their order; every other list is as before. *)
Theorem detach_spec n X w g L l :
  Inv X w g → w_loops w !! L = Some l →
  runs (detach n L) w (λ _ w', Inv X w' (g_detach n L g) ∧ mframe w w' ∧ is_Some (w_loops w' !! L)).
Proof.
  revert w g l. induction n as [|n IH]; intros w g l I HL; cbn [detach].
  { apply post_ret. split_and!; [|done|by eexists]. eapply Inv_ext, I. intros L'. unfold g_detach, upd_g.
    case_decide; [subst|done]. rewrite take_0, drop_0, app_nil_r. by destruct (g L). }
  destruct (a_msgs (g L)) as [|x ms] eqn:Hms.
  { apply post_bind. unfold post at 1. rewrite (pop_msgs_nil _ _ _ _ _ I HL Hms). apply post_ret.
    split_and!; [|done|by eexists]. eapply Inv_ext, I. intros L'. unfold g_detach, upd_g.
    case_decide; [subst|done]. rewrite Hms, take_nil, drop_nil, app_nil_r. destruct (g L); simpl in *; by subst. }
  destruct (inv_msg_node _ _ _ I L x) as (m&Hm&Hown); [unfold a_inflight; rewrite Hms; set_solver|].
  pose proof (inv_inflight _ _ _ I L) as Hnd. unfold a_inflight in Hnd. rewrite Hms in Hnd.
  apply NoDup_middle in Hnd as [_ Hx].
  apply post_bind. eapply pop_msgs_run; [done..|]. pose proof (Inv_pop_msgs _ _ _ _ _ _ _ I HL Hms) as I1.
  set (w1 := msgs_popped w L x ms) in *. set (g1 := upd_g L (set_a_msgs ms) g) in *.
  assert (∃ l1, w_loops w1 !! L = Some l1) as [l1 HL1].
  { unfold w1, msgs_popped. simpl. rewrite lookup_alter_eq, HL. by eexists. }
  assert (Hx1 : x ∉ a_inflight (g1 L)) by (unfold g1; rewrite upd_g_eq; done).
  apply post_bind. eapply (push_batch_run X w1 g1 L l1 x m); [done..|].
  pose proof (Inv_push_batch _ _ _ _ _ _ _ I1 HL1 Hm Hown Hx1) as I2.
  set (w2 := batch_pushed w1 g1 L x) in *.
  assert (∃ l2, w_loops w2 !! L = Some l2) as [l2 HL2].
  { unfold w2, batch_pushed. simpl. rewrite lookup_alter_eq. unfold w1, msgs_popped. simpl.
    rewrite lookup_alter_eq, HL. by eexists. }
  eapply post_mono; [by apply (IH w2 _ l2 I2)| |done]. intros [] w' (I'&F&Hs). split_and!; [|by etrans; [|exact F]|done].
  eapply Inv_ext, I'. intros L'. unfold g_detach, g1. destruct (decide (L' = L)) as [->|]; [|by rewrite !upd_g_ne].
  rewrite !upd_g_eq. simpl. by rewrite Hms, <- app_assoc.
Qed.

(** ** Delivered waiters *)
Definition g_run L xs (g : ghost) : ghost :=
  upd_g L (λ a, set_a_ready (a_ready a ++ xs) (set_a_waits (minus xs (a_waits a)) (set_a_batch [] a))) g.

(** A message leaves the batch: its waiter is about to be notified. *)
Lemma WInv_pop_batch w g gq L l x xs r o :
  Inv ∅ w g → WInv ∅ w g gq → w_loops w !! L = Some l → a_batch (g L) = x :: xs → w_remotes w !! x = Some r →
  w_ops w !! x = Some o → op_owner o = L →
  rw_linked r = false ∧ WInv {[x]} (batch_popped w L x xs) (upd_g L (set_a_batch xs) g) gq.
Proof.
  intros I W HL Hb Hr Ho Hown. pose proof (inv_inflight _ _ _ I L) as Hnd. unfold a_inflight in Hnd.
  rewrite Hb in Hnd. simpl in Hnd. apply NoDup_cons in Hnd as [Hx Hnd].
  assert (HxL : x ∈ a_inflight (g L)) by (unfold a_inflight; rewrite Hb; set_solver).
  assert (Hl : rw_linked r = false).
  { destruct (wi_remote _ _ _ _ W _ _ Hr) as (_&_&_&o'&?&_&Hst). simplify_eq. unfold status in Hst.
    destruct (rw_linked r); [|done]. destruct Hst as (_&[]&_). done. }
  split; [done|]. pose proof W as []. constructor; simpl; try assumption.
  intros y ry Hry. destruct (wi_remote y ry Hry) as (?&?&?&oy&Hoy&?&Hst). split_and!; [done..|].
  exists oy. split_and!; [done..|]. unfold status in *.
  assert (Hin : y ≠ x → y ∈ a_inflight (upd_g L (set_a_batch xs) g (op_owner oy)) ↔ y ∈ a_inflight (g (op_owner oy))).
  { intros Hne. unfold upd_g. case_decide as Hd; [|done]. rewrite Hd. unfold a_inflight. simpl. rewrite Hb. set_solver. }
  destruct (decide (y = x)) as [->|Hne].
  - simplify_eq. rewrite Hl in *. rewrite upd_g_eq. unfold a_inflight at 1 2. simpl. set_solver.
  - specialize (Hin Hne). destruct (rw_linked ry); set_solver.
Qed.

Context `{!StdHeap loc, !Driver D, !Program D}.

(** Running a batch of delivered remote waiters ends each wait exactly once: all of them
    leave the loop's wait list and become ready in the order of the batch, which ends up
    empty. *)
Theorem run_batch_spec fuel w g gq L l :
  Inv ∅ w g → WInv ∅ w g gq → w_loops w !! L = Some l →
  (∀ x, x ∈ a_batch (g L) → is_Some (w_remotes w !! x)) → length (a_batch (g L)) ≤ fuel →
  runs (run_batch fuel L) w (λ _ w',
    Inv ∅ w' (g_run L (a_batch (g L)) g) ∧ WInv ∅ w' (g_run L (a_batch (g L)) g) gq ∧
    w_ops w' = alter_all retired (a_batch (g L)) (w_ops w)).
Proof.
  revert w g l. induction fuel as [|fuel IH]; intros w g l I W HL Hrem Hlen; cbn [run_batch];
    destruct (a_batch (g L)) as [|x xs] eqn:Hb; simpl in Hlen; try lia.
  1-2: apply post_bind; unfold post at 1; rewrite (pop_batch_nil _ _ _ _ _ I HL Hb); apply post_ret;
    rewrite alter_all_nil; split_and!; [eapply Inv_ext, I|eapply WInv_ext, W|done]; try done;
    intros L'; unfold g_run, upd_g; case_decide; subst; try done; rewrite app_nil_r, minus_nil, <- Hb; by destruct (g L).
  destruct (Hrem x) as [r Hr]; [set_solver|].
  destruct (inv_msg_node _ _ _ I L x) as (m&Hm&HmL); [unfold a_inflight; rewrite Hb; set_solver|].
  destruct (wi_remote _ _ _ _ W _ _ Hr) as (_&_&_&o&Ho&Hm'&_).
  assert (Hown : op_owner o = L) by (rewrite Hm in Hm'; by simplify_eq).
  destruct (WInv_pop_batch _ _ _ _ _ _ _ _ _ I W HL Hb Hr Ho Hown) as [Hl W1].
  pose proof (Inv_pop_batch _ _ _ _ _ _ _ I HL Hb) as I1.
  pose proof (inv_inflight _ _ _ I L) as Hnd. unfold a_inflight in Hnd. rewrite Hb in Hnd. simpl in Hnd.
  apply NoDup_cons in Hnd as [Hx _].
  apply post_bind. eapply pop_batch_run; [done..|]. set (w1 := batch_popped w L x xs) in *.
  apply post_bind. unfold run_message. apply post_bind. eapply post_the_message; [exact Hm'|]. simpl.
  apply post_nothrow. eapply post_mono;
    [apply (remote_notify_spec {[x]} w1 _ gq x r o I1 W1 Hr Hl Ho); set_solver| |done].
  rewrite Hown. intros [] w2 (I2&W2&Hops2&F2). replace ({[x]} ∖ {[x]} : gset loc) with (∅ : gset loc) in W2 by set_solver.
  set (g2 := g_notify L x (upd_g L (set_a_batch xs) g)) in *.
  assert (Hb2 : a_batch (g2 L) = xs) by (unfold g2, g_notify; by rewrite !upd_g_eq).
  destruct (frame_loops w1 w2 L (set_l_batch (ReadyQueue (head (message_node <$> xs)) (last (message_node <$> xs))) l) F2)
    as (l2&HL2&_); [unfold w1, batch_popped; simpl; by rewrite lookup_alter_eq, HL|].
  assert (Hrem2 : w_remotes w2 = w_remotes w) by (destruct F2 as [E2 _]; by rewrite E2).
  eapply post_mono; [apply (IH w2 g2 l2 I2 W2 HL2); rewrite Hb2, ?Hrem2; [set_solver|lia]| |done].
  rewrite Hb2. intros [] w3 (I3&W3&Hops3).
  assert (Hg : ∀ L', g_run L xs g2 L' = g_run L (x :: xs) g L').
  { intros L'. unfold g_run, g2, g_notify. destruct (decide (L' = L)) as [->|]; [|by rewrite !upd_g_ne].
    rewrite !upd_g_eq. simpl. by rewrite <- app_assoc, minus_cons. }
  split_and!; [eapply Inv_ext, I3; exact Hg|eapply WInv_ext, W3; [exact Hg|done]|].
  rewrite Hops3, Hops2. apply alter_all_cons; [done|]. set_solver.
Qed.
End batch.

(** ** The wake-up protocol

    What other threads may do to a loop between its last look at its queues and
    the moment it blocks. *)
Inductive action :=
| do_post (L : loopid) (f : fn)
| do_send (x : loc) (L : loopid)
| do_stop (L : loopid)
| do_request (s : source)
| do_hold (L : loopid)
| do_release (L : loopid).

Section wakeup.
Context {D : Type}.
Implicit Types (x : loc) (L : loopid) (w : world D) (l : loop D).

Definition act (a : action) : M (world D) unit :=
  match a with
  | do_post L f => post_fn L (Some f)
  | do_send x L => send x L
  | do_stop L => stop L
  | do_request s => request_stop s
  | do_hold L => guard_acquire L
  | do_release L => guard_release L
  end.
Definition foreign w w' : Prop := ∃ a, act a w = Ret tt w'.

(** Work a blocked loop would miss. *)
Definition work_pending l : bool := posted l || l_cancel l.
Definition awake_for n L w : Prop :=
  ∀ l, w_loops w !! L = Some l → l_woken l = true ∨ (work_pending l = false ∧ n ≤ l_holds l).

(** A loop assignment that only concerns [L]. *)
Lemma upd_loop_inv L f w w' : upd_loop L f w = Ret tt w' →
  ∃ l, w_loops w !! L = Some l ∧ w' = set_w_loops (<[L := f l]> (w_loops w)) w.
Proof.
  unfold upd_loop, the_loop, deref, modify, mbind, M_bind. destruct (w_loops w !! L) as [l|]; [|done].
  intros [= <-]. eauto.
Qed.
Lemma awake_upd n L L' f w w' :
  awake_for n L w → upd_loop L' f w = Ret tt w' →
  (∀ l, L' = L → w_loops w !! L = Some l → l_woken (f l) = true ∨
     (l_woken l = true → l_woken (f l) = true) ∧
     (work_pending l = false ∧ n ≤ l_holds l → work_pending (f l) = false ∧ n ≤ l_holds (f l))) →
  awake_for n L w'.
Proof.
  intros Hw (l'&HL'&->)%upd_loop_inv Hf l Hl. simpl in Hl.
  apply lookup_insert_Some in Hl as [[-> <-]|[Hne Hl]]; [|by apply Hw].
  destruct (Hf l' eq_refl HL') as [?|[H1 H2]]; [by left|]. destruct (Hw l' HL'); auto.
Qed.

Lemma wake_awake n L L' w w' :
  (L' ≠ L → awake_for n L w) → wake L' w = Ret tt w' → awake_for n L w'.
Proof.
  intros Hw (l'&HL'&->)%upd_loop_inv l Hl. simpl in Hl.
  apply lookup_insert_Some in Hl as [[-> <-]|[Hne Hl]]; [by left|]. by apply Hw.
Qed.
Lemma upd_loop_ne n L L' f w w' : L' ≠ L → awake_for n L w → upd_loop L' f w = Ret tt w' → awake_for n L w'.
Proof. intros Hne Hw Hu. eapply awake_upd; [done..|]. by intros l ->. Qed.

Lemma post_fn_awake n L L' f w w' : awake_for n L w → post_fn L' (Some f) w = Ret tt w' → awake_for n L w'.
Proof.
  intros Hw ([]&w1&H1&H2)%bind_inv. apply bind_inv in H2 as (l2&w2&H2&H3).
  pose proof H1 as (l&HL&->)%upd_loop_inv. unfold the_loop, deref in H2. simpl in H2. rewrite lookup_insert_eq in H2.
  simplify_eq. simpl in H3. rewrite length_app in H3. simpl in H3.
  destruct (decide (L' = L)) as [->|Hne].
  - case_bool_decide as Hlen; [eapply wake_awake, H3; by intros []|]. injection H3 as <-.
    eapply awake_upd; [done..|]. intros l1 _ HL1. rewrite HL in HL1. injection HL1 as <-. right. split; [done|].
    intros [Hp _]. unfold work_pending, posted in Hp. by destruct (l_posts l).
  - pose proof (upd_loop_ne _ _ _ _ _ _ Hne Hw H1) as Hw1.
    case_bool_decide; [by eapply wake_awake|]. by injection H3 as <-.
Qed.

Lemma send_awake n L L' x w w' : awake_for n L w → send x L' w = Ret tt w' → awake_for n L w'.
Proof.
  intros Hw (l&w0&H0&H1)%bind_inv. unfold the_loop, deref in H0. destruct (w_loops w !! L') as [l0|] eqn:HL; simplify_eq.
  apply bind_inv in H1 as ([]&w1&H1&H2). unfold on_messages, zoom in H1. rewrite HL in H1. simpl in H1.
  destruct (push _ _) as [[] q| | |] in H1; simplify_eq.
  destruct (empty (l_messages l)) eqn:He.
  - eapply wake_awake, H2. intros Hne l2 Hl2. simpl in Hl2. rewrite lookup_alter_ne in Hl2 by done. by apply Hw.
  - injection H2 as <-. intros l2 Hl2. simpl in Hl2. apply lookup_alter_Some in Hl2 as [(<-&l1&?&->)|[? ?]]; [|by apply Hw].
    simplify_eq. left. destruct (Hw l HL) as [|[Hp _]]; [done|]. unfold work_pending, posted in Hp. rewrite He in Hp.
    by rewrite orb_true_r in Hp.
Qed.

Lemma cancel_fn_awake n L x w w' : awake_for n L w → cancel_fn x w = Ret tt w' → awake_for n L w'.
Proof.
  intros Hw ([]&w1&H1&H2)%bind_inv. apply bind_inv in H2 as (o&w2&H2&H3). apply bind_inv in H3 as ([]&w3&H3&H4).
  assert (Hw1 : w_loops w1 = w_loops w).
  { unfold upd_op, the_op, deref, modify, mbind, M_bind in H1. destruct (w_ops w !! x); by simplify_eq. }
  unfold the_op, deref in H2. destruct (w_ops w1 !! x); simplify_eq.
  eapply wake_awake, H4. intros Hne. eapply upd_loop_ne, H3; [done|]. intros l. rewrite Hw1. apply Hw.
Qed.

Lemma act_awake n L a w w' : awake_for n L w → act a w = Ret tt w' → awake_for n L w'.
Proof.
  intros Hw. destruct a as [L' f|x L'|L'|s|L'|L']; simpl.
  - by apply post_fn_awake.
  - by apply send_awake.
  - intros ([]&w1&H1&H2)%bind_inv. apply bind_inv in H2 as ([]&w2&H2&H3).
    eapply wake_awake, H3. intros Hne. eapply upd_loop_ne, H2; [done|]. by eapply upd_loop_ne, H1.
  - intros (r&w0&H0&H1)%bind_inv. injection H0 as <- <-.
    destruct (default false (w_stops w !! s)); [by injection H1 as <-|].
    apply bind_inv in H1 as ([]&w1&H1&H2). injection H1 as <-. apply bind_inv in H2 as (xs&w2&H2&H3). injection H2 as <- <-.
    set (xs := registered s _) in H3. clearbody xs. set (w1 := set_w_stops _ w) in H3.
    assert (Hw1 : awake_for n L w1) by exact Hw. clearbody w1. revert w1 Hw1 H3.
    induction xs as [|x xs IH]; intros w1 Hw1; simpl; [by intros [= <-]|].
    intros ([]&w2&H2&H3)%bind_inv. eapply IH, H3. by eapply cancel_fn_awake.
  - intros H. eapply awake_upd; [done..|]. intros l _ _. right. split; [done|]. simpl. intros [??]. split; [done|lia].
  - intros ([]&w1&H1&H2)%bind_inv. eapply wake_awake, H2. intros Hne. by eapply upd_loop_ne, H1.
Qed.

Lemma foreign_awake n L w w' : rtc foreign w w' → awake_for n L w → awake_for n L w'.
Proof. induction 1 as [|w1 w2 w3 [a Ha] _ IH]; [done|]. intros Hw. apply IH. by eapply act_awake. Qed.

(** C2: No wake-up is lost.  A loop that found no posts, messages or cancellation is
    about to block; whatever other threads do to any loop in the meantime (post, send,
    stop, request a stop, take or release a hold), in any order, as soon as there is
    work for it or one of its holds is gone its wake source is signalled. *)
Theorem no_lost_wakeup L w w' l l' :
  w_loops w !! L = Some l → work_pending l = false → rtc foreign w w' →
  w_loops w' !! L = Some l' → work_pending l' = true ∨ l_holds l' < l_holds l → l_woken l' = true.
Proof.
  intros HL Hq Hf HL' Hp. assert (Hw : awake_for (l_holds l) L w).
  { intros l0 ?. simplify_eq. right. done. }
  destruct (foreign_awake _ _ _ _ Hf Hw l' HL') as [|[Hp' Hh]]; [done|]. destruct Hp; [congruence|lia].
Qed.
End wakeup.

(** ** Entering and leaving [run] *)
Section run_exit.
Context {D : Type} `{!StdHeap loc, !Driver D, !Program D}.
Implicit Types (x : loc) (L : loopid) (w : world D) (l : loop D).

Lemma fail_run L e w l :
  w_loops w !! L = Some l →
  fail L e w = Ret tt (set_w_loops (<[L := set_l_woken true (set_l_cancel true (set_l_stopping true
    (set_l_error (Some (default e (l_error l))) l)))]> (w_loops w)) w).
Proof.
  intros HL. unfold fail, stop, wake, upd_loop, the_loop, deref, modify, mbind, M_bind. rewrite HL.
  destruct (l_error l) as [e0|] eqn:He; simpl; rewrite ?HL; simpl; rewrite ?lookup_insert_eq; simpl;
    rewrite ?lookup_insert_eq; simpl; rewrite ?lookup_insert_eq; simpl; rewrite !insert_insert_eq, ?set_w_loops_2; [|done].
  do 3 f_equal. destruct l; simpl in *; by subst.
Qed.

(** The loop is left only from a state that [idle] accepts. *)
Lemma tick_false L w w' : tick L w = Ret false w' → ∃ l, w_loops w' !! L = Some l ∧ idle l = true.
Proof.
  unfold tick. intros H. do 8 (apply bind_inv in H as (?&?&_&H)). apply bind_inv in H as (l&w1&H1&H2).
  unfold the_loop, deref in H1. destruct (w_loops _ !! L) eqn:HL in H1; simplify_eq.
  destruct (idle l) eqn:Hi; [injection H2 as <-; eauto|]. destruct (_ && _); [done|].
  by apply bind_inv in H2 as (?&?&_&([]&?&_&?)%bind_inv).
Qed.
Lemma run_loop_idle fuel L w w' :
  run_loop fuel L w = Ret (Some tt) w' → ∃ l, w_loops w' !! L = Some l ∧ idle l = true.
Proof.
  revert w. induction fuel as [|fuel IH]; intros w; simpl; [done|]. intros (b&w1&H1&H2)%bind_inv.
  destruct b; [by eapply IH|]. injection H2 as <-. by eapply tick_false.
Qed.

(** The checks at the entry. *)
Lemma run_wrong_thread fuel L w l :
  w_loops w !! L = Some l → l_thread l ≠ w_thread w →
  run fuel L w = Throw (logic_error "wrong loop thread") w.
Proof. intros HL Ht. unfold run, mbind, M_bind. by rewrite (check_run _ _ _ HL), decide_False. Qed.
Lemma run_nested fuel L w l :
  w_loops w !! L = Some l → l_thread l = w_thread w → l_running l = true →
  run fuel L w = Throw (logic_error "nested loop.run") w.
Proof.
  intros HL Ht Hr. unfold run, mbind, M_bind. rewrite (check_run _ _ _ HL), decide_True by done.
  unfold the_loop, deref. by rewrite HL, Hr.
Qed.

(** However an entered [run] ends, the loop is not running and the thread's
    current loop is the one before the call. *)
Definition left_run L (previous : option loopid) w' : Prop :=
  w_current w' !! w_thread w' = previous ∧ ∃ l', w_loops w' !! L = Some l' ∧ l_running l' = false.

Lemma set_current_run c w :
  set_current c w = Ret tt (set_w_current (partial_alter (λ _, c) (w_thread w) (w_current w)) w).
Proof. done. Qed.

Lemma run_exit_spec fuel L w l :
  w_loops w !! L = Some l → l_thread l = w_thread w → l_running l = false →
  match run fuel L w with
  | Ret (Some _) w' => left_run L (w_current w !! w_thread w) w' ∧
      ∃ l', w_loops w' !! L = Some l' ∧ idle l' = true ∧ l_error l' = None
  | Throw _ w' => left_run L (w_current w !! w_thread w) w'
  | _ => True
  end.
Proof.
  intros HL Ht Hr. unfold run, mbind, M_bind. rewrite (check_run _ _ _ HL), decide_True by done.
  unfold upd_loop at 1 2 3, the_loop at 1 2, deref, modify, mbind, M_bind. rewrite HL, Hr, HL. simpl.
  set (w1 := set_w_current _ _). unfold try_catch. fold (w_current w !! w_thread w).
  destruct (run_loop fuel L w1) as [[[]|] w2|e w2| |] eqn:Hrun; try done.
  - destruct (run_loop_idle _ _ _ _ Hrun) as (l2&HL2&Hi).
    unfold upd_loop, the_loop, deref, modify, mbind, M_bind. rewrite HL2. simpl. do 2 (rewrite lookup_insert_eq; simpl).
    rewrite insert_insert_eq. assert (Hleft : ∀ w', w' = set_w_loops (<[L := set_l_error None (set_l_running false l2)]> (w_loops w2))
      (set_w_current (partial_alter (λ _, w_current w !! w_thread w) (w_thread w2) (w_current w2)) w2) →
      left_run L (w_current w !! w_thread w) w').
    { intros w' ->. split; simpl; [by rewrite lookup_partial_alter_eq|]. eexists. by rewrite lookup_insert_eq. }
    destruct (l_error l2); simpl; [by apply Hleft|]. split; [by apply Hleft|]. eexists. by rewrite lookup_insert_eq.
  - unfold the_loop, deref. simpl. destruct (w_loops w2 !! L) as [l2|] eqn:HL2; simpl; [|done].
    split; simpl; [by rewrite lookup_partial_alter_eq|]. eexists. by rewrite lookup_insert_eq.
Qed.

(** C13: Every outcome of [run].  From the wrong thread, or nested in a running [run], it
    throws at once and changes nothing.  Otherwise, whether it returns or an exception
    escapes, the loop is no longer running and the thread's current loop is the one
    before the call; when it returns, the loop is idle and its stored error is gone. *)
Theorem run_outcomes fuel L w l :
  w_loops w !! L = Some l →
  match run fuel L w with
  | Ret (Some _) w' => left_run L (w_current w !! w_thread w) w' ∧
      ∃ l', w_loops w' !! L = Some l' ∧ idle l' = true ∧ l_error l' = None
  | Throw e w' =>
      if decide (l_thread l = w_thread w) then
        if l_running l then e = logic_error "nested loop.run" ∧ w' = w
        else left_run L (w_current w !! w_thread w) w'
      else e = logic_error "wrong loop thread" ∧ w' = w
  | _ => True
  end.
Proof.
  intros HL. case_decide as Ht; [|by rewrite (run_wrong_thread _ _ _ _ HL Ht)].
  destruct (l_running l) eqn:Hr; [by rewrite (run_nested _ _ _ _ HL Ht Hr)|].
  exact (run_exit_spec fuel L w l HL Ht Hr).
Qed.

(** An error recorded while the loop ran is thrown when it ends, and is not kept. *)
Theorem run_rethrow fuel L w l w2 l2 e :
  w_loops w !! L = Some l → l_thread l = w_thread w → l_running l = false →
  run_loop fuel L (set_w_current (<[w_thread w := L]> (w_current w))
    (set_w_loops (<[L := set_l_running true l]> (w_loops w)) w)) = Ret (Some tt) w2 →
  w_loops w2 !! L = Some l2 → l_error l2 = Some e →
  ∃ w', run fuel L w = Throw e w' ∧ l_error <$> w_loops w' !! L = Some None.
Proof.
  intros HL Ht Hr Hrun HL2 He. unfold run, mbind, M_bind. rewrite (check_run _ _ _ HL), decide_True by done.
  unfold upd_loop at 1 2 3, the_loop at 1 2, deref, modify, mbind, M_bind. rewrite HL, Hr, HL. simpl.
  change (partial_alter (λ _, Some L) (w_thread w) (w_current w)) with (<[w_thread w := L]> (w_current w)).
  unfold try_catch. rewrite Hrun. simpl.
  unfold upd_loop, the_loop, deref, modify, mbind, M_bind. rewrite HL2. simpl. do 2 (rewrite lookup_insert_eq; simpl).
  rewrite He. simpl. eexists. split; [done|]. simpl. by rewrite lookup_insert_eq.
Qed.

(** A posted function that throws does not prevent the ones after it: the loop over the
    posts returns normally whatever they throw. *)
Theorem posts_run L fs w :
  is_Some (w_loops w !! L) →
  (∀ f w, is_Some (w_loops w !! L) → post (call f) w (λ _ w', is_Some (w_loops w' !! L)) (λ _ w', is_Some (w_loops w' !! L))) →
  runs (for_each (λ f, try_catch (call f) (fail L)) fs) w (λ _ w', is_Some (w_loops w' !! L)).
Proof.
  intros HL Hcall. apply (post_for_each _ (λ _ w, is_Some (w_loops w !! L))); [done|].
  intros f fs' w' HL'. apply post_try_catch. eapply post_mono; [by apply Hcall|done|].
  intros e w2 [l Hl]. unfold post. rewrite (fail_run _ _ _ _ Hl). simpl. rewrite lookup_insert_eq. by eexists.
Qed.

(** An idle loop has no root and no post, and a hold only when it is stopped. *)
Lemma idle_done (l : loop D) :
  idle l = true → l_roots l = 0 ∧ l_posts l = [] ∧ (l_holds l ≠ 0 → l_stopping l = true).
Proof.
  unfold idle, posted. rewrite !andb_true_iff, negb_true_iff, orb_false_iff, negb_false_iff, orb_true_iff, !bool_decide_eq_true.
  naive_solver.
Qed.

(** Nothing of an idle loop is pending: no list holds anything, and no operation
    of the loop is active. *)
Lemma idle_lists w g L l :
  Inv ∅ w g → timers_ok w g → w_loops w !! L = Some l → idle l = true →
  a_ready (g L) = [] ∧ a_msgs (g L) = [] ∧ a_pending (g L) = [] ∧
  ∀ x o, w_ops w !! x = Some o → op_owner o = L → op_active o = false.
Proof.
  intros I HT HL Hi. unfold idle, posted in Hi. rewrite !andb_true_iff, negb_true_iff, orb_false_iff, !negb_false_iff in Hi.
  destruct Hi as ((((((_&Hio)&Hw)&Ht)&Hr)&_&Hm)&_).
  rewrite (empty_spec _ _ _ (inv_ready _ _ _ I L l HL)) in Hr. apply bool_decide_eq_true, fmap_nil_inv in Hr.
  rewrite (empty_spec _ _ _ (inv_msgs _ _ _ I L l HL)) in Hm. apply bool_decide_eq_true, fmap_nil_inv in Hm.
  rewrite (dl_rep_head _ _ _ (inv_ios _ _ _ I L l HL)) in Hio. rewrite (dl_rep_head _ _ _ (inv_waits _ _ _ I L l HL)) in Hw.
  destruct (HT L l HL) as (Hat&_). rewrite Hat in Ht.
  assert (Hp : a_pending (g L) = []) by (unfold a_pending; by destruct (a_ios (g L)), (a_waits (g L)), (a_timers (g L))).
  split_and!; [done..|]. intros x o Ho Hown. destruct (op_active o) eqn:Ha; [|done].
  destruct (inv_active _ _ _ I x o Ho Ha) as [|Hx]; [set_solver|]. rewrite Hown, Hp in Hx. set_solver.
Qed.

(** C12: [run] returns only when nothing is left to do for the loop: no root coroutine is
    live, no function is posted and no message is queued, no continuation is ready, no wait,
    request or timer of it is pending or active, and nothing holds the loop open, unless it
    was stopped, which is the one case where a hold does not keep [run] going. *)
Theorem run_returns_quiescent fuel L w w' g :
  run fuel L w = Ret (Some tt) w' → Inv ∅ w' g → timers_ok w' g →
  (∃ l', w_loops w' !! L = Some l' ∧ l_roots l' = 0 ∧ l_posts l' = [] ∧ (l_holds l' ≠ 0 → l_stopping l' = true)) ∧
  a_ready (g L) = [] ∧ a_msgs (g L) = [] ∧ a_pending (g L) = [] ∧
  ∀ x o, w_ops w' !! x = Some o → op_owner o = L → op_active o = false.
Proof.
  intros Hrun I HT. pose proof Hrun as Hr. unfold run in Hr. apply bind_inv in Hr as ([]&w1&H1&Hr).
  apply bind_inv in Hr as (l&w2&H2&Hr). unfold the_loop, deref in H2. destruct (w_loops w1 !! L) eqn:HL; simplify_eq.
  unfold check in H1. apply bind_inv in H1 as (l1&w3&H3&H1). unfold the_loop, deref in H3.
  destruct (w_loops w !! L) eqn:HLw; simplify_eq. simpl in H1.
  unfold mbind, M_bind, gets in H1. case_decide as Ht; [|done]. injection H1 as <-. rewrite HLw in HL. injection HL as <-.
  destruct (l_running l1) eqn:Hru; [done|].
  pose proof (run_exit_spec fuel L _ _ HLw Ht Hru) as He. rewrite Hrun in He. destruct He as (_&l'&HL'&Hi&_).
  split; [exists l'; split; [done|by apply idle_done]|by eapply idle_lists].
Qed.
End run_exit.
