(* ===== verification/Root.v ===== *)
(** * Root tasks ([loop::spawn] and [loop::start] of include/snowy/loop.hpp)

    [start] is a coroutine that owns one root: it yields once, awaits the task, hops back to
    its loop and leaves.  Its frame is explicit here, with the point at which it is
    suspended; the task it awaits is any other code. *)
From S2P Require Import Prelude ReadyQueue Links Heap Core Loop LoopInv LoopSpec Event WaitQueue Fifo Io Run RunSpec RunLoop.
From stdpp Require Import relations.

(** Where the frame of a root is suspended: in [schedule()], in the task, or in [on()] with
    the error caught. *)
Inductive stage := scheduled | awaiting | returning (error : option exn).
(** The frame: its loop, the [yield] and the [hop] in it, its handle, and its stage. *)
Record rframe := RFrame { rf_loop : loopid; rf_yield : loc; rf_hop : loc; rf_handle : coro; rf_stage : stage }.
Definition set_rf_stage (v : stage) (f : rframe) : rframe := RFrame (rf_loop f) (rf_yield f) (rf_hop f) (rf_handle f) v.

Section partial.
Context {S : Type}.
(** ** Partial correctness: every state in which a call returns or throws *)
Definition part {A} (c : M S A) (s : S) (Q : S → Prop) : Prop :=
  match c s with Ret _ s' | Throw _ s' => Q s' | _ => True end.
Lemma part_bind {A B} (c : M S A) (k : A → M S B) s Q :
  (match c s with Ret a s' => part (k a) s' Q | Throw _ s' => Q s' | _ => True end) → part (c ≫= k) s Q.
Proof. unfold part, mbind, M_bind. by destruct (c s). Qed.
Lemma part_seq {A B} (c : M S A) (k : A → M S B) s (P Q : S → Prop) :
  part c s P → (∀ a s', P s' → part (k a) s' Q) → (∀ s', P s' → Q s') → part (c ≫= k) s Q.
Proof. intros Hc Hk HQ. apply part_bind. unfold part in Hc. destruct (c s); auto. Qed.
Lemma part_mono {A} (c : M S A) s (P Q : S → Prop) : part c s P → (∀ s', P s' → Q s') → part c s Q.
Proof. unfold part. destruct (c s); auto. Qed.
Lemma part_try {A} (c : M S A) h s (P Q : S → Prop) :
  part c s P → (∀ s', P s' → Q s') → (∀ e s', P s' → part (h e) s' Q) → part (try_catch c h) s Q.
Proof. unfold part, try_catch. destruct (c s) as [|e s1| |]; auto. intros H _ Hh. by apply (Hh e s1). Qed.
Lemma part_nothrow {A} (c : M S A) s Q : part c s Q → part (nothrow c) s Q.
Proof. unfold part, nothrow. by destruct (c s). Qed.
End partial.

Section root.
Context {D : Type}.
Record rworld := RWorld { rw : world D; roots : gmap loc rframe }.
Local Abbreviation M := (M rworld).
Implicit Types (r : loc) (L : loopid) (s : rworld) (f : rframe) (w : world D).

Definition in_world {A} (k : Prelude.M (world D) A) : M A := zoom (λ s, Some (rw s)) (λ w s, RWorld w (roots s)) k.
Definition the_root r : M rframe := deref (λ s, roots s !! r).
Definition set_root r f : M unit := modify (λ s, RWorld (rw s) (<[r := f]> (roots s))).

(** ** Operations *)

(** [if (error) { if (!error_) error_ = error; stop(); } --roots_;], then the frame is gone *)
Definition root_finish r (error : option exn) : M unit :=
  f ← the_root r;
  (match error with Some e => in_world (fail (rf_loop f) e) | None => mret tt end) ;;
  in_world (upd_loop (rf_loop f) (λ l, set_l_roots (pred (l_roots l)) l)) ;;
  modify (λ s, RWorld (rw s) (delete r (roots s))).
(** [co_await on();]: ready when the caller already runs on the loop.  An exception that
    leaves the coroutine ends the process. *)
Definition root_leave r (error : option exn) : M unit :=
  nothrow (
    f ← the_root r;
    ready ← in_world (hop_await_ready (rf_hop f));
    if ready : bool then root_finish r error else
      set_root r (set_rf_stage (returning error) f) ;;
      in_world (hop_await_suspend (rf_hop f) (rf_handle f))).
(** [detached start(task<void, A> input)] up to its first suspension *)
Definition root_start r L (y h : loc) (handle : coro) : M unit :=
  set_root r (RFrame L y h handle scheduled) ;;
  in_world (upd_loop L (λ l, set_l_roots (S (l_roots l)) l)) ;;
  try_catch (in_world (yield_await_suspend y handle)) (λ e, root_leave r (Some e)).
(** [co_await schedule()] resumes: the task is awaited *)
Definition root_resume r : M unit :=
  f ← the_root r;
  set_root r (set_rf_stage awaiting f).
(** [void spawn(task<void, A> input)] *)
Definition spawn r L (y h : loc) (handle : coro) (valid : bool) : M unit :=
  in_world (check L) ;;
  if negb valid then throw (invalid_argument "empty task") else root_start r L y h handle.

(** ** Histories

    Other code runs in between; it does not touch the count. *)
Definition same_roots w w' : Prop := ∀ L, l_roots <$> w_loops w' !! L = l_roots <$> w_loops w !! L.
Definition leaves {A} (c : M A) s s' : Prop :=
  match c s with Ret _ s1 | Throw _ s1 => s1 = s' | _ => False end.
Inductive rstep : rworld → rworld → Prop :=
| step_spawn s s' r L y h handle valid :
    roots s !! r = None → leaves (spawn r L y h handle valid) s s' → rstep s s'
| step_resume s s' r f :
    roots s !! r = Some f → rf_stage f = scheduled → leaves (root_resume r) s s' → rstep s s'
| step_leave s s' r f error :
    roots s !! r = Some f → rf_stage f = awaiting → leaves (root_leave r error) s s' → rstep s s'
| step_back s s' r f error :
    roots s !! r = Some f → rf_stage f = returning error → leaves (root_finish r error) s s' → rstep s s'
| step_other s w' : same_roots (rw s) w' → rstep s (RWorld w' (roots s)).

(** The roots of [L] that have not left, and the invariant. *)
Definition live L (fs : gmap loc rframe) : nat := size (filter (λ p, rf_loop p.2 = L) fs).
Definition roots_ok s : Prop := ∀ L l, w_loops (rw s) !! L = Some l → l_roots l = live L (roots s).

Lemma live_new L fs r f : fs !! r = None → live L (<[r := f]> fs) = (if decide (rf_loop f = L) then 1 else 0) + live L fs.
Proof.
  intros Hr. unfold live. destruct (decide (rf_loop f = L)).
  - rewrite map_filter_insert_True by done. apply map_size_insert_None. by rewrite map_lookup_filter, Hr.
  - rewrite map_filter_insert_not'; [done|done|]. intros ? ?. congruence.
Qed.
Lemma live_gone L fs r f : fs !! r = Some f → live L fs = (if decide (rf_loop f = L) then 1 else 0) + live L (delete r fs).
Proof.
  intros Hr. rewrite <- (live_new L (delete r fs) r f) by apply lookup_delete_eq. by rewrite insert_delete_id.
Qed.
Lemma live_same L fs r f f' : fs !! r = Some f → rf_loop f' = rf_loop f → live L (<[r := f']> fs) = live L fs.
Proof.
  intros Hr Hf. rewrite (live_gone L fs r f Hr), <- insert_delete_eq, live_new by apply lookup_delete_eq. by rewrite Hf.
Qed.

#[local] Instance same_roots_preorder : PreOrder same_roots.
Proof. split; [by intros w L|]. intros w1 w2 w3 H1 H2 L. by rewrite H2, H1. Qed.
(** A call that does not touch the count. *)
Definition neutral {A} (c : Prelude.M (world D) A) : Prop := ∀ w, part c w (same_roots w).
Lemma neutral_bind {A B} (c : Prelude.M (world D) A) (k : A → Prelude.M (world D) B) :
  neutral c → (∀ a, neutral (k a)) → neutral (c ≫= k).
Proof.
  intros Hc Hk w. eapply part_seq; [apply Hc| |done]. intros a w' H. eapply part_mono; [apply Hk|]. intros w2 H2. by etrans.
Qed.
Lemma neutral_deref {A} (u : world D → option A) : neutral (deref u).
Proof. intros w. unfold part, deref. by destruct (u w). Qed.
Lemma neutral_gets {A} (u : world D → A) : neutral (gets u).
Proof. by intros w. Qed.
Lemma neutral_ret {A} (a : A) : neutral (mret a).
Proof. by intros w. Qed.
Lemma neutral_throw {A} e : neutral (throw e : Prelude.M (world D) A).
Proof. by intros w. Qed.
Lemma neutral_modify (u : world D → world D) : (∀ w, same_roots w (u w)) → neutral (modify u).
Proof. intros H w. apply H. Qed.
Lemma same_roots_insert w L l l' : w_loops w !! L = Some l → l_roots l' = l_roots l → same_roots w (set_w_loops (<[L := l']> (w_loops w)) w).
Proof.
  intros HL Hr L'. simpl. destruct (decide (L = L')) as [<-|]; [|by rewrite lookup_insert_ne].
  rewrite lookup_insert_eq, HL. simpl. by rewrite Hr.
Qed.
Lemma neutral_upd_loop L (u : loop D → loop D) : (∀ l, l_roots (u l) = l_roots l) → neutral (upd_loop L u).
Proof.
  intros Hf w. unfold upd_loop, part, mbind, M_bind, the_loop, deref, modify. destruct (w_loops w !! L) as [l|] eqn:HL; [|done].
  by apply (same_roots_insert w L l).
Qed.
Lemma same_roots_alter w L (u : loop D → loop D) : (∀ l, l_roots (u l) = l_roots l) → same_roots w (set_w_loops (alter u L (w_loops w)) w).
Proof.
  intros Hf L'. simpl. destruct (decide (L = L')) as [<-|]; [|by rewrite lookup_alter_ne].
  rewrite lookup_alter_eq. destruct (w_loops w !! L); simpl; [|done]. by rewrite Hf.
Qed.

Lemma neutral_zoom {T A} (sel : world D → option T) upd (c : Prelude.M T A) :
  (∀ t w, same_roots w (upd t w)) → neutral (zoom sel upd c).
Proof. intros Hu w. unfold part, zoom. destruct (sel w) as [t|]; [|done]. by destruct (c t). Qed.
Lemma neutral_when b c : neutral c → neutral (when b c).
Proof. intros Hc. destruct b; [done|apply neutral_ret]. Qed.
Lemma neutral_yield y h : neutral (yield_await_suspend y h).
Proof.
  apply neutral_bind; [apply neutral_deref|]. intros k. apply neutral_bind.
  { apply neutral_bind; [apply neutral_deref|]. intros l. apply neutral_bind; [apply neutral_gets|]. intros this.
    destruct (decide _); [apply neutral_ret|apply neutral_throw]. }
  intros _. apply neutral_bind; [apply neutral_bind; [apply neutral_deref|intros ?; by apply neutral_modify]|].
  intros _. apply neutral_zoom. intros t w. by apply (same_roots_alter w).
Qed.
Lemma neutral_hop x h : neutral (hop_await_suspend x h).
Proof.
  apply neutral_bind; [apply neutral_bind; [apply neutral_deref|intros ?; by apply neutral_modify]|].
  intros _. apply neutral_bind; [apply neutral_deref|]. intros m. apply neutral_bind; [apply neutral_deref|]. intros l.
  apply neutral_bind; [apply neutral_zoom; intros t w; by apply (same_roots_alter w)|].
  intros _. by apply neutral_when, neutral_upd_loop.
Qed.
Lemma neutral_fail L e : neutral (fail L e).
Proof.
  apply neutral_bind; [apply neutral_deref|]. intros l.
  apply neutral_bind; [destruct (l_error l); [apply neutral_ret|by apply neutral_upd_loop]|]. intros _.
  repeat (apply neutral_bind; [by apply neutral_upd_loop|intros _]). by apply neutral_upd_loop.
Qed.
Lemma part_world {A} (c : Prelude.M (world D) A) s (Q : rworld → Prop) :
  neutral c → (∀ w', same_roots (rw s) w' → Q (RWorld w' (roots s))) → part (in_world c) s Q.
Proof. intros Hc HQ. specialize (Hc (rw s)). unfold part, in_world, zoom in *. destruct (c (rw s)); auto. Qed.
Lemma roots_ok_same s w' fs :
  same_roots (rw s) w' → (∀ L, live L fs = live L (roots s)) → roots_ok s → roots_ok (RWorld w' fs).
Proof.
  intros Hs Hl H L l HL. specialize (Hs L). simpl in HL. rewrite HL in Hs. simpl in *.
  destruct (w_loops (rw s) !! L) as [l0|] eqn:E; [|done]. injection Hs as ->. by rewrite Hl, (H _ _ E).
Qed.

(** ** The count is the number of roots that have not left *)
Lemma roots_ok_count s L l n fs :
  roots_ok s → w_loops (rw s) !! L = Some l → (∀ L', L' ≠ L → live L' fs = live L' (roots s)) → n = live L fs →
  roots_ok (RWorld (set_w_loops (<[L := set_l_roots n l]> (w_loops (rw s))) (rw s)) fs).
Proof.
  intros H HL Ho Hn L' l'. simpl. intros [[<- <-]|[Hne Hl']]%lookup_insert_Some; simpl; [done|]. rewrite Ho by done. by apply H.
Qed.
Lemma finish_ok s r error f : roots_ok s → roots s !! r = Some f → part (root_finish r error) s roots_ok.
Proof.
  intros H Hr. apply part_bind. unfold the_root, deref. rewrite Hr.
  apply (part_seq _ _ _ (λ s1, roots s1 = roots s ∧ roots_ok s1)); [|intros _ s1 [E1 H1]|by intros ? [_ ?]].
  { destruct error as [e|]; [|done]. apply part_world; [apply neutral_fail|]. intros w' Hw. split; [done|]. by eapply roots_ok_same. }
  rewrite <- E1 in Hr. apply part_bind. unfold in_world, zoom, upd_loop, mbind, M_bind, the_loop, deref, modify, part.
  destruct (w_loops (rw s1) !! rf_loop f) as [l|] eqn:HL; [|done]. simpl.
  apply roots_ok_count; [done|done| |].
  - intros L' Hne. by rewrite (live_gone L' _ _ _ Hr), decide_False.
  - rewrite (H1 _ _ HL), (live_gone _ _ _ _ Hr), decide_True by done. done.
Qed.
Lemma leave_ok s r error f : roots_ok s → roots s !! r = Some f → part (root_leave r error) s roots_ok.
Proof.
  intros H Hr. apply part_nothrow, part_bind. unfold the_root, deref. rewrite Hr.
  apply (part_seq _ _ _ (λ s1, s1 = s)); [|intros ready ? ->|by intros ? ->].
  { unfold part, in_world, zoom, hop_await_ready, mbind, M_bind, the_message, deref, gets.
    destruct (w_messages (rw s) !! rf_hop f); [|done]. simpl. by destruct s. }
  destruct ready; [by eapply finish_ok|]. apply part_bind. unfold set_root, modify.
  apply part_world; [apply neutral_hop|]. simpl. intros w' Hw. eapply roots_ok_same; [done| |done].
  intros L. by eapply live_same.
Qed.
Lemma spawn_ok s r L y h handle valid : roots_ok s → roots s !! r = None → part (spawn r L y h handle valid) s roots_ok.
Proof.
  intros H Hr. apply (part_seq _ _ _ (λ s1, s1 = s)); [|intros _ ? ->|by intros ? ->].
  { unfold part, in_world, zoom, check, mbind, M_bind, the_loop, deref, gets.
    destruct (w_loops (rw s) !! L); [|done]. by destruct (decide _), s. }
  destruct valid; [|done]. simpl. apply part_bind. unfold set_root, modify. apply part_bind.
  unfold in_world at 1, zoom, upd_loop, mbind, M_bind, the_loop, deref, modify. simpl.
  destruct (w_loops (rw s) !! L) as [l|] eqn:HL; [|done]. simpl.
  set (s1 := RWorld _ _). assert (roots_ok s1) as H1.
  { apply roots_ok_count; [done|done| |].
    - intros L' Hne. rewrite live_new by done. simpl. by rewrite decide_False.
    - rewrite live_new by done. simpl. by rewrite decide_True, (H _ _ HL). }
  apply (part_try _ _ _ (λ s2, roots s2 = roots s1 ∧ roots_ok s2)); [|by intros ? [_ ?]|].
  - apply part_world; [apply neutral_yield|]. intros w' Hw. split; [done|]. by eapply roots_ok_same.
  - intros e s2 [E2 H2]. eapply leave_ok; [done|]. rewrite E2. simpl. apply lookup_insert_eq.
Qed.
Lemma rstep_ok s s' : rstep s s' → roots_ok s → roots_ok s'.
Proof.
  assert (∀ A (c : M A) s s', part c s roots_ok → leaves c s s' → roots_ok s') as Hp.
  { intros A c s0 s1. unfold part, leaves. destruct (c s0); [by intros ? <-|by intros ? <-|done|done]. }
  intros St Hok. destruct St; [eauto using spawn_ok| |eauto using leave_ok|eauto using finish_ok|by eapply roots_ok_same].
  eapply Hp; [|done]. apply part_bind. unfold the_root, deref. destruct (roots s !! r) as [f0|] eqn:E; [|done].
  unfold part, set_root, modify. eapply roots_ok_same; [done| |done]. intros L. by eapply live_same.
Qed.

(** Leaving: an error is reported if it is the first, and stops the loop; the count goes
    down and the frame is gone. *)
Definition left_loop (error : option exn) (l : loop D) : loop D :=
  set_l_roots (pred (l_roots l))
    (match error with
     | Some e => set_l_woken true (set_l_cancel true (set_l_stopping true (set_l_error (Some (default e (l_error l))) l)))
     | None => l
     end).
Theorem root_finish_run s r f error l :
  roots s !! r = Some f → w_loops (rw s) !! rf_loop f = Some l →
  root_finish r error s =
    Ret tt (RWorld (set_w_loops (<[rf_loop f := left_loop error l]> (w_loops (rw s))) (rw s)) (delete r (roots s))).
Proof.
  intros Hr HL.
  assert (∀ w l0 u, w_loops w !! rf_loop f = Some l0 → upd_loop (rf_loop f) u w = Ret tt (set_w_loops (<[rf_loop f := u l0]> (w_loops w)) w)) as Hu.
  { intros w l0 u Hw. unfold upd_loop, the_loop, deref, mbind, M_bind, modify. by rewrite Hw. }
  unfold root_finish, the_root, mbind at 1, M_bind at 1, deref. rewrite Hr. destruct error as [e|]; unfold in_world, mbind, M_bind, zoom.
  - rewrite (fail_run _ _ _ _ HL). cbn [rw roots]. erewrite Hu by apply lookup_insert_eq.
    simpl. by rewrite insert_insert_eq.
  - unfold mret, M_ret. by erewrite Hu.
Qed.

(** C14: In every history of spawning, running, failing and returning roots, from any thread
    and with any other code in between, [roots_] is the number of roots that have not
    left; so [run] does not leave its loop while a root is pending, not even one that has
    migrated to another loop, and can leave once the last one is back. *)
Theorem roots_counted s s' L l :
  roots_ok s → rtc rstep s s' → w_loops (rw s') !! L = Some l →
  l_roots l = live L (roots s') ∧ ((∃ r f, roots s' !! r = Some f ∧ rf_loop f = L) → idle l = false).
Proof.
  intros H Hs HL. assert (roots_ok s') as H' by (induction Hs; eauto using rstep_ok). split; [by apply H'|].
  intros (r&f&Hr&Hf). unfold idle. rewrite (H' _ _ HL), (live_gone L _ _ _ Hr), decide_True by done. done.
Qed.
End root.
