(* ===== verification/Checker.v ===== *)
(** * Deciding the invariants of a concrete system

    Boolean versions of the invariants for a system whose lists are given by finite
    maps, with their soundness.  They let a concrete state be shown to satisfy an
    invariant by evaluation. *)
From S2P Require Import Prelude ReadyQueue Links Heap Core Loop LoopInv LoopSpec Event WaitQueue Io Run RunSpec.
From S2P Require Import Fifo Channel Mailbox.

(** ** Finite quantifiers *)
Definition has {A} (o : option A) (p : A → bool) : bool := match o with Some a => p a | None => false end.
Definition absent {A} (o : option A) : bool := match o with Some _ => false | None => true end.
Lemma has_true {A} (o : option A) p : has o p = true → ∃ a, o = Some a ∧ p a = true.
Proof. destruct o; [eauto|done]. Qed.
Lemma absent_true {A} (o : option A) : absent o = true → o = None.
Proof. by destruct o. Qed.
Lemma has_some {A} (o : option A) : has o (λ _, true) = true → is_Some o.
Proof. destruct o; [by eexists|done]. Qed.

Definition all_map {K A} `{Countable K} (p : K → A → bool) (m : gmap K A) : bool :=
  forallb (λ ka : K * A, p ka.1 ka.2) (map_to_list m).
Lemma all_map_lookup {K A} `{Countable K} (p : K → A → bool) (m : gmap K A) k a :
  all_map p m = true → m !! k = Some a → p k a = true.
Proof.
  unfold all_map. rewrite forallb_forall. intros Hp Hk. apply (Hp (k, a)).
  by apply list_elem_of_In, elem_of_map_to_list.
Qed.
Lemma forallb_elem {A} (p : A → bool) xs x : forallb p xs = true → x ∈ xs → p x = true.
Proof. rewrite forallb_forall. intros Hp Hx. by apply Hp, list_elem_of_In. Qed.

(** Split the conjunctions of a check. *)
Ltac checks := repeat match goal with
  | H : _ && _ = true |- _ => apply andb_true_iff in H as [? ?]
  | H : bool_decide _ = true |- _ => apply bool_decide_eq_true in H
  | H : has _ (λ _, true) = true |- _ => apply has_some in H
  | H : has _ _ = true |- _ => apply has_true in H as (?&?&?)
  | H : absent _ = true |- _ => apply absent_true in H
  end.

#[global] Instance link_eq_dec {K} `{EqDecision K} : EqDecision (link K).
Proof. solve_decision. Defined.

(** The check of an entry of a map, and of an element of a list of a loop. *)
Ltac map_check m Hx := match goal with
  | H : all_map _ m = true |- _ => let Hc := fresh "Hc" in pose proof (all_map_lookup _ _ _ _ H Hx) as Hc; cbv beta in Hc
  end; checks.
Ltac list_check xs Hx := match goal with
  | H : forallb _ xs = true |- _ => let Hc := fresh "Hc" in pose proof (forallb_elem _ _ _ H Hx) as Hc; cbv beta in Hc
  end; checks.

(** ** Linked structures *)
Section lists.
Context {K : Type} `{Countable K}.
Implicit Types (xs : list K).

Fixpoint next_ok (m : gmap K (option K)) xs : bool :=
  match xs with [] => true | x :: xs' => bool_decide (m !! x = Some (head xs')) && next_ok m xs' end.
Definition rq_check (m : gmap K (option K)) (q : ready_queue K) xs : bool :=
  bool_decide (ReadyQueue.head_ q = head xs) && bool_decide (tail_ q = last xs) && bool_decide (NoDup xs) && next_ok m xs.
Lemma next_ok_sound m xs l1 x l2 : next_ok m xs = true → xs = l1 ++ x :: l2 → m !! x = Some (head l2).
Proof.
  intros Hok ->. induction l1 as [|y l1 IH]; simpl in Hok; checks; [done|by apply IH].
Qed.
Lemma rq_check_sound m q xs : rq_check m q xs = true → rq_rep m q xs.
Proof. unfold rq_check. intros. checks. split_and!; [done..|]. intros l1 x l2. by apply next_ok_sound. Qed.

Fixpoint links_ok (m : gmap K (link K)) (prev : option K) xs : bool :=
  match xs with
  | [] => true
  | x :: xs' => bool_decide (m !! x = Some (Link (head xs') prev)) && links_ok m (Some x) xs'
  end.
Lemma links_ok_sound m prev xs l1 x l2 :
  links_ok m prev xs = true → xs = l1 ++ x :: l2 →
  m !! x = Some (Link (head l2) (match last l1 with Some y => Some y | None => prev end)).
Proof.
  revert prev xs. induction l1 as [|y l1 IH]; intros prev xs Hok ->; simpl in Hok; checks; [done|].
  rewrite last_cons. erewrite (IH (Some y)) by done. by destruct (last l1).
Qed.
Definition dl_check (m : gmap K (link K)) (first : option K) xs : bool :=
  bool_decide (first = head xs) && bool_decide (NoDup xs) && links_ok m None xs.
Lemma dl_check_sound m first xs : dl_check m first xs = true → dl_rep m first xs.
Proof.
  unfold dl_check. intros. checks. split_and!; [done..|]. intros l1 x l2 Hxs.
  erewrite links_ok_sound by done. by destruct (last l1).
Qed.
End lists.

(** ** The lists of the loops *)
Definition no_lists : aloop := ALoop [] [] [] [] [] [].
Definition ghost_of (gm : gmap loopid aloop) : ghost := λ L, default no_lists (gm !! L).
Definition lists_of (qm : gmap loc (list loc)) : loc → list loc := λ q, default [] (qm !! q).

Lemma ghost_of_elem {B} (p : aloop → list B) gm L x :
  p no_lists = [] → x ∈ p (ghost_of gm L) → ∃ a, gm !! L = Some a ∧ x ∈ p a ∧ ghost_of gm L = a.
Proof.
  unfold ghost_of. intros Hp. destruct (gm !! L) as [a|] eqn:E; simpl; [by eauto|].
  rewrite Hp. by intros ?%elem_of_nil.
Qed.

Section checker.
Context {D : Type}.
Implicit Types (w : world D) (gm : gmap loopid aloop).

Definition check_loop w gm L (l : loop D) : bool :=
  let a := ghost_of gm L in
  rq_check (w_next w) (l_ready l) (work_node <$> a_ready a) &&
  rq_check (w_next w) (l_messages l) (message_node <$> a_msgs a) &&
  rq_check (w_next w) (l_batch l) (message_node <$> a_batch a) &&
  dl_check (w_wlinks w) (l_waits l) (a_waits a) && dl_check (w_iolinks w) (l_io l) (a_ios a).
Definition check_lists w L a : bool :=
  bool_decide (NoDup (a_inflight a)) && bool_decide (NoDup (a_timers a)) &&
  forallb (λ x, has (w_waits w !! x) (λ _, true)) (a_waits a) &&
  forallb (λ x, has (w_ios w !! x) (λ _, true)) (a_ios a) &&
  forallb (λ x, has (w_timers w !! x) (λ _, true)) (a_timers a) &&
  forallb (λ x, has (w_ops w !! x) (λ o, bool_decide (op_owner o = L) && op_active o)) (a_pending a) &&
  forallb (λ x, has (w_works w !! x) (λ k, bool_decide (work_owner k = L)) &&
                negb (has (w_ops w !! x) op_active)) (a_ready a) &&
  forallb (λ x, has (w_messages w !! x) (λ m, bool_decide (msg_owner m = L))) (a_inflight a).
Definition check_objects w gm : bool :=
  all_map (λ x _, absent (w_ios w !! x) && absent (w_timers w !! x) && has (w_wlinks w !! x) (λ _, true)) (w_waits w) &&
  all_map (λ x _, absent (w_timers w !! x) && has (w_iolinks w !! x) (λ _, true)) (w_ios w) &&
  all_map (λ x o, has (w_loops w !! op_owner o) (λ _, true) &&
                  has (w_works w !! x) (λ k, bool_decide (work_owner k = op_owner o)) &&
                  (negb (op_active o) || bool_decide (x ∈ a_pending (ghost_of gm (op_owner o))))) (w_ops w) &&
  all_map (λ x k, bool_decide (x ∈ a_ready (ghost_of gm (work_owner k))) ||
                  bool_decide (w_next w !! work_node x = Some None)) (w_works w) &&
  all_map (λ x m, bool_decide (x ∈ a_inflight (ghost_of gm (msg_owner m))) ||
                  bool_decide (w_next w !! message_node x = Some None)) (w_messages w).
Definition check_inv w gm : bool :=
  all_map (check_loop w gm) (w_loops w) && all_map (check_lists w) gm && check_objects w gm.

Lemma check_inv_sound w gm : check_inv w gm = true → Inv ∅ w (ghost_of gm).
Proof.
  unfold check_inv, check_objects. intros. checks.
  assert (HL : ∀ L l, w_loops w !! L = Some l → check_loop w gm L l = true) by (intros; by eapply (all_map_lookup (check_loop w gm))).
  assert (HG : ∀ L a, gm !! L = Some a → check_lists w L a = true) by (intros; by eapply (all_map_lookup (check_lists w))).
  assert (HN : ∀ L, NoDup (a_inflight (ghost_of gm L)) ∧ NoDup (a_timers (ghost_of gm L))).
  { intros L. unfold ghost_of. destruct (gm !! L) as [a|] eqn:E; simpl; [|split; constructor].
    specialize (HG L a E). unfold check_lists in HG. checks. done. }
  unfold check_loop, check_lists in *.
  constructor; try (intros L l Hl%HL; checks; by apply rq_check_sound || by apply dl_check_sound); try (intros L; apply HN).
  - intros L x (a&Ha%HG&Hx&_)%(ghost_of_elem a_waits); [|done]. checks. by list_check (a_waits a) Hx.
  - intros L x (a&Ha%HG&Hx&_)%(ghost_of_elem a_ios); [|done]. checks. by list_check (a_ios a) Hx.
  - intros L x (a&Ha%HG&Hx&_)%(ghost_of_elem a_timers); [|done]. checks. by list_check (a_timers a) Hx.
  - intros x [v Hv]. by map_check (w_waits w) Hv.
  - intros x [v Hv]. by map_check (w_ios w) Hv.
  - intros x [v Hv]. by map_check (w_waits w) Hv.
  - intros x [v Hv]. by map_check (w_ios w) Hv.
  - intros L x (a&Ha%HG&Hx&_)%(ghost_of_elem a_pending); [|done]. checks. list_check (a_pending a) Hx.
    split; [set_solver|]. eauto.
  - set_solver.
  - intros x o Ho Ha. map_check (w_ops w) Ho. rewrite Ha in *. simpl in *. checks. by right.
  - intros L x (a&Ha%HG&Hx&_)%(ghost_of_elem a_ready); [|done]. checks. list_check (a_ready a) Hx.
    eexists. split_and!; [done..|]. intros o Ho. rewrite Ho in *. by apply negb_true_iff.
  - intros L x (a&Ha%HG&Hx&_)%(ghost_of_elem a_inflight); [|done]. checks. list_check (a_inflight a) Hx. eauto.
  - intros x o Ho. map_check (w_ops w) Ho. eauto.
  - intros x k Hk Hx. map_check (w_works w) Hk. rewrite bool_decide_eq_false_2 in * by done. simpl in *. by checks.
  - intros x m Hm Hx. map_check (w_messages w) Hm. rewrite bool_decide_eq_false_2 in * by done. simpl in *. by checks.
Qed.

(** ** Timers *)
Definition heap_check (ks : list (loc * Z)) : bool :=
  forallb (λ i, match ks !! Nat.div2 i, ks !! S i with Some a, Some b => negb (later a b) | _, _ => true end)
    (seq 0 (length ks)).
Lemma heap_check_sound ks : heap_check ks = true → is_heap ks.
Proof.
  intros Hk i a b Ha Hb. pose proof (lookup_lt_Some _ _ _ Hb).
  pose proof (forallb_elem _ _ i Hk) as Hi. simpl in Hi. rewrite Ha, Hb in Hi.
  apply negb_true_iff, Hi. apply elem_of_seq. lia.
Qed.
Definition check_timers w gm : bool :=
  all_map (λ L l, bool_decide (l_timers l = a_timers (ghost_of gm L)) &&
                  has (timer_keys w (l_timers l)) heap_check) (w_loops w).
Lemma check_timers_sound w gm : check_timers w gm = true → timers_ok w (ghost_of gm).
Proof.
  unfold check_timers. intros Hc L l Hl. map_check (w_loops w) Hl. split; [done|]. eexists. split; [done|].
  by apply heap_check_sound.
Qed.

(** ** Events and wait queues *)
Lemma lists_of_elem qm q x : x ∈ lists_of qm q → ∃ xs, qm !! q = Some xs ∧ x ∈ xs ∧ lists_of qm q = xs.
Proof. unfold lists_of. destruct (qm !! q) as [xs|]; simpl; [by eauto|by intros ?%elem_of_nil]. Qed.

Definition check_events w (em : gmap loc (list loc)) : bool :=
  all_map (λ e v, dl_check (w_alinks w) (event_head v) (lists_of em e) &&
                  (negb (event_set v) || forallb (λ x, negb (has (w_ops w !! x) op_active)) (lists_of em e))) (w_events w) &&
  all_map (λ e xs, forallb (λ x, has (w_awaiters w !! x) (λ a, bool_decide (aw_event a = e) && aw_linked a)) xs) em &&
  all_map (λ x a, (negb (aw_linked a) || bool_decide (x ∈ lists_of em (aw_event a))) &&
                  has (w_waits w !! x) (λ _, true) && has (w_alinks w !! x) (λ k, aw_linked a || absent (l_prev k)) &&
                  has (w_ops w !! x) (λ o, has (w_events w !! aw_event a) (λ v, bool_decide (op_owner o = event_loop v)))) (w_awaiters w).
Lemma check_events_sound w em : check_events w em = true → EInv w (lists_of em).
Proof.
  unfold check_events. intros. checks. split; [constructor|].
  - intros e v Hv. map_check (w_events w) Hv. by apply dl_check_sound.
  - intros e x (xs&Hxs&Hx&_)%lists_of_elem. map_check em Hxs. list_check xs Hx. eauto.
  - intros x a Ha Hl. map_check (w_awaiters w) Ha. rewrite Hl in *. simpl in *. by checks.
  - intros x a Ha. map_check (w_awaiters w) Ha. split_and!; [done|by eexists|eauto].
  - intros x a Ha Hl. map_check (w_awaiters w) Ha. rewrite Hl in *. simpl in *. checks. eauto.
  - intros e v x o Hv Hs Hx Ho. map_check (w_events w) Hv. rewrite Hs in *. simpl in *.
    list_check (lists_of em e) Hx. rewrite Ho in *. by apply negb_true_iff.
Qed.

Definition check_status (gm : gmap loopid aloop) qm x (r : remote_wait) (o : op) : bool :=
  let inflight := bool_decide (x ∈ a_inflight (ghost_of gm (op_owner o))) in
  if rw_linked r then op_active o && negb inflight && bool_decide (x ∈ lists_of qm (rw_queue r))
  else Bool.eqb (op_active o) inflight.
Definition check_queues w gm (qm : gmap loc (list loc)) : bool :=
  all_map (λ q v, dl_check (w_rlinks w) (q_first v) (lists_of qm q) && bool_decide (q_last v = last (lists_of qm q)) &&
                  bool_decide (q_users v = users_of w q)) (w_queues w) &&
  all_map (λ q xs, forallb (λ x, has (w_remotes w !! x) (λ r, bool_decide (rw_queue r = q) && rw_linked r)) xs) qm &&
  all_map (λ x r, has (w_waits w !! x) (λ _, true) && has (w_rlinks w !! x) (λ _, true) &&
                  has (w_queues w !! rw_queue r) (λ _, true) &&
                  has (w_ops w !! x) (λ o,
                    has (w_messages w !! x) (λ m, match m with Message run_notify L => bool_decide (L = op_owner o) | _ => false end) &&
                    check_status gm qm x r o)) (w_remotes w).
Lemma check_queues_sound w gm qm : check_queues w gm qm = true → WInv ∅ w (ghost_of gm) (lists_of qm).
Proof.
  unfold check_queues. intros. checks. constructor.
  - intros q v Hv. map_check (w_queues w) Hv. split; [by apply dl_check_sound|done].
  - intros q v Hv. by map_check (w_queues w) Hv.
  - intros q x (xs&Hxs&Hx&_)%lists_of_elem. map_check qm Hxs. list_check xs Hx. eauto.
  - intros x r Hr. map_check (w_remotes w) Hr. split_and!; [done..|]. eexists. split_and!; [done| |].
    + match goal with Hm : w_messages w !! x = Some ?m |- _ => destruct m as [[|] ?] end; checks; [|done]. by subst.
    + unfold check_status, status in *. destruct (rw_linked r); checks.
      * split_and!; [done| |set_solver|done]. apply (bool_decide_eq_false_1 _). by apply negb_true_iff.
      * match goal with He : Bool.eqb _ _ = true |- _ => apply Bool.eqb_prop in He as -> end.
        rewrite bool_decide_eq_true. set_solver.
Qed.

Definition check_hooks w gm : bool :=
  all_map (λ L a, forallb (λ x, has (w_waits w !! x) (λ v,
    Bool.eqb (negb (absent (wait_interrupt v))) (negb (absent (w_remotes w !! x))))) (a_waits a)) gm.
Lemma check_hooks_sound w gm : check_hooks w gm = true → hooks_ok w (ghost_of gm).
Proof.
  unfold check_hooks. intros Hc L x v (a&Ha&Hx&_)%(ghost_of_elem a_waits) Hv; [|done].
  map_check gm Ha. list_check (a_waits a) Hx. simplify_eq.
  rewrite <- !not_eq_None_Some. destruct (wait_interrupt v), (w_remotes w !! x); simpl in *; done.
Qed.
End checker.

(** ** Channels and mailboxes *)
Section fifo_checker.
Context {D T : Type} `{EqDecision T}.
Implicit Types (st : fifo T).

Definition check_ring (r : ring T) xs : bool :=
  bool_decide (length xs = size_ r) && bool_decide (size_ r ≤ length (slots r)) &&
  bool_decide (length (slots r) = 0 ∨ Fifo.head_ r < length (slots r)) &&
  forallb (λ i, bool_decide (slots r !! ((Fifo.head_ r + i) mod length (slots r)) = Some (xs !! i))) (seq 0 (length (slots r))).
Lemma check_ring_sound r xs : check_ring r xs = true → ring_rep r xs.
Proof.
  unfold check_ring. intros. checks. split_and!; [done|done|naive_solver|]. intros i Hi.
  assert (Hin : i ∈ seq 0 (length (slots r))) by (apply elem_of_seq; lia).
  by list_check (seq 0 (length (slots r))) Hin.
Qed.

Definition check_wf st : bool :=
  bool_decide (length (f_buf st) ≤ f_cap st) &&
  (forallb is_sender (f_waiters st) && (is_nil (f_waiters st) || bool_decide (length (f_buf st) = f_cap st)) ||
   forallb (λ x, negb (is_sender x)) (f_waiters st) && (is_nil (f_waiters st) || is_nil (f_buf st))) &&
  (negb (f_closed st) || is_nil (f_waiters st)).
Lemma is_nil_true {A} (xs : list A) : is_nil xs = true → xs = [].
Proof. by destruct xs. Qed.
Lemma check_wf_sound st : check_wf st = true → fifo_wf st.
Proof.
  unfold check_wf. intros. checks.
  assert (Hside : (∀ x, x ∈ f_waiters st → is_sender x = true ∧ length (f_buf st) = f_cap st) ∨
                  (∀ x, x ∈ f_waiters st → is_sender x = false ∧ f_buf st = [])).
  { match goal with Hs : (_ && _) || (_ && _) = true |- _ => apply orb_true_iff in Hs as [Hs|Hs] end; checks; [left|right]; intros x Hx;
      list_check (f_waiters st) Hx;
      assert (Hne : is_nil (f_waiters st) = false) by (destruct (f_waiters st); [by apply elem_of_nil in Hx|done]);
      rewrite Hne in *; simpl in *; checks.
    - done.
    - split; [by apply negb_true_iff|by apply is_nil_true]. }
  constructor.
  - done.
  - intros x Hx Hs. destruct Hside as [Hs'|Hs']; destruct (Hs' x Hx); congruence.
  - intros x Hx Hs. destruct Hside as [Hs'|Hs']; destruct (Hs' x Hx); congruence.
  - intros x y Hx Hy. destruct Hside as [Hs'|Hs']; destruct (Hs' x Hx), (Hs' y Hy); congruence.
  - intros Hc. rewrite Hc in *. simpl in *. by apply is_nil_true.
Qed.

Definition check_chan (s : cworld (D := D)) (gc : loc → list loc) b (c : channel) st : bool :=
  check_ring (ch_ring c) (f_buf st) && bool_decide (f_cap st = length (slots (ch_ring c))) &&
  bool_decide (f_waiters st = cwaiters s (gc b)) && bool_decide (f_closed st = ch_closed c).
Lemma check_chan_sound s gc b c st : check_chan s gc b c st = true → CAbs s gc b c st.
Proof. unfold check_chan. intros. checks. constructor; [by apply check_ring_sound|done..]. Qed.

Definition check_chans (s : cworld (D := D)) gm (cm : gmap loc (list loc)) (sm : gmap loc (fifo T)) : bool :=
  check_inv (cw s) gm &&
  all_map (λ b c, dl_check (clinks s) (ch_first c) (lists_of cm b) && bool_decide (ch_last c = last (lists_of cm b)) &&
                  has (sm !! b) (λ st, check_chan s (lists_of cm) b c st && check_wf st)) (chans s) &&
  all_map (λ b xs, forallb (λ x, has (cnodes s !! x) (λ n, bool_decide (cn_queue n = b) && cn_linked n)) xs) cm &&
  all_map (λ x n, (negb (cn_linked n) || bool_decide (x ∈ lists_of cm (cn_queue n))) &&
                  has (w_waits (cw s) !! x) (λ _, true) && has (clinks s !! x) (λ _, true) &&
                  (negb (cn_sending n) || has (cn_value n) (λ _, true)) &&
                  has (chans s !! cn_queue n) (λ c, has (w_ops (cw s) !! x) (λ o,
                    bool_decide (op_owner o = ch_loop c) && (negb (op_active o) || cn_linked n)))) (cnodes s).
Lemma check_chans_sound s gm cm sm : check_chans s gm cm sm = true → CInv s (ghost_of gm) (lists_of cm).
Proof.
  unfold check_chans. intros. checks. split; [constructor|].
  - by apply check_inv_sound.
  - intros b c Hc. map_check (chans s) Hc. split; [by apply dl_check_sound|done].
  - intros b x (xs&Hxs&Hx&_)%lists_of_elem. map_check cm Hxs. list_check xs Hx. eauto.
  - intros x n Hn Hl. map_check (cnodes s) Hn. rewrite Hl in *. simpl in *. by checks.
  - intros x n Hn. map_check (cnodes s) Hn. split_and!; [done..| |].
    + intros Hs. rewrite Hs in *. simpl in *. by checks.
    + eexists _, _. split_and!; [done..|]. intros Ha. rewrite Ha in *. simpl in *. by left.
  - set_solver.
  - intros b c Hc. map_check (chans s) Hc. eexists. split; [by apply check_chan_sound|by apply check_wf_sound].
Qed.

Definition check_box (s : mworld (D := D)) (gq : loc → list loc) (m : mailbox) st : bool :=
  check_ring (mb_ring m) (f_buf st) && bool_decide (f_cap st = length (slots (mb_ring m))) &&
  bool_decide (f_waiters st = waiters_of s (gq (mb_queue m))) && bool_decide (f_closed st = mb_closed m).
Lemma check_box_sound s gq m st : check_box s gq m st = true → MAbs s gq m st.
Proof. unfold check_box. intros. checks. constructor; [by apply check_ring_sound|done..]. Qed.

Definition check_boxes (s : mworld (D := D)) gm (qm : gmap loc (list loc)) (sm : gmap loc (fifo T)) : bool :=
  check_inv (mw s) gm && check_queues (mw s) gm qm &&
  all_map (λ b m, all_map (λ b' m', bool_decide (mb_queue m = mb_queue m' → b = b')) (boxes s) &&
                  has (w_queues (mw s) !! mb_queue m) (λ _, true) &&
                  has (sm !! b) (λ st, check_box s (lists_of qm) m st && check_wf st) &&
                  forallb (λ x, has (mnodes s !! x) (λ n, bool_decide (mn_box n = b) &&
                    (negb (mn_sending n) || has (mn_value n) (λ _, true)))) (lists_of qm (mb_queue m))) (boxes s).
Lemma check_boxes_sound s gm qm sm : check_boxes s gm qm sm = true → MInv s (ghost_of gm) (lists_of qm).
Proof.
  unfold check_boxes. intros. checks. constructor.
  - by apply check_inv_sound.
  - by apply check_queues_sound.
  - intros b b' m m' Hm Hm'. map_check (boxes s) Hm.
    match goal with Ha : all_map (λ b' m', bool_decide (mb_queue m = _ → _)) _ = true |- _ =>
      pose proof (all_map_lookup _ _ _ _ Ha Hm') as Hd end. simpl in Hd. by checks.
  - intros b m Hm. map_check (boxes s) Hm. split; [done|]. eexists. split; [by apply check_box_sound|by apply check_wf_sound].
  - intros b m x Hm Hx. map_check (boxes s) Hm. list_check (lists_of qm (mb_queue m)) Hx. eexists. split_and!; [done..|].
    intros Hs. rewrite Hs in *. simpl in *. by checks.
Qed.
End fifo_checker.
