(* ===== verification/Scenario.v ===== *)
(** * Concrete systems

    Small systems built with the operations of the model, on which the theorems are
    evaluated: a loop with timers, remote waiters and event awaiters, a driver that
    accepts everything, and a fixed clock.  They also show that the invariants hold of
    reachable states. *)
From S2P Require Import Prelude ReadyQueue Links Heap Core Loop LoopInv LoopSpec Event WaitQueue Io Run RunSpec RunLoop Checker.

(** The state after a call. *)
Definition exec {S A} (c : M S A) (s : S) : S :=
  match c s with Ret _ s' | Throw _ s' => s' | _ => s end.
Lemma exec_runs {S A} (c : M S A) (s : S) Q : runs c s Q → ∃ a, c s = Ret a (exec c s) ∧ Q a (exec c s).
Proof. unfold post, exec. destruct (c s) as [a s'| | |]; [|done..]. eauto. Qed.

(** A driver that accepts every request and completes none. *)
#[global] Instance idle_driver : Driver unit := {|
  submit _ _ := mret tt;
  cancel _ x := upd_io x (set_io_cancel_sent true);
  poll _ _ := mret tt |}.

#[global] Instance idle_driver_ok : DriverOk unit.
Proof.
  split.
  - intros L x w _ _. by apply post_ret.
  - intros L x w _ [i Hi]. simpl. eapply post_upd_io; [done|]. split_and!.
    + split_and!.
      * by destruct w.
      * intros L'. simpl. by destruct (w_loops w !! L') as [[]|].
      * intros y j Hj. simpl. destruct (decide (x = y)) as [<-|].
        -- rewrite lookup_insert_eq. simplify_eq. by eexists.
        -- rewrite lookup_insert_ne by done. by eexists.
      * intros y. simpl. rewrite lookup_insert_is_Some'. intros [<-|?]; by eauto.
    + simpl. by rewrite lookup_insert_eq.
    + intros y Hy. by apply lookup_insert_ne.
Qed.

(** The clock stands at 15; function 9 throws; coroutines suspend at once. *)
#[global] Instance still_program : Program unit := {|
  clock_now := mret 15%Z;
  call f := if bool_decide (f = 9) then throw (user_error 9) else mret tt;
  resume _ := mret tt |}.

Lemma still_clock (w : world unit) : clock_now w = Ret 15%Z w.
Proof. done. Qed.

Definition idle_loop (thread : tid) : loop unit :=
  {| l_driver := tt; l_thread := thread; l_ready := ReadyQueue None None; l_timers := []; l_posts := [];
     l_messages := ReadyQueue None None; l_batch := ReadyQueue None None; l_holds := 0; l_stopping := false;
     l_cancel := false; l_roots := 0; l_budget := 64; l_running := false; l_error := None; l_io := None;
     l_waits := None; l_woken := false |}.

(** Two loops, a stop source 1, a wait queue 10 and an event 20 of loop 0. *)
Definition base : world unit :=
  {| w_thread := 0; w_current := ∅; w_stops := {[1 := false]};
     w_loops := <[0 := idle_loop 0]> {[1 := idle_loop 1]}; w_next := ∅; w_works := ∅; w_ops := ∅; w_waits := ∅;
     w_wlinks := ∅; w_timers := ∅; w_ios := ∅; w_iolinks := ∅; w_messages := ∅; w_flags := {[30 := false]}; w_cells := ∅;
     w_events := {[20 := Event 0 false None]}; w_awaiters := ∅; w_alinks := ∅;
     w_queues := {[10 := WaitQueue None None 0]}; w_remotes := ∅; w_rlinks := ∅ |}.

(** ** Timers 3 and 4 (due at 10 and 20) and two remote waiters 1 and 2 on queue 10 *)
Definition objects : world unit := new_timer 4 0 20 (Some 1) (new_timer 3 0 10 None base).
Definition armed1 : world unit := exec (timer_await_suspend 3 100) objects.
Definition armed2 : world unit := exec (timer_await_suspend 4 101) armed1.
Definition waiting0 : world unit := exec (remote_construct 2 10 0 None) (exec (remote_construct 1 10 0 (Some 1)) armed2).
Definition waiting : world unit := exec (enqueue 2 103) (exec (enqueue 1 102) waiting0).
Definition canceled : world unit := exec (request_stop 1) waiting.
Example canceled_state :
  l_timers <$> w_loops canceled !! 0 = Some [3; 4] ∧ l_waits <$> w_loops canceled !! 0 = Some (Some 2) ∧
  l_cancel <$> w_loops canceled !! 0 = Some true ∧ l_woken <$> w_loops canceled !! 0 = Some true.
Proof. vm_compute. done. Qed.
Example expire_state : l_timers <$> w_loops (exec (expire 0) canceled) !! 0 = Some [] ∧
  l_waits <$> w_loops (exec (expire 0) canceled) !! 0 = Some (Some 2) ∧
  op_error <$> w_ops (exec (expire 0) canceled) !! 1 = Some (Some operation_canceled) ∧
  op_error <$> w_ops (exec (expire 0) canceled) !! 3 = Some None.
Proof. vm_compute. done. Qed.

Definition canceled_lists : gmap loopid aloop := {[0 := ALoop [] [] [] [2; 1] [] [3; 4]]}.
Definition canceled_queues : gmap loc (list loc) := {[10 := [1; 2]]}.
Example canceled_ok : check_inv canceled canceled_lists && check_timers canceled canceled_lists &&
  check_queues canceled canceled_lists canceled_queues && check_hooks canceled canceled_lists = true.
Proof. vm_compute. reflexivity. Qed.
