(* ===== verification/LoopWitness.v ===== *)
(** * Instances of the loop theorems on concrete systems *)
From S2P Require Import Prelude ReadyQueue Links Heap Core Loop LoopInv LoopSpec Event WaitQueue Fifo Io Run RunSpec RunLoop Root Checker Scenario.

Ltac by_check := vm_compute; reflexivity.

(** Messages 1 and 2, still idle, behind an empty queue. *)
Lemma ready_queue_fifo_witness :
  runs (push_all [1; 2] ;; pop_all (length ([] ++ [1; 2]))) (RqMem (<[1 := None]> {[2 := None]}) empty_queue)
    (λ zs s', zs = [] ++ [1; 2] ∧ empty (rq_queue s') = true).
Proof.
  apply (ready_queue_fifo (K := nat)); [apply rq_rep_empty|by_check || (apply (bool_decide_unpack _); by_check)|].
  intros y Hy. apply elem_of_cons in Hy as [->|Hy%list_elem_of_singleton]; [by_check|by subst].
Defined.

(** A ring of three slots whose head is at the end. *)
Lemma ring_roundtrip_witness :
  ∃ r1 r2, ring_puts [7; 8] (Ring [None; None; Some 6] 2 1) = Some r1 ∧
           ring_gets (length [6] + length [7; 8]) r1 = Some ([6] ++ [7; 8], r2) ∧ ring_rep r2 [].
Proof.
  apply (ring_roundtrip (Ring [None; None; Some 6] 2 1) [6] [7; 8]); [|simpl; lia].
  split_and!; [done|simpl; lia..|]. intros [|[|[|i]]] Hi; simpl in *; [done..|lia].
Defined.

Lemma sleep_bounds_witness :
  (5 ≤ sleep 5 10 ≤ time_max)%Z ∧ (sleep 5 10 ≤ sleep 5 (2 ^ 63))%Z ∧
  ((0 ≤ 10)%Z → (5 + 10 ≤ time_max)%Z → sleep 5 10 = (5 + 10)%Z).
Proof. apply (sleep_bounds 5 10 (2 ^ 63)); unfold time_max; lia. Defined.

(** ** The loop with two timers and two remote waiters *)
Definition loop_of (w : world unit) (L : loopid) : loop unit := default (idle_loop 0) (w_loops w !! L).

Lemma expire_spec_witness :
  post (expire 0) canceled
    (λ _ w', ∃ w1 fired ts, scanned canceled 0 (loop_of canceled 0) w1 ∧
       expired_spec canceled (ghost_of canceled_lists) (lists_of canceled_queues) 0 (loop_of canceled 0) w'
         (if l_cancel (loop_of canceled 0) then gone_timers canceled (loop_of canceled 0) else [])
         (if l_cancel (loop_of canceled 0) then hit_waits canceled (ghost_of canceled_lists) 0 (loop_of canceled 0) else [])
         fired ts ((λ _, 15%Z) w1) ∧
       asked_spec canceled (ghost_of canceled_lists) 0 (loop_of canceled 0) w')
    (λ _ w', l_cancel (loop_of canceled 0) = true ∧
       refused_spec canceled (ghost_of canceled_lists) (lists_of canceled_queues) 0 (loop_of canceled 0) w').
Proof.
  apply (expire_spec (λ _, 15%Z) still_clock canceled (ghost_of canceled_lists) (lists_of canceled_queues) 0
    (loop_of canceled 0)).
  - apply check_inv_sound. by_check.
  - apply check_timers_sound. by_check.
  - apply check_queues_sound. by_check.
  - apply check_hooks_sound. by_check.
  - by_check.
Defined.

(** ** Wake-ups and [run] *)
Definition posted5 : world unit := exec (post_fn 0 (Some 5)) base.
Lemma no_lost_wakeup_witness : l_woken (loop_of posted5 0) = true.
Proof.
  apply (no_lost_wakeup 0 base posted5 (idle_loop 0) (loop_of posted5 0)).
  - by_check.
  - by_check.
  - apply rtc_once. exists (do_post 0 5). by_check.
  - by_check.
  - left. by_check.
Defined.

Lemma run_outcomes_witness :
  match run 3 0 posted5 with
  | Ret (Some _) w' => left_run 0 (w_current posted5 !! w_thread posted5) w' ∧
      ∃ l', w_loops w' !! 0 = Some l' ∧ idle l' = true ∧ l_error l' = None
  | Throw e w' =>
      if decide (l_thread (loop_of posted5 0) = w_thread posted5) then
        if l_running (loop_of posted5 0) then e = logic_error "nested loop.run" ∧ w' = posted5
        else left_run 0 (w_current posted5 !! w_thread posted5) w'
      else e = logic_error "wrong loop thread" ∧ w' = posted5
  | _ => True
  end.
Proof. apply (run_outcomes 3 0 posted5 (loop_of posted5 0)). by_check. Defined.

Definition ran5 : world unit := exec (run 3 0) posted5.
Lemma run_returns_quiescent_witness :
  (∃ l', w_loops ran5 !! 0 = Some l' ∧ l_roots l' = 0 ∧ l_posts l' = [] ∧ (l_holds l' ≠ 0 → l_stopping l' = true)) ∧
  a_ready (ghost_of ∅ 0) = [] ∧ a_msgs (ghost_of ∅ 0) = [] ∧ a_pending (ghost_of ∅ 0) = [] ∧
  ∀ x o, w_ops ran5 !! x = Some o → op_owner o = 0 → op_active o = false.
Proof.
  apply (run_returns_quiescent 3 0 posted5 ran5 (ghost_of ∅)).
  - by_check.
  - apply check_inv_sound. by_check.
  - apply check_timers_sound. by_check.
Defined.

(** A posted function that throws ends the loop with its exception. *)
Definition posted9 : world unit := exec (post_fn 0 (Some 9)) base.
Definition entered9 : world unit :=
  set_w_current (<[w_thread posted9 := 0]> (w_current posted9))
    (set_w_loops (<[0 := set_l_running true (loop_of posted9 0)]> (w_loops posted9)) posted9).
Definition ended9 : world unit := exec (run_loop 3 0) entered9.
Lemma run_rethrow_witness :
  ∃ w', run 3 0 posted9 = Throw (user_error 9) w' ∧ l_error <$> w_loops w' !! 0 = Some None.
Proof.
  apply (run_rethrow 3 0 posted9 (loop_of posted9 0) ended9 (loop_of ended9 0) (user_error 9)); by_check.
Defined.

Lemma posts_run_witness :
  runs (for_each (λ f, try_catch (call f) (fail 0)) [9; 8; 9]) base (λ _ w', is_Some (w_loops w' !! 0)).
Proof.
  apply (posts_run 0 [9; 8; 9] base); [by eexists|].
  intros f w Hw. unfold call, still_program. case_bool_decide; exact Hw.
Defined.

(** ** Messages *)
Definition delivered : world unit := exec (drain 10 (λ _, mret None)) waiting.
Definition delivered_lists : gmap loopid aloop := {[0 := ALoop [] [1; 2] [] [2; 1] [] [3; 4]]}.
Lemma detach_spec_witness :
  runs (detach 1 0) delivered (λ _ w', Inv ∅ w' (g_detach 1 0 (ghost_of delivered_lists)) ∧ mframe delivered w' ∧
    is_Some (w_loops w' !! 0)).
Proof.
  apply (detach_spec 1 ∅ delivered (ghost_of delivered_lists) 0 (loop_of delivered 0)); [|by_check].
  apply check_inv_sound. by_check.
Defined.

Definition batched : world unit := exec (detach 64 0) delivered.
Definition batched_lists : gmap loopid aloop := {[0 := ALoop [] [] [1; 2] [2; 1] [] [3; 4]]}.
Lemma run_batch_spec_witness :
  runs (run_batch 64 0) batched (λ _ w',
    Inv ∅ w' (g_run 0 (a_batch (ghost_of batched_lists 0)) (ghost_of batched_lists)) ∧
    WInv ∅ w' (g_run 0 (a_batch (ghost_of batched_lists 0)) (ghost_of batched_lists)) (lists_of ∅) ∧
    w_ops w' = alter_all retired (a_batch (ghost_of batched_lists 0)) (w_ops batched)).
Proof.
  apply (run_batch_spec 64 batched (ghost_of batched_lists) (lists_of ∅) 0 (loop_of batched 0)).
  - apply check_inv_sound. by_check.
  - apply check_queues_sound. by_check.
  - by_check.
  - intros x Hx. assert (x = 1 ∨ x = 2) as [->| ->] by (vm_compute in Hx; set_solver); vm_compute; by eexists.
  - vm_compute. lia.
Defined.

(** ** Cancellation, timers and requests *)
Definition waiting_lists : gmap loopid aloop := {[0 := ALoop [] [] [] [2; 1] [] [3; 4]]}.
Lemma request_stop_spec_witness :
  runs (request_stop 1) waiting (λ _ w',
    Inv ∅ w' (ghost_of waiting_lists) ∧ requested w' (Some 1) = true ∧
    ∀ x o, w_ops waiting !! x = Some o →
      if decide (op_callback o = Some 1)
      then w_ops w' !! x = Some (set_op_canceled true o) ∧
           ∃ l, w_loops w' !! op_owner o = Some l ∧ l_cancel l = true ∧ l_woken l = true
      else w_ops w' !! x = Some o).
Proof.
  apply (request_stop_spec ∅ waiting (ghost_of waiting_lists) 1); [|by_check].
  apply check_inv_sound. by_check.
Defined.

Definition op_of (w : world unit) (x : loc) : op := default (Op 0 None false false None) (w_ops w !! x).
Lemma timer_await_suspend_armed_witness :
  runs (timer_await_suspend 4 101) armed1 (λ b w', b = true ∧ ∃ ts,
    ts ≡ₚ 4 :: l_timers (loop_of armed1 0) ∧
    Inv ∅ w' (upd_g (op_owner (op_of armed1 4)) (set_a_timers ts) (ghost_of {[0 := ALoop [] [] [] [] [] [3]]})) ∧
    timers_ok w' (upd_g (op_owner (op_of armed1 4)) (set_a_timers ts) (ghost_of {[0 := ALoop [] [] [] [] [] [3]]})) ∧
    w_ops w' = <[4 := armed armed1 (timer_token (Timer 20 (Some 1))) (op_of armed1 4)]> (w_ops armed1)).
Proof.
  apply (timer_await_suspend_armed armed1 (ghost_of {[0 := ALoop [] [] [] [] [] [3]]}) 4 (op_of armed1 4)
    (Timer 20 (Some 1)) (loop_of armed1 0) 101); try by_check.
  - apply check_inv_sound. by_check.
  - apply check_timers_sound. by_check.
  - vm_compute. set_solver.
Defined.

(** A read of 100 bytes on socket 7, whose direction flag is cell 30. *)
Definition reading : world unit := new_io 5 0 (io_init op_read 7 1 100 None (Some 30)) base.
Definition io_of (w : world unit) (x : loc) : io := default (io_init op_nop 0 0 0 None None) (w_ios w !! x).
Lemma io_await_suspend_spec_witness :
  post (io_await_suspend 5 104) reading
    (λ b w', busy_now reading (io_of reading 5) = false ∧
       if b : bool
       then (l_stopping (loop_of reading 0) || requested reading (io_token (io_of reading 5))) = false ∧
            w_flags w' = dir_flags (io_of reading 5) reading ∧
            (if bool_decide (io_size (io_of reading 5) = 0%Z) && is_stream (io_code (io_of reading 5))
             then Inv ∅ w' (g_complete (op_owner (op_of reading 5)) 5 (g_start (op_owner (op_of reading 5)) 5 (ghost_of ∅))) ∧
                  op_active <$> w_ops w' !! 5 = Some false
             else Inv ∅ w' (g_start (op_owner (op_of reading 5)) 5 (ghost_of ∅)) ∧ op_active <$> w_ops w' !! 5 = Some true)
       else (l_stopping (loop_of reading 0) || requested reading (io_token (io_of reading 5))) = true ∧
            w' = set_w_ops (<[5 := refused (op_of reading 5)]> (w_ops reading)) reading)
    (λ e w', if busy_now reading (io_of reading 5) then e = logic_error "socket direction already in use" ∧ w' = reading
             else Inv ∅ w' (ghost_of ∅) ∧ op_active <$> w_ops w' !! 5 = Some false ∧
                  w_flags w' = dir_flags (io_of reading 5) reading ∧
                  (∃ i', w_ios w' !! 5 = Some i' ∧ io_busy i' = io_busy (io_of reading 5) ∧
                         io_reserved i' = io_reserved (reserved_io (io_of reading 5)))).
Proof.
  apply (io_await_suspend_spec reading (ghost_of ∅) 5 (op_of reading 5) (io_of reading 5) (Link None None) (loop_of reading 0) 104).
  - apply check_inv_sound. by_check.
  - constructor; try by_check. vm_compute. set_solver.
  - by_check.
  - by_check.
  - intros f. vm_compute. intros [= <-]. by eexists.
Defined.

(** ** Two roots, one of which has failed on another thread *)
Definition new_work (x : loc) (L : loopid) (w : world unit) : world unit :=
  set_w_next (<[work_node x := None]> (w_next w)) (set_w_works (<[x := Work None L]> (w_works w)) w).
Definition root_base : rworld :=
  RWorld (new_message 10 (Message (run_resume 0) 0) (new_message 9 (Message (run_resume 0) 0)
    (new_work 8 0 (new_work 7 0 (set_w_current {[0 := 0]} base))))) ∅.
Definition two_roots : rworld := exec (root_resume 1) (exec (spawn 2 0 8 10 101 true) (exec (spawn 1 0 7 9 100 true) root_base)).
Definition migrated : rworld := RWorld (set_w_thread 1 (rw two_roots)) (roots two_roots).
Definition one_back : rworld := exec (root_leave 1 (Some (user_error 3))) migrated.
Example one_back_state :
  (rf_stage <$> roots one_back !! 1) = Some (returning (Some (user_error 3))) ∧
  (l_roots <$> w_loops (rw one_back) !! 0) = Some 2 ∧ (negb ∘ empty ∘ l_messages <$> w_loops (rw one_back) !! 0) = Some true.
Proof. split_and!; by_check. Qed.
Lemma roots_counted_witness :
  l_roots (loop_of (rw one_back) 0) = live 0 (roots one_back) ∧
  ((∃ r f, roots one_back !! r = Some f ∧ rf_loop f = 0) → idle (loop_of (rw one_back) 0) = false).
Proof.
  apply (roots_counted root_base one_back 0 (loop_of (rw one_back) 0)).
  - intros L l HL. change (w_loops (rw root_base)) with (w_loops base) in HL. unfold base in HL. cbn [w_loops] in HL.
    apply lookup_insert_Some in HL as [[<- <-]|[_ [<- <-]%lookup_singleton_Some]]; by_check.
  - eapply rtc_l; [apply (step_spawn root_base _ 1 0 7 9 100 true); by_check|].
    eapply rtc_l; [eapply (step_spawn _ _ 2 0 8 10 101 true); by_check|].
    eapply rtc_l; [eapply (step_resume _ two_roots 1); by_check|].
    eapply rtc_l; [apply (step_other two_roots (set_w_thread 1 (rw two_roots))); done|].
    eapply rtc_l; [eapply (step_leave migrated one_back 1); by_check|]. apply rtc_refl.
  - by_check.
Defined.
