(* ===== verification/SyncWitness.v ===== *)
(** * Instances of the synchronisation theorems on concrete systems *)
From S2P Require Import Prelude ReadyQueue Links Heap Core Loop LoopInv LoopSpec Event WaitQueue Fifo Channel ChannelOrder Mailbox Futex.
From S2P Require Import Io Run RunSpec RunLoop Checker Scenario LoopWitness.

(** ** Event 20 with two awaiters, 6 suspended and 7 new *)
Definition new_awaiter (x : loc) (w : world unit) : world unit :=
  set_w_awaiters (<[x := Awaiter 20 None false]> (w_awaiters w))
    (set_w_alinks (<[x := Link None None]> (w_alinks w)) (new_wait x 0 (Wait true None) w)).
Definition awaiting : world unit := exec (awaiter_await_suspend 6 106) (new_awaiter 7 (new_awaiter 6 base)).
Definition awaiting_lists : gmap loopid aloop := {[0 := ALoop [] [] [] [6] [] []]}.
Definition awaiting_events : gmap loc (list loc) := {[20 := [6]]}.

Lemma event_signal_spec_witness :
  runs (event_signal 20) awaiting (λ _ w',
    Inv ∅ w' (g_broadcast (event_loop (Event 0 false (Some 6))) (lists_of awaiting_events 20) awaiting (ghost_of awaiting_lists)) ∧
    EInv w' (lists_of awaiting_events) ∧
    w_ops w' = retire_all (lists_of awaiting_events 20) (w_ops awaiting) ∧
    w_events w' = <[20 := set_event_set true (Event 0 false (Some 6))]> (w_events awaiting) ∧
    frame (set_w_events (w_events w') awaiting) w').
Proof.
  apply (event_signal_spec awaiting (ghost_of awaiting_lists) (lists_of awaiting_events) 20 (Event 0 false (Some 6))
    (loop_of awaiting 0)); try by_check.
  - apply check_inv_sound. by_check.
  - apply check_events_sound. by_check.
Defined.

Lemma awaiter_await_suspend_spec_witness :
  runs (awaiter_await_suspend 7 107) awaiting (λ b w',
    if b : bool
    then EInv w' (upd_at (aw_event (Awaiter 20 None false)) (cons 7) (lists_of awaiting_events)) ∧
         (if event_set (Event 0 false (Some 6))
          then Inv ∅ w' (g_notify (op_owner (op_of awaiting 7)) 7 (g_park (op_owner (op_of awaiting 7)) 7 (ghost_of awaiting_lists)))
          else Inv ∅ w' (g_park (op_owner (op_of awaiting 7)) 7 (ghost_of awaiting_lists))) ∧
         op_active <$> w_ops w' !! 7 = Some (negb (event_set (Event 0 false (Some 6))))
    else wait_interruptible (Wait true None) = true ∧
         (l_stopping (loop_of awaiting 0) || requested awaiting (aw_token (Awaiter 20 None false))) = true ∧
         w' = set_w_ops (<[7 := refused (op_of awaiting 7)]> (w_ops awaiting)) awaiting).
Proof.
  apply (awaiter_await_suspend_spec awaiting (ghost_of awaiting_lists) (lists_of awaiting_events) 7
    (Awaiter 20 None false) (op_of awaiting 7) (Event 0 false (Some 6)) (Wait true None) (loop_of awaiting 0) 107); try by_check.
  - apply check_inv_sound. by_check.
  - apply check_events_sound. by_check.
  - exists (op_of awaiting 7), (Link None None). split_and!; try by_check. vm_compute. set_solver.
Defined.

Lemma awaiter_destroy_active_witness : awaiter_destroy 6 awaiting = Terminate.
Proof.
  apply (awaiter_destroy_active awaiting (lists_of awaiting_events) 6 (Awaiter 20 None true) (op_of awaiting 6)); try by_check.
  apply check_events_sound. by_check.
Defined.

(** ** Queue 10 with the linked waiters 1 and 2 *)
Definition waiting_queues : gmap loc (list loc) := {[10 := [1; 2]]}.
Lemma queue_destroy_run_witness :
  queue_destroy 10 waiting = Ret tt waiting ∧ (∀ x r, w_remotes waiting !! x = Some r → rw_queue r ≠ 10) ∨
  queue_destroy 10 waiting = Terminate ∧ (∃ x r, w_remotes waiting !! x = Some r ∧ rw_queue r = 10).
Proof.
  apply (queue_destroy_run ∅ waiting (ghost_of waiting_lists) (lists_of waiting_queues) 10 (WaitQueue (Some 1) (Some 2) 2));
    [|by_check]. apply check_queues_sound. by_check.
Defined.

Lemma remote_destroy_spec_witness :
  if rw_linked (RemoteWait 10 (Some 1) false) || op_active (op_of waiting0 1) then remote_destroy 1 waiting0 = Terminate
  else runs (remote_destroy 1) waiting0 (λ _ w',
    Inv ∅ w' (ghost_of {[0 := ALoop [] [] [] [] [] [3; 4]]}) ∧
    WInv ∅ w' (ghost_of {[0 := ALoop [] [] [] [] [] [3; 4]]}) (lists_of ∅) ∧
    w_remotes w' = delete 1 (w_remotes waiting0) ∧
    w_queues w' = <[rw_queue (RemoteWait 10 (Some 1) false) := set_q_users (pred (q_users (WaitQueue None None 2)))
                     (WaitQueue None None 2)]> (w_queues waiting0)).
Proof.
  apply (remote_destroy_spec ∅ waiting0 (ghost_of {[0 := ALoop [] [] [] [] [] [3; 4]]}) (lists_of ∅) 1
    (RemoteWait 10 (Some 1) false) (op_of waiting0 1) (WaitQueue None None 2)); try by_check.
  - apply check_inv_sound. by_check.
  - apply check_queues_sound. by_check.
Defined.

Lemma notify_all_spec_witness :
  runs (notify_all 10) waiting (λ _ w',
    released ∅ waiting w' (ghost_of waiting_lists) (lists_of waiting_queues) 10 (pruned waiting) (lists_of waiting_queues 10) []).
Proof.
  apply (notify_all_spec ∅ waiting (ghost_of waiting_lists) (lists_of waiting_queues) 10).
  - apply check_inv_sound. by_check.
  - apply check_queues_sound. by_check.
  - vm_compute. by eexists.
Defined.

(** Waiter 1 has been canceled, so 2 is the first live one. *)
Lemma notify_one_spec_witness :
  runs (notify_one 10) canceled (λ _ w',
    let dead := take_while (doomed canceled) (lists_of canceled_queues 10) in
    match drop_while (doomed canceled) (lists_of canceled_queues 10) with
    | [] => released ∅ canceled w' (ghost_of canceled_lists) (lists_of canceled_queues) 10 (pruned canceled) dead []
    | x :: rest => released ∅ canceled w' (ghost_of canceled_lists) (lists_of canceled_queues) 10 (pruned canceled) (dead ++ [x]) rest
    end).
Proof.
  apply (notify_one_spec ∅ canceled (ghost_of canceled_lists) (lists_of canceled_queues) 10).
  - apply check_inv_sound. by_check.
  - apply check_queues_sound. by_check.
  - vm_compute. by eexists.
Defined.

(** The futex value 3 is in cell 50. *)
Definition futexed : world unit := set_w_cells {[50 := 3%Z]} waiting0.
Lemma futex_await_suspend_spec_witness :
  runs (futex_await_suspend 50 3 1 108) futexed (λ b w',
    if wait_interruptible (Wait true (Some interrupt_remote)) &&
       (l_stopping (loop_of futexed 0) || requested futexed (rw_token (RemoteWait 10 (Some 1) false)))
    then b = false ∧ w' = set_w_ops (<[1 := refused (op_of futexed 1)]> (w_ops futexed)) futexed
    else if bool_decide (3%Z = 3%Z)
    then b = true ∧
         Inv ∅ w' (g_park (op_owner (op_of futexed 1)) 1 (ghost_of {[0 := ALoop [] [] [] [] [] [3; 4]]})) ∧
         WInv ∅ w' (g_park (op_owner (op_of futexed 1)) 1 (ghost_of {[0 := ALoop [] [] [] [] [] [3; 4]]}))
           (upd_at (rw_queue (RemoteWait 10 (Some 1) false)) (λ xs, xs ++ [1]) (lists_of ∅)) ∧
         op_active <$> w_ops w' !! 1 = Some true
    else b = false ∧ w' = futexed).
Proof.
  apply (futex_await_suspend_spec ∅ futexed (ghost_of {[0 := ALoop [] [] [] [] [] [3; 4]]}) (lists_of ∅) 1
    (RemoteWait 10 (Some 1) false) (op_of futexed 1) (Wait true (Some interrupt_remote)) (loop_of futexed 0)
    (Link None None) 108 50 3 3); try by_check.
  - apply check_inv_sound. by_check.
  - apply check_queues_sound. by_check.
  - exists (op_of futexed 1), (Link None None). split_and!; try by_check. vm_compute. set_solver.
  - set_solver.
Defined.

(** ** A channel of capacity 1 holding 11, with a blocked sender (61, value 12) and new nodes *)
Definition new_cnode (x : loc) (v : option nat) (sending : bool) (s : cworld (D := unit)) : cworld :=
  CWorld (new_wait x 0 (Wait true None) (cw s)) (chans s) (<[x := CNode 40 None v sending false]> (cnodes s))
    (<[x := Link None None]> (clinks s)).
Definition chan0 : cworld (D := unit) (T := nat) := CWorld base {[40 := Channel 0 (new_ring 1) false None None]} ∅ ∅.
Definition chan_new : cworld :=
  new_cnode 64 (Some 13) true (new_cnode 63 None false (new_cnode 61 (Some 12) true (new_cnode 60 (Some 11) true chan0))).
Definition chan_full : cworld := exec (channel_await_suspend 60 160) chan_new.
Definition chan_blocked : cworld := exec (channel_await_suspend 61 161) chan_full.
Definition chan_lists : gmap loopid aloop := {[0 := ALoop [] [] [] [61] [] []]}.
Definition chan_queues : gmap loc (list loc) := {[40 := [61]]}.
Definition chan_state : fifo nat := Fifo 1 [11] [(61, Some 12)] false.
Definition chan_40 : channel (T := nat) := default (Channel 0 (new_ring 1) false None None) (chans chan_blocked !! 40).

Lemma chan_inv : CInv chan_blocked (ghost_of chan_lists) (lists_of chan_queues).
Proof. apply (check_chans_sound _ _ _ {[40 := chan_state]}). by_check. Qed.
Lemma chan_abs : CAbs chan_blocked (lists_of chan_queues) 40 chan_40 chan_state.
Proof. apply check_chan_sound. by_check. Qed.
Lemma chan_wf : fifo_wf chan_state.
Proof. apply check_wf_sound. by_check. Qed.
Lemma chan_fresh x n : cnodes chan_blocked !! x = Some n → x = 63 ∨ x = 64 →
  cfresh chan_blocked (ghost_of chan_lists) x n (op_of (cw chan_blocked) x) (Wait true None) (Link None None).
Proof.
  intros Hn [->| ->]; vm_compute in Hn; injection Hn as <-; constructor; try by_check;
    eexists _, (Link None None); split_and!; try by_check; vm_compute; set_solver.
Qed.

(** The channel before anyone waits, used without waiting. *)
Definition try_program : list (option nat) := [Some 1; Some 2; None; Some 3; None; None].
Lemma chan0_quiet : quiet chan0 (ghost_of ∅) (lists_of ∅) 40 [] 1.
Proof.
  split; [|done| |simpl; lia].
  - apply (check_chans_sound _ _ _ {[40 := Fifo 1 [] [] false]}). by_check.
  - eexists _, (loop_of (cw chan0) 0). split; [by_check|]. split; [apply check_chan_sound; by_check|]. by split_and!.
Qed.
Lemma channel_queue_equiv_witness :
  runs (try_all 40 try_program) chan0 (λ ar s', ∃ g' gc' q', quiet s' g' gc' 40 q' 1 ∧
    queue_run 1 try_program [] = (ar.1, ar.2, q') ∧ [] ++ ar.1 = ar.2 ++ q' ∧ length q' ≤ 1).
Proof. apply (channel_queue_equiv chan0 (ghost_of ∅) (lists_of ∅) 40 [] 1 try_program). exact chan0_quiet. Defined.

Lemma channel_send_spec_witness :
  runs (channel_await_suspend 64 164) chan_blocked (λ res s', ∃ g' gc' c',
    let '(susp, rx, st') := fifo_send (live_on chan_blocked 40) 64 13 chan_state in
    res = susp ∧ chans s' !! 40 = Some c' ∧ CInv s' g' gc' ∧ CAbs s' gc' 40 c' st' ∧
    (if susp then active_in s' 64 = true
     else w_ops (cw s') !! 64 = Some (if f_closed chan_state then set_op_error (Some broken_pipe) (op_of (cw chan_blocked) 64)
                                      else op_of (cw chan_blocked) 64)) ∧
    match rx with Some y => cn_value <$> cnodes s' !! y = Some (Some 13) | None => True end).
Proof.
  apply (channel_send_spec chan_blocked (ghost_of chan_lists) (lists_of chan_queues) 40 chan_40 chan_state 64
    (CNode 40 None (Some 13) true false) (op_of (cw chan_blocked) 64) (Wait true None) (Link None None)
    (loop_of (cw chan_blocked) 0) 164 13); try by_check.
  - apply chan_inv.
  - apply chan_abs.
  - apply chan_wf.
  - apply chan_fresh; [by_check|by right].
Defined.

Lemma channel_recv_spec_witness :
  runs (channel_await_suspend 63 163) chan_blocked (λ res s', ∃ g' gc' c',
    let '(v, susp, st') := fifo_recv (live_on chan_blocked 40) 63 chan_state in
    res = susp ∧ chans s' !! 40 = Some c' ∧ CInv s' g' gc' ∧ CAbs s' gc' 40 c' st' ∧
    (if susp then active_in s' 63 = true
     else w_ops (cw s') !! 63 = Some (op_of (cw chan_blocked) 63) ∧
          cn_value <$> cnodes s' !! 63 = Some (match v with Some v => Some v | None => cn_value (CNode 40 None (None : option nat) false false) end))).
Proof.
  apply (channel_recv_spec chan_blocked (ghost_of chan_lists) (lists_of chan_queues) 40 chan_40 chan_state 63
    (CNode 40 None None false false) (op_of (cw chan_blocked) 63) (Wait true None) (Link None None)
    (loop_of (cw chan_blocked) 0) 163); try by_check.
  - apply chan_inv.
  - apply chan_abs.
  - apply chan_wf.
  - apply chan_fresh; [by_check|by left].
Defined.

Lemma channel_close_spec_witness :
  runs (channel_close 40) chan_blocked (λ _ s', ∃ g' c',
    chans s' !! 40 = Some c' ∧ CInv s' g' (upd_at 40 (λ _, []) (lists_of chan_queues)) ∧
    CAbs s' (upd_at 40 (λ _, []) (lists_of chan_queues)) 40 c' (fifo_close chan_state) ∧
    (∀ y n o, y ∈ lists_of chan_queues 40 → cnodes chan_blocked !! y = Some n → w_ops (cw chan_blocked) !! y = Some o →
       w_ops (cw s') !! y = Some (closed_op n o)) ∧
    a_ready (g' (ch_loop chan_40)) = a_ready (ghost_of chan_lists (ch_loop chan_40)) ++ filter (λ x, active_in chan_blocked x = true) (lists_of chan_queues 40)).
Proof.
  apply (channel_close_spec chan_blocked (ghost_of chan_lists) (lists_of chan_queues) 40 chan_40 chan_state
    (loop_of (cw chan_blocked) 0)); try by_check.
  - apply chan_inv.
  - apply chan_abs.
  - apply chan_wf.
Defined.

(** ** A mailbox of capacity 1 on queue 10 holding 21, with a blocked sender (71, value 22) *)
Definition new_mnode (x : loc) (v : option nat) (sending : bool) (s : mworld (D := unit)) : mworld :=
  MWorld (exec (remote_construct x 10 0 None) (mw s)) (boxes s) (<[x := MNode 80 v sending]> (mnodes s)).
Definition box0 : mworld (D := unit) (T := nat) := MWorld base {[80 := Mailbox 10 (new_ring 1) false]} ∅.
Definition box_new : mworld (D := unit) :=
  new_mnode 74 (Some 23) true (new_mnode 73 None false (new_mnode 71 (Some 22) true (new_mnode 70 (Some 21) true box0))).
Definition box_blocked : mworld (D := unit) :=
  exec (mailbox_await_suspend 71 171) (exec (mailbox_await_suspend 70 170) box_new).
Definition box_lists : gmap loopid aloop := {[0 := ALoop [] [] [] [71] [] []]}.
Definition box_queues : gmap loc (list loc) := {[10 := [71]]}.
Definition box_state : fifo nat := Fifo 1 [21] [(71, Some 22)] false.
Definition box_80 : mailbox (T := nat) := default (Mailbox 10 (new_ring 1) false) (boxes box_blocked !! 80).

Lemma box_inv : MInv box_blocked (ghost_of box_lists) (lists_of box_queues).
Proof. apply (check_boxes_sound _ _ _ {[80 := box_state]}). by_check. Qed.
Lemma box_abs : MAbs box_blocked (lists_of box_queues) box_80 box_state.
Proof. apply check_box_sound. by_check. Qed.
Lemma box_wf : fifo_wf box_state.
Proof. apply check_wf_sound. by_check. Qed.
Lemma box_fresh x n : mnodes box_blocked !! x = Some n → x = 73 ∨ x = 74 →
  mfresh box_blocked (ghost_of box_lists) x n (RemoteWait 10 None false) (op_of (mw box_blocked) x)
    (Wait true (Some interrupt_remote)) (Link None None).
Proof.
  intros Hn [->| ->]; vm_compute in Hn; injection Hn as <-; constructor; try by_check;
    eexists _, (Link None None); split_and!; try by_check; vm_compute; set_solver.
Qed.

Lemma mailbox_send_spec_witness :
  runs (mailbox_await_suspend 74 174) box_blocked (λ res s', ∃ g' gq' m',
    let '(susp, rx, st') := fifo_send (live_in box_blocked) 74 23 box_state in
    res = susp ∧ boxes s' !! 80 = Some m' ∧ MInv s' g' gq' ∧ MAbs s' gq' m' st' ∧
    (if susp then op_active <$> w_ops (mw s') !! 74 = Some true
     else w_ops (mw s') !! 74 = Some (if f_closed box_state then set_op_error (Some broken_pipe) (op_of (mw box_blocked) 74)
                                      else op_of (mw box_blocked) 74)) ∧
    match rx with
    | Some y => mn_value <$> mnodes s' !! y = Some (Some 23)
    | None => mnodes s' = mnodes box_blocked
    end).
Proof.
  apply (mailbox_send_spec box_blocked (ghost_of box_lists) (lists_of box_queues) 80 box_80 box_state 74
    (MNode 80 (Some 23) true) (RemoteWait 10 None false) (op_of (mw box_blocked) 74) (Wait true (Some interrupt_remote))
    (Link None None) (loop_of (mw box_blocked) 0) 174 23); try by_check.
  - apply box_inv.
  - apply box_abs.
  - apply box_wf.
  - apply box_fresh; [by_check|by right].
Defined.

Lemma mailbox_recv_spec_witness :
  runs (mailbox_await_suspend 73 173) box_blocked (λ res s', ∃ g' gq' m',
    let '(v, susp, st') := fifo_recv (live_in box_blocked) 73 box_state in
    res = susp ∧ boxes s' !! 80 = Some m' ∧ MInv s' g' gq' ∧ MAbs s' gq' m' st' ∧
    (if susp then op_active <$> w_ops (mw s') !! 73 = Some true
     else w_ops (mw s') !! 73 = Some (op_of (mw box_blocked) 73) ∧
          mn_value <$> mnodes s' !! 73 = Some (match v with Some v => Some v | None => mn_value (MNode 80 (None : option nat) false) end))).
Proof.
  apply (mailbox_recv_spec box_blocked (ghost_of box_lists) (lists_of box_queues) 80 box_80 box_state 73
    (MNode 80 None false) (RemoteWait 10 None false) (op_of (mw box_blocked) 73) (Wait true (Some interrupt_remote))
    (Link None None) (loop_of (mw box_blocked) 0) 173); try by_check.
  - apply box_inv.
  - apply box_abs.
  - apply box_wf.
  - apply box_fresh; [by_check|by left].
Defined.

Lemma mailbox_close_spec_witness :
  runs (mailbox_close 80) box_blocked (λ _ s',
    MInv s' (g_delivers (mw box_blocked) (lists_of box_queues (mb_queue box_80)) (ghost_of box_lists))
      (upd_at (mb_queue box_80) (λ _, []) (lists_of box_queues)) ∧
    MAbs s' (upd_at (mb_queue box_80) (λ _, []) (lists_of box_queues)) (set_mb_closed true box_80) (fifo_close box_state) ∧
    boxes s' = <[80 := set_mb_closed true box_80]> (boxes box_blocked) ∧
    released ∅ (mw box_blocked) (mw s') (ghost_of box_lists) (lists_of box_queues) (mb_queue box_80) (close_error box_blocked)
      (lists_of box_queues (mb_queue box_80)) []).
Proof.
  apply (mailbox_close_spec box_blocked (ghost_of box_lists) (lists_of box_queues) 80 box_80 box_state); try by_check.
  - apply box_inv.
  - apply box_abs.
  - apply box_wf.
Defined.
