(* ===== verification/Provided.v ===== *)
(** * Provided buffer rings (include/snowy/uring.hpp, src/uring_net.cpp)

    A table of receive buffers shared with the kernel.  The kernel picks buffers in the
    order they were published; user code holds them as leases and returns them in any
    order.  [pv_ring] is the kernel's side: the published buffers it has not picked. *)
From S2P Require Import Prelude.

(** [IORING_CQE_BUFFER_SHIFT]; bit 0 is [IORING_CQE_F_BUFFER]. *)
Definition buffer_shift : Z := 16.
Definition int_max : Z := 2 ^ 31 - 1.

(** [class provided] *)
Record provided := Provided {
  pv_here : bool;           (** the caller runs on the owner thread *)
  pv_count : nat;           (** count_ *)
  pv_size : Z;              (** size_ *)
  pv_leases : nat;          (** leases_ *)
  pv_active : nat;          (** active_ *)
  pv_held : list bool;      (** held_ *)
  pv_next : list nat;       (** next_ *)
  pv_tail : nat;            (** tail_ *)
  pv_returned : bool;       (** the event returned_ is set *)
  pv_ring : list nat        (** what io_uring_buf_ring_add has published *)
}.
(** [class provided::chunk]: owner, slot and the bytes of the table it covers *)
Record chunk := Chunk { ck_owned : bool; ck_id : nat; ck_offset : Z; ck_bytes : Z }.
Implicit Types (p : provided) (id : nat) (c : chunk).
Local Abbreviation M := (M provided).

(** ** Operations *)
Definition has_single_bit (n : Z) : bool := bool_decide (0 < n)%Z && bool_decide (n = 2 ^ Z.log2 n)%Z.
(** [std::size_t capacity(unsigned count, unsigned size)] *)
Definition capacity (count size : Z) : option Z :=
  if bool_decide (count = 0)%Z || bool_decide (32768 < count)%Z || negb (has_single_bit count) ||
     bool_decide (size = 0)%Z || bool_decide (int_max < size)%Z || bool_decide ((2 ^ 64 - 1) / count < size)%Z
  then None else Some (count * size)%Z.

(** [provided::provided]; [registered] is the result of [io_uring_register_buf_ring] *)
Definition provided_new (here : bool) (entries size registered : Z) : option exn + provided :=
  match capacity entries size with
  | None => inl (Some (invalid_argument "invalid provided buffers"))
  | Some _ =>
      if negb here then inl (Some (logic_error "wrong loop thread"))
      else if bool_decide (registered < 0)%Z then inl (Some (system_error (native_error (- registered))))
      else
        let n := Z.to_nat entries in
        inr (Provided here n size 0 0 (replicate n false)
               ((λ i, S i mod n) <$> seq 0 n) (n - 1) false (seq 0 n))
  end.
(** [provided::~provided()] *)
Definition provided_destroy p (unregistered : Z) : bool :=
  negb (bool_decide (pv_active p ≠ 0) || bool_decide (pv_leases p ≠ 0) || bool_decide (unregistered < 0)%Z).

Definition check_here : M unit :=
  b ← gets pv_here; if b : bool then mret tt else throw (logic_error "wrong loop thread").

(** [provided::chunk provided::take(unsigned flags, unsigned size)] *)
Definition provided_take (flags size : Z) : M chunk :=
  check_here ;;
  p ← get;
  let id := Z.to_nat (Z.shiftr flags buffer_shift) in
  if negb (Z.testbit flags 0) || bool_decide (pv_count p ≤ id) || default true (pv_held p !! id) || bool_decide (pv_size p < size)%Z
  then throw (runtime_error "invalid provided buffer completion")
  else
    modify (λ p, Provided (pv_here p) (pv_count p) (pv_size p) (S (pv_leases p)) (pv_active p) (<[id := true]> (pv_held p))
                   (pv_next p) (pv_tail p) (pv_returned p) (pv_ring p)) ;;
    mret (Chunk true id (Z.of_nat id * pv_size p) size).

(** [void provided::put(unsigned id) noexcept] *)
Definition provided_put id : M unit :=
  nothrow (
    check_here ;;
    p ← get;
    if bool_decide (id < length (pv_held p)) && bool_decide (pv_tail p < length (pv_next p)) then
      modify (λ p, Provided (pv_here p) (pv_count p) (pv_size p) (pred (pv_leases p)) (pv_active p) (<[id := false]> (pv_held p))
                     (<[pv_tail p := id]> (pv_next p)) id true (pv_ring p ++ [id]))
    else undefined).

(** [chunk(chunk&&)], [operator=(chunk&&)], [release] and [~chunk] *)
Definition chunk_move (other : chunk) : chunk * chunk :=
  (other, Chunk false (ck_id other) (ck_offset other) (ck_bytes other)).
Definition chunk_release c : M chunk :=
  (if ck_owned c then provided_put (ck_id c) else mret tt) ;;
  mret (Chunk false (ck_id c) (ck_offset c) (ck_bytes c)).
Definition chunk_assign (same : bool) (this other : chunk) : M (chunk * chunk) :=
  if same then mret (this, other) else
    _ ← chunk_release this;
    mret (chunk_move other).

(** The user's code destroys the chunk of a buffer, if it still owns one *)
Definition lease_release id : M unit :=
  p ← get; when (default false (pv_held p !! id)) (provided_put id).
(** What a consumer does with a chunk, given the chunks it has seen: destroy some of the
    chunks it owns, keep or drop this one, and return normally or throw. *)
Record decision := Decision { d_release : list nat; d_keep : bool; d_throw : option exn }.
Definition consumer := list chunk → chunk → decision.
Definition parts (size bufsize : Z) : Z := if bool_decide (size = 0)%Z then 1 else (size - 1) / bufsize + 1.
(** [std::invoke(fn, std::move(value))] behind the exception barrier, with the chunks seen
    so far; an exception destroys the chunk it was given *)
Definition invoke (fn : consumer) c (failure : option exn) (log : list chunk) : M (option exn * list chunk) :=
  match failure with
  | Some _ => provided_put (ck_id c) ;; mret (failure, log)
  | None =>
      let d := fn log c in
      for_each lease_release (d_release d) ;;
      when (negb (d_keep d)) (lease_release (ck_id c)) ;;
      mret (d_throw d, log ++ [c])
  end.
Definition bundle_flags (flags : Z) id : Z := Z.lor (Z.land flags 0xffff) (Z.shiftl (Z.of_nat id) buffer_shift).
(** The loop of [each]: the exception that leaves it, if any, and the chunks the consumer
    was given before *)
Fixpoint each_loop (n : nat) (fn : consumer) (flags size : Z) id (failure : option exn) (log : list chunk)
    : M (option exn * list chunk) :=
  match n with
  | O => mret (failure, log)
  | S n' =>
      p ← get;
      if bool_decide (pv_count p ≤ id) then mret (Some (runtime_error "invalid receive bundle ID"), log) else
        next ← deref (λ p, pv_next p !! id);
        let bytes := Z.min size (pv_size p) in
        taken ← try_catch (value ← provided_take (bundle_flags flags id) bytes; mret (inr value)) (λ e, mret (inl e));
        match taken with
        | inl e => mret (Some e, log)
        | inr value =>
            '(failure', log') ← invoke fn value failure log;
            each_loop n' fn flags (size - bytes) next failure' log'
        end
  end.
(** [template <typename F> void each(unsigned flags, unsigned size, F fn)], with the
    exception that leaves it as a value, and as the function that throws it *)
Definition each_all (flags size : Z) (fn : consumer) : M (option exn * list chunk) :=
  p ← get;
  let n := parts size (pv_size p) in
  if bool_decide (Z.of_nat (pv_count p) < n)%Z then mret (Some (runtime_error "invalid receive bundle size"), []) else
    each_loop (Z.to_nat n) fn flags size (Z.to_nat (Z.shiftr flags buffer_shift)) None [].
Definition provided_each (flags size : Z) (fn : consumer) : M (list chunk) :=
  '(failure, log) ← each_all flags size fn;
  match failure with Some e => throw e | None => mret log end.

(** [task<> provided::available]: whether it suspends, resetting the event *)
Definition available p : option provided :=
  if bool_decide (pv_leases p = pv_count p)
  then Some (Provided (pv_here p) (pv_count p) (pv_size p) (pv_leases p) (pv_active p) (pv_held p) (pv_next p) (pv_tail p) false (pv_ring p))
  else None.

(** ** Invariant *)

(** Consecutive buffers of a list are linked by [next]. *)
Fixpoint chain (next : list nat) (ids : list nat) : Prop :=
  match ids with
  | x :: (y :: _) as ids' => next !! x = Some y ∧ chain next ids'
  | _ => True
  end.
(** [held]: the leases; [picked]: chosen by the kernel and not yet taken, in order. *)
Record PInv p (held picked : list nat) : Prop := {
  pi_here : pv_here p = true;
  pi_size : (0 < pv_size p)%Z;
  pi_len : length (pv_held p) = pv_count p ∧ length (pv_next p) = pv_count p ∧ pv_tail p < pv_count p;
  pi_all : held ++ picked ++ pv_ring p ≡ₚ seq 0 (pv_count p);
  pi_held : ∀ id, pv_held p !! id = Some true ↔ id ∈ held;
  pi_leases : pv_leases p = length held;
  pi_chain : chain (pv_next p) (picked ++ pv_ring p);
  pi_tail : last (picked ++ pv_ring p) = Some (pv_tail p) ∨ picked ++ pv_ring p = [] }.

Lemma chain_app next xs y : chain next xs → (∀ x, last xs = Some x → next !! x = Some y) → chain next (xs ++ [y]).
Proof.
  induction xs as [|a [|b xs] IH]; intros Hc Hl; [done| |].
  - split; [by apply Hl|done].
  - destruct Hc as [? Hc]. split; [done|]. by apply IH.
Qed.
Lemma chain_insert next xs t y :
  chain next xs → NoDup xs → (last xs = Some t ∨ xs = []) → chain (<[t := y]> next) xs.
Proof.
  induction xs as [|a [|b xs] IH]; intros Hc Hnd Ht; [done..|]. destruct Hc as [Hab Hc]. apply NoDup_cons in Hnd as [Ha Hnd].
  destruct Ht as [Ht|]; [|done]. split; [|by apply IH; auto].
  rewrite list_lookup_insert_ne; [done|]. intros ->. apply Ha. change (last (b :: xs) = Some a) in Ht. by apply last_elem_of in Ht.
Qed.
Lemma chain_tail next x xs : chain next (x :: xs) → chain next xs.
Proof. by destruct xs; [|intros []]. Qed.

Lemma PInv_lt p held picked id : PInv p held picked → id ∈ held ++ picked ++ pv_ring p → id < pv_count p.
Proof. intros I Hid. rewrite (pi_all _ _ _ I) in Hid. apply elem_of_seq in Hid. lia. Qed.
Lemma PInv_NoDup p held picked : PInv p held picked → NoDup (held ++ picked ++ pv_ring p).
Proof. intros I. rewrite (pi_all _ _ _ I). apply NoDup_seq. Qed.

(** The kernel picks the oldest published buffers. *)
Definition pick (n : nat) p : provided :=
  Provided (pv_here p) (pv_count p) (pv_size p) (pv_leases p) (pv_active p) (pv_held p) (pv_next p) (pv_tail p)
    (pv_returned p) (drop n (pv_ring p)).
Lemma pick_inv n p held picked : PInv p held picked → PInv (pick n p) held (picked ++ take n (pv_ring p)).
Proof. intros [H1 H2 H3 H4 H5 H6 H7 H8]. split; simpl in *; rewrite <- ?app_assoc, ?take_drop; done. Qed.

(** The dimensions and the pins of the table stay. *)
Definition steady p p' : Prop := pv_count p' = pv_count p ∧ pv_size p' = pv_size p ∧ pv_active p' = pv_active p.
#[global] Instance steady_preorder : PreOrder steady.
Proof. split; [done|]. unfold steady. intros p1 p2 p3 (?&?&?) (?&?&?). split_and!; congruence. Qed.

(** Returning a lease, in any order, publishes it behind the others. *)
Lemma put_spec p held picked id :
  PInv p held picked → id ∈ held →
  runs (provided_put id) p (λ _ p', ∃ held', held ≡ₚ id :: held' ∧ PInv p' held' picked ∧
    pv_ring p' = pv_ring p ++ [id] ∧ steady p p' ∧ pv_returned p' = true).
Proof.
  intros I Hid. pose proof I as [H1 H2 (H3a&H3b&H3c) H4 H5 H6 H7 H8].
  assert (id < pv_count p) as Hlt by (eapply PInv_lt; [done|]; apply elem_of_app; by left).
  pose proof (PInv_NoDup _ _ _ I) as Hnd. pose proof Hnd as (Hndh&Hdis&Hndr)%NoDup_app.
  apply elem_of_Permutation in Hid as [held' Hp].
  unfold provided_put. apply post_nothrow. unfold post, check_here, mbind, M_bind, gets, get. simpl. rewrite H1. simpl.
  rewrite bool_decide_true, bool_decide_true by lia. simpl. exists held'. split_and!; try done.
  assert (id ∉ held' ∧ id ∉ picked ++ pv_ring p) as [Hi1 Hi2].
  { rewrite Hp in Hndh. apply NoDup_cons in Hndh as [? _]. split; [done|]. apply Hdis. rewrite Hp. by left. }
  split; simpl; try done.
  - by rewrite !length_insert.
  - rewrite <- H4, Hp. rewrite !app_assoc, (Permutation_app_comm _ [id]). done.
  - intros x. destruct (decide (x = id)) as [->|Hx].
    + rewrite list_lookup_insert_eq by lia. naive_solver.
    + rewrite list_lookup_insert_ne by done. rewrite H5, Hp, elem_of_cons. naive_solver.
  - rewrite H6, Hp. done.
  - rewrite app_assoc. apply chain_app; [by apply chain_insert|]. intros x Hx. destruct H8 as [H8|H8]; [|by rewrite H8 in Hx].
    rewrite Hx in H8. simplify_eq. apply list_lookup_insert_eq. lia.
  - left. by rewrite app_assoc, last_snoc.
Qed.

(** Taking the buffer the kernel picked first. *)
Lemma take_inv p held id picked flags size :
  PInv p held (id :: picked) → Z.testbit flags 0 = true → Z.to_nat (Z.shiftr flags buffer_shift) = id → (size ≤ pv_size p)%Z →
  runs (provided_take flags size) p (λ c p',
    c = Chunk true id (Z.of_nat id * pv_size p) size ∧ PInv p' (id :: held) picked ∧
    pv_ring p' = pv_ring p ∧ steady p p').
Proof.
  intros I Hb Hs Hsz. pose proof I as [H1 H2 (H3a&H3b&H3c) H4 H5 H6 H7 H8]. 
  assert (id < pv_count p) as Hlt by (eapply PInv_lt; [done|]; apply elem_of_app; right; by left).
  pose proof (PInv_NoDup _ _ _ I) as Hnd. simpl in Hnd. rewrite <- Permutation_middle in Hnd. apply NoDup_cons in Hnd as [Hni Hnd].
  assert (pv_held p !! id = Some false) as Hh.
  { destruct (lookup_lt_is_Some_2 (pv_held p) id) as [[] Hx]; [lia| |done]. apply H5 in Hx. destruct Hni. apply elem_of_app. by left. }
  unfold provided_take, post, check_here, mbind, M_bind, gets, get. cbv beta iota. rewrite H1. unfold mret, M_ret. cbv beta iota zeta.
  rewrite Hs, Hb, Hh, !bool_decide_false by lia. simpl. split_and!; try done. split; simpl; try done.
  - by rewrite length_insert.
  - rewrite <- H4. simpl. by rewrite Permutation_middle.
  - intros x. rewrite elem_of_cons. destruct (decide (x = id)) as [->|Hx].
    + rewrite list_lookup_insert_eq by lia. split; auto.
    + rewrite list_lookup_insert_ne by done. rewrite H5. split; [auto|]. by intros [?|?].
  - by rewrite H6.
  - simpl in H7. by eapply chain_tail.
  - simpl in H8. destruct H8 as [H8|]; [|done]. destruct (picked ++ pv_ring p) as [|y ys]; [by right|left; done].
Qed.

(** ** Bundles *)
Lemma bundle_flags_id flags id : (0 ≤ flags)%Z → Z.to_nat (Z.shiftr (bundle_flags flags id) buffer_shift) = id.
Proof.
  intros Hf. unfold bundle_flags, buffer_shift. rewrite Z.shiftr_lor, Z.shiftr_land, Z.shiftr_shiftl_l by lia.
  rewrite Z.land_0_r. simpl. rewrite Z.shiftl_0_r. apply Nat2Z.id.
Qed.
Lemma bundle_flags_bit flags id : Z.testbit (bundle_flags flags id) 0 = Z.testbit flags 0.
Proof.
  unfold bundle_flags, buffer_shift. rewrite Z.lor_spec, Z.land_spec, Z.shiftl_spec_low by lia.
  change (Z.testbit 65535 0) with true. by rewrite andb_true_r, orb_false_r.
Qed.

(** The received bytes cut into buffers, all full but the last. *)
Fixpoint cut (B size : Z) (ids : list nat) : list chunk :=
  match ids with
  | [] => []
  | id :: ids' => Chunk true id (Z.of_nat id * B) (Z.min size B) :: cut B (size - Z.min size B) ids'
  end.

(** The chunks a consumer is given: all, or those up to the one it throws at. *)
Fixpoint consumed (fn : consumer) (failure : option exn) (log : list chunk) (cs : list chunk) : option exn * list chunk :=
  match cs with
  | [] => (failure, log)
  | c :: cs' => match failure with Some _ => (failure, log) | None => consumed fn (d_throw (fn log c)) (log ++ [c]) cs' end
  end.
Lemma consumed_failed fn e log cs : consumed fn (Some e) log cs = (Some e, log).
Proof. by destruct cs. Qed.
Lemma consumed_all fn cs : ∀ log, (consumed fn None log cs).1 = None → (consumed fn None log cs).2 = log ++ cs.
Proof.
  induction cs as [|c cs IH]; intros log; simpl; [by rewrite app_nil_r|].
  destruct (d_throw (fn log c)); [by rewrite consumed_failed|]. intros H. rewrite (IH _ H). by rewrite <- app_assoc.
Qed.

Lemma PInv_perm p held held' picked : held ≡ₚ held' → PInv p held picked → PInv p held' picked.
Proof. intros E [H1 H2 H3 H4 H5 H6 H7 H8]. split; try done; [by rewrite <- E|intros id; by rewrite H5, E|by rewrite H6, E]. Qed.

(** ** Leases and published buffers as two lists

    The reference for what the users' code does to the table: destroying a chunk puts its
    buffer behind the published ones, and nothing happens if it owns none. *)
Record table := Table { t_held : list nat; t_ring : list nat }.
Implicit Types T : table.
Definition t_take id T : table := Table (id :: t_held T) (t_ring T).
Definition t_return id T : table :=
  if bool_decide (id ∈ t_held T) then Table (filter (λ x, x ≠ id) (t_held T)) (t_ring T ++ [id]) else T.
Definition t_returns (ids : list nat) T : table := foldl (λ T id, t_return id T) T ids.
Definition settle_chunk (d : decision) id T : table :=
  let T := t_returns (d_release d) T in if d_keep d then T else t_return id T.
Definition TInv p T (picked : list nat) : Prop := PInv p (t_held T) picked ∧ pv_ring p = t_ring T.
(** After the chunks of a bundle, each taken and given or put back. *)
Fixpoint settle_chunks (fn : consumer) (failure : option exn) (log : list chunk) T (cs : list chunk) : table :=
  match cs with
  | [] => T
  | c :: cs' =>
      let T := t_take (ck_id c) T in
      match failure with
      | Some _ => settle_chunks fn failure log (t_return (ck_id c) T) cs'
      | None => settle_chunks fn (d_throw (fn log c)) (log ++ [c]) (settle_chunk (fn log c) (ck_id c) T) cs'
      end
  end.

Lemma PInv_held_NoDup p held picked : PInv p held picked → NoDup held.
Proof. intros I. by apply PInv_NoDup, NoDup_app in I as [? _]. Qed.
Lemma filter_ne_fresh id (l : list nat) : id ∉ l → filter (λ x, x ≠ id) l = l.
Proof.
  induction l as [|x l IH]; [done|]. intros [Hx Hl]%not_elem_of_cons. rewrite filter_cons_True by done. by rewrite IH.
Qed.
Lemma t_return_take id T : id ∉ t_held T → t_return id (t_take id T) = Table (t_held T) (t_ring T ++ [id]).
Proof.
  intros Hid. unfold t_return. rewrite bool_decide_true by (by left). simpl. rewrite filter_cons_False by tauto.
  by rewrite filter_ne_fresh.
Qed.

Lemma put_returns p T picked id :
  TInv p T picked → id ∈ t_held T → runs (provided_put id) p (λ _ p', TInv p' (t_return id T) picked ∧ steady p p').
Proof.
  intros [I Hr] Hid. eapply post_mono; [by apply (put_spec _ _ _ id I)| |done].
  intros [] p' (held'&Hp&I'&Hr'&Hs&_). split; [|done]. unfold TInv, t_return. rewrite bool_decide_true by done. simpl.
  split; [|by rewrite Hr', Hr]. eapply PInv_perm; [|exact I'].
  pose proof (PInv_held_NoDup _ _ _ I) as Hnd. rewrite Hp in Hnd. apply NoDup_cons in Hnd as [Hn _].
  rewrite Hp. rewrite filter_cons_False by tauto. by rewrite filter_ne_fresh.
Qed.
Lemma lease_release_spec p T picked id :
  TInv p T picked → runs (lease_release id) p (λ _ p', TInv p' (t_return id T) picked ∧ steady p p').
Proof.
  intros I. pose proof (proj1 I) as I1. apply post_bind. unfold post at 1, get. apply post_when; intros Hh.
  - apply put_returns; [done|]. apply (pi_held _ _ _ I1). by destruct (pv_held p !! id) as [[]|].
  - unfold t_return. rewrite bool_decide_false; [done|]. intros Hid%(pi_held _ _ _ I1). by rewrite Hid in Hh.
Qed.
Lemma releases_spec ids : ∀ p T picked,
  TInv p T picked → runs (for_each lease_release ids) p (λ _ p', TInv p' (t_returns ids T) picked ∧ steady p p').
Proof.
  induction ids as [|id ids IH]; intros p T picked I; [by apply post_ret|]. apply post_bind.
  eapply post_mono; [by apply (lease_release_spec _ _ _ id I)| |done]. intros [] p1 [I1 S1].
  eapply post_mono; [apply (IH p1 _ _ I1)| |done]. intros [] p2 [I2 S2]. split; [done|by etrans].
Qed.
Lemma take_table p T id picked flags size :
  TInv p T (id :: picked) → Z.testbit flags 0 = true → Z.to_nat (Z.shiftr flags buffer_shift) = id → (size ≤ pv_size p)%Z →
  runs (provided_take flags size) p (λ c p',
    c = Chunk true id (Z.of_nat id * pv_size p) size ∧ TInv p' (t_take id T) picked ∧ steady p p').
Proof.
  intros [I Hr] Hb Hid Hs. eapply post_mono; [by apply (take_inv p _ id picked flags size I)| |done].
  intros c p' (->&I'&Hr'&Hst). split_and!; [done| |done]. split; [done|]. by rewrite Hr'.
Qed.

Lemma invoke_spec fn p T picked c failure log :
  TInv p T picked → ck_id c ∈ t_held T →
  runs (invoke fn c failure log) p (λ r p', steady p p' ∧
    match failure with
    | Some _ => r = (failure, log) ∧ TInv p' (t_return (ck_id c) T) picked
    | None => r = (d_throw (fn log c), log ++ [c]) ∧ TInv p' (settle_chunk (fn log c) (ck_id c) T) picked
    end).
Proof.
  intros I Hid. unfold invoke. destruct failure as [e|].
  - apply post_bind. eapply post_mono; [by apply (put_returns _ _ _ (ck_id c) I)| |done]. intros [] p1 [I1 S1]. by apply post_ret.
  - set (d := fn log c). apply post_bind. eapply post_mono; [by apply (releases_spec (d_release d) _ _ _ I)| |done].
    intros [] p1 [I1 S1]. apply post_bind. unfold settle_chunk. apply post_when; intros Hk.
    + eapply post_mono; [by apply (lease_release_spec _ _ _ (ck_id c) I1)| |done]. intros [] p2 [I2 S2]. apply post_ret.
      apply negb_true_iff in Hk. rewrite Hk. split_and!; [by etrans|done|done].
    + apply negb_false_iff in Hk. rewrite Hk. by apply post_ret.
Qed.

Lemma each_loop_spec fn flags rest ids : ∀ p T size failure log id,
  (0 ≤ flags)%Z → Z.testbit flags 0 = true → TInv p T (ids ++ rest) → (ids = [] ∨ head ids = Some id) →
  runs (each_loop (length ids) fn flags size id failure log) p (λ r p',
    TInv p' (settle_chunks fn failure log T (cut (pv_size p) size ids)) rest ∧ steady p p' ∧
    r = consumed fn failure log (cut (pv_size p) size ids)).
Proof.
  induction ids as [|x ids IH]; intros p T size failure log id Hf Hb I Hid; simpl; [by apply post_ret|].
  destruct Hid as [|[= ->]]; [done|]. pose proof (proj1 I) as [_ Hpos (Hl1&Hl2&_) _ _ _ Hch _].
  assert (id < pv_count p) as Hlt by (eapply PInv_lt; [apply I|]; apply elem_of_app; right; by left).
  apply post_bind. unfold post at 1, get. rewrite bool_decide_false by lia.
  destruct (lookup_lt_is_Some_2 (pv_next p) id) as [next Hn]; [lia|].
  apply post_bind. eapply post_deref; [done|]. apply post_bind, post_try_catch, post_bind.
  eapply post_mono; [apply (take_table p T id (ids ++ rest)); [done|by rewrite bundle_flags_bit|by apply bundle_flags_id|lia]| |done].
  intros c p1 (->&I1&S1). apply post_ret, post_bind. set (b := Z.min size (pv_size p)) in *.
  set (c := Chunk true id (Z.of_nat id * pv_size p) b).
  eapply post_mono; [apply (invoke_spec fn p1 _ _ c failure log I1); by left| |done].
  intros [f' log'] p2 (S2&Hcase). assert (steady p p2) as S by (by etrans).
  assert (ids = [] ∨ head ids = Some next) as Hnext.
  { destruct ids as [|y ids]; [by left|right]. simpl in Hch. destruct Hch as [Hy _]. simpl. congruence. }
  destruct failure as [e|]; destruct Hcase as [[= -> ->] I2];
    (eapply post_mono; [apply (IH p2 _ (size - b)%Z _ _ next Hf Hb I2 Hnext)| |done]);
    intros r p3 (I3&S3&->); rewrite (proj1 (proj2 S)) in I3 |- *; (split_and!; [done|by etrans|]); by rewrite ?consumed_failed.
Qed.

Lemma cut_total B size ids :
  (0 < B)%Z → (0 ≤ size)%Z → (size ≤ B * Z.of_nat (length ids))%Z →
  foldr (λ c, Z.add (ck_bytes c)) 0%Z (cut B size ids) = size ∧ ck_id <$> cut B size ids = ids.
Proof.
  intros HB. revert size. induction ids as [|id ids IH]; intros size H0 H1; simpl in *; [split; [lia|done]|].
  destruct (IH (size - Z.min size B)%Z) as [-> E]; [lia|nia|]. split; [lia|]. by f_equal.
Qed.
Lemma parts_fit size B : (0 < B)%Z → (0 ≤ size)%Z → (0 < parts size B)%Z ∧ (size ≤ B * parts size B)%Z.
Proof.
  intros HB Hs. unfold parts. case_bool_decide; [lia|].
  pose proof (Z.div_mod (size - 1) B ltac:(lia)). pose proof (Z.mod_pos_bound (size - 1) B HB).
  assert (0 ≤ (size - 1) / B)%Z by (apply Z.div_pos; lia). nia.
Qed.

(** The whole of a bundle: which buffers the kernel has picked, and what is given. *)
Lemma each_all_spec p T id ids rest flags size fn :
  TInv p T ((id :: ids) ++ rest) → (0 ≤ flags)%Z → Z.testbit flags 0 = true →
  Z.to_nat (Z.shiftr flags buffer_shift) = id →
  parts size (pv_size p) = Z.of_nat (length (id :: ids)) →
  runs (each_all flags size fn) p (λ r p',
    TInv p' (settle_chunks fn None [] T (cut (pv_size p) size (id :: ids))) rest ∧ steady p p' ∧
    r = consumed fn None [] (cut (pv_size p) size (id :: ids))).
Proof.
  intros I Hf Hb Hid Hparts. unfold each_all. apply post_bind. unfold post at 1, get. rewrite Hparts, Hid.
  assert (length (id :: ids) ≤ pv_count p) as Hle.
  { pose proof (Permutation_length (pi_all _ _ _ (proj1 I))) as H. rewrite !length_app, length_seq in H. lia. }
  rewrite bool_decide_false by lia. rewrite Nat2Z.id.
  apply (each_loop_spec fn flags rest (id :: ids) p T size None [] id Hf Hb I). by right.
Qed.
(** A bundled completion: when the kernel has filled the buffers it picked, in publication
    order, the consumer is given exactly those buffers in that order, cut so that all but
    the last are full and together hold the received bytes, even when it returns leases
    out of order meanwhile; a consumer that throws makes the remaining buffers go back to
    the ring, and in every case no picked buffer is left behind. *)
Theorem each_spec p T id ids flags size fn :
  TInv p T (id :: ids) → (0 ≤ flags)%Z → Z.testbit flags 0 = true →
  Z.to_nat (Z.shiftr flags buffer_shift) = id → (0 ≤ size)%Z →
  parts size (pv_size p) = Z.of_nat (length (id :: ids)) →
  let cs := cut (pv_size p) size (id :: ids) in
  post (provided_each flags size fn) p
    (λ log p', TInv p' (settle_chunks fn None [] T cs) [] ∧ log = cs ∧
       ck_id <$> log = id :: ids ∧ foldr (λ c, Z.add (ck_bytes c)) 0%Z log = size)
    (λ e p', TInv p' (settle_chunks fn None [] T cs) [] ∧ (consumed fn None [] cs).1 = Some e).
Proof.
  intros I Hf Hb Hid Hsz Hparts cs. unfold provided_each. apply post_bind.
  rewrite <- (app_nil_r (id :: ids)) in I.
  eapply post_mono; [apply (each_all_spec p T id ids [] flags size fn I Hf Hb Hid Hparts)| |done].
  intros r p' (HI&_&Hr). fold cs in HI, Hr. pose proof (consumed_all fn cs []) as Hall. rewrite <- Hr in Hall |- *.
  destruct r as [[e|] log]; [by apply post_throw|]. apply post_ret. specialize (Hall eq_refl). simpl in Hall. subst log.
  pose proof (pi_size _ _ _ (proj1 I)) as Hp. pose proof (parts_fit size (pv_size p) Hp Hsz).
  destruct (cut_total (pv_size p) size (id :: ids)) as [H1 H2]; [done|done|lia|]. by split_and!.
Qed.

(** ** Construction and leases *)
Lemma capacity_spec count size n :
  (0 ≤ count)%Z → (0 ≤ size)%Z → capacity count size = Some n →
  n = (count * size)%Z ∧ (0 < count ≤ 32768)%Z ∧ (0 < size ≤ int_max)%Z ∧ (0 < n < 2 ^ 64)%Z.
Proof.
  intros Hc Hs. unfold capacity. destruct (_ || _) eqn:E; [done|]. intros [= <-].
  repeat (apply orb_false_iff in E as [E ?]). repeat match goal with H : bool_decide _ = false |- _ => apply bool_decide_eq_false in H end.
  unfold int_max in *. split_and!; try lia; nia.
Qed.

Lemma chain_seq n i k : i + k ≤ n → chain ((λ i, S i mod n) <$> seq 0 n) (seq i k).
Proof.
  revert i. induction k as [|[|k] IH]; intros i Hi; [done..|]. change (seq i (S (S k))) with (i :: seq (S i) (S k)).
  split; [|apply (IH (S i)); lia]. rewrite list_lookup_fmap, lookup_seq_lt by lia. simpl.
  change (Some (S i mod n) = Some (S i)). by rewrite Nat.mod_small by lia.
Qed.

(** A buffer ring is built only for dimensions whose table fits the address space; then all
    buffers are published once, in order, and none is leased. *)
Theorem provided_new_spec here entries size registered p :
  (0 ≤ entries)%Z → (0 ≤ size)%Z → provided_new here entries size registered = inr p →
  PInv p [] [] ∧ pv_ring p = seq 0 (Z.to_nat entries) ∧ pv_size p = size ∧ (0 < entries * size < 2 ^ 64)%Z ∧ here = true ∧ (0 ≤ registered)%Z.
Proof.
  intros He Hs. unfold provided_new. destruct (capacity entries size) as [n|] eqn:Hc; [|done].
  destruct here; simpl; [|done]. case_bool_decide as Hr; [done|]. intros [= <-].
  destruct (capacity_spec _ _ _ He Hs Hc) as (->&[]&[]&?). split_and!; try done; try lia.
  set (k := Z.to_nat entries). assert (0 < k) by lia. split; simpl; try done.
  - rewrite length_replicate, length_fmap, length_seq. split_and!; [done..|lia].
  - intros id. rewrite lookup_replicate. split; [naive_solver|]. by intros ?%not_elem_of_nil.
  - by apply (chain_seq k 0 k).
  - left. destruct k as [|k]; [lia|]. rewrite seq_S, last_snoc. f_equal. lia.
Qed.

(** A lease is exclusive and in bounds: [take] either refuses the completion and changes
    nothing, or hands out a buffer that nobody holds, whose bytes lie in its own slot of
    the table. *)
Theorem provided_take_spec p held picked flags size :
  PInv p held picked →
  post (provided_take flags size) p
    (λ c p', ck_id c = Z.to_nat (Z.shiftr flags buffer_shift) ∧ ck_id c ∉ held ∧ ck_id c < pv_count p ∧
       ck_offset c = (Z.of_nat (ck_id c) * pv_size p)%Z ∧ ck_bytes c = size ∧
       (ck_offset c + ck_bytes c ≤ Z.of_nat (ck_id c + 1) * pv_size p)%Z ∧
       pv_leases p' = S (pv_leases p) ∧ pv_held p' !! ck_id c = Some true)
    (λ e p', e = runtime_error "invalid provided buffer completion" ∧ p' = p).
Proof.
  intros I. pose proof I as [H1 H2 (H3a&H3b&H3c) H4 H5 H6 H7 H8].
  unfold provided_take, post, check_here, mbind, M_bind, gets, get. cbv beta iota. rewrite H1. unfold mret, M_ret. cbv beta iota zeta.
  set (id := Z.to_nat _). destruct (_ || _) eqn:E; [done|].
  apply orb_false_iff in E as [[[_ E2]%orb_false_iff E3]%orb_false_iff E4].
  apply bool_decide_eq_false in E2, E4. destruct (pv_held p !! id) as [[]|] eqn:Hh; [done| |done]. simpl.
  split_and!; try done; try lia.
  - intros ?%H5. congruence.
  - apply list_lookup_insert_eq. lia.
Qed.
