(* ===== verification/Uring.v ===== *)
(** * The io_uring backend (src/uring.cpp)

    The driver of a loop on Linux: acquiring submission slots, submission and
    cancellation of requests, and the dispatch of completions.  liburing and the
    kernel behind it are the interface [Liburing]; what the sources rely on is
    [LiburingOk]. *)
From S2P Require Import Prelude ReadyQueue Links Heap Core Loop LoopInv LoopSpec Event Io.

(** ** Constants of the Linux interface *)
Definition EINTR : Z := 4.
Definition EAGAIN : Z := 11.
Definition EINVAL : Z := 22.
Definition ETIME : Z := 62.
Definition IOSQE_IO_DRAIN : Z := 1.       (** bit numbers *)
Definition IOSQE_FIXED_FILE : Z := 0.
Definition CQE_F_MORE : Z := 1.
Definition CQE_F_NOTIF : Z := 3.
Definition MSG_NOSIGNAL : Z := 0x4000.
Definition MSG_TRUNC : Z := 5.            (** bit number *)
Definition SOCK_CLOEXEC : Z := 0x80000.
Definition POLLIN : Z := 1.
Definition setup_iopoll : Z := 2 ^ 0.
Definition setup_sqpoll : Z := 2 ^ 1.
Definition setup_sq_aff : Z := 2 ^ 2.
Definition setup_cqsize : Z := 2 ^ 3.
Definition setup_attach_wq : Z := 2 ^ 5.
Definition setup_submit_all : Z := 2 ^ 7.
Definition setup_coop_taskrun : Z := 2 ^ 8.
Definition setup_taskrun_flag : Z := 2 ^ 9.
Definition setup_single_issuer : Z := 2 ^ 12.
Definition setup_defer_taskrun : Z := 2 ^ 13.

(** [std::error_code{n, std::generic_category()}]: the codes with a portable name
    compare equal to it. *)
Definition generic_error (n : Z) : errc :=
  if bool_decide (n = 125)%Z then operation_canceled
  else if bool_decide (n = 32)%Z then broken_pipe
  else if bool_decide (n = 90)%Z then message_size
  else if bool_decide (n = 110)%Z then timed_out
  else if bool_decide (n = 5)%Z then io_error
  else if bool_decide (n = 95)%Z then operation_not_supported
  else native_error n.

(** A request's address is even and not null, so bit 0 of [user_data] is free. *)
Definition io_addr (x : loc) : Z := 2 * Z.of_nat x + 2.
Definition io_at (tag : Z) : loc := Z.to_nat (Z.shiftr tag 1 - 1).

(** A completion, with what the kernel has written to the message header of a datagram. *)
Record cqe := Cqe { cqe_data : Z; cqe_res : Z; cqe_flags : Z; cqe_namelen : Z; cqe_msg_flags : Z }.

(** ** liburing *)
Class Liburing (K : Type) := {
  spin : nat;  (** how often a call that makes no progress is retried *)
  sq_ready : K → nat;
  sq_space_left : K → nat;
  sq_entries : K → nat;
  get_sqe : K → option K;           (** the ring with a slot taken *)
  fill_sqe : sqe → K → K;           (** the slot just taken is written *)
  ring_submit : K → Z * K;
  ring_wait : option Z → K → Z * K; (** submit_and_wait_timeout *)
  ring_events : K → Z * K;          (** get_events *)
  event_poll : option Z → K → Z;    (** ppoll on the event descriptor, negative errno *)
  event_read : K → Z * K;           (** read of the event descriptor, negative errno *)
  event_write : K → Z * K;
  peek_batch : nat → K → list cqe;
  cq_advance : nat → K → K }.

(** [struct loop::driver] *)
Record driver (K : Type) := Driver_ {
  d_ring : K;
  d_event : Z;
  d_iopoll : bool;
  d_registered : bool;
  d_submit_batch : nat;
  d_watching : bool;
  d_watch_waking : bool;
  d_drains : nat }.
Arguments Driver_ {K}.
Arguments d_ring {K}.
Arguments d_event {K}.
Arguments d_iopoll {K}.
Arguments d_registered {K}.
Arguments d_submit_batch {K}.
Arguments d_watching {K}.
Arguments d_watch_waking {K}.
Arguments d_drains {K}.

Section uring.
Context {K : Type} `{!Liburing K}.
Implicit Types (k : K) (d : driver K) (x : loc) (L : loopid) (w : world (driver K)).
Local Abbreviation M := (M (world (driver K))).

Definition set_ring k d : driver K :=
  Driver_ k (d_event d) (d_iopoll d) (d_registered d) (d_submit_batch d) (d_watching d) (d_watch_waking d) (d_drains d).
Definition set_watch (watching waking : bool) d : driver K :=
  Driver_ (d_ring d) (d_event d) (d_iopoll d) (d_registered d) (d_submit_batch d) watching waking (d_drains d).
Definition set_drains (n : nat) d : driver K :=
  Driver_ (d_ring d) (d_event d) (d_iopoll d) (d_registered d) (d_submit_batch d) (d_watching d) (d_watch_waking d) n.
Definition set_registered (b : bool) d : driver K :=
  Driver_ (d_ring d) (d_event d) (d_iopoll d) b (d_submit_batch d) (d_watching d) (d_watch_waking d) (d_drains d).
Definition set_event (e : Z) d : driver K :=
  Driver_ (d_ring d) e (d_iopoll d) (d_registered d) (d_submit_batch d) (d_watching d) (d_watch_waking d) (d_drains d).

(** A call into liburing that updates the ring. *)
Definition ring_call (f : K → Z * K) : Prelude.M (driver K) Z := λ d,
  let '(n, k) := f (d_ring d) in Ret n (set_ring k d).
(** [if (n < 0 && n != -EINTR) throw std::system_error(-n, ...)] *)
Definition check_submit (n : Z) : Prelude.M (driver K) unit :=
  if bool_decide (n < 0)%Z && negb (bool_decide (n = - EINTR)%Z) then throw (system_error (generic_error (- n))) else mret tt.

(** [io_uring_sqe* driver::sqe(bool flush)] *)
Fixpoint acquire (fuel : nat) : Prelude.M (driver K) unit :=
  d ← get;
  match get_sqe (d_ring d), fuel with
  | Some k, _ => modify (set_ring k)
  | None, O => undefined
  | None, S fuel' =>
      n ← ring_call ring_submit;
      check_submit n ;;
      acquire fuel'
  end.
Definition driver_sqe (flush : bool) : Prelude.M (driver K) unit :=
  d ← get;
  when (flush && negb (bool_decide (d_submit_batch d = 0)) && bool_decide (d_submit_batch d ≤ sq_ready (d_ring d)))
    (n ← ring_call ring_submit; check_submit n) ;;
  acquire spin.
Definition write_sqe (e : sqe) : Prelude.M (driver K) unit := modify (λ d, set_ring (fill_sqe e (d_ring d)) d).
(** [void driver::watch()] *)
Definition driver_watch : Prelude.M (driver K) unit :=
  driver_sqe true ;;
  d ← get;
  write_sqe (set_sqe_data 0 (prepared (prep_poll_add (d_event d) POLLIN))) ;;
  modify (λ d, set_watch true (d_watch_waking d) d).

(** An action on the driver of a loop. *)
Definition on_driver {A} L (c : Prelude.M (driver K) A) : M A :=
  zoom (λ w, l_driver <$> w_loops w !! L)
       (λ d w, set_w_loops (alter (set_l_driver d) L (w_loops w)) w) c.

(** ** Submission *)

(** [void uring::access::reserve(loop& loop, unsigned count, bool drain)] *)
Fixpoint make_room (fuel count : nat) : Prelude.M (driver K) unit :=
  d ← get;
  if bool_decide (count ≤ sq_space_left (d_ring d)) then mret tt else
    match fuel with
    | O => undefined
    | S fuel' => n ← ring_call ring_submit; check_submit n ;; make_room fuel' count
    end.
Definition reserve L (count : nat) (drain : bool) : M unit :=
  check L ;;
  d ← on_driver L get;
  if bool_decide (sq_entries (d_ring d) < count) then throw (invalid_argument "batch exceeds ring capacity") else
    on_driver L (make_room spin count) ;;
    d ← on_driver L get;
    when (drain && d_watching d && negb (d_watch_waking d))
      (wake L ;; on_driver L (modify (λ d, set_watch (d_watching d) true d))).

(** The [switch] of [loop::submit]: the entry for a request *)
Definition encode (i : io) (native : sqe) : sqe :=
  match io_code i with
  | op_native => native
  | op_nop => prepared prep_nop
  | op_file_read => prepared (prep_read (io_fd i) (io_data i) (io_size i) (io_offset i))
  | op_file_write => prepared (prep_write (io_fd i) (io_data i) (io_size i) (io_offset i))
  | op_file_sync => prepared (prep_fsync (io_fd i) 0)
  | op_read => prepared (prep_recv (io_fd i) (io_data i) (io_size i) 0)
  | op_write => prepared (prep_send (io_fd i) (io_data i) (io_size i) MSG_NOSIGNAL)
  | op_accept => prepared (prep_accept (io_fd i) SOCK_CLOEXEC)
  | op_connect => prepared (prep_connect (io_fd i) (io_address i) (io_address_size i))
  | op_recv_from => prepared (prep_recvmsg (io_fd i) (io_data i) (io_size i) (io_address i) (io_address_size i) 0)
  | op_send_to => prepared (prep_sendmsg (io_fd i) (io_data i) (io_size i) (io_address i) (io_address_size i) MSG_NOSIGNAL)
  end.
Definition storage_only (c : opcode) : bool :=
  match c with op_file_read | op_file_write | op_native => true | _ => false end.
(** [void loop::submit(detail::io& op)] *)
Definition uring_submit L x : M unit :=
  i ← the_io x;
  d ← on_driver L get;
  if d_iopoll d && negb (storage_only (io_code i)) then throw (system_error operation_not_supported) else
    let native := default (prepared prep_nop) (io_prepare i) in
    when (Z.testbit (sqe_flags native) IOSQE_IO_DRAIN)
      (when (d_watching d && negb (d_watch_waking d)) (reserve L 1 true) ;;
       upd_io x (set_io_draining true) ;;
       on_driver L (modify (λ d, set_drains (S (d_drains d)) d))) ;;
    on_driver L (driver_sqe (bool_decide (io_retire i = None))) ;;
    on_driver L (write_sqe (set_sqe_data (io_addr x) (encode i native))).
(** [void loop::cancel(detail::io& op)] *)
Definition uring_cancel L x : M unit :=
  on_driver L (driver_sqe true) ;;
  on_driver L (write_sqe (set_sqe_data (Z.lor (io_addr x) 1) (prepared (prep_cancel (io_addr x))))) ;;
  upd_io x (set_io_canceling true) ;;
  upd_io x (set_io_cancel_sent true).
(** [void uring::access::start(detail::io& request)] *)
Definition access_start x : M unit :=
  o ← the_op x;
  upd_op x (set_op_active true) ;;
  on_ios (op_owner o) (link_front x) ;;
  uring_submit (op_owner o) x.

(** ** Completion *)

(** The user's consumer of a multishot stream, behind its exception barrier. *)
Variable consume : loc → Z → Z → M unit.

(** The handlers installed in [result], all [noexcept] *)
Definition set_outcome x (res : Z) : M unit :=
  if bool_decide (res < 0)%Z then upd_op x (set_op_error (Some (generic_error (- res)))) else upd_io x (set_io_bytes res).
Definition result_hook (r : result_fn) x (res flags : Z) : M unit :=
  nothrow (match r with
  | result_op => if Z.testbit flags CQE_F_NOTIF then mret tt else set_outcome x res
  | result_open =>
      if bool_decide (res < 0)%Z then upd_op x (set_op_error (Some (generic_error (- res)))) else upd_io x (set_io_accepted res)
  | result_stream => set_outcome x res ;; consume x res flags
  | result_zc sent =>
      if Z.testbit flags CQE_F_NOTIF then mret tt else
        set_outcome x res ;;
        release_direction x ;;
        upd_io x (set_io_reserved false) ;;
        when (bool_decide (0 ≤ res)%Z) (event_signal sent)
  | result_entry output => upd_cell output (λ _, res)
  end).
(** the lambda [retire] of [poll] *)
Definition retire L x : M unit :=
  i ← the_io x;
  when (io_draining i) (on_driver L (modify (λ d, set_drains (pred (d_drains d)) d))) ;;
  complete L x.
Definition outcome_of_cqe x (c : cqe) : M unit :=
  i ← the_io x;
  match io_result i with
  | Some r => result_hook r x (cqe_res c) (cqe_flags c)
  | None =>
      if bool_decide (cqe_res c < 0)%Z then upd_op x (set_op_error (Some (generic_error (- cqe_res c))))
      else if bool_decide (io_code i = op_accept) then upd_io x (set_io_accepted (cqe_res c))
      else upd_io x (set_io_bytes (cqe_res c))
  end.
Definition truncated x (c : cqe) : M unit :=
  i ← the_io x;
  when (bool_decide (io_code i = op_recv_from) && bool_decide (0 ≤ cqe_res c)%Z)
    (upd_io x (set_io_address_size (cqe_namelen c)) ;;
     when (Z.testbit (cqe_msg_flags c) MSG_TRUNC) (upd_op x (set_op_error (Some message_size)))).
(** The body of the loop over the batch; [true] when the wake source was seen *)
Definition dispatch L (c : cqe) : M bool :=
  if bool_decide (cqe_data c = 0)%Z then mret true else
    let x := io_at (cqe_data c) in
    (if Z.testbit (cqe_data c) 0 then
       upd_io x (set_io_canceling false) ;;
       i ← the_io x;
       when (io_done i) (retire L x)
     else
       upd_io x (set_io_done (negb (Z.testbit (cqe_flags c) CQE_F_MORE))) ;;
       outcome_of_cqe x c ;;
       truncated x c ;;
       i ← the_io x;
       when (io_done i && negb (io_canceling i)) (retire L x)) ;;
    mret false.
Fixpoint dispatch_all L (cs : list cqe) : M bool :=
  match cs with
  | [] => mret false
  | c :: cs' => b ← dispatch L c; b' ← dispatch_all L cs'; mret (b || b')
  end.

(** Retrying an interrupted call on the event descriptor *)
Fixpoint retry (fuel : nat) (f : K → Z * K) : Prelude.M (driver K) Z :=
  n ← ring_call f;
  if bool_decide (n = - EINTR)%Z then match fuel with O => undefined | S fuel' => retry fuel' f end else mret n.
(** [void loop::wake() noexcept] *)
Definition uring_wake L : M unit :=
  n ← on_driver L (retry spin event_write);
  if bool_decide (n < 0)%Z && negb (bool_decide (n = - EAGAIN)%Z) then terminate else upd_loop L (set_l_woken true).

(** The delay [poll] waits for: bounded while a DRAIN suppresses the wake poll *)
Definition ms : Z := 1000000.
Definition wait_limit (drains : nat) (delay : Z) : option Z :=
  let delay := if negb (bool_decide (drains = 0)) && (bool_decide (delay < 0)%Z || bool_decide (ms < delay)%Z) then ms else delay in
  if bool_decide (0 ≤ delay)%Z then Some delay else None.
(** [void loop::poll(std::chrono::nanoseconds delay)] *)
Definition poll_events L (limit : option Z) : M Z :=
  d ← on_driver L get;
  if d_iopoll d then
    r ← on_driver L (ring_call ring_submit);
    r ← (if bool_decide (0 ≤ r)%Z then on_driver L (ring_call ring_events) else mret r);
    l ← the_loop L;
    (match l_io l with
     | Some _ => mret tt
     | None =>
         d ← on_driver L get;
         let e := event_poll limit (d_ring d) in
         if bool_decide (e < 0)%Z && negb (bool_decide (e = - EINTR)%Z) then throw (system_error (generic_error (- e))) else mret tt
     end) ;;
    _ ← on_driver L (retry spin event_read);
    upd_loop L (set_l_woken false) ;;
    mret r
  else on_driver L (ring_call (ring_wait limit)).
Definition batch_size : nat := 128.
Definition uring_poll L (delay : Z) : M unit :=
  d ← on_driver L get;
  r ← poll_events L (wait_limit (d_drains d) delay);
  if bool_decide (r < 0)%Z && negb (bool_decide (r = - ETIME)%Z) && negb (bool_decide (r = - EINTR)%Z)
  then throw (system_error (generic_error (- r))) else
    d ← on_driver L get;
    let batch := peek_batch batch_size (d_ring d) in
    wake_seen ← dispatch_all L batch;
    on_driver L (modify (λ d, set_ring (cq_advance (length batch) (d_ring d)) d)) ;;
    when wake_seen
      (on_driver L (modify (set_watch false false)) ;;
       n ← on_driver L (retry spin event_read);
       upd_loop L (set_l_woken false) ;;
       if bool_decide (n < 0)%Z && negb (bool_decide (n = - EAGAIN)%Z) then throw (system_error (generic_error (- n))) else mret tt) ;;
    d ← on_driver L get;
    when (negb (d_iopoll d) && negb (d_watching d) && bool_decide (d_drains d = 0)) (on_driver L driver_watch).

#[export] Instance uring_driver : Driver (driver K) := {| submit := uring_submit; cancel := uring_cancel; poll := uring_poll |}.
End uring.
