(* ===== verification/UringSpec.v ===== *)
(** * Correctness of the io_uring backend

    [LiburingOk] states the documented behaviour of the submission queue the driver
    relies on; with it the backend is an instance of [DriverOk].  Then the dispatch of
    completions: each request is retired exactly once, after its terminal completion
    and after the completion of its cancellation if one was sent. *)
From S2P Require Import Prelude ReadyQueue Links Heap Core Loop LoopInv LoopSpec Event Io Uring.

(** ** The submission queue *)
Section submits.
Context {K : Type} `{!Liburing K}.
(** The ring after [n] more submissions, and whether a submission fails. *)
Fixpoint submits (n : nat) (k : K) : K := match n with O => k | S n' => submits n' (ring_submit k).2 end.
Definition fails (n : Z) : bool := bool_decide (n < 0)%Z && negb (bool_decide (n = - EINTR)%Z).
End submits.

(** A slot can be taken while there is space, and takes one of it; submitting repeatedly fails or empties the
    queue after at most [spin] rounds. *)
Class LiburingOk (K : Type) `{!Liburing K} := {
  sq_positive (k : K) : 0 < sq_entries k;
  sq_slot (k : K) : 0 < sq_space_left k → is_Some (get_sqe k);
  sq_take e (k k' : K) : get_sqe k = Some k' → S (sq_space_left (fill_sqe e k')) = sq_space_left k;
  sq_drains (k : K) : ∃ n, (n ≤ spin ∧ sq_space_left (submits n k) = sq_entries k) ∨
                           (n < spin ∧ fails (ring_submit (submits n k)).1 = true) }.

Section driver.
Context {K : Type} `{!Liburing K, !LiburingOk K}.
Implicit Types (k : K) (d : driver K) (x : loc) (L : loopid) (w : world (driver K)) (g : ghost).

Definition same_but_ring d d' : Prop := d' = set_ring (d_ring d') d.
#[export] Instance same_but_ring_preorder : PreOrder same_but_ring.
Proof. split; [by intros []|]. intros d1 d2 d3 H1 H2. unfold same_but_ring in *. rewrite H2, H1. by destruct d3. Qed.
Lemma same_set_ring k d : same_but_ring d (set_ring k d).
Proof. by destruct d. Qed.

Lemma ring_call_post f d (Q : Z → driver K → Prop) E :
  Q (f (d_ring d)).1 (set_ring (f (d_ring d)).2 d) → post (ring_call f) d Q E.
Proof. unfold post, ring_call. by destruct (f (d_ring d)). Qed.
Lemma check_submit_post n d (Q : unit → driver K → Prop) (E : exn → driver K → Prop) :
  (fails n = false → Q tt d) → (fails n = true → ∀ e, E e d) → post (check_submit n) d Q E.
Proof.
  intros HQ HE. unfold check_submit. unfold fails in *. destruct (_ && _); [apply post_throw|apply post_ret]; auto.
Qed.

(** Within [fuel] submissions the queue has [e] free slots or a submission fails. *)
Definition frees (fuel e : nat) k : Prop :=
  ∃ n, (n ≤ fuel ∧ sq_space_left (submits n k) = e) ∨ (n < fuel ∧ fails (ring_submit (submits n k)).1 = true).
Lemma frees_submit fuel e k :
  frees (S fuel) e k → sq_space_left k ≠ e → fails (ring_submit k).1 = false → frees fuel e (ring_submit k).2.
Proof.
  intros ([|n]&Hn) Hs Hf; simpl in Hn.
  - destruct Hn as [[_ ?]|[_ ?]]; congruence.
  - exists n. destruct Hn as [[? ?]|[? ?]]; [left|right]; (split; [lia|done]).
Qed.
Lemma frees_zero e k : frees 0 e k → sq_space_left k = e.
Proof. intros (n&[[? H]|[? _]]); [|lia]. by replace n with 0 in H by lia. Qed.

(** Acquiring a slot never diverges and touches only the ring. *)
Lemma acquire_post fuel e d :
  0 < e → frees fuel e (d_ring d) →
  post (acquire fuel) d (λ _ d', same_but_ring d d') (λ _ d', same_but_ring d d').
Proof.
  intros He. revert d. induction fuel as [|fuel IH]; intros d Hf.
  all: simpl; apply post_bind; unfold post at 1, get; destruct (get_sqe (d_ring d)) as [k|] eqn:Hg;
    [apply post_modify, same_set_ring|].
  - apply frees_zero in Hf. destruct (sq_slot (d_ring d)) as [k Hk]; [lia|]. congruence.
  - apply post_bind, ring_call_post. apply post_bind, check_submit_post; [intros Hok|intros _ ?; apply same_set_ring].
    eapply post_mono; [apply IH| |]; [|intros ? d' Hd; etrans; [apply same_set_ring|exact Hd]..].
    apply frees_submit; [done| |done]. intros Hs. destruct (sq_slot (d_ring d)) as [k Hk]; [lia|]. congruence.
Qed.
Lemma make_room_post fuel count e d :
  count ≤ e → frees fuel e (d_ring d) →
  post (make_room fuel count) d (λ _ d', same_but_ring d d') (λ _ d', same_but_ring d d').
Proof.
  intros He. revert d. induction fuel as [|fuel IH]; intros d Hf.
  all: simpl; apply post_bind; unfold post at 1, get; case_bool_decide as Hc; [by apply post_ret|].
  - apply frees_zero in Hf. lia.
  - apply post_bind, ring_call_post. apply post_bind, check_submit_post; [intros Hok|intros _ ?; apply same_set_ring].
    eapply post_mono; [apply IH| |]; [|intros ? d' Hd; etrans; [apply same_set_ring|exact Hd]..].
    apply frees_submit; [done|lia|done].
Qed.
Lemma driver_sqe_post flush d : post (driver_sqe flush) d (λ _ d', same_but_ring d d') (λ _ d', same_but_ring d d').
Proof.
  assert (∀ d, post (acquire spin) d (λ _ d', same_but_ring d d') (λ _ d', same_but_ring d d')) as Ha.
  { intros d0. apply (acquire_post _ (sq_entries (d_ring d0))); [apply sq_positive|apply sq_drains]. }
  unfold driver_sqe. apply post_bind. unfold post at 1, get. apply post_bind. apply post_when; intros _; [|apply Ha].
  apply post_bind, ring_call_post, check_submit_post; [intros _|intros _ ?; apply same_set_ring].
  eapply post_mono; [apply Ha| |]; intros ? d' Hd; (etrans; [apply same_set_ring|exact Hd]).
Qed.

(** ** The frame of the driver *)
Lemma drv_frame_driver w L d : drv_frame w (set_w_loops (alter (set_l_driver d) L (w_loops w)) w).
Proof.
  split_and!; [by destruct w| |by eauto|done]. intros L'. simpl. destruct (decide (L = L')) as [<-|].
  - rewrite lookup_alter_eq. by destruct (w_loops w !! L) as [[]|].
  - rewrite lookup_alter_ne by done. by destruct (w_loops w !! L') as [[]|].
Qed.
Lemma drv_frame_wake w L l : w_loops w !! L = Some l → drv_frame w (set_w_loops (<[L := set_l_woken true l]> (w_loops w)) w).
Proof.
  intros Hl. split_and!; [by destruct w| |by eauto|done]. intros L'. simpl. destruct (decide (L = L')) as [<-|].
  - rewrite lookup_insert_eq, Hl. by destruct l.
  - rewrite lookup_insert_ne by done. by destruct (w_loops w !! L') as [[]|].
Qed.
Lemma drv_frame_io w x i i' :
  w_ios w !! x = Some i → io_busy i' = io_busy i → io_reserved i' = io_reserved i →
  drv_frame w (set_w_ios (<[x := i']> (w_ios w)) w).
Proof.
  intros Hi Hb Hr. split_and!; [by destruct w| | |].
  - intros L'. simpl. by destruct (w_loops w !! L') as [[]|].
  - intros y j Hj. simpl. destruct (decide (x = y)) as [<-|]; [|rewrite lookup_insert_ne by done; by eauto].
    simplify_eq. rewrite lookup_insert_eq. by eauto.
  - intros y. simpl. rewrite lookup_insert_is_Some'. intros [<-|]; eauto.
Qed.
Lemma drv_frame_loops w w' L : drv_frame w w' → is_Some (w_loops w !! L) → is_Some (w_loops w' !! L).
Proof. intros (_&F&_) [l Hl]. specialize (F L). rewrite Hl in F. by destruct (w_loops w' !! L). Qed.

(** An action on the driver. *)
Lemma on_driver_post {A} (c : M (driver K) A) L l w (P : A → driver K → Prop) (E : exn → driver K → Prop) :
  w_loops w !! L = Some l → post c (l_driver l) P E →
  post (on_driver L c) w
    (λ a w', ∃ d', w' = set_w_loops (alter (set_l_driver d') L (w_loops w)) w ∧ P a d')
    (λ e w', ∃ d', w' = set_w_loops (alter (set_l_driver d') L (w_loops w)) w ∧ E e d').
Proof. intros Hl Hc. eapply post_zoom; [by rewrite Hl|]. eapply post_mono; [exact Hc| |]; simpl; eauto. Qed.
Lemma on_driver_frame {A} (c : M (driver K) A) L w :
  is_Some (w_loops w !! L) → (∀ d, post c d (λ _ _, True) (λ _ _, True)) →
  post (on_driver L c) w (λ _ w', drv_frame w w' ∧ w_ios w' = w_ios w) (λ _ w', drv_frame w w' ∧ w_ios w' = w_ios w).
Proof.
  intros [l Hl] Hc. eapply post_mono; [apply (on_driver_post c L l w _ _ Hl (Hc _))| |];
    intros ? ? (d'&->&_); (split; [apply drv_frame_driver|done]).
Qed.
Lemma driver_sqe_any flush d : post (driver_sqe flush) d (λ _ _, True) (λ _ _, True).
Proof. eapply post_mono; [apply driver_sqe_post| |]; done. Qed.

(** ** The driver stays within its frame *)
Definition framed {A} (c : M (world (driver K)) A) w : Prop := post c w (λ _ w', drv_frame w w') (λ _ w', drv_frame w w').
Lemma framed_bind {A B} (c : M (world (driver K)) A) (f : A → M (world (driver K)) B) w :
  framed c w → (∀ a w', drv_frame w w' → framed (f a) w') → framed (c ≫= f) w.
Proof.
  intros Hc Hf. apply post_bind. eapply post_mono; [exact Hc| |done]. intros a w' Fr.
  eapply post_mono; [by apply Hf| |]; intros ? ? ?; (etrans; [exact Fr|done]).
Qed.
Lemma framed_ret {A} (a : A) w : framed (mret a) w.
Proof. apply post_ret. done. Qed.
Lemma framed_throw {A} e w : framed (throw e : M (world (driver K)) A) w.
Proof. by apply post_throw. Qed.
Lemma framed_when b c w : framed c w → framed (when b c) w.
Proof. intros H. destruct b; [done|apply framed_ret]. Qed.
Lemma framed_driver {A} (c : M (driver K) A) L w :
  is_Some (w_loops w !! L) → (∀ d, post c d (λ _ _, True) (λ _ _, True)) → framed (on_driver L c) w.
Proof. intros HL Hc. eapply post_mono; [by apply (on_driver_frame c L w)| |]; naive_solver. Qed.
Lemma framed_check L w : is_Some (w_loops w !! L) → framed (check L) w.
Proof.
  intros [l HL]. unfold check. eapply post_bind, post_the_loop; [done|]. apply post_bind, post_gets.
  destruct (decide _); [by apply post_ret|by apply post_throw].
Qed.
Lemma framed_wake L w : is_Some (w_loops w !! L) → framed (wake L) w.
Proof. intros [l HL]. unfold wake. eapply post_upd_loop; [done|]. by apply drv_frame_wake. Qed.
Lemma framed_io x f w :
  is_Some (w_ios w !! x) → (∀ i, io_busy (f i) = io_busy i ∧ io_reserved (f i) = io_reserved i) → framed (upd_io x f) w.
Proof. intros [i Hi] Hf. eapply post_upd_io; [done|]. destruct (Hf i). by eapply drv_frame_io. Qed.
Lemma framed_the_io {B} x w (f : io → M (world (driver K)) B) :
  is_Some (w_ios w !! x) → (∀ i, w_ios w !! x = Some i → framed (f i) w) → framed (i ← the_io x; f i) w.
Proof. intros [i Hi] Hf. eapply post_bind, post_the_io; [done|]. by apply Hf. Qed.
Lemma drv_frame_ios w w' x : drv_frame w w' → is_Some (w_ios w !! x) → is_Some (w_ios w' !! x).
Proof. intros (_&_&F&_) [i Hi]. destruct (F _ _ Hi) as (?&?&_). eauto. Qed.

Lemma make_room_any count d0 d :
  count ≤ sq_entries (d_ring d0) → d = d0 → post (make_room spin count) d (λ _ _, True) (λ _ _, True).
Proof.
  intros Hc ->. eapply post_mono; [apply (make_room_post _ _ (sq_entries (d_ring d0))); [done|apply sq_drains]| |]; done.
Qed.
Lemma framed_reserve L count drain w : is_Some (w_loops w !! L) → framed (reserve L count drain) w.
Proof.
  intros HL. unfold reserve. apply framed_bind; [by apply framed_check|]. intros _ w1 F1. apply (drv_frame_loops _ _ _ F1) in HL as HL1.
  clear F1. destruct HL1 as [l Hl]. apply post_bind.
  eapply post_mono; [apply (on_driver_post get L l w1 (λ a d, a = l_driver l ∧ d = l_driver l) (λ _ _, False) Hl); done| |naive_solver].
  intros d0 w2 (d'&->&->&->). assert (set_w_loops (alter (set_l_driver (l_driver l)) L (w_loops w1)) w1 = w1) as ->.
  { destruct w1; simpl in *. unfold set_w_loops. simpl. f_equal. apply alter_id. intros l' Hl'. simplify_eq. by destruct l. }
  case_bool_decide as Hc; [by apply post_throw|].
  change (framed (on_driver L (make_room spin count) ;; (d ← on_driver L get;
    when (drain && d_watching d && negb (d_watch_waking d)) (wake L ;; on_driver L (modify (λ d, set_watch (d_watching d) true d))))) w1).
  apply framed_bind.
  - eapply post_mono; [apply (on_driver_post _ L l w1 (λ _ _, True) (λ _ _, True) Hl)| |];
      [by eapply make_room_any; [apply Nat.nlt_ge, Hc|]|intros ? ? (?&->&_); apply drv_frame_driver..].
  - intros _ w2 F2. assert (is_Some (w_loops w2 !! L)) as HL2 by (eapply drv_frame_loops; eauto).
    apply framed_bind; [by apply framed_driver|]. intros d w3 F3. apply framed_when.
    apply (drv_frame_loops _ _ _ F3) in HL2 as HL3. apply framed_bind; [by apply framed_wake|]. intros _ w4 F4.
    apply framed_driver; [by eapply drv_frame_loops|done].
Qed.

Lemma framed_submit L x w : is_Some (w_loops w !! L) → is_Some (w_ios w !! x) → framed (uring_submit L x) w.
Proof.
  intros HL Hx. unfold uring_submit. apply framed_the_io; [done|]. intros i Hi.
  apply framed_bind; [by apply framed_driver|]. intros d w1 F1. destruct (_ && _); [apply framed_throw|].
  assert (is_Some (w_loops w1 !! L) ∧ is_Some (w_ios w1 !! x)) as [HL1 Hx1] by (split; [by eapply drv_frame_loops|by eapply drv_frame_ios]).
  apply framed_bind.
  - apply framed_when. apply framed_bind; [apply framed_when, framed_reserve, HL1|]. intros _ w2 F2.
    apply framed_bind; [apply framed_io; [by eapply drv_frame_ios|done]|]. intros _ w3 F3.
    apply framed_driver; [|done]. eapply drv_frame_loops; [etrans; [exact F2|exact F3]|done].
  - intros _ w2 F2. apply framed_bind; [apply framed_driver; [by eapply drv_frame_loops|apply driver_sqe_any]|].
    intros _ w3 F3. apply framed_driver; [|done]. eapply drv_frame_loops; [etrans; [exact F2|exact F3]|done].
Qed.
End driver.

(** The io_uring backend is a driver. *)
Section instance.
Context {K : Type} `{!Liburing K, !LiburingOk K}.
Variable consume : loc → Z → Z → M (world (driver K)) unit.
#[export] Instance uring_driver_ok : @DriverOk (driver K) (uring_driver consume).
Proof.
  split.
  - intros L x w HL Hx. by apply framed_submit.
  - intros L x w HL [i Hi]. simpl. unfold uring_cancel. apply post_bind.
    eapply post_mono; [apply (on_driver_frame _ L w HL), driver_sqe_any| |by intros ? ? []]. intros _ w1 [F1 E1].
    apply post_bind. assert (is_Some (w_loops w1 !! L)) as HL1 by (by eapply drv_frame_loops).
    eapply post_mono; [apply (on_driver_frame _ L w1 HL1); done| |intros ? ? [F2 _]; etrans; [exact F1|exact F2]]. intros _ w2 [F2 E2].
    assert (w_ios w2 !! x = Some i) as Hi2 by (by rewrite E2, E1).
    apply post_bind. eapply post_upd_io; [done|]. eapply post_upd_io; [simpl; by rewrite lookup_insert_eq|]. simpl.
    rewrite insert_insert_eq. split_and!.
    + etrans; [exact F1|]. etrans; [exact F2|]. unshelve epose proof (drv_frame_io w2 x i (set_io_cancel_sent true (set_io_canceling true i)) Hi2 _ _) as F; done.
    + by rewrite lookup_insert_eq.
    + intros y Hy. rewrite lookup_insert_ne by done. by rewrite E2, E1.
Qed.
End instance.
