(* ===== verification/UringPoll.v ===== *)
(** * Completion dispatch of the io_uring backend

    Each request is retired exactly once: at its terminal completion, or at the
    completion of its cancellation when that arrives later.  The reference is an
    automaton over (terminal seen, cancellation outstanding). *)
From S2P Require Import Prelude ReadyQueue Links Heap Core Loop LoopInv LoopSpec Event Io Uring UringSpec.

(** ** Tags *)
Lemma io_at_addr x : io_at (io_addr x) = x ∧ Z.testbit (io_addr x) 0 = false ∧ io_addr x ≠ 0%Z.
Proof.
  unfold io_at, io_addr. split_and!; [| |lia].
  - rewrite Z.shiftr_div_pow2 by lia. replace (2 * Z.of_nat x + 2)%Z with ((Z.of_nat x + 1) * 2)%Z by lia.
    rewrite Z.div_mul by lia. lia.
  - replace (2 * Z.of_nat x + 2)%Z with (2 * (Z.of_nat x + 1))%Z by lia. by rewrite Z.testbit_even_0.
Qed.
Lemma io_at_cancel x : io_at (Z.lor (io_addr x) 1) = x ∧ Z.testbit (Z.lor (io_addr x) 1) 0 = true ∧ Z.lor (io_addr x) 1 ≠ 0%Z.
Proof.
  destruct (io_at_addr x) as (Ha&_&_). split_and!.
  - unfold io_at in *. rewrite Z.shiftr_lor. change (Z.shiftr 1 1) with 0%Z. by rewrite Z.lor_0_r.
  - rewrite Z.lor_spec. by destruct (Z.testbit (io_addr x) 0).
  - intros [? ?]%Z.lor_eq_0_iff. done.
Qed.

(** ** The reference automaton *)

(** The state of the pending requests: terminal completion seen, cancellation outstanding. *)
Abbreviation requests := (gmap loc (bool * bool)).
(** A completion in a state in which it can occur: the new state and the requests retired. *)
Definition occurs (c : cqe) (s : requests * list loc) : option (requests * list loc) :=
  let '(rs, out) := s in
  if bool_decide (cqe_data c = 0)%Z then Some s else
    let x := io_at (cqe_data c) in
    match (rs !! x : option (bool * bool)) with
    | None => None
    | Some (dn, cn) =>
        if Z.testbit (cqe_data c) 0 then
          if negb cn then None
          else if dn then Some (delete x rs, out ++ [x]) else Some (<[x := (dn, false)]> rs, out)
        else if dn then None
        else let dn' := negb (Z.testbit (cqe_flags c) CQE_F_MORE) in
          if dn' && negb cn then Some (delete x rs, out ++ [x]) else Some (<[x := (dn', cn)]> rs, out)
    end.
Fixpoint occur (cs : list cqe) (s : requests * list loc) : option (requests * list loc) :=
  match cs with [] => Some s | c :: cs' => match occurs c s with Some s' => occur cs' s' | None => None end end.

Section poll.
Context {K : Type} `{!Liburing K}.
Variable consume : loc → Z → Z → M (world (driver K)) unit.
Implicit Types (d : driver K) (x : loc) (L : loopid) (w : world (driver K)) (g : ghost) (i : io) (o : op) (c : cqe).

(** A request without hooks of its own, or with those of a native operation. *)
Definition plain i : Prop :=
  io_retire i = None ∧ (io_result i = None ∨ io_result i = Some result_op ∨ io_result i = Some result_open).
Definition io_same i i' : Prop :=
  io_done i' = io_done i ∧ io_canceling i' = io_canceling i ∧ io_draining i' = io_draining i ∧
  io_retire i' = io_retire i ∧ io_result i' = io_result i ∧ io_code i' = io_code i.
Definition op_same o o' : Prop := op_owner o' = op_owner o ∧ op_active o' = op_active o.

(** A request's own fields have changed, and nothing else. *)
Definition touched x w w' : Prop :=
  ∃ i o i' o', w_ios w !! x = Some i ∧ w_ops w !! x = Some o ∧ io_same i i' ∧ op_same o o' ∧
    w' = set_w_ios (<[x := i']> (w_ios w)) (set_w_ops (<[x := o']> (w_ops w)) w).
Lemma touched_refl x w i o : w_ios w !! x = Some i → w_ops w !! x = Some o → touched x w w.
Proof. intros Hi Ho. exists i, o, i, o. split_and!; try done. rewrite !insert_id by done. by destruct w. Qed.
Lemma touched_trans x w1 w2 w3 : touched x w1 w2 → touched x w2 w3 → touched x w1 w3.
Proof.
  intros (i&o&i'&o'&Hi&Ho&(?&?&?&?&?&?)&[]&->) (i2&o2&i3&o3&Hi2&Ho2&(?&?&?&?&?&?)&[]&->). simpl in *.
  rewrite ?lookup_insert_eq in Hi2. rewrite ?lookup_insert_eq in Ho2. simplify_eq. exists i, o, i3, o3. unfold io_same, op_same. split_and!; try done; try congruence.
  by rewrite !insert_insert_eq.
Qed.
Lemma touched_inv X x w w' g : Inv X w g → touched x w w' → Inv X w' g.
Proof.
  intros I (i&o&i'&o'&Hi&Ho&_&[? ?]&->).
  pose proof (Inv_upd_op X w g x o o' I Ho ltac:(done) ltac:(done)) as I1.
  exact (Inv_upd_io X _ g x i i' (w_flags w) I1 Hi).
Qed.

Lemma set_error_touched x e w i o :
  w_ios w !! x = Some i → w_ops w !! x = Some o → runs (upd_op x (set_op_error e)) w (λ _ w', touched x w w').
Proof.
  intros Hi Ho. eapply post_upd_op; [done|]. exists i, o, i, (set_op_error e o). split_and!; try done.
  rewrite (insert_id (w_ios w)) by done. by destruct w.
Qed.
Lemma set_io_touched x f w i o :
  (io_same i (f i)) → w_ios w !! x = Some i → w_ops w !! x = Some o → runs (upd_io x f) w (λ _ w', touched x w w').
Proof.
  intros Hf Hi Ho. eapply post_upd_io; [done|]. exists i, o, (f i), o. split_and!; try done.
  rewrite (insert_id (w_ops w)) by done. by destruct w.
Qed.
Lemma touched_lookup x w w' i :
  touched x w w' → w_ios w !! x = Some i → ∃ i' o', w_ios w' !! x = Some i' ∧ w_ops w' !! x = Some o' ∧ io_same i i'.
Proof.
  intros (i1&o1&i'&o'&Hi&Ho&?&?&->) Hi'. simplify_eq. exists i', o'. simpl. by rewrite !lookup_insert_eq.
Qed.

Lemma outcome_touched x c w i o :
  w_ios w !! x = Some i → w_ops w !! x = Some o → plain i → runs (outcome_of_cqe consume x c) w (λ _ w', touched x w w').
Proof.
  intros Hi Ho [_ Hr]. unfold outcome_of_cqe. step.
  pose proof (touched_refl x w i o Hi Ho) as Hrefl.
  assert (∀ n, runs (upd_io x (set_io_bytes n)) w (λ _ w', touched x w w')) as Hb by (intros n; by eapply set_io_touched).
  assert (∀ n, runs (upd_io x (set_io_accepted n)) w (λ _ w', touched x w w')) as Ha by (intros n; by eapply set_io_touched).
  assert (∀ e, runs (upd_op x (set_op_error e)) w (λ _ w', touched x w w')) as He by (intros n; by eapply set_error_touched).
  destruct Hr as [->|[->| ->]]; unfold result_hook, set_outcome; [|apply post_nothrow..];
    repeat match goal with |- context [if ?b then _ else _] => destruct b end; auto; by apply post_ret.
Qed.
Lemma truncated_touched x c w i o :
  w_ios w !! x = Some i → w_ops w !! x = Some o → runs (truncated x c) w (λ _ w', touched x w w').
Proof.
  intros Hi Ho. unfold truncated. step. apply post_when; intros _; [|by eapply touched_refl].
  apply post_bind. eapply post_mono; [by eapply (set_io_touched x _ w i o)| |done]. intros [] w1 T1.
  destruct (touched_lookup _ _ _ _ T1 Hi) as (i1&o1&Hi1&Ho1&_).
  apply post_when; intros _; [|done]. eapply post_mono; [by eapply set_error_touched| |done].
  intros [] w2 T2. by eapply touched_trans.
Qed.

(** ** Retiring *)
Definition draining_of w x : bool := default false (io_draining <$> w_ios w !! x).
(** The counter of the driver is the number of pending requests with a DRAIN. *)
Definition drains_of w g L : nat := length (filter (λ x, draining_of w x = true) (a_ios (g L))).
Definition counts w g L : Prop := (d_drains ∘ l_driver) <$> w_loops w !! L = Some (drains_of w g L).

Lemma filter_without (P : loc → Prop) `{!∀ x, Decision (P x)} x xs :
  NoDup xs → x ∈ xs → length (filter P (without x xs)) + (if decide (P x) then 1 else 0) = length (filter P xs).
Proof.
  intros Hnd (l1&l2&->)%elem_of_split. rewrite without_middle by done. rewrite !filter_app, filter_cons.
  rewrite !length_app. destruct (decide (P x)); simpl; lia.
Qed.
Lemma counts_retire w w' g L x :
  NoDup (a_ios (g L)) → x ∈ a_ios (g L) → w_ios w' = w_ios w →
  drains_of w' (g_complete L x g) L + (if draining_of w x then 1 else 0) = drains_of w g L.
Proof.
  intros Hnd Hx E. unfold drains_of, g_complete. rewrite upd_g_eq. simpl.
  rewrite <- (filter_without (λ x, draining_of w x = true) x (a_ios (g L)) Hnd Hx).
  f_equal; [|by destruct (draining_of w x)]. f_equal. apply filter_agree. intros y _. unfold draining_of. by rewrite E.
Qed.

Lemma retire_spec w g L x i :
  Inv ∅ w g → x ∈ a_ios (g L) → w_ios w !! x = Some i → plain i → counts w g L →
  runs (retire L x) w (λ _ w', Inv ∅ w' (g_complete L x g) ∧ w_ios w' = w_ios w ∧ counts w' (g_complete L x g) L).
Proof.
  intros I Hx Hi [Hr _] Hc. destruct (inv_pending _ _ _ I L x) as (_&o&Ho&Hown&_); [unfold a_pending; set_solver|].
  destruct (inv_op _ _ _ I _ _ Ho) as ([l HL]&_). rewrite Hown in HL.
  assert (NoDup (a_ios (g L))) as Hnd by (eapply dl_rep_NoDup, (inv_ios _ _ _ I L l HL)).
  unfold counts in Hc. rewrite HL in Hc. simpl in Hc. injection Hc as Hc.
  pose proof (counts_retire w w g L x Hnd Hx eq_refl) as Hn.
  assert (draining_of w x = io_draining i) as Hd by (unfold draining_of; by rewrite Hi). rewrite Hd in Hn.
  unfold retire. step. apply post_bind.
  apply (post_mono _ _ (λ _ w1, ∃ d, w1 = set_w_loops (<[L := set_l_driver d l]> (w_loops w)) w ∧
    d_drains d = drains_of w (g_complete L x g) L) _ (λ _ _, False)); [| |done].
  { destruct (io_draining i); simpl.
    - eapply post_zoom; [by rewrite HL|]. apply post_modify. eexists. split.
      + f_equal. apply map_eq. intros L'. destruct (decide (L = L')) as [<-|]; [by rewrite lookup_alter_eq, HL, lookup_insert_eq|].
        by rewrite lookup_alter_ne, lookup_insert_ne.
      + simpl. lia.
    - apply post_ret. exists (l_driver l). split; [|lia]. rewrite insert_id; [by destruct w|]. rewrite HL. by destruct l. }
  intros [] w1 (d&->&Hdd).
  assert (Inv ∅ (set_w_loops (<[L:=set_l_driver d l]> (w_loops w)) w) g) as I1 by (by eapply Inv_upd_loop).
  eapply post_mono; [apply (complete_spec _ g L x o i I1 Hx Ho Hi Hr)| |done].
  intros [] w2 (I2&_&E2&_&Hdrv). simpl in E2. split_and!; [done|done|].
  unfold counts. rewrite option_fmap_compose, Hdrv. simpl. rewrite lookup_insert_eq. simpl. rewrite Hdd.
  f_equal. unfold drains_of. f_equal. apply filter_agree. intros y _. unfold draining_of. by rewrite E2.
Qed.

(** ** Dispatch *)

(** The pending requests of [L] and their state. *)
Record tracks w g L (rs : requests) : Prop := {
  tr_dom x : x ∈ a_ios (g L) ↔ is_Some (rs !! x);
  tr_state x dn cn : rs !! x = Some (dn, cn) →
    ∃ i, w_ios w !! x = Some i ∧ io_done i = dn ∧ io_canceling i = cn ∧ plain i }.

(** A completion that leaves the request pending. *)
Lemma tracks_update w w' g L rs x i i' :
  tracks w g L rs → x ∈ a_ios (g L) → w_ios w !! x = Some i → plain i → w_ios w' = <[x := i']> (w_ios w) →
  io_retire i' = io_retire i → io_result i' = io_result i →
  tracks w' g L (<[x := (io_done i', io_canceling i')]> rs).
Proof.
  intros [Hd Hs] Hx Hi [Hp1 Hp2] E E1 E2. split.
  - intros y. rewrite lookup_insert_is_Some', Hd. split; [by right|]. intros [<-|]; [by apply Hd|done].
  - intros y dn cn [[<- [= <- <-]]|[Hne Hy]]%lookup_insert_Some; rewrite E.
    + exists i'. rewrite lookup_insert_eq. unfold plain. rewrite E1, E2. done.
    + rewrite lookup_insert_ne by done. eauto.
Qed.
Lemma tracks_retire w w' g L rs x :
  tracks w g L rs → w_ios w' = w_ios w → tracks w' (g_complete L x g) L (delete x rs).
Proof.
  intros [Hd Hs] E. split.
  - intros y. unfold g_complete. rewrite upd_g_eq. simpl. rewrite elem_of_without, lookup_delete_is_Some, Hd. naive_solver.
  - intros y dn cn [_ Hy]%lookup_delete_Some. rewrite E. eauto.
Qed.
Lemma counts_update w w' g L x i i' :
  counts w g L → w_ios w !! x = Some i → w_ios w' = <[x := i']> (w_ios w) → io_draining i' = io_draining i →
  w_loops w' = w_loops w → counts w' g L.
Proof.
  unfold counts. intros Hc Hi E Hd HL. rewrite HL, Hc. f_equal. unfold drains_of. f_equal. apply filter_agree.
  intros y _. unfold draining_of. rewrite E. destruct (decide (x = y)) as [<-|]; [|by rewrite lookup_insert_ne].
  rewrite lookup_insert_eq, Hi. simpl. by rewrite Hd.
Qed.

(** What one completion does, on every branch of the automaton. *)
Record dispatched w w' g g' L (out : list loc) (rs' : requests) : Prop := {
  ds_inv : Inv ∅ w' g';
  ds_tracks : tracks w' g' L rs';
  ds_counts : counts w' g' L;
  ds_ready : a_ready (g' L) = a_ready (g L) ++ out;
  ds_other L' : L' ≠ L → g' L' = g L' }.

Lemma settle w g L rs x i i' w1 :
  Inv ∅ w g → tracks w g L rs → counts w g L → x ∈ a_ios (g L) → w_ios w !! x = Some i → plain i →
  Inv ∅ w1 g → w_ios w1 = <[x := i']> (w_ios w) → w_loops w1 = w_loops w →
  io_retire i' = io_retire i → io_result i' = io_result i → io_draining i' = io_draining i →
  runs (when (io_done i' && negb (io_canceling i')) (retire L x)) w1 (λ _ w2,
    if io_done i' && negb (io_canceling i')
    then dispatched w w2 g (g_complete L x g) L [x] (delete x rs)
    else dispatched w w2 g g L [] (<[x := (io_done i', io_canceling i')]> rs)).
Proof.
  intros I T C Hx Hi Hp I1 E1 EL E2 E3 E4.
  assert (counts w1 g L) as C1 by (by eapply counts_update).
  pose proof (tracks_update _ _ _ _ _ _ _ _ T Hx Hi Hp E1 E2 E3) as T1.
  assert (plain i') as Hp' by (unfold plain; rewrite E2, E3; exact Hp).
  destruct (io_done i' && negb (io_canceling i')); simpl.
  - eapply post_mono; [apply (retire_spec w1 g L x i' I1 Hx); [rewrite E1; apply lookup_insert_eq|done|done]| |done].
    intros [] w2 (I2&E5&C2). split; [done| |done| |].
    + rewrite <- (delete_insert_eq rs x (io_done i', io_canceling i')). by eapply tracks_retire.
    + unfold g_complete. by rewrite upd_g_eq.
    + intros L' HL'. unfold g_complete. by rewrite upd_g_ne.
  - apply post_ret. split; try done. by rewrite app_nil_r.
Qed.

Lemma dispatch_spec w g L rs out c rs' out' :
  Inv ∅ w g → tracks w g L rs → counts w g L → occurs c (rs, out) = Some (rs', out') →
  runs (dispatch consume L c) w (λ b w', b = bool_decide (cqe_data c = 0%Z) ∧
    ∃ g' ys, out' = out ++ ys ∧ dispatched w w' g g' L ys rs').
Proof.
  intros I T C Hocc. unfold occurs in Hocc. unfold dispatch. case_bool_decide as H0.
  { injection Hocc as <- <-. apply post_ret. split; [done|]. exists g, []. rewrite app_nil_r. split; [done|].
    split; try done. by rewrite app_nil_r. }
  set (x := io_at (cqe_data c)) in *. destruct (rs !! x) as [[dn cn]|] eqn:Hrs; [|done].
  destruct (tr_state _ _ _ _ T _ _ _ Hrs) as (i&Hi&Hdn&Hcn&Hp).
  assert (x ∈ a_ios (g L)) as Hx by (apply (tr_dom _ _ _ _ T); eauto).
  destruct (inv_pending _ _ _ I L x) as (_&o&Ho&_&_); [unfold a_pending; set_solver|].
  apply post_bind. destruct (Z.testbit (cqe_data c) 0) eqn:Hbit.
  - destruct cn; [|done]. simpl in Hocc. step.
    set (i1 := set_io_canceling false i). assert (io_done i1 = dn ∧ io_canceling i1 = false) as [Hd1 Hc1] by done.
    step.
    assert (io_done i1 && negb (io_canceling i1) = dn) as Hcond by (rewrite Hd1, Hc1; by rewrite andb_true_r).
    assert (Inv ∅ (set_w_ios (<[x:=i1]> (w_ios w)) w) g) as I1.
    { pose proof (Inv_upd_io ∅ w g x i i1 (w_flags w) I Hi) as I1. by destruct w. }
    pose proof (settle w g L rs x i i1 _ I T C Hx Hi Hp I1 eq_refl eq_refl eq_refl eq_refl eq_refl) as Hs.
    rewrite Hcond in Hs. rewrite Hd1, Hc1 in Hs.
    rewrite Hd1.
    eapply post_mono; [exact Hs| |done]. intros [] w2 H2. apply post_ret. split; [done|].
    destruct dn; injection Hocc as <- <-; [exists (g_complete L x g), [x]|exists g, []; rewrite app_nil_r]; done.
  - destruct dn; [done|]. step. set (i1 := set_io_done (negb (Z.testbit (cqe_flags c) CQE_F_MORE)) i).
    set (w1 := set_w_ios (<[x:=i1]> (w_ios w)) w).
    assert (Inv ∅ w1 g) as I1.
    { pose proof (Inv_upd_io ∅ w g x i i1 (w_flags w) I Hi) as I1. unfold w1. by destruct w. }
    assert (w_ios w1 !! x = Some i1) as Hi1 by apply lookup_insert_eq.
    apply post_bind. eapply post_mono; [apply (outcome_touched x c w1 i1 o Hi1 Ho Hp)| |done]. intros [] w2 T2.
    destruct (touched_lookup _ _ _ _ T2 Hi1) as (i2&o2&Hi2&Ho2&S2).
    apply post_bind. eapply post_mono; [apply (truncated_touched x c w2 i2 o2 Hi2 Ho2)| |done]. intros [] w3 T3.
    pose proof (touched_trans _ _ _ _ T2 T3) as T13. pose proof (touched_inv _ _ _ _ _ I1 T13) as I3.
    destruct T13 as (i1'&o1&i3&o3&Hi1'&_&(Hd3&Hc3&Hdr3&Hrt3&Hrs3&_)&_&E3). rewrite Hi1 in Hi1'. injection Hi1' as <-.
    assert (w_ios w3 = <[x := i3]> (w_ios w)) as Eio by (rewrite E3; simpl; by rewrite insert_insert_eq).
    assert (w_ios w3 !! x = Some i3) as Hi3 by (rewrite Eio; apply lookup_insert_eq).
    step.
    pose proof (settle w g L rs x i i3 w3 I T C Hx Hi Hp I3 Eio ltac:(by rewrite E3) Hrt3 Hrs3 Hdr3) as Hs.
    eapply post_mono; [exact Hs| |done]. intros [] w4 H4. apply post_ret. split; [done|].
    rewrite Hd3, Hc3 in H4. change (io_canceling i1) with (io_canceling i) in H4. rewrite Hcn in H4. unfold i1 in H4.
    cbn [io_done set_io_done] in H4. destruct (negb (Z.testbit (cqe_flags c) CQE_F_MORE) && negb cn); injection Hocc as <- <-;
      [exists (g_complete L x g), [x]|exists g, []; rewrite app_nil_r]; done.
Qed.

(** C8: Completion dispatch follows the automaton for every batch of completions that can
    occur: each request is retired exactly once, when its terminal completion has been
    seen and no completion of its cancellation is outstanding, in that order; the lists
    of the loop stay consistent, the requests retired become ready in order, the DRAIN
    counter is the number of pending requests with a DRAIN, and the wake source is
    reported exactly when it was among the completions. *)
Theorem dispatch_all_spec cs : ∀ w g L rs out rs' out',
  Inv ∅ w g → tracks w g L rs → counts w g L → occur cs (rs, out) = Some (rs', out') →
  runs (dispatch_all consume L cs) w (λ b w', b = existsb (λ c, bool_decide (cqe_data c = 0%Z)) cs ∧
    ∃ g' ys, out' = out ++ ys ∧ dispatched w w' g g' L ys rs').
Proof.
  induction cs as [|c cs IH]; intros w g L rs out rs' out' I T C Hocc; cbn [occur dispatch_all existsb] in *.
  { injection Hocc as <- <-. apply post_ret. split; [done|]. exists g, []. rewrite app_nil_r. split; [done|].
    split; try done. by rewrite app_nil_r. }
  destruct (occurs c (rs, out)) as [[rs1 out1]|] eqn:H1; [|done].
  apply post_bind. eapply post_mono; [apply (dispatch_spec _ _ _ _ _ _ _ _ I T C H1)| |done].
  intros b w1 (->&g1&ys1&->&[I1 T1 C1 R1 O1]).
  apply post_bind. eapply post_mono; [apply (IH w1 g1 L rs1 _ rs' out' I1 T1 C1 Hocc)| |done].
  intros b w2 (->&g2&ys2&->&[I2 T2 C2 R2 O2]). apply post_ret. split; [done|].
  exists g2, (ys1 ++ ys2). rewrite app_assoc. split; [done|]. split; try done.
  - by rewrite R2, R1, app_assoc.
  - intros L' HL'. by rewrite O2, O1.
Qed.
End poll.
