(* ===== verification/UringSetup.v ===== *)
(** * Lifetime of a loop on io_uring (include/snowy/uring.hpp, src/uring.cpp)

    Validation of the ring options, construction with its fallback and its cleanup,
    destruction, and what a failed submission leaves behind. *)
From S2P Require Import Prelude ReadyQueue Links Heap Core Loop LoopInv LoopSpec Event Io Run RunLoop Uring UringSpec UringPoll.

(** [struct uring::options] *)
Record options := Options {
  o_entries : Z; o_cq_entries : Z; o_flags : Z; o_idle_ms : Z; o_cpu : Z; o_budget : Z; o_submit_batch : Z; o_wq_fd : Z;
  o_register_fd : bool; o_single_issuer : bool }.
Definition default_options : options := Options 256 0 0 1000 0 64 0 (-1) false true.
(** [io_uring_params] as the constructor fills it *)
Record params := Params { p_entries : Z; p_flags : Z; p_cq_entries : Z; p_wq_fd : Z; p_idle : Z; p_cpu : Z }.

Definition has (flags f : Z) : bool := negb (bool_decide (Z.land flags f = 0)%Z).
Definition allowed : Z :=
  Z.lor setup_iopoll (Z.lor setup_sqpoll (Z.lor setup_sq_aff (Z.lor setup_single_issuer (Z.lor setup_coop_taskrun
    (Z.lor setup_defer_taskrun (Z.lor setup_taskrun_flag setup_submit_all)))))).
Definition taskrun : Z := Z.lor setup_coop_taskrun (Z.lor setup_defer_taskrun setup_taskrun_flag).
(** The condition of the constructor's [invalid_argument] *)
Definition invalid_options (c : options) : bool :=
  bool_decide (o_entries c = 0)%Z || bool_decide (32768 < o_entries c)%Z || bool_decide (o_budget c = 0)%Z ||
  negb (bool_decide (Z.ldiff (o_flags c) allowed = 0)%Z) || bool_decide (o_entries c < o_submit_batch c)%Z ||
  bool_decide (o_wq_fd c < -1)%Z ||
  (negb (bool_decide (o_cq_entries c = 0)%Z) && bool_decide (o_cq_entries c < o_entries c)%Z) ||
  (has (o_flags c) setup_sq_aff && negb (has (o_flags c) setup_sqpoll)) ||
  (has (o_flags c) setup_sqpoll && has (o_flags c) taskrun).

Definition setup_params (c : options) : params :=
  let f0 := Z.lor (o_flags c) (if o_single_issuer c then setup_single_issuer else 0) in
  let f1 := if bool_decide (0 ≤ o_wq_fd c)%Z then Z.lor f0 setup_attach_wq else f0 in
  let f2 := if bool_decide (o_cq_entries c = 0)%Z then f1 else Z.lor f1 setup_cqsize in
  Params (o_entries c) f2 (o_cq_entries c) (if bool_decide (0 ≤ o_wq_fd c)%Z then o_wq_fd c else 0) (o_idle_ms c) (o_cpu c).
Definition without_single_issuer (p : params) : params :=
  Params (p_entries p) (Z.ldiff (p_flags p) setup_single_issuer) (p_cq_entries p) (p_wq_fd p) (p_idle p) (p_cpu p).

Section setup.
Context {K : Type} `{!Liburing K}.
Implicit Types (d : driver K) (L : loopid) (w : world (driver K)).

(** The native calls of the constructor: queue creation, registration of the ring
    descriptor, the event descriptor or a negative errno. *)
Record system := System { sys_init : params → Z * K; sys_register : K → Z * K; sys_eventfd : Z }.
Inductive cleanup := close_event | unregister_fd | queue_exit.
Implicit Types s : system.

(** [io_uring_queue_init_params], retried without SINGLE_ISSUER when that was only
    opportunistic *)
Definition queue_init s (c : options) : Z * K :=
  let p := setup_params c in
  let '(r, k) := sys_init s p in
  if bool_decide (r = - EINVAL)%Z && o_single_issuer c && negb (has (o_flags c) (Z.lor setup_single_issuer setup_defer_taskrun))
  then sys_init s (without_single_issuer p) else (r, k).
(** The try block of the constructor *)
Definition setup_ring s (c : options) : M (driver K) unit :=
  when (o_register_fd c)
    (r ← ring_call (sys_register s);
     if bool_decide (r < 0)%Z then throw (system_error (generic_error (- r))) else modify (set_registered true)) ;;
  modify (set_event (sys_eventfd s)) ;;
  if bool_decide (sys_eventfd s < 0)%Z then throw (system_error (generic_error (- sys_eventfd s))) else
    d ← get;
    when (negb (d_iopoll d)) driver_watch.
(** Its handler *)
Definition release_of d : list cleanup :=
  (if bool_decide (0 ≤ d_event d)%Z then [close_event] else []) ++
  (if d_registered d then [unregister_fd] else []) ++ [queue_exit].
(** [loop::loop(const uring::options& config)]: a driver and the budget, or the exception
    with the resources released before it leaves *)
Definition loop_new s (c : options) : (exn * list cleanup) + (driver K * Z) :=
  if invalid_options c then inl (invalid_argument "invalid uring options", []) else
    let '(r, k) := queue_init s c in
    if bool_decide (r < 0)%Z then inl (system_error (generic_error (- r)), []) else
      let d := Driver_ k (-1) (has (o_flags c) setup_iopoll) false (Z.to_nat (o_submit_batch c)) false false 0 in
      match setup_ring s c d with
      | Ret _ d' => inr (d', o_budget c)
      | Throw e d' => inl (e, release_of d')
      | Terminate | Undefined => inl (logic_error "", [])
      end.

(** [loop::~loop()]; [unregistered] is the result of unregistering the ring descriptor *)
Definition loop_destroy L (unregistered : Z) : M (world (driver K)) (list cleanup) :=
  l ← the_loop L;
  if l_running l || bool_decide (l_roots l ≠ 0) || bool_decide (is_Some (l_io l)) || bool_decide (is_Some (l_waits l)) ||
     bool_decide (l_holds l ≠ 0) || negb (empty (l_messages l)) || negb (is_nil (l_timers l)) || negb (empty (l_ready l))
  then terminate
  else if d_registered (l_driver l) && bool_decide (unregistered < 0)%Z then terminate
  else mret ((if d_registered (l_driver l) then [unregister_fd] else []) ++ [queue_exit; close_event]).

(** ** Properties *)
Context `{!LiburingOk K}.

(** The options are accepted exactly when every documented constraint holds; the flags
    passed to the kernel are the requested ones, with SINGLE_ISSUER, ATTACH_WQ and CQSIZE
    added as configured. *)
Theorem options_spec (c : options) :
  (0 ≤ o_entries c)%Z → (0 ≤ o_budget c)%Z → (0 ≤ o_cq_entries c)%Z →
  invalid_options c = false ↔
    (1 ≤ o_entries c ≤ 32768)%Z ∧ (1 ≤ o_budget c)%Z ∧ Z.ldiff (o_flags c) allowed = 0%Z ∧
    (o_submit_batch c ≤ o_entries c)%Z ∧ (-1 ≤ o_wq_fd c)%Z ∧ (o_cq_entries c = 0 ∨ o_entries c ≤ o_cq_entries c)%Z ∧
    (has (o_flags c) setup_sq_aff = true → has (o_flags c) setup_sqpoll = true) ∧
    (has (o_flags c) setup_sqpoll = true → has (o_flags c) taskrun = false).
Proof.
  intros He Hb Hc. unfold invalid_options. rewrite !orb_false_iff, !andb_false_iff, !negb_false_iff, !bool_decide_eq_false, !bool_decide_eq_true.
  destruct (has (o_flags c) setup_sq_aff), (has (o_flags c) setup_sqpoll), (has (o_flags c) taskrun); naive_solver lia.
Qed.

(** Everything of a driver but its ring, its watch flags. *)
Definition holds_of (d : driver K) : Z * bool * bool * nat := (d_event d, d_registered d, d_iopoll d, d_drains d).
Lemma same_holds d d' : same_but_ring d d' → holds_of d' = holds_of d.
Proof. unfold same_but_ring. destruct d, d'. by intros [= -> -> -> -> -> -> ->]. Qed.
Lemma watch_post (d : driver K) :
  post driver_watch d (λ _ d', holds_of d' = holds_of d ∧ d_watching d' = true) (λ _ d', holds_of d' = holds_of d).
Proof.
  unfold driver_watch. apply post_bind. eapply post_mono; [apply driver_sqe_post| |].
  - intros [] d' E. apply post_bind. unfold post at 1, get. apply post_bind, post_modify, post_modify. by rewrite <-(same_holds _ _ E).
  - intros e d' E. by apply same_holds.
Qed.
(** The outcome of the try block, by the descriptors it obtained. *)
Definition ring_registered s (c : options) k : bool := o_register_fd c && bool_decide (0 ≤ (sys_register s k).1)%Z.
Definition ring_refused s (c : options) k : bool := o_register_fd c && bool_decide ((sys_register s k).1 < 0)%Z.
Lemma setup_ring_post s c d :
  d_event d = (-1)%Z → d_registered d = false →
  post (setup_ring s c) d
    (λ _ d', holds_of d' = (sys_eventfd s, o_register_fd c, d_iopoll d, d_drains d) ∧ (0 ≤ sys_eventfd s)%Z ∧
             (d_iopoll d = false → d_watching d' = true) ∧ (d_iopoll d = true → d_watching d' = d_watching d))
    (λ _ d', d_registered d' = ring_registered s c (d_ring d) ∧
             ((0 ≤ d_event d')%Z ↔ ring_refused s c (d_ring d) = false ∧ (0 ≤ sys_eventfd s)%Z)).
Proof.
  intros He Hr. unfold setup_ring. apply post_bind.
  assert (∀ d1, d_registered d1 = o_register_fd c → d_iopoll d1 = d_iopoll d → d_drains d1 = d_drains d → d_watching d1 = d_watching d →
    ring_registered s c (d_ring d) = o_register_fd c → ring_refused s c (d_ring d) = false →
    post (modify (set_event (sys_eventfd s)) ;;
          if bool_decide (sys_eventfd s < 0)%Z then throw (system_error (generic_error (- sys_eventfd s)))
          else d ← get; when (negb (d_iopoll d)) driver_watch) d1
      (λ _ d', holds_of d' = (sys_eventfd s, o_register_fd c, d_iopoll d, d_drains d) ∧ (0 ≤ sys_eventfd s)%Z ∧
               (d_iopoll d = false → d_watching d' = true) ∧ (d_iopoll d = true → d_watching d' = d_watching d))
      (λ _ d', d_registered d' = ring_registered s c (d_ring d) ∧
               ((0 ≤ d_event d')%Z ↔ ring_refused s c (d_ring d) = false ∧ (0 ≤ sys_eventfd s)%Z))) as Hrest.
  { intros d1 R1 I1 N1 W1 G1 G2. apply post_bind, post_modify. case_bool_decide as Hev.
    - apply post_throw. rewrite G1, G2. simpl. split; [done|]. naive_solver lia.
    - apply post_bind. unfold post at 1, get. apply post_when; cbn [set_event d_iopoll]; rewrite I1; intros Hio.
      + apply negb_true_iff in Hio. eapply post_mono; [apply watch_post| |].
        * intros [] d' [H1 H2]. rewrite H1. unfold holds_of. simpl. rewrite R1, I1, N1, Hio. split_and!; [done|lia|done|done].
        * intros e d' H1. injection H1 as H2 H3 _ _. simpl in H2, H3. rewrite H2, H3, G1, G2. split; [congruence|]. naive_solver lia.
      + apply negb_false_iff in Hio. unfold holds_of. simpl. rewrite R1, I1, N1, Hio. split_and!; [done|lia|done|done]. }
  unfold ring_registered, ring_refused in *. destruct (o_register_fd c) eqn:Ho; simpl.
  - apply post_bind, ring_call_post. simpl. destruct (decide ((sys_register s (d_ring d)).1 < 0)%Z) as [Hn|Hn].
    + rewrite (bool_decide_eq_true_2 _ Hn), (bool_decide_eq_false_2 (0 ≤ (sys_register s (d_ring d)).1)%Z) by lia. apply post_throw. simpl. rewrite Hr, He.
      split; [done|]. naive_solver lia.
    + rewrite (bool_decide_eq_false_2 _ Hn) in *.
      rewrite (bool_decide_eq_true_2 (0 ≤ (sys_register s (d_ring d)).1)%Z) in * by lia. apply post_modify. by apply Hrest.
  - by apply post_ret, Hrest.
Qed.

(** Construction leaks nothing: when it throws after the queue exists, the queue is
    released, the ring descriptor is unregistered exactly if it was registered, and the
    event descriptor is closed exactly if it was opened; when it succeeds, the driver holds
    an event descriptor, and its wake poll is armed unless the ring is storage-only. *)
Theorem loop_new_spec s c k r :
  invalid_options c = false → queue_init s c = (r, k) → (0 ≤ r)%Z →
  match loop_new s c with
  | inr (d', budget) => budget = o_budget c ∧ d_event d' = sys_eventfd s ∧ (0 ≤ d_event d')%Z ∧
      d_registered d' = o_register_fd c ∧ d_watching d' = negb (d_iopoll d') ∧ d_drains d' = 0
  | inl (_, rel) => queue_exit ∈ rel ∧
      (close_event ∈ rel ↔ ring_refused s c k = false ∧ (0 ≤ sys_eventfd s)%Z) ∧
      (unregister_fd ∈ rel ↔ ring_registered s c k = true)
  end.
Proof.
  intros Hi Hq Hr. unfold loop_new. rewrite Hi, Hq, bool_decide_eq_false_2 by lia.
  match goal with |- context [setup_ring s c ?d] => pose proof (setup_ring_post s c d eq_refl eq_refl) as H; revert H end.
  unfold post. destruct (setup_ring s c _) as [[] d'|e d'| |]; [| |done..].
  - intros (H&He&W1&W2). injection H as H1 H2 H3 H4. simpl in H3, H4. simpl in W1, W2. rewrite H1, H2, H3, H4.
    split_and!; [done..| |done]. destruct (has _ _); [by rewrite W2|by rewrite W1].
  - intros [H1 H2]. simpl in H1, H2. unfold release_of. rewrite H1. split_and!.
    + rewrite !elem_of_app, list_elem_of_singleton. tauto.
    + rewrite <-H2. case_bool_decide; destruct (ring_registered s c k); set_solver.
    + case_bool_decide; destruct (ring_registered s c k); set_solver.
Qed.
End setup.
