(* ===== verification/Registered.v ===== *)
(** * Registered tables and typed operations (src/uring_ops.cpp, src/uring_extra.cpp)

    File and buffer tables registered with a ring, the native operations built on them,
    and the typed system calls.  Results of liburing registration calls are arguments.
    Sizes and offsets are [std::size_t] / [std::uint64_t] values. *)
From S2P Require Import Prelude ReadyQueue Links Core Uring Frame.
From stdpp Require Import relations.

Definition INT_MAX : Z := 2 ^ 31 - 1.
Definition INT64_MAX : Z := 2 ^ 63 - 1.
Definition IOV_MAX : Z := 1024.
Definition AT_FDCWD : Z := -100.
Definition O_CLOEXEC : Z := 0x80000.
Definition IOSQE_IO_LINK : Z := 2.        (** bit numbers *)
Definition IOSQE_IO_HARDLINK : Z := 3.
Definition IOSQE_BUFFER_SELECT : Z := 5.
Definition IOSQE_CQE_SKIP_SUCCESS : Z := 6.
Definition IORING_FSYNC_DATASYNC : Z := 1.

(** [class files], [class buffers] (a region is its base, 0 when null, and its length),
    and [class op] *)
Record files := Files { f_loop : loopid; f_size : Z; f_active : nat }.
Record buffers := Buffers { b_loop : loopid; b_regions : list (nat * Z); b_active : nat }.
Record uop := Uop { u_loop : loopid; u_sqe : sqe; u_files : option loc; u_buffers : option loc;
                    u_direction : option loc; u_active : bool; u_result : result_fn }.
(** A listening socket: its loop, descriptor and read direction. *)
Record listener := Listener { ls_loop : loopid; ls_fd : Z; ls_reading : loc }.
Record registry := Registry {
  g_here : gset loopid;          (** the loops owned by this thread *)
  g_files : gmap loc files;
  g_buffers : gmap loc buffers;
  g_ops : gmap loc uop }.
Implicit Types (s : registry) (L : loopid) (x y : loc) (e : sqe).
Local Abbreviation M := (M registry).

Definition set_g_files (v : gmap loc files) s : registry := Registry (g_here s) v (g_buffers s) (g_ops s).
Definition set_g_buffers (v : gmap loc buffers) s : registry := Registry (g_here s) (g_files s) v (g_ops s).
Definition set_g_ops (v : gmap loc uop) s : registry := Registry (g_here s) (g_files s) (g_buffers s) v.
Definition check_loop L : M unit :=
  s ← get; if decide (L ∈ g_here s) then mret tt else throw (logic_error "wrong loop thread").
Definition the_files x : M files := deref (λ s, g_files s !! x).
Definition the_buffers x : M buffers := deref (λ s, g_buffers s !! x).
Definition upd_files x (f : files → files) : M unit := v ← the_files x; modify (λ s, set_g_files (<[x := f v]> (g_files s)) s).
Definition upd_buffers x (f : buffers → buffers) : M unit := v ← the_buffers x; modify (λ s, set_g_buffers (<[x := f v]> (g_buffers s)) s).

(** ** Ranges *)
Definition verify (result : Z) : M unit :=
  if bool_decide (result < 0)%Z then throw (system_error (generic_error (- result))) else mret tt.
(** [void bounds(std::size_t size, std::uint64_t offset)] *)
Definition bounds (size offset : Z) : M unit :=
  if bool_decide (INT_MAX < size)%Z || bool_decide (INT64_MAX < offset)%Z || bool_decide (usize (INT64_MAX - offset) < size)%Z
  then throw (invalid_argument "uring I/O range overflow") else mret tt.
(** [io_uring_sqe transfer(int fd, std::span data, std::uint64_t offset, bool write, int slot)] *)
Definition transfer (fd : Z) (buf : nat) (size offset : Z) (write : bool) (slot : Z) : M sqe :=
  bounds size offset ;;
  mret (prepared (
    if bool_decide (0 ≤ slot)%Z then
      (if write then prep_write_fixed fd buf size offset slot else prep_read_fixed fd buf size offset slot)
    else (if write then prep_write fd buf size offset else prep_read fd buf size offset))).
(** [memory::memory(size, alignment)]: the bytes and alignment requested *)
Definition max_align : Z := 16.
Definition memory_new (size alignment : Z) : M (Z * Z) :=
  if bool_decide (size = 0)%Z || bool_decide (alignment < max_align)%Z || negb (bool_decide (alignment = 2 ^ Z.log2 alignment)%Z)
  then throw (invalid_argument "invalid aligned allocation") else mret (size, alignment).

(** ** [class op] *)
Definition standalone e : bool :=
  negb (Z.testbit (sqe_flags e) IOSQE_CQE_SKIP_SUCCESS || Z.testbit (sqe_flags e) IOSQE_IO_LINK || Z.testbit (sqe_flags e) IOSQE_IO_HARDLINK).
Definition pin_files (n : nat → nat) (f : option loc) : M unit :=
  match f with Some x => upd_files x (λ v, Files (f_loop v) (f_size v) (n (f_active v))) | None => mret tt end.
Definition pin_buffers (n : nat → nat) (b : option loc) : M unit :=
  match b with Some x => upd_buffers x (λ v, Buffers (b_loop v) (b_regions v) (n (b_active v))) | None => mret tt end.
Definition same_loop L (f b : option loc) : M bool :=
  fl ← match f with Some x => v ← the_files x; mret (bool_decide (f_loop v = L)) | None => mret true end;
  bl ← match b with Some x => v ← the_buffers x; mret (bool_decide (b_loop v = L)) | None => mret true end;
  mret (fl && bl).
(** [op::op(loop, sqe, token, files*, buffers*, bool* direction)] *)
Definition uop_new y L e (f b : option loc) (direction : option loc) : M unit :=
  check_loop L ;;
  if negb (standalone e) then throw (invalid_argument "standalone operation cannot skip or link completions") else
    ok ← same_loop L f b;
    if negb ok then throw (invalid_argument "registered resource belongs to another loop") else
      pin_files S f ;;
      pin_buffers S b ;;
      modify (λ s, set_g_ops (<[y := Uop L e f b direction false result_op]> (g_ops s)) s).
(** [op::~op()] *)
Definition uop_destroy y : M unit :=
  u ← deref (λ s, g_ops s !! y);
  if u_active u then terminate else
    pin_files pred (u_files u) ;;
    pin_buffers pred (u_buffers u) ;;
    modify (λ s, set_g_ops (delete y (g_ops s)) s).

(** ** [class files] *)
Definition files_new x L (count registered : Z) : M unit :=
  if bool_decide (count = 0)%Z || bool_decide (INT_MAX < count)%Z then throw (invalid_argument "invalid file table size") else
    check_loop L ;;
    verify registered ;;
    modify (λ s, set_g_files (<[x := Files L count 0]> (g_files s)) s).
(** [files::files(loop& loop, unsigned count)]: the same, with empty slots *)
Definition files_sparse x L (count registered : Z) : M unit := files_new x L count registered.
Definition files_destroy x (unregistered : Z) : M unit :=
  nothrow (
    v ← the_files x;
    if bool_decide (f_active v ≠ 0) then terminate else
      check_loop (f_loop v) ;;
      if bool_decide (unregistered < 0)%Z then terminate else modify (λ s, set_g_files (delete x (g_files s)) s)).
Definition files_update x (offset : Z) (count n : Z) : M Z :=
  v ← the_files x;
  check_loop (f_loop v) ;;
  if bool_decide (f_active v ≠ 0) then throw (logic_error "file table still referenced")
  else if bool_decide (f_size v < offset)%Z || bool_decide (f_size v - offset < count)%Z then throw (out_of_range "file update range")
  else if bool_decide (count = 0)%Z then mret 0%Z
  else verify n ;; mret n.
(** [void files::check(unsigned index) const] *)
Definition files_check x (index : Z) : M files :=
  v ← the_files x;
  check_loop (f_loop v) ;;
  if bool_decide (f_size v ≤ index)%Z then throw (out_of_range "file table index") else mret v.
Definition fixed_file e : sqe := set_sqe_flags (Z.lor (sqe_flags e) (2 ^ IOSQE_FIXED_FILE)) e.

Definition files_open y x (index : Z) (path : option nat) (flags mode : Z) : M unit :=
  v ← files_check x index;
  match path with
  | None => throw (invalid_argument "null path")
  | Some p => uop_new y (f_loop v) (prepared (prep_openat_direct AT_FDCWD p flags mode index)) (Some x) None None
  end.
Definition files_close y x (index : Z) : M unit :=
  v ← files_check x index;
  uop_new y (f_loop v) (prepared (prep_close_direct index)) (Some x) None None.
Definition files_socket y x (index domain type protocol : Z) : M unit :=
  v ← files_check x index;
  uop_new y (f_loop v) (prepared (prep_socket_direct domain type protocol index)) (Some x) None None.
(** [access::owner] and [access::direction] check the listener *)
Definition files_accept y x (index : Z) (l : listener) : M unit :=
  v ← files_check x index;
  check_loop (ls_loop l) ;;
  if bool_decide (ls_fd l = -1)%Z then throw (logic_error "empty socket")
  else if negb (bool_decide (ls_loop l = f_loop v)) then throw (invalid_argument "foreign listener")
  else uop_new y (f_loop v) (prepared (prep_accept_direct (ls_fd l) 0 index)) (Some x) None (Some (ls_reading l)).
Definition files_recv y x (index : Z) (buf : nat) (size flags : Z) : M unit :=
  v ← files_check x index;
  bounds size 0 ;;
  uop_new y (f_loop v) (fixed_file (prepared (prep_recv index buf size flags))) (Some x) None None.
Definition files_send y x (index : Z) (buf : nat) (size flags : Z) : M unit :=
  v ← files_check x index;
  bounds size 0 ;;
  uop_new y (f_loop v) (fixed_file (prepared (prep_send index buf size (Z.lor flags MSG_NOSIGNAL)))) (Some x) None None.
Definition files_read y x (index : Z) (buf : nat) (size offset : Z) : M unit :=
  v ← files_check x index;
  e ← transfer index buf size offset false (-1);
  uop_new y (f_loop v) (fixed_file e) (Some x) None None.
Definition files_write y x (index : Z) (buf : nat) (size offset : Z) : M unit :=
  v ← files_check x index;
  e ← transfer index buf size offset true (-1);
  uop_new y (f_loop v) (fixed_file e) (Some x) None None.

(** ** [class buffers] *)
Definition region_new (r : nat * Z) : bool :=
  negb (bool_decide (r.1 = 0) || bool_decide (r.2 = 0)%Z || bool_decide (INT_MAX < r.2)%Z).
Definition buffers_new x L (regions : list (nat * Z)) (registered : Z) : M unit :=
  if bool_decide (length regions = 0) || bool_decide (65536 < Z.of_nat (length regions))%Z then throw (invalid_argument "invalid buffer table size")
  else if negb (forallb region_new regions) then throw (invalid_argument "invalid registered buffer")
  else
    check_loop L ;;
    verify registered ;;
    modify (λ s, set_g_buffers (<[x := Buffers L regions 0]> (g_buffers s)) s).
Definition buffers_sparse x L (count : nat) (registered : Z) : M unit :=
  if bool_decide (count = 0) || bool_decide (65536 < Z.of_nat count)%Z then throw (invalid_argument "invalid buffer table size") else
    check_loop L ;;
    verify registered ;;
    modify (λ s, set_g_buffers (<[x := Buffers L (replicate count (0, 0%Z)) 0]> (g_buffers s)) s).
(** [buffers(loop& loop, const buffers& source)] *)
Definition buffers_clone x L (source : loc) (cloned : Z) : M unit :=
  check_loop L ;;
  v ← the_buffers source;
  verify cloned ;;
  modify (λ s, set_g_buffers (<[x := Buffers L (b_regions v) 0]> (g_buffers s)) s).
Definition buffers_destroy x (unregistered : Z) : M unit :=
  nothrow (
    v ← the_buffers x;
    if bool_decide (b_active v ≠ 0) then terminate else
      check_loop (b_loop v) ;;
      if bool_decide (unregistered < 0)%Z then terminate else modify (λ s, set_g_buffers (delete x (g_buffers s)) s)).
Definition region_update (r : nat * Z) : bool :=
  negb (xorb (bool_decide (r.1 = 0)) (bool_decide (r.2 = 0%Z)) || bool_decide (INT_MAX < r.2)%Z).
(** [std::copy_n(regions.begin(), n, regions_.begin() + offset)] *)
Definition copy_n (n offset : nat) (new old : list (nat * Z)) : list (nat * Z) :=
  take offset old ++ take n new ++ drop (offset + n) old.
Definition buffers_update x (offset : nat) (regions : list (nat * Z)) (n : Z) : M Z :=
  v ← the_buffers x;
  check_loop (b_loop v) ;;
  if bool_decide (b_active v ≠ 0) then throw (logic_error "buffer table still referenced")
  else if bool_decide (length (b_regions v) < offset) || bool_decide (length (b_regions v) - offset < length regions)
  then throw (out_of_range "buffer update range")
  else if negb (forallb region_update regions) then throw (invalid_argument "invalid registered buffer")
  else if bool_decide (length regions = 0) then mret 0%Z
  else
    verify n ;;
    upd_buffers x (λ v, Buffers (b_loop v) (copy_n (Z.to_nat n) offset regions (b_regions v)) (b_active v)) ;;
    mret n.
(** [std::span<std::byte> buffers::at(unsigned index) const] *)
Definition buffers_at x (index : Z) : M (nat * Z) :=
  v ← the_buffers x;
  check_loop (b_loop v) ;;
  match b_regions v !! Z.to_nat index with
  | None => throw (out_of_range "vector::at")
  | Some r => if bool_decide (r.1 = 0) then throw (logic_error "empty buffer slot") else mret r
  end.
(** [files::read] and [files::write] on a registered buffer *)
Definition files_fixed y x (index : Z) (table : loc) (slot offset : Z) (write : bool) : M unit :=
  v ← files_check x index;
  r ← buffers_at table slot;
  e ← transfer index r.1 r.2 offset write slot;
  uop_new y (f_loop v) (fixed_file e) (Some x) (Some table) None.

(** ** Operations without tables *)
Definition read y L (fd : Z) (buf : nat) (size offset : Z) : M unit :=
  e ← transfer fd buf size offset false (-1); uop_new y L e None None None.
Definition write y L (fd : Z) (buf : nat) (size offset : Z) : M unit :=
  e ← transfer fd buf size offset true (-1); uop_new y L e None None None.
Definition nop y L : M unit := uop_new y L (prepared prep_nop) None None None.

Definition path (p : option nat) : M nat := match p with None => throw (invalid_argument "null path") | Some p => mret p end.
(** [void vectors(std::span<const iovec> data, std::uint64_t offset)]: the loop keeps a
    [std::uint64_t] total *)
Fixpoint vectors_loop (data : list (nat * Z)) (total : Z) : M Z :=
  match data with
  | [] => mret total
  | v :: data' =>
      if bool_decide (usize (INT_MAX - total) < v.2)%Z || (bool_decide (v.1 = 0) && negb (bool_decide (v.2 = 0)%Z))
      then throw (invalid_argument "invalid I/O vector")
      else vectors_loop data' (usize (total + v.2))
  end.
Definition vectors (data : list (nat * Z)) (offset : Z) : M unit :=
  if bool_decide (IOV_MAX < Z.of_nat (length data))%Z || bool_decide (INT64_MAX < offset)%Z
  then throw (invalid_argument "invalid vector range") else
    total ← vectors_loop data 0;
    if bool_decide (usize (INT64_MAX - offset) < total)%Z then throw (invalid_argument "vector offset overflow") else mret tt.

(** [open_op] installs its own handler *)
Definition open_op y L e : M unit :=
  uop_new y L e None None None ;;
  u ← deref (λ s, g_ops s !! y);
  modify (λ s, set_g_ops (<[y := Uop (u_loop u) (u_sqe u) (u_files u) (u_buffers u) (u_direction u) (u_active u) result_open]> (g_ops s)) s).
Definition openat y L (dir : Z) (name : option nat) (flags mode : Z) : M unit :=
  p ← path name; open_op y L (prepared (prep_openat dir p (Z.lor flags O_CLOEXEC) mode)).
Definition statx y L (dir : Z) (name : option nat) (out : nat) (mask flags : Z) : M unit :=
  p ← path name; uop_new y L (prepared (prep_statx dir p flags mask out)) None None None.
Definition rename y L (from to : option nat) (flags : Z) : M unit :=
  a ← path from; b ← path to; uop_new y L (prepared (prep_renameat a b flags)) None None None.
Definition unlink y L (name : option nat) (flags : Z) : M unit :=
  p ← path name; uop_new y L (prepared (prep_unlink p flags)) None None None.
Definition mkdir y L (name : option nat) (mode : Z) : M unit :=
  p ← path name; uop_new y L (prepared (prep_mkdir p mode)) None None None.
Definition fsync y L (file : Z) (data_only : bool) : M unit :=
  uop_new y L (prepared (prep_fsync file (if data_only then IORING_FSYNC_DATASYNC else 0))) None None None.
Definition fallocate y L (file offset length mode : Z) : M unit :=
  if bool_decide (INT64_MAX < offset)%Z || bool_decide (usize (INT64_MAX - offset) < length)%Z
  then throw (invalid_argument "extent overflow")
  else uop_new y L (prepared (prep_fallocate file mode offset length)) None None None.
Definition readv y L (file : Z) (vec : nat) (data : list (nat * Z)) (offset : Z) : M unit :=
  vectors data offset ;; uop_new y L (prepared (prep_readv file vec (Z.of_nat (length data)) offset)) None None None.
Definition writev y L (file : Z) (vec : nat) (data : list (nat * Z)) (offset : Z) : M unit :=
  vectors data offset ;; uop_new y L (prepared (prep_writev file vec (Z.of_nat (length data)) offset)) None None None.
Definition splice y L (in_fd in_offset out_fd out_offset size flags : Z) : M unit :=
  if bool_decide (INT_MAX < size)%Z || bool_decide (in_offset < -1)%Z || bool_decide (out_offset < -1)%Z
  then throw (invalid_argument "invalid splice range")
  else uop_new y L (prepared (prep_splice in_fd in_offset out_fd out_offset size flags)) None None None.
Definition waitid y L (type id : Z) (out : nat) (options : Z) : M unit :=
  uop_new y L (prepared (prep_waitid type id out options)) None None None.
Definition poll_fd y L (file events : Z) : M unit :=
  uop_new y L (prepared (prep_poll_add file events)) None None None.

(** [workers], [affinity] and [napi] *)
Definition workers L (registered : Z) (limits : Z * Z) : M (Z * Z) :=
  check_loop L ;; verify registered ;; mret limits.
Definition affinity L (registered : Z) : M unit := check_loop L ;; verify registered.
Definition napi L (registered : Z) : M unit := check_loop L ;; verify registered.
(** [bool supports(loop& loop, unsigned opcode)]; [probe] is what [io_uring_get_probe_ring]
    returns, with [errno] when it fails *)
Definition ENOMEM : Z := 12.
Definition supports L (probe : option (Z → bool)) (errno opcode : Z) : M bool :=
  check_loop L ;;
  match probe with
  | None => throw (system_error (generic_error (if bool_decide (errno = 0)%Z then ENOMEM else errno)))
  | Some supported => mret (supported opcode)
  end.

(** ** Invariant: pins *)

(** The number of live operations that refer to a table. *)
Definition pinning (sel : uop → option loc) x s : nat :=
  length (filter (λ p, sel p.2 = Some x) (map_to_list (g_ops s))).
Record pinned s : Prop := {
  pn_files x v : g_files s !! x = Some v → f_active v = pinning u_files x s;
  pn_buffers x v : g_buffers s !! x = Some v → b_active v = pinning u_buffers x s;
  pn_file_of y u x : g_ops s !! y = Some u → u_files u = Some x → ∃ v, g_files s !! x = Some v ∧ f_loop v = u_loop u;
  pn_buffer_of y u x : g_ops s !! y = Some u → u_buffers u = Some x → ∃ v, g_buffers s !! x = Some v ∧ b_loop v = u_loop u }.

Lemma pinning_insert sel x y u (m : gmap loc uop) s :
  m !! y = None → pinning sel x (set_g_ops (<[y := u]> m) s) = (if decide (sel u = Some x) then 1 else 0) + pinning sel x (set_g_ops m s).
Proof.
  intros Hy. unfold pinning. simpl. rewrite (map_to_list_insert m y u Hy). rewrite filter_cons. simpl. by destruct (decide _).
Qed.
Lemma pinning_delete sel x y u s :
  g_ops s !! y = Some u → pinning sel x s = (if decide (sel u = Some x) then 1 else 0) + pinning sel x (set_g_ops (delete y (g_ops s)) s).
Proof.
  intros Hy. rewrite <- (pinning_insert sel x y u (delete y (g_ops s))) by apply lookup_delete_eq.
  rewrite insert_delete_id by done. by destruct s.
Qed.
Lemma pinning_same sel x s s' : g_ops s' = g_ops s → pinning sel x s' = pinning sel x s.
Proof. intros E. unfold pinning. by rewrite E. Qed.
Lemma pinning_none sel x s : (∀ y u, g_ops s !! y = Some u → sel u ≠ Some x) → pinning sel x s = 0.
Proof.
  intros H. unfold pinning. rewrite (filter_agree _ (λ _, False)); [|intros [y u] Hyu%elem_of_map_to_list; simpl; split; [apply (H _ _ Hyu)|done]].
  by induction (map_to_list (g_ops s)).
Qed.

(** ** Rules *)
Lemma post_check_loop L s (Q : unit → registry → Prop) E :
  (L ∈ g_here s → Q tt s) → (L ∉ g_here s → E (logic_error "wrong loop thread") s) → post (check_loop L) s Q E.
Proof.
  intros H1 H2. unfold check_loop. apply post_bind. unfold post at 1, get. destruct (decide _); [apply post_ret|apply post_throw]; auto.
Qed.
Lemma post_verify n s (Q : unit → registry → Prop) (E : exn → registry → Prop) :
  ((0 ≤ n)%Z → Q tt s) → (∀ ex, E ex s) → post (verify n) s Q E.
Proof. intros H1 H2. unfold verify. case_bool_decide; [by apply post_throw|]. apply post_ret, H1. lia. Qed.
Lemma post_upd_files x f v s (Q : unit → registry → Prop) E :
  g_files s !! x = Some v → Q tt (set_g_files (<[x := f v]> (g_files s)) s) → post (upd_files x f) s Q E.
Proof. intros Hv HQ. unfold upd_files. eapply post_bind, post_deref; [done|]. by apply post_modify. Qed.
Lemma post_upd_buffers x f v s (Q : unit → registry → Prop) E :
  g_buffers s !! x = Some v → Q tt (set_g_buffers (<[x := f v]> (g_buffers s)) s) → post (upd_buffers x f) s Q E.
Proof. intros Hv HQ. unfold upd_buffers. eapply post_bind, post_deref; [done|]. by apply post_modify. Qed.

(** The tables after a change of the pin counts. *)
Definition repin_files (n : nat → nat) (f : option loc) s : registry :=
  match f with
  | Some x => set_g_files (alter (λ v, Files (f_loop v) (f_size v) (n (f_active v))) x (g_files s)) s
  | None => s
  end.
Definition repin_buffers (n : nat → nat) (b : option loc) s : registry :=
  match b with
  | Some x => set_g_buffers (alter (λ v, Buffers (b_loop v) (b_regions v) (n (b_active v))) x (g_buffers s)) s
  | None => s
  end.
Lemma alter_insert {A} (m : gmap loc A) x f v : m !! x = Some v → alter f x m = <[x := f v]> m.
Proof.
  intros Hv. apply map_eq. intros y. destruct (decide (x = y)) as [<-|]; [by rewrite lookup_alter_eq, Hv, lookup_insert_eq|].
  by rewrite lookup_alter_ne, lookup_insert_ne.
Qed.
Lemma pin_files_run n f s :
  (∀ x, f = Some x → is_Some (g_files s !! x)) → pin_files n f s = Ret tt (repin_files n f s).
Proof.
  intros Hf. destruct f as [x|]; [|done]. destruct (Hf x eq_refl) as [v Hv]. simpl.
  unfold upd_files, the_files, mbind, M_bind, deref. rewrite Hv. simpl. by rewrite (alter_insert _ _ _ v).
Qed.
Lemma pin_buffers_run n b s :
  (∀ x, b = Some x → is_Some (g_buffers s !! x)) → pin_buffers n b s = Ret tt (repin_buffers n b s).
Proof.
  intros Hf. destruct b as [x|]; [|done]. destruct (Hf x eq_refl) as [v Hv]. simpl.
  unfold upd_buffers, the_buffers, mbind, M_bind, deref. rewrite Hv. simpl. by rewrite (alter_insert _ _ _ v).
Qed.
Lemma repin_files_lookup n f s x :
  g_files (repin_files n f s) !! x =
    (λ v, if decide (f = Some x) then Files (f_loop v) (f_size v) (n (f_active v)) else v) <$> g_files s !! x.
Proof.
  destruct f as [y|]; simpl; [|by destruct (g_files s !! x)]. destruct (decide (y = x)) as [<-|Hne].
  - rewrite lookup_alter_eq. by destruct (g_files s !! y); simpl; [destruct (decide _)|].
  - rewrite lookup_alter_ne by done. destruct (g_files s !! x); simpl; [|done]. destruct (decide _); [congruence|done].
Qed.
Lemma repin_buffers_lookup n b s x :
  g_buffers (repin_buffers n b s) !! x =
    (λ v, if decide (b = Some x) then Buffers (b_loop v) (b_regions v) (n (b_active v)) else v) <$> g_buffers s !! x.
Proof.
  destruct b as [y|]; simpl; [|by destruct (g_buffers s !! x)]. destruct (decide (y = x)) as [<-|Hne].
  - rewrite lookup_alter_eq. by destruct (g_buffers s !! y); simpl; [destruct (decide _)|].
  - rewrite lookup_alter_ne by done. destruct (g_buffers s !! x); simpl; [|done]. destruct (decide _); [congruence|done].
Qed.
Lemma repin_files_other n f s : g_buffers (repin_files n f s) = g_buffers s ∧ g_ops (repin_files n f s) = g_ops s ∧ g_here (repin_files n f s) = g_here s.
Proof. by destruct f. Qed.
Lemma repin_buffers_other n b s : g_files (repin_buffers n b s) = g_files s ∧ g_ops (repin_buffers n b s) = g_ops s ∧ g_here (repin_buffers n b s) = g_here s.
Proof. by destruct b. Qed.
(** Both tables repinned and the operations replaced. *)
Definition repinned (n : nat → nat) (f b : option loc) (ops : gmap loc uop) s : registry :=
  set_g_ops ops (repin_buffers n b (repin_files n f s)).

Lemma same_loop_run L f b s :
  (∀ x, f = Some x → is_Some (g_files s !! x)) → (∀ x, b = Some x → is_Some (g_buffers s !! x)) →
  ∃ r, same_loop L f b s = Ret r s ∧ (r = true →
    (∀ x, f = Some x → ∃ v, g_files s !! x = Some v ∧ f_loop v = L) ∧ (∀ x, b = Some x → ∃ v, g_buffers s !! x = Some v ∧ b_loop v = L)).
Proof.
  intros Hf Hb. unfold same_loop, the_files, the_buffers, mbind, M_bind, deref.
  destruct f as [x|]; [destruct (Hf x eq_refl) as [v Hv]; rewrite Hv; simpl|simpl];
    (destruct b as [z|]; [destruct (Hb z eq_refl) as [vb Hvb]; rewrite Hvb; simpl|simpl]).
  all: eexists; split; [reflexivity|]; intros Hr; repeat (apply andb_true_iff in Hr as [Hr ?]);
    repeat match goal with H : bool_decide _ = true |- _ => apply bool_decide_eq_true in H end; split; naive_solver.
Qed.

Lemma uop_new_spec y L e f b dir s :
  g_ops s !! y = None → (∀ x, f = Some x → is_Some (g_files s !! x)) → (∀ x, b = Some x → is_Some (g_buffers s !! x)) →
  post (uop_new y L e f b dir) s
    (λ _ s', s' = repinned S f b (<[y := Uop L e f b dir false result_op]> (g_ops s)) s ∧ standalone e = true ∧ L ∈ g_here s ∧
       (∀ x, f = Some x → ∃ v, g_files s !! x = Some v ∧ f_loop v = L) ∧ (∀ x, b = Some x → ∃ v, g_buffers s !! x = Some v ∧ b_loop v = L))
    (λ _ s', s' = s).
Proof.
  intros Hy Hf Hb. unfold uop_new. apply post_bind. apply post_check_loop; [intros HL|done].
  destruct (standalone e) eqn:He; [|by apply post_throw]. simpl.
  destruct (same_loop_run L f b s Hf Hb) as (r&Hr&Hok). apply post_bind. unfold post at 1. rewrite Hr.
  destruct r; [|by apply post_throw]. simpl. destruct (Hok eq_refl) as [H1 H2].
  apply post_bind. unfold post at 1. rewrite pin_files_run by done. destruct (repin_files_other S f s) as (E1&E2&E3).
  apply post_bind. unfold post at 1. rewrite pin_buffers_run by (intros x Hx; rewrite E1; auto).
  apply post_modify. split_and!; try done. unfold repinned. destruct (repin_buffers_other S b (repin_files S f s)) as (_&->&_). by rewrite E2.
Qed.

Lemma repinned_files n f b ops s x v :
  g_files (repinned n f b ops s) !! x = Some v →
  ∃ v0, g_files s !! x = Some v0 ∧ f_loop v = f_loop v0 ∧ f_size v = f_size v0 ∧ f_active v = if decide (f = Some x) then n (f_active v0) else f_active v0.
Proof.
  unfold repinned. simpl. destruct (repin_buffers_other n b (repin_files n f s)) as (->&_). rewrite repin_files_lookup.
  intros (v0&->&Hv)%fmap_Some. exists v0. rewrite Hv. by destruct (decide _).
Qed.
Lemma repinned_buffers n f b ops s x v :
  g_buffers (repinned n f b ops s) !! x = Some v →
  ∃ v0, g_buffers s !! x = Some v0 ∧ b_loop v = b_loop v0 ∧ b_active v = if decide (b = Some x) then n (b_active v0) else b_active v0.
Proof.
  unfold repinned. simpl. rewrite repin_buffers_lookup. destruct (repin_files_other n f s) as (->&_).
  intros (v0&->&Hv)%fmap_Some. exists v0. rewrite Hv. by destruct (decide _).
Qed.
Lemma repinned_has_file n f b ops s x v :
  g_files s !! x = Some v → ∃ v', g_files (repinned n f b ops s) !! x = Some v' ∧ f_loop v' = f_loop v.
Proof.
  intros Hv. unfold repinned. simpl. destruct (repin_buffers_other n b (repin_files n f s)) as (->&_). rewrite repin_files_lookup, Hv.
  eexists. split; [done|]. by destruct (decide _).
Qed.
Lemma repinned_has_buffer n f b ops s x v :
  g_buffers s !! x = Some v → ∃ v', g_buffers (repinned n f b ops s) !! x = Some v' ∧ b_loop v' = b_loop v.
Proof.
  intros Hv. unfold repinned. simpl. rewrite repin_buffers_lookup. destruct (repin_files_other n f s) as (->&_). rewrite Hv.
  eexists. split; [done|]. by destruct (decide _).
Qed.

Lemma uop_new_pinned y L e f b dir s s' :
  pinned s → g_ops s !! y = None → uop_new y L e f b dir s = Ret tt s' →
  (∀ x, f = Some x → is_Some (g_files s !! x)) → (∀ x, b = Some x → is_Some (g_buffers s !! x)) → pinned s'.
Proof.
  intros [P1 P2 P3 P4] Hy Hr Hf Hb. pose proof (uop_new_spec y L e f b dir s Hy Hf Hb) as H. unfold post in H. rewrite Hr in H.
  destruct H as (->&_&_&H1&H2). set (u := Uop L e f b dir false result_op).
  assert (∀ sel x, pinning sel x (repinned S f b (<[y := u]> (g_ops s)) s) = (if decide (sel u = Some x) then 1 else 0) + pinning sel x s) as Hp.
  { intros sel x. rewrite (pinning_same sel x (set_g_ops (<[y := u]> (g_ops s)) s)) by done. rewrite pinning_insert by done. by destruct s. }
  split.
  - intros x v (v0&Hv0&_&_&->)%repinned_files. rewrite Hp, (P1 _ _ Hv0). simpl. by destruct (decide (f = Some x)).
  - intros x v (v0&Hv0&_&->)%repinned_buffers. rewrite Hp, (P2 _ _ Hv0). simpl. by destruct (decide (b = Some x)).
  - intros z u' x Hz Hx. simpl in Hz. apply lookup_insert_Some in Hz as [[<- <-]|[_ Hz]].
    + destruct (H1 x Hx) as (v&Hv&Hl). destruct (repinned_has_file S f b (<[y := u]> (g_ops s)) s x v Hv) as (v'&?&?).
      exists v'. split; [done|]. simpl. congruence.
    + destruct (P3 _ _ _ Hz Hx) as (v&Hv&Hl). destruct (repinned_has_file S f b (<[y := u]> (g_ops s)) s x v Hv) as (v'&?&?).
      exists v'. split; [done|congruence].
  - intros z u' x Hz Hx. simpl in Hz. apply lookup_insert_Some in Hz as [[<- <-]|[_ Hz]].
    + destruct (H2 x Hx) as (v&Hv&Hl). destruct (repinned_has_buffer S f b (<[y := u]> (g_ops s)) s x v Hv) as (v'&?&?).
      exists v'. split; [done|]. simpl. congruence.
    + destruct (P4 _ _ _ Hz Hx) as (v&Hv&Hl). destruct (repinned_has_buffer S f b (<[y := u]> (g_ops s)) s x v Hv) as (v'&?&?).
      exists v'. split; [done|congruence].
Qed.

Lemma uop_destroy_pinned y s s' : pinned s → uop_destroy y s = Ret tt s' → pinned s' ∧ g_ops s' = delete y (g_ops s).
Proof.
  intros [P1 P2 P3 P4] Hr. unfold uop_destroy in Hr. unfold mbind at 1, M_bind at 1, deref in Hr.
  destruct (g_ops s !! y) as [u|] eqn:Hy; [|done]. destruct (u_active u); [done|].
  unfold mbind, M_bind in Hr. rewrite pin_files_run in Hr by (intros x Hx; destruct (P3 _ _ _ Hy Hx) as (?&?&_); eauto).
  destruct (repin_files_other pred (u_files u) s) as (E1&E2&E3).
  rewrite pin_buffers_run in Hr by (intros x Hx; rewrite E1; destruct (P4 _ _ _ Hy Hx) as (?&?&_); eauto).
  assert (s' = repinned pred (u_files u) (u_buffers u) (delete y (g_ops s)) s) as ->.
  { injection Hr as <-. unfold repinned. destruct (repin_buffers_other pred (u_buffers u) (repin_files pred (u_files u) s)) as (_&->&_). by rewrite E2. }
  assert (∀ sel x, pinning sel x s = (if decide (sel u = Some x) then 1 else 0) + pinning sel x (repinned pred (u_files u) (u_buffers u) (delete y (g_ops s)) s)) as Hp.
  { intros sel x. by rewrite (pinning_delete sel x y u s Hy). }
  split; [|done]. split.
  - intros x v (v0&Hv0&_&_&->)%repinned_files. rewrite (P1 _ _ Hv0), Hp. by destruct (decide (u_files u = Some x)).
  - intros x v (v0&Hv0&_&->)%repinned_buffers. rewrite (P2 _ _ Hv0), Hp. by destruct (decide (u_buffers u = Some x)).
  - intros z u' x Hz Hx. simpl in Hz. apply lookup_delete_Some in Hz as [_ Hz]. destruct (P3 _ _ _ Hz Hx) as (v&Hv&<-). by apply repinned_has_file.
  - intros z u' x Hz Hx. simpl in Hz. apply lookup_delete_Some in Hz as [_ Hz]. destruct (P4 _ _ _ Hz Hx) as (v&Hv&<-). by apply repinned_has_buffer.
Qed.

(** The operations of [class files], by their arguments, and the buffer table they pin *)
Inductive file_request :=
| fr_open (name : option nat) (flags mode : Z)
| fr_close
| fr_socket (domain type protocol : Z)
| fr_accept (l : listener)
| fr_recv (buf : nat) (size flags : Z)
| fr_send (buf : nat) (size flags : Z)
| fr_read (buf : nat) (size offset : Z)
| fr_write (buf : nat) (size offset : Z)
| fr_fixed (table : loc) (slot offset : Z) (write : bool).
Definition request y x (index : Z) (r : file_request) : M unit :=
  match r with
  | fr_open name flags mode => files_open y x index name flags mode
  | fr_close => files_close y x index
  | fr_socket d t p => files_socket y x index d t p
  | fr_accept l => files_accept y x index l
  | fr_recv buf size flags => files_recv y x index buf size flags
  | fr_send buf size flags => files_send y x index buf size flags
  | fr_read buf size offset => files_read y x index buf size offset
  | fr_write buf size offset => files_write y x index buf size offset
  | fr_fixed table slot offset write => files_fixed y x index table slot offset write
  end.
Definition pins (r : file_request) : option loc := match r with fr_fixed table _ _ _ => Some table | _ => None end.

(** ** Histories of tables and operations *)

(** The loop arms and completes an operation. *)
Definition set_active y (b : bool) : M unit :=
  u ← deref (λ s, g_ops s !! y);
  modify (λ s, set_g_ops (<[y := Uop (u_loop u) (u_sqe u) (u_files u) (u_buffers u) (u_direction u) b (u_result u)]> (g_ops s)) s).
(** Every call on tables and operations: constructors, members and destructors *)
Inductive reg_call :=
| rc_op y L e (f b d : option loc)
| rc_request y x (index : Z) (r : file_request)
| rc_active y (b : bool)
| rc_op_end y
| rc_files x L (count registered : Z)
| rc_files_sparse x L (count registered : Z)
| rc_files_update x (offset count n : Z)
| rc_files_end x (unregistered : Z)
| rc_buffers x L (regions : list (nat * Z)) (registered : Z)
| rc_buffers_sparse x L (count : nat) (registered : Z)
| rc_buffers_clone x L (source : loc) (cloned : Z)
| rc_buffers_update x (offset : nat) (regions : list (nat * Z)) (n : Z)
| rc_buffers_end x (unregistered : Z).
Definition run_call (c : reg_call) : M unit :=
  match c with
  | rc_op y L e f b d => uop_new y L e f b d
  | rc_request y x index r => request y x index r
  | rc_active y b => set_active y b
  | rc_op_end y => uop_destroy y
  | rc_files x L count r => files_new x L count r
  | rc_files_sparse x L count r => files_sparse x L count r
  | rc_files_update x offset count n => files_update x offset count n ;; mret tt
  | rc_files_end x r => files_destroy x r
  | rc_buffers x L regions r => buffers_new x L regions r
  | rc_buffers_sparse x L count r => buffers_sparse x L count r
  | rc_buffers_clone x L source r => buffers_clone x L source r
  | rc_buffers_update x offset regions n => buffers_update x offset regions n ;; mret tt
  | rc_buffers_end x r => buffers_destroy x r
  end.
(** A constructor works on fresh memory, and the tables an operation is given are alive. *)
Definition call_ok (c : reg_call) s : Prop :=
  match c with
  | rc_op y _ _ f b _ => g_ops s !! y = None ∧ (∀ x, f = Some x → is_Some (g_files s !! x)) ∧ (∀ x, b = Some x → is_Some (g_buffers s !! x))
  | rc_request y x _ r => g_ops s !! y = None ∧ is_Some (g_files s !! x) ∧ (∀ t, pins r = Some t → is_Some (g_buffers s !! t))
  | rc_files x _ _ _ | rc_files_sparse x _ _ _ => g_files s !! x = None
  | rc_buffers x _ _ _ | rc_buffers_sparse x _ _ _ | rc_buffers_clone x _ _ _ => g_buffers s !! x = None
  | _ => True
  end.
(** A call returns, or is refused with an exception. *)
Inductive reg_step s : registry → Prop :=
| step_ret c s' : call_ok c s → run_call c s = Ret tt s' → reg_step s s'
| step_throw c (ex : exn) s' : call_ok c s → run_call c s = Throw ex s' → reg_step s s'.

(** ** A refused call has no effect *)

(** Guards leave the state alone; a refused call has done nothing but test guards. *)
Definition guards {A} (c : M A) : Prop := ∀ s, match c s with Ret _ s' | Throw _ s' => s' = s | _ => True end.
Definition never_throws {A} (c : M A) : Prop := ∀ s (ex : exn) s', c s ≠ Throw ex s'.
Definition refuses {A} (c : M A) : Prop := ∀ s (ex : exn) s', c s = Throw ex s' → s' = s.
Lemma guards_bind {A B} (c : M A) (k : A → M B) : guards c → (∀ a, guards (k a)) → guards (c ≫= k).
Proof.
  intros Hc Hk s. unfold mbind, M_bind. specialize (Hc s). destruct (c s) as [a s1|e s1| |]; try done. subst. apply Hk.
Qed.
Lemma refuses_bind {A B} (c : M A) (k : A → M B) : guards c → (∀ a, refuses (k a)) → refuses (c ≫= k).
Proof.
  intros Hc Hk s e s'. unfold mbind, M_bind. specialize (Hc s). destruct (c s) as [a s1|? s1| |]; try done; [subst; apply Hk|].
  intros [= _ <-]. done.
Qed.
Lemma never_bind {A B} (c : M A) (k : A → M B) : never_throws c → (∀ a, never_throws (k a)) → never_throws (c ≫= k).
Proof. intros Hc Hk s e s'. unfold mbind, M_bind. specialize (Hc s). destruct (c s) as [a s1|? s1| |]; try done; [apply Hk|by destruct (Hc _ _ eq_refl)]. Qed.
Lemma refuses_then {A B} (c : M A) (k : A → M B) : refuses c → (∀ a, never_throws (k a)) → refuses (c ≫= k).
Proof.
  intros Hc Hk s e s'. unfold mbind, M_bind. specialize (Hc s). destruct (c s) as [a s1|? s1| |]; try done.
  - intros H. by destruct (Hk _ _ _ _ H).
  - intros [= _ <-]. by eapply Hc.
Qed.
Lemma refuses_never {A} (c : M A) : never_throws c → refuses c.
Proof. intros Hc s e s' H. by destruct (Hc _ _ _ H). Qed.
Lemma refuses_guards {A} (c : M A) : guards c → refuses c.
Proof. intros Hc s e s' H. specialize (Hc s). by rewrite H in Hc. Qed.
Lemma guards_ret {A} (a : A) : guards (mret a). Proof. done. Qed.
Lemma guards_throw {A} (ex : exn) : guards (throw ex : M A). Proof. done. Qed.
Lemma guards_deref {A} (f : registry → option A) : guards (deref f).
Proof. intros s. unfold deref. by destruct (f s). Qed.
Lemma guards_if {A} (b : bool) (c d : M A) : guards c → guards d → guards (if b then c else d).
Proof. by destruct b. Qed.
Lemma refuses_if {A} (b : bool) (c d : M A) : refuses c → refuses d → refuses (if b then c else d).
Proof. by destruct b. Qed.
Lemma guards_check_loop L : guards (check_loop L).
Proof. intros s. unfold check_loop, mbind, M_bind, get. by destruct (decide _). Qed.
Lemma guards_verify n : guards (verify n).
Proof. unfold verify. by apply guards_if. Qed.
Lemma guards_bounds size offset : guards (bounds size offset).
Proof. unfold bounds. by apply guards_if. Qed.
Lemma never_modify f : never_throws (modify f : M unit). Proof. done. Qed.
Lemma never_ret {A} (a : A) : never_throws (mret a : M A). Proof. done. Qed.
Lemma never_deref {A} (f : registry → option A) : never_throws (deref f).
Proof. intros s e s'. unfold deref. by destruct (f s). Qed.
Create HintDb guards.
#[local] Hint Resolve guards_bind guards_ret guards_throw guards_deref guards_if guards_check_loop guards_verify guards_bounds
  never_bind never_modify never_ret never_deref refuses_bind refuses_if : guards.
#[local] Hint Extern 5 (refuses (throw _)) => apply refuses_guards, guards_throw : guards.
#[local] Hint Extern 5 (refuses (mret _)) => apply refuses_guards, guards_ret : guards.
#[local] Hint Extern 5 (refuses (modify _)) => apply refuses_never, never_modify : guards.
Lemma guards_transfer fd buf size offset write slot : guards (transfer fd buf size offset write slot).
Proof. unfold transfer. auto with guards. Qed.
Lemma guards_files_check x index : guards (files_check x index).
Proof. unfold files_check, the_files. auto 8 with guards. Qed.
Lemma guards_buffers_at x index : guards (buffers_at x index).
Proof.
  unfold buffers_at, the_buffers. apply guards_bind; [auto with guards|]. intros v. apply guards_bind; [auto with guards|].
  intros _. destruct (b_regions v !! Z.to_nat index); auto with guards.
Qed.
Lemma guards_same_loop L f b : guards (same_loop L f b).
Proof.
  unfold same_loop, the_files, the_buffers. apply guards_bind; [destruct f; auto with guards|]. intros fl.
  apply guards_bind; [destruct b; auto with guards|auto with guards].
Qed.
Lemma never_pin_files n f : never_throws (pin_files n f).
Proof. destruct f; [|done]. simpl. unfold upd_files, the_files. auto with guards. Qed.
Lemma never_pin_buffers n b : never_throws (pin_buffers n b).
Proof. destruct b; [|done]. simpl. unfold upd_buffers, the_buffers. auto with guards. Qed.
Lemma nothrow_never {A} (c : M A) : never_throws (nothrow c).
Proof. intros s e s'. unfold nothrow. by destruct (c s). Qed.
#[local] Hint Resolve guards_transfer guards_files_check guards_buffers_at guards_same_loop never_pin_files never_pin_buffers : guards.
Lemma refuses_op y L e f b d : refuses (uop_new y L e f b d).
Proof.
  unfold uop_new. apply refuses_bind; [auto with guards|]. intros _. apply refuses_if; [auto with guards|].
  apply refuses_bind; [auto with guards|]. intros ok. apply refuses_if; [auto with guards|]. apply refuses_never. auto with guards.
Qed.
#[local] Hint Resolve refuses_op : guards.
Lemma refuses_request y x index r : refuses (request y x index r).
Proof.
  destruct r as [[name|] flags mode| | | | | | | |]; simpl;
    unfold files_open, files_close, files_socket, files_accept, files_recv, files_send, files_read, files_write, files_fixed; auto 8 with guards.
Qed.
Lemma run_call_refuses c : refuses (run_call c).
Proof.
  destruct c as [y L e f b d|y x index r|y b|y|x L c r|x L c r|x o c n|x r|x L rs r|x L c r|x L src r|x o rs n|x r]; simpl.
  - apply refuses_op.
  - apply refuses_request.
  - apply refuses_never. unfold set_active. auto with guards.
  - apply refuses_never. unfold uop_destroy. apply never_bind; [auto with guards|]. intros u. destruct (u_active u); [done|auto with guards].
  - unfold files_new. auto 8 with guards.
  - unfold files_sparse, files_new. auto 8 with guards.
  - unfold files_update, the_files. apply refuses_guards. auto 12 with guards.
  - apply refuses_never, nothrow_never.
  - unfold buffers_new. auto 8 with guards.
  - unfold buffers_sparse. auto 8 with guards.
  - unfold buffers_clone, the_buffers. auto 8 with guards.
  - unfold buffers_update, the_buffers. apply refuses_then; [|done]. apply refuses_bind; [auto with guards|]. intros v.
    apply refuses_bind; [auto with guards|]. intros _. do 4 (apply refuses_if; [auto with guards|]).
    apply refuses_bind; [auto with guards|]. intros _. apply refuses_never. unfold upd_buffers, the_buffers. auto with guards.
  - apply refuses_never, nothrow_never.
Qed.

Lemma unreferenced_files x s : pinned s → g_files s !! x = None → pinning u_files x s = 0.
Proof. intros P Hx. apply pinning_none. intros y u Hy Hu. destruct (pn_file_of _ P _ _ _ Hy Hu) as (?&?&_). congruence. Qed.
Lemma unreferenced_buffers x s : pinned s → g_buffers s !! x = None → pinning u_buffers x s = 0.
Proof. intros P Hx. apply pinning_none. intros y u Hy Hu. destruct (pn_buffer_of _ P _ _ _ Hy Hu) as (?&?&_). congruence. Qed.
Lemma pinning_pos sel x y u s : g_ops s !! y = Some u → sel u = Some x → pinning sel x s ≠ 0.
Proof. intros Hy Hu. rewrite (pinning_delete sel x y u s Hy). rewrite decide_True by done. lia. Qed.

Lemma pinned_files s (m : gmap loc files) :
  pinned s → (∀ x v, m !! x = Some v → f_active v = pinning u_files x s) →
  (∀ x v, g_files s !! x = Some v → f_active v ≠ 0 → ∃ v', m !! x = Some v' ∧ f_loop v' = f_loop v) →
  pinned (set_g_files m s).
Proof.
  intros [P1 P2 P3 P4] Hm Hk. split; [exact Hm|exact P2| |exact P4].
  intros y u x Hy Hu. destruct (P3 _ _ _ Hy Hu) as (v&Hv&Hl). destruct (Hk x v Hv) as (v'&?&?).
  - rewrite (P1 _ _ Hv). by eapply pinning_pos.
  - exists v'. split; [done|congruence].
Qed.
Lemma pinned_buffers s (m : gmap loc buffers) :
  pinned s → (∀ x v, m !! x = Some v → b_active v = pinning u_buffers x s) →
  (∀ x v, g_buffers s !! x = Some v → b_active v ≠ 0 → ∃ v', m !! x = Some v' ∧ b_loop v' = b_loop v) →
  pinned (set_g_buffers m s).
Proof.
  intros [P1 P2 P3 P4] Hm Hk. split; [exact P1|exact Hm|exact P3|].
  intros y u x Hy Hu. destruct (P4 _ _ _ Hy Hu) as (v&Hv&Hl). destruct (Hk x v Hv) as (v'&?&?).
  - rewrite (P2 _ _ Hv). by eapply pinning_pos.
  - exists v'. split; [done|congruence].
Qed.
Lemma pinned_files_new x L c s :
  pinned s → g_files s !! x = None → pinned (set_g_files (<[x := Files L c 0]> (g_files s)) s).
Proof.
  intros P Hx. apply pinned_files; [done| |].
  - intros z v [[<- <-]|[_ Hz]]%lookup_insert_Some; [by rewrite unreferenced_files|by apply P].
  - intros z v Hz Ha. exists v. rewrite lookup_insert_ne; [done|congruence].
Qed.
Lemma pinned_buffers_new x L rs s :
  pinned s → g_buffers s !! x = None → pinned (set_g_buffers (<[x := Buffers L rs 0]> (g_buffers s)) s).
Proof.
  intros P Hx. apply pinned_buffers; [done| |].
  - intros z v [[<- <-]|[_ Hz]]%lookup_insert_Some; [by rewrite unreferenced_buffers|by apply P].
  - intros z v Hz Ha. exists v. rewrite lookup_insert_ne; [done|congruence].
Qed.
Lemma pinned_files_del x v s :
  pinned s → g_files s !! x = Some v → f_active v = 0 → pinned (set_g_files (delete x (g_files s)) s).
Proof.
  intros P Hx Ha. apply pinned_files; [done|intros z v' [_ Hz]%lookup_delete_Some; by apply P|].
  intros z v' Hz Ha'. exists v'. rewrite lookup_delete_ne; [done|congruence].
Qed.
Lemma pinned_buffers_del x v s :
  pinned s → g_buffers s !! x = Some v → b_active v = 0 → pinned (set_g_buffers (delete x (g_buffers s)) s).
Proof.
  intros P Hx Ha. apply pinned_buffers; [done|intros z v' [_ Hz]%lookup_delete_Some; by apply P|].
  intros z v' Hz Ha'. exists v'. rewrite lookup_delete_ne; [done|congruence].
Qed.

Lemma check_loop_inv L s a s' : check_loop L s = Ret a s' → s' = s.
Proof. intros (?&?&[= <- <-]&H)%bind_inv. by destruct (decide _); inversion H. Qed.
Lemma verify_inv n s a s' : verify n s = Ret a s' → s' = s ∧ (0 ≤ n)%Z.
Proof. unfold verify. case_bool_decide; [done|]. intros Hr. injection Hr as <- <-. split; [done|lia]. Qed.
Lemma deref_inv {A} (f : registry → option A) s a s' : deref f s = Ret a s' → s' = s ∧ f s = Some a.
Proof. unfold deref. destruct (f s); [|done]. by intros [= -> ->]. Qed.
Lemma the_files_inv x s v s' : the_files x s = Ret v s' → s' = s ∧ g_files s !! x = Some v.
Proof. exact (deref_inv (λ s, g_files s !! x) s v s'). Qed.
Lemma the_buffers_inv x s v s' : the_buffers x s = Ret v s' → s' = s ∧ g_buffers s !! x = Some v.
Proof. exact (deref_inv (λ s, g_buffers s !! x) s v s'). Qed.
Lemma nothrow_inv {A} (c : M A) s a s' : nothrow c s = Ret a s' → c s = Ret a s'.
Proof. unfold nothrow. by destruct (c s). Qed.

Lemma files_new_pinned x L c r s s' : pinned s → g_files s !! x = None → files_new x L c r s = Ret tt s' → pinned s'.
Proof.
  intros P Hx. unfold files_new. destruct (_ || _); [done|].
  intros (?&s1&->%check_loop_inv&(?&s2&[-> _]%verify_inv&[= <-])%bind_inv)%bind_inv. by apply pinned_files_new.
Qed.
Lemma files_destroy_pinned x r s s' : pinned s → files_destroy x r s = Ret tt s' → pinned s'.
Proof.
  intros P. intros (v&s1&[-> Hx]%the_files_inv&H)%nothrow_inv%bind_inv. case_bool_decide as Ha; [done|].
  apply bind_inv in H as (?&s2&->%check_loop_inv&H). destruct (bool_decide _); [done|]. injection H as <-.
  eapply pinned_files_del; [done..|lia].
Qed.
Lemma files_update_same x off c n s r s' : files_update x off c n s = Ret r s' → s' = s.
Proof.
  intros (v&s1&[-> Hx]%the_files_inv&(?&s2&->%check_loop_inv&H)%bind_inv)%bind_inv.
  destruct (bool_decide _); [done|]. destruct (_ || _); [done|]. destruct (bool_decide _); [by injection H as _ <-|].
  apply bind_inv in H as (?&s3&[-> _]%verify_inv&H). by injection H as _ <-.
Qed.
Lemma buffers_new_pinned x L rs r s s' : pinned s → g_buffers s !! x = None → buffers_new x L rs r s = Ret tt s' → pinned s'.
Proof.
  intros P Hx. unfold buffers_new. destruct (_ || _); [done|]. destruct (negb _); [done|].
  intros (?&s1&->%check_loop_inv&(?&s2&[-> _]%verify_inv&[= <-])%bind_inv)%bind_inv. by apply pinned_buffers_new.
Qed.
Lemma buffers_destroy_pinned x r s s' : pinned s → buffers_destroy x r s = Ret tt s' → pinned s'.
Proof.
  intros P. intros (v&s1&[-> Hx]%the_buffers_inv&H)%nothrow_inv%bind_inv. case_bool_decide as Ha; [done|].
  apply bind_inv in H as (?&s2&->%check_loop_inv&H). destruct (bool_decide _); [done|]. injection H as <-.
  eapply pinned_buffers_del; [done..|lia].
Qed.
Lemma buffers_update_pinned x off rs n s r s' : pinned s → buffers_update x off rs n s = Ret r s' → pinned s'.
Proof.
  intros P (v&s1&[-> Hx]%the_buffers_inv&(?&s2&->%check_loop_inv&H)%bind_inv)%bind_inv.
  destruct (bool_decide _); [done|]. destruct (_ || _); [done|]. destruct (negb _); [done|].
  destruct (bool_decide _); [by injection H as _ <-|].
  apply bind_inv in H as (?&s3&[-> _]%verify_inv&(?&s4&(v'&s5&[-> Hv']%the_buffers_inv&[= _ <-])%bind_inv&[= _ <-])%bind_inv).
  rewrite Hx in Hv'. injection Hv' as <-. apply pinned_buffers; [done| |].
  - intros z v' [[<- <-]|[_ Hz]]%lookup_insert_Some; simpl; by apply P.
  - intros z v' Hz _. destruct (decide (x = z)) as [<-|]; [|exists v'; by rewrite lookup_insert_ne].
    rewrite lookup_insert_eq. simplify_eq. eauto.
Qed.
(** The other two constructors of a buffer table: a clone has pins of its own, none at first. *)
Lemma buffers_sparse_pinned x L c r s s' : pinned s → g_buffers s !! x = None → buffers_sparse x L c r s = Ret tt s' → pinned s'.
Proof.
  intros P Hx. unfold buffers_sparse. destruct (_ || _); [done|].
  intros (?&s1&->%check_loop_inv&(?&s2&[-> _]%verify_inv&[= <-])%bind_inv)%bind_inv. by apply pinned_buffers_new.
Qed.
Lemma buffers_clone_pinned x L src r s s' : pinned s → g_buffers s !! x = None → buffers_clone x L src r s = Ret tt s' → pinned s'.
Proof.
  intros P Hx. intros (?&s1&->%check_loop_inv&(v&s2&[-> _]%the_buffers_inv&(?&s3&[-> _]%verify_inv&[= <-])%bind_inv)%bind_inv)%bind_inv.
  by apply pinned_buffers_new.
Qed.
(** Arming and completing an operation does not change what it pins. *)
Lemma set_active_pinned y b s s' : pinned s → set_active y b s = Ret tt s' → pinned s'.
Proof.
  intros P (u&s1&[-> Hy]%deref_inv&[= <-])%bind_inv.
  assert (∀ sel x, sel (Uop (u_loop u) (u_sqe u) (u_files u) (u_buffers u) (u_direction u) b (u_result u)) = sel u →
    pinning sel x (set_g_ops (<[y := Uop (u_loop u) (u_sqe u) (u_files u) (u_buffers u) (u_direction u) b (u_result u)]> (g_ops s)) s) = pinning sel x s) as Hp.
  { intros sel x E. rewrite (pinning_delete sel x y u s Hy), <- insert_delete_eq, pinning_insert by apply lookup_delete_eq. by rewrite E. }
  destruct P as [P1 P2 P3 P4]. split.
  - intros x v Hv. rewrite Hp by done. by apply P1.
  - intros x v Hv. rewrite Hp by done. by apply P2.
  - intros z u' x Hz Hx. simpl in Hz. apply lookup_insert_Some in Hz as [[<- <-]|[_ Hz]]; [by apply (P3 _ _ _ Hy)|by apply (P3 _ _ _ Hz)].
  - intros z u' x Hz Hx. simpl in Hz. apply lookup_insert_Some in Hz as [[<- <-]|[_ Hz]]; [by apply (P4 _ _ _ Hy)|by apply (P4 _ _ _ Hz)].
Qed.
(** A request that is not refused ends in the constructor of its operation. *)
Lemma guards_ret_inv {A B} (c : M A) (k : A → M B) s b s' : guards c → (c ≫= k) s = Ret b s' → ∃ a, k a s = Ret b s'.
Proof. intros Hc (a&s1&H1&H2)%bind_inv. specialize (Hc s). rewrite H1 in Hc. subst. eauto. Qed.
Lemma request_inv y x index r s s' : request y x index r s = Ret tt s' → ∃ L e d, uop_new y L e (Some x) (pins r) d s = Ret tt s'.
Proof.
  destruct r as [name flags mode| |d t p|l|buf size flags|buf size flags|buf size offset|buf size offset|table slot offset write]; simpl;
    intros (v&H)%guards_ret_inv; try apply guards_files_check.
  - destruct name; [eauto|done].
  - eauto.
  - eauto.
  - apply guards_ret_inv in H as (?&H); [|apply guards_check_loop]. destruct (bool_decide _); [done|]. destruct (negb _); [done|eauto].
  - apply guards_ret_inv in H as (?&H); [eauto|apply guards_bounds].
  - apply guards_ret_inv in H as (?&H); [eauto|apply guards_bounds].
  - apply guards_ret_inv in H as (?&H); [eauto|apply guards_transfer].
  - apply guards_ret_inv in H as (?&H); [eauto|apply guards_transfer].
  - apply guards_ret_inv in H as (?&H); [|apply guards_buffers_at]. apply guards_ret_inv in H as (?&H); [eauto|apply guards_transfer].
Qed.
Lemma run_call_pinned c s s' : pinned s → call_ok c s → run_call c s = Ret tt s' → pinned s'.
Proof.
  intros P Hok H.
  destruct c as [y L e f b d|y x index r|y b|y|x L c r|x L c r|x o c n|x r|x L rs r|x L c r|x L src r|x o rs n|x r]; simpl in *.
  - destruct Hok as (?&?&?). by eapply uop_new_pinned.
  - destruct Hok as (?&?&?). apply request_inv in H as (L&e&d&H). eapply uop_new_pinned; [done..| |done]. by intros ? [= <-].
  - by eapply set_active_pinned.
  - by eapply uop_destroy_pinned.
  - by eapply files_new_pinned.
  - by eapply files_new_pinned.
  - apply bind_inv in H as (n'&s1&->%files_update_same&[= <-]). done.
  - by eapply files_destroy_pinned.
  - by eapply buffers_new_pinned.
  - by eapply buffers_sparse_pinned.
  - by eapply buffers_clone_pinned.
  - apply bind_inv in H as (n'&s1&H%buffers_update_pinned&[= <-]); [done|done].
  - by eapply buffers_destroy_pinned.
Qed.
Lemma reg_step_pinned s s' : pinned s → reg_step s s' → pinned s'.
Proof. intros P [c s1 Hok H|c ex s1 Hok H]; [by eapply run_call_pinned|]. by rewrite (run_call_refuses c _ _ _ H). Qed.

(** C32: Registered tables outlive the operations that use them.  In every history of the calls
    on tables and operations (the two constructors of a file table and the three of a buffer
    table, clones included, updates, [op::op] and every request of a file table, arming,
    completion and the destructors), whether each call returns or is refused: the reference
    count of a table is the number of live operations pinned to it, every live operation's
    tables are alive and belong to its loop, and destroying or updating a table that is
    still pinned is impossible: the destructor terminates the program and the update throws.
    A refused call changes nothing. *)
Theorem registered_pins here s :
  rtc reg_step (Registry here ∅ ∅ ∅) s →
  (∀ x v, g_files s !! x = Some v → f_active v = pinning u_files x s) ∧
  (∀ x v, g_buffers s !! x = Some v → b_active v = pinning u_buffers x s) ∧
  (∀ y u x, g_ops s !! y = Some u → u_files u = Some x → ∃ v, g_files s !! x = Some v ∧ f_loop v = u_loop u ∧
     (∀ r, files_destroy x r s = Terminate) ∧ ∀ offset count n, ∃ ex, files_update x offset count n s = Throw ex s) ∧
  (∀ y u x, g_ops s !! y = Some u → u_buffers u = Some x → ∃ v, g_buffers s !! x = Some v ∧ b_loop v = u_loop u ∧
     (∀ r, buffers_destroy x r s = Terminate) ∧ ∀ offset regions n, ∃ ex, buffers_update x offset regions n s = Throw ex s) ∧
  (∀ c ex s', run_call c s = Throw ex s' → s' = s).
Proof.
  intros Hs. assert (pinned s) as P.
  { revert s Hs. apply rtc_ind_r; [|by eauto using reg_step_pinned]. by split. }
  pose proof P as [P1 P2 P3 P4]. split_and!; [done|done| | |intros c ex s'; apply run_call_refuses].
  - intros y u x Hy Hu. destruct (P3 _ _ _ Hy Hu) as (v&Hv&Hl). exists v. split_and!; [done|done|..].
    all: assert (f_active v ≠ 0) as Ha by (rewrite (P1 _ _ Hv); by eapply pinning_pos).
    + intros r. unfold files_destroy, nothrow, the_files, deref, mbind, M_bind. rewrite Hv. by rewrite bool_decide_true.
    + intros offset count n. unfold files_update, check_loop, the_files, deref, get, mbind, M_bind. rewrite Hv.
      destruct (decide _); [rewrite bool_decide_true by done|]; by eexists.
  - intros y u x Hy Hu. destruct (P4 _ _ _ Hy Hu) as (v&Hv&Hl). exists v. split_and!; [done|done|..].
    all: assert (b_active v ≠ 0) as Ha by (rewrite (P2 _ _ Hv); by eapply pinning_pos).
    + intros r. unfold buffers_destroy, nothrow, the_buffers, deref, mbind, M_bind. rewrite Hv. by rewrite bool_decide_true.
    + intros offset regions n. unfold buffers_update, check_loop, the_buffers, deref, get, mbind, M_bind. rewrite Hv.
      destruct (decide _); [rewrite bool_decide_true by done|]; by eexists.
Qed.

(** ** Ranges of requests *)
Definition word (z : Z) : Prop := (0 ≤ z ≤ size_max)%Z.
Lemma usize_id z : word z → usize z = z.
Proof. unfold word, usize, size_max. intros. apply Z.mod_small. lia. Qed.
Lemma bounds_spec size offset s :
  word size → word offset →
  bounds size offset s = if bool_decide (size ≤ INT_MAX ∧ offset ≤ INT64_MAX ∧ size + offset ≤ INT64_MAX)%Z
                         then Ret tt s else Throw (invalid_argument "uring I/O range overflow") s.
Proof.
  intros Hs Ho. unfold word, size_max in *. unfold bounds.
  destruct (decide (offset ≤ INT64_MAX)%Z) as [Hle|Hgt].
  - rewrite usize_id by (unfold word, size_max, INT64_MAX in *; lia).
    repeat case_bool_decide; simpl; try done; lia.
  - rewrite (bool_decide_false (_ ∧ _)) by lia. rewrite (bool_decide_true (INT64_MAX < offset)%Z) by lia.
    by rewrite orb_true_r.
Qed.

Definition total (data : list (nat * Z)) : Z := foldr (λ v, Z.add v.2) 0%Z data.
Lemma total_nonneg data : Forall (λ v, word v.2) data → (0 ≤ total data)%Z.
Proof. induction 1 as [|v data Hv _ IH]; simpl; unfold word in *; lia. Qed.
Lemma vectors_loop_spec data n s :
  Forall (λ v, word v.2) data → (0 ≤ n ≤ INT_MAX)%Z →
  vectors_loop data n s =
    if bool_decide ((n + total data ≤ INT_MAX)%Z ∧ Forall (λ v, v.1 = 0 → v.2 = 0%Z) data)
    then Ret (n + total data)%Z s else Throw (invalid_argument "invalid I/O vector") s.
Proof.
  intros Hw. revert n. induction Hw as [|v data Hv Hw IH]; intros n Hn; simpl.
  { rewrite Z.add_0_r, bool_decide_true by (split; [lia|constructor]). done. }
  pose proof (total_nonneg data Hw) as Ht. unfold word, size_max in *.
  assert (word (INT_MAX - n)) as Hw1 by (unfold word, size_max, INT_MAX in *; lia). rewrite (usize_id _ Hw1).
  destruct (bool_decide (INT_MAX - n < v.2)%Z) eqn:E1; simpl.
  { apply bool_decide_eq_true in E1. rewrite bool_decide_false by lia. done. }
  apply bool_decide_eq_false in E1. rewrite (usize_id (n + v.2)) by (unfold word, size_max, INT_MAX in *; lia).
  destruct (bool_decide (v.1 = 0) && negb (bool_decide (v.2 = 0%Z))) eqn:E2.
  - apply andb_true_iff in E2 as [E2 E3]. apply bool_decide_eq_true in E2. apply negb_true_iff, bool_decide_eq_false in E3.
    rewrite bool_decide_false; [done|]. intros [_ HF]. apply Forall_cons in HF as [HF _]. auto.
  - rewrite IH by lia. rewrite Z.add_assoc.
    rewrite (bool_decide_ext _ ((n + v.2 + total data ≤ INT_MAX)%Z ∧ Forall (λ v, v.1 = 0 → v.2 = 0%Z) (v :: data))); [done|].
    rewrite Forall_cons. apply andb_false_iff in E2. destruct E2 as [E2|E2].
    + apply bool_decide_eq_false in E2. naive_solver.
    + apply negb_false_iff, bool_decide_eq_true in E2. naive_solver.
Qed.

(** The checks on scatter and gather vectors: they are accepted exactly when there are few
    enough of them, none has a length without a base, and the total length fits an [int]
    and, added to the offset, a signed 64-bit position.  The unsigned arithmetic of the
    check never wraps around to accept a larger request. *)
Theorem vectors_spec data offset s :
  Forall (λ v, word v.2) data → word offset →
  (vectors data offset s = Ret tt s ↔
     (Z.of_nat (length data) ≤ IOV_MAX)%Z ∧ Forall (λ v, v.1 = 0 → v.2 = 0%Z) data ∧
     (total data ≤ INT_MAX)%Z ∧ (offset + total data ≤ INT64_MAX)%Z) ∧
  (vectors data offset s ≠ Ret tt s → ∃ what, vectors data offset s = Throw (invalid_argument what) s).
Proof.
  intros Hw Ho. pose proof (total_nonneg data Hw) as Ht. unfold vectors.
  destruct (_ || _) eqn:E1.
  { split; [|by eauto]. split; [done|]. intros (H1&_&H2&H3). apply orb_true_iff in E1 as [E1|E1]; apply bool_decide_eq_true in E1; lia. }
  apply orb_false_iff in E1 as [E1 E2]. apply bool_decide_eq_false in E1, E2. unfold mbind, M_bind.
  rewrite vectors_loop_spec by (done || (unfold INT_MAX; lia)). rewrite Z.add_0_l.
  case_bool_decide as Hd; [|split; [split; [done|naive_solver]|by eauto]]. destruct Hd as [Hd1 Hd2].
  unfold word, size_max in Ho. assert (word (INT64_MAX - offset)) as Hw1 by (unfold word, size_max, INT64_MAX in *; lia).
  rewrite (usize_id _ Hw1). case_bool_decide; [split; [split; [done|lia]|by eauto]|].
  split; [|done]. split; [|done]. intros _. split_and!; [lia|done|done|lia].
Qed.

(** ** Requests on a file table *)
(** The request is addressed to the slot [index] of the table, and its extent is one a
    system call accepts. *)
Definition in_range (len off : Z) : Prop := (len ≤ INT_MAX)%Z ∧ (len + off ≤ INT64_MAX)%Z.
Definition addresses (index : Z) e : Prop :=
  match sqe_prep e with
  | prep_openat_direct _ _ _ _ i | prep_close_direct i | prep_socket_direct _ _ _ i | prep_accept_direct _ _ i => i = index
  | prep_recv i _ len _ | prep_send i _ len _ => i = index ∧ Z.testbit (sqe_flags e) IOSQE_FIXED_FILE = true ∧ in_range len 0
  | prep_read i _ len off | prep_write i _ len off | prep_read_fixed i _ len off _ | prep_write_fixed i _ len off _ =>
      i = index ∧ Z.testbit (sqe_flags e) IOSQE_FIXED_FILE = true ∧ in_range len off
  | _ => False
  end.
Definition words (r : file_request) s : Prop :=
  match r with
  | fr_recv _ size _ | fr_send _ size _ => word size
  | fr_read _ size offset | fr_write _ size offset => word size ∧ word offset
  | fr_fixed table _ offset _ => word offset ∧ ∃ v, g_buffers s !! table = Some v ∧ Forall (λ r, word r.2) (b_regions v)
  | _ => True
  end.

Lemma post_bounds size offset s (Q : unit → registry → Prop) (E : exn → registry → Prop) :
  word size → word offset → (in_range size offset → Q tt s) → (∀ ex, E ex s) → post (bounds size offset) s Q E.
Proof.
  intros Hs Ho HQ HE. unfold post. rewrite bounds_spec by done. case_bool_decide as H; [|done]. apply HQ. split; lia.
Qed.
Lemma post_files_check x index v s (Q : files → registry → Prop) (E : exn → registry → Prop) :
  g_files s !! x = Some v → ((index < f_size v)%Z → Q v s) → (∀ ex, E ex s) → post (files_check x index) s Q E.
Proof.
  intros Hv HQ HE. unfold files_check. eapply post_bind, post_deref; [done|]. apply post_bind, post_check_loop; [intros _|done].
  case_bool_decide; [by apply post_throw|]. apply post_ret, HQ. lia.
Qed.
Lemma fixed_file_bit e : Z.testbit (sqe_flags (fixed_file e)) IOSQE_FIXED_FILE = true.
Proof. unfold fixed_file. simpl sqe_flags. rewrite Z.lor_spec. change (Z.testbit (2 ^ IOSQE_FIXED_FILE) IOSQE_FIXED_FILE) with true. apply orb_true_r. Qed.

Lemma request_op y x index v e b dir s :
  g_ops s !! y = None → g_files s !! x = Some v → (index < f_size v)%Z → (∀ t, b = Some t → is_Some (g_buffers s !! t)) → addresses index e →
  post (uop_new y (f_loop v) e (Some x) b dir) s
    (λ _ s', ∃ u, g_ops s' !! y = Some u ∧ u_files u = Some x ∧ u_buffers u = b ∧ u_loop u = f_loop v ∧ (index < f_size v)%Z ∧ addresses index (u_sqe u))
    (λ _ s', s' = s).
Proof.
  intros Hy Hv Hi Hb Ha. eapply post_mono; [apply (uop_new_spec y (f_loop v) e (Some x) b dir s Hy)| |done].
  - intros ? [= <-]. eauto.
  - done.
  - intros [] s' (->&_). eexists. simpl. rewrite lookup_insert_eq. split_and!; done.
Qed.

(** C38: Every operation on a registered file table either is refused and changes nothing, or
    yields one operation pinned to the table (and to the buffer table it uses), on the
    table's loop, addressed to a slot within the table, with an extent that fits. *)
Theorem file_request_spec y x index r v s :
  g_ops s !! y = None → g_files s !! x = Some v → words r s →
  post (request y x index r) s
    (λ _ s', ∃ u, g_ops s' !! y = Some u ∧ u_files u = Some x ∧ u_buffers u = pins r ∧ u_loop u = f_loop v ∧
       (index < f_size v)%Z ∧ addresses index (u_sqe u))
    (λ _ s', s' = s).
Proof.
  intros Hy Hv Hw. destruct r as [name flags mode| |d t p|l|buf size flags|buf size flags|buf size offset|buf size offset|table slot offset write];
    simpl; unfold files_open, files_close, files_socket, files_accept, files_recv, files_send, files_read, files_write, files_fixed, transfer;
    (apply post_bind, (post_files_check x index v); [done|intros Hi|done]).
  - destruct name; [|by apply post_throw]. by apply request_op.
  - by apply request_op.
  - by apply request_op.
  - apply post_bind, post_check_loop; [intros _|done]. destruct (bool_decide _); [by apply post_throw|].
    destruct (negb _); [by apply post_throw|]. by apply request_op.
  - apply post_bind, post_bounds; [done|done|intros Hr|done]. apply request_op; try done; split_and!; try done; apply fixed_file_bit.
  - apply post_bind, post_bounds; [done|done|intros Hr|done]. apply request_op; try done; split_and!; try done; apply fixed_file_bit.
  - destruct Hw. apply post_bind, post_bind, post_bounds; [done|done|intros Hr|done]. apply post_ret, request_op; try done; split_and!; try done; apply fixed_file_bit.
  - destruct Hw. apply post_bind, post_bind, post_bounds; [done|done|intros Hr|done]. apply post_ret, request_op; try done; split_and!; try done; apply fixed_file_bit.
  - destruct Hw as (Ho&vb&Hvb&Hrs). unfold buffers_at. apply post_bind. eapply post_bind, post_deref; [done|].
    apply post_bind, post_check_loop; [intros _|done]. destruct (b_regions vb !! Z.to_nat slot) as [[base len]|] eqn:Hslot; [|by apply post_throw].
    case_bool_decide; [by apply post_throw|]. apply post_ret. simpl. pose proof (Forall_lookup_1 _ _ _ _ Hrs Hslot) as Hlen.
    apply post_bind, post_bind, post_bounds; [done|done|intros Hr|done]. apply post_ret, request_op; try done.
    + intros ? [= <-]. eauto.
    + destruct write; case_bool_decide; (split_and!; [done|apply fixed_file_bit|done]).
Qed.
