(* ===== verification/Native.v ===== *)
(** * What the completion backends share

    A request under submission: only its own record, its operation and the driver of its
    loop change until it is completed.  [at_request] is the world seen that way. *)
From S2P Require Import Prelude ReadyQueue Links Heap Core Loop LoopInv LoopSpec Event Io.

Section native.
Context {D : Type}.
Local Abbreviation M := (M (world D)).
Implicit Types (x : loc) (L : loopid) (w : world D) (g : ghost) (d : D) (o : op) (i : io).

(** An action on the driver of a loop *)
Definition on_native {A} L (c : Prelude.M D A) : M A :=
  zoom (λ w, l_driver <$> w_loops w !! L) (λ d w, set_w_loops (alter (set_l_driver d) L (w_loops w)) w) c.

Definition at_request L x w d o i : world D :=
  set_w_loops (alter (set_l_driver d) L (w_loops w))
    (set_w_ios (<[x := i]> (w_ios w)) (set_w_ops (<[x := o]> (w_ops w)) w)).

Section at_request.
Variables (L : loopid) (x : loc) (w : world D) (l : loop D).
Hypothesis HL : w_loops w !! L = Some l.

Lemma at_request_id o i : w_ops w !! x = Some o → w_ios w !! x = Some i → w = at_request L x w (l_driver l) o i.
Proof.
  intros Ho Hi. unfold at_request. rewrite !insert_id by done. rewrite alter_id; [by destruct w|].
  intros l' Hl'. assert (l' = l) as -> by congruence. by destruct l.
Qed.
Lemma at_the_io d o i (Q : io → world D → Prop) E : Q i (at_request L x w d o i) → post (the_io x) (at_request L x w d o i) Q E.
Proof. intros HQ. eapply post_deref; [simpl; apply lookup_insert_eq|done]. Qed.
Lemma at_the_op d o i (Q : op → world D → Prop) E : Q o (at_request L x w d o i) → post (the_op x) (at_request L x w d o i) Q E.
Proof. intros HQ. eapply post_deref; [simpl; apply lookup_insert_eq|done]. Qed.
Lemma at_upd_io f d o i (Q : unit → world D → Prop) E :
  Q tt (at_request L x w d o (f i)) → post (upd_io x f) (at_request L x w d o i) Q E.
Proof.
  intros HQ. apply post_bind, at_the_io, post_modify. unfold at_request in *. simpl. rewrite insert_insert_eq. exact HQ.
Qed.
Lemma at_upd_op f d o i (Q : unit → world D → Prop) E :
  Q tt (at_request L x w d (f o) i) → post (upd_op x f) (at_request L x w d o i) Q E.
Proof.
  intros HQ. apply post_bind, at_the_op, post_modify. unfold at_request in *. simpl. rewrite insert_insert_eq. exact HQ.
Qed.
Lemma at_native {A} (c : Prelude.M D A) d o i (Q : A → world D → Prop) E :
  post c d (λ a d', Q a (at_request L x w d' o i)) (λ e d', E e (at_request L x w d' o i)) →
  post (on_native L c) (at_request L x w d o i) Q E.
Proof.
  intros Hc. eapply post_zoom; [simpl; by rewrite lookup_alter_eq, HL|]. eapply post_mono; [exact Hc| |].
  - intros a d' HQ. unfold at_request in *. simpl in *. rewrite alter_alter_eq.
    erewrite alter_ext; [exact HQ|]. done.
  - intros a d' HQ. unfold at_request in *. simpl in *. rewrite alter_alter_eq.
    erewrite alter_ext; [exact HQ|]. done.
Qed.
End at_request.

Lemma Inv_native L d w g : Inv ∅ w g → Inv ∅ (set_w_loops (alter (set_l_driver d) L (w_loops w)) w) g.
Proof.
  intros I. eapply Inv_drv; [exact I|]. split_and!; [by destruct w| |by eauto|done].
  intros L'. simpl. destruct (decide (L = L')) as [<-|].
  - rewrite lookup_alter_eq. by destruct (w_loops w !! L) as [[]|].
  - rewrite lookup_alter_ne by done. by destruct (w_loops w !! L') as [[]|].
Qed.
Lemma at_request_inv L x w g l d o o' i i' :
  Inv ∅ w g → w_loops w !! L = Some l → w_ops w !! x = Some o → w_ios w !! x = Some i →
  op_owner o' = op_owner o → op_active o' = op_active o → Inv ∅ (at_request L x w d o' i') g.
Proof.
  intros I HL Ho Hi H1 H2. pose proof (Inv_upd_op _ _ _ _ _ o' I Ho H1 H2) as I2.
  pose proof (Inv_upd_io _ _ _ x i i' (w_flags w) I2 Hi) as I3.
  exact (Inv_native L d _ g I3).
Qed.

(** Completing the request: it leaves the list, its continuation becomes ready and the
    driver is not touched. *)
Lemma at_complete L x w g l d o o' i i' :
  Inv ∅ w g → w_loops w !! L = Some l → x ∈ a_ios (g L) → w_ops w !! x = Some o → w_ios w !! x = Some i →
  op_owner o' = op_owner o → op_active o' = op_active o → io_retire i' = None →
  runs (complete L x) (at_request L x w d o' i') (λ _ w',
    Inv ∅ w' (g_complete L x g) ∧ w_ops w' = <[x := retired o']> (w_ops w) ∧ w_ios w' = <[x := i']> (w_ios w) ∧
    ∃ l', w_loops w' !! L = Some l' ∧ l_driver l' = d).
Proof.
  intros I HL Hx Ho Hi H1 H2 Hr. pose proof (at_request_inv L x w g l d o o' i i' I HL Ho Hi H1 H2) as I2.
  eapply post_mono; [apply (complete_spec _ g L x o' i' I2 Hx); [simpl; apply lookup_insert_eq|simpl; apply lookup_insert_eq|done]| |done].
  intros [] w' (I3&Hops&Hios&_&Hd). simpl in *. rewrite insert_insert_eq in Hops. split_and!; [done..|].
  specialize (Hd L). rewrite lookup_alter_eq, HL in Hd. simpl in Hd.
  destruct (w_loops w' !! L) as [l'|] eqn:E; simplify_eq/=. by eauto.
Qed.

(** Several requests completed in turn *)
Definition g_completes L (ds : list loc) g : ghost := foldl (λ g x, g_complete L x g) g ds.
Lemma g_completes_lists L ds : ∀ g, a_ready (g_completes L ds g L) = a_ready (g L) ++ ds ∧
  ∀ x, x ∈ a_ios (g_completes L ds g L) ↔ x ∈ a_ios (g L) ∧ x ∉ ds.
Proof.
  induction ds as [|d ds IH]; intros g; simpl; [split; [by rewrite app_nil_r|set_solver]|].
  destruct (IH (g_complete L d g)) as [H1 H2]. unfold g_completes in *. rewrite H1. unfold g_complete in *. rewrite upd_g_eq in *. simpl in *.
  split; [by rewrite <- app_assoc|]. intros x. rewrite H2, elem_of_without. set_solver.
Qed.
End native.
