(* ===== verification/Kqueue.v ===== *)
(** * The kqueue backend (src/kqueue.cpp)

    Requests are tried at once; one that would block is registered for readiness with its
    address as user data, and tried again when the kernel reports it.  The system calls
    are the interface [Kernel]; what the sources rely on is [KernelOk]. *)
From S2P Require Import Prelude ReadyQueue Links Heap Core Loop LoopInv LoopSpec Event Io Run Native.

(** ** Constants of the BSD interface *)
Definition ENOENT : Z := 2.
Definition EINTR : Z := 4.
Definition EAGAIN : Z := 35.
Definition EWOULDBLOCK : Z := 35.
Definition EINPROGRESS : Z := 36.
(** [std::error_code{n, std::generic_category()}] with the error numbers of this system *)
Definition bsd_error (n : Z) : errc :=
  if bool_decide (n = 89)%Z then operation_canceled
  else if bool_decide (n = 32)%Z then broken_pipe
  else if bool_decide (n = 40)%Z then message_size
  else if bool_decide (n = 60)%Z then timed_out
  else if bool_decide (n = 5)%Z then io_error
  else if bool_decide (n = 102)%Z then operation_not_supported
  else native_error n.

(** ** The system *)
Inductive call :=
| call_recv (fd : Z) (buf : nat) (len : Z)
| call_send (fd : Z) (buf : nat) (len : Z)
| call_accept (fd : Z)
| call_recvmsg (fd : Z) (buf : nat) (len namelen : Z)
| call_sendmsg (fd : Z) (buf : nat) (len : Z) (address : list Z) (namelen : Z)
| call_connect (fd : Z) (address : list Z) (size : Z)
| call_socket_error (fd : Z).
(** The result, a failure being a negative errno; the message header after [recvmsg]; the
    value of SO_ERROR *)
Record reply := Reply { rp_result : Z; rp_address : list Z; rp_namelen : Z; rp_truncated : bool; rp_error : Z }.
(** [EVFILT_WRITE] or [EVFILT_READ] on a descriptor *)
Abbreviation key := (Z * bool)%type (only parsing).
Inductive change := change_add (k : Z * bool) (udata : loc) | change_delete (k : Z * bool) | change_trigger.
Record kevent_t := Kevent { ev_user : bool; ev_key : Z * bool; ev_udata : loc; ev_error : option Z }.

Class Kernel (K : Type) := {
  attempts : nat;  (** how often an interrupted call is retried *)
  sys_call : call → K → reply * K;
  kevent_change : change → K → Z * K;                          (** negative errno *)
  kevent_wait : option (Z * Z) → K → (Z + list kevent_t) * K }. (** positive errno, or events *)

(** [struct loop::driver { int queue; }], with the kernel's state *)
Record kqueue (K : Type) := Kqueue { kq_queue : Z; kq_kernel : K }.
Arguments Kqueue {K}.
Arguments kq_queue {K}.
Arguments kq_kernel {K}.

Section kqueue.
Context {K : Type} `{!Kernel K}.
Implicit Types (k : K) (d : kqueue K) (x : loc) (L : loopid) (w : world (kqueue K)) (i : io).
Local Abbreviation M := (M (world (kqueue K))).

Definition sys (c : call) : Prelude.M (kqueue K) reply := λ d,
  let '(rp, k) := sys_call c (kq_kernel d) in Ret rp (Kqueue (kq_queue d) k).
(** [do { r = kevent(queue, &event, 1, nullptr, 0, nullptr); } while (r < 0 && errno == EINTR);] *)
Fixpoint kevent_retry (fuel : nat) (c : change) : Prelude.M (kqueue K) Z := λ d,
  let '(r, k) := kevent_change c (kq_kernel d) in
  let d' := Kqueue (kq_queue d) k in
  if bool_decide (r = - EINTR)%Z
  then match fuel with O => Undefined | S fuel' => kevent_retry fuel' c d' end
  else Ret r d'.

(** [loop::loop()]: the queue or the exception, and the descriptor closed before it *)
Definition kq_new (queue : Z) (added : Z) k : (exn * option Z) + kqueue K :=
  if bool_decide (queue < 0)%Z then inl (system_error (bsd_error (- queue)), None)
  else if bool_decide (added < 0)%Z then inl (system_error (bsd_error (- added)), Some queue)
  else inr (Kqueue queue k).
(** [loop::~loop()], returning the descriptor it closes *)
Definition kq_destroy L : M Z :=
  l ← the_loop L;
  if l_running l || bool_decide (l_roots l ≠ 0) || bool_decide (is_Some (l_io l)) || bool_decide (is_Some (l_waits l)) ||
     bool_decide (l_holds l ≠ 0) || negb (empty (l_messages l)) || negb (is_nil (l_timers l)) || negb (empty (l_ready l))
  then terminate else mret (kq_queue (l_driver l)).
(** [void loop::wake() noexcept] *)
Definition kq_wake L : M unit :=
  r ← on_native L (kevent_retry attempts change_trigger);
  if bool_decide (r < 0)%Z then terminate else upd_loop L (set_l_woken true).

(** [short filter(const detail::io& op)]: whether it is [EVFILT_WRITE] *)
Definition write_filter (c : opcode) : bool :=
  negb (bool_decide (c = op_read) || bool_decide (c = op_accept) || bool_decide (c = op_recv_from)).
Definition key_of i : Z * bool := (io_fd i, write_filter (io_code i)).

(** The [switch] of [submit]: the result of the call, or the request already completed *)
Definition attempt L x : M (option Z) :=
  i ← the_io x;
  match io_code i with
  | op_nop => mret (Some 0%Z)
  | op_file_read | op_file_write | op_file_sync =>
      upd_op x (set_op_error (Some operation_not_supported)) ;;
      complete L x ;;
      mret None
  | op_read => rp ← on_native L (sys (call_recv (io_fd i) (io_data i) (io_size i))); mret (Some (rp_result rp))
  | op_write => rp ← on_native L (sys (call_send (io_fd i) (io_data i) (io_size i))); mret (Some (rp_result rp))
  | op_accept => rp ← on_native L (sys (call_accept (io_fd i))); mret (Some (rp_result rp))
  | op_recv_from =>
      rp ← on_native L (sys (call_recvmsg (io_fd i) (io_data i) (io_size i) (io_address_size i)));
      when (bool_decide (0 ≤ rp_result rp)%Z)
        (upd_io x (set_io_address (rp_address rp)) ;;
         upd_io x (set_io_address_size (rp_namelen rp)) ;;
         when (rp_truncated rp) (upd_op x (set_op_error (Some message_size)))) ;;
      mret (Some (rp_result rp))
  | op_send_to =>
      rp ← on_native L (sys (call_sendmsg (io_fd i) (io_data i) (io_size i) (io_address i) (io_address_size i)));
      mret (Some (rp_result rp))
  | op_connect =>
      if negb (io_started i) then
        rp ← on_native L (sys (call_connect (io_fd i) (io_address i) (io_address_size i)));
        upd_io x (set_io_started true) ;;
        mret (Some (rp_result rp))
      else
        rp ← on_native L (sys (call_socket_error (io_fd i)));
        mret (Some (if bool_decide (rp_result rp = 0)%Z && negb (bool_decide (rp_error rp = 0)%Z)
                    then - rp_error rp else rp_result rp)%Z)
  | op_native => undefined
  end.
(** [do { ... } while (r < 0 && errno == EINTR && op.code != detail::opcode::connect);] *)
Fixpoint attempt_loop (fuel : nat) L x : M (option Z) :=
  r ← attempt L x;
  i ← the_io x;
  if bool_decide (r = Some (- EINTR)%Z) && negb (bool_decide (io_code i = op_connect))
  then match fuel with O => undefined | S fuel' => attempt_loop fuel' L x end
  else mret r.
Definition would_block (c : opcode) (errno : Z) : bool :=
  bool_decide (errno = EAGAIN)%Z || bool_decide (errno = EWOULDBLOCK)%Z || bool_decide (errno = EINPROGRESS)%Z ||
  (bool_decide (errno = EINTR)%Z && bool_decide (c = op_connect)).
(** [void loop::submit(detail::io& op)] *)
Definition kq_submit L x : M unit :=
  r ← attempt_loop attempts L x;
  match r with
  | None => mret tt
  | Some r =>
      i ← the_io x;
      if bool_decide (0 ≤ r)%Z then
        (if bool_decide (io_code i = op_accept) then upd_io x (set_io_accepted r) else upd_io x (set_io_bytes r)) ;;
        complete L x
      else if would_block (io_code i) (- r) then
        result ← on_native L (kevent_retry attempts (change_add (key_of i) x));
        when (bool_decide (result < 0)%Z)
          (upd_op x (set_op_error (Some (bsd_error (- result)))) ;;
           complete L x)
      else
        upd_op x (set_op_error (Some (bsd_error (- r)))) ;;
        complete L x
  end.

(** [void loop::cancel(detail::io& op)] *)
Definition kq_cancel L x : M unit :=
  i ← the_io x;
  r ← on_native L (kevent_retry attempts (change_delete (key_of i)));
  if bool_decide (r < 0)%Z && negb (bool_decide (r = - ENOENT)%Z) then throw (system_error (bsd_error (- r))) else
    upd_io x (set_io_cancel_sent true) ;;
    upd_op x (set_op_error (Some operation_canceled)) ;;
    complete L x.

(** [timespec timeout], null to block *)
Definition timeout_of (delay : Z) : option (Z * Z) :=
  if bool_decide (0 ≤ delay)%Z then Some (delay / 1000000000, delay mod 1000000000)%Z else None.
Definition wait_events (timeout : option (Z * Z)) : Prelude.M (kqueue K) (Z + list kevent_t) := λ d,
  let '(r, k) := kevent_wait timeout (kq_kernel d) in Ret r (Kqueue (kq_queue d) k).
(** The body of the loop over the events *)
Definition kq_event L (e : kevent_t) : M unit :=
  if ev_user e then mret tt else
    match ev_error e with
    | Some code => upd_op (ev_udata e) (set_op_error (Some (bsd_error code))) ;; complete L (ev_udata e)
    | None => kq_submit L (ev_udata e)
    end.
(** [void loop::poll(std::chrono::nanoseconds delay)]; retrieving the user event clears it *)
Definition kq_poll L (delay : Z) : M unit :=
  r ← on_native L (wait_events (timeout_of delay));
  match r with
  | inl errno => if bool_decide (errno = EINTR)%Z then mret tt else throw (system_error (bsd_error errno))
  | inr events =>
      when (existsb ev_user events) (upd_loop L (set_l_woken false)) ;;
      for_each (kq_event L) events
  end.

#[export] Instance kqueue_driver : Driver (kqueue K) := {| submit := kq_submit; cancel := kq_cancel; poll := kq_poll |}.
End kqueue.
