(* ===== verification/KqueueSpec.v ===== *)
(** * Correctness of the kqueue backend

    The kernel holds the address of a request from its registration until it reports or
    forgets it.  The invariant [KInv] says that the registered addresses are exactly
    those of the requests pending on the loop, so that the kernel never hands out the
    address of a request that has been completed, and no pending request is forgotten. *)
From S2P Require Import Prelude ReadyQueue Links Heap Core Loop LoopInv LoopSpec Event Io Native Kqueue.

Section iterates.
Context {K : Type} `{!Kernel K}.
(** The kernel after [n] more calls of the same kind *)
Fixpoint changed (c : change) (n : nat) (k : K) : K := match n with O => k | S n' => changed c n' (kevent_change c k).2 end.
Fixpoint called (c : call) (n : nat) (k : K) : K := match n with O => k | S n' => called c n' (sys_call c k).2 end.
End iterates.
Definition io_keys (events : list kevent_t) : list (Z * bool) := ev_key <$> filter (λ e, ev_user e = false) events.

(** Documented behaviour of the kernel event queue: a registration maps a filter of a
    descriptor to its user data, a failed change leaves it alone, a delivered one-shot
    event is removed, and a call is not interrupted forever. *)
Class KernelOk (K : Type) `{!Kernel K} := {
  registrations : K → gmap (Z * bool) loc;
  call_keeps c (k : K) : registrations (sys_call c k).2 = registrations k;
  call_ends c (k : K) : ∃ n, n ≤ attempts ∧ rp_result (sys_call c (called c n k)).1 ≠ (- EINTR)%Z;
  change_ends c (k : K) : ∃ n, n ≤ attempts ∧ (kevent_change c (changed c n k)).1 ≠ (- EINTR)%Z;
  change_fails c (k : K) : ((kevent_change c k).1 < 0)%Z → registrations (kevent_change c k).2 = registrations k;
  add_keeps key x (k : K) : (0 ≤ (kevent_change (change_add key x) k).1)%Z →
    registrations (kevent_change (change_add key x) k).2 = <[key := x]> (registrations k);
  delete_keeps key (k : K) : (0 ≤ (kevent_change (change_delete key) k).1)%Z →
    registrations (kevent_change (change_delete key) k).2 = delete key (registrations k);
  delete_missing key (k : K) : (kevent_change (change_delete key) k).1 = (- ENOENT)%Z → registrations k !! key = None;
  wait_keeps t (k : K) : match (kevent_wait t k).1 with
    | inl _ => registrations (kevent_wait t k).2 = registrations k
    | inr events => NoDup (io_keys events) ∧
        (∀ e, e ∈ events → ev_user e = false → registrations k !! ev_key e = Some (ev_udata e)) ∧
        ∀ key, registrations (kevent_wait t k).2 !! key = if bool_decide (key ∈ io_keys events) then None else registrations k !! key
    end }.

Section kqueue_spec.
Context {K : Type} `{!Kernel K, !KernelOk K}.
Implicit Types (k : K) (d : kqueue K) (x y : loc) (L : loopid) (w : world (kqueue K)) (g : ghost) (i : io) (o : op) (P : gset loc).

(** [P]: requests that are pending and not registered, being submitted or reported. *)
Record KReg (ios : gmap loc io) (pending : list loc) (R : gmap (Z * bool) loc) P : Prop := {
  kr_io x : x ∈ pending → ∃ i, ios !! x = Some i ∧ io_retire i = None ∧ io_code i ≠ op_native;
  kr_live key x : R !! key = Some x → x ∈ pending ∧ x ∉ P ∧ ∃ i, ios !! x = Some i ∧ key_of i = key;
  kr_kept x i : x ∈ pending → x ∉ P → ios !! x = Some i → R !! key_of i = Some x;
  kr_own x y i j : x ∈ pending → y ∈ pending → ios !! x = Some i → ios !! y = Some j → key_of i = key_of j → x = y }.
Record KInv L w g P : Prop := {
  ki_inv : Inv ∅ w g;
  ki_reg : ∃ l, w_loops w !! L = Some l ∧ KReg (w_ios w) (a_ios (g L)) (registrations (kq_kernel (l_driver l))) P }.

(** ** Registration bookkeeping *)
Lemma KReg_complete ios pending R P x i' :
  KReg ios pending R ({[x]} ∪ P) → x ∉ P → NoDup pending → (∀ i, ios !! x = Some i → key_of i' = key_of i) →
  KReg (<[x := i']> ios) (without x pending) R P.
Proof.
  intros [H1 H2 H3 H4] Hx Hnd Hk. 
  assert (∀ y, y ∈ without x pending → y ≠ x ∧ y ∈ pending) as Hw by (intros y; apply elem_of_without).
  split.
  - intros y (Hne&Hy)%Hw. rewrite lookup_insert_ne by done. auto.
  - intros key y Hy. destruct (H2 key y Hy) as (Hp&Hn&i&Hi&Hkey). assert (y ≠ x) by set_solver. split_and!.
    + by apply elem_of_without.
    + set_solver.
    + exists i. rewrite lookup_insert_ne by done. done.
  - intros y i (Hne&Hy)%Hw HP Hi. rewrite lookup_insert_ne in Hi by done. apply H3; [done|set_solver|done].
  - intros y z i j (Hne&Hy)%Hw (Hnz&Hz)%Hw Hi Hj. rewrite lookup_insert_ne in Hi by done. rewrite lookup_insert_ne in Hj by done. eauto.
Qed.
Lemma KReg_upd ios pending R P x i i' :
  KReg ios pending R P → ios !! x = Some i → key_of i' = key_of i → io_retire i' = io_retire i → io_code i' = io_code i →
  KReg (<[x := i']> ios) pending R P.
Proof.
  intros [H1 H2 H3 H4] Hi Hk Hr Hc. split.
  - intros y Hy. destruct (decide (y = x)) as [->|]; [|rewrite lookup_insert_ne by done; auto].
    rewrite lookup_insert_eq. exists i'. destruct (H1 x Hy) as (i0&?&?&?). simplify_eq. split_and!; congruence.
  - intros key y Hy. destruct (H2 key y Hy) as (Hp&Hn&j&Hj&Hkey). split_and!; [done..|].
    destruct (decide (y = x)) as [->|]; [|rewrite lookup_insert_ne by done; eauto].
    rewrite lookup_insert_eq. exists i'. split; [done|]. rewrite Hk. congruence.
  - intros y j Hy HP. destruct (decide (y = x)) as [->|]; [|rewrite lookup_insert_ne by done; auto].
    rewrite lookup_insert_eq. intros [= <-]. rewrite Hk. auto.
  - assert (∀ y j, <[x := i']> ios !! y = Some j → ∃ j', ios !! y = Some j' ∧ key_of j = key_of j') as Hf.
    { intros y j. destruct (decide (y = x)) as [->|]; [rewrite lookup_insert_eq; intros [= <-]; eauto|rewrite lookup_insert_ne by done; eauto]. }
    intros y z j1 j2 Hy Hz (j1'&?&E1)%Hf (j2'&?&E2)%Hf E. eapply H4; eauto. congruence.
Qed.
(** The request under submission has no registration, and gets one. *)
Lemma KReg_free ios pending R P x i :
  KReg ios pending R P → x ∈ P → x ∈ pending → ios !! x = Some i → R !! key_of i = None.
Proof.
  intros [H1 H2 H3 H4] HP Hx Hi. destruct (R !! key_of i) as [y|] eqn:E; [|done].
  destruct (H2 _ _ E) as (Hy&Hn&j&Hj&Hk). assert (x = y) as -> by (eapply H4; eauto). done.
Qed.
Lemma KReg_add ios pending R P x i :
  KReg ios pending R ({[x]} ∪ P) → x ∉ P → x ∈ pending → ios !! x = Some i → KReg ios pending (<[key_of i := x]> R) P.
Proof.
  intros HR HP Hx Hi. pose proof HR as [H1 H2 H3 H4]. split; [done| | |done].
  - intros key y [[<- <-]|[Hne Hy]]%lookup_insert_Some; [split_and!; eauto|].
    destruct (H2 _ _ Hy) as (?&?&?). split_and!; [done|set_solver|done].
  - intros y j Hy Hn Hj. destruct (decide (y = x)) as [->|Hyx].
    + simplify_eq. apply lookup_insert_eq.
    + rewrite lookup_insert_ne; [apply H3; [done|set_solver|done]|]. intros E. destruct Hyx. eapply H4; eauto.
Qed.
Lemma KReg_delete ios pending R x i :
  KReg ios pending R ∅ → x ∈ pending → ios !! x = Some i → KReg ios pending (delete (key_of i) R) {[x]}.
Proof.
  intros HR Hx Hi. pose proof HR as [H1 H2 H3 H4]. split; [done| | |done].
  - intros key y [Hne Hy]%lookup_delete_Some. destruct (H2 _ _ Hy) as (?&?&j&Hj&Hk). split_and!; [done| |eauto].
    intros ->%elem_of_singleton. simplify_eq.
  - intros y j Hy Hn Hj. rewrite lookup_delete_ne; [apply H3; [done|set_solver|done]|]. intros E.
    apply Hn, elem_of_singleton. eapply H4; eauto.
Qed.

(** ** The reference: what the kernel answers decides what becomes of a request *)
Definition same_request i i' : Prop := io_code i' = io_code i ∧ io_fd i' = io_fd i ∧ io_retire i' = io_retire i.
Definition same_op o o' : Prop := op_owner o' = op_owner o ∧ op_active o' = op_active o.
Definition file_code (c : opcode) : bool := match c with op_file_read | op_file_write | op_file_sync => true | _ => false end.
(** The system call of a request *)
Definition call_of i : option call :=
  match io_code i with
  | op_read => Some (call_recv (io_fd i) (io_data i) (io_size i))
  | op_write => Some (call_send (io_fd i) (io_data i) (io_size i))
  | op_accept => Some (call_accept (io_fd i))
  | op_recv_from => Some (call_recvmsg (io_fd i) (io_data i) (io_size i) (io_address_size i))
  | op_send_to => Some (call_sendmsg (io_fd i) (io_data i) (io_size i) (io_address i) (io_address_size i))
  | op_connect => Some (if io_started i then call_socket_error (io_fd i) else call_connect (io_fd i) (io_address i) (io_address_size i))
  | _ => None
  end.
(** The answer to a call, made again while it is interrupted when [again] is set; the answer
    to a change of the event queue, made again while it is interrupted. *)
Inductive answers (c : call) (again : bool) : K → reply → K → Prop :=
| answers_now k : (again = true → rp_result (sys_call c k).1 ≠ (- EINTR)%Z) → answers c again k (sys_call c k).1 (sys_call c k).2
| answers_again k rp k' : again = true → rp_result (sys_call c k).1 = (- EINTR)%Z →
    answers c again (sys_call c k).2 rp k' → answers c again k rp k'.
Inductive changes (c : change) : K → Z → K → Prop :=
| changes_now k : (kevent_change c k).1 ≠ (- EINTR)%Z → changes c k (kevent_change c k).1 (kevent_change c k).2
| changes_again k r k' : (kevent_change c k).1 = (- EINTR)%Z → changes c (kevent_change c k).2 r k' → changes c k r k'.
(** An interrupted connect goes on in the background; any other call is made again. *)
Definition restarts i : bool := negb (bool_decide (io_code i = op_connect)).
(** The result of a request's call: a pending connect reports the error of its socket. *)
Definition result_of i (rp : reply) : Z :=
  match io_code i with
  | op_connect => if io_started i && bool_decide (rp_result rp = 0)%Z && negb (bool_decide (rp_error rp = 0)%Z)
                  then (- rp_error rp)%Z else rp_result rp
  | _ => rp_result rp
  end.
(** The operation and the request after the call: a truncated datagram is an error, a
    datagram brings its sender, a connect is started once. *)
Definition received i (rp : reply) : bool := bool_decide (io_code i = op_recv_from) && bool_decide (0 ≤ rp_result rp)%Z.
Definition called_op i (rp : reply) o : op := if received i rp && rp_truncated rp then set_op_error (Some message_size) o else o.
Definition called_io i (rp : reply) : io :=
  if received i rp then set_io_address_size (rp_namelen rp) (set_io_address (rp_address rp) i)
  else if bool_decide (io_code i = op_connect) && negb (io_started i) then set_io_started true i else i.
Definition with_result (r : Z) i : io := if bool_decide (io_code i = op_accept) then set_io_accepted r i else set_io_bytes r i.
Definition blocks (c : opcode) (errno : Z) : Prop :=
  errno = EAGAIN ∨ errno = EINPROGRESS ∨ (errno = EINTR ∧ c = op_connect).

(** What becomes of a request: it is completed, or registered with the kernel again. *)
Inductive fate := completed (o : op) (i : io) | rearmed (o : op) (i : io).
Definition fate_op (f : fate) : op := match f with completed o _ => retired o | rearmed o _ => o end.
Definition fate_io (f : fate) : io := match f with completed _ i | rearmed _ i => i end.
Inductive submits x o i : K → fate → K → Prop :=
| submits_nop k : io_code i = op_nop → submits x o i k (completed o (set_io_bytes 0 i)) k
| submits_file k : file_code (io_code i) = true →
    submits x o i k (completed (set_op_error (Some operation_not_supported) o) i) k
| submits_done c rp k k' : call_of i = Some c → answers c (restarts i) k rp k' →
    (0 ≤ result_of i rp)%Z →
    submits x o i k (completed (called_op i rp o) (with_result (result_of i rp) (called_io i rp))) k'
| submits_failed c rp k k' : call_of i = Some c → answers c (restarts i) k rp k' →
    (result_of i rp < 0)%Z → ¬ blocks (io_code i) (- result_of i rp) →
    submits x o i k (completed (set_op_error (Some (bsd_error (- result_of i rp))) (called_op i rp o)) (called_io i rp)) k'
| submits_rearmed c rp k k1 r k' : call_of i = Some c → answers c (restarts i) k rp k1 →
    (result_of i rp < 0)%Z → blocks (io_code i) (- result_of i rp) →
    changes (change_add (key_of i) x) k1 r k' → (0 ≤ r)%Z →
    submits x o i k (rearmed (called_op i rp o) (called_io i rp)) k'
| submits_refused c rp k k1 r k' : call_of i = Some c → answers c (restarts i) k rp k1 →
    (result_of i rp < 0)%Z → blocks (io_code i) (- result_of i rp) →
    changes (change_add (key_of i) x) k1 r k' → (r < 0)%Z →
    submits x o i k (completed (set_op_error (Some (bsd_error (- r))) (called_op i rp o)) (called_io i rp)) k'.

(** A reported event: an error completes its request, readiness has the call made again. *)
Inductive handles (e : kevent_t) o i : K → fate → K → Prop :=
| handles_error code k : ev_error e = Some code → handles e o i k (completed (set_op_error (Some (bsd_error code)) o) i) k
| handles_ready k f k' : ev_error e = None → submits (ev_udata e) o i k f k' → handles e o i k f k'.
(** All of them in turn, each on its request as the wait found it *)
Inductive handles_all w : list kevent_t → K → list (loc * fate) → K → Prop :=
| handles_nil k : handles_all w [] k [] k
| handles_user e es k fs k' : ev_user e = true → handles_all w es k fs k' → handles_all w (e :: es) k fs k'
| handles_cons e es o i k f k1 fs k' :
    ev_user e = false → w_ops w !! ev_udata e = Some o → w_ios w !! ev_udata e = Some i →
    handles e o i k f k1 → handles_all w es k1 fs k' → handles_all w (e :: es) k ((ev_udata e, f) :: fs) k'.
(** The requests completed, in the order of their events *)
Definition completed_of (fs : list (loc * fate)) : list loc :=
  (filter (λ p : loc * fate, match p.2 with completed _ _ => true | rearmed _ _ => false end = true) fs).*1.

Lemma answers_keep c again k rp k' : answers c again k rp k' → registrations k' = registrations k.
Proof. induction 1 as [k _|k rp k' _ _ _ IH]; [apply call_keeps|]. rewrite IH. apply call_keeps. Qed.
Lemma changes_last c k r k' : changes c k r k' → ∃ k0, registrations k0 = registrations k ∧ kevent_change c k0 = (r, k').
Proof.
  induction 1 as [k _|k r k' Hr _ (k0&H1&H2)]; [exists k; split; [done|apply surjective_pairing]|].
  exists k0. split; [|done]. rewrite H1. apply change_fails. rewrite Hr. unfold EINTR. lia.
Qed.
Lemma called_same_op i rp o : same_op o (called_op i rp o).
Proof. unfold called_op. by destruct (_ && _). Qed.
Lemma called_same_io i rp : same_request i (called_io i rp).
Proof. unfold called_io. destruct (received i rp); [done|]. by destruct (_ && _). Qed.
Lemma with_result_same r i : same_request i (with_result r i).
Proof. unfold with_result. by destruct (bool_decide _). Qed.
Lemma submits_active x o i k f k' : submits x o i k f k' →
  op_active (fate_op f) = match f with completed _ _ => false | rearmed _ _ => op_active o end.
Proof. destruct 1; [done..| |done]. apply called_same_op. Qed.

(** ** Retries end *)
Lemma kevent_retry_run fuel c : ∀ d n,
  n ≤ fuel → (kevent_change c (changed c n (kq_kernel d))).1 ≠ (- EINTR)%Z →
  ∃ r k', kevent_retry fuel c d = Ret r (Kqueue (kq_queue d) k') ∧ changes c (kq_kernel d) r k'.
Proof.
  induction fuel as [|fuel IH]; intros d n Hn Hne.
  all: simpl; pose proof (changes_now c (kq_kernel d)) as Hnow; pose proof (changes_again c (kq_kernel d)) as Hagain.
  all: destruct (kevent_change c (kq_kernel d)) as [r k] eqn:E; simpl in *; case_bool_decide as Hr; [|by eauto].
  - destruct n; [simpl in Hne; rewrite E in Hne; done|lia].
  - destruct n as [|n]; simpl in Hne; rewrite E in Hne; [done|].
    destruct (IH (Kqueue (kq_queue d) k) n) as (r'&k'&H1&H2); [lia|done|]. eauto.
Qed.
Lemma kevent_retry_post c d (Q : Z → kqueue K → Prop) E :
  (∀ r k', changes c (kq_kernel d) r k' → Q r (Kqueue (kq_queue d) k')) → post (kevent_retry attempts c) d Q E.
Proof.
  intros HQ. destruct (change_ends c (kq_kernel d)) as (n&Hn&Hne).
  destruct (kevent_retry_run attempts c d n Hn Hne) as (r&k'&E1&H1). unfold post. rewrite E1. by apply HQ.
Qed.

(** ** Attempts *)
Section attempt.
Variables (L : loopid) (x : loc) (w : world (kqueue K)) (l : loop (kqueue K)).
Hypothesis HL : w_loops w !! L = Some l.

Lemma sys_post c d (Q : reply → kqueue K → Prop) E :
  Q (sys_call c (kq_kernel d)).1 (Kqueue (kq_queue d) (sys_call c (kq_kernel d)).2) → post (sys c) d Q E.
Proof. unfold post, sys. by destruct (sys_call c (kq_kernel d)). Qed.

(** The request was tried: [rp] is the answer and nothing else has changed. *)
Definition tried d o i rp k (res : option Z) w' : Prop :=
  res = Some (result_of i rp) ∧ w' = at_request L x w (Kqueue (kq_queue d) k) (called_op i rp o) (called_io i rp).

Lemma attempt_post c d o i :
  call_of i = Some c →
  runs (attempt L x) (at_request L x w d o i)
    (tried d o i (sys_call c (kq_kernel d)).1 (sys_call c (kq_kernel d)).2).
Proof.
  intros Hc. unfold attempt, tried, result_of, called_op, called_io, received. apply post_bind, at_the_io.
  unfold call_of in Hc. destruct (io_code i) eqn:Hcode; simplify_eq; simpl;
    try (apply post_bind, (at_native _ _ _ _ HL), sys_post, post_ret; done).
  - destruct (io_started i) eqn:Hst; simpl.
    + by apply post_bind, (at_native _ _ _ _ HL), sys_post, post_ret.
    + by apply post_bind, (at_native _ _ _ _ HL), sys_post, post_bind, at_upd_io, post_ret.
  - apply post_bind, (at_native _ _ _ _ HL), sys_post, post_bind. apply post_when; intros ->; simpl.
    + apply post_bind, at_upd_io, post_bind, at_upd_io.
      apply post_when; intros ->; [apply at_upd_op|]; by apply post_ret.
    + by apply post_ret.
Qed.
(** An interrupted attempt leaves the request as it was. *)
Lemma interrupted i rp o :
  io_code i ≠ op_connect → rp_result rp = (- EINTR)%Z → called_op i rp o = o ∧ called_io i rp = i.
Proof.
  intros Hc Hr. assert (received i rp = false) as E.
  { unfold received. rewrite Hr, andb_false_iff. right. apply bool_decide_eq_false; unfold EINTR; lia. }
  unfold called_op, called_io. rewrite E, bool_decide_false by done. done.
Qed.
Lemma attempt_loop_call fuel c : ∀ d o i n,
  call_of i = Some c → n ≤ fuel → rp_result (sys_call c (called c n (kq_kernel d))).1 ≠ (- EINTR)%Z →
  runs (attempt_loop fuel L x) (at_request L x w d o i) (λ res w',
    ∃ rp k, answers c (restarts i) (kq_kernel d) rp k ∧ tried d o i rp k res w').
Proof.
  unfold restarts. induction fuel as [|fuel IH]; intros d o i n Hc Hn Hne.
  all: simpl; apply post_bind; eapply post_mono; [apply (attempt_post c d o i Hc)| |done].
  all: intros res w' [-> ->]; apply post_bind, at_the_io; rewrite (proj1 (called_same_io _ _)).
  all: destruct (bool_decide (io_code i = op_connect)) eqn:Hcon; simpl;
    [rewrite andb_false_r; apply post_ret; eexists _, _; split; [by apply answers_now|done]|].
  all: apply bool_decide_eq_false in Hcon; rewrite andb_true_r.
  all: assert (∀ rp, result_of i rp = rp_result rp) as Hres by (intros rp; unfold result_of; by destruct (io_code i)).
  all: rewrite Hres; case_bool_decide as Hr; [injection Hr as Hr|apply post_ret; eexists _, _; split; [apply answers_now; congruence|by split; [rewrite Hres|]]].
  - destruct n; [|lia]. simpl in Hne. congruence.
  - destruct n as [|n]; [simpl in Hne; congruence|]. destruct (interrupted i _ o Hcon Hr) as [-> ->].
    eapply post_mono; [apply (IH _ o i n Hc); [lia|exact Hne]| |done].
    rewrite bool_decide_false by done. intros res w'' (rp&k&Ha&->&->). exists rp, k. split; [by apply answers_again|done].
Qed.
End attempt.

(** ** Submission *)

(** The request has met its fate, the kernel is in state [k] and nothing else has changed. *)
Definition settled L x P w g (f : fate) k w' : Prop :=
  KInv L w' (match f with completed _ _ => g_complete L x g | rearmed _ _ => g end) P ∧
  w_ops w' = <[x := fate_op f]> (w_ops w) ∧ w_ios w' = <[x := fate_io f]> (w_ios w) ∧
  ∃ l', w_loops w' !! L = Some l' ∧ kq_kernel (l_driver l') = k.

(** What is known of a request that is being submitted. *)
Record submitting L x P w g l o i : Prop := {
  sb_inv : Inv ∅ w g;
  sb_loop : w_loops w !! L = Some l;
  sb_reg : KReg (w_ios w) (a_ios (g L)) (registrations (kq_kernel (l_driver l))) ({[x]} ∪ P);
  sb_new : x ∉ P;
  sb_pending : x ∈ a_ios (g L);
  sb_op : w_ops w !! x = Some o;
  sb_io : w_ios w !! x = Some i }.

Lemma submitting_active L x P w g l o i : submitting L x P w g l o i → op_active o = true.
Proof.
  intros S. destruct (inv_pending _ _ _ (sb_inv _ _ _ _ _ _ _ _ S) L x) as (_&o'&Ho&_&?).
  - unfold a_pending. pose proof (sb_pending _ _ _ _ _ _ _ _ S). set_solver.
  - pose proof (sb_op _ _ _ _ _ _ _ _ S). congruence.
Qed.
Lemma submitting_NoDup L x P w g l o i : submitting L x P w g l o i → NoDup (a_ios (g L)).
Proof. intros S. eapply dl_rep_NoDup, (inv_ios _ _ _ (sb_inv _ _ _ _ _ _ _ _ S)), (sb_loop _ _ _ _ _ _ _ _ S). Qed.

Lemma complete_released L x P w g l d o i o' i' :
  Inv ∅ w g → w_loops w !! L = Some l → x ∈ a_ios (g L) → w_ops w !! x = Some o → w_ios w !! x = Some i →
  same_op o o' → same_request i i' → x ∉ P → KReg (w_ios w) (a_ios (g L)) (registrations (kq_kernel d)) ({[x]} ∪ P) →
  runs (complete L x) (at_request L x w d o' i') (λ _ w', settled L x P w g (completed o' i') (kq_kernel d) w').
Proof.
  intros I HL Hx Ho Hi [H1 H2] (H3&H4&H5) HP HR. destruct (kr_io _ _ _ _ HR x Hx) as (i0&Hi0&Hr0&_). simplify_eq.
  eapply post_mono; [apply (at_complete L x w g l d o o' i i' I HL Hx Ho Hi H1 H2); congruence| |done].
  intros [] w' (I2&Hops&Hios&l'&HL'&Hl'). split_and!; [|done|done|exists l'; split; [done|by rewrite Hl']].
  split; [done|]. exists l'. split; [done|]. rewrite Hl', Hios. unfold g_complete. rewrite upd_g_eq. simpl.
  apply KReg_complete; [done|done|eapply dl_rep_NoDup, (inv_ios _ _ _ I), HL|]. intros j Hj. simplify_eq. unfold key_of. by rewrite H3, H4.
Qed.
Lemma complete_submitted L x P w g l d o i o' i' :
  submitting L x P w g l o i → same_op o o' → same_request i i' → registrations (kq_kernel d) = registrations (kq_kernel (l_driver l)) →
  submits x o i (kq_kernel (l_driver l)) (completed o' i') (kq_kernel d) →
  runs (complete L x) (at_request L x w d o' i') (λ _ w',
    ∃ f k', submits x o i (kq_kernel (l_driver l)) f k' ∧ settled L x P w g f k' w').
Proof.
  intros [I HL HR Hn Hx Ho Hi] H1 H2 Hd Hs.
  eapply post_mono; [apply (complete_released L x P w g l d o i o' i'); [done..|by rewrite Hd]| |done]. eauto.
Qed.

(** A file request is completed in the first attempt, a no-operation after it. *)
Lemma kq_submit_file L x P w g l o i :
  submitting L x P w g l o i → file_code (io_code i) = true →
  runs (kq_submit L x) w (λ _ w', ∃ f k', submits x o i (kq_kernel (l_driver l)) f k' ∧ settled L x P w g f k' w').
Proof.
  intros S Hfile. pose proof S as [I HL HR Hn Hx Ho Hi].
  assert (∀ fuel, runs (attempt_loop fuel L x) w (λ res w', res = None ∧
    ∃ f k', submits x o i (kq_kernel (l_driver l)) f k' ∧ settled L x P w g f k' w')) as Hrun.
  { intros fuel. rewrite (at_request_id L x w l HL o i Ho Hi) at 1.
    assert (runs (attempt L x) (at_request L x w (l_driver l) o i) (λ res w', res = None ∧
      ∃ f k', submits x o i (kq_kernel (l_driver l)) f k' ∧ settled L x P w g f k' w')) as Hone.
    { unfold attempt. apply post_bind, at_the_io. destruct (io_code i) eqn:Hcode; try done.
      all: apply post_bind, at_upd_op, post_bind;
        (eapply post_mono; [eapply (complete_submitted L x P w g l _ o i (set_op_error (Some operation_not_supported) o) i S)| |done]);
        [done..|apply submits_file; by rewrite Hcode|intros [] w' Hw; by apply post_ret]. }
    destruct fuel; simpl; apply post_bind; (eapply post_mono; [exact Hone| |done]);
      intros res w' [-> (f&k'&Hs&HK&Hops&Hios&Hk)]; apply post_bind;
      (eapply post_the_io; [rewrite Hios; apply lookup_insert_eq|]); simpl; apply post_ret; (split; [done|]); by exists f, k'. }
  unfold kq_submit. apply post_bind. eapply post_mono; [apply Hrun| |done]. intros res w' [-> Hw]. by apply post_ret.
Qed.
Lemma kq_submit_nop L x P w g l o i :
  submitting L x P w g l o i → io_code i = op_nop →
  runs (kq_submit L x) w (λ _ w', ∃ f k', submits x o i (kq_kernel (l_driver l)) f k' ∧ settled L x P w g f k' w').
Proof.
  intros S Hnop. pose proof S as [I HL HR Hn Hx Ho Hi].
  rewrite (at_request_id L x w l HL o i Ho Hi) at 1. unfold kq_submit. apply post_bind.
  assert (runs (attempt_loop attempts L x) (at_request L x w (l_driver l) o i) (λ res w',
    res = Some 0%Z ∧ w' = at_request L x w (l_driver l) o i)) as Htry.
  { destruct (attempts (K := K)); simpl; apply post_bind; unfold attempt; apply post_bind, at_the_io; rewrite Hnop;
      apply post_ret, post_bind, at_the_io; rewrite bool_decide_false by done; simpl; by apply post_ret. }
  eapply post_mono; [exact Htry| |done]. intros res w' [-> ->]. apply post_bind, at_the_io.
  rewrite Hnop. simpl. apply post_bind, at_upd_io. eapply (complete_submitted L x P w g l); try done. by apply submits_nop.
Qed.

Lemma would_block_blocks c errno : would_block c errno = true ↔ blocks c errno.
Proof. unfold would_block, blocks. rewrite !orb_true_iff, andb_true_iff, !bool_decide_eq_true. unfold EWOULDBLOCK, EAGAIN. tauto. Qed.

(** Submission always returns, with the fate the kernel's answers give the request. *)
Lemma kq_submit_post L x P w g l o i :
  submitting L x P w g l o i →
  runs (kq_submit L x) w (λ _ w', ∃ f k', submits x o i (kq_kernel (l_driver l)) f k' ∧ settled L x P w g f k' w').
Proof.
  intros S. pose proof S as [I HL HR Hn Hx Ho Hi]. destruct (kr_io _ _ _ _ HR x Hx) as (i0&Hi0&Hret&Hnat). simplify_eq.
  destruct (call_of i) as [c|] eqn:Hc.
  2: { unfold call_of in Hc. destruct (io_code i) eqn:Hcode; try done;
       [by apply kq_submit_nop|eapply kq_submit_file; [exact S|by rewrite Hcode]..]. }
  rewrite (at_request_id L x w l HL o i Ho Hi) at 1. unfold kq_submit. apply post_bind.
  destruct (call_ends c (kq_kernel (l_driver l))) as (n&Hle&Hne).
  eapply post_mono; [by apply (attempt_loop_call L x w l HL attempts c _ _ _ n)| |done].
  intros res w1 (rp&k1&Hans&->&->). pose proof (answers_keep _ _ _ _ _ Hans) as Hk1.
  pose proof (called_same_io i rp) as Hreq. pose proof (called_same_op i rp o) as Hop.
  pose proof Hreq as (Hcode&Hfd&Hretire). assert (key_of (called_io i rp) = key_of i) as Hkey by (unfold key_of; by rewrite Hcode, Hfd).
  apply post_bind, at_the_io. case_bool_decide as Hr.
  - assert (same_request i (with_result (result_of i rp) (called_io i rp))) as Hreq'.
    { destruct (with_result_same (result_of i rp) (called_io i rp)) as (E1&E2&E3). by split_and!; [rewrite E1|rewrite E2|rewrite E3]. }
    pose proof (submits_done x o i c rp _ k1 Hc Hans Hr) as Hs. unfold with_result in *.
    case_bool_decide; apply post_bind, at_upd_io; by eapply (complete_submitted L x P w g l).
  - rewrite Hcode. destruct (would_block (io_code i) (- result_of i rp)) eqn:Hwb.
    + apply would_block_blocks in Hwb. apply post_bind, (at_native _ _ _ _ HL), kevent_retry_post. rewrite Hkey. intros r k' Hch.
      destruct (changes_last _ _ _ _ Hch) as (k0&Hk0&Hlast). simpl in Hk0. apply post_when; intros Hres.
      * apply bool_decide_eq_true in Hres. apply post_bind, at_upd_op. eapply (complete_submitted L x P w g l); [done|done|done| |].
        -- simpl. pose proof (change_fails (change_add (key_of i) x) k0) as Hf. rewrite Hlast in Hf. simpl in Hf. rewrite Hf by lia. congruence.
        -- eapply submits_refused; [done..|lia|done|exact Hch|done].
      * apply bool_decide_eq_false in Hres. eexists (rearmed _ _), k'. split; [eapply submits_rearmed; [done..|lia|done|exact Hch|lia]|].
        split_and!; [|done|done|eexists; split; [simpl; by rewrite lookup_alter_eq, HL|done]].
        split; [eapply (at_request_inv L x w g l); eauto; apply Hop|]. eexists. split; [simpl; by rewrite lookup_alter_eq, HL|]. simpl.
        pose proof (add_keeps (key_of i) x k0) as Ha. rewrite Hlast in Ha. simpl in Ha. rewrite Ha by lia. rewrite <- Hkey.
        eapply KReg_add; [|done|done|by apply lookup_insert_eq]. rewrite Hk0, Hk1. by eapply KReg_upd.
    + apply post_bind, at_upd_op. eapply (complete_submitted L x P w g l); [done|done|done|done|].
      eapply submits_failed; [done..|lia|]. rewrite <- would_block_blocks, Hwb. done.
Qed.

(** ** Cancellation *)
Lemma KInv_pending L w g P x : KInv L w g P → x ∈ a_ios (g L) →
  ∃ l o i, w_loops w !! L = Some l ∧ w_ops w !! x = Some o ∧ w_ios w !! x = Some i ∧ op_active o = true ∧
    KReg (w_ios w) (a_ios (g L)) (registrations (kq_kernel (l_driver l))) P.
Proof.
  intros [I (l&HL&HR)] Hx. destruct (kr_io _ _ _ _ HR x Hx) as (i&Hi&_).
  destruct (inv_pending _ _ _ I L x) as (_&o&Ho&_&Ha); [unfold a_pending; set_solver|]. exists l, o, i. done.
Qed.

(** Cancelling a request on kqueue: its registration is withdrawn before it is completed
    with [operation_canceled], so that the kernel cannot report it afterwards; when the
    kernel refuses, the request stays pending and registered and the error is thrown. *)
Theorem kq_cancel_spec L x w g :
  KInv L w g ∅ → x ∈ a_ios (g L) →
  post (kq_cancel L x) w
    (λ _ w', KInv L w' (g_complete L x g) ∅ ∧
       (∃ o' i', w_ops w' !! x = Some o' ∧ w_ios w' !! x = Some i' ∧ op_active o' = false ∧
                 op_error o' = Some operation_canceled ∧ io_cancel_sent i' = true) ∧
       (∀ l' key, w_loops w' !! L = Some l' → registrations (kq_kernel (l_driver l')) !! key ≠ Some x))
    (λ _ w', KInv L w' g ∅).
Proof.
  intros HK Hx. destruct (KInv_pending L w g ∅ x HK Hx) as (l&o&i&HL&Ho&Hi&Ha&HR). destruct HK as [I _].
  rewrite (at_request_id L x w l HL o i Ho Hi) at 1. unfold kq_cancel. apply post_bind, at_the_io.
  apply post_bind, (at_native _ _ _ _ HL), kevent_retry_post. intros r k' Hch0.
  destruct (changes_last _ _ _ _ Hch0) as (k&Hk&Hch).
  pose proof (change_fails (change_delete (key_of i)) k) as Hf. pose proof (delete_keeps (key_of i) k) as Hd.
  pose proof (delete_missing (key_of i) k) as Hm. rewrite Hch in Hf, Hd, Hm. simpl in Hf, Hd, Hm. rewrite Hk in *.
  destruct (bool_decide (r < 0)%Z && negb (bool_decide (r = - ENOENT)%Z)) eqn:E.
  - apply andb_true_iff in E as [Hr%bool_decide_eq_true _]. apply post_throw.
    split; [by eapply (at_request_inv L x w g l)|]. eexists. split; [simpl; by rewrite lookup_alter_eq, HL|].
    simpl. rewrite Hf by done. rewrite insert_id by done. done.
  - assert (0 ≤ r)%Z as Hr.
    { apply andb_false_iff in E as [E%bool_decide_eq_false|E]; [lia|]. apply negb_false_iff, bool_decide_eq_true in E.
      specialize (Hm E). rewrite (kr_kept _ _ _ _ HR x i Hx) in Hm; [done|set_solver|done]. }
    apply post_bind, at_upd_io, post_bind, at_upd_op.
    eapply post_mono; [apply (complete_released L x ∅ w g l _ o i _ _ I HL Hx Ho Hi); [done|done|set_solver|]| |done].
    { simpl. rewrite Hd by done. rewrite union_empty_r_L. by apply KReg_delete. }
    intros [] w' (HK&Hops&Hios&_). split_and!; [done|rewrite Hops, Hios, !lookup_insert_eq; by eexists _, _|]. intros l' key HL' Hkey.
    destruct HK as [_ (l2&HL2&HR2)]. simplify_eq. apply (kr_live _ _ _ _ HR2) in Hkey as (Hp&_).
    unfold g_complete in Hp. rewrite upd_g_eq in Hp. simpl in Hp. by apply elem_of_without in Hp as [? _].
Qed.

(** ** Polling *)
Definition reported (events : list kevent_t) : list loc := ev_udata <$> filter (λ e, ev_user e = false) events.
Lemma elem_of_reported events x : x ∈ reported events ↔ ∃ e, e ∈ events ∧ ev_user e = false ∧ x = ev_udata e.
Proof. unfold reported. rewrite list_elem_of_fmap. setoid_rewrite list_elem_of_filter. naive_solver. Qed.
Lemma elem_of_io_keys events key : key ∈ io_keys events ↔ ∃ e, e ∈ events ∧ ev_user e = false ∧ key = ev_key e.
Proof. unfold io_keys. rewrite list_elem_of_fmap. setoid_rewrite list_elem_of_filter. naive_solver. Qed.

(** Retrieving events moves their requests from the kernel to the loop. *)
Lemma KReg_wait ios pending R R' events :
  KReg ios pending R ∅ → NoDup (io_keys events) →
  (∀ e, e ∈ events → ev_user e = false → R !! ev_key e = Some (ev_udata e)) →
  (∀ key, R' !! key = if bool_decide (key ∈ io_keys events) then None else R !! key) →
  KReg ios pending R' (list_to_set (reported events)) ∧ NoDup (reported events) ∧ ∀ x, x ∈ reported events → x ∈ pending.
Proof.
  intros [H1 H2 H3 H4] Hnd Hev HR'.
  assert (∀ e, e ∈ events → ev_user e = false → ev_udata e ∈ pending ∧ ∃ i, ios !! ev_udata e = Some i ∧ key_of i = ev_key e) as Hu.
  { intros e He Hu. destruct (H2 _ _ (Hev e He Hu)) as (?&_&?). done. }
  split_and!.
  - split; [done| | |done].
    + intros key x Hx. rewrite HR' in Hx. case_bool_decide as Hk; [done|]. destruct (H2 _ _ Hx) as (?&_&i&Hi&Hkey). split_and!; [done| |eauto].
      rewrite elem_of_list_to_set, elem_of_reported. intros (e&He&Hue&->). apply Hk, elem_of_io_keys. exists e. split_and!; [done..|].
      destruct (Hu e He Hue) as (_&j&Hj&<-). simplify_eq. done.
    + intros x i Hx Hn Hi. rewrite HR'. pose proof (H3 x i Hx ltac:(set_solver) Hi) as HR. rewrite bool_decide_false; [done|].
      intros (e&He&Hue&Hk)%elem_of_io_keys. apply Hn. rewrite elem_of_list_to_set, elem_of_reported. exists e. split_and!; [done..|].
      pose proof (Hev e He Hue) as HR2. rewrite <-Hk, HR in HR2. by simplify_eq.
  - clear HR'. unfold io_keys, reported in *.
    assert (∀ e, e ∈ filter (λ e, ev_user e = false) events → ∃ i, ios !! ev_udata e = Some i ∧ key_of i = ev_key e) as Hf.
    { intros e [? ?]%list_elem_of_filter. by apply Hu. }
    induction (filter _ events) as [|e es IH]; simpl in *; [constructor|]. apply NoDup_cons in Hnd as [Hne Hnd].
    apply NoDup_cons. split; [|apply IH; [done|intros; apply Hf; by right]].
    intros (e'&E&He')%list_elem_of_fmap. apply Hne, list_elem_of_fmap. exists e'. split; [|done].
    destruct (Hf e) as (i&Hi&<-); [by left|]. destruct (Hf e') as (j&Hj&<-); [by right|]. rewrite E in Hi. by simplify_eq.
  - intros x (e&He&Hue&->)%elem_of_reported. by apply Hu.
Qed.

Lemma kq_event_post L e w g P :
  ev_user e = false → KInv L w g ({[ev_udata e]} ∪ P) → ev_udata e ∉ P → ev_udata e ∈ a_ios (g L) →
  ∃ l o i, w_loops w !! L = Some l ∧ w_ops w !! ev_udata e = Some o ∧ w_ios w !! ev_udata e = Some i ∧
    runs (kq_event L e) w (λ _ w', ∃ f k', handles e o i (kq_kernel (l_driver l)) f k' ∧ settled L (ev_udata e) P w g f k' w').
Proof.
  intros Hu HK HP Hx. destruct (KInv_pending L w g _ _ HK Hx) as (l&o&i&HL&Ho&Hi&Ha&HR). pose proof HK as [I _].
  exists l, o, i. split_and!; [done..|]. unfold kq_event. rewrite Hu. destruct (ev_error e) as [code|] eqn:He.
  - rewrite (at_request_id L (ev_udata e) w l HL o i Ho Hi) at 1. apply post_bind, at_upd_op.
    eapply post_mono; [apply (complete_released L _ P w g l _ o i _ _ I HL Hx Ho Hi); done| |done].
    intros [] w' Hs. eexists _, _. split; [by apply handles_error|exact Hs].
  - eapply post_mono; [apply (kq_submit_post L (ev_udata e) P w g l o i); done| |done].
    intros [] w' (f&k'&Hs&Hw). exists f, k'. split; [by apply handles_ready|done].
Qed.

Lemma handles_all_ext w w' es k fs k' :
  handles_all w' es k fs k' → (∀ x, x ∈ reported es → w_ops w' !! x = w_ops w !! x ∧ w_ios w' !! x = w_ios w !! x) →
  handles_all w es k fs k'.
Proof.
  induction 1 as [|e es k fs k' Hu _ IH|e es o i k f k1 fs k' Hu Ho Hi Hh _ IH]; intros Hx; [constructor|..].
  - apply handles_user; [done|]. apply IH. intros x Hr. apply Hx. unfold reported in *. by rewrite filter_cons_False by congruence.
  - unfold reported in Hx. rewrite filter_cons_True in Hx by done. destruct (Hx (ev_udata e)) as [E1 E2]; [by left|].
    eapply handles_cons; [done|by rewrite <- E1|by rewrite <- E2|done|]. apply IH. intros x Hr. apply Hx. by right.
Qed.
Lemma handles_all_reported w es k fs k' : handles_all w es k fs k' → fs.*1 = reported es.
Proof.
  unfold reported. induction 1 as [|e es k fs k' Hu _ IH|e es o i k f k1 fs k' Hu _ _ _ _ IH]; [done|..].
  - by rewrite filter_cons_False by congruence.
  - rewrite filter_cons_True by done. simpl. by f_equal.
Qed.

(** The requests of [fs] have met their fates; no other has changed. *)
Definition fates (fs : list (loc * fate)) w w' : Prop :=
  (∀ x f, (x, f) ∈ fs → w_ops w' !! x = Some (fate_op f) ∧ w_ios w' !! x = Some (fate_io f)) ∧
  ∀ x, x ∉ fs.*1 → w_ops w' !! x = w_ops w !! x ∧ w_ios w' !! x = w_ios w !! x.
Lemma fates_cons x f fs w w1 w2 :
  x ∉ fs.*1 → w_ops w1 = <[x := fate_op f]> (w_ops w) → w_ios w1 = <[x := fate_io f]> (w_ios w) →
  fates fs w1 w2 → fates ((x, f) :: fs) w w2.
Proof.
  intros Hx Hops Hios [H1 H2]. rewrite Hops, Hios in H2. split.
  - intros y f' [[= -> ->]|Hy]%elem_of_cons; [|by apply H1]. destruct (H2 x Hx) as [-> ->]. by rewrite !lookup_insert_eq.
  - simpl. intros y [Hne Hy]%not_elem_of_cons. destruct (H2 y Hy) as [-> ->]. by rewrite !lookup_insert_ne by done.
Qed.

Lemma kq_events_post L events : ∀ w g l,
  KInv L w g (list_to_set (reported events)) → NoDup (reported events) → (∀ x, x ∈ reported events → x ∈ a_ios (g L)) →
  w_loops w !! L = Some l →
  runs (for_each (kq_event L) events) w (λ _ w', ∃ fs l',
    handles_all w events (kq_kernel (l_driver l)) fs (kq_kernel (l_driver l')) ∧ w_loops w' !! L = Some l' ∧
    fates fs w w' ∧ KInv L w' (g_completes L (completed_of fs) g) ∅).
Proof.
  induction events as [|e events IH]; intros w g l HK Hnd Hin HL.
  { apply post_ret. exists [], l. split_and!; [constructor|done|split; set_solver|done]. }
  simpl. apply post_bind. destruct (ev_user e) eqn:Hu.
  - unfold kq_event. rewrite Hu. apply post_ret. unfold reported in *. rewrite filter_cons_False in * by congruence.
    eapply post_mono; [by apply IH| |done]. intros [] w' (fs&l'&Hh&Hw). exists fs, l'. split; [by apply handles_user|done].
  - assert (reported (e :: events) = ev_udata e :: reported events) as E by (unfold reported; by rewrite filter_cons_True).
    rewrite E in *. apply NoDup_cons in Hnd as [Hne Hnd]. simpl in HK.
    destruct (kq_event_post L e w g (list_to_set (reported events)) Hu HK) as (l0&o&i&HL0&Ho&Hi&Hev);
      [by rewrite elem_of_list_to_set|apply Hin; by left|]. assert (l0 = l) as -> by congruence.
    eapply post_mono; [exact Hev| |done]. intros [] w1 (f&k1&Hf&HK1&Hops&Hios&l1&HL1&Hk1).
    assert (∀ x, x ∈ reported events → x ≠ ev_udata e) as Hoth by (intros x Hx ->; done).
    eapply post_mono; [eapply (IH w1 _ l1 HK1 Hnd); [|exact HL1]| |done].
    { intros x Hx. destruct f; [|apply Hin; by right]. unfold g_complete. rewrite upd_g_eq. simpl. apply elem_of_without.
      split; [by apply Hoth|apply Hin; by right]. }
    intros [] w2 (fs&l'&Hall&HL'&Hfs&HK2). pose proof (handles_all_reported _ _ _ _ _ Hall) as Hfst.
    exists ((ev_udata e, f) :: fs), l'. split_and!; [|done| |by destruct f].
    + eapply handles_cons; [done..|]. rewrite <- Hk1 in Hf |- *. eapply handles_all_ext; [exact Hall|]. intros x Hx.
      rewrite Hops, Hios. by rewrite !lookup_insert_ne by (symmetry; by apply Hoth).
    + eapply fates_cons; [by rewrite Hfst|done..].
Qed.
Lemma KInv_woken L w g P l :
  KInv L w g P → w_loops w !! L = Some l → KInv L (set_w_loops (<[L := set_l_woken false l]> (w_loops w)) w) g P.
Proof.
  intros [I (l'&HL'&HR)] HL. simplify_eq. split; [by eapply Inv_upd_loop|]. eexists. split; [simpl; apply lookup_insert_eq|done].
Qed.

(** What a wait that found [events] leaves behind. *)
Record polled L w g (events : list kevent_t) k w' : Prop := {
  po_fates : ∃ fs l', handles_all w events k fs (kq_kernel (l_driver l')) ∧ w_loops w' !! L = Some l' ∧
    fates fs w w' ∧ a_ready (g_completes L (completed_of fs) g L) = a_ready (g L) ++ completed_of fs ∧
    KInv L w' (g_completes L (completed_of fs) g) ∅ ∧
    ∀ x, (∃ key, registrations (kq_kernel (l_driver l')) !! key = Some x) ↔ x ∈ a_ios (g L) ∧ x ∉ completed_of fs;
  po_once : NoDup (reported events);
  po_known x : x ∈ reported events → x ∈ a_ios (g L) }.

Lemma polled_intro L w w1 g events k w' fs l' :
  NoDup (reported events) → (∀ x, x ∈ reported events → x ∈ a_ios (g L)) → w_ops w1 = w_ops w → w_ios w1 = w_ios w →
  handles_all w1 events k fs (kq_kernel (l_driver l')) → w_loops w' !! L = Some l' → fates fs w1 w' →
  KInv L w' (g_completes L (completed_of fs) g) ∅ → polled L w g events k w'.
Proof.
  intros Hnd Hin Hops Hios Hall HL' Hfs HK. split; [|done|done].
  destruct (g_completes_lists L (completed_of fs) g) as [H1 H2]. exists fs, l'. split_and!; try done.
  - eapply handles_all_ext; [exact Hall|]. intros x _. by rewrite Hops, Hios.
  - unfold fates in *. by rewrite Hops, Hios in Hfs.
  - destruct HK as [_ (l2&HL2&HR)]. simplify_eq. intros x. rewrite <- H2. split.
    + intros (key&Hk). by apply (kr_live _ _ _ _ HR) in Hk as (?&_).
    + intros Hx. destruct (kr_io _ _ _ _ HR x Hx) as (i&Hi&_). exists (key_of i). apply (kr_kept _ _ _ _ HR); [done|set_solver|done].
Qed.

(** C16: Polling kqueue dispatches every reported event exactly once, in order.  An error
    event completes its request with that error.  Readiness is not completion: the system
    call of the request is made again (and again while it is interrupted); a result
    completes the request with that result, a failure with that error, and a call that
    would still block has the request registered again and leaves it pending, or completes
    it with the error of the registration.  Exactly the completed requests become ready,
    in the order of their events, and no other request changes; afterwards the kernel
    holds the address of every request still pending and of no other, so that no request is
    reported after its completion and none is forgotten.  An interrupted wait reports
    nothing, and any other failure of the wait is thrown and changes nothing. *)
Theorem kq_poll_spec L delay w g l :
  KInv L w g ∅ → w_loops w !! L = Some l →
  post (kq_poll L delay) w
    (λ _ w', match kevent_wait (timeout_of delay) (kq_kernel (l_driver l)) with
       | (inr events, k) => polled L w g events k w'
       | (inl errno, k) => errno = EINTR ∧ polled L w g [] k w'
       end)
    (λ e w', KInv L w' g ∅ ∧ w_ops w' = w_ops w ∧ w_ios w' = w_ios w ∧
       ∃ errno, (kevent_wait (timeout_of delay) (kq_kernel (l_driver l))).1 = inl errno ∧ errno ≠ EINTR ∧
         e = system_error (bsd_error errno)).
Proof.
  intros HK HL. pose proof HK as [I (l0&HL0&HR)]. assert (l0 = l) as -> by congruence. unfold kq_poll. apply post_bind.
  unfold on_native. eapply post_zoom; [by rewrite HL|]. unfold post at 1, wait_events.
  pose proof (wait_keeps (timeout_of delay) (kq_kernel (l_driver l))) as Hw.
  destruct (kevent_wait (timeout_of delay) (kq_kernel (l_driver l))) as [[errno|events] k'] eqn:E; simpl in Hw.
  all: set (w1 := set_w_loops _ w); assert (Inv ∅ w1 g) as I1 by (by apply Inv_native).
  all: set (l1 := set_l_driver (Kqueue (kq_queue (l_driver l)) k') l).
  all: assert (w_loops w1 !! L = Some l1) as HL1 by (unfold w1; simpl; by rewrite lookup_alter_eq, HL).
  - assert (KInv L w1 g ∅) as HK1 by (split; [done|]; eexists; split; [exact HL1|]; simpl; by rewrite Hw).
    case_bool_decide as He; [apply post_ret|apply post_throw; split_and!; by eauto]. split; [done|].
    apply (polled_intro L w w1 g [] k' w1 [] l1); try done; [constructor|set_solver|constructor|split; set_solver].
  - destruct Hw as (Hnd&Hev&HR'). destruct (KReg_wait _ _ _ _ events HR Hnd Hev HR') as (HR1&Hndr&Hin).
    assert (KInv L w1 g (list_to_set (reported events))) as HK1 by (split; [done|]; eexists; split; [exact HL1|done]).
    apply post_bind, post_when; intros _; [eapply post_upd_loop; [exact HL1|]; apply (KInv_woken _ _ _ _ _ HK1) in HL1 as HK2|].
    + eapply post_mono; [eapply (kq_events_post L events _ g); [exact HK2|done|done|simpl; apply lookup_insert_eq]| |done].
      intros [] w' (fs&l'&H1&H2&H3&H4). by refine (polled_intro L w _ g events k' w' fs l' Hndr Hin _ _ H1 H2 H3 H4).
    + eapply post_mono; [eapply (kq_events_post L events _ g); [exact HK1|done|done|exact HL1]| |done].
      intros [] w' (fs&l'&H1&H2&H3&H4). by refine (polled_intro L w _ g events k' w' fs l' Hndr Hin _ _ H1 H2 H3 H4).
Qed.

(** ** Suspension *)
Lemma KReg_start ios pending R x i :
  KReg ios pending R ∅ → x ∉ pending → io_retire i = None → io_code i ≠ op_native →
  (∀ y j, y ∈ pending → ios !! y = Some j → key_of j ≠ key_of i) →
  KReg (<[x := i]> ios) (x :: pending) R {[x]}.
Proof.
  intros [H1 H2 H3 H4] Hx Hr Hc Hk.
  assert (∀ y, y ∈ pending → <[x := i]> ios !! y = ios !! y) as Hne by (intros y Hy; apply lookup_insert_ne; by intros ->).
  split.
  - intros y [->|Hy]%elem_of_cons; [rewrite lookup_insert_eq; eauto|]. rewrite Hne by done. auto.
  - intros key y Hy. destruct (H2 key y Hy) as (Hp&_&j&Hj&?). split_and!; [by right|set_solver|]. rewrite Hne by done. eauto.
  - intros y j [->|Hy]%elem_of_cons Hn; [set_solver|]. rewrite Hne by done. intros Hj. apply H3; [done|set_solver|done].
  - intros y z j1 j2 Hy Hz E1 E2 E. apply elem_of_cons in Hy as [->|Hy], Hz as [->|Hz]; try done.
    + rewrite lookup_insert_eq in E1. rewrite (Hne z Hz) in E2. injection E1 as <-. by destruct (Hk z j2 Hz E2).
    + rewrite lookup_insert_eq in E2. rewrite (Hne y Hy) in E1. injection E2 as <-. by destruct (Hk y j1 Hy E1).
    + rewrite (Hne y Hy) in E1. rewrite (Hne z Hz) in E2. eauto.
Qed.
Lemma reserved_same i : same_request i (reserved_io i).
Proof. unfold reserved_io. by destruct (io_busy i). Qed.

(** Suspension on kqueue, on every branch: a busy direction is refused without effect, a
    stop already requested completes the request without suspending, and otherwise the
    request has either been completed on the spot, its continuation being ready, or is
    pending with the kernel holding its address.  Submission never throws. *)
Theorem kq_await_suspend_spec w g x o i lk l h :
  KInv (op_owner o) w g ∅ → fresh_io w g x o i lk → w_loops w !! op_owner o = Some l → l_thread l = w_thread w →
  (∀ f, io_busy i = Some f → is_Some (w_flags w !! f)) → io_retire i = None → io_code i ≠ op_native →
  (∀ y j, y ∈ a_ios (g (op_owner o)) → w_ios w !! y = Some j → key_of j ≠ key_of i) →
  post (io_await_suspend x h) w
    (λ b w', busy_now w i = false ∧
       if b : bool
       then (l_stopping l || requested w (io_token i)) = false ∧
            ((KInv (op_owner o) w' (g_complete (op_owner o) x (g_start (op_owner o) x g)) ∅ ∧ op_active <$> w_ops w' !! x = Some false) ∨
             (KInv (op_owner o) w' (g_start (op_owner o) x g) ∅ ∧ op_active <$> w_ops w' !! x = Some true))
       else (l_stopping l || requested w (io_token i)) = true ∧ w' = set_w_ops (<[x := refused o]> (w_ops w)) w)
    (λ e w', busy_now w i = true ∧ e = logic_error "socket direction already in use" ∧ w' = w).
Proof.
  intros [I (l0&HL0&HR)] F HL Ht Hf Hret Hnat Hkeys. assert (l0 = l) as -> by congruence. clear HL0.
  pose proof (fi_op _ _ _ _ _ _ F) as Ho. pose proof (fi_idle _ _ _ _ _ _ F) as Ha.
  eapply io_await_cases; [exact I|exact F|exact HL|exact Ht|exact Hf|by auto|by auto|].
  intros Hb Hs w2 l2 [I2 Hops2 Hios2 Hfl2 HL2 Hd2 _ _]. set (L := op_owner o) in *.
  assert (w_ops w2 !! x = Some (armed w (io_token i) o)) as Ho2 by (rewrite Hops2; apply lookup_insert_eq).
  assert (w_ios w2 !! x = Some (reserved_io i)) as Hi2 by (rewrite Hios2; apply lookup_insert_eq).
  destruct (reserved_same i) as (Hc2&Hfd2&Hr2).
  assert (x ∉ a_ios (g L)) as Hnew by (intros Hx; eapply (inv_inactive _ _ _ L); [exact I|done..|unfold a_pending; set_solver]).
  assert (a_ios (g_start L x g L) = x :: a_ios (g L)) as Hios by (unfold g_start; by rewrite upd_g_eq).
  assert (KReg (w_ios w2) (a_ios (g_start L x g L)) (registrations (kq_kernel (l_driver l2))) ({[x]} ∪ ∅)) as HR2.
  { rewrite Hd2, Hios, Hios2, union_empty_r_L. apply KReg_start; [done|done|congruence|congruence|].
    intros y j Hy Hj. unfold key_of at 2. rewrite Hc2, Hfd2. by apply (Hkeys y). }
  assert (x ∈ a_ios (g_start L x g L)) as Hx2 by (rewrite Hios; by left).
  destruct (bool_decide (io_size i = 0%Z) && is_stream (io_code i)).
  - rewrite (at_request_id L x w2 l2 HL2 _ _ Ho2 Hi2) at 1.
    eapply post_mono; [apply (complete_released L x ∅ w2 _ l2 _ _ _ _ _ I2 HL2 Hx2 Ho2 Hi2); [done|done|set_solver|done]| |done].
    intros [] w3 (HK3&Hops3&_). split_and!; [done|done|]. left. split; [done|]. by rewrite Hops3, lookup_insert_eq.
  - eapply post_mono; [apply (kq_submit_post L x ∅ w2 (g_start L x g) l2 (armed w (io_token i) o) (reserved_io i)); done| |done].
    intros [] w3 Hsub. split_and!; [done|done|].
    destruct Hsub as (f&k'&Hsub&HK3&Hops3&_). pose proof (submits_active _ _ _ _ _ _ Hsub) as Hact.
    rewrite Hops3, lookup_insert_eq. simpl. rewrite Hact. by destruct f; [left|right].
Qed.
End kqueue_spec.
