(* ===== verification/Iocp.v ===== *)
(** * The completion-port backend (src/iocp.cpp)

    Requests are started as overlapped calls; the completion port yields one packet for
    each call that was started, also when it succeeded at once.  The system is the
    interface [Windows]; what the sources rely on is [WindowsOk]. *)
From S2P Require Import Prelude ReadyQueue Links Heap Core Loop LoopInv LoopSpec Event Io Run Native.

(** ** Constants of the Windows interface *)
Definition ERROR_HANDLE_EOF : Z := 38.
Definition WAIT_TIMEOUT : Z := 258.
Definition WSA_OPERATION_ABORTED : Z := 995.
Definition ERROR_IO_PENDING : Z := 997.
Definition WSA_IO_PENDING : Z := 997.
Definition ERROR_NOT_FOUND : Z := 1168.
Definition WSAEMSGSIZE : Z := 10040.
Definition INFINITE : Z := 2 ^ 32 - 1.
Definition INVALID_SOCKET : Z := -1.

(** [std::error_code io_error(int code)] *)
Definition io_error_of (code : Z) : errc :=
  if bool_decide (code = WSA_OPERATION_ABORTED)%Z then operation_canceled
  else if bool_decide (code = WSAEMSGSIZE)%Z then message_size
  else native_error code.

(** ** The system *)

(** Overlapped calls; a file position is split into two 32-bit words *)
Inductive overlapped :=
| read_file (handle : Z) (buf : nat) (len low high : Z)
| write_file (handle : Z) (buf : nat) (len low high : Z)
| wsa_recv (fd : Z) (buf : nat) (len : Z)
| wsa_send (fd : Z) (buf : nat) (len : Z)
| wsa_recv_from (fd : Z) (buf : nat) (len : Z) (address_size : Z)
| wsa_send_to (fd : Z) (buf : nat) (len : Z) (address : list Z) (address_size : Z)
| accept_ex (fd accepted : Z)
| connect_ex (fd : Z) (address : list Z) (address_size : Z).
(** Synchronous calls: their value, or the last error *)
Inductive query :=
| associate (handle : Z) | getsockname (fd : Z) | extension (fd : Z) (accept : bool) | wsa_socket (family : Z) | bind_any (fd : Z) (size : Z)
| overlapped_result (fd : Z) (x : loc) | update_accept (accepted fd : Z) | update_connect (fd : Z).
(** [OVERLAPPED_ENTRY]: no packet for a wake-up; [en_failed] is [Internal != 0]; the
    sender's address the system has stored for a datagram *)
Record entry := Entry { en_packet : option loc; en_bytes : Z; en_failed : bool; en_address : list Z; en_namelen : Z }.

Class Windows (K : Type) := {
  start : loc → overlapped → K → option Z * K;              (** the last error, or success *)
  post_status : option loc → K → option Z * K;              (** PostQueuedCompletionStatus *)
  ask : query → K → (Z + Z) * K;                            (** the last error, or a value *)
  cancel_io : Z → loc → K → option Z * K;                   (** CancelIoEx *)
  dequeue : Z → K → (Z + list entry) * K }.                 (** GetQueuedCompletionStatusEx *)

(** [struct loop::driver { HANDLE port; }], with the system's state *)
Record iocp (K : Type) := Iocp { io_port : Z; io_system : K }.
Arguments Iocp {K}.
Arguments io_port {K}.
Arguments io_system {K}.

Section iocp.
Context {K : Type} `{!Windows K}.
Implicit Types (k : K) (d : iocp K) (x : loc) (L : loopid) (w : world (iocp K)) (i : io).
Local Abbreviation M := (M (world (iocp K))).

Definition system_call {A} (f : K → A * K) : Prelude.M (iocp K) A := λ d,
  let '(a, k) := f (io_system d) in Ret a (Iocp (io_port d) k).
Definition native_throw {A} (code : Z) : M A := throw (system_error (native_error code)).
(** A call whose failure is thrown *)
Definition ask_or_throw L (q : query) : M Z :=
  r ← on_native L (system_call (ask q));
  match r with inl code => native_throw code | inr v => mret v end.

(** [loop::loop()]: the port or the exception, and whether WSACleanup ran before it *)
Definition iocp_new (startup port port_error : Z) k : (exn * bool) + iocp K :=
  if negb (bool_decide (startup = 0)%Z) then inl (system_error (native_error startup), false)
  else if bool_decide (port = 0)%Z then inl (system_error (native_error port_error), true)
  else inr (Iocp port k).
(** [loop::~loop()], returning the port it closes *)
Definition iocp_destroy L : M Z :=
  l ← the_loop L;
  if l_running l || bool_decide (l_roots l ≠ 0) || bool_decide (is_Some (l_io l)) || bool_decide (is_Some (l_waits l)) ||
     bool_decide (l_holds l ≠ 0) || negb (empty (l_messages l)) || negb (is_nil (l_timers l)) || negb (empty (l_ready l))
  then terminate else mret (io_port (l_driver l)).
(** [void loop::wake() noexcept] *)
Definition iocp_wake L : M unit :=
  r ← on_native L (system_call (post_status None));
  match r with Some _ => terminate | None => upd_loop L (set_l_woken true) end.

(** [void loop::attach(std::uintptr_t fd)] *)
Definition iocp_attach L (fd : Z) : M unit := _ ← ask_or_throw L (associate fd); mret tt.

(** Starting an overlapped call: the packet is the address of the request *)
Definition start_call L x (c : overlapped) : M (option Z) := on_native L (system_call (start x c)).
Definition offset_low (offset : Z) : Z := offset mod 2 ^ 32.
Definition offset_high (offset : Z) : Z := Z.shiftr offset 32 mod 2 ^ 32.
Definition is_file (c : opcode) : bool := bool_decide (c = op_file_read) || bool_decide (c = op_file_write).
Definition submit_file L x i : M unit :=
  r ← start_call L x
        (if bool_decide (io_code i = op_file_read)
         then read_file (io_fd i) (io_data i) (io_size i) (offset_low (io_offset i)) (offset_high (io_offset i))
         else write_file (io_fd i) (io_data i) (io_size i) (offset_low (io_offset i)) (offset_high (io_offset i)));
  match r with
  | None => mret tt
  | Some error =>
      when (negb (bool_decide (error = ERROR_IO_PENDING)%Z))
        (when (negb (bool_decide (error = ERROR_HANDLE_EOF)%Z) || negb (bool_decide (io_code i = op_file_read)))
           (upd_op x (set_op_error (Some (io_error_of error)))) ;;
         complete L x)
  end.
(** The [switch]: starting a socket call *)
Definition submit_socket L x i : M (option Z) :=
  match io_code i with
  | op_file_read | op_file_write | op_file_sync => throw (logic_error "invalid file submission")
  | op_nop => mret None
  | op_read => start_call L x (wsa_recv (io_fd i) (io_data i) (io_size i))
  | op_write => start_call L x (wsa_send (io_fd i) (io_data i) (io_size i))
  | op_recv_from => start_call L x (wsa_recv_from (io_fd i) (io_data i) (io_size i) (io_address_size i))
  | op_send_to => start_call L x (wsa_send_to (io_fd i) (io_data i) (io_size i) (io_address i) (io_address_size i))
  | op_accept =>
      family ← ask_or_throw L (getsockname (io_fd i));
      _ ← ask_or_throw L (extension (io_fd i) true);
      r ← on_native L (system_call (ask (wsa_socket family)));
      upd_io x (set_io_accepted (match r with inl _ => INVALID_SOCKET | inr fd => fd end)) ;;
      match r with
      | inl code => native_throw code
      | inr fd => start_call L x (accept_ex (io_fd i) fd)
      end
  | op_connect =>
      _ ← ask_or_throw L (extension (io_fd i) false);
      _ ← ask_or_throw L (bind_any (io_fd i) (io_address_size i));
      start_call L x (connect_ex (io_fd i) (io_address i) (io_address_size i))
  | op_native => undefined
  end.
(** [void loop::submit(detail::io& op)] *)
Definition iocp_submit L x : M unit :=
  i ← the_io x;
  if is_file (io_code i) then submit_file L x i
  else if bool_decide (io_code i = op_nop) then
    r ← on_native L (system_call (post_status (Some x)));
    match r with Some code => native_throw code | None => mret tt end
  else
    r ← submit_socket L x i;
    match r with
    | None => mret tt
    | Some error =>
        when (negb (bool_decide (error = WSA_IO_PENDING)%Z))
          (upd_op x (set_op_error (Some (io_error_of error))) ;;
           complete L x)
    end.

(** [void loop::cancel(detail::io& op)] *)
Definition iocp_cancel L x : M unit :=
  upd_io x (set_io_cancel_sent true) ;;
  i ← the_io x;
  if bool_decide (io_code i = op_nop) then mret tt else
    r ← on_native L (system_call (cancel_io (io_fd i) x));
    match r with
    | None => mret tt
    | Some error => if bool_decide (error = ERROR_NOT_FOUND)%Z then mret tt else native_throw error
    end.

(** The timeout in milliseconds, rounded up and never [INFINITE] by accident *)
Definition ceil_ms (delay : Z) : Z := - ((- delay) / 1000000).
Definition timeout_ms (delay : Z) : Z :=
  if bool_decide (0 ≤ delay)%Z then Z.min (ceil_ms delay) (INFINITE - 1) else INFINITE.
Definition failed_query L (q : query) : M (option Z) :=
  r ← on_native L (system_call (ask q));
  mret (match r with inl code => Some code | inr _ => None end).
(** A completed file transfer *)
Definition finish_file L x (e : entry) i : M unit :=
  if en_failed e then
    r ← failed_query L (overlapped_result (io_fd i) x);
    match r with
    | None => mret tt
    | Some error =>
        if bool_decide (error = ERROR_HANDLE_EOF)%Z && bool_decide (io_code i = op_file_read)
        then upd_io x (set_io_bytes 0)
        else upd_op x (set_op_error (Some (io_error_of error)))
    end
  else mret tt.
(** [if (!op.error && op.code == code && setsockopt(...)) op.error = ...] *)
Definition update_context L x (code : opcode) (q : query) : M unit :=
  o ← the_op x;
  i ← the_io x;
  if bool_decide (op_error o = None) && bool_decide (io_code i = code) then
    r ← failed_query L q;
    match r with None => mret tt | Some error => upd_op x (set_op_error (Some (native_error error))) end
  else mret tt.
Definition finish_socket L x (e : entry) i : M unit :=
  (if en_failed e then
     r ← failed_query L (overlapped_result (io_fd i) x);
     match r with None => mret tt | Some error => upd_op x (set_op_error (Some (io_error_of error))) end
   else mret tt) ;;
  update_context L x op_accept (update_accept (io_accepted i) (io_fd i)) ;;
  update_context L x op_connect (update_connect (io_fd i)).
(** The body of the loop over the entries *)
Definition iocp_entry L (e : entry) : M unit :=
  match en_packet e with
  | None => mret tt
  | Some x =>
      i ← the_io x;
      when (bool_decide (io_code i = op_recv_from)) (upd_io x (set_io_address (en_address e)) ;; upd_io x (set_io_address_size (en_namelen e))) ;;
      upd_io x (set_io_bytes (en_bytes e)) ;;
      (if is_file (io_code i) then finish_file L x e i
       else when (negb (bool_decide (io_code i = op_nop))) (finish_socket L x e i)) ;;
      complete L x
  end.
Definition is_wake (e : entry) : bool := bool_decide (en_packet e = None).
(** [void loop::poll(std::chrono::nanoseconds delay)] *)
Definition iocp_poll L (delay : Z) : M unit :=
  r ← on_native L (system_call (dequeue (timeout_ms delay)));
  match r with
  | inl error => if bool_decide (error = WAIT_TIMEOUT)%Z then mret tt else native_throw error
  | inr entries =>
      when (existsb is_wake entries) (upd_loop L (set_l_woken false)) ;;
      for_each (iocp_entry L) entries
  end.

#[export] Instance iocp_driver : Driver (iocp K) := {| submit := iocp_submit; cancel := iocp_cancel; poll := iocp_poll |}.
End iocp.
