(* ===== verification/IocpSpec.v ===== *)
(** * Correctness of the completion-port backend

    The system owns the packet of a request, which is part of the request, from the start
    of the call until it is dequeued.  The invariant [CpInv] says that the outstanding
    packets are exactly those of the requests pending on the loop: a request is
    completed at once only when its call was not started, and otherwise by its packet,
    in both cases exactly once. *)
From S2P Require Import Prelude ReadyQueue Links Heap Core Loop LoopInv LoopSpec Event Io Native Iocp.

Definition packets (entries : list entry) : list loc := omap en_packet entries.
(** A call was started unless it failed with something else than a pending status. *)
Definition started (r : option Z) : bool := match r with None => true | Some e => bool_decide (e = ERROR_IO_PENDING)%Z end.

(** Documented behaviour of a completion port: a call that was started queues exactly one
    packet, a failed one none, and dequeuing takes each packet once. *)
Class WindowsOk (K : Type) `{!Windows K} := {
  outstanding : K → gset loc;
  start_keeps x c (k : K) : outstanding (start x c k).2 = if started (start x c k).1 then {[x]} ∪ outstanding k else outstanding k;
  post_keeps p (k : K) : outstanding (post_status p k).2 =
    match p, (post_status p k).1 with Some x, None => {[x]} ∪ outstanding k | _, _ => outstanding k end;
  ask_keeps q (k : K) : outstanding (ask q k).2 = outstanding k;
  cancel_keeps fd x (k : K) : outstanding (cancel_io fd x k).2 = outstanding k;
  dequeue_keeps t (k : K) : match (dequeue t k).1 with
    | inl _ => outstanding (dequeue t k).2 = outstanding k
    | inr entries => NoDup (packets entries) ∧ (∀ x, x ∈ packets entries → x ∈ outstanding k) ∧
        outstanding (dequeue t k).2 = outstanding k ∖ list_to_set (packets entries)
    end }.

Section iocp_spec.
Context {K : Type} `{!Windows K, !WindowsOk K}.
Implicit Types (k : K) (d : iocp K) (x y : loc) (L : loopid) (w : world (iocp K)) (g : ghost) (i : io) (o : op) (P : gset loc).

(** [P]: requests that are pending without a packet, being started or completed. *)
Record Packets (ios : gmap loc io) (pending : list loc) (N P : gset loc) : Prop := {
  pk_io x : x ∈ pending → ∃ i, ios !! x = Some i ∧ io_retire i = None ∧ io_code i ≠ op_native;
  pk_all x : x ∈ pending ↔ x ∈ N ∪ P;
  pk_once x : x ∈ N → x ∉ P }.
Record CpInv L w g P : Prop := {
  pi_inv : Inv ∅ w g;
  pi_packets : ∃ l, w_loops w !! L = Some l ∧ Packets (w_ios w) (a_ios (g L)) (outstanding (io_system (l_driver l))) P }.

Definition same_kind i i' : Prop := io_code i' = io_code i ∧ io_retire i' = io_retire i.
Definition same_state o o' : Prop := op_owner o' = op_owner o ∧ op_active o' = op_active o.
#[local] Instance same_kind_preorder : PreOrder same_kind.
Proof. split; [done|]. intros i1 i2 i3 [? ?] [? ?]. split; congruence. Qed.
#[local] Instance same_state_preorder : PreOrder same_state.
Proof. split; [done|]. intros i1 i2 i3 [? ?] [? ?]. split; congruence. Qed.

Lemma Packets_upd ios pending N P x i i' :
  Packets ios pending N P → ios !! x = Some i → same_kind i i' → Packets (<[x := i']> ios) pending N P.
Proof.
  intros [H1 H2 H3] Hi [Hc Hr]. split; [|done..]. intros y Hy. destruct (decide (y = x)) as [->|]; [|rewrite lookup_insert_ne by done; auto].
  rewrite lookup_insert_eq. exists i'. destruct (H1 x Hy) as (i0&?&?&?). simplify_eq. split_and!; congruence.
Qed.
Lemma Packets_complete ios pending N P x i' :
  Packets ios pending N ({[x]} ∪ P) → x ∉ P → Packets (<[x := i']> ios) (without x pending) N P.
Proof.
  intros [H1 H2 H3] Hx. split.
  - intros y [Hne Hy]%elem_of_without. rewrite lookup_insert_ne by done. auto.
  - intros y. rewrite elem_of_without, H2. specialize (H3 y). set_solver.
  - intros y Hy. specialize (H3 y Hy). set_solver.
Qed.
Lemma Packets_start ios pending N P x : Packets ios pending N ({[x]} ∪ P) → x ∉ P → Packets ios pending ({[x]} ∪ N) P.
Proof. intros [H1 H2 H3] Hx. split; [done| |]; intros y; [rewrite H2|specialize (H3 y)]; set_solver. Qed.
Lemma Packets_new ios pending N x i :
  Packets ios pending N ∅ → x ∉ pending → io_retire i = None → io_code i ≠ op_native → Packets (<[x := i]> ios) (x :: pending) N {[x]}.
Proof.
  intros [H1 H2 H3] Hx Hr Hc. split.
  - intros y [->|Hy]%elem_of_cons; [rewrite lookup_insert_eq; eauto|]. rewrite lookup_insert_ne by (by intros ->). auto.
  - intros y. rewrite elem_of_cons, H2. set_solver.
  - intros y Hy ->%elem_of_singleton. apply Hx, H2. set_solver.
Qed.
Lemma Packets_dequeue ios pending N xs :
  Packets ios pending N ∅ → (∀ x, x ∈ xs → x ∈ N) → Packets ios pending (N ∖ list_to_set xs) (list_to_set xs).
Proof.
  intros [H1 H2 H3] Hxs. split; [done| |].
  - intros y. rewrite H2. destruct (decide (y ∈ xs)) as [Hy|Hy]; [specialize (Hxs y Hy)|]; set_solver.
  - intros y. set_solver.
Qed.

Lemma CpInv_pending L w g P x : CpInv L w g P → x ∈ a_ios (g L) →
  ∃ l o i, w_loops w !! L = Some l ∧ w_ops w !! x = Some o ∧ w_ios w !! x = Some i ∧ op_active o = true ∧
    Packets (w_ios w) (a_ios (g L)) (outstanding (io_system (l_driver l))) P.
Proof.
  intros [I (l&HL&HP)] Hx. destruct (pk_io _ _ _ _ HP x Hx) as (i&Hi&_).
  destruct (inv_pending _ _ _ I L x) as (_&o&Ho&_&Ha); [unfold a_pending; set_solver|]. exists l, o, i. done.
Qed.

(** ** Calls *)
Definition kept_io i i' : Prop := same_kind i i' ∧ io_busy i' = io_busy i ∧ io_reserved i' = io_reserved i.

Section calls.
Variables (L : loopid) (x : loc) (w : world (iocp K)) (l : loop (iocp K)).
Hypothesis HL : w_loops w !! L = Some l.

Lemma call_post {A} (f : K → A * K) d o i (Q : A → world (iocp K) → Prop) E :
  Q (f (io_system d)).1 (at_request L x w (Iocp (io_port d) (f (io_system d)).2) o i) →
  post (on_native L (system_call f)) (at_request L x w d o i) Q E.
Proof. intros HQ. apply (at_native _ _ _ _ HL). unfold post, system_call. by destruct (f (io_system d)). Qed.
Lemma start_call_post c d o i (Q : option Z → world (iocp K) → Prop) E :
  (∀ r d', outstanding (io_system d') = (if started r then {[x]} ∪ outstanding (io_system d) else outstanding (io_system d)) →
    Q r (at_request L x w d' o i)) →
  post (start_call L x c) (at_request L x w d o i) Q E.
Proof. intros HQ. apply call_post, HQ. simpl. apply start_keeps. Qed.
Lemma ask_post q d o i (Q : Z + Z → world (iocp K) → Prop) E :
  (∀ r d', outstanding (io_system d') = outstanding (io_system d) → Q r (at_request L x w d' o i)) →
  post (on_native L (system_call (ask q))) (at_request L x w d o i) Q E.
Proof. intros HQ. apply call_post, HQ. simpl. apply ask_keeps. Qed.
Lemma ask_or_throw_post q d o i (Q : Z → world (iocp K) → Prop) (E : exn → world (iocp K) → Prop) :
  (∀ v d', outstanding (io_system d') = outstanding (io_system d) → Q v (at_request L x w d' o i)) →
  (∀ e d', outstanding (io_system d') = outstanding (io_system d) → E e (at_request L x w d' o i)) →
  post (ask_or_throw L q) (at_request L x w d o i) Q E.
Proof.
  intros HQ HE. apply post_bind, ask_post. intros [code|v] d' Hd; [by apply post_throw, HE|by apply post_ret, HQ].
Qed.
Lemma failed_query_post q d o i (Q : option Z → world (iocp K) → Prop) E :
  (∀ r d', outstanding (io_system d') = outstanding (io_system d) → Q r (at_request L x w d' o i)) →
  post (failed_query L q) (at_request L x w d o i) Q E.
Proof. intros HQ. apply post_bind, ask_post. intros r d' Hd. by apply post_ret, HQ. Qed.

(** The request as the switch leaves it: started, refused, or not started by a throw *)
Definition issued d o i (r : option Z) w' : Prop :=
  ∃ d' i', w' = at_request L x w d' o i' ∧ kept_io i i' ∧
    outstanding (io_system d') = if started r then {[x]} ∪ outstanding (io_system d) else outstanding (io_system d).
Definition thrown d o i w' : Prop :=
  ∃ d' i', w' = at_request L x w d' o i' ∧ kept_io i i' ∧ outstanding (io_system d') = outstanding (io_system d).
Lemma submit_socket_post d o i :
  io_code i ≠ op_native → io_code i ≠ op_nop →
  post (submit_socket L x i) (at_request L x w d o i) (λ r w', issued d o i r w') (λ _ w', thrown d o i w').
Proof.
  intros Hn1 Hn2.
  assert (∀ d1 i1 r d', outstanding (io_system d1) = outstanding (io_system d) → kept_io i i1 →
    outstanding (io_system d') = (if started r then {[x]} ∪ outstanding (io_system d1) else outstanding (io_system d1)) →
    issued d o i r (at_request L x w d' o i1)) as Hstart.
  { intros d1 i1 r d' E Hk Hd. exists d', i1. split_and!; [done..|]. by rewrite Hd, E. }
  assert (∀ d1 i1, outstanding (io_system d1) = outstanding (io_system d) → kept_io i i1 → thrown d o i (at_request L x w d1 o i1)) as Hthrow.
  { intros d1 i1 E Hk. by exists d1, i1. }
  unfold submit_socket. destruct (io_code i) eqn:Hc; try done;
    try (apply start_call_post; intros r d' Hd; by apply (Hstart d i r d')); try (apply post_throw; by apply Hthrow).
  - apply post_bind, ask_or_throw_post; [|intros e d' Hd; by apply Hthrow]. intros family d1 Hd1.
    apply post_bind, ask_or_throw_post; [|intros e d' Hd; apply Hthrow; [congruence|done]]. intros _ d2 Hd2.
    apply post_bind, ask_post. intros r d3 Hd3. apply post_bind, at_upd_io.
    assert (∀ v, kept_io i (set_io_accepted v i)) as Hk by done.
    destruct r as [code|fd]; [apply post_throw, Hthrow; [congruence|done]|].
    apply start_call_post. intros r d' Hd. apply (Hstart d3 _ r d'); [congruence|done|done].
  - apply post_bind, ask_or_throw_post; [|intros e d' Hd; by apply Hthrow]. intros _ d1 Hd1.
    apply post_bind, ask_or_throw_post; [|intros e d' Hd; apply Hthrow; [congruence|done]]. intros _ d2 Hd2.
    apply start_call_post. intros r d' Hd. apply (Hstart d2 i r d'); [congruence|done|done].
Qed.
End calls.

(** ** Submission *)
Record starting L x P w g l o i : Prop := {
  sg_inv : Inv ∅ w g;
  sg_loop : w_loops w !! L = Some l;
  sg_packets : Packets (w_ios w) (a_ios (g L)) (outstanding (io_system (l_driver l))) ({[x]} ∪ P);
  sg_new : x ∉ P;
  sg_pending : x ∈ a_ios (g L);
  sg_op : w_ops w !! x = Some o;
  sg_io : w_ios w !! x = Some i;
  sg_active : op_active o = true }.
(** Completed at once because no packet will come, or waiting for its packet. *)
Definition began L x P g w' : Prop :=
  (CpInv L w' (g_complete L x g) P ∧ op_active <$> w_ops w' !! x = Some false) ∨
  (CpInv L w' g P ∧ op_active <$> w_ops w' !! x = Some true).

Lemma complete_packet L x P w g l d o i o' i' :
  Inv ∅ w g → w_loops w !! L = Some l → x ∈ a_ios (g L) → w_ops w !! x = Some o → w_ios w !! x = Some i →
  same_state o o' → same_kind i i' → x ∉ P → Packets (w_ios w) (a_ios (g L)) (outstanding (io_system d)) ({[x]} ∪ P) →
  runs (complete L x) (at_request L x w d o' i') (λ _ w', CpInv L w' (g_complete L x g) P ∧ op_active <$> w_ops w' !! x = Some false).
Proof.
  intros I HL Hx Ho Hi [H1 H2] [H3 H4] HP HR. destruct (pk_io _ _ _ _ HR x Hx) as (i0&Hi0&Hr0&_). simplify_eq.
  eapply post_mono; [apply (at_complete L x w g l d o o' i i' I HL Hx Ho Hi H1 H2); congruence| |done].
  intros [] w' (I2&Hops&Hios&l'&HL'&Hl'). rewrite Hops, lookup_insert_eq. split; [|done].
  split; [done|]. exists l'. split; [done|]. rewrite Hl', Hios. unfold g_complete. rewrite upd_g_eq. simpl. by apply Packets_complete.
Qed.
Lemma started_pending L x P w g l d o i i' :
  starting L x P w g l o i → kept_io i i' → outstanding (io_system d) = {[x]} ∪ outstanding (io_system (l_driver l)) →
  began L x P g (at_request L x w d o i').
Proof.
  intros S [Hk _] Hd. pose proof S as [I HL HP Hn Hx Ho Hi Ha]. right. split; [|simpl; rewrite lookup_insert_eq; simpl; by rewrite Ha].
  split; [by eapply (at_request_inv L x w g l)|]. eexists. split; [simpl; by rewrite lookup_alter_eq, HL|]. simpl. rewrite Hd.
  eapply Packets_upd; [|done|done]. by apply Packets_start.
Qed.
Lemma iocp_submit_post L x P w g l o i :
  starting L x P w g l o i →
  post (iocp_submit L x) w (λ _ w', began L x P g w') (λ _ w', thrown L x w (l_driver l) o i w').
Proof.
  intros S. pose proof S as [I HL HP Hn Hx Ho Hi Ha]. destruct (pk_io _ _ _ _ HP x Hx) as (i0&Hi0&Hret&Hnat). simplify_eq.
  rewrite (at_request_id L x w l HL o i Ho Hi) at 1. unfold iocp_submit. apply post_bind, at_the_io.
  assert (∀ d o' i' E, outstanding (io_system d) = outstanding (io_system (l_driver l)) → same_state o o' → kept_io i i' →
    post (complete L x) (at_request L x w d o' i') (λ _ w', began L x P g w') E) as Hnow.
  { intros d o' i' E Hd Hs [Hk _]. eapply post_mono; [apply (complete_packet L x P w g l d o i o' i' I HL Hx Ho Hi Hs Hk Hn); by rewrite Hd| |done].
    intros [] w'. by left. }
  destruct (is_file (io_code i)) eqn:Hf.
  - unfold submit_file. apply post_bind, (start_call_post _ _ _ _ HL). intros [error|] d Hd; simpl in Hd;
      [|by apply post_ret, (started_pending L x P w g l d o i i S)].
    apply post_when; intros Hpend; rewrite ?negb_true_iff, ?negb_false_iff in Hpend; rewrite Hpend in Hd.
    + apply post_bind, post_when; intros _; [apply at_upd_op|]; by apply Hnow.
    + by apply (started_pending L x P w g l d o i i S).
  - case_bool_decide as Hnop.
    + apply post_bind, (call_post _ _ _ _ HL). pose proof (post_keeps (Some x) (io_system (l_driver l))) as Hp.
      destruct (post_status (Some x) (io_system (l_driver l))) as [[code|] k] eqn:Es; rewrite ?Es in Hp; simpl in *; [apply post_throw|apply post_ret].
      * exists (Iocp (io_port (l_driver l)) k), i. split_and!; [reflexivity|done|]. simpl. exact Hp.
      * by apply (started_pending L x P w g l _ o i i S).
    + apply post_bind. eapply post_mono; [by apply (submit_socket_post L x w l HL (l_driver l) o i)| |done].
      intros r w1 (d&i'&->&Hk&Hd). destruct r as [error|]; simpl in Hd; [|by apply post_ret, (started_pending L x P w g l d o i i' S)].
      apply post_when; intros Hpend; rewrite ?negb_true_iff, ?negb_false_iff in Hpend; change WSA_IO_PENDING with ERROR_IO_PENDING in Hpend; rewrite Hpend in Hd.
      * apply post_bind, at_upd_op. by apply Hnow.
      * by apply (started_pending L x P w g l d o i i' S).
Qed.

(** ** Completion *)
Section finishing.
Variables (L : loopid) (x : loc) (w : world (iocp K)) (l : loop (iocp K)) (o0 : op) (i0 : io).
Hypothesis HL : w_loops w !! L = Some l.
(** Only the outcome of the request has changed so far. *)
Definition settling w' : Prop :=
  ∃ d o i, w' = at_request L x w d o i ∧ outstanding (io_system d) = outstanding (io_system (l_driver l)) ∧ same_state o0 o ∧ same_kind i0 i.
Lemma settling_error q f w' :
  settling w' → runs (r ← failed_query L q; match r with None => mret tt | Some error => upd_op x (set_op_error (Some (f error))) end) w' (λ _, settling).
Proof.
  intros (d&o&i&->&Hd&Hs&Hk). apply post_bind, (failed_query_post _ _ _ _ HL). intros [error|] d' Hd'; [apply at_upd_op|apply post_ret].
  - exists d', (set_op_error (Some (f error)) o), i. split_and!; [done|congruence|by etrans|done].
  - exists d', o, i. split_and!; [done|congruence|done|done].
Qed.
Lemma finish_file_post e i1 w' : settling w' → runs (finish_file L x e i1) w' (λ _, settling).
Proof.
  intros H. unfold finish_file. destruct (en_failed e); [|by apply post_ret]. destruct H as (d&o&i&->&Hd&Hs&Hk).
  apply post_bind, (failed_query_post _ _ _ _ HL). intros [error|] d' Hd'; [destruct (_ && _); [apply at_upd_io|apply at_upd_op]|apply post_ret].
  - exists d', o, (set_io_bytes 0 i). split_and!; [done|congruence|done|by etrans].
  - exists d', (set_op_error (Some (io_error_of error)) o), i. split_and!; [done|congruence|by etrans|done].
  - exists d', o, i. split_and!; [done|congruence|done|done].
Qed.
Lemma update_context_post c q w' : settling w' → runs (update_context L x c q) w' (λ _, settling).
Proof.
  intros H. pose proof H as (d&o&i&->&Hd&Hs&Hk). unfold update_context. apply post_bind, at_the_op, post_bind, at_the_io.
  destruct (_ && _); [|by apply post_ret]. by apply (settling_error q native_error).
Qed.
Lemma finish_socket_post e i1 w' : settling w' → runs (finish_socket L x e i1) w' (λ _, settling).
Proof.
  intros H. unfold finish_socket. apply post_bind.
  eapply (post_mono _ _ (λ _, settling) _ (λ _ _, False)); [destruct (en_failed e); [by apply settling_error|by apply post_ret]| |done].
  intros [] w1 H1. apply post_bind. eapply post_mono; [by apply update_context_post| |done]. intros [] w2 H2. by apply update_context_post.
Qed.
End finishing.

Lemma iocp_entry_post L e x P w g :
  en_packet e = Some x → CpInv L w g ({[x]} ∪ P) → x ∉ P → x ∈ a_ios (g L) →
  runs (iocp_entry L e) w (λ _ w', CpInv L w' (g_complete L x g) P).
Proof.
  intros He HK HP Hx. destruct (CpInv_pending L w g _ x HK Hx) as (l&o&i&HL&Ho&Hi&Ha&HR). pose proof HK as [I _].
  unfold iocp_entry. rewrite He. rewrite (at_request_id L x w l HL o i Ho Hi) at 1. apply post_bind, at_the_io.
  assert (∀ i', same_kind i i' → settling L x w l o i (at_request L x w (l_driver l) o i')) as Hset by (intros i' Hk; by exists (l_driver l), o, i').
  assert (∀ i', same_kind i i' → runs (upd_io x (set_io_bytes (en_bytes e)) ;; 
    (if is_file (io_code i) then finish_file L x e i else when (negb (bool_decide (io_code i = op_nop))) (finish_socket L x e i)) ;; complete L x)
    (at_request L x w (l_driver l) o i') (λ _ w', CpInv L w' (g_complete L x g) P)) as Hrest.
  { intros i' Hk. apply post_bind, at_upd_io, post_bind.
    eapply (post_mono _ _ (λ _, settling L x w l o i) _ (λ _ _, False)).
    - destruct (is_file (io_code i)); [apply (finish_file_post _ _ _ _ _ _ HL); by apply Hset|].
      apply post_when; intros _; [apply (finish_socket_post _ _ _ _ _ _ HL)|]; by apply Hset.
    - intros [] w' (d&o'&i2&->&Hd&Hs&Hk2).
      eapply post_mono; [apply (complete_packet L x P w g l d o i o' i2 I HL Hx Ho Hi Hs Hk2 HP); by rewrite Hd| |done]. by intros [] w' [? _].
    - done. }
  apply post_bind, post_when; intros _; [apply post_bind, at_upd_io, at_upd_io|]; by apply Hrest.
Qed.
Lemma iocp_entries_post L entries : ∀ w g,
  CpInv L w g (list_to_set (packets entries)) → NoDup (packets entries) → (∀ x, x ∈ packets entries → x ∈ a_ios (g L)) →
  runs (for_each (iocp_entry L) entries) w (λ _ w', CpInv L w' (g_completes L (packets entries) g) ∅).
Proof.
  induction entries as [|e entries IH]; intros w g HK Hnd Hin; [by apply post_ret|]. simpl. apply post_bind.
  unfold packets in *. simpl in *. destruct (en_packet e) as [x|] eqn:He.
  - apply NoDup_cons in Hnd as [Hne Hnd]. simpl in HK.
    eapply post_mono; [apply (iocp_entry_post L e x (list_to_set (omap en_packet entries)) w g He HK); [by rewrite elem_of_list_to_set|apply Hin; by left]| |done].
    intros [] w' HK'. apply (IH w' (g_complete L x g) HK' Hnd). intros y Hy. unfold g_complete. rewrite upd_g_eq. simpl.
    apply elem_of_without. split; [by intros ->|apply Hin; by right].
  - unfold iocp_entry at 1. rewrite He. apply post_ret. by apply IH.
Qed.
Lemma CpInv_woken L w g P l :
  CpInv L w g P → w_loops w !! L = Some l → CpInv L (set_w_loops (<[L := set_l_woken false l]> (w_loops w)) w) g P.
Proof.
  intros [I (l'&HL'&HR)] HL. simplify_eq. split; [by eapply Inv_upd_loop|]. eexists. split; [simpl; apply lookup_insert_eq|done].
Qed.

(** C17: Polling a completion port: each packet dequeued completes the request it belongs to,
    which is still pending, and makes its continuation ready, in the order of the
    packets; afterwards the outstanding packets are exactly those of the requests still
    pending, so that a request is never completed twice or touched after completion.  A
    failed wait changes nothing. *)
Theorem iocp_poll_spec L delay w g :
  CpInv L w g ∅ →
  post (iocp_poll L delay) w
    (λ _ w', ∃ ds, NoDup ds ∧ (∀ x, x ∈ ds → x ∈ a_ios (g L)) ∧ CpInv L w' (g_completes L ds g) ∅ ∧
       a_ready (g_completes L ds g L) = a_ready (g L) ++ ds ∧
       ∃ l', w_loops w' !! L = Some l' ∧ ∀ x, x ∈ outstanding (io_system (l_driver l')) ↔ x ∈ a_ios (g L) ∧ x ∉ ds)
    (λ _ w', CpInv L w' g ∅).
Proof.
  intros HK. pose proof HK as [I (l&HL&HR)]. unfold iocp_poll. apply post_bind.
  assert (∀ w' ds, CpInv L w' (g_completes L ds g) ∅ → NoDup ds → (∀ x, x ∈ ds → x ∈ a_ios (g L)) →
    ∃ ds, NoDup ds ∧ (∀ x, x ∈ ds → x ∈ a_ios (g L)) ∧ CpInv L w' (g_completes L ds g) ∅ ∧
       a_ready (g_completes L ds g L) = a_ready (g L) ++ ds ∧
       ∃ l', w_loops w' !! L = Some l' ∧ ∀ x, x ∈ outstanding (io_system (l_driver l')) ↔ x ∈ a_ios (g L) ∧ x ∉ ds) as Hend.
  { intros w' ds HK' Hnd Hds. exists ds. destruct (g_completes_lists L ds g) as [H1 H2]. split_and!; try done.
    destruct HK' as [_ (l'&HL'&HR')]. exists l'. split; [done|]. intros x. rewrite <- H2, (pk_all _ _ _ _ HR'). set_solver. }
  unfold on_native. eapply post_zoom; [by rewrite HL|]. unfold post at 1, system_call.
  pose proof (dequeue_keeps (timeout_ms delay) (io_system (l_driver l))) as Hw.
  destruct (dequeue (timeout_ms delay) (io_system (l_driver l))) as [[error|entries] k'] eqn:E; simpl in Hw.
  all: set (w1 := set_w_loops _ w); assert (Inv ∅ w1 g) as I1 by (by apply Inv_native).
  all: assert (w_loops w1 !! L = Some (set_l_driver (Iocp (io_port (l_driver l)) k') l)) as HL1 by (unfold w1; simpl; by rewrite lookup_alter_eq, HL).
  - assert (CpInv L w1 g ∅) as HK1 by (split; [done|]; eexists; split; [exact HL1|]; simpl; by rewrite Hw).
    case_bool_decide; [apply post_ret|by apply post_throw]. apply (Hend w1 []); [done|constructor|set_solver].
  - destruct Hw as (Hnd&Hin&HN).
    assert (∀ x, x ∈ packets entries → x ∈ a_ios (g L)) as Hpend by (intros x Hx; apply (pk_all _ _ _ _ HR); specialize (Hin x Hx); set_solver).
    assert (CpInv L w1 g (list_to_set (packets entries))) as HK1.
    { split; [done|]. eexists. split; [exact HL1|]. simpl. rewrite HN. by apply Packets_dequeue. }
    apply post_bind, post_when; intros _; [eapply post_upd_loop; [exact HL1|]; apply (CpInv_woken _ _ _ _ _ HK1) in HL1 as HK2|];
      (eapply post_mono; [apply (iocp_entries_post L entries _ g); done| |done]; intros [] w' HKd; by apply (Hend w' (packets entries) HKd)).
Qed.

(** ** Cancellation and suspension *)

(** Cancellation only asks: the request stays pending until its packet is dequeued,
    whatever the system answers. *)
Theorem iocp_cancel_spec L x w g :
  CpInv L w g ∅ → x ∈ a_ios (g L) →
  post (iocp_cancel L x) w
    (λ _ w', CpInv L w' g ∅ ∧ io_cancel_sent <$> w_ios w' !! x = Some true)
    (λ _ w', CpInv L w' g ∅ ∧ io_cancel_sent <$> w_ios w' !! x = Some true).
Proof.
  intros HK Hx. destruct (CpInv_pending L w g ∅ x HK Hx) as (l&o&i&HL&Ho&Hi&Ha&HR). pose proof HK as [I _].
  rewrite (at_request_id L x w l HL o i Ho Hi) at 1. unfold iocp_cancel. apply post_bind, at_upd_io, post_bind, at_the_io.
  assert (∀ d, outstanding (io_system d) = outstanding (io_system (l_driver l)) →
    CpInv L (at_request L x w d o (set_io_cancel_sent true i)) g ∅ ∧
    io_cancel_sent <$> w_ios (at_request L x w d o (set_io_cancel_sent true i)) !! x = Some true) as Hend.
  { intros d Hd. split; [|simpl; by rewrite lookup_insert_eq]. split; [by eapply (at_request_inv L x w g l)|].
    eexists. split; [simpl; by rewrite lookup_alter_eq, HL|]. simpl. rewrite Hd. by eapply Packets_upd. }
  case_bool_decide; [by apply post_ret, Hend|].
  apply post_bind, (call_post _ _ _ _ HL). pose proof (cancel_keeps (io_fd (set_io_cancel_sent true i)) x (io_system (l_driver l))) as Hk.
  destruct (cancel_io _ x (io_system (l_driver l))) as [[error|] k] eqn:E; simpl in *; [case_bool_decide|]; [apply post_ret|apply post_throw|apply post_ret]; by apply Hend.
Qed.

(** Suspension on a completion port, on every branch: a busy direction is refused without
    effect; a stop already requested completes the request without suspending; a call
    that fails at once completes the request, which will get no packet; a call that was
    started, even one that has already succeeded, leaves it pending until its one packet
    arrives; and when preparing the call throws, the request is unlinked again, inactive,
    and no packet is outstanding for it. *)
Theorem iocp_await_suspend_spec w g x o i lk l h :
  CpInv (op_owner o) w g ∅ → fresh_io w g x o i lk → w_loops w !! op_owner o = Some l → l_thread l = w_thread w →
  (∀ f, io_busy i = Some f → is_Some (w_flags w !! f)) → io_retire i = None → io_code i ≠ op_native →
  post (io_await_suspend x h) w
    (λ b w', busy_now w i = false ∧
       if b : bool
       then (l_stopping l || requested w (io_token i)) = false ∧ began (op_owner o) x ∅ (g_start (op_owner o) x g) w'
       else (l_stopping l || requested w (io_token i)) = true ∧ w' = set_w_ops (<[x := refused o]> (w_ops w)) w)
    (λ e w', if busy_now w i then e = logic_error "socket direction already in use" ∧ w' = w
             else CpInv (op_owner o) w' g ∅ ∧ op_active <$> w_ops w' !! x = Some false ∧
                  ∀ l', w_loops w' !! op_owner o = Some l' → x ∉ outstanding (io_system (l_driver l'))).
Proof.
  intros [I (l0&HL0&HR)] F HL Ht Hf Hret Hnat. assert (l0 = l) as -> by congruence. clear HL0.
  pose proof (fi_op _ _ _ _ _ _ F) as Ho. pose proof (fi_idle _ _ _ _ _ _ F) as Ha.
  eapply io_await_cases; [exact I|exact F|exact HL|exact Ht|exact Hf|by intros ->|by auto|].
  intros Hb Hs w2 l2 [I2 Hops2 Hios2 Hfl2 HL2 Hd2 _ _]. rewrite Hb.
  assert (w_ops w2 !! x = Some (armed w (io_token i) o)) as Ho2 by (rewrite Hops2; apply lookup_insert_eq).
  assert (w_ios w2 !! x = Some (reserved_io i)) as Hi2 by (rewrite Hios2; apply lookup_insert_eq).
  assert (same_kind i (reserved_io i)) as Hk2 by (unfold reserved_io; by destruct (io_busy i)).
  pose proof (armed_owner w (io_token i) o) as Hown. set (L := op_owner o) in *.
  assert (x ∉ a_ios (g L)) as Hnew by (intros Hx; eapply (inv_inactive _ _ _ L); [exact I|done..|unfold a_pending; set_solver]).
  assert (a_ios (g_start L x g L) = x :: a_ios (g L)) as Hios by (unfold g_start; by rewrite upd_g_eq).
  assert (Packets (w_ios w2) (a_ios (g_start L x g L)) (outstanding (io_system (l_driver l2))) ({[x]} ∪ ∅)) as HR2.
  { rewrite Hd2, Hios, Hios2, union_empty_r_L. destruct Hk2. apply Packets_new; [done|done|congruence|congruence]. }
  assert (x ∈ a_ios (g_start L x g L)) as Hx2 by (rewrite Hios; by left).
  destruct (bool_decide (io_size i = 0%Z) && is_stream (io_code i)).
  - rewrite (at_request_id L x w2 l2 HL2 _ _ Ho2 Hi2) at 1.
    eapply post_mono; [apply (complete_packet L x ∅ w2 _ l2 _ _ _ _ _ I2 HL2 Hx2 Ho2 Hi2); [done|done|set_solver|done]| |done].
    intros [] w3 HK3. split_and!; [done|done|]. by left.
  - eapply post_mono; [apply (iocp_submit_post L x ∅ w2 (g_start L x g) l2 (armed w (io_token i) o) (reserved_io i)); by split| |].
    + intros [] w3 Hsub. done.
    + intros e w3 (d3&i3&->&[Hk3 _]&Hd3).
      assert (Inv ∅ (at_request L x w2 d3 (armed w (io_token i) o) i3) (g_start (op_owner (armed w (io_token i) o)) x g)) as I3.
      { rewrite Hown. by eapply (at_request_inv L x w2 _ l2). }
      assert (w_ops (at_request L x w2 d3 (armed w (io_token i) o) i3) !! x = Some (armed w (io_token i) o)) as Ho3 by (simpl; apply lookup_insert_eq).
      pose proof (io_rollback_spec _ g x _ e I3 Ho3) as Hroll. rewrite Hown in Hroll.
      eapply post_mono; [exact Hroll|done|].
      intros e' w4 (->&I4&Hops4&Hios4&_&_&_&Hdrv). specialize (Hdrv L). simpl in Hdrv. rewrite lookup_alter_eq, HL2 in Hdrv. simpl in Hdrv.
      assert (x ∉ outstanding (io_system (l_driver l))) as Hout.
      { intros Hx. apply Hnew. apply (pk_all _ _ _ _ HR). set_solver. }
      destruct (w_loops w4 !! L) as [l4|] eqn:HL4; simplify_eq/=. split_and!.
      * split; [done|]. exists l4. split; [done|]. rewrite Hd3, Hd2, Hios4. simpl. rewrite Hios2, insert_insert_eq.
        destruct HR as [H1 H2 H3]. split; [|done..]. intros y Hy. rewrite lookup_insert_ne by (by intros ->). auto.
      * by rewrite Hops4, lookup_insert_eq.
      * intros l' [= <-]. by rewrite Hd3, Hd2.
Qed.

(** The timeout of a poll in milliseconds is a 32-bit number that is never below the
    delay and exceeds it by less than a millisecond unless it is capped; only a negative
    delay, which blocks, is [INFINITE]. *)
Theorem timeout_ms_bounds delay :
  (0 ≤ timeout_ms delay < 2 ^ 32)%Z ∧ (timeout_ms delay = INFINITE ↔ delay < 0)%Z ∧
  ((0 ≤ delay ≤ 1000000 * (INFINITE - 1))%Z → (delay ≤ 1000000 * timeout_ms delay < delay + 1000000)%Z).
Proof.
  unfold timeout_ms, ceil_ms, INFINITE. pose proof (Z.div_mod (- delay) 1000000 ltac:(lia)).
  pose proof (Z.mod_pos_bound (- delay) 1000000 ltac:(lia)). case_bool_decide; lia.
Qed.
End iocp_spec.
