(* ===== verification/Hooks.v ===== *)
(** * Requests with completion hooks (src/uring_net.cpp, src/uring_ops.cpp)

    Zero-copy sends and batch entries are retired through a hook that sets events.  The
    lemmas here describe setting an event and retiring such a request as the requests see
    them. *)
From S2P Require Import Prelude ReadyQueue Links Heap Core Loop LoopInv LoopSpec Event Io.

Section hooked.
Context {D : Type}.
Implicit Types (w : world D) (g : ghost) (x e : loc) (L : loopid).

(** A pending request is on the list of its loop. *)
Lemma active_io w g x o :
  Inv ∅ w g → w_ops w !! x = Some o → op_active o = true → is_Some (w_ios w !! x) → x ∈ a_ios (g (op_owner o)).
Proof.
  intros I Ho Ha [i Hi]. destruct (inv_active _ _ _ I _ _ Ho Ha) as [[]%not_elem_of_empty|Hx].
  unfold a_pending in Hx. rewrite !elem_of_app in Hx. destruct Hx as [Hx|[Hx|Hx]]; [|done|].
  - apply (inv_kind_wait _ _ _ I) in Hx. destruct (inv_class _ _ _ I _ Hx). congruence.
  - apply (inv_kind_timer _ _ _ I) in Hx as [? Hx]. rewrite (inv_classes _ _ _ I x) in Hx by eauto. done.
Qed.

(** The events do not depend on operations that are not awaiters. *)
Lemma EInv_other w w' ge :
  EInv w ge → same_events w w' → (∀ x, is_Some (w_awaiters w !! x) → w_ops w' !! x = w_ops w !! x) → EInv w' ge.
Proof.
  intros [[E1 E2 E3 E4 E5] ES] (Hev&Haw&Hal&Hwt&_) Hops. split; [constructor|]; rewrite ?Hev, ?Haw, ?Hal, ?Hwt; try assumption.
  - intros x a Ha. destruct (E4 x a Ha) as (?&?&o&v&?&?&?). split_and!; [done..|]. exists o, v. rewrite Hops by eauto. done.
  - intros e v x o. rewrite Hev. intros He Hs Hx. destruct (E2 e x Hx) as (a&Ha&_). rewrite Hops by eauto. by eapply ES.
Qed.
Lemma request_not_awaiter w g ge x y :
  Inv ∅ w g → EInv w ge → is_Some (w_ios w !! x) → is_Some (w_awaiters w !! y) → x ≠ y.
Proof.
  intros I [E _] [i Hi] [a Ha] ->. destruct (ei_awaiter _ _ E _ _ Ha) as (Hw&_). destruct (inv_class _ _ _ I _ Hw). congruence.
Qed.

(** Setting an event, as it looks to the requests. *)
Record signalled w w' ge e v : Prop := {
  sg_inv : ∃ g', Inv ∅ w' g';
  sg_events : EInv w' ge;
  sg_op x : is_Some (w_ios w !! x) → w_ops w' !! x = w_ops w !! x;
  sg_cells : w_cells w' = w_cells w;
  sg_ios : w_ios w' = w_ios w;
  sg_flags : w_flags w' = w_flags w;
  sg_set : w_events w' = <[e := set_event_set true v]> (w_events w);
  sg_self : w_thread w' = w_thread w;
  sg_thread L : l_thread <$> w_loops w' !! L = l_thread <$> w_loops w !! L }.
Lemma signal_other w g ge e v l :
  Inv ∅ w g → EInv w ge → w_events w !! e = Some v → w_loops w !! event_loop v = Some l → l_thread l = w_thread w →
  runs (event_signal e) w (λ _ w', signalled w w' ge e v).
Proof.
  intros I EI Hv HL Ht. eapply post_mono; [by apply (event_signal_spec w g ge e v l)| |done].
  intros [] w' (I'&E'&Hops&Hev&[F FL]). split; [by eexists|done| |by rewrite F|by rewrite F|by rewrite F|done|by rewrite F|].
  - intros x Hx. rewrite Hops. unfold retire_all. rewrite map_lookup_imap. destruct (w_ops w !! x) as [o|]; [|done]. simpl.
    rewrite decide_False; [done|]. intros Hg. destruct (ei_linked _ _ (proj1 EI) _ _ Hg) as (a&Ha&_).
    by apply (request_not_awaiter w g ge x x I EI Hx ltac:(eauto)).
  - intros L. specialize (FL L). simpl in FL. destruct (w_loops w !! L), (w_loops w' !! L); simpl in *; try done.
    unfold loop_frame in FL. by rewrite FL.
Qed.

(** The event [e] of the loop [L] is set or not. *)
Definition event_is w (e : loc) L (b : bool) : Prop :=
  ∃ u, w_events w !! e = Some u ∧ event_loop u = L ∧ event_set u = b.
Lemma signalled_is w w' ge e u e' L b :
  signalled w w' ge e u → w_events w !! e = Some u → event_is w e' L b → event_is w' e' L (if decide (e' = e) then true else b).
Proof.
  intros S Hv (v'&Hv'&HL&Hb). unfold event_is. rewrite (sg_set _ _ _ _ _ S). destruct (decide (e' = e)) as [->|].
  - simplify_eq. rewrite lookup_insert_eq. by eexists.
  - rewrite lookup_insert_ne by done. by eexists.
Qed.

(** A request with a hook leaves the list of its loop before its hook runs. *)
Lemma complete_hook w g L x o i r (Q : unit → world D → Prop) E :
  Inv ∅ w g → x ∈ a_ios (g L) → w_ops w !! x = Some o → w_ios w !! x = Some i → io_retire i = Some r →
  (∀ w1 g1, Inv ∅ w1 g1 → w_ops w1 = <[x := retired o]> (w_ops w) → w_ios w1 = w_ios w → w_flags w1 = w_flags w →
     w_cells w1 = w_cells w → same_events w w1 →
     (∀ L', l_thread <$> w_loops w1 !! L' = l_thread <$> w_loops w !! L') → post (retire_hook r) w1 Q E) →
  post (complete L x) w Q E.
Proof.
  intros I Hx Ho Hi Hr HQ. destruct (inv_pending _ _ _ I L x) as (_&o'&?&Hown&Ha); [unfold a_pending; set_solver|]. simplify_eq.
  destruct (inv_op _ _ _ I _ _ Ho) as ([l HL]&_). destruct (elem_of_split _ _ Hx) as (l1&l2&Hios).
  pose proof (inv_ios _ _ _ I _ _ HL) as Hrep. rewrite Hios in Hrep.
  pose proof (Inv_unlink_io _ _ _ _ _ _ _ _ I HL Hios) as I2.
  unfold complete. apply post_bind. eapply post_on_ios; [done| |].
  { rewrite (dl_rep_head _ _ _ Hrep). apply unlink_front_run. by rewrite <- (dl_rep_head _ _ _ Hrep). }
  simpl. step. rewrite Hr. step. step. simpl. rewrite insert_insert_eq. eapply HQ; try done.
  - eapply Inv_set, (Inv_deactivate _ _ _ x o (retired o) I2); [set_solver|set_solver|done..].
  - intros L'. simpl. destruct (decide (op_owner o = L')) as [<-|]; [by rewrite lookup_alter_eq, HL|by rewrite lookup_alter_ne].
Qed.
End hooked.
