(* ===== verification/Batch.v ===== *)
(** * Submission batches (src/uring_ops.cpp: [submit])

    Several prepared entries are submitted as one chain: they are checked and linked, the
    queue is emptied until all of them fit, and then they are published one after the
    other.  Each entry has a result slot; the last one to be retired sets the event the
    coroutine waits for. *)
From S2P Require Import Prelude ReadyQueue Links Heap Core Loop LoopInv LoopSpec Event Io Uring UringSpec Native.

(** Bit numbers of [sqe.flags] *)
Definition IOSQE_IO_LINK : Z := 2.
Definition IOSQE_IO_HARDLINK : Z := 3.
Definition IOSQE_BUFFER_SELECT : Z := 5.
Definition IOSQE_CQE_SKIP_SUCCESS : Z := 6.
(** [enum class link] *)
Inductive link_order := link_none | link_soft | link_hard.

(** ** Checking and linking *)

(** The [switch] over [sqe.opcode] *)
Definition batch_opcode (p : prep) : bool :=
  match p with
  | prep_nop | prep_read _ _ _ _ | prep_write _ _ _ _ | prep_readv _ _ _ _ | prep_writev _ _ _ _
  | prep_read_fixed _ _ _ _ _ | prep_write_fixed _ _ _ _ _ | prep_fsync _ _ | prep_fallocate _ _ _ _
  | prep_splice _ _ _ _ _ _ => true
  | _ => false
  end.
Definition batch_flags (flags : Z) : bool :=
  Z.testbit flags IOSQE_CQE_SKIP_SUCCESS || Z.testbit flags IOSQE_BUFFER_SELECT ||
  Z.testbit flags IOSQE_IO_LINK || Z.testbit flags IOSQE_IO_HARDLINK.
Definition link_flags (order : link_order) (last : bool) (flags : Z) : Z :=
  if last then flags else
    match order with
    | link_none => flags
    | link_soft => Z.lor flags (2 ^ IOSQE_IO_LINK)
    | link_hard => Z.lor flags (2 ^ IOSQE_IO_HARDLINK)
    end.
(** The loop over the entries *)
Fixpoint batch_prepare (order : link_order) (entries : list sqe) : exn + list sqe :=
  match entries with
  | [] => inr []
  | e :: rest =>
      if negb (batch_opcode (sqe_prep e)) then inl (invalid_argument "batch requires supported single-shot operations")
      else if batch_flags (sqe_flags e) then inl (invalid_argument "invalid batch SQE flags")
      else
        match batch_prepare order rest with
        | inl x => inl x
        | inr es => inr (set_sqe_flags (link_flags order (bool_decide (rest = [])) (sqe_flags e)) e :: es)
        end
  end.
Definition drains (entries : list sqe) : bool := existsb (λ e, Z.testbit (sqe_flags e) IOSQE_IO_DRAIN) entries.

Section batch.
Context {K : Type} `{!Liburing K}.
Implicit Types (k : K) (d : driver K) (x : loc) (L : loopid) (w : world (driver K)) (g : ghost) (e : sqe) (t : token).
Local Abbreviation M := (M (world (driver K))).

(** [struct entry : detail::io] *)
Definition batch_io e (output pending done : loc) : io :=
  {| io_code := op_native; io_fd := -1; io_data := 0; io_size := 0; io_offset := 0; io_address := [];
     io_address_size := 0; io_accepted := -1; io_bytes := 0; io_token := None; io_canceling := false;
     io_cancel_sent := false; io_started := false; io_done := false; io_busy := None; io_reserved := false;
     io_prepare := Some e; io_result := Some (result_entry output); io_retire := Some (retire_entry pending done);
     io_draining := false |}.
(** A node: its address and that of its result slot *)
Definition batch_nodes L (nodes : list (loc * loc)) (entries : list sqe) (pending done : loc) : M unit :=
  for_each (λ p : (loc * loc) * sqe, modify (new_io p.1.1 L (batch_io p.2 p.1.2 pending done))) (zip nodes entries).
(** [for (auto& request : requests) if (token.stop_possible()) request.callback.emplace(...)] *)
Definition batch_callbacks (nodes : list loc) t : M unit :=
  for_each (λ x, b ← gets (λ w, possible w t); when b (upd_op x (set_op_callback t))) nodes.
(** From [access::reserve] to the last [access::start] *)
Definition batch_publish L (nodes : list loc) (drain : bool) t : M unit :=
  reserve L (length nodes) drain ;;
  batch_callbacks nodes t ;;
  for_each access_start nodes.
(** [task<std::vector<int>> submit(loop, entries, order, token)] up to [co_await done.join()];
    [false] when there is nothing to wait for.  The event, the counter and the result
    slots live in the coroutine frame. *)
Definition batch_begin L (entries : list sqe) (order : link_order) t (nodes : list (loc * loc)) (pending done : loc) : M bool :=
  check L ;;
  st ← stopped L;
  rq ← gets (λ w, requested w t);
  if st || rq then throw (system_error operation_canceled)
  else if bool_decide (entries = []) then mret false
  else if bool_decide (32768 < Z.of_nat (length entries))%Z then throw (invalid_argument "batch exceeds maximum ring size")
  else
    modify (λ w, set_w_events (<[done := Event L false None]> (w_events w)) w) ;;
    modify (λ w, set_w_cells (<[pending := Z.of_nat (length entries)]> (foldr (λ p, insert p.2 0%Z) (w_cells w) nodes)) w) ;;
    match batch_prepare order entries with
    | inl err => throw err
    | inr es =>
        batch_nodes L nodes es pending done ;;
        try_catch (batch_publish L nodes.*1 (drains es) t) (λ err, for_each io_destroy nodes.*1 ;; throw err) ;;
        mret true
    end.
(** [co_return results;] *)
Fixpoint batch_results (outputs : list loc) : M (list Z) :=
  match outputs with
  | [] => mret []
  | c :: outputs' => v ← the_cell c; vs ← batch_results outputs'; mret (v :: vs)
  end.
End batch.

(** ** Checking and linking *)
Definition batch_ok (e : sqe) : bool := batch_opcode (sqe_prep e) && negb (batch_flags (sqe_flags e)).
(** The entry at position [i] of a chain of [n] *)
Definition linked_entry (order : link_order) (n i : nat) (e : sqe) : sqe :=
  set_sqe_flags (link_flags order (bool_decide (S i = n)) (sqe_flags e)) e.
Lemma link_drain order last flags : Z.testbit (link_flags order last flags) IOSQE_IO_DRAIN = Z.testbit flags IOSQE_IO_DRAIN.
Proof.
  unfold link_flags, IOSQE_IO_DRAIN. destruct last, order; try done; rewrite Z.lor_spec.
  - change (Z.testbit (2 ^ IOSQE_IO_LINK) 1) with false. apply orb_false_r.
  - change (Z.testbit (2 ^ IOSQE_IO_HARDLINK) 1) with false. apply orb_false_r.
Qed.
Lemma drains_cons e es : drains (e :: es) = Z.testbit (sqe_flags e) IOSQE_IO_DRAIN || drains es.
Proof. done. Qed.
(** A batch is accepted exactly when every entry is a supported single-shot operation with
    no link, skip or buffer-select flag; then each entry but the last is linked as asked
    and nothing else of it changes, so that the chain ends with the batch, and a DRAIN
    anywhere is noticed.  Otherwise it is refused with the error of the first bad entry. *)
Theorem batch_prepare_spec order entries :
  match batch_prepare order entries with
  | inr es => Forall (λ e, batch_ok e = true) entries ∧ es = imap (linked_entry order (length entries)) entries ∧ drains es = drains entries
  | inl x => ∃ i e, entries !! i = Some e ∧ batch_ok e = false ∧ Forall (λ e, batch_ok e = true) (take i entries) ∧
      x = invalid_argument (if batch_opcode (sqe_prep e) then "invalid batch SQE flags" else "batch requires supported single-shot operations")
  end.
Proof.
  induction entries as [|e rest IH]; [done|]. simpl. destruct (batch_opcode (sqe_prep e)) eqn:Ho; simpl.
  2: { exists 0, e. unfold batch_ok. rewrite Ho. done. }
  destruct (batch_flags (sqe_flags e)) eqn:Hf.
  { exists 0, e. unfold batch_ok. rewrite Ho, Hf. done. }
  assert (batch_ok e = true) as Hok by (unfold batch_ok; by rewrite Ho, Hf).
  destruct (batch_prepare order rest) as [x|es].
  - destruct IH as (i&e'&H1&H2&H3&->). exists (S i), e'. simpl. split_and!; [done|done|by constructor|done].
  - destruct IH as (H1&->&H3). split_and!; [by constructor| |].
    + f_equal.
      * unfold linked_entry. do 2 f_equal. apply bool_decide_ext. destruct rest; simpl; naive_solver lia.
      * apply imap_ext. intros i e' Hi. simpl. unfold linked_entry. do 2 f_equal. apply bool_decide_ext. lia.
    + rewrite !drains_cons. cbn [sqe_flags set_sqe_flags]. by rewrite link_drain, H3.
Qed.

(** ** Publishing the chain *)
Section publish.
Context {K : Type} `{!Liburing K, !LiburingOk K}.
Implicit Types (k : K) (d : driver K) (x : loc) (L : loopid) (w : world (driver K)) (g : ghost) (e : sqe) (t : token) (o : op) (i : io).

(** The queue with one more entry *)
Definition append e k : K := fill_sqe e (default k (get_sqe k)).
Definition appended (ps : list (loc * sqe)) k : K := foldl (λ k p, append (set_sqe_data (io_addr p.1) p.2) k) k ps.
(** No wake-up is needed before a DRAIN. *)
Definition awake_for d (drain : bool) : Prop := drain = true → d_watching d && negb (d_watch_waking d) = false.

Lemma slot_post d :
  0 < sq_space_left (d_ring d) →
  runs (driver_sqe false) d (λ _ d', ∃ k, get_sqe (d_ring d) = Some k ∧ d' = set_ring k d).
Proof.
  intros Hs. destruct (sq_slot (d_ring d) Hs) as [k Hk]. unfold driver_sqe. apply post_bind. unfold post at 1, get. simpl.
  apply post_bind, post_ret. destruct (spin (K := K)); simpl; apply post_bind; unfold post at 1, get; rewrite Hk; apply post_modify; eauto.
Qed.

(** Submitting a prepared entry while there is room appends it to the queue. *)
Lemma submit_entry L x w l o i e :
  w_loops w !! L = Some l → w_ops w !! x = Some o → w_ios w !! x = Some i →
  io_code i = op_native → io_prepare i = Some e → io_retire i ≠ None → 0 < sq_space_left (d_ring (l_driver l)) →
  awake_for (l_driver l) (Z.testbit (sqe_flags e) IOSQE_IO_DRAIN) →
  runs (uring_submit L x) w (λ _ w', ∃ d i', w' = at_request L x w d o i' ∧ d_ring d = append (set_sqe_data (io_addr x) e) (d_ring (l_driver l)) ∧
    d_watching d = d_watching (l_driver l) ∧ d_watch_waking d = d_watch_waking (l_driver l)).
Proof.
  intros HL Ho Hi Hc Hp Hr Hs Haw. rewrite (at_request_id L x w l HL o i Ho Hi) at 1. unfold uring_submit.
  apply post_bind, at_the_io, post_bind. change (@on_driver K) with (fun A => @on_native (driver K) A). apply (at_native _ _ _ _ HL). unfold post at 1, get.
  rewrite Hc. simpl. rewrite andb_false_r, Hp. simpl.
  assert (∀ d1 i1, d_ring d1 = d_ring (l_driver l) → d_watching d1 = d_watching (l_driver l) → d_watch_waking d1 = d_watch_waking (l_driver l) →
    runs (on_native L (driver_sqe (bool_decide (io_retire i = None))) ;; on_native L (write_sqe (set_sqe_data (io_addr x) (encode i e)))) (at_request L x w d1 o i1)
      (λ _ w', ∃ d i', w' = at_request L x w d o i' ∧ d_ring d = append (set_sqe_data (io_addr x) e) (d_ring (l_driver l)) ∧
         d_watching d = d_watching (l_driver l) ∧ d_watch_waking d = d_watch_waking (l_driver l))) as Hrest.
  { intros d1 i1 E1 E2 E3. rewrite bool_decide_false by done. apply post_bind, (at_native _ _ _ _ HL).
    eapply post_mono; [apply slot_post; by rewrite E1| |done]. intros [] d2 (k&Hk&->). rewrite E1 in Hk.
    apply (at_native _ _ _ _ HL). apply post_modify. eexists _, i1. split_and!; [done| |done|done]. simpl. unfold append. rewrite Hk. simpl.
    unfold encode. by rewrite Hc. }
  apply post_bind, post_when; intros Hdrain.
  - apply post_bind, post_when; intros Hw; [by rewrite (Haw Hdrain) in Hw|]. apply post_bind, at_upd_io, (at_native _ _ _ _ HL), post_modify. by apply Hrest.
  - by apply Hrest.
Qed.

(** A node of the chain that has not been published yet. *)
Record entry_ready w g L x e : Prop := {
  er_op : ∃ o, w_ops w !! x = Some o ∧ op_owner o = L ∧ op_active o = false;
  er_io : ∃ i, w_ios w !! x = Some i ∧ io_code i = op_native ∧ io_prepare i = Some e ∧ io_retire i ≠ None;
  er_idle : x ∉ a_ready (g L);
  er_link : ∃ lk, w_iolinks w !! x = Some lk ∧ l_prev lk = None }.
Definition g_starts L (xs : list loc) g : ghost := foldl (λ g x, g_start L x g) g xs.

Lemma access_start_post w g L l x e :
  Inv ∅ w g → w_loops w !! L = Some l → entry_ready w g L x e → 0 < sq_space_left (d_ring (l_driver l)) →
  awake_for (l_driver l) (Z.testbit (sqe_flags e) IOSQE_IO_DRAIN) →
  runs (access_start x) w (λ _ w', Inv ∅ w' (g_start L x g) ∧
    (∃ o, w_ops w !! x = Some o ∧ w_ops w' = <[x := set_op_active true o]> (w_ops w)) ∧
    (∀ y, y ≠ x → w_ios w' !! y = w_ios w !! y) ∧
    (∀ y, y ≠ x → y ∉ a_ios (g L) → w_iolinks w' !! y = w_iolinks w !! y) ∧
    ∃ l', w_loops w' !! L = Some l' ∧ d_ring (l_driver l') = append (set_sqe_data (io_addr x) e) (d_ring (l_driver l)) ∧
      d_watching (l_driver l') = d_watching (l_driver l) ∧ d_watch_waking (l_driver l') = d_watch_waking (l_driver l)).
Proof.
  intros I HL [(o&Ho&<-&Ha) (i&Hi&Hc&Hp&Hr) Hrd (lk&Hlk&Hprev)] Hs Haw. set (L := op_owner o) in *.
  pose proof (inv_ios _ _ _ I _ _ HL) as Hrep.
  assert (x ∉ a_ios (g L)) as Hx by (intros Hx; eapply (inv_inactive _ _ _ L); [exact I|done..|unfold a_pending; set_solver]).
  unfold access_start. step. step. apply post_bind. eapply post_on_ios; [simpl; exact HL| |].
  { simpl. rewrite (dl_rep_head _ _ _ Hrep). apply link_front_run; [by rewrite <- (dl_rep_head _ _ _ Hrep)|done|by eexists]. }
  simpl. set (o1 := set_op_active true o).
  pose proof (Inv_activate _ _ _ _ _ o1 I Ho Ha Hrd eq_refl eq_refl) as I1.
  assert (Inv ∅ (set_w_iolinks (linked_front (w_iolinks w) (a_ios (g L)) x)
    (set_w_loops (alter (set_l_io (Some x)) L (w_loops w)) (set_w_ops (<[x := o1]> (w_ops w)) w))) (g_start L x g)) as I2.
  { eapply Inv_set, Inv_ext, (Inv_link_io _ _ _ L l x o1 lk I1); [set_solver|done|done|set_solver|simpl; by rewrite lookup_insert_eq|done|by eexists|done|done]. }
  set (w1 := set_w_iolinks _ _) in *. set (l1 := set_l_io (Some x) l).
  assert (w_loops w1 !! L = Some l1) as HL1 by (unfold w1; simpl; by rewrite lookup_alter_eq, HL).
  assert (w_ops w1 !! x = Some o1) as Ho1 by (unfold w1; simpl; apply lookup_insert_eq).
  eapply post_mono; [apply (submit_entry L x w1 l1 o1 i e); done| |done].
  intros [] w' (d&i'&->&Hring&Hwa&Hww). split_and!.
  - by eapply (at_request_inv L x w1 _ l1).
  - exists o. split; [done|]. simpl. by rewrite insert_insert_eq.
  - intros y Hy. simpl. by rewrite lookup_insert_ne.
  - intros y Hy Hn. simpl. by apply linked_front_other.
  - eexists. split; [simpl; rewrite lookup_alter_eq; unfold w1 in HL1; simpl in HL1; by rewrite HL1|]. done.
Qed.

Lemma append_space e k : 0 < sq_space_left k → S (sq_space_left (append e k)) = sq_space_left k.
Proof. intros Hs. destruct (sq_slot k Hs) as [k' Hk]. unfold append. rewrite Hk. simpl. by apply sq_take. Qed.

(** Once there is room, the whole chain is appended and nothing can fail. *)
Lemma starts_post L ps : ∀ w g l,
  Inv ∅ w g → w_loops w !! L = Some l → NoDup ps.*1 → (∀ p, p ∈ ps → entry_ready w g L p.1 p.2) →
  length ps ≤ sq_space_left (d_ring (l_driver l)) → awake_for (l_driver l) (drains ps.*2) →
  runs (for_each access_start ps.*1) w (λ _ w', Inv ∅ w' (g_starts L ps.*1 g) ∧
    (∀ x, x ∈ ps.*1 → op_active <$> w_ops w' !! x = Some true) ∧ (∀ x, x ∉ ps.*1 → w_ops w' !! x = w_ops w !! x) ∧
    ∃ l', w_loops w' !! L = Some l' ∧ d_ring (l_driver l') = appended ps (d_ring (l_driver l))).
Proof.
  induction ps as [|[x e] ps IH]; intros w g l I HL Hnd Hr Hs Haw.
  { apply post_ret. split_and!; [done|intros x Hx; by apply elem_of_nil in Hx|done|by eauto]. }
  cbn [fmap list_fmap for_each fst snd] in *. apply NoDup_cons in Hnd as [Hne Hnd]. rewrite drains_cons in Haw. simpl in Hs.
  assert (entry_ready w g L x e) as Hx by (apply (Hr (x, e)); by left).
  apply post_bind. eapply post_mono; [apply (access_start_post w g L l x e I HL Hx); [lia|]| |done].
  { intros Hd. apply Haw. by rewrite Hd. }
  intros [] w1 (I1&(o&Ho&Hops)&Hios&Hlinks&l1&HL1&Hring&Hwa&Hww).
  eapply post_mono; [apply (IH w1 (g_start L x g) l1 I1 HL1 Hnd)| |done].
  - intros [y e'] Hy. assert (y ≠ x) as Hyx by (intros ->; apply Hne, list_elem_of_fmap; by exists (x, e')).
    destruct (Hr (y, e')) as [(oy&Hoy&Hown&Hay) Hioy Hrdy (lk&Hlk&Hpv)]; [by right|]. simpl in *. split.
    + exists oy. by rewrite Hops, lookup_insert_ne.
    + by rewrite Hios.
    + unfold g_start. by rewrite upd_g_eq.
    + exists lk. rewrite Hlinks; [done|done|]. intros Hin.
      eapply (inv_inactive _ _ _ L); [exact I|exact Hoy|done|unfold a_pending; set_solver].
  - rewrite Hring. pose proof (append_space (set_sqe_data (io_addr x) e) (d_ring (l_driver l)) ltac:(lia)). lia.
  - intros Hd. rewrite Hwa, Hww. apply Haw. rewrite Hd. apply orb_true_r.
  - intros [] w2 (I2&Hact&Hoth&l2&HL2&Hring2). split_and!; [done| | |].
    + intros y [->|Hy]%elem_of_cons; [|by apply Hact]. rewrite Hoth by done. by rewrite Hops, lookup_insert_eq.
    + intros y [Hy1 Hy2]%not_elem_of_cons. rewrite Hoth by done. rewrite Hops. by apply lookup_insert_ne.
    + exists l2. split; [done|]. rewrite Hring2, Hring. done.
Qed.

(** ** Room for the batch *)
Lemma make_room_space fuel count n d :
  count ≤ n → frees fuel n (d_ring d) →
  post (make_room fuel count) d (λ _ d', same_but_ring d d' ∧ count ≤ sq_space_left (d_ring d')) (λ _ d', same_but_ring d d').
Proof.
  intros He. revert d. induction fuel as [|fuel IH]; intros d Hf.
  all: simpl; apply post_bind; unfold post at 1, get; case_bool_decide as Hc; [by apply post_ret|].
  - apply frees_zero in Hf. lia.
  - apply post_bind, ring_call_post. apply post_bind, check_submit_post; [intros Hok|intros _ ?; apply same_set_ring].
    assert (frees fuel n (ring_submit (d_ring d)).2) as Hf' by (apply frees_submit; [done|lia|done]).
    eapply post_mono; [apply (IH (set_ring (ring_submit (d_ring d)).2 d) Hf')| |].
    + intros [] d' [Hd Hsp]. split; [|done]. etrans; [apply same_set_ring|exact Hd].
    + intros err d' Hd. etrans; [apply same_set_ring|exact Hd].
Qed.
Lemma same_watch d d' : same_but_ring d d' → d_watching d' = d_watching d ∧ d_watch_waking d' = d_watch_waking d.
Proof. unfold same_but_ring. intros ->. done. Qed.

(** A world that differs in the driver and the wake source of one loop. *)
Definition driven L w d (woken : bool) : world (driver K) :=
  set_w_loops (alter (λ l, set_l_woken woken (set_l_driver d l)) L (w_loops w)) w.
Lemma driven_inv L w g l d b : w_loops w !! L = Some l → Inv ∅ w g → Inv ∅ (driven L w d b) g.
Proof.
  intros HL I. unfold driven. assert (alter (λ l, set_l_woken b (set_l_driver d l)) L (w_loops w) = <[L := set_l_woken b (set_l_driver d l)]> (w_loops w)) as ->.
  { apply map_eq. intros L'. destruct (decide (L' = L)) as [->|]; [by rewrite lookup_alter_eq, lookup_insert_eq, HL|].
    by rewrite lookup_alter_ne, lookup_insert_ne. }
  by eapply Inv_upd_loop.
Qed.
Lemma driven_id L w l : w_loops w !! L = Some l → w = driven L w (l_driver l) (l_woken l).
Proof.
  intros HL. unfold driven. rewrite alter_id; [by destruct w|]. intros l' Hl'. assert (l' = l) as -> by congruence. by destruct l.
Qed.
Lemma driven_loop L w l d b : w_loops w !! L = Some l → w_loops (driven L w d b) !! L = Some (set_l_woken b (set_l_driver d l)).
Proof. intros HL. simpl. by rewrite lookup_alter_eq, HL. Qed.
Lemma driven_native {A} L w l d b (c : M (driver K) A) (Q : A → world (driver K) → Prop) E :
  w_loops w !! L = Some l →
  post c d (λ a d', Q a (driven L w d' b)) (λ err d', E err (driven L w d' b)) → post (on_driver L c) (driven L w d b) Q E.
Proof.
  intros HL Hc.
  assert (∀ d', set_w_loops (alter (set_l_driver d') L (w_loops (driven L w d b))) (driven L w d b) = driven L w d' b) as E'.
  { intros d'. unfold driven. simpl. rewrite alter_alter_eq. unfold set_w_loops. simpl. f_equal. }
  eapply post_zoom; [simpl; by rewrite lookup_alter_eq, HL|]. eapply post_mono; [exact Hc| |]; intros ? d'; by rewrite E'.
Qed.
(** Room is made by submitting earlier entries, or the ring's error is thrown. *)
Lemma reserve_post L count drain w l :
  w_loops w !! L = Some l → l_thread l = w_thread w →
  post (reserve L count drain) w
    (λ _ w', ∃ d b, w' = driven L w d b ∧ count ≤ sq_space_left (d_ring d) ∧ awake_for d drain) (λ _ w', ∃ d b, w' = driven L w d b).
Proof.
  intros HL Ht. unfold reserve. apply post_bind. eapply post_check; [exact HL|done|].
  rewrite (driven_id L w l HL) at 1. set (d0 := l_driver l). apply post_bind, (driven_native _ _ _ _ _ _ _ _ HL). unfold post at 1, get.
  case_bool_decide as Hc; [apply post_throw; by eauto|]. apply post_bind, (driven_native _ _ _ _ _ _ _ _ HL).
  eapply post_mono; [apply (make_room_space _ _ (sq_entries (d_ring d0))); [lia|apply sq_drains]| |by eauto].
  intros [] d1 [_ Hs]. apply post_bind, (driven_native _ _ _ _ _ _ _ _ HL). unfold post at 1, get. apply post_when; intros Hw.
  - apply post_bind. unfold wake. eapply post_upd_loop; [by apply driven_loop|].
    assert (set_w_loops (<[L := set_l_woken true (set_l_woken (l_woken l) (set_l_driver d1 l))]> (w_loops (driven L w d1 (l_woken l))))
      (driven L w d1 (l_woken l)) = driven L w d1 true) as ->.
    { unfold driven. simpl. unfold set_w_loops. simpl. f_equal. apply map_eq. intros L'. destruct (decide (L' = L)) as [->|].
      - by rewrite lookup_insert_eq, lookup_alter_eq, HL.
      - by rewrite lookup_insert_ne, !lookup_alter_ne. }
    apply (driven_native _ _ _ _ _ _ _ _ HL), post_modify. eexists _, _. split_and!; [done|done|]. intros _. apply andb_false_r.
  - eexists _, _. split_and!; [done|done|]. intros Hd. by rewrite Hd in Hw.
Qed.
Lemma callbacks_post t nodes : ∀ w g,
  Inv ∅ w g → (∀ x, x ∈ nodes → is_Some (w_ops w !! x)) →
  runs (batch_callbacks nodes t) w (λ _ w', Inv ∅ w' g ∧ w' = set_w_ops (w_ops w') w ∧
    ∀ x o, w_ops w !! x = Some o → ∃ o', w_ops w' !! x = Some o' ∧ op_owner o' = op_owner o ∧ op_active o' = op_active o).
Proof.
  induction nodes as [|x nodes IH]; intros w g I Hx; [apply post_ret; split_and!; [done|by destruct w|by eauto]|].
  unfold batch_callbacks. cbn [for_each]. apply post_bind, post_bind, post_gets. destruct (Hx x) as [o Ho]; [by left|].
  apply post_when; intros _; [eapply post_upd_op; [exact Ho|]|apply IH; [done|intros; apply Hx; by right]].
  set (w1 := set_w_ops _ w). assert (Inv ∅ w1 g) as I1 by (by eapply Inv_upd_op).
  eapply post_mono; [apply (IH w1 g I1)| |done].
  { intros y Hy. simpl. apply lookup_insert_is_Some'. right. apply Hx. by right. }
  intros [] w2 (I2&Hw&Hops). split_and!; [done|rewrite Hw; by destruct w|]. intros y oy Hy. destruct (decide (y = x)) as [->|].
  - assert (oy = o) as -> by congruence. apply (Hops x (set_op_callback t o)). simpl. apply lookup_insert_eq.
  - apply Hops. simpl. by rewrite lookup_insert_ne.
Qed.

(** A batch is published as a whole or not at all: either the ring reports an error before
    any entry is published, and every entry is still inactive and on no list; or the
    queue had room for all of them and has then been extended by exactly these entries,
    in order and with nothing in between, so that a chain of linked entries is never
    broken up; all of them are active and pending. *)
Theorem batch_publish_spec L ps w g l t :
  Inv ∅ w g → w_loops w !! L = Some l → l_thread l = w_thread w → NoDup ps.*1 → (∀ p, p ∈ ps → entry_ready w g L p.1 p.2) →
  post (batch_publish L ps.*1 (drains ps.*2) t) w
    (λ _ w', Inv ∅ w' (g_starts L ps.*1 g) ∧ (∀ x, x ∈ ps.*1 → op_active <$> w_ops w' !! x = Some true) ∧
       ∃ k l', length ps ≤ sq_space_left k ∧ w_loops w' !! L = Some l' ∧ d_ring (l_driver l') = appended ps k)
    (λ _ w', Inv ∅ w' g ∧ ∀ x, x ∈ ps.*1 → op_active <$> w_ops w' !! x = Some false).
Proof.
  intros I HL Ht Hnd Hr.
  assert (∀ x, x ∈ ps.*1 → ∃ e, entry_ready w g L x e) as Hx by (intros x ([y e]&->&Hp)%list_elem_of_fmap; exists e; by apply (Hr (y, e))).
  unfold batch_publish. apply post_bind. eapply post_mono; [by apply (reserve_post L _ (drains ps.*2) w l)| |].
  - intros [] w1 (d&b&->&Hs&Haw). rewrite length_fmap in Hs. apply post_bind.
    eapply post_mono; [apply (callbacks_post t ps.*1 (driven L w d b) g)| |done]; [by eapply driven_inv| |].
    { intros x (e&[(o&Ho&_) _ _ _])%Hx. by exists o. }
    intros [] w2 (I2&Hw2&Hops). pose proof (driven_loop L w l d b HL) as HL1.
    assert (w_loops w2 !! L = Some (set_l_woken b (set_l_driver d l))) as HL2 by (by rewrite Hw2).
    eapply post_mono; [apply (starts_post L ps w2 g _ I2 HL2 Hnd); [|done|done]| |done].
    + intros p Hp. destruct (Hr p Hp) as [(o&Ho&Hown&Ha) Hio Hrd Hlk]. destruct (Hops _ _ Ho) as (o'&Ho'&?&?). split.
      * exists o'. split_and!; [done|congruence|congruence].
      * by rewrite Hw2.
      * done.
      * by rewrite Hw2.
    + intros [] w3 (I3&Hact&_&l3&HL3&Hring). split_and!; [done|done|]. exists (d_ring d), l3. done.
  - intros err w1 (d&b&->). split; [by eapply driven_inv|]. intros x (e&[(o&Ho&_&Ha) _ _ _])%Hx. simpl. by rewrite Ho; simpl; rewrite Ha.
Qed.
End publish.
