(* ===== verification/Net.v ===== *)
(** * Sockets, datagrams and files (src/socket.cpp, src/udp.cpp, src/file.cpp)

    The owners of native descriptors.  Their operations are compositions of native
    requests, so a coroutine is split at its [co_await]: the part before it creates the
    request [y], which [io_await_suspend] submits, and the part after it starts with
    [io_await_resume].  The results of system calls are arguments, a failed call being
    a negative errno.  The descriptors open in the process are part of the state, and
    closing one that is not open is recorded. *)
From S2P Require Import Prelude ReadyQueue Links Heap Core Loop LoopInv LoopSpec Event Io Uring.

Definition invalid_socket : Z := -1.
Definition INT_MAX : Z := 2 ^ 31 - 1.
Definition INT64_MAX : Z := 2 ^ 63 - 1.
Definition AF_INET : Z := 2.
Definition AF_INET6 : Z := 10.
Definition sizeof_sockaddr_in : Z := 16.
Definition sizeof_sockaddr_in6 : Z := 28.
Definition sizeof_sockaddr_storage : Z := 128.
Definition O_RDONLY : Z := 0.
Definition O_RDWR : Z := 2.
Definition O_CREAT : Z := 0x40.
Definition O_EXCL : Z := 0x80.
Definition O_NONBLOCK : Z := 0x800.
Definition O_DIRECT : Z := 0x4000.
Definition O_CLOEXEC : Z := 0x80000.

(** ** [class endpoint] *)

(** Byte order of a 16-bit number on a little-endian host. *)
Definition htons (p : Z) : Z := Z.lor (Z.shiftl (Z.land p 0xff) 8) (Z.shiftr p 8).
Definition ntohs : Z → Z := htons.
(** [sockaddr_storage address_; int size_]: the address is the family, the port in
    network order and the bytes of the host. *)
Record endpoint := Endpoint { ep_family : Z; ep_port : Z; ep_host : list Z; ep_size : Z }.
Definition ep_storage (e : endpoint) : list Z := ep_family e :: ep_port e :: ep_host e.
(** [endpoint(std::string_view ip, std::uint16_t port)]; [pton family] is what [inet_pton]
    stores, or nothing *)
Definition endpoint_new (has_nul : bool) (pton : Z → option (list Z)) (port : Z) : exn + endpoint :=
  if has_nul then inl (invalid_argument "invalid address") else
    match pton AF_INET with
    | Some host => inr (Endpoint AF_INET (htons port) host sizeof_sockaddr_in)
    | None =>
        match pton AF_INET6 with
        | None => inl (invalid_argument "invalid numeric address")
        | Some host => inr (Endpoint AF_INET6 (htons port) host sizeof_sockaddr_in6)
        end
    end.
Definition endpoint_port (e : endpoint) : Z := ntohs (ep_port e).

(** ** State *)

(** [class socket]: the flags [reading_] and [writing_] are the cells a request reserves;
    [class file] *)
Record sock := Sock { sk_loop : loopid; sk_fd : Z; sk_reading : loc; sk_writing : loc }.
Record nfile := NFile { fl_loop : loopid; fl_fd : Z; fl_active : nat }.
Inductive mode := mode_read | mode_read_write | mode_create.
#[global] Instance mode_eq_dec : EqDecision mode.
Proof. solve_decision. Defined.

Section net.
Context {D : Type}.
Record net := Net {
  n_world : world D;
  n_open : gset Z;             (** descriptors open in the process *)
  n_stray : bool;              (** a descriptor was closed that was not open *)
  n_socks : gmap loc sock;
  n_files : gmap loc nfile;
  n_fds : gmap loc Z           (** [uring::fd] objects *) }.
Local Abbreviation M := (M net).
Implicit Types (s : net) (x y z : loc) (L : loopid) (fd : Z) (t : token).

Definition set_world (w : world D) s : net := Net w (n_open s) (n_stray s) (n_socks s) (n_files s) (n_fds s).
Definition set_open (o : gset Z) s : net := Net (n_world s) o (n_stray s) (n_socks s) (n_files s) (n_fds s).
Definition set_stray s : net := Net (n_world s) (n_open s) true (n_socks s) (n_files s) (n_fds s).
Definition set_socks (m : gmap loc sock) s : net := Net (n_world s) (n_open s) (n_stray s) m (n_files s) (n_fds s).
Definition set_files (m : gmap loc nfile) s : net := Net (n_world s) (n_open s) (n_stray s) (n_socks s) m (n_fds s).
Definition set_fds (m : gmap loc Z) s : net := Net (n_world s) (n_open s) (n_stray s) (n_socks s) (n_files s) m.
Definition in_net {A} (c : Prelude.M (world D) A) : M A := zoom (λ s, Some (n_world s)) set_world c.
Definition the_sock x : M sock := deref (λ s, n_socks s !! x).
Definition the_file x : M nfile := deref (λ s, n_files s !! x).
Definition upd_sock x (f : sock → sock) : M unit := k ← the_sock x; modify (λ s, set_socks (<[x := f k]> (n_socks s)) s).
Definition upd_file x (f : nfile → nfile) : M unit := k ← the_file x; modify (λ s, set_files (<[x := f k]> (n_files s)) s).
Definition set_sk_fd fd (k : sock) : sock := Sock (sk_loop k) fd (sk_reading k) (sk_writing k).
Definition set_fl_fd fd (k : nfile) : nfile := NFile (fl_loop k) fd (fl_active k).
Definition set_fl_active (n : nat) (k : nfile) : nfile := NFile (fl_loop k) (fl_fd k) n.

(** [if (call(...)) socket_error(...)]: a failed system call *)
Definition socket_error {A} (r : Z) : M A := throw (system_error (generic_error (- r))).
Definition verify_call (r : Z) : M unit := if bool_decide (r < 0)%Z then socket_error r else mret tt.
(** A system call that creates a descriptor; the kernel returns one that is not open. *)
Definition open_call (r : Z) : M Z :=
  if bool_decide (r < 0)%Z then socket_error r else
    s ← get;
    if bool_decide (r ∈ n_open s) then undefined else modify (set_open ({[r]} ∪ n_open s)) ;; mret r.
(** [inline void detail::close(socket_id fd) noexcept] *)
Definition close_fd fd : M unit :=
  if bool_decide (fd = invalid_socket) then mret tt else
    modify (λ s, if bool_decide (fd ∈ n_open s) then set_open (n_open s ∖ {[fd]}) s else set_stray s).
(** [void loop::attach(std::uintptr_t) {}] *)
Definition attach L fd : M unit := mret tt.

(** ** Requests *)
Definition new_request y L (i : io) : M unit := in_net (modify (new_io y L i)).
(** [io::~io()], then [op::~op()] *)
Definition request_destroy y : M unit :=
  i ← in_net (the_io y);
  in_net (release_direction y) ;;
  close_fd (io_accepted i) ;;
  in_net (op_destroy y) ;;
  in_net (modify (λ w, set_w_ios (delete y (w_ios w)) w)).
Definition clamp (size : Z) : Z := Z.min size INT_MAX.

(** ** [class socket] *)
Definition socket_check x : M unit :=
  k ← the_sock x;
  in_net (check (sk_loop k)) ;;
  if bool_decide (sk_fd k = invalid_socket) then throw (logic_error "empty socket") else mret tt.
(** [socket::socket(loop& loop, socket_id fd)]; [cloexec] is the result of [fcntl] *)
Definition socket_new x L fd (rd wr : loc) (cloexec : Z) : M unit :=
  try_catch
    (in_net (check L) ;;
     (if bool_decide (fd = invalid_socket) then throw (logic_error "empty socket") else mret tt) ;;
     verify_call cloexec ;;
     attach L fd)
    (λ e, close_fd fd ;; throw e) ;;
  in_net (modify (λ w, set_w_flags (<[rd := false]> (<[wr := false]> (w_flags w))) w)) ;;
  modify (λ s, set_socks (<[x := Sock L fd rd wr]> (n_socks s)) s).
Definition socket_busy x : M bool :=
  k ← the_sock x;
  r ← in_net (the_flag (sk_reading k));
  w ← in_net (the_flag (sk_writing k));
  mret (r || w).
(** [socket::socket(socket&& other)] *)
Definition socket_move x (other : loc) (rd wr : loc) : M unit :=
  socket_check other ;;
  busy ← socket_busy other;
  if busy : bool then throw (logic_error "move of busy socket") else
    k ← the_sock other;
    upd_sock other (set_sk_fd invalid_socket) ;;
    in_net (modify (λ w, set_w_flags (<[rd := false]> (<[wr := false]> (w_flags w))) w)) ;;
    modify (λ s, set_socks (<[x := Sock (sk_loop k) (sk_fd k) rd wr]> (n_socks s)) s).
(** [socket::~socket()] *)
Definition socket_destroy x : M unit :=
  busy ← socket_busy x;
  if busy : bool then terminate else
    k ← the_sock x;
    close_fd (sk_fd k) ;;
    modify (λ s, set_socks (delete x (n_socks s)) s).
(** Leaving a scope that owns socket [x] by an exception *)
Definition with_socket {A} x (c : M A) : M A := try_catch c (λ e, socket_destroy x ;; throw e).
(** [socket socket::listen(loop& loop, endpoint address, int backlog)] *)
Definition socket_listen x L (rd wr : loc) (backlog opened cloexec reuse bound listening : Z) : M unit :=
  in_net (check L) ;;
  if bool_decide (backlog ≤ 0)%Z then throw (invalid_argument "invalid backlog") else
    fd ← open_call opened;
    socket_new x L fd rd wr cloexec ;;
    with_socket x (verify_call reuse ;; verify_call bound ;; verify_call listening).
(** [task<socket> socket::connect(loop& loop, endpoint address, std::stop_token token)],
    up to [co_await op] and from there; the result is moved into [z] *)
Definition connect_begin x y L (rd wr : loc) (e : endpoint) t (opened cloexec : Z) : M unit :=
  in_net (check L) ;;
  fd ← open_call opened;
  socket_new x L fd rd wr cloexec ;;
  new_request y L (set_io_address_size (ep_size e) (set_io_address (ep_storage e) (io_init op_connect fd 0 0 t None))).
Definition with_request {A} y (c : M A) : M A := try_catch c (λ e, request_destroy y ;; throw e).
Definition connect_end x y z (rd wr : loc) : M unit :=
  with_socket x
    (with_request y (_ ← in_net (io_await_resume y); socket_move z x rd wr) ;;
     request_destroy y) ;;
  socket_destroy x.
(** [task<socket> socket::accept(std::stop_token token)] *)
Definition accept_begin x y t : M unit :=
  socket_check x ;;
  k ← the_sock x;
  new_request y (sk_loop k) (io_init op_accept (sk_fd k) 0 0 t (Some (sk_reading k))).
(** the accepted socket is a temporary [u], moved into [z] *)
Definition accept_end x y (u ru wu : loc) z (rd wr : loc) (cloexec : Z) : M unit :=
  with_request y
    (_ ← in_net (io_await_resume y);
     k ← the_sock x;
     i ← in_net (the_io y);
     in_net (upd_io y (set_io_accepted invalid_socket)) ;;
     socket_new u (sk_loop k) (io_accepted i) ru wu cloexec ;;
     with_socket u (socket_move z u rd wr) ;;
     socket_destroy u) ;;
  request_destroy y.
(** [detail::io socket::read(std::span<std::byte> buffer, std::stop_token token)] and
    [write] *)
Definition socket_read x y (buf : nat) (size : Z) t : M unit :=
  socket_check x ;;
  k ← the_sock x;
  new_request y (sk_loop k) (io_init op_read (sk_fd k) buf (clamp size) t (Some (sk_reading k))).
Definition socket_write x y (buf : nat) (size : Z) t : M unit :=
  socket_check x ;;
  k ← the_sock x;
  new_request y (sk_loop k) (io_init op_write (sk_fd k) buf (clamp size) t (Some (sk_writing k))).
Definition socket_shutdown x (r : Z) : M unit :=
  socket_check x ;;
  k ← the_sock x;
  w ← in_net (the_flag (sk_writing k));
  if w : bool then throw (logic_error "shutdown during write") else verify_call r.
Definition socket_nodelay x (r : Z) : M unit := socket_check x ;; verify_call r.
(** [endpoint socket::local() const]; [named] is the address the call stores *)
Definition socket_local x (r : Z) (named : endpoint) : M endpoint := socket_check x ;; verify_call r ;; mret named.

(** ** [class udp] *)
Definition udp_new x L (rd wr : loc) (opened cloexec bound : Z) : M unit :=
  fd ← open_call opened;
  socket_new x L fd rd wr cloexec ;;
  with_socket x (verify_call bound).
Definition udp_recv_begin x y (buf : nat) (size : Z) t : M unit :=
  socket_check x ;;
  k ← the_sock x;
  new_request y (sk_loop k)
    (set_io_address_size sizeof_sockaddr_storage (io_init op_recv_from (sk_fd k) buf (clamp size) t (Some (sk_reading k)))).
(** The count and the sender's address and its size *)
Definition udp_recv_end y : M (Z * (list Z * Z)) :=
  r ← with_request y (n ← in_net (io_await_resume y); i ← in_net (the_io y); mret (n, (io_address i, io_address_size i)));
  request_destroy y ;;
  mret r.
Definition udp_send_begin x y (buf : nat) (size : Z) (peer : endpoint) t : M unit :=
  socket_check x ;;
  if bool_decide (65507 < size)%Z then throw (system_error message_size) else
    k ← the_sock x;
    new_request y (sk_loop k)
      (set_io_address_size (ep_size peer) (set_io_address (ep_storage peer) (io_init op_send_to (sk_fd k) buf size t (Some (sk_writing k))))).
Definition udp_send_end y (size : Z) : M Z :=
  r ← with_request y
    (n ← in_net (io_await_resume y);
     if bool_decide (n = size) then mret n else throw (system_error message_size));
  request_destroy y ;;
  mret r.

(** ** [class file] *)
(** [void file::close() noexcept] *)
Definition file_close x : M unit :=
  k ← the_file x;
  if bool_decide (fl_fd k = invalid_socket) then mret tt else
    close_fd (fl_fd k) ;;
    upd_file x (set_fl_fd invalid_socket).
Definition open_flags (access : mode) (direct : bool) : Z :=
  let f0 := if bool_decide (access = mode_read) then O_RDONLY else O_RDWR in
  let f1 := if direct then Z.lor f0 O_DIRECT else f0 in
  let f2 := if bool_decide (access = mode_create) then Z.lor f1 (Z.lor O_CREAT O_EXCL) else f1 in
  Z.lor f2 (Z.lor O_CLOEXEC O_NONBLOCK).
(** [file::file(loop& loop, const path& path, mode access, bool direct)]; [opened] is the
    result of [open] for its flags, [stated] of [fstat], [regular] of [S_ISREG] *)
Definition file_new x L (bad_path : bool) (access : mode) (direct : bool) (opened : Z → Z) (stated : Z) (regular : bool) : M unit :=
  in_net (check L) ;;
  if bad_path then throw (invalid_argument "invalid file path") else
    fd ← open_call (opened (open_flags access direct));
    modify (λ s, set_files (<[x := NFile L fd 0]> (n_files s)) s) ;;
    try_catch
      (verify_call stated ;;
       (if regular then mret tt else throw (invalid_argument "not a regular file")) ;;
       attach L fd)
      (λ e, file_close x ;; modify (λ s, set_files (delete x (n_files s)) s) ;; throw e).
Definition file_check x : M unit :=
  k ← the_file x;
  in_net (check (fl_loop k)) ;;
  if bool_decide (fl_fd k = invalid_socket) then throw (logic_error "empty file") else mret tt.
Definition file_move x (other : loc) : M unit :=
  file_check other ;;
  k ← the_file other;
  if bool_decide (fl_active k ≠ 0) then throw (logic_error "move of busy file") else
    upd_file other (set_fl_fd invalid_socket) ;;
    modify (λ s, set_files (<[x := NFile (fl_loop k) (fl_fd k) 0]> (n_files s)) s).
Definition file_destroy x : M unit :=
  k ← the_file x;
  if bool_decide (fl_active k ≠ 0) then terminate else
    file_close x ;;
    modify (λ s, set_files (delete x (n_files s)) s).
(** [struct use] *)
Definition use_new x : M unit := file_check x ;; k ← the_file x; upd_file x (set_fl_active (S (fl_active k))).
Definition use_destroy x : M unit := k ← the_file x; upd_file x (set_fl_active (pred (fl_active k))).
Definition with_use {A} x (c : M A) : M A := try_catch c (λ e, use_destroy x ;; throw e).
(** [void canceled(loop& loop, std::stop_token token)] *)
Definition canceled L t : M unit :=
  st ← in_net (stopped L);
  rq ← in_net (gets (λ w, requested w t));
  if st || rq then throw (system_error operation_canceled) else mret tt.
(** [task<std::size_t> file::transfer(...)]: [Some 0] when there is nothing to transfer,
    otherwise the request [y] is to be awaited *)
Definition transfer_begin x y (buf : nat) (size offset : Z) (write : bool) t : M (option Z) :=
  use_new x ;;
  with_use x
    (k ← the_file x;
     canceled (fl_loop k) t ;;
     let length := clamp size in
     if bool_decide (INT64_MAX < offset)%Z || bool_decide (INT64_MAX - offset < length)%Z
     then throw (invalid_argument "file offset overflow")
     else if bool_decide (length = 0)%Z then use_destroy x ;; mret (Some 0%Z)
     else new_request y (fl_loop k) (set_io_offset offset (io_init (if write then op_file_write else op_file_read) (fl_fd k) buf length t None)) ;;
          mret None).
Definition transfer_end x y : M Z :=
  n ← with_use x (with_request y (in_net (io_await_resume y)));
  request_destroy y ;;
  use_destroy x ;;
  mret n.
(** [task<> file::flush(std::stop_token token)] *)
Definition flush_begin x y t : M unit :=
  use_new x ;;
  with_use x
    (k ← the_file x;
     canceled (fl_loop k) t ;;
     new_request y (fl_loop k) (io_init op_file_sync (fl_fd k) 0 0 t None)).
Definition flush_end x y : M unit := _ ← transfer_end x y; mret tt.

(** ** [class uring::fd] and [class open_op] (include/snowy/uring_ops.hpp) *)
Definition the_fd x : M Z := deref (λ s, n_fds s !! x).
Definition fd_new x fd : M unit := modify (λ s, set_fds (<[x := fd]> (n_fds s)) s).
Definition fd_release x : M Z := v ← the_fd x; fd_new x (-1) ;; mret v.
Definition fd_move z x : M unit := v ← fd_release x; fd_new z v.
Definition fd_destroy x : M unit :=
  v ← the_fd x;
  (if bool_decide (0 ≤ v)%Z then close_fd v else mret tt) ;;
  modify (λ s, set_fds (delete x (n_fds s)) s).
(** A prepared open, whose handler stores the descriptor in the request *)
Definition open_io (e : sqe) t : io :=
  {| io_code := op_native; io_fd := -1; io_data := 0; io_size := 0; io_offset := 0; io_address := [];
     io_address_size := 0; io_accepted := -1; io_bytes := 0; io_token := t; io_canceling := false;
     io_cancel_sent := false; io_started := false; io_done := false; io_busy := None; io_reserved := false;
     io_prepare := Some e; io_result := Some result_open; io_retire := None; io_draining := false |}.
Definition open_new y L (e : sqe) t : M unit := in_net (check L) ;; new_request y L (open_io e t).
(** [uring::fd open_op::await_resume()] *)
Definition open_await_resume y z : M unit :=
  in_net (op_await_resume y) ;;
  i ← in_net (the_io y);
  in_net (upd_io y (set_io_accepted invalid_socket)) ;;
  fd_new z (io_accepted i).
End net.
Arguments net : clear implicits.
