(* ===== verification/NetSpec.v ===== *)
(** * Ownership of descriptors

    Every descriptor open in the process is owned by exactly one live object: a socket,
    a file, a [uring::fd], or a request that has accepted or opened it.  The operations are specified by what
    they do to the descriptors held by temporaries, [X] in [owned X s]: opening a
    descriptor puts it there, constructing an owner takes it from there. *)
From S2P Require Import Prelude ReadyQueue Links Heap Core Loop LoopInv LoopSpec Event Io Uring Net.
From stdpp Require Import relations.

(** What holds if the call returns, and if it throws. *)
Definition ensures {S A} (c : M S A) (s : S) (Q : A → S → Prop) (E : exn → S → Prop) : Prop :=
  match c s with Ret a s' => Q a s' | Throw e s' => E e s' | Terminate | Undefined => True end.
Section ensures.
Context {S : Type}.
Implicit Types s : S.
Lemma ensures_mono {A} (c : M S A) s (Q Q' : A → S → Prop) (E E' : exn → S → Prop) :
  ensures c s Q E → (∀ a s', Q a s' → Q' a s') → (∀ e s', E e s' → E' e s') → ensures c s Q' E'.
Proof. unfold ensures. destruct (c s); auto. Qed.
Lemma ensures_bind {A B} (c : M S A) (k : A → M S B) s Q E :
  ensures c s (λ a s', ensures (k a) s' Q E) E → ensures (c ≫= k) s Q E.
Proof. unfold ensures, mbind, M_bind. by destruct (c s). Qed.
Lemma ensures_deref {A} (f : S → option A) s (Q : A → S → Prop) (E : exn → S → Prop) :
  (∀ a, f s = Some a → Q a s) → ensures (deref f) s Q E.
Proof. unfold ensures, deref. destruct (f s); auto. Qed.
Lemma ensures_try {A} (c : M S A) h s Q E :
  ensures c s Q (λ e s', ensures (h e) s' Q E) → ensures (try_catch c h) s Q E.
Proof. unfold ensures, try_catch. by destruct (c s). Qed.
Lemma ensures_zoom {T A} (sel : S → option T) upd (c : M T A) s Q E :
  (∀ t, sel s = Some t → ensures c t (λ a t', Q a (upd t' s)) (λ e t', E e (upd t' s))) → ensures (zoom sel upd c) s Q E.
Proof. unfold ensures, zoom. destruct (sel s) as [t|]; [|done]. intros H. specialize (H t eq_refl). by destruct (c t). Qed.
End ensures.

Section spec.
Context {D : Type}.
Implicit Types (s : net D) (w : world D) (x y z : loc) (L : loopid) (fd : Z) (X : gset Z).

(** ** Owners *)
Inductive owner := own_sock (x : loc) | own_file (x : loc) | own_fd (x : loc) | own_request (y : loc).
#[global] Instance owner_eq_dec : EqDecision owner.
Proof. solve_decision. Defined.
Definition valid (o : option Z) : option Z := o ≫= λ fd, if bool_decide (fd = invalid_socket) then None else Some fd.
Definition held s (o : owner) : option Z :=
  valid match o with
        | own_sock x => sk_fd <$> n_socks s !! x
        | own_file x => fl_fd <$> n_files s !! x
        | own_fd x => n_fds s !! x
        | own_request y => io_accepted <$> w_ios (n_world s) !! y
        end.
Record owned X s : Prop := {
  ow_stray : n_stray s = false;
  ow_open fd : fd ∈ n_open s ↔ fd ∈ X ∨ ∃ o, held s o = Some fd;
  ow_once o o' fd : held s o = Some fd → held s o' = Some fd → o = o';
  ow_temp o fd : fd ∈ X → held s o ≠ Some fd;
  ow_valid : invalid_socket ∉ X;
  ow_pos fd : fd ∈ n_open s → (0 ≤ fd)%Z }.

Lemma held_valid s o fd : held s o = Some fd → fd ≠ invalid_socket.
Proof. unfold held, valid. intros (?&_&H)%bind_Some. case_bool_decide; congruence. Qed.

(** The rules of ownership: nothing changes hands; open; close; give to an owner; take
    from an owner. *)
Lemma owned_same X s s' :
  owned X s → n_stray s' = n_stray s → n_open s' = n_open s → (∀ o, held s' o = held s o) → owned X s'.
Proof.
  intros [H1 H2 H3 H4 H5 H6] E1 E2 E. split; [congruence| | | |done|by rewrite E2].
  - intros fd. rewrite E2, H2. by setoid_rewrite E.
  - intros o o' fd. rewrite !E. apply H3.
  - intros o fd. rewrite E. apply H4.
Qed.
Lemma owned_open X s s' fd :
  owned X s → fd ∉ n_open s → (0 ≤ fd)%Z → n_stray s' = n_stray s → n_open s' = {[fd]} ∪ n_open s →
  (∀ o, held s' o = held s o) → owned ({[fd]} ∪ X) s' ∧ fd ∉ X.
Proof.
  intros [H1 H2 H3 H4 H5 H6] Hfd Hv E1 E2 E. split; [|rewrite H2 in Hfd; tauto]. assert (fd ≠ invalid_socket) by (unfold invalid_socket; lia).
  split; [congruence| | | |set_solver|rewrite E2; set_solver].
  - intros f. rewrite E2. setoid_rewrite E. rewrite !elem_of_union, H2. tauto.
  - intros o o' f. rewrite !E. apply H3.
  - intros o f [->%elem_of_singleton|Hf]%elem_of_union; rewrite E; [|by apply H4].
    intros Ho. apply Hfd, H2. eauto.
Qed.
Lemma owned_close X s s' fd :
  owned ({[fd]} ∪ X) s → fd ∉ X → n_stray s' = n_stray s → n_open s' = n_open s ∖ {[fd]} →
  (∀ o, held s' o = held s o) → owned X s'.
Proof.
  intros [H1 H2 H3 H4 H5 H6] Hfd E1 E2 E. split; [congruence| | | |set_solver|rewrite E2; set_solver].
  - intros f. rewrite E2. setoid_rewrite E. rewrite elem_of_difference, H2, elem_of_union, elem_of_singleton. split; [tauto|].
    intros Hf. split; [tauto|]. intros ->. destruct Hf as [|[o Ho]]; [done|]. eapply H4, Ho. set_solver.
  - intros o o' f. rewrite !E. apply H3.
  - intros o f Hf. rewrite E. apply H4. set_solver.
Qed.
Lemma owned_give X s s' o fd :
  owned ({[fd]} ∪ X) s → fd ∉ X → held s o = None → n_stray s' = n_stray s → n_open s' = n_open s →
  (∀ o', held s' o' = if decide (o' = o) then Some fd else held s o') → owned X s'.
Proof.
  intros [H1 H2 H3 H4 H5 H6] Hfd Ho E1 E2 E. split; [congruence| | | |set_solver|by rewrite E2].
  - intros f. rewrite E2, H2, elem_of_union, elem_of_singleton. split.
    + intros [[->|?]|[o' Ho']]; [right; exists o; rewrite E; by rewrite decide_True|by left|].
      right. exists o'. rewrite E, decide_False; [done|congruence].
    + intros [?|[o' Ho']]; [tauto|]. rewrite E in Ho'. case_decide; [left; left; congruence|right; eauto].
  - intros o1 o2 f. rewrite !E. do 2 case_decide; intros; simplify_eq; [done| | |by eapply H3];
      exfalso; (eapply H4; [|eassumption]); set_solver.
  - intros o' f Hf. rewrite E. case_decide; [set_solver|]. apply H4. set_solver.
Qed.
Lemma owned_take X s s' o fd :
  owned X s → held s o = Some fd → n_stray s' = n_stray s → n_open s' = n_open s →
  (∀ o', held s' o' = if decide (o' = o) then None else held s o') → owned ({[fd]} ∪ X) s' ∧ fd ∉ X.
Proof.
  intros [H1 H2 H3 H4 H5 H6] Ho E1 E2 E. pose proof (held_valid _ _ _ Ho) as Hv. split; [|intros Hx; by eapply H4].
  split; [congruence| | | |set_solver|by rewrite E2].
  - intros f. rewrite E2, H2, elem_of_union, elem_of_singleton. split.
    + intros [?|[o' Ho']]; [tauto|]. destruct (decide (o' = o)) as [->|]; [left; left; congruence|].
      right. exists o'. by rewrite E, decide_False.
    + intros [[->|?]|[o' Ho']]; [eauto|tauto|]. rewrite E in Ho'. case_decide; [done|eauto].
  - intros o1 o2 f. rewrite !E. do 2 case_decide; try done. apply H3.
  - intros o' f [->%elem_of_singleton|Hf]%elem_of_union; rewrite E; case_decide; try done; [|by apply H4].
    intros Ho'. eauto.
Qed.
Lemma owned_release X s s' o fd :
  owned X s → held s o = Some fd → n_stray s' = n_stray s → n_open s' = n_open s ∖ {[fd]} →
  (∀ o', held s' o' = if decide (o' = o) then None else held s o') → owned X s'.
Proof.
  intros I Ho E1 E2 E. destruct (owned_take X s (set_open (n_open s) s') o fd I Ho E1 eq_refl E) as [I' Hfd].
  by apply (owned_close X _ s' fd I' Hfd).
Qed.

(** ** The loop and the requests keep what they hold *)
Definition acc w w' : Prop := ∀ y, io_accepted <$> w_ios w' !! y = io_accepted <$> w_ios w !! y.
Definition keeps {A} (c : M (world D) A) : Prop := ∀ w, ensures c w (λ _ w', acc w w') (λ _ w', acc w w').
Lemma keeps_bind {A B} (c : M (world D) A) (k : A → M (world D) B) : keeps c → (∀ a, keeps (k a)) → keeps (c ≫= k).
Proof.
  intros Hc Hk w. apply ensures_bind. eapply ensures_mono; [apply Hc| |done]. intros a w' E.
  eapply ensures_mono; [apply Hk| |]; intros ? ? E' y; by rewrite E', E.
Qed.
Lemma keeps_ret {A} (a : A) : keeps (mret a).
Proof. done. Qed.
Lemma keeps_throw {A} e : keeps (throw e : M (world D) A).
Proof. done. Qed.
Lemma keeps_deref {A} (f : world D → option A) : keeps (deref f).
Proof. intros w. by apply ensures_deref. Qed.
Lemma keeps_gets {A} (f : world D → A) : keeps (gets f).
Proof. done. Qed.
Lemma keeps_upd_flag f b : keeps (upd_flag f b).
Proof. apply keeps_bind; [apply keeps_deref|]. done. Qed.
Lemma keeps_upd_io y f : (∀ i, io_accepted (f i) = io_accepted i) → keeps (upd_io y f).
Proof.
  intros Hf w. apply ensures_bind, ensures_deref. intros i Hi z. simpl.
  destruct (decide (y = z)) as [<-|]; [|by rewrite lookup_insert_ne]. rewrite lookup_insert_eq, Hi. simpl. by rewrite Hf.
Qed.
Create HintDb keeps.
Hint Resolve keeps_bind keeps_ret keeps_throw keeps_deref keeps_gets keeps_upd_flag : keeps.
Lemma keeps_check L : keeps (check L).
Proof. unfold check. apply keeps_bind; [apply keeps_deref|]. intros l. apply keeps_bind; [apply keeps_gets|]. intros t. by case_decide. Qed.
Lemma keeps_release y : keeps (release_direction y).
Proof. apply keeps_bind; [apply keeps_deref|]. intros i. destruct (io_reserved i), (io_busy i); try done. apply keeps_upd_flag. Qed.
Lemma keeps_op_destroy y : keeps (op_destroy (D := D) y).
Proof. apply keeps_bind; [apply keeps_deref|]. intros o. by destruct (op_active o). Qed.
Lemma keeps_resume y : keeps (io_await_resume (D := D) y).
Proof.
  apply keeps_bind; [apply keeps_release|intros _]. apply keeps_bind; [by apply keeps_upd_io|intros _].
  apply keeps_bind; [|intros _; apply keeps_bind; [apply keeps_deref|done]].
  apply keeps_bind; [apply keeps_deref|]. intros o. by destruct (op_error o).
Qed.
Lemma keeps_op_resume y : keeps (op_await_resume (D := D) y).
Proof. apply keeps_bind; [apply keeps_deref|]. intros o. by destruct (op_error o). Qed.
Lemma keeps_stopped L : keeps (stopped L).
Proof. apply keeps_bind; [apply keeps_deref|done]. Qed.
Lemma keeps_flags (f : gmap loc bool → gmap loc bool) : keeps (modify (λ w, set_w_flags (f (w_flags w)) w)).
Proof. done. Qed.
Lemma keeps_the_flag f : keeps (the_flag f).
Proof. apply keeps_deref. Qed.
Lemma keeps_the_io y : keeps (the_io y).
Proof. apply keeps_deref. Qed.
Hint Resolve keeps_the_flag keeps_the_io keeps_check keeps_release keeps_op_destroy keeps_resume keeps_op_resume keeps_stopped keeps_flags : keeps.

(** The owners and the descriptors are untouched. *)
Definition kept s s' : Prop :=
  n_stray s' = n_stray s ∧ n_open s' = n_open s ∧ n_socks s' = n_socks s ∧ n_files s' = n_files s ∧ acc (n_world s) (n_world s') ∧ n_fds s' = n_fds s.
#[global] Instance kept_preorder : PreOrder kept.
Proof.
  split; [done|]. intros s1 s2 s3 (A1&A2&A3&A4&A5&A6) (B1&B2&B3&B4&B5&B6). unfold kept. rewrite B1, B2, B3, B4, B6. split_and!; [done..| |done].
  intros y. by rewrite B5, A5.
Qed.
Lemma kept_held s s' o : kept s s' → held s' o = held s o.
Proof. intros (_&_&E1&E2&E3&E4). unfold held. rewrite E1, E2, E4. destruct o; [done..|]. by rewrite E3. Qed.
Lemma kept_owned X s s' : kept s s' → owned X s → owned X s'.
Proof. intros K I. eapply owned_same; [exact I|apply K..|]. intros o. by apply kept_held. Qed.
Lemma in_net_kept {A} (c : M (world D) A) s : keeps c → ensures (in_net c) s (λ _ s', kept s s') (λ _ s', kept s s').
Proof. intros Hc. apply ensures_zoom. intros w [= <-]. eapply ensures_mono; [apply Hc| |]; done. Qed.
Lemma in_net_owned {A} (c : M (world D) A) X s (Q : A → net D → Prop) :
  keeps c → owned X s → (∀ a s', kept s s' → owned X s' → Q a s') → ensures (in_net c) s Q (λ _ s', owned X s').
Proof.
  intros Hc I HQ. eapply ensures_mono; [by apply in_net_kept| |].
  - intros a s' K. apply HQ; [exact K|exact (kept_owned _ _ _ K I)].
  - intros e s' K. exact (kept_owned _ _ _ K I).
Qed.

(** ** Opening and closing *)
Lemma open_call_spec X s (r : Z) (Q : Z → net D → Prop) :
  owned X s →
  (∀ s', owned ({[r]} ∪ X) s' → r ∉ X → n_socks s' = n_socks s → n_files s' = n_files s → w_ios (n_world s') = w_ios (n_world s) → Q r s') →
  ensures (open_call r) s Q (λ _ s', owned X s').
Proof.
  intros I HQ. unfold open_call. case_bool_decide as Hr; [done|]. apply ensures_bind. unfold ensures at 1, get.
  case_bool_decide as Hin; [done|]. unfold ensures; simpl.
  destruct (owned_open X s (set_open ({[r]} ∪ n_open s) s) r I Hin) as [I' Hx]; try done; [lia|].
  by apply HQ.
Qed.
(** A descriptor in a local variable, possibly invalid. *)
Definition local fd X : gset Z := if bool_decide (fd = invalid_socket) then X else {[fd]} ∪ X.
Lemma close_local X s fd (Q : unit → net D → Prop) E :
  owned (local fd X) s → fd ∉ X → (∀ s', owned X s' → Q tt s') → ensures (close_fd fd) s Q E.
Proof.
  unfold local, close_fd. intros I Hx HQ. case_bool_decide as Hv; [by apply HQ|]. unfold ensures, modify. apply HQ.
  rewrite bool_decide_true by (apply (ow_open _ _ I); set_solver). by apply (owned_close X s _ fd).
Qed.
Lemma verify_call_spec X s r (Q : unit → net D → Prop) :
  owned X s → Q tt s → ensures (verify_call r) s Q (λ _ s', owned X s').
Proof. intros I HQ. unfold verify_call. by case_bool_decide. Qed.

(** Destroying an owner closes what it holds. *)
Lemma close_owner X s o s' :
  owned X s →
  n_open s' = n_open (match held s o with Some fd => set_open (n_open s ∖ {[fd]}) s | None => s end) →
  n_stray s' = n_stray s → (∀ o', held s' o' = if decide (o' = o) then None else held s o') → owned X s'.
Proof.
  intros I Eo Es E. destruct (held s o) as [fd|] eqn:Ho; [by eapply owned_release|].
  eapply owned_same; [exact I|done|done|]. intros o'. rewrite E. case_decide; [by subst|done].
Qed.

Definition closed s (o : owner) : net D := match held s o with Some fd => set_open (n_open s ∖ {[fd]}) s | None => s end.
Lemma close_held X s o fd (Q : unit → net D → Prop) E :
  owned X s → held s o = valid (Some fd) → Q tt (closed s o) → ensures (close_fd fd) s Q E.
Proof.
  intros I Ho HQ. unfold close_fd, closed in *. rewrite Ho in HQ. simpl in *. case_bool_decide; [done|].
  unfold ensures, modify. rewrite bool_decide_true; [done|]. apply (ow_open _ _ I). right. eauto.
Qed.
Lemma closed_world s o : n_world (closed s o) = n_world s ∧ n_socks (closed s o) = n_socks s ∧
  n_files (closed s o) = n_files s ∧ n_stray (closed s o) = n_stray s ∧ n_fds (closed s o) = n_fds s.
Proof. unfold closed. by destruct (held s o). Qed.
(** An owner that has gone, its descriptor being closed. *)
Lemma owner_gone X s s' o :
  owned X s → n_open s' = n_open (closed s o) → n_stray s' = n_stray s →
  (∀ o', held s' o' = if decide (o' = o) then None else held s o') → owned X s'.
Proof. apply close_owner. Qed.

(** ** Sockets *)
Lemma socket_busy_spec X s x (Q : bool → net D → Prop) :
  owned X s → (∀ b s', kept s s' → owned X s' → Q b s') → ensures (socket_busy x) s Q (λ _ s', owned X s').
Proof.
  intros I HQ. apply ensures_bind, ensures_deref. intros k _.
  apply ensures_bind. eapply in_net_owned; [auto with keeps|done|]. intros r s1 K1 I1.
  apply ensures_bind. eapply in_net_owned; [auto with keeps|done|]. intros r' s2 K2 I2.
  apply HQ; [by etrans|done].
Qed.
Lemma socket_check_spec X s x (Q : unit → net D → Prop) :
  owned X s → (∀ s', kept s s' → owned X s' → Q tt s') → ensures (socket_check x) s Q (λ _ s', owned X s').
Proof.
  intros I HQ. apply ensures_bind, ensures_deref. intros k _. apply ensures_bind.
  eapply in_net_owned; [auto with keeps|done|]. intros [] s1 K1 I1. case_bool_decide; [done|]. by apply HQ.
Qed.
Lemma held_del_sock s x o : held (set_socks (delete x (n_socks s)) s) o = if decide (o = own_sock x) then None else held s o.
Proof.
  unfold held. destruct (decide (o = own_sock x)) as [->|]; simpl; [by rewrite lookup_delete_eq|].
  destruct o; [|done..]. rewrite lookup_delete_ne; [done|congruence].
Qed.
Lemma held_ins_sock s x k o : held (set_socks (<[x := k]> (n_socks s)) s) o = if decide (o = own_sock x) then valid (Some (sk_fd k)) else held s o.
Proof.
  unfold held. destruct (decide (o = own_sock x)) as [->|]; simpl; [by rewrite lookup_insert_eq|].
  destruct o; [|done..]. rewrite lookup_insert_ne; [done|congruence].
Qed.
Lemma socket_destroy_spec X s x :
  owned X s → ensures (socket_destroy x) s (λ _ s', owned X s') (λ _ s', owned X s').
Proof.
  intros I. apply ensures_bind, (socket_busy_spec X); [done|]. intros [] s1 _ I1; [done|].
  apply ensures_bind, ensures_deref. intros k Hk. apply ensures_bind.
  eapply (close_held X s1 (own_sock x)); [done|by unfold held; rewrite Hk|]. unfold ensures, modify.
  eapply (owner_gone X s1 _ (own_sock x)); [done|done|apply closed_world|].
  intros o. rewrite held_del_sock. case_decide; [done|]. unfold held. destruct (closed_world s1 (own_sock x)) as (->&->&->&_&->). done.
Qed.
Lemma with_socket_spec {A} X s x (c : M (net D) A) (Q : A → net D → Prop) :
  ensures c s Q (λ _ s', owned X s') → ensures (with_socket x c) s Q (λ _ s', owned X s').
Proof.
  intros H. apply ensures_try. eapply ensures_mono; [exact H|done|]. intros e s' I.
  apply ensures_bind. eapply ensures_mono; [exact (socket_destroy_spec X s' x I)| |]; done.
Qed.
Lemma socket_new_spec X s x L fd rd wr cl (Q : unit → net D → Prop) :
  owned (local fd X) s → fd ∉ X → n_socks s !! x = None →
  (∀ s', owned X s' → n_socks s' = <[x := Sock L fd rd wr]> (n_socks s) → n_files s' = n_files s →
     acc (n_world s) (n_world s') → Q tt s') →
  ensures (socket_new x L fd rd wr cl) s Q (λ _ s', owned X s').
Proof.
  intros I Hfd Hx HQ. apply ensures_bind, ensures_try.
  eapply (ensures_mono _ _ (λ _ s', kept s s' ∧ owned (local fd X) s' ∧ fd ≠ invalid_socket) _ (λ _ s', owned (local fd X) s')).
  - apply ensures_bind. eapply in_net_owned; [auto with keeps|done|]. intros [] s1 K1 I1. apply ensures_bind.
    case_bool_decide; [done|]. apply ensures_bind. by eapply verify_call_spec.
  - intros [] s1 (K1&I1&Hv). unfold ensures, in_net, zoom, modify, mbind, M_bind. simpl.
    destruct K1 as (K1&K2&K3&K4&K5&_). apply HQ; simpl; [|by rewrite K3|done|done].
    unfold local in I1. rewrite bool_decide_false in I1 by done.
    eapply (owned_give X s1 _ (own_sock x) fd I1 Hfd); try done.
    + unfold held. rewrite K3, Hx. done.
    + intros o. rewrite (held_ins_sock (set_world _ s1)). simpl. by rewrite bool_decide_false.
  - intros e s1 I1. apply ensures_bind. eapply close_local; [done|done|]. done.
Qed.
Lemma socket_move_spec X s z x rd wr (Q : unit → net D → Prop) :
  owned X s → n_socks s !! z = None →
  (∀ s', owned X s' → Q tt s') →
  ensures (socket_move z x rd wr) s Q (λ _ s', owned X s').
Proof.
  intros I Hz HQ. apply ensures_bind, (socket_check_spec X); [done|]. intros s1 K1 I1.
  apply ensures_bind, (socket_busy_spec X); [done|]. intros [] s2 K2 I2; [done|].
  apply ensures_bind, ensures_deref. intros k Hk. assert (n_socks s2 !! z = None) as Hz2.
  { destruct K1 as (_&_&E1&_), K2 as (_&_&E2&_). by rewrite E2, E1. }
  assert (z ≠ x) as Hne by congruence.
  apply ensures_bind, ensures_bind, ensures_deref. intros k' Hk'. unfold ensures, in_net, zoom, modify, mbind, M_bind. simpl.
  assert (k' = k) as -> by congruence. apply HQ.
  set (s3 := set_socks (<[x := set_sk_fd invalid_socket k]> (n_socks s2)) s2).
  assert (∀ o, held s3 o = if decide (o = own_sock x) then None else held s2 o) as H3 by (intros o; apply held_ins_sock).
  destruct (held s2 (own_sock x)) as [fd|] eqn:Hh.
  - destruct (owned_take X s2 s3 (own_sock x) fd I2 Hh eq_refl eq_refl H3) as [I3 Hfd].
    eapply (owned_give X s3 _ (own_sock z) fd I3 Hfd); try done.
    + rewrite H3, decide_False by congruence. unfold held. by rewrite Hz2.
    + intros o. rewrite (held_ins_sock (set_world _ s3)). case_decide; [|done]. rewrite <- Hh. unfold held. by rewrite Hk'.
  - assert (valid (Some (sk_fd k)) = None) as Hv by (rewrite <- Hh; unfold held; by rewrite Hk').
    eapply owned_same; [exact I2|done|done|]. intros o. rewrite (held_ins_sock (set_world _ s3)).
    change (held (set_world _ s3) o) with (held s3 o). rewrite H3. case_decide; [subst|case_decide; by subst].
    unfold held. simpl. by rewrite Hz2.
Qed.

(** ** Requests *)
Lemma held_ios s ios o : held (set_world (set_w_ios ios (n_world s)) s) o =
  match o with own_request y => valid (io_accepted <$> ios !! y) | _ => held s o end.
Proof. by destruct o. Qed.
Lemma new_request_spec X s y L i (Q : unit → net D → Prop) :
  owned X s → w_ios (n_world s) !! y = None → io_accepted i = invalid_socket →
  (∀ s', owned X s' → Q tt s') → ensures (new_request y L i) s Q (λ _ s', owned X s').
Proof.
  intros I Hy Hi HQ. unfold ensures, new_request, in_net, zoom, modify. apply HQ.
  eapply owned_same; [exact I|done|done|]. intros [z|z|z|z]; unfold held; simpl; [done..|].
  destruct (decide (y = z)) as [<-|]; [|by rewrite lookup_insert_ne]. rewrite lookup_insert_eq, Hy. simpl. by rewrite Hi.
Qed.
Lemma set_world_id s : set_world (n_world s) s = s.
Proof. by destruct s. Qed.
Lemma the_io_spec s y (Q : io → net D → Prop) E :
  (∀ i, w_ios (n_world s) !! y = Some i → Q i s) → ensures (in_net (the_io y)) s Q E.
Proof.
  intros HQ. apply ensures_zoom. intros w [= <-]. apply ensures_deref. intros i Hi. rewrite set_world_id. by apply HQ.
Qed.
Lemma op_destroy_spec s y (Q : unit → net D → Prop) E : Q tt s → ensures (in_net (op_destroy y)) s Q E.
Proof.
  intros HQ. apply ensures_zoom. intros w [= <-]. apply ensures_bind, ensures_deref. intros o _.
  destruct (op_active o); [done|]. unfold ensures; simpl. by rewrite set_world_id.
Qed.
Lemma request_destroy_spec X s y : owned X s → ensures (request_destroy y) s (λ _ s', owned X s') (λ _ s', owned X s').
Proof.
  intros I. apply ensures_bind, the_io_spec. intros i Hi.
  apply ensures_bind. eapply in_net_owned; [auto with keeps|done|]. intros [] s1 K1 I1.
  assert (held s1 (own_request y) = valid (Some (io_accepted i))) as Hh.
  { rewrite (kept_held _ _ _ K1). unfold held. by rewrite Hi. }
  apply ensures_bind. eapply (close_held X s1 (own_request y)); [done|done|].
  apply ensures_bind, op_destroy_spec. unfold ensures, in_net, zoom, modify.
  destruct (closed_world s1 (own_request y)) as (W1&W2&W3&W4&W5).
  eapply (owner_gone X s1 _ (own_request y)); [done|done|done|]. intros o. rewrite held_ios, W1.
  destruct (decide (o = own_request y)) as [->|Hne]; [by rewrite lookup_delete_eq|].
  destruct o; [by unfold held; rewrite W2|by unfold held; rewrite W3|by unfold held; rewrite W5|]. rewrite lookup_delete_ne; [done|congruence].
Qed.
Lemma with_request_spec {A} X s y (c : M (net D) A) (Q : A → net D → Prop) :
  ensures c s Q (λ _ s', owned X s') → ensures (with_request y c) s Q (λ _ s', owned X s').
Proof.
  intros H. apply ensures_try. eapply ensures_mono; [exact H|done|]. intros e s' I.
  apply ensures_bind. eapply ensures_mono; [exact (request_destroy_spec X s' y I)| |]; done.
Qed.
(** Taking the accepted descriptor out of a request. *)
Lemma take_accepted_spec X s y i (Q : unit → net D → Prop) E :
  owned X s → w_ios (n_world s) !! y = Some i →
  (∀ s', owned (local (io_accepted i) X) s' → io_accepted i ∉ X → n_socks s' = n_socks s → n_fds s' = n_fds s → Q tt s') →
  ensures (in_net (upd_io y (set_io_accepted invalid_socket))) s Q E.
Proof.
  intros I Hi HQ. apply ensures_zoom. intros w [= <-]. apply ensures_bind, ensures_deref. intros i' Hi'.
  assert (i' = i) as -> by congruence. unfold ensures, modify. set (s' := set_world _ s).
  assert (∀ o, held s' o = if decide (o = own_request y) then None else held s o) as E'.
  { intros o. unfold s'. rewrite held_ios. destruct (decide (o = own_request y)) as [->|]; [by rewrite lookup_insert_eq|].
    destruct o; [done..|]. unfold held. rewrite lookup_insert_ne; [done|congruence]. }
  unfold local in HQ. case_bool_decide as Hv.
  - apply HQ; [|rewrite Hv; apply (ow_valid _ _ I)|done|done]. eapply owned_same; [exact I|done|done|].
    intros o. rewrite E'. case_decide; [subst|done]. unfold held. rewrite Hi. simpl. by rewrite bool_decide_true.
  - destruct (owned_take X s s' (own_request y) (io_accepted i)) as [I' Hfd]; try done; [|by apply HQ].
    unfold held. rewrite Hi. simpl. by rewrite bool_decide_false.
Qed.

(** ** Files *)
Lemma held_del_file s x o : held (set_files (delete x (n_files s)) s) o = if decide (o = own_file x) then None else held s o.
Proof.
  unfold held. destruct (decide (o = own_file x)) as [->|]; simpl; [by rewrite lookup_delete_eq|].
  destruct o; [done| |done..]. rewrite lookup_delete_ne; [done|congruence].
Qed.
Lemma held_ins_file s x k o : held (set_files (<[x := k]> (n_files s)) s) o = if decide (o = own_file x) then valid (Some (fl_fd k)) else held s o.
Proof.
  unfold held. destruct (decide (o = own_file x)) as [->|]; simpl; [by rewrite lookup_insert_eq|].
  destruct o; [done| |done..]. rewrite lookup_insert_ne; [done|congruence].
Qed.
(** A file that holds the same descriptor as before. *)
Lemma upd_file_spec X s x f (Q : unit → net D → Prop) E :
  owned X s → (∀ k, fl_fd (f k) = fl_fd k) → (∀ s', owned X s' → Q tt s') → ensures (upd_file x f) s Q E.
Proof.
  intros I Hf HQ. apply ensures_bind, ensures_deref. intros k Hk. unfold ensures, modify. apply HQ.
  eapply owned_same; [exact I|done|done|]. intros o. rewrite held_ins_file. case_decide; [subst|done].
  unfold held. rewrite Hk. simpl. by rewrite Hf.
Qed.
Lemma file_close_spec X s x (Q : unit → net D → Prop) E :
  owned X s → (∀ s', owned X s' → held s' (own_file x) = None → Q tt s') → ensures (file_close x) s Q E.
Proof.
  intros I HQ. apply ensures_bind, ensures_deref. intros k Hk. case_bool_decide as Hv.
  { unfold ensures; simpl. apply HQ; [done|]. unfold held. rewrite Hk. simpl. by rewrite bool_decide_true. }
  apply ensures_bind. eapply (close_held X s (own_file x)); [done|by unfold held; rewrite Hk|].
  apply ensures_bind, ensures_deref. intros k' Hk'. unfold ensures, modify. destruct (closed_world s (own_file x)) as (W1&W2&W3&W4&W5).
  set (s' := set_files _ _). assert (∀ o, held s' o = if decide (o = own_file x) then None else held s o) as E'.
  { intros o. unfold s'. rewrite held_ins_file. case_decide; [done|]. unfold held. by rewrite W1, W2, W3, W5. }
  apply HQ; [|by rewrite E', decide_True]. by eapply (owner_gone X s s' (own_file x)).
Qed.
Lemma del_file_spec X s x : owned X s → held s (own_file x) = None → owned X (set_files (delete x (n_files s)) s).
Proof. intros I Hh. eapply owned_same; [exact I|done|done|]. intros o. rewrite held_del_file. case_decide; [by subst|done]. Qed.
Lemma file_destroy_spec X s x : owned X s → ensures (file_destroy x) s (λ _ s', owned X s') (λ _ s', owned X s').
Proof.
  intros I. apply ensures_bind, ensures_deref. intros k Hk. case_bool_decide; [done|].
  apply ensures_bind, (file_close_spec X); [done|]. intros s' I' Hh. by apply del_file_spec.
Qed.
Lemma file_check_spec X s x (Q : unit → net D → Prop) :
  owned X s → (∀ s', kept s s' → owned X s' → Q tt s') → ensures (file_check x) s Q (λ _ s', owned X s').
Proof.
  intros I HQ. apply ensures_bind, ensures_deref. intros k _. apply ensures_bind.
  eapply in_net_owned; [auto with keeps|done|]. intros [] s1 K1 I1. case_bool_decide; [done|]. by apply HQ.
Qed.
Lemma file_new_spec X s x L bad a d op st reg :
  owned X s → n_files s !! x = None →
  ensures (file_new x L bad a d op st reg) s (λ _ s', owned X s') (λ _ s', owned X s').
Proof.
  intros I Hx. apply ensures_bind. eapply in_net_owned; [auto with keeps|done|]. intros [] s1 K1 I1. destruct bad; [done|].
  apply ensures_bind, (open_call_spec X); [done|]. intros s2 I2 Hfd Es Ef Ew. set (fd := op _) in *.
  apply ensures_bind. unfold ensures at 1, modify. set (s3 := set_files _ _).
  assert (owned X s3) as I3.
  { eapply (owned_give X s2 s3 (own_file x) fd I2 Hfd); try done.
    - unfold held. destruct K1 as (_&_&_&K1&_). by rewrite Ef, K1, Hx.
    - intros o. unfold s3. rewrite held_ins_file. simpl. rewrite bool_decide_false; [done|].
      intros E. apply (ow_valid _ _ I2). rewrite <- E. set_solver. }
  apply ensures_try. eapply (ensures_mono _ _ (λ _ s', owned X s') _ (λ _ s', owned X s')); [|done|].
  - apply ensures_bind. eapply verify_call_spec; [done|]. apply ensures_bind. by destruct reg.
  - intros e s4 I4. apply ensures_bind, (file_close_spec X); [done|]. intros s5 I5 Hh. apply ensures_bind. by apply del_file_spec.
Qed.
Lemma file_move_spec X s z x :
  owned X s → n_files s !! z = None → ensures (file_move z x) s (λ _ s', owned X s') (λ _ s', owned X s').
Proof.
  intros I Hz. apply ensures_bind, (file_check_spec X); [done|]. intros s2 K2 I2.
  apply ensures_bind, ensures_deref. intros k Hk. case_bool_decide; [done|].
  assert (n_files s2 !! z = None) as Hz2 by (destruct K2 as (_&_&_&E2&_); by rewrite E2).
  assert (z ≠ x) as Hne by congruence.
  apply ensures_bind, ensures_bind, ensures_deref. intros k' Hk'. unfold ensures, modify. assert (k' = k) as -> by congruence.
  set (s3 := set_files (<[x := set_fl_fd invalid_socket k]> (n_files s2)) s2).
  assert (∀ o, held s3 o = if decide (o = own_file x) then None else held s2 o) as H3 by (intros o; apply held_ins_file).
  destruct (held s2 (own_file x)) as [fd|] eqn:Hh.
  - destruct (owned_take X s2 s3 (own_file x) fd I2 Hh eq_refl eq_refl H3) as [I3 Hfd].
    eapply (owned_give X s3 _ (own_file z) fd I3 Hfd); try done.
    + rewrite H3, decide_False by congruence. unfold held. by rewrite Hz2.
    + intros o. rewrite (held_ins_file s3). case_decide; [|done]. rewrite <- Hh. unfold held. by rewrite Hk'.
  - assert (valid (Some (fl_fd k)) = None) as Hv by (rewrite <- Hh; unfold held; by rewrite Hk').
    eapply owned_same; [exact I2|done|done|]. intros o. rewrite (held_ins_file s3), H3.
    case_decide; [subst|case_decide; by subst]. unfold held. simpl. by rewrite Hz2.
Qed.

(** ** [uring::fd] *)
Lemma held_del_fd s x o : held (set_fds (delete x (n_fds s)) s) o = if decide (o = own_fd x) then None else held s o.
Proof.
  unfold held. destruct (decide (o = own_fd x)) as [->|]; simpl; [by rewrite lookup_delete_eq|].
  destruct o; [done..| |done]. rewrite lookup_delete_ne; [done|congruence].
Qed.
Lemma held_ins_fd s x v o : held (set_fds (<[x := v]> (n_fds s)) s) o = if decide (o = own_fd x) then valid (Some v) else held s o.
Proof.
  unfold held. destruct (decide (o = own_fd x)) as [->|]; simpl; [by rewrite lookup_insert_eq|].
  destruct o; [done..| |done]. rewrite lookup_insert_ne; [done|congruence].
Qed.
(** Adopting a descriptor held by a local variable. *)
Lemma fd_new_spec X s x fd (Q : unit → net D → Prop) E :
  owned (local fd X) s → fd ∉ X → held s (own_fd x) = None → (∀ s', owned X s' → Q tt s') → ensures (fd_new x fd) s Q E.
Proof.
  intros I Hfd Hx HQ. unfold ensures, fd_new, modify. apply HQ. unfold local in I. case_bool_decide as Hv.
  - eapply owned_same; [exact I|done|done|]. intros o. rewrite held_ins_fd. case_decide; [subst o|done].
    rewrite Hx. simpl. by rewrite bool_decide_true.
  - eapply (owned_give X s _ (own_fd x) fd I Hfd); try done. intros o. rewrite held_ins_fd. simpl. by rewrite bool_decide_false.
Qed.
(** The value released is in the hands of the caller. *)
Lemma fd_release_spec X s x (Q : Z → net D → Prop) E :
  owned X s →
  (∀ v s', n_fds s !! x = Some v → owned (local v X) s' → v ∉ X → n_fds s' = <[x := (-1)%Z]> (n_fds s) → Q v s') →
  ensures (fd_release x) s Q E.
Proof.
  intros I HQ. apply ensures_bind, ensures_deref. intros v Hv. unfold ensures, fd_new, modify, mbind, M_bind. simpl.
  set (s' := set_fds _ s). assert (∀ o, held s' o = if decide (o = own_fd x) then None else held s o) as E' by (intros o; apply held_ins_fd).
  assert (held s (own_fd x) = valid (Some v)) as Hh by (unfold held; by rewrite Hv). simpl in Hh.
  unfold local in HQ. specialize (HQ v s' Hv). case_bool_decide as Hi.
  - apply HQ; [|rewrite Hi; apply (ow_valid _ _ I)|done]. eapply owned_same; [exact I|done|done|].
    intros o. rewrite E'. case_decide; [by subst o|done].
  - destruct (owned_take X s s' (own_fd x) v I Hh eq_refl eq_refl E') as [I' Hx]. by apply HQ.
Qed.
Lemma fd_move_spec X s z x :
  owned X s → n_fds s !! z = None → ensures (fd_move z x) s (λ _ s', owned X s') (λ _ s', owned X s').
Proof.
  intros I Hz. apply ensures_bind, (fd_release_spec X); [done|]. intros v s1 Hv I1 Hx E1.
  apply (fd_new_spec X); [done|done| |done]. unfold held. rewrite E1, lookup_insert_ne by congruence. by rewrite Hz.
Qed.
Lemma fd_destroy_spec X s x : owned X s → ensures (fd_destroy x) s (λ _ s', owned X s') (λ _ s', owned X s').
Proof.
  intros I. apply ensures_bind, ensures_deref. intros v Hv. apply ensures_bind.
  assert (held s (own_fd x) = valid (Some v)) as Hh by (unfold held; by rewrite Hv).
  case_bool_decide as Hp.
  - eapply (close_held X s (own_fd x)); [done|done|]. unfold ensures, modify.
    eapply (owner_gone X s _ (own_fd x)); [done|done|apply closed_world|].
    intros o. rewrite held_del_fd. case_decide; [done|]. unfold held. by destruct (closed_world s (own_fd x)) as (->&->&->&_&->).
  - unfold ensures; simpl. eapply owned_same; [exact I|done|done|]. intros o. rewrite held_del_fd. case_decide; [subst o|done].
    destruct (held s (own_fd x)) as [f|] eqn:Hf; [|done]. exfalso. apply Hp. simpl in Hh. case_bool_decide; [done|]. simplify_eq.
    apply (ow_pos _ _ I), (ow_open _ _ I). eauto.
Qed.
Lemma open_await_resume_spec X s y z :
  owned X s → n_fds s !! z = None → ensures (open_await_resume y z) s (λ _ s', owned X s') (λ _ s', owned X s').
Proof.
  intros I Hz. apply ensures_bind. eapply in_net_owned; [auto with keeps|done|]. intros [] s1 K1 I1.
  apply ensures_bind, the_io_spec. intros i Hi. apply ensures_bind, (take_accepted_spec X s1 y i); [done|done|].
  intros s2 I2 Ha _ E2. apply (fd_new_spec X); [done|done| |done]. unfold held.
  destruct K1 as (_&_&_&_&_&K1). by rewrite E2, K1, Hz.
Qed.

(** ** Every operation *)
Inductive net_call :=
| c_listen (x : loc) (L : loopid) (rd wr : loc) (backlog opened cloexec reuse bound listening : Z)
| c_connect_begin (x y : loc) (L : loopid) (rd wr : loc) (e : endpoint) (t : token) (opened cloexec : Z)
| c_connect_end (x y z rd wr : loc)
| c_accept_begin (x y : loc) (t : token)
| c_accept_end (x y u ru wu z rd wr : loc) (cloexec : Z)
| c_read (x y : loc) (buf : nat) (size : Z) (t : token)
| c_write (x y : loc) (buf : nat) (size : Z) (t : token)
| c_request_destroy (y : loc)
| c_shutdown (x : loc) (r : Z)
| c_nodelay (x : loc) (r : Z)
| c_local (x : loc) (r : Z) (named : endpoint)
| c_move (z x rd wr : loc)
| c_destroy (x : loc)
| c_udp (x : loc) (L : loopid) (rd wr : loc) (opened cloexec bound : Z)
| c_udp_recv (x y : loc) (buf : nat) (size : Z) (t : token)
| c_udp_recv_end (y : loc)
| c_udp_send (x y : loc) (buf : nat) (size : Z) (peer : endpoint) (t : token)
| c_udp_send_end (y : loc) (size : Z)
| c_file (x : loc) (L : loopid) (bad_path : bool) (access : mode) (direct : bool) (opened : Z → Z) (stated : Z) (regular : bool)
| c_file_move (z x : loc)
| c_file_destroy (x : loc)
| c_transfer (x y : loc) (buf : nat) (size offset : Z) (write : bool) (t : token)
| c_transfer_end (x y : loc)
| c_flush (x y : loc) (t : token)
| c_flush_end (x y : loc)
| c_open (y : loc) (L : loopid) (e : sqe) (t : token)
| c_open_resume (y z : loc)
| c_fd_move (z x : loc)
| c_fd_destroy (x : loc).
Definition void {A} (c : M (net D) A) : M (net D) unit := _ ← c; mret tt.
Definition perform (c : net_call) : M (net D) unit :=
  match c with
  | c_listen x L rd wr b o cl re bd li => socket_listen x L rd wr b o cl re bd li
  | c_connect_begin x y L rd wr e t o cl => connect_begin x y L rd wr e t o cl
  | c_connect_end x y z rd wr => connect_end x y z rd wr
  | c_accept_begin x y t => accept_begin x y t
  | c_accept_end x y u ru wu z rd wr cl => accept_end x y u ru wu z rd wr cl
  | c_read x y buf n t => socket_read x y buf n t
  | c_write x y buf n t => socket_write x y buf n t
  | c_request_destroy y => request_destroy y
  | c_shutdown x r => socket_shutdown x r
  | c_nodelay x r => socket_nodelay x r
  | c_local x r e => void (socket_local x r e)
  | c_move z x rd wr => socket_move z x rd wr
  | c_destroy x => socket_destroy x
  | c_udp x L rd wr o cl bd => udp_new x L rd wr o cl bd
  | c_udp_recv x y buf n t => udp_recv_begin x y buf n t
  | c_udp_recv_end y => void (udp_recv_end y)
  | c_udp_send x y buf n e t => udp_send_begin x y buf n e t
  | c_udp_send_end y n => void (udp_send_end y n)
  | c_file x L b a d o st reg => file_new x L b a d o st reg
  | c_file_move z x => file_move z x
  | c_file_destroy x => file_destroy x
  | c_transfer x y buf n off w t => void (transfer_begin x y buf n off w t)
  | c_transfer_end x y => void (transfer_end x y)
  | c_flush x y t => flush_begin x y t
  | c_flush_end x y => flush_end x y
  | c_open y L e t => open_new y L e t
  | c_open_resume y z => open_await_resume y z
  | c_fd_move z x => fd_move z x
  | c_fd_destroy x => fd_destroy x
  end.
(** The objects a call creates live in storage that no object of their kind uses. *)
Definition no_sock s x : Prop := n_socks s !! x = None.
Definition no_request s y : Prop := w_ios (n_world s) !! y = None.
Definition storage (c : net_call) s : Prop :=
  match c with
  | c_listen x _ _ _ _ _ _ _ _ _ | c_udp x _ _ _ _ _ _ => no_sock s x
  | c_connect_begin x y _ _ _ _ _ _ _ => no_sock s x ∧ no_request s y
  | c_connect_end _ _ z _ _ | c_move z _ _ _ => no_sock s z
  | c_accept_end _ _ u _ _ z _ _ _ => no_sock s u ∧ no_sock s z ∧ u ≠ z
  | c_accept_begin _ y _ | c_read _ y _ _ _ | c_write _ y _ _ _ | c_udp_recv _ y _ _ _ | c_udp_send _ y _ _ _ _
  | c_transfer _ y _ _ _ _ _ | c_flush _ y _ | c_open y _ _ _ => no_request s y
  | c_file x _ _ _ _ _ _ _ => n_files s !! x = None
  | c_file_move z _ => n_files s !! z = None
  | c_open_resume _ z | c_fd_move z _ => n_fds s !! z = None
  | _ => True
  end.

Lemma kept_no_sock s s' x : kept s s' → no_sock s x → no_sock s' x.
Proof. intros (_&_&E&_). unfold no_sock. by rewrite E. Qed.
Lemma kept_no_request s s' y : kept s s' → no_request s y → no_request s' y.
Proof.
  intros (_&_&_&_&E&_) H. unfold no_request in *. specialize (E y). rewrite H in E. by destruct (w_ios (n_world s') !! y).
Qed.
Lemma void_spec {A} X (c : M (net D) A) s :
  ensures c s (λ _ s', owned X s') (λ _ s', owned X s') → ensures (void c) s (λ _ s', owned X s') (λ _ s', owned X s').
Proof. intros H. apply ensures_bind. eapply ensures_mono; [exact H| |]; done. Qed.
(** A socket made from a descriptor that was just opened, and used further. *)
Lemma open_socket_spec X s x L rd wr o cl (k : Z → M (net D) unit) (Q : unit → net D → Prop) :
  owned X s → no_sock s x →
  (∀ s', owned X s' → (∀ y, no_request s y → no_request s' y) → ensures (k o) s' Q (λ _ s', owned X s')) →
  ensures (fd ← open_call o; socket_new x L fd rd wr cl ;; k fd) s Q (λ _ s', owned X s').
Proof.
  intros I Hx Hk. apply ensures_bind, (open_call_spec X); [done|]. intros s1 I1 Ho E1 _ E3.
  apply ensures_bind, (socket_new_spec X).
  - unfold local. rewrite bool_decide_false; [done|]. intros ->. apply (ow_valid _ _ I1). set_solver.
  - done.
  - by rewrite E1.
  - intros s2 I2 _ _ A2. apply Hk; [done|]. intros y Hy. unfold no_request in *. specialize (A2 y). rewrite E3, Hy in A2.
    by destruct (w_ios (n_world s2) !! y).
Qed.
Lemma check_then X s L (k : M (net D) unit) :
  owned X s → (∀ s', kept s s' → owned X s' → ensures k s' (λ _ s', owned X s') (λ _ s', owned X s')) →
  ensures (in_net (check L) ;; k) s (λ _ s', owned X s') (λ _ s', owned X s').
Proof. intros I Hk. apply ensures_bind. eapply in_net_owned; [auto with keeps|done|]. intros [] s' K I'. by apply Hk. Qed.
(** A request made on a checked socket. *)
Lemma socket_request_spec X s x y (f : sock → io) :
  owned X s → no_request s y → (∀ k, io_accepted (f k) = invalid_socket) →
  ensures (socket_check x ;; k ← the_sock x; new_request y (sk_loop k) (f k)) s (λ _ s', owned X s') (λ _ s', owned X s').
Proof.
  intros I Hy Hf. apply ensures_bind, (socket_check_spec X); [done|]. intros s1 K1 I1.
  apply ensures_bind, ensures_deref. intros k Hk. eapply new_request_spec; [done|by eapply kept_no_request|done|done].
Qed.
(** The end of an awaited request. *)
Lemma awaited_spec {A} X s y (c : M (net D) A) :
  ensures c s (λ _ s', owned X s') (λ _ s', owned X s') →
  ensures (r ← with_request y c; request_destroy y ;; mret r) s (λ _ s', owned X s') (λ _ s', owned X s').
Proof.
  intros H. apply ensures_bind, with_request_spec. eapply ensures_mono; [exact H| |done]. intros r s' I.
  apply ensures_bind. eapply ensures_mono; [exact (request_destroy_spec X s' y I)| |]; done.
Qed.
Lemma resume_spec X s y : owned X s → ensures (in_net (io_await_resume y)) s (λ _ s', owned X s') (λ _ s', owned X s').
Proof. intros I. eapply in_net_owned; [auto with keeps|done|]. done. Qed.
Lemma use_new_spec X s x : owned X s →
  ensures (use_new x) s (λ _ s', owned X s' ∧ ∀ y, no_request s y → no_request s' y) (λ _ s', owned X s').
Proof.
  intros I. apply ensures_bind, (file_check_spec X); [done|]. intros s1 K1 I1. apply ensures_bind, ensures_deref. intros k Hk.
  apply ensures_bind, ensures_deref. intros k' Hk'. unfold ensures, modify. split.
  - eapply owned_same; [exact I1|done|done|]. intros o. rewrite held_ins_file. case_decide; [subst|done]. unfold held. by rewrite Hk'.
  - intros y Hy. by apply (kept_no_request _ _ _ K1) in Hy.
Qed.
Lemma use_destroy_spec X s x (Q : unit → net D → Prop) E :
  owned X s → (∀ s', owned X s' → Q tt s') → ensures (use_destroy x) s Q E.
Proof. intros I HQ. apply ensures_bind, ensures_deref. intros k _. by eapply upd_file_spec. Qed.
Lemma with_use_spec {A} X s x (c : M (net D) A) (Q : A → net D → Prop) :
  ensures c s Q (λ _ s', owned X s') → ensures (with_use x c) s Q (λ _ s', owned X s').
Proof.
  intros H. apply ensures_try. eapply ensures_mono; [exact H|done|]. intros e s' I.
  apply ensures_bind. by eapply (use_destroy_spec X).
Qed.
Lemma canceled_keeps X s L t (Q : unit → net D → Prop) :
  owned X s → (∀ s', kept s s' → owned X s' → Q tt s') → ensures (canceled L t) s Q (λ _ s', owned X s').
Proof.
  intros I HQ. apply ensures_bind. eapply in_net_owned; [auto with keeps|done|]. intros st s1 K1 I1.
  apply ensures_bind. eapply in_net_owned; [auto with keeps|done|]. intros rq s2 K2 I2.
  destruct (st || rq); [done|]. apply HQ; [by etrans|done].
Qed.

Lemma accept_end_spec X s x y u ru wu z rd wr cl :
  owned X s → no_sock s u → no_sock s z → u ≠ z →
  ensures (accept_end x y u ru wu z rd wr cl) s (λ _ s', owned X s') (λ _ s', owned X s').
Proof.
  intros I Hu Hz Hne. apply ensures_bind, with_request_spec.
  eapply (ensures_mono _ _ (λ _ s', owned X s') _ (λ _ s', owned X s')); [|intros ? s' I'; by apply request_destroy_spec|done].
  apply ensures_bind. eapply in_net_owned; [auto with keeps|done|]. intros n s1 K1 I1.
  apply ensures_bind, ensures_deref. intros k _. apply ensures_bind, the_io_spec. intros i Hi.
  apply ensures_bind, (take_accepted_spec X s1 y i); [done|done|]. intros s2 I2 Ha E2 _.
  destruct K1 as (_&_&K1&_).
  apply ensures_bind, (socket_new_spec X); [done|done|unfold no_sock in *; by rewrite E2, K1|]. intros s3 I3 E3 _ _.
  apply ensures_bind, with_socket_spec, (socket_move_spec X); [done| |].
  - rewrite E3, E2, K1, lookup_insert_ne by done. done.
  - intros s4 I4. by apply socket_destroy_spec.
Qed.
Lemma connect_end_spec X s x y z rd wr :
  owned X s → no_sock s z → ensures (connect_end x y z rd wr) s (λ _ s', owned X s') (λ _ s', owned X s').
Proof.
  intros I Hz. apply ensures_bind, with_socket_spec, ensures_bind, with_request_spec.
  apply ensures_bind. eapply in_net_owned; [auto with keeps|done|]. intros n s1 K1 I1.
  apply (socket_move_spec X); [done|by eapply kept_no_sock|]. intros s2 I2.
  eapply ensures_mono; [exact (request_destroy_spec X s2 y I2)| |done]. intros ? s3 I3. by apply socket_destroy_spec.
Qed.
Lemma transfer_begin_spec X s x y buf n off (wr : bool) t :
  owned X s → no_request s y → ensures (transfer_begin x y buf n off wr t) s (λ _ s', owned X s') (λ _ s', owned X s').
Proof.
  intros I Hy. apply ensures_bind. eapply ensures_mono; [by apply (use_new_spec X)| |done]. intros ? s1 [I1 Hk].
  apply with_use_spec, ensures_bind, ensures_deref. intros k _. apply ensures_bind, (canceled_keeps X); [done|]. intros s2 K2 I2.
  cbv zeta. destruct (bool_decide (INT64_MAX < off)%Z || bool_decide (INT64_MAX - off < clamp n)%Z); [done|]. case_bool_decide.
  - apply ensures_bind, (use_destroy_spec X); [done|]. done.
  - apply ensures_bind, (new_request_spec X); [done|eapply kept_no_request; [exact K2|by apply Hk]|by destruct wr|done].
Qed.
Lemma transfer_end_spec X s x y : owned X s → ensures (transfer_end x y) s (λ _ s', owned X s') (λ _ s', owned X s').
Proof.
  intros I. apply ensures_bind, with_use_spec, with_request_spec. eapply in_net_owned; [auto with keeps|done|].
  intros n s1 K1 I1. apply ensures_bind. eapply ensures_mono; [exact (request_destroy_spec X s1 y I1)| |done].
  intros ? s2 I2. apply ensures_bind, (use_destroy_spec X); [done|]. done.
Qed.

Lemma perform_owned X c s : owned X s → storage c s → ensures (perform c) s (λ _ s', owned X s') (λ _ s', owned X s').
Proof.
  intros I F. destruct c; simpl in F; simpl.
  - apply check_then; [done|]. intros s1 K1 I1. case_bool_decide; [done|]. eapply (open_socket_spec X _ _ _ _ _ _ _ (λ fd, _)); [done|by eapply kept_no_sock|].
    intros s2 I2 _. apply with_socket_spec. apply ensures_bind. eapply verify_call_spec; [done|]. apply ensures_bind.
    eapply verify_call_spec; [done|]. by eapply verify_call_spec.
  - destruct F as [F1 F2]. apply check_then; [done|]. intros s1 K1 I1. eapply (open_socket_spec X _ _ _ _ _ _ _ (λ fd, _)); [done|by eapply kept_no_sock|].
    intros s2 I2 Hk. eapply new_request_spec; [done|by eapply Hk, kept_no_request|done|done].
  - by apply connect_end_spec.
  - by apply (socket_request_spec X s x y).
  - destruct F as (?&?&?). by apply accept_end_spec.
  - by apply (socket_request_spec X s x y).
  - by apply (socket_request_spec X s x y).
  - by apply request_destroy_spec.
  - apply ensures_bind, (socket_check_spec X); [done|]. intros s1 K1 I1. apply ensures_bind, ensures_deref. intros k _.
    apply ensures_bind. eapply in_net_owned; [auto with keeps|done|]. intros [] s2 K2 I2; [done|]. by eapply verify_call_spec.
  - apply ensures_bind, (socket_check_spec X); [done|]. intros s1 K1 I1. by eapply verify_call_spec.
  - apply void_spec, ensures_bind, (socket_check_spec X); [done|]. intros s1 K1 I1. apply ensures_bind. by eapply verify_call_spec.
  - by apply socket_move_spec.
  - by apply socket_destroy_spec.
  - eapply (open_socket_spec X _ _ _ _ _ _ _ (λ fd, _)); [done|done|]. intros s2 I2 _. by eapply with_socket_spec, verify_call_spec.
  - by apply (socket_request_spec X s x y).
  - apply void_spec, awaited_spec, ensures_bind. eapply in_net_owned; [auto with keeps|done|]. intros n s1 K1 I1.
    by apply ensures_bind, the_io_spec.
  - apply ensures_bind, (socket_check_spec X); [done|]. intros s1 K1 I1. case_bool_decide; [done|].
    apply ensures_bind, ensures_deref. intros k _. eapply new_request_spec; [done|by eapply kept_no_request|done|done].
  - apply void_spec, awaited_spec, ensures_bind. eapply in_net_owned; [auto with keeps|done|]. intros n s1 K1 I1. by case_bool_decide.
  - by apply file_new_spec.
  - by apply file_move_spec.
  - by apply file_destroy_spec.
  - by apply void_spec, transfer_begin_spec.
  - by apply void_spec, transfer_end_spec.
  - apply ensures_bind. eapply ensures_mono; [by apply (use_new_spec X)| |done]. intros ? s1 [I1 Hk].
    apply with_use_spec, ensures_bind, ensures_deref. intros k _. apply ensures_bind, (canceled_keeps X); [done|]. intros s2 K2 I2.
    eapply new_request_spec; [done|eapply kept_no_request; [exact K2|by apply Hk]|done|done].
  - by apply void_spec, transfer_end_spec.
  - apply check_then; [done|]. intros s1 K1 I1. eapply new_request_spec; [done|by eapply kept_no_request|done|done].
  - by apply open_await_resume_spec.
  - by apply fd_move_spec.
  - by apply fd_destroy_spec.
Qed.

(** A history: the calls, returning or throwing; the loop, which runs and completes
    requests; the kernel, which stores an accepted or opened descriptor in a request. *)
Inductive net_step s : net D → Prop :=
| net_does c s' : storage c s → (perform c s = Ret tt s' ∨ ∃ e, perform c s = Throw e s') → net_step s s'
| net_loop w' : acc (n_world s) w' → net_step s (set_world w' s)
| net_accepts y i fd : w_ios (n_world s) !! y = Some i → io_accepted i = invalid_socket → fd ∉ n_open s → (0 ≤ fd)%Z →
    net_step s (set_open ({[fd]} ∪ n_open s)
      (set_world (set_w_ios (<[y := set_io_accepted fd i]> (w_ios (n_world s))) (n_world s)) s)).
Lemma net_step_owned s s' : net_step s s' → owned ∅ s → owned ∅ s'.
Proof.
  intros [c s1 Hst Hp|w' Ha|y i fd Hi Hacc Hfd Hpos] I.
  - pose proof (perform_owned ∅ c s I Hst) as H. unfold ensures in H. destruct Hp as [E|[e E]]; by rewrite E in H.
  - eapply (kept_owned ∅ s); [|done]. done.
  - destruct (owned_open ∅ s (set_open ({[fd]} ∪ n_open s) s) fd) as [I' _]; try done.
    eapply (owned_give ∅ _ _ (own_request y) fd I'); try done.
    + unfold held. simpl. rewrite Hi. simpl. by rewrite Hacc.
    + intros o. unfold held at 1. destruct (decide (o = own_request y)) as [->|]; simpl.
      * rewrite lookup_insert_eq. simpl. rewrite bool_decide_false; [done|]. unfold invalid_socket. lia.
      * destruct o; simpl; [done..|]. rewrite lookup_insert_ne; [done|congruence].
Qed.

(** C28: Descriptors are never leaked, shared or closed twice: in every history of the
    operations of sockets, datagram sockets, files and descriptors opened through the
    ring, whichever system call fails and whatever is thrown, the descriptors open in
    the process are exactly those held by one live socket, file, [uring::fd] or request,
    and nothing has been closed that was not open. *)
Theorem descriptors_owned w s :
  w_ios w = ∅ → rtc net_step (Net w ∅ false ∅ ∅ ∅) s →
  n_stray s = false ∧ (∀ fd, fd ∈ n_open s ↔ ∃ o, held s o = Some fd) ∧
  (∀ o o' fd, held s o = Some fd → held s o' = Some fd → o = o').
Proof.
  intros Hw Hs. assert (owned ∅ s) as [H1 H2 H3 _ _ _].
  { revert s Hs. apply rtc_ind_r; [|by eauto using net_step_owned]. split; try done; [|by intros []; unfold held; simpl; rewrite ?Hw].
    intros fd. split; [set_solver|]. intros [|[[] Ho]]; [set_solver|..]; unfold held in Ho; simpl in Ho; by rewrite ?Hw in Ho. }
  split_and!; [done| |done]. intros fd. rewrite H2. set_solver.
Qed.
End spec.
