(* ===== verification/Offload.v ===== *)
(** * Files without a native completion interface (src/file.cpp)

    On macOS a transfer, and there and on Windows a flush, run in a pool of two workers
    that all files share.  The coroutine is split at its [co_await workers().run(...)]: the
    part before it claims the file and gives the job, the worker repeats an interrupted
    system call, and the part after it takes the result and gives the file back. *)
From S2P Require Import Prelude ReadyQueue Links Heap Core Loop LoopInv LoopSpec Event Io Uring Pool Net NetSpec.

(** What the callable has captured *)
Record job := Job { jb_write : bool; jb_fd : Z; jb_buf : nat; jb_length : Z; jb_offset : Z }.

(** [do { r = call(...); } while (r < 0 && errno == EINTR);] over the results of the calls;
    [None] is a worker that is still inside a call *)
Fixpoint uninterrupted (results : list Z) : option Z :=
  match results with
  | [] => None
  | r :: results' => if bool_decide (r = - EINTR)%Z then uninterrupted results' else Some r
  end.
Definition call_error (r : Z) : exn := system_error (generic_error (- r)).
(** The callables of [file::transfer] and [file::flush] *)
Definition transfer_job (results : list Z) : option (Z + exn) :=
  (λ r, if bool_decide (r < 0)%Z then inr (call_error r) else inl r) <$> uninterrupted results.
Definition flush_job (results : list Z) : option (unit + exn) :=
  (λ r, if bool_decide (r < 0)%Z then inr (call_error r) else inl tt) <$> uninterrupted results.

Section offload.
Context {D : Type}.
Local Abbreviation M := (Prelude.M (net D)).
Implicit Types (s : net D) (x : loc) (t : token) (k : nfile).

(** [pool::run] up to [enqueue] *)
Definition pool_enter L t : M unit := in_net (check L) ;; canceled L t.
(** [file::transfer] up to the job; [inl 0] when there is nothing to transfer *)
Definition offload_transfer x (buf : nat) (size offset : Z) (write : bool) t : M (Z + job) :=
  use_new x ;;
  with_use x
    (k ← the_file x;
     canceled (fl_loop k) t ;;
     let length := clamp size in
     if bool_decide (INT64_MAX < offset)%Z || bool_decide (INT64_MAX - offset < length)%Z
     then throw (invalid_argument "file offset overflow")
     else if bool_decide (length = 0)%Z then use_destroy x ;; mret (inl 0%Z)
     else pool_enter (fl_loop k) t ;; mret (inr (Job write (fl_fd k) buf length offset))).
(** [file::flush] up to the job *)
Definition offload_flush x t : M Z :=
  use_new x ;;
  with_use x (k ← the_file x; canceled (fl_loop k) t ;; pool_enter (fl_loop k) t ;; mret (fl_fd k)).
(** The rest of [pool::run], and of the coroutine *)
Definition offload_end {V} x (is_canceled : bool) (slots : option V * option exn) : M V :=
  v ← with_use x (zoom (λ _, Some tt) (λ _ s, s) (run_end is_canceled slots));
  use_destroy x ;;
  mret v.

(** ** The file is claimed while the job runs *)
Lemma uninterrupted_spec results r :
  uninterrupted results = Some r ↔ ∃ before after, results = before ++ r :: after ∧ Forall (λ q, q = - EINTR)%Z before ∧ r ≠ (- EINTR)%Z.
Proof.
  induction results as [|q results IH]; simpl; [split; [done|by intros ([]&?&?&_)]|]. case_bool_decide as Hq.
  - rewrite IH. split.
    + intros (before&after&->&?&?). exists (q :: before), after. split_and!; [done|by constructor|done].
    + intros ([|b before]&after&[= -> ->]&Hf&Hr); [done|]. apply Forall_cons in Hf as [_ ?]. by exists before, after.
  - split; [intros [= ->]; by exists [], results|]. intros ([|b before]&after&[= -> ->]&Hf&Hr); [done|]. by apply Forall_cons in Hf as [? _].
Qed.
(** A stop request that has arrived wins over the result; the file is given back in every
    case. *)
Lemma offload_end_spec {V} x (at_job at_end : bool) (fn : V + exn) s k :
  n_files s !! x = Some k → (at_job = true → at_end = true) →
  let s' := set_files (<[x := set_fl_active (pred (fl_active k)) k]> (n_files s)) s in
  offload_end x at_end (run_job at_job fn) s =
    if at_end then Throw (system_error operation_canceled) s' else match fn with inl v => Ret v s' | inr e => Throw e s' end.
Proof.
  intros Hk Hm s'. assert (use_destroy x s = Ret tt s') as Hd.
  { unfold use_destroy, the_file, upd_file, the_file, deref, mbind, M_bind. rewrite !Hk. done. }
  unfold offload_end, with_use, try_catch, mbind, M_bind, zoom. rewrite (pool_run_spec at_job at_end fn Hm).
  destruct at_end; [by rewrite Hd|]. destruct fn; by rewrite Hd.
Qed.

Lemma ensures_true {A} (c : M A) s : ensures c s (λ _ _, True) (λ _ _, True).
Proof. unfold ensures. by destruct (c s). Qed.
Lemma canceled_kept L t s : ensures (canceled L t) s (λ _ s', kept s s') (λ _ _, True).
Proof.
  apply ensures_bind. eapply ensures_mono; [apply in_net_kept, keeps_stopped| |done]. intros st s1 K1.
  apply ensures_bind. eapply ensures_mono; [apply in_net_kept, keeps_gets| |done]. intros rq s2 K2. destruct (st || rq); [done|].
  exact (PreOrder_Transitive s s1 s2 K1 K2).
Qed.
Lemma file_check_kept x s : ensures (file_check x) s (λ _ s', kept s s') (λ _ _, True).
Proof.
  apply ensures_bind, ensures_deref. intros k _. apply ensures_bind. eapply ensures_mono; [apply in_net_kept, keeps_check| |done].
  intros [] s1 K. by case_bool_decide.
Qed.
(** A claimed file can neither be destroyed nor moved. *)
Lemma claimed_fixed x s k :
  n_files s !! x = Some k → fl_active k ≠ 0 → file_destroy x s = Terminate ∧ ∀ z s', file_move z x s ≠ Ret tt s'.
Proof.
  intros Hk Ha. split; [unfold file_destroy, the_file, deref, mbind, M_bind; rewrite Hk; by rewrite bool_decide_true|].
  intros z s' H. assert (ensures (file_move z x) s (λ _ _, False) (λ _ _, True)) as Hm; [|unfold ensures in Hm; by rewrite H in Hm].
  apply ensures_bind. eapply ensures_mono; [apply (file_check_kept x s)| |done]. intros [] s1 (_&_&_&E&_).
  apply ensures_bind, ensures_deref. intros k1 Hk1. rewrite E in Hk1. simplify_eq. by rewrite bool_decide_true.
Qed.
(** A transfer that reaches the pool addresses a range the system call can represent, and
    holds the file from then until its result is taken; whatever that is, the claim is
    given back. *)
Theorem offload_transfer_spec x buf size offset (write : bool) t s k j s1 :
  n_files s !! x = Some k → (0 ≤ size)%Z → (0 ≤ offset)%Z → offload_transfer x buf size offset write t s = Ret (inr j) s1 →
  j = Job write (fl_fd k) buf (clamp size) offset ∧ (0 < jb_length j ≤ INT_MAX)%Z ∧ (offset + jb_length j ≤ INT64_MAX)%Z ∧
  file_destroy x s1 = Terminate ∧ (∀ z s', file_move z x s1 ≠ Ret tt s') ∧
  ∀ results out at_job at_end, transfer_job results = Some out → (at_job = true → at_end = true) →
    ∃ s2, n_files s2 = n_files s ∧
      offload_end x at_end (run_job at_job out) s1 =
        if at_end then Throw (system_error operation_canceled) s2 else match out with inl n => Ret n s2 | inr e => Throw e s2 end.
Proof.
  intros Hk Hsz Hoff H.
  assert (ensures (offload_transfer x buf size offset write t) s (λ r s', ∀ j, r = inr j →
    n_files s' = <[x := set_fl_active (S (fl_active k)) k]> (n_files s) ∧ j = Job write (fl_fd k) buf (clamp size) offset ∧
    (offset + clamp size ≤ INT64_MAX)%Z ∧ clamp size ≠ 0%Z) (λ _ _, True)) as Hb.
  { apply ensures_bind, ensures_bind. eapply ensures_mono; [apply (file_check_kept x s)| |done]. intros [] s0 (_&_&_&E0&_).
    apply ensures_bind, ensures_deref. intros k0 Hk0. apply ensures_bind, ensures_deref. intros k0' Hk0'. rewrite E0 in *. simplify_eq.
    unfold ensures at 1, modify. apply ensures_try. eapply (ensures_mono _ _ _ _ (λ _ _, True));
      [|intros r s' Hr; exact Hr|intros e s' _; apply ensures_bind; eapply ensures_mono; [apply ensures_true|done|done]].
    apply ensures_bind, ensures_deref. intros k2 Hk2. cbn in Hk2. rewrite E0, lookup_insert_eq in Hk2. simplify_eq.
    apply ensures_bind. eapply ensures_mono; [apply canceled_kept| |done]. intros [] s2 (_&_&_&E2&_). cbn in E2. rewrite E0 in E2.
    cbv zeta. destruct (_ || _) eqn:Hr; [done|]. apply orb_false_iff in Hr as [H1%bool_decide_eq_false H2%bool_decide_eq_false].
    case_bool_decide as Hz; [apply ensures_bind; eapply ensures_mono; [by apply ensures_true| |done]; intros ? ? _; unfold ensures; simpl; intros ? [=]|].
    apply ensures_bind, ensures_bind. eapply ensures_mono; [apply in_net_kept, keeps_check| |done]. intros [] s3 (_&_&_&E3&_).
    eapply ensures_mono; [apply canceled_kept| |done]. intros [] s4 (_&_&_&E4&_). unfold ensures; simpl. intros ? [= <-].
    split_and!; [by rewrite E4, E3, E2|done|lia|done]. }
  unfold ensures in Hb. rewrite H in Hb. destruct (Hb j eq_refl) as (Ef&->&Hr&Hz). cbn [jb_length].
  assert (n_files s1 !! x = Some (set_fl_active (S (fl_active k)) k)) as Hk1 by (rewrite Ef; apply lookup_insert_eq).
  destruct (claimed_fixed x s1 _ Hk1) as [Hd Hm]; [done|]. unfold clamp, INT_MAX in *. split_and!; try done; try lia.
  intros results out at_job at_end _ Hc. rewrite (offload_end_spec x at_job at_end out s1 _ Hk1 Hc). eexists; split; [|done].
  cbn. rewrite Ef, insert_insert_eq. apply insert_id. by destruct k.
Qed.
End offload.
