(* ===== verification/WriteAll.v ===== *)
(** * Writing a whole buffer (the two [write_all] of src/file.cpp and src/socket.cpp)

    The loops over partial writes, on top of [file::transfer] and [socket::write].  What
    the kernel does with a request is a parameter of the section, with the documented
    behaviour of a positional and a stream write as hypotheses. *)
From S2P Require Import Prelude ReadyQueue Links Heap Core Loop LoopInv LoopSpec Event Io Uring Net.

Definition usize (z : Z) : Z := z mod 2 ^ 64.
(** ** The loops *)
Section loops.
Context {St : Type}.

(** [while (!buffer.empty()) { count = co_await write(buffer, offset); ...}]: a buffer is
    its address and its length, [none] the error for a write of no bytes *)
Fixpoint write_all_loop (fuel : nat) (write : nat → Z → Z → M St Z) (none : errc) (buf : nat) (size offset : Z) : M St unit :=
  if bool_decide (size = 0)%Z then mret tt else
    match fuel with
    | O => undefined
    | S fuel' =>
        count ← write buf size offset;
        if bool_decide (count = 0)%Z then throw (system_error none) else
          write_all_loop fuel' write none (buf + Z.to_nat count) (size - count) (usize (offset + count))
    end.
(** Each round writes at least a byte. *)
Definition write_all write (none : errc) (buf : nat) (size offset : Z) : M St unit :=
  write_all_loop (Z.to_nat size) write none buf size offset.
End loops.

Section bytes.
Context {B : Type} (mem : nat → B).
(** The bytes of a buffer; a device that has received bytes at a position. *)
Definition bytes (buf : nat) (n : Z) : list B := mem <$> seq buf (Z.to_nat n).
Fixpoint pwrite (offset : Z) (bs : list B) (d : gmap Z B) : gmap Z B :=
  match bs with [] => d | b :: bs' => pwrite (offset + 1) bs' (<[offset := b]> d) end.
Lemma pwrite_app bs : ∀ offset bs' d, pwrite offset (bs ++ bs') d = pwrite (offset + Z.of_nat (length bs)) bs' (pwrite offset bs d).
Proof.
  induction bs as [|b bs IH]; intros offset bs' d; simpl; [by rewrite Z.add_0_r|]. rewrite IH. f_equal. lia.
Qed.
Lemma bytes_app buf n m : (0 ≤ n)%Z → (0 ≤ m)%Z → bytes buf (n + m) = bytes buf n ++ bytes (buf + Z.to_nat n) m.
Proof. intros Hn Hm. unfold bytes. by rewrite Z2Nat.inj_add, seq_app, fmap_app by done. Qed.
Lemma bytes_length buf n : length (bytes buf n) = Z.to_nat n.
Proof. unfold bytes. by rewrite length_fmap, length_seq. Qed.

(** A device to which bytes have been appended, [put n] being the device after [n] bytes
    of the buffer; [ok] says what is kept between the rounds. *)
Context {St : Type}.
Lemma write_all_post (write : nat → Z → Z → M St Z) none (ok : St → Prop) (put : Z → St → Prop) buf size offset s :
  (0 ≤ size)%Z → (0 ≤ offset < 2 ^ 64)%Z → ok s → put 0%Z s →
  (∀ n s, ok s → put n s → (0 ≤ n < size)%Z → (0 ≤ offset + n < 2 ^ 64)%Z →
     post (write (buf + Z.to_nat n) (size - n)%Z (offset + n)%Z) s
       (λ k s', ok s' ∧ (0 ≤ k ≤ size - n)%Z ∧ put (n + k)%Z s' ∧ (offset + n + k < 2 ^ 64)%Z)
       (λ _ s', put n s')) →
  post (write_all write none buf size offset) s (λ _ s', ok s' ∧ put size s') (λ _ s', ∃ n, (0 ≤ n < size)%Z ∧ put n s').
Proof.
  intros Hsize Hoff Hok Hput Hw. unfold write_all.
  enough (∀ fuel n s, ok s → put n s → (0 ≤ n ≤ size)%Z → (0 ≤ offset + n < 2 ^ 64)%Z → (size - n ≤ Z.of_nat fuel)%Z →
    post (write_all_loop fuel write none (buf + Z.to_nat n) (size - n) (offset + n)) s (λ _ s', ok s' ∧ put size s')
      (λ _ s', ∃ n, (0 ≤ n < size)%Z ∧ put n s')) as H.
  { specialize (H (Z.to_nat size) 0%Z s Hok Hput). rewrite Nat.add_0_r, Z.sub_0_r, Z.add_0_r in H. apply H; lia. }
  clear s Hok Hput. induction fuel as [|fuel IH]; intros n s Hok Hput Hn Ho Hf; simpl; case_bool_decide as H0.
  - apply post_ret. split; [done|]. by replace size with n by lia.
  - lia.
  - apply post_ret. split; [done|]. by replace size with n by lia.
  - apply post_bind. eapply post_mono; [apply Hw; try done; lia| |].
    + intros k s' (Hok'&Hk&Hp&Hb). case_bool_decide as Hk0.
      * apply post_throw. exists n. subst k. rewrite Z.add_0_r in Hp. split; [lia|done].
      * replace (usize (offset + n + k)) with (offset + (n + k))%Z by (unfold usize; rewrite Z.mod_small; lia).
        replace (buf + Z.to_nat n + Z.to_nat k) with (buf + Z.to_nat (n + k)) by lia.
        replace (size - n - k)%Z with (size - (n + k))%Z by lia. apply IH; try done; lia.
    + intros e s' Hp. exists n. split; [lia|done].
Qed.
End bytes.

(** ** Awaited writes *)
Section writes.
Context {D B : Type} (mem : nat → B).
(** The process, the contents of the file, and what the peer of the socket receives. *)
Record sys := Sys { sy_net : net D; sy_disk : gmap Z B; sy_stream : list B }.
Implicit Types (N : net D) (s : sys) (x y : loc) (t : token).
Definition on_net {A} (c : M (net D) A) : M sys A := zoom (λ s, Some (sy_net s)) (λ N s, Sys N (sy_disk s) (sy_stream s)) c.

(** [co_await y]: the request is submitted, the kernel completes it, the coroutine resumes *)
Variable awaited : loc → M sys unit.
(** [co_await file.write(buffer, offset, token)] *)
Definition file_write x y t (buf : nat) (size offset : Z) : M sys Z :=
  r ← on_net (transfer_begin x y buf size offset true t);
  match r with
  | Some n => mret n
  | None =>
      try_catch (awaited y) (λ e, on_net (request_destroy y ;; use_destroy x) ;; throw e) ;;
      on_net (transfer_end x y)
  end.
(** [co_await socket.write(buffer, token)] *)
Definition socket_write_await x y t (buf : nat) (size offset : Z) : M sys Z :=
  on_net (socket_write x y buf size t) ;;
  try_catch (awaited y) (λ e, on_net (request_destroy y) ;; throw e) ;;
  n ← on_net (with_request y (in_net (io_await_resume y)));
  on_net (request_destroy y) ;;
  mret n.
Definition file_write_all x y t (buf : nat) (size offset : Z) : M sys unit :=
  write_all (file_write x y t) io_error buf size offset.
Definition socket_write_all x y t (buf : nat) (size : Z) : M sys unit :=
  write_all (socket_write_await x y t) broken_pipe buf size 0.

(** ** What is kept while a request is awaited *)
Record waited y (i : io) N N' : Prop := {
  wt_files : n_files N' = n_files N;
  wt_socks : n_socks N' = n_socks N;
  wt_thread : w_thread (n_world N') = w_thread (n_world N);
  wt_loops L l : w_loops (n_world N) !! L = Some l → ∃ l', w_loops (n_world N') !! L = Some l' ∧ l_thread l' = l_thread l;
  wt_flags f : is_Some (w_flags (n_world N) !! f) → is_Some (w_flags (n_world N') !! f);
  wt_request : ∃ i' o, w_ios (n_world N') !! y = Some i' ∧ w_ops (n_world N') !! y = Some o ∧
    op_active o = false ∧ io_accepted i' = invalid_socket ∧ io_busy i' = io_busy i ∧ (io_reserved i' = true → is_Some (io_busy i')) }.
(** The outcome of the request: its error, or the bytes it has transferred. *)
Definition transferred N y : option Z :=
  match w_ops (n_world N) !! y, w_ios (n_world N) !! y with
  | Some o, Some i => match op_error o with None => Some (io_bytes i) | Some _ => None end
  | _, _ => None
  end.

(** A request as its constructor leaves it. *)
Definition created y (i : io) N : Prop :=
  w_ios (n_world N) !! y = Some i ∧ io_accepted i = invalid_socket ∧ io_reserved i = false ∧
  ∃ L, w_ops (n_world N) !! y = Some (Op L None false false None).

(** A write request is completed once, with an error and no bytes, or with a number of
    bytes of its buffer, taken from its beginning. *)
Hypothesis awaited_file : ∀ y s i,
  created y i (sy_net s) → io_code i = op_file_write →
  post (awaited y) s
    (λ _ s', waited y i (sy_net s) (sy_net s') ∧ sy_stream s' = sy_stream s ∧
       match transferred (sy_net s') y with
       | Some n => (0 ≤ n ≤ io_size i)%Z ∧ sy_disk s' = pwrite (io_offset i) (bytes mem (io_data i) n) (sy_disk s)
       | None => sy_disk s' = sy_disk s
       end)
    (λ _ s', waited y i (sy_net s) (sy_net s') ∧ sy_disk s' = sy_disk s).
Hypothesis awaited_socket : ∀ y s i,
  created y i (sy_net s) → io_code i = op_write →
  post (awaited y) s
    (λ _ s', waited y i (sy_net s) (sy_net s') ∧
       match transferred (sy_net s') y with
       | Some n => (0 ≤ n ≤ io_size i)%Z ∧ sy_stream s' = sy_stream s ++ bytes mem (io_data i) n
       | None => sy_stream s' = sy_stream s
       end)
    (λ _ s', waited y i (sy_net s) (sy_net s') ∧ sy_stream s' = sy_stream s).

(** ** Steps *)
Lemma post_on_net {A} (c : M (net D) A) s (Q : A → sys → Prop) (E : exn → sys → Prop) :
  post c (sy_net s) (λ a N, Q a (Sys N (sy_disk s) (sy_stream s))) (λ e N, E e (Sys N (sy_disk s) (sy_stream s))) →
  post (on_net c) s Q E.
Proof. intros H. by eapply post_zoom. Qed.
Lemma post_in_net {A} (c : M (world D) A) N (Q : A → net D → Prop) (E : exn → net D → Prop) :
  post c (n_world N) (λ a w, Q a (set_world w N)) (λ e w, E e (set_world w N)) → post (in_net c) N Q E.
Proof. intros H. by eapply post_zoom. Qed.
Lemma set_world_same N : set_world (n_world N) N = N.
Proof. by destruct N. Qed.
Lemma post_in_check L l N (Q : unit → net D → Prop) (E : exn → net D → Prop) :
  w_loops (n_world N) !! L = Some l → l_thread l = w_thread (n_world N) → Q tt N → post (in_net (check L)) N Q E.
Proof. intros HL Ht HQ. apply post_in_net. unfold post. rewrite (check_run _ _ _ HL), decide_True by done. by rewrite set_world_same. Qed.

(** The end of an awaited request: its destruction, with or without an error. *)
Lemma request_destroy_post y i o N (Q : unit → net D → Prop) (E : exn → net D → Prop) :
  w_ios (n_world N) !! y = Some i → w_ops (n_world N) !! y = Some o → op_active o = false → io_accepted i = invalid_socket →
  (∀ f, io_busy i = Some f → is_Some (w_flags (n_world N) !! f)) → (io_reserved i = true → is_Some (io_busy i)) →
  (∀ w', w_ios w' = delete y (w_ios (n_world N)) → w_loops w' = w_loops (n_world N) → w_thread w' = w_thread (n_world N) →
     (∀ f, is_Some (w_flags (n_world N) !! f) → is_Some (w_flags w' !! f)) → Q tt (set_world w' N)) →
  post (request_destroy y) N Q E.
Proof.
  intros Hi Ho Ha Hacc Hf Hr HQ. unfold request_destroy. apply post_bind, post_in_net. eapply post_deref; [done|]. rewrite set_world_same.
  apply post_bind, post_in_net. unfold release_direction. apply post_bind. eapply post_deref; [done|].
  assert (∀ w', w_ios w' = w_ios (n_world N) → w_ops w' = w_ops (n_world N) → w_loops w' = w_loops (n_world N) →
    w_thread w' = w_thread (n_world N) → (∀ f, is_Some (w_flags (n_world N) !! f) → is_Some (w_flags w' !! f)) →
    post (close_fd (io_accepted i) ;; in_net (op_destroy y) ;; in_net (modify (λ w, set_w_ios (delete y (w_ios w)) w))) (set_world w' N) Q E) as Hrest.
  { intros w' E1 E2 E3 E4 E5. apply post_bind. unfold close_fd. rewrite bool_decide_true by done. apply post_ret.
    apply post_bind, post_in_net. simpl. unfold op_destroy. apply post_bind. eapply post_deref; [by rewrite E2|]. rewrite Ha. apply post_ret.
    apply post_in_net, post_modify. simpl. by apply HQ; simpl; rewrite ?E1. }
  destruct (io_reserved i).
  - destruct Hr as [f Hb]; [done|]. rewrite Hb. destruct (Hf f Hb) as [b Hb']. unfold upd_flag. apply post_bind. eapply post_deref; [done|].
    apply post_modify. apply Hrest; try done. intros f' [b' Hf']. simpl. destruct (decide (f = f')) as [<-|].
    + rewrite lookup_insert_eq. eauto.
    + rewrite lookup_insert_ne by done. eauto.
  - apply post_ret. rewrite set_world_same. rewrite <- (set_world_same N). by apply Hrest.
Qed.

(** A request that is complete and can be destroyed. *)
Definition complete_at y (i : io) (o : op) N : Prop :=
  w_ios (n_world N) !! y = Some i ∧ w_ops (n_world N) !! y = Some o ∧ op_active o = false ∧ io_accepted i = invalid_socket ∧
  (∀ f, io_busy i = Some f → is_Some (w_flags (n_world N) !! f)) ∧ (io_reserved i = true → is_Some (io_busy i)).
Record gone y N N' : Prop := {
  gn_files : n_files N' = n_files N;
  gn_socks : n_socks N' = n_socks N;
  gn_thread : w_thread (n_world N') = w_thread (n_world N);
  gn_loops : w_loops (n_world N') = w_loops (n_world N);
  gn_flags f : is_Some (w_flags (n_world N) !! f) → is_Some (w_flags (n_world N') !! f);
  gn_request : w_ios (n_world N') !! y = None }.
Lemma destroy_gone y i o N : complete_at y i o N → runs (request_destroy y) N (λ _ N', gone y N N').
Proof.
  intros (Hi&Ho&Ha&Hc&Hf&Hr). eapply request_destroy_post; try done. intros w' E1 E2 E3 E4. split; try done.
  simpl. by rewrite E1, lookup_delete_eq.
Qed.
(** [co_await] returns or rethrows, and the request is destroyed. *)
Lemma resume_complete y i o N :
  complete_at y i o N →
  post (in_net (io_await_resume y)) N
    (λ n N', transferred N y = Some n ∧ complete_at y (set_io_reserved false i) o N' ∧
       n_files N' = n_files N ∧ n_socks N' = n_socks N ∧ w_thread (n_world N') = w_thread (n_world N) ∧ w_loops (n_world N') = w_loops (n_world N) ∧
       ∀ f, is_Some (w_flags (n_world N) !! f) → is_Some (w_flags (n_world N') !! f))
    (λ _ N', transferred N y = None ∧ complete_at y (set_io_reserved false i) o N' ∧
       n_files N' = n_files N ∧ n_socks N' = n_socks N ∧ w_thread (n_world N') = w_thread (n_world N) ∧ w_loops (n_world N') = w_loops (n_world N) ∧
       ∀ f, is_Some (w_flags (n_world N) !! f) → is_Some (w_flags (n_world N') !! f)).
Proof.
  intros (Hi&Ho&Ha&Hc&Hf&Hr). unfold transferred. rewrite Ho, Hi. apply post_in_net. unfold io_await_resume. apply post_bind.
  unfold release_direction. apply post_bind. eapply post_deref; [done|].
  assert (∀ w' (Q : Z → world D → Prop) (E : exn → world D → Prop), w_ios w' = w_ios (n_world N) → w_ops w' = w_ops (n_world N) →
    (let w'' := set_w_ios (<[y := set_io_reserved false i]> (w_ios w')) w' in
     match op_error o with None => Q (io_bytes i) w'' | Some c => E (system_error c) w'' end) →
    post (upd_io y (set_io_reserved false) ;; op_await_resume y ;; i ← the_io y; mret (io_bytes i)) w' Q E) as Hrest.
  { intros w' Q E E1 E2 HQ. apply post_bind. unfold upd_io. apply post_bind. eapply post_deref; [by rewrite E1|].
    apply post_modify. apply post_bind. unfold op_await_resume. apply post_bind. eapply post_deref; [simpl; by rewrite E2|].
    destruct (op_error o); [by apply post_throw|]. apply post_ret. apply post_bind. eapply post_deref; [simpl; apply lookup_insert_eq|]. by apply post_ret. }
  assert (∀ w', w_ios w' = w_ios (n_world N) → w_ops w' = w_ops (n_world N) → w_loops w' = w_loops (n_world N) →
     w_thread w' = w_thread (n_world N) → (∀ f, is_Some (w_flags (n_world N) !! f) → is_Some (w_flags w' !! f)) →
     let N' := set_world (set_w_ios (<[y := set_io_reserved false i]> (w_ios w')) w') N in
     complete_at y (set_io_reserved false i) o N' ∧
     n_files N' = n_files N ∧ n_socks N' = n_socks N ∧ w_thread (n_world N') = w_thread (n_world N) ∧ w_loops (n_world N') = w_loops (n_world N) ∧
     ∀ f, is_Some (w_flags (n_world N) !! f) → is_Some (w_flags (n_world N') !! f)) as Hfin.
  { intros w' E1 E2 E3 E4 E5. simpl. split_and!; try done. unfold complete_at. simpl. rewrite lookup_insert_eq, E2. split_and!; try done.
    intros f Hb. by apply E5, Hf. }
  destruct (io_reserved i).
  - destruct Hr as [f Hb]; [done|]. rewrite Hb. destruct (Hf f Hb) as [b Hb']. unfold upd_flag. apply post_bind. eapply post_deref; [done|].
    apply post_modify. apply Hrest; [done|done|]. cbv zeta.
    assert (∀ f', is_Some (w_flags (n_world N) !! f') → is_Some (<[f:=false]> (w_flags (n_world N)) !! f')) as Hfl.
    { intros f' [b' Hf']. destruct (decide (f = f')) as [<-|]; [rewrite lookup_insert_eq; eauto|rewrite lookup_insert_ne by done; eauto]. }
    destruct (op_error o); (split; [done|]); by apply Hfin.
  - apply post_ret. apply Hrest; [done|done|]. cbv zeta. destruct (op_error o); (split; [done|]); by apply Hfin.
Qed.

(** ** Files *)
Definition file_ok x N : Prop := ∃ k l, n_files N !! x = Some k ∧ fl_fd k ≠ invalid_socket ∧
  w_loops (n_world N) !! fl_loop k = Some l ∧ l_thread l = w_thread (n_world N).
Lemma file_ok_active x n N k : n_files N !! x = Some k → file_ok x N → file_ok x (set_files (<[x := set_fl_active n k]> (n_files N)) N).
Proof.
  intros Hk (k'&l&Hk'&Hfd&HL&Ht). assert (k' = k) as -> by congruence. exists (set_fl_active n k), l. simpl.
  rewrite lookup_insert_eq. done.
Qed.
Lemma use_destroy_ok x N (Q : unit → net D → Prop) (E : exn → net D → Prop) :
  file_ok x N → (∀ N', file_ok x N' → n_world N' = n_world N → n_socks N' = n_socks N → Q tt N') → post (use_destroy x) N Q E.
Proof.
  intros (k&l&Hk&R) HQ. unfold use_destroy. apply post_bind. eapply post_deref; [done|]. unfold upd_file. apply post_bind.
  eapply post_deref; [done|]. apply post_modify. apply HQ; [|done|done]. apply file_ok_active; [done|]. by exists k, l.
Qed.
Definition write_io (k : nfile) (buf : nat) (size offset : Z) t : io :=
  set_io_offset offset (io_init op_file_write (fl_fd k) buf (clamp size) t None).
Lemma transfer_begin_post x y buf size off t N :
  file_ok x N → w_ios (n_world N) !! y = None →
  post (transfer_begin x y buf size off true t) N
    (λ r N', file_ok x N' ∧ match r with
      | Some n => n = 0%Z ∧ w_ios (n_world N') !! y = None ∧ (off ≤ INT64_MAX)%Z
      | None => ∃ k, created y (write_io k buf size off t) N' ∧ (off + clamp size ≤ INT64_MAX)%Z
      end)
    (λ _ _, True).
Proof.
  intros (k&l&Hk&Hfd&HL&Ht) Hy. unfold transfer_begin. apply post_bind. unfold use_new. apply post_bind. unfold file_check.
  apply post_bind. eapply post_deref; [done|]. apply post_bind. eapply post_in_check; [done|done|]. rewrite bool_decide_false by done.
  apply post_ret. apply post_bind. eapply post_deref; [done|]. unfold upd_file. apply post_bind. eapply post_deref; [done|]. apply post_modify.
  set (k1 := set_fl_active (S (fl_active k)) k). set (N1 := set_files _ N).
  assert (file_ok x N1) as Hok1 by (apply file_ok_active; [done|by exists k, l]).
  assert (n_files N1 !! x = Some k1) as Hk1 by apply lookup_insert_eq.
  assert (∀ e, post (use_destroy x ;; throw e : M (net D) (option Z)) N1 (λ _ _, False) (λ _ _, True)) as Hfail.
  { intros e. apply post_bind. by eapply use_destroy_ok. }
  apply post_try_catch. apply post_bind. eapply post_deref; [exact Hk1|]. apply post_bind. unfold canceled.
  apply post_bind, post_in_net. unfold stopped. apply post_bind. eapply post_deref; [exact HL|]. apply post_ret. rewrite set_world_same.
  apply post_bind, post_in_net, post_gets. rewrite set_world_same. destruct (_ || _).
  { apply post_throw. eapply post_mono; [apply Hfail|done|done]. }
  apply post_ret. cbv zeta. destruct (bool_decide (INT64_MAX < off)%Z || bool_decide (INT64_MAX - off < clamp size)%Z) eqn:Hb.
  { apply post_throw. eapply post_mono; [apply Hfail|done|done]. }
  apply orb_false_iff in Hb as [Hb1%bool_decide_eq_false Hb2%bool_decide_eq_false]. case_bool_decide as H0.
  - apply post_bind, use_destroy_ok; [done|]. intros N2 Hok2 E2 _. apply post_ret. rewrite E2. split_and!; [done|done|done|lia].
  - apply post_bind, post_in_net, post_modify. apply post_ret. split.
    + destruct Hok1 as (k'&l'&R1&R2&R3&R4). by exists k', l'.
    + exists k1. split; [|lia]. split_and!; [simpl; apply lookup_insert_eq|done|done|]. eexists. simpl. apply lookup_insert_eq.
Qed.
Lemma waited_file_ok x y i N N' : waited y i N N' → file_ok x N → file_ok x N'.
Proof.
  intros [E1 _ E3 E4 _ _] (k&l&Hk&Hfd&HL&Ht). destruct (E4 _ _ HL) as (l'&HL'&Ht'). exists k, l'. rewrite E1, E3, Ht'. done.
Qed.
Lemma waited_complete y i N N' : waited y i N N' → (∀ f, io_busy i = Some f → is_Some (w_flags (n_world N) !! f)) →
  ∃ i' o, complete_at y i' o N'.
Proof.
  intros W Hf. destruct (wt_request _ _ _ _ W) as (i'&o&Hi&Ho&Ha&Hc&Hb&Hr). exists i', o. split_and!; try done.
  intros f. rewrite Hb. intros Hbf. apply (wt_flags _ _ _ _ W). by apply Hf.
Qed.
Lemma gone_file_ok x y N N' : gone y N N' → file_ok x N → file_ok x N'.
Proof. intros [E1 _ E3 E4 _ _] (k&l&Hk&Hfd&HL&Ht). exists k, l. by rewrite E1, E3, E4. Qed.

Lemma transfer_end_post x y i o N :
  file_ok x N → complete_at y i o N →
  post (transfer_end x y) N (λ n N', transferred N y = Some n ∧ file_ok x N' ∧ w_ios (n_world N') !! y = None)
    (λ _ _, transferred N y = None).
Proof.
  intros Hok Hc. unfold transfer_end. apply post_bind. unfold with_use. apply post_try_catch. unfold with_request. apply post_try_catch.
  eapply post_mono; [by apply (resume_complete y i o)| |].
  - intros n N1 (Ht&Hc1&E1&_&E3&E4&_). apply post_bind.
    eapply post_mono; [by eapply (destroy_gone y _ o)| |done]. intros [] N2 G.
    assert (file_ok x N2) as Hok2. { eapply gone_file_ok; [exact G|]. destruct Hok as (k&l&R). exists k, l. by rewrite E1, E3, E4. }
    apply post_bind, use_destroy_ok; [done|]. intros N3 Hok3 E _. apply post_ret. split_and!; [done|done|rewrite E; apply G].
  - intros e N1 (Ht&Hc1&E1&_&E3&E4&_). apply post_bind.
    eapply post_mono; [by eapply (destroy_gone y _ o)| |done]. intros [] N2 G. apply post_throw.
    assert (file_ok x N2) as Hok2. { eapply gone_file_ok; [exact G|]. destruct Hok as (k&l&R). exists k, l. by rewrite E1, E3, E4. }
    apply post_bind, use_destroy_ok; [done|]. intros N3 _ _ _. by apply post_throw.
Qed.
Lemma file_write_post x y t buf size off s :
  file_ok x (sy_net s) → w_ios (n_world (sy_net s)) !! y = None → (0 < size)%Z →
  post (file_write x y t buf size off) s
    (λ n s', (file_ok x (sy_net s') ∧ w_ios (n_world (sy_net s')) !! y = None) ∧ (0 ≤ n ≤ size)%Z ∧ (off + n ≤ INT64_MAX)%Z ∧
       sy_disk s' = pwrite off (bytes mem buf n) (sy_disk s))
    (λ _ s', sy_disk s' = sy_disk s).
Proof.
  intros Hok Hy Hs. unfold file_write. apply post_bind, post_on_net.
  eapply post_mono; [by apply (transfer_begin_post x y)| |done]. intros [n|] N1 [Hok1 H].
  - destruct H as (->&Hy1&Ho). apply post_ret. simpl. split_and!; [done|done|lia|lia|lia|done].
  - destruct H as (k&Hi&Ho). apply post_bind, post_try_catch.
    assert (clamp size ≤ size)%Z as Hcl by (unfold clamp; lia).
    eapply post_mono; [by apply (awaited_file y _ (write_io k buf size off t))| |]; simpl.
    + intros [] s2 (W&_&Hd). destruct (waited_complete _ _ _ _ W) as (i2&o2&Hc2); [done|].
      pose proof (waited_file_ok _ _ _ _ _ W Hok1) as Hok2. apply post_on_net.
      eapply post_mono; [by apply (transfer_end_post x y i2 o2)| |]; simpl.
      * intros n N3 (Ht&Hok3&Hy3). rewrite Ht in Hd. destruct Hd as [Hn Hd]. simpl in Hn, Hd. split_and!; [done|done|lia|lia|lia|done].
      * intros e N3 Ht. by rewrite Ht in Hd.
    + intros e s2 [W Hd]. destruct (waited_complete _ _ _ _ W) as (i2&o2&Hc2); [done|].
      pose proof (waited_file_ok _ _ _ _ _ W Hok1) as Hok2. apply post_bind, post_on_net. apply post_bind.
      eapply post_mono; [by apply (destroy_gone y i2 o2)| |done]. intros [] N3 G.
      apply use_destroy_ok; [by eapply gone_file_ok|]. intros N4 _ _ _. by apply post_throw.
Qed.

(** C29: [write_all] on a file, for every sequence of partial writes: it terminates; when it
    returns, exactly the bytes of the buffer are in the file from the offset on, and
    nothing else has changed; when it throws, a proper prefix of the buffer has been
    written.  The offset never wraps around. *)
Theorem file_write_all_spec x y t buf size off s :
  file_ok x (sy_net s) → w_ios (n_world (sy_net s)) !! y = None → (0 ≤ size)%Z → (0 ≤ off < 2 ^ 64)%Z →
  post (file_write_all x y t buf size off) s
    (λ _ s', sy_disk s' = pwrite off (bytes mem buf size) (sy_disk s))
    (λ _ s', ∃ n, (0 ≤ n < size)%Z ∧ sy_disk s' = pwrite off (bytes mem buf n) (sy_disk s)).
Proof.
  intros Hok Hy Hs Ho. eapply post_mono; [apply (write_all_post _ _
    (λ s', file_ok x (sy_net s') ∧ w_ios (n_world (sy_net s')) !! y = None)
    (λ n s', sy_disk s' = pwrite off (bytes mem buf n) (sy_disk s)) buf size off s); try done| |]; [|by intros [] s' [_ ?]|done].
  intros n s' [Hok' Hy'] Hd Hn Hon. eapply post_mono; [apply (file_write_post x y); [done|done|lia]| |].
  - intros k s2 (Hk&Hb&Hmax&Hd2). split; [done|]. split; [done|]. split; [|unfold INT64_MAX in Hmax; lia].
    rewrite bytes_app, pwrite_app, bytes_length, Z2Nat.id by lia. by rewrite Hd2, Hd.
  - intros e s2 Hd2. by rewrite Hd2.
Qed.

(** ** Sockets *)
Definition sock_ok x N : Prop := ∃ k l, n_socks N !! x = Some k ∧ sk_fd k ≠ invalid_socket ∧
  w_loops (n_world N) !! sk_loop k = Some l ∧ l_thread l = w_thread (n_world N) ∧ is_Some (w_flags (n_world N) !! sk_writing k).
Lemma waited_sock_ok x y i N N' : waited y i N N' → sock_ok x N → sock_ok x N'.
Proof.
  intros [_ E2 E3 E4 E5 _] (k&l&Hk&Hfd&HL&Ht&Hf). destruct (E4 _ _ HL) as (l'&HL'&Ht'). exists k, l'. rewrite E2, E3, Ht'. split_and!; auto.
Qed.
Lemma gone_sock_ok x y N N' : gone y N N' → sock_ok x N → sock_ok x N'.
Proof. intros [_ E2 E3 E4 E5 _] (k&l&Hk&Hfd&HL&Ht&Hf). exists k, l. rewrite E2, E3, E4. split_and!; auto. Qed.
Lemma socket_write_post x y t buf size off s :
  sock_ok x (sy_net s) → w_ios (n_world (sy_net s)) !! y = None → (0 < size)%Z →
  post (socket_write_await x y t buf size off) s
    (λ n s', (sock_ok x (sy_net s') ∧ w_ios (n_world (sy_net s')) !! y = None) ∧ (0 ≤ n ≤ size)%Z ∧
       sy_stream s' = sy_stream s ++ bytes mem buf n)
    (λ _ s', sy_stream s' = sy_stream s).
Proof.
  intros (k&l&Hk&Hfd&HL&Ht&Hfl) Hy Hs. unfold socket_write_await. apply post_bind, post_on_net. unfold socket_write.
  apply post_bind. unfold socket_check. apply post_bind. eapply post_deref; [done|]. apply post_bind. eapply post_in_check; [done|done|].
  rewrite bool_decide_false by done. apply post_ret. apply post_bind. eapply post_deref; [done|]. apply post_in_net, post_modify.
  set (i := io_init op_write _ _ _ _ _). set (N1 := set_world _ (sy_net s)).
  assert (sock_ok x N1) as Hok1 by (by exists k, l). apply post_bind, post_try_catch.
  assert (clamp size ≤ size)%Z as Hcl by (unfold clamp; lia).
  assert (∀ f, io_busy i = Some f → is_Some (w_flags (n_world N1) !! f)) as Hbusy by (by intros f [= <-]).
  eapply post_mono; [apply (awaited_socket y (Sys N1 (sy_disk s) (sy_stream s)) i); [|done]| |]; simpl.
  { split_and!; [simpl; apply lookup_insert_eq|done|done|]. eexists. simpl. apply lookup_insert_eq. }
  - intros [] s2 (W&Hd). destruct (waited_complete _ _ _ _ W Hbusy) as (i2&o2&Hc2).
    pose proof (waited_sock_ok _ _ _ _ _ W Hok1) as Hok2. apply post_bind, post_on_net. unfold with_request. apply post_try_catch.
    eapply post_mono; [by apply (resume_complete y i2 o2)| |].
    + intros n N3 (Htr&Hc3&_&E2&E3&E4&E5). rewrite Htr in Hd. destruct Hd as [Hn Hd]. apply post_bind, post_on_net.
      eapply post_mono; [by eapply (destroy_gone y _ o2)| |done]. intros [] N4 G. apply post_ret. simpl.
      split_and!; [|apply G|lia|lia|done]. eapply gone_sock_ok; [exact G|]. destruct Hok2 as (k'&l'&R1&R2&R3&R4&R5).
      exists k', l'. simpl. rewrite E2, E3, E4. split_and!; auto.
    + intros e N3 (Htr&Hc3&_). rewrite Htr in Hd. apply post_bind.
      eapply post_mono; [by eapply (destroy_gone y _ o2)| |done]. intros [] N4 G. by apply post_throw.
  - intros e s2 [W Hd]. destruct (waited_complete _ _ _ _ W Hbusy) as (i2&o2&Hc2). apply post_bind, post_on_net.
    eapply post_mono; [by eapply (destroy_gone y _ o2)| |done]. intros [] N3 G. by apply post_throw.
Qed.

(** [write_all] on a socket, for every sequence of partial writes: it terminates; when it
    returns, the peer has been sent exactly the bytes of the buffer, in order; when it
    throws, a proper prefix of them. *)
Theorem socket_write_all_spec x y t buf size s :
  sock_ok x (sy_net s) → w_ios (n_world (sy_net s)) !! y = None → (0 ≤ size < 2 ^ 64)%Z →
  post (socket_write_all x y t buf size) s
    (λ _ s', sy_stream s' = sy_stream s ++ bytes mem buf size)
    (λ _ s', ∃ n, (0 ≤ n < size)%Z ∧ sy_stream s' = sy_stream s ++ bytes mem buf n).
Proof.
  intros Hok Hy Hs. eapply post_mono; [apply (write_all_post _ _
    (λ s', sock_ok x (sy_net s') ∧ w_ios (n_world (sy_net s')) !! y = None)
    (λ n s', sy_stream s' = sy_stream s ++ bytes mem buf n) buf size 0 s); try done; try lia| |]; [|..|by intros [] s' [_ ?]|done].
  - by rewrite app_nil_r.
  - intros n s' [Hok' Hy'] Hd Hn Hon. eapply post_mono; [apply (socket_write_post x y); [done|done|lia]| |].
    + intros k s2 (Hk&Hb&Hd2). split; [done|]. split; [done|]. split; [|lia].
      rewrite bytes_app by lia. rewrite Hd2, Hd. by rewrite app_assoc.
    + intros e s2 Hd2. by rewrite Hd2.
Qed.
End writes.
