(* ===== verification/Stream.v ===== *)
(** * Multishot requests (src/uring_net.cpp, include/snowy/uring.hpp, uring_multi.hpp)

    One submission yields many completions, each given to a consumer behind an
    exception barrier; a consumer that declines or throws cancels the request, which is
    drained before the coroutine goes on.  The loops re-arm a request that ended by
    itself.  [rx] is the stream with the buffers it receives into. *)
From S2P Require Import Prelude Uring Provided.

Definition ENOBUFS : Z := 105.
(** The members of [class stream] the consumers use; [st_error] and [st_bytes] are those
    of the request *)
Record stream := Stream { st_error : option errc; st_bytes : Z; st_stopped : bool; st_failure : option exn }.
Definition new_stream : stream := Stream None 0 false None.
(** The table, the stream, and the chunks the user's function was given *)
Record rx := Rx { rx_table : provided; rx_stream : stream; rx_log : list chunk }.
Local Abbreviation M := (M rx).
Implicit Types (s : rx) (p : provided) (c : chunk) (res flags : Z).

Definition set_stream (v : stream) s : rx := Rx (rx_table s) v (rx_log s).
Definition set_log (l : list chunk) s : rx := Rx (rx_table s) (rx_stream s) l.
Definition on_table {A} (c : Prelude.M provided A) : M A := zoom (λ s, Some (rx_table s)) (λ p s, Rx p (rx_stream s) (rx_log s)) c.
(** [void stream::stop() noexcept]; its [cancel_fn] marks the request for the loop *)
Definition stop_of (v : stream) : stream := Stream (st_error v) (st_bytes v) true (st_failure v).
Definition stream_stop : M unit := modify (λ s, set_stream (stop_of (rx_stream s)) s).
(** The handler [result] of [stream::stream], with its barrier *)
Definition outcome_in res (v : stream) : stream :=
  if bool_decide (res < 0)%Z then Stream (Some (generic_error (- res))) (st_bytes v) (st_stopped v) (st_failure v)
  else Stream (st_error v) res (st_stopped v) (st_failure v).
Definition failure_in (e : exn) (v : stream) : stream :=
  Stream (st_error v) (st_bytes v) (st_stopped v) (Some (default e (st_failure v))).
Definition stream_result (consume : Z → Z → M unit) res flags : M unit :=
  nothrow (
    modify (λ s, set_stream (outcome_in res (rx_stream s)) s) ;;
    try_catch (consume res flags) (λ e, modify (λ s, set_stream (failure_in e (rx_stream s)) s) ;; stream_stop)).

(** ** Consumers *)

(** [flags & IORING_CQE_F_BUFFER] *)
Definition has_buffer flags : bool := Z.testbit flags 0.
Arguments has_buffer : simpl never.
(** A user's function: what it does with a chunk, and whether it goes on *)
Definition user := list chunk → chunk → Provided.decision * bool.
(** The consumers of [receive] (without bundles) and [recvmsg]: [wants] is the test on
    [res], [missing] the error without a buffer, [build] whether a message can be made *)
Definition buffer_consume (wants : Z → bool) (missing : string) (build : chunk → bool) (fn : user) res flags : M unit :=
  if has_buffer flags then
    c ← on_table (provided_take flags (Z.max res 0));
    s ← get;
    if wants res && negb (st_stopped (rx_stream s)) then
      if build c then
        r ← on_table (Provided.invoke (λ l c, (fn l c).1) c None (rx_log s));
        modify (set_log r.2) ;;
        match r.1 with
        | Some e => throw e
        | None => if (fn (rx_log s) c).2 then mret tt else stream_stop
        end
      else on_table (provided_put (ck_id c)) ;; throw (runtime_error "invalid recvmsg completion")
    else on_table (provided_put (ck_id c))
  else if wants res then throw (runtime_error missing) else mret tt.
Definition positive res : bool := bool_decide (0 < res)%Z.
Definition nonnegative res : bool := bool_decide (0 ≤ res)%Z.
Definition receive_consume (fn : user) : Z → Z → M unit :=
  buffer_consume positive "multishot missing buffer ID" (λ _, true) fn.
Definition recvmsg_consume (valid : chunk → bool) (fn : user) : Z → Z → M unit :=
  buffer_consume nonnegative "recvmsg missing buffer ID" valid fn.

(** ** What follows the completion of the request *)
Inductive verdict := v_return | v_throw (e : exn) | v_again.
(** What [co_await request] throws once the request has been completed *)
Definition resumed (v : stream) : option exn := system_error <$> st_error v.
(** The catch block for what [co_await request] threw, [again] being the error codes it
    swallows; an exception that is not a [system_error] is not caught *)
Definition caught (again : errc → bool) (thrown : option exn) (v : stream) : option verdict :=
  match thrown with
  | None => None
  | Some (system_error e) =>
      match st_failure v with
      | Some f => Some (v_throw f)
      | None =>
          if st_stopped v && bool_decide (e = operation_canceled) then Some v_return
          else if again e then None else Some (v_throw (system_error e))
      end
  | Some e => Some (v_throw e)
  end.
Definition finished (ends : stream → bool) (v : stream) : verdict :=
  match st_failure v with
  | Some f => v_throw f
  | None => if st_stopped v || ends v then v_return else v_again
  end.
Definition no_buffers (e : errc) : bool := bool_decide (e = native_error ENOBUFS).
Definition at_eof (v : stream) : bool := bool_decide (st_error v = None) && bool_decide (st_bytes v = 0)%Z.
(** What follows [co_await request] in the loops of [receive] and [recvmsg], [ends] being the
    test for the end of the stream; in those of [accept], [watch] and [ticks] *)
Definition rearm_end (ends : stream → bool) (thrown : option exn) (v : stream) : verdict :=
  default (finished ends v) (caught no_buffers thrown v).
Definition receive_end (v : stream) : verdict := rearm_end at_eof (resumed v) v.
Definition recvmsg_end (v : stream) : verdict := rearm_end (λ _, false) (resumed v) v.
Definition multishot_accept_end (v : stream) : verdict := default (finished (λ _, false) v) (caught (λ _, false) (resumed v) v).
Definition watch_end (v : stream) : verdict := default (finished (λ _, false) v) (caught (λ _, false) (resumed v) v).
Definition ticks_end (v : stream) : verdict :=
  default (finished (λ _, false) v) (caught (λ e, bool_decide (e = native_error ETIME)) (resumed v) v).

(** ** Periodic timers: [ticks] *)
Record ticker := Ticker { tk_stream : stream; tk_received : nat }.
(** The function returns whether to go on, or throws, for each tick in turn *)
Definition tick_fn := nat → bool + exn.
Definition ticks_consume (fn : tick_fn) res (t : ticker) : ticker :=
  let v := outcome_in res (tk_stream t) in
  if bool_decide (res = - ETIME)%Z && negb (st_stopped v) then
    match fn (tk_received t) with
    | inl true => Ticker v (S (tk_received t))
    | inl false => Ticker (stop_of v) (S (tk_received t))
    | inr e => Ticker (stop_of (failure_in e v)) (S (tk_received t))
    end
  else Ticker v (tk_received t).
(** The ticks requested of the kernel, 0 for no limit *)
Definition request_count (count : nat) (received : nat) : nat := if bool_decide (count = 0) then 0 else count - received.
Fixpoint ticks_loop (count : nat) (fn : tick_fn) (shots : list (list Z)) (received : nat) : option (verdict * nat) :=
  match shots with
  | [] => None
  | cqes :: shots' =>
      let t := foldl (λ t res, ticks_consume fn res t) (Ticker new_stream received) cqes in
      match ticks_end (tk_stream t) with
      | v_again => if bool_decide (count = 0) || bool_decide (tk_received t < count)
                   then ticks_loop count fn shots' (tk_received t) else Some (v_return, tk_received t)
      | v => Some (v, tk_received t)
      end
  end.
(** [ticks(loop, interval, fn, count, token)] *)
Definition ticks (interval : Z) (count : nat) (fn : tick_fn) (shots : list (list Z)) : option (verdict * nat) :=
  if bool_decide (interval ≤ 0)%Z then Some (v_throw (invalid_argument "nonpositive timer interval"), 0)
  else ticks_loop count fn shots 0.

(** ** Readiness: [watch] *)

(** The stream and the masks the function was called with; the function returns whether to
    go on, or throws *)
Record watcher := Watcher { wt_stream : stream; wt_log : list Z }.
Definition watch_fn := list Z → Z → bool + exn.
Definition watch_consume (fn : watch_fn) (w : watcher) res : watcher :=
  let v := outcome_in res (wt_stream w) in
  if bool_decide (0 ≤ res)%Z && negb (st_stopped v) then
    Watcher match fn (wt_log w) res with inl true => v | inl false => stop_of v | inr e => stop_of (failure_in e v) end (wt_log w ++ [res])
  else Watcher v (wt_log w).
(** [task<> watch(...)]; [None] is a task that is still suspended *)
Fixpoint watch (fn : watch_fn) (shots : list (list Z)) (log : list Z) : option verdict * watcher :=
  match shots with
  | [] => (None, Watcher new_stream log)
  | cqes :: shots' =>
      let w := foldl (watch_consume fn) (Watcher new_stream log) cqes in
      match watch_end (wt_stream w) with
      | v_again => watch fn shots' (wt_log w)
      | v => (Some v, w)
      end
  end.

(** ** What a completion delivers

    The reference: the chunks of a completion, given one by one to a stream with the
    chunks seen before and the table. *)
Record seen := Seen { sn_stream : stream; sn_log : list chunk; sn_table : table }.
Definition buffer_of flags : nat := Z.to_nat (Z.shiftr flags buffer_shift).
Definition fails_with (e : exn) (v : stream) : stream := stop_of (failure_in e v).
(** The stream after the user's function *)
Definition answered (a : Provided.decision * bool) (v : stream) : stream :=
  match d_throw a.1 with Some e => fails_with e v | None => if a.2 then v else stop_of v end.
Section deliver.
Variables (wants : Z → bool) (missing : string) (build : chunk → bool) (fn : user).
Definition feed res (x : seen) c : seen :=
  let '(Seen v log T) := x in
  let T := t_take (ck_id c) T in
  if wants res && negb (st_stopped v) then
    if build c then Seen (answered (fn log c) v) (log ++ [c]) (settle_chunk (fn log c).1 (ck_id c) T)
    else Seen (fails_with (runtime_error "invalid recvmsg completion") v) log (t_return (ck_id c) T)
  else Seen v log (t_return (ck_id c) T).
Definition served (x : seen) res (cs : list chunk) : seen :=
  let '(Seen v log T) := x in
  let v := outcome_in res v in
  match cs with
  | [] => Seen (if wants res then fails_with (runtime_error missing) v else v) log T
  | _ => foldl (feed res) (Seen v log T) cs
  end.
(** What the kernel guarantees of a completion that fills the buffers [ids] of [B] bytes,
    [spans] being their number *)
Definition completion (spans : Z → Z → Z) (B : Z) res flags (ids : list nat) : Prop :=
  if has_buffer flags
  then (0 ≤ flags)%Z ∧ head ids = Some (buffer_of flags) ∧ Z.of_nat (length ids) = spans (Z.max res 0) B ∧
       (Z.max res 0 ≤ B * Z.of_nat (length ids))%Z
  else ids = [].
(** What a consumer promises the loops that re-arm it: behind its barrier it never throws,
    and it does what the reference does. *)
Class Consumer (consume : Z → Z → M unit) (spans : Z → Z → Z) : Prop :=
  consumer_spec res flags ids rest p T v log :
    TInv p T (ids ++ rest) → completion spans (pv_size p) res flags ids →
    runs (stream_result consume res flags) (Rx p v log) (λ _ s',
      let x := served (Seen v log T) res (cut (pv_size p) (Z.max res 0) ids) in
      rx_stream s' = sn_stream x ∧ rx_log s' = sn_log x ∧ TInv (rx_table s') (sn_table x) rest ∧ steady p (rx_table s')).
End deliver.

Lemma post_on_table {A} (c : Prelude.M provided A) s (Q : A → rx → Prop) (E : exn → rx → Prop) :
  post c (rx_table s) (λ a p, Q a (Rx p (rx_stream s) (rx_log s))) (λ e p, E e (Rx p (rx_stream s) (rx_log s))) → post (on_table c) s Q E.
Proof. intros H. by eapply post_zoom. Qed.
Lemma outcome_same res v : st_stopped (outcome_in res v) = st_stopped v ∧ st_failure (outcome_in res v) = st_failure v.
Proof. unfold outcome_in. by case_bool_decide. Qed.

(** The consumers that take one buffer per completion. *)
#[global] Instance buffer_consumer wants missing build fn :
  Consumer wants missing build fn (buffer_consume wants missing build fn) (λ _ _, 1%Z).
Proof.
  intros res flags ids rest p T v log I Hc. unfold stream_result. apply post_nothrow, post_bind, post_modify.
  unfold set_stream; cbn [rx_table rx_stream rx_log]. set (v1 := outcome_in res v).
  apply post_try_catch. unfold buffer_consume, completion in *. destruct (has_buffer flags) eqn:Hb.
  - destruct Hc as (Hf&Hid&Hlen&Hsz). destruct ids as [|id [|]]; simpl in Hlen; try lia. injection Hid as ->.
    simpl in Hsz. assert (Z.min (Z.max res 0) (pv_size p) = Z.max res 0) as Emin by lia.
    cbn [cut served]. rewrite Emin. fold v1. set (id := buffer_of flags) in *. set (c := Chunk true id (Z.of_nat id * pv_size p) (Z.max res 0)).
    apply post_bind, post_on_table. cbn [rx_table rx_stream rx_log].
    eapply post_mono; [apply (take_table p T id rest flags); [done|done|done|lia]| |done].
    intros ? p1 (->&I1&S1). fold c. apply post_bind. unfold post at 1, get. cbn [rx_table rx_stream rx_log foldl feed ck_id c].
    assert (∀ (Q : unit → rx → Prop) E, (∀ p', TInv p' (t_return id (t_take id T)) rest → steady p p' → Q tt (Rx p' v1 log)) →
      post (on_table (provided_put (ck_id c))) (Rx p1 v1 log) Q E) as Hput.
    { intros Q E HQ. apply post_on_table. eapply post_mono; [apply (put_returns _ _ _ id I1); by left| |done].
      intros [] p2 [I2 S2]. apply HQ; [done|by etrans]. }
    destruct (wants res && negb (st_stopped v1)); [|by apply Hput].
    destruct (build c); [|by apply post_bind, Hput; intros p2 I2 S2; apply post_throw, post_bind, post_modify, post_modify].
    apply post_bind, post_on_table. cbn [rx_table rx_stream rx_log].
    eapply post_mono; [apply (invoke_spec (λ l c, (fn l c).1) p1 _ rest c None log I1); by left| |done].
    intros r p2 (S2&->&I2). apply post_bind, post_modify. cbn [fst snd set_log rx_table rx_stream rx_log sn_stream sn_log sn_table].
    assert (steady p p2) as S by (by etrans). unfold answered. destruct (d_throw (fn log c).1) as [e|].
    + by apply post_throw, post_bind, post_modify, post_modify.
    + destruct (fn log c).2; [by apply post_ret|by apply post_modify].
  - subst ids. cbn [cut served]. fold v1. destruct (wants res); [by apply post_throw, post_bind, post_modify, post_modify|by apply post_ret].
Qed.

(** ** Periodic timers *)
Section ticks.
Variable fn : tick_fn.
(** The function was called for the ticks before [tk_received], and went on at all of
    them, or at all but the last. *)
Definition ticked (t : ticker) : Prop :=
  match tk_received t with
  | O => st_stopped (tk_stream t) = false ∧ st_failure (tk_stream t) = None
  | S n => (∀ k, k < n → fn k = inl true) ∧
      match fn n with
      | inl true => st_stopped (tk_stream t) = false ∧ st_failure (tk_stream t) = None
      | inl false => st_stopped (tk_stream t) = true ∧ st_failure (tk_stream t) = None
      | inr e => st_stopped (tk_stream t) = true ∧ st_failure (tk_stream t) = Some e
      end
  end.
Lemma ticked_all t : ticked t → st_stopped (tk_stream t) = false → ∀ k, k < tk_received t → fn k = inl true.
Proof.
  unfold ticked. destruct (tk_received t) as [|n]; [lia|]. intros [Hall Hn] Hs k Hk.
  destruct (decide (k = n)) as [->|]; [|apply Hall; lia]. destruct (fn n) as [[]|]; [done| |]; destruct Hn; congruence.
Qed.
Lemma ticks_consume_spec res t :
  ticked t → ticked (ticks_consume fn res t) ∧
    tk_received (ticks_consume fn res t) ≤ tk_received t + (if bool_decide (res = - ETIME)%Z then 1 else 0).
Proof.
  intros Ht. unfold ticks_consume. set (v := outcome_in res (tk_stream t)).
  assert (st_stopped v = st_stopped (tk_stream t) ∧ st_failure v = st_failure (tk_stream t)) as [Es Ef] by (unfold v, outcome_in; by case_bool_decide).
  destruct (bool_decide (res = - ETIME)%Z); simpl.
  - destruct (st_stopped v) eqn:Hv; simpl.
    + split; [|lia]. unfold ticked in *. simpl. rewrite <- Es in Ht. rewrite Hv, Ef. exact Ht.
    + assert (st_failure v = None) as Hf.
      { rewrite Ef. unfold ticked in Ht. destruct (tk_received t) as [|n]; [apply Ht|]. destruct Ht as [_ Ht].
        destruct (fn n) as [[]|]; destruct Ht; congruence. }
      pose proof (ticked_all t Ht (eq_sym Es)) as Hall.
      destruct (fn (tk_received t)) as [[]|e] eqn:E; simpl; (split; [|lia]); unfold ticked; simpl; rewrite E; simpl; (split; [done|]).
      * done.
      * done.
      * by rewrite Hf.
  - split; [|lia]. unfold ticked in *. simpl. by rewrite Es, Ef.
Qed.
Lemma ticks_shot_spec cqes : ∀ t,
  ticked t → let t' := foldl (λ t res, ticks_consume fn res t) t cqes in
    ticked t' ∧ tk_received t' ≤ tk_received t + length (filter (λ res, res = - ETIME)%Z cqes).
Proof.
  induction cqes as [|res cqes IH]; intros t Ht; simpl; [split; [done|lia]|].
  destruct (ticks_consume_spec res t Ht) as [H1 H2]. destruct (IH _ H1) as [H3 H4]. split; [done|].
  rewrite filter_cons. case_bool_decide; [rewrite decide_True by done|rewrite decide_False by done]; simpl in *; lia.
Qed.
(** A limited timer fires at most as often as was requested. *)
Fixpoint granted (count : nat) (shots : list (list Z)) (received : nat) : Prop :=
  match shots with
  | [] => True
  | cqes :: shots' =>
      (count ≠ 0 → length (filter (λ res, res = - ETIME)%Z cqes) ≤ request_count count received) ∧
      granted count shots' (tk_received (foldl (λ t res, ticks_consume fn res t) (Ticker new_stream received) cqes))
  end.

Lemma ticks_loop_spec count shots : ∀ received v n,
  (∀ k, k < received → fn k = inl true) → (count ≠ 0 → received < count) → granted count shots received →
  ticks_loop count fn shots received = Some (v, n) →
  (count ≠ 0 → n ≤ count) ∧ (∀ k, S k < n → fn k = inl true) ∧
  match v with
  | v_return => (count ≠ 0 ∧ n = count ∧ ∀ k, k < n → fn k = inl true) ∨ (∃ m, n = S m ∧ fn m = inl false)
  | v_throw e => (∃ m, n = S m ∧ fn m = inr e) ∨ (∃ code, e = system_error code)
  | v_again => False
  end.
Proof.
  induction shots as [|cqes shots IH]; intros received v n Hall Hlt Hgr; [done|]. destruct Hgr as [Hg Hgs]. simpl.
  set (t := foldl _ _ _) in *.
  assert (ticked (Ticker new_stream received)) as H0.
  { unfold ticked. simpl. destruct received as [|m]; [done|]. split; [intros; apply Hall; lia|]. by rewrite Hall by lia. }
  destruct (ticks_shot_spec cqes _ H0) as [Ht Hn]. fold t in Ht, Hn. simpl in Hn.
  assert (count ≠ 0 → tk_received t ≤ count) as Hle.
  { intros Hc. specialize (Hg Hc). specialize (Hlt Hc). unfold request_count in Hg. rewrite bool_decide_false in Hg by done. lia. }
  assert (∀ k, S k < tk_received t → fn k = inl true) as Hpre.
  { unfold ticked in Ht. destruct (tk_received t) as [|m]; [lia|]. intros k Hk. apply (proj1 Ht). lia. }
  assert (st_stopped (tk_stream t) = true → st_failure (tk_stream t) = None → ∃ m, tk_received t = S m ∧ fn m = inl false) as Hstop.
  { intros Hs Hf. unfold ticked in Ht. destruct (tk_received t) as [|m]; [destruct Ht; congruence|]. exists m. split; [done|].
    destruct Ht as [_ Ht]. destruct (fn m) as [[]|]; destruct Ht; congruence. }
  assert (∀ e, st_failure (tk_stream t) = Some e → ∃ m, tk_received t = S m ∧ fn m = inr e) as Hfail.
  { intros e Hf. unfold ticked in Ht. destruct (tk_received t) as [|m]; [destruct Ht; congruence|]. exists m. split; [done|].
    destruct Ht as [_ Ht]. destruct (fn m) as [[]|]; destruct Ht; congruence. }
  unfold ticks_end, caught, resumed, finished. destruct (st_error (tk_stream t)) as [c|] eqn:He.
  - destruct (st_failure (tk_stream t)) as [e|] eqn:Hf; simpl.
    { intros [= <- <-]. split_and!; eauto. }
    destruct (st_stopped (tk_stream t)) eqn:Hs; simpl.
    + destruct (bool_decide (c = operation_canceled)); [intros [= <- <-]; split_and!; eauto|].
      destruct (bool_decide (c = native_error ETIME)); simpl; intros [= <- <-]; split_and!; eauto.
    + destruct (bool_decide (c = native_error ETIME)); simpl; [|intros [= <- <-]; split_and!; eauto].
      destruct (bool_decide (count = 0) || bool_decide (tk_received t < count)) eqn:Hw.
      * apply IH; [by apply ticked_all| |done]. intros Hc. apply orb_true_iff in Hw as [Hw|Hw]; apply bool_decide_eq_true in Hw; lia.
      * apply orb_false_iff in Hw as [Hw1%bool_decide_eq_false Hw2%bool_decide_eq_false]. intros [= <- <-].
        split_and!; [lia|done|]. left. split_and!; [done|specialize (Hle Hw1); lia|by apply ticked_all].
  - destruct (st_failure (tk_stream t)) as [e|] eqn:Hf; simpl.
    { intros [= <- <-]. split_and!; eauto. }
    destruct (st_stopped (tk_stream t)) eqn:Hs; simpl; [intros [= <- <-]; split_and!; eauto|].
    destruct (bool_decide (count = 0) || bool_decide (tk_received t < count)) eqn:Hw.
    * apply IH; [by apply ticked_all| |done]. intros Hc. apply orb_true_iff in Hw as [Hw|Hw]; apply bool_decide_eq_true in Hw; lia.
    * apply orb_false_iff in Hw as [Hw1%bool_decide_eq_false Hw2%bool_decide_eq_false]. intros [= <- <-].
      split_and!; [lia|done|]. left. split_and!; [done|specialize (Hle Hw1); lia|by apply ticked_all].
Qed.

Lemma ticks_consume_stopped res t : st_stopped (tk_stream t) = true → st_stopped (tk_stream (ticks_consume fn res t)) = true.
Proof.
  intros H. unfold ticks_consume. assert (st_stopped (outcome_in res (tk_stream t)) = true) as E by (unfold outcome_in; by case_bool_decide).
  rewrite E, andb_false_r. done.
Qed.
Lemma ticks_consume_more res t : tk_received t ≤ tk_received (ticks_consume fn res t).
Proof. unfold ticks_consume. destruct (_ && _); [|done]. destruct (fn _) as [[]|]; simpl; lia. Qed.
Lemma ticks_shot_more cqes : ∀ t,
  (st_stopped (tk_stream t) = true → st_stopped (tk_stream (foldl (λ t res, ticks_consume fn res t) t cqes)) = true) ∧
  tk_received t ≤ tk_received (foldl (λ t res, ticks_consume fn res t) t cqes).
Proof.
  induction cqes as [|res cqes IH]; intros t; simpl; [done|]. destruct (IH (ticks_consume fn res t)) as [H1 H2].
  pose proof (ticks_consume_more res t). split; [|lia]. intros Hst. by apply H1, ticks_consume_stopped.
Qed.
(** A shot with a tick advances, unless the stream is stopped after it. *)
Lemma ticks_shot_advances cqes : ∀ t,
  (- ETIME)%Z ∈ cqes → let t' := foldl (λ t res, ticks_consume fn res t) t cqes in
  st_stopped (tk_stream t') = true ∨ tk_received t < tk_received t'.
Proof.
  induction cqes as [|res cqes IH]; intros t Hin; simpl; [by apply elem_of_nil in Hin|].
  destruct (ticks_shot_more cqes (ticks_consume fn res t)) as [Hs Hm]. pose proof (ticks_consume_more res t) as Hc.
  apply elem_of_cons in Hin as [<-|Hin]; [|destruct (IH (ticks_consume fn res t) Hin); [by left|right; lia]].
  destruct (st_stopped (tk_stream t)) eqn:E; [left; by apply Hs, ticks_consume_stopped|]. right.
  enough (tk_received t < tk_received (ticks_consume fn (- ETIME) t)) by lia. unfold ticks_consume.
  assert (st_stopped (outcome_in (- ETIME) (tk_stream t)) = false) as -> by (unfold outcome_in; by case_bool_decide).
  simpl. destruct (fn _) as [[]|]; simpl; lia.
Qed.
Lemma ticks_end_again v : ticks_end v = v_again → st_stopped v = false.
Proof.
  unfold ticks_end, caught, resumed, finished. destruct (st_error v) as [c|], (st_failure v), (st_stopped v); simpl; try done;
    repeat (destruct (bool_decide _); simpl; try done).
Qed.
Lemma ticks_loop_returns count shots : ∀ received,
  count ≠ 0 → received ≤ count → Forall (λ cqes, (- ETIME)%Z ∈ cqes) shots → count - received < length shots ∨ (received < count ∧ count - received ≤ length shots) →
  is_Some (ticks_loop count fn shots received).
Proof.
  induction shots as [|cqes shots IH]; intros received Hc Hr Hall Hl; simpl in *; [lia|].
  apply Forall_cons in Hall as [H1 Hall]. pose proof (ticks_shot_advances cqes (Ticker new_stream received) H1) as Hadv. simpl in Hadv.
  set (t := foldl _ _ _) in *. destruct (ticks_end (tk_stream t)) eqn:E; [by eexists..|].
  rewrite (ticks_end_again _ E) in Hadv. destruct Hadv as [|Hadv]; [done|].
  rewrite (bool_decide_false (count = 0)) by done. simpl. case_bool_decide; [|by eexists]. apply IH; [done|lia|done|lia].
Qed.

(** Periodic ticks, however the kernel splits them over submissions: the function is called
    at most [count] times and never again after it has declined or thrown; a normal end
    means that it was called exactly [count] times or that it declined at the last call,
    an exception is the function's own or an error of the request, and a limited timer
    ends after at most [count] submissions that each deliver a tick. *)
Theorem ticks_spec interval count shots :
  (0 < interval)%Z → granted count shots 0 →
  (∀ v n, ticks interval count fn shots = Some (v, n) →
    (count ≠ 0 → n ≤ count) ∧ (∀ k, S k < n → fn k = inl true) ∧
    match v with
    | v_return => (count ≠ 0 ∧ n = count ∧ ∀ k, k < n → fn k = inl true) ∨ (∃ m, n = S m ∧ fn m = inl false)
    | v_throw e => (∃ m, n = S m ∧ fn m = inr e) ∨ (∃ code, e = system_error code)
    | v_again => False
    end) ∧
  (count ≠ 0 → count ≤ length shots → Forall (λ cqes, (- ETIME)%Z ∈ cqes) shots → is_Some (ticks interval count fn shots)).
Proof.
  intros Hi Hg. unfold ticks. rewrite bool_decide_false by lia. split.
  - intros v n. apply ticks_loop_spec; [lia|lia|done].
  - intros. apply ticks_loop_returns; [done|lia|done|lia].
Qed.
End ticks.

(** ** Readiness *)
Section watch.
Variable fn : watch_fn.
Fixpoint all_ready (log : list Z) (ms : list Z) : Prop :=
  match ms with [] => True | m :: ms' => fn log m = inl true ∧ all_ready (log ++ [m]) ms' end.
Lemma all_ready_snoc log ms m : all_ready log ms → fn (log ++ ms) m = inl true → all_ready log (ms ++ [m]).
Proof.
  revert log. induction ms as [|d ms IH]; intros log; simpl; [by rewrite app_nil_r|]. intros [? H] Hm. split; [done|].
  apply IH; [done|]. by rewrite <- app_assoc.
Qed.
(** The function has been called with [ms], going on at all of them or all but the last. *)
Definition watched (log ms : list Z) (w : watcher) : Prop :=
  wt_log w = log ++ ms ∧
  ((all_ready log ms ∧ st_stopped (wt_stream w) = false ∧ st_failure (wt_stream w) = None) ∨
   ∃ pre m, ms = pre ++ [m] ∧ all_ready log pre ∧ st_stopped (wt_stream w) = true ∧
     ((fn (log ++ pre) m = inl false ∧ st_failure (wt_stream w) = None) ∨ ∃ e, fn (log ++ pre) m = inr e ∧ st_failure (wt_stream w) = Some e)).
Lemma watch_consume_spec log ms w res :
  watched log ms w → ∃ ms', watched log ms' (watch_consume fn w res) ∧
    ms' = ms ++ (if bool_decide (0 ≤ res)%Z && negb (st_stopped (wt_stream w)) then [res] else []).
Proof.
  destruct w as [v l]. intros [El Hw]. simpl in *. subst l. unfold watch_consume. simpl. destruct (outcome_same res v) as [Es Ef].
  set (v1 := outcome_in res v) in *. clearbody v1. rewrite Es.
  destruct (bool_decide (0 ≤ res)%Z && negb (st_stopped v)) eqn:Hb.
  - apply andb_true_iff in Hb as [_ Hs%negb_true_iff]. destruct Hw as [(Hr&_&Hf)|(?&?&_&_&?&_)]; [|congruence].
    eexists; split; [|done]. split; [simpl; by rewrite <- app_assoc|]. simpl. destruct (fn (log ++ ms) res) as [[]|e] eqn:E.
    + left. split_and!; [by apply all_ready_snoc|congruence|congruence].
    + right. exists ms, res. split_and!; [done|done|done|]. left. split; [done|]. simpl. congruence.
    + right. exists ms, res. split_and!; [done|done|done|]. right. exists e. split; [done|]. simpl. by rewrite Ef, Hf.
  - exists ms. split; [|by rewrite app_nil_r]. split; [done|]. simpl. rewrite Es, Ef. exact Hw.
Qed.
Lemma watch_stopped cqes : ∀ w, st_stopped (wt_stream w) = true → wt_log (foldl (watch_consume fn) w cqes) = wt_log w.
Proof.
  induction cqes as [|res cqes IH]; intros w Hs; simpl; [done|]. destruct (outcome_same res (wt_stream w)) as [Es _].
  unfold watch_consume at 2. rewrite Es, Hs, andb_false_r. rewrite IH; simpl; congruence.
Qed.
Lemma watch_shot_spec log cqes : ∀ ms w,
  watched log ms w → ∃ ms', watched log (ms ++ ms') (foldl (watch_consume fn) w cqes) ∧ ms' `prefix_of` filter (λ m, 0 ≤ m)%Z cqes.
Proof.
  induction cqes as [|res cqes IH]; intros ms w Hw; simpl; [exists []; by rewrite app_nil_r|].
  destruct (watch_consume_spec log ms w res Hw) as (ms1&Hw1&E). destruct (IH _ _ Hw1) as (ms2&Hw2&Hp). subst ms1. rewrite <- app_assoc in Hw2.
  eexists; split; [exact Hw2|]. rewrite filter_cons. case_bool_decide as Hr; [rewrite decide_True by done|by rewrite decide_False by done]. simpl.
  destruct (st_stopped (wt_stream w)) eqn:Hs; simpl; [|by apply prefix_cons].
  assert (ms2 = []) as ->; [|apply prefix_nil]. destruct Hw as [El _], Hw2 as [El2 _].
  assert (st_stopped (wt_stream (watch_consume fn w res)) = true ∧ wt_log (watch_consume fn w res) = wt_log w) as [Hs1 El1].
  { unfold watch_consume. destruct (outcome_same res (wt_stream w)) as [Es _]. rewrite Es, Hs, andb_false_r. simpl. by rewrite Es. }
  rewrite (watch_stopped cqes _ Hs1), El1, El in El2. simpl in El2.
  apply (f_equal length) in El2. rewrite !length_app in El2. by destruct ms2; [|simpl in El2; lia].
Qed.
(** A watch, over all the submissions it takes: the function is called with readiness
    masks as they come, and after one it does not go on at with none; the task returns only
    after the function has declined, and throws what it threw or the kernel's error. *)
Theorem watch_spec shots : ∀ log ms0, all_ready log ms0 →
  let r := watch fn shots (log ++ ms0) in
  ∃ ms, watched log ms r.2 ∧
    match r.1 with
    | None => all_ready log ms
    | Some v_return => ∃ pre m, ms = pre ++ [m] ∧ all_ready log pre ∧ fn (log ++ pre) m = inl false
    | Some (v_throw e) => (∃ pre m, ms = pre ++ [m] ∧ all_ready log pre ∧ fn (log ++ pre) m = inr e) ∨ ∃ code, e = system_error code
    | Some v_again => False
    end.
Proof.
  induction shots as [|cqes shots IH]; intros log ms0 H0; cbn [watch].
  { exists ms0. split; [|done]. split; [done|]. by left. }
  destruct (watch_shot_spec log cqes ms0 (Watcher new_stream (log ++ ms0))) as (ms&Hw&_); [split; [done|by left]|].
  set (w := foldl _ _ cqes) in *. destruct Hw as [El Hw].
  assert (match watch_end (wt_stream w) with
    | v_again => st_stopped (wt_stream w) = false
    | v_return => st_stopped (wt_stream w) = true ∧ st_failure (wt_stream w) = None
    | v_throw e => st_failure (wt_stream w) = Some e ∨ ∃ code, e = system_error code end) as Hc.
  { unfold watch_end, caught, resumed, finished. destruct (st_error (wt_stream w)), (st_failure (wt_stream w)), (st_stopped (wt_stream w)); simpl;
      repeat (case_bool_decide; simpl); eauto. }
  destruct (watch_end (wt_stream w)) as [|e|].
  - exists (ms0 ++ ms). split; [by split|]. destruct Hc as [Hs Hf]. destruct Hw as [(_&?&_)|(pre&m&?&?&_&[[? _]|(e&_&?)])]; [congruence|by exists pre, m|congruence].
  - exists (ms0 ++ ms). split; [by split|]. destruct Hc as [Hf|]; [|by right]. left.
    destruct Hw as [(_&_&?)|(pre&m&?&?&_&[[_ ?]|(e'&?&?)])]; [congruence|congruence|]. exists pre, m. split_and!; [done|done|congruence].
  - destruct Hw as [(Hr&_&_)|(?&?&_&_&?&_)]; [|congruence]. rewrite El. by apply IH.
Qed.
End watch.
