(* ===== verification/BatchDone.v ===== *)
(** * Completion of a batch ([submit] of src/uring_ops.cpp)

    The entries of a batch complete in any order.  Each writes its own result slot and
    counts the batch down; the last one sets the event the submitting task waits for. *)
From S2P Require Import Prelude ReadyQueue Links Heap Core Loop LoopInv LoopSpec Event Io Uring UringSpec UringPoll Hooks Batch.

Section done.
Context {K : Type} `{!Liburing K, !LiburingOk K}.
Variable consume : loc → Z → Z → M (world (driver K)) unit.
Implicit Types (w : world (driver K)) (g : ghost) (x : loc) (L : loopid) (i : io) (o : op).

(** The part of a batch that has not completed: its entries with their result slots, and
    the counter and the event they share. *)
Definition entry_io (output pending done : loc) i : Prop :=
  io_code i = op_native ∧ io_result i = Some (result_entry output) ∧ io_retire i = Some (retire_entry pending done) ∧
  io_canceling i = false.
Record batch_at w ge L (rest : list (loc * loc)) (pending done : loc) : Prop := {
  ba_inv : ∃ g, Inv ∅ w g;
  ba_events : EInv w ge;
  ba_loop : l_thread <$> w_loops w !! L = Some (w_thread w);
  ba_op x out : (x, out) ∈ rest → ∃ o, w_ops w !! x = Some o ∧ op_owner o = L ∧ op_active o = true;
  ba_io x out : (x, out) ∈ rest → ∃ i, w_ios w !! x = Some i ∧ entry_io out pending done i;
  ba_slot x out : (x, out) ∈ rest → is_Some (w_cells w !! out) ∧ out ≠ pending;
  ba_nodup : NoDup rest.*1;
  ba_slots : NoDup rest.*2;
  ba_count : w_cells w !! pending = Some (Z.of_nat (length rest));
  ba_done : event_is w done L (bool_decide (rest = [])) }.

#[global] Instance batch_at_perm w ge L : Proper ((≡ₚ) ==> (=) ==> (=) ==> iff) (batch_at w ge L).
Proof.
  assert (∀ rest rest' p d, rest ≡ₚ rest' → batch_at w ge L rest p d → batch_at w ge L rest' p d) as H.
  { intros rest rest' p d Hp []. split; try done.
    - intros x out. rewrite <- Hp. eauto.
    - intros x out. rewrite <- Hp. eauto.
    - intros x out. rewrite <- Hp. eauto.
    - by rewrite <- Hp.
    - by rewrite <- Hp.
    - by rewrite <- Hp.
    - erewrite bool_decide_ext; [done|]. destruct rest; [by apply Permutation_nil in Hp as ->|].
      split; [intros ->; by apply Permutation_nil_r in Hp|done]. }
  intros rest rest' Hp p ? <- d ? <-. split; apply H; [done|by symmetry].
Qed.

(** The entry [x] leaves the batch: what its completion changes before its hook counts. *)
Record left_batch w w' x out (res : Z) : Prop := {
  lb_inv : ∃ g, Inv ∅ w' g;
  lb_events : same_events w w';
  lb_op y : y ≠ x → w_ops w' !! y = w_ops w !! y;
  lb_idle : op_active <$> w_ops w' !! x = Some false;
  lb_io y : y ≠ x → w_ios w' !! y = w_ios w !! y;
  lb_known : is_Some (w_ios w' !! x);
  lb_cells : w_cells w' = <[out := res]> (w_cells w);
  lb_thread L : l_thread <$> w_loops w' !! L = l_thread <$> w_loops w !! L }.

(** The batch without the entry [x], whose result has been written. *)
Definition counted w w' ge L x out rest pending done (res : Z) : Prop :=
  batch_at w' ge L rest pending done ∧ op_active <$> w_ops w' !! x = Some false ∧
  w_cells w' = <[pending := Z.of_nat (length rest)]> (<[out := res]> (w_cells w)) ∧
  (∀ y, is_Some (w_ios w !! y) → is_Some (w_ios w' !! y)) ∧
  (∀ y, is_Some (w_ios w !! y) → y ≠ x → w_ops w' !! y = w_ops w !! y).
(** The hook of an entry counts the batch down and sets the event at zero. *)
Lemma entry_hook w w1 ge L x out rest pending done res :
  batch_at w ge L ((x, out) :: rest) pending done → left_batch w w1 x out res →
  runs (retire_hook (retire_entry pending done)) w1 (λ _ w', counted w w' ge L x out rest pending done res).
Proof.
  intros [[g I] EI HL Hop Hio Hsl Hnd Hnd2 Hc Hd] [[g1 I1] Ev1 Hop1 Hx1 Hio1 Hk1 Hc1 HT1].
  rewrite fmap_cons in Hnd, Hnd2. apply NoDup_cons in Hnd as [Hx Hnd]. apply NoDup_cons in Hnd2 as [Hout Hnd2].
  destruct (Hsl x out) as [_ Hne]; [by left|]. destruct Hd as (u&Hu&Hul&Hus).
  assert (EInv w1 ge) as EI1.
  { eapply EInv_other; [exact EI|exact Ev1|]. intros y Hy. apply Hop1.
    destruct (Hio x out) as (i&Hi&_); [by left|]. apply not_eq_sym, (request_not_awaiter w g ge x y I EI); eauto. }
  apply post_nothrow. apply post_bind. eapply post_upd_cell; [by rewrite Hc1, lookup_insert_ne by done|].
  apply post_bind. eapply post_the_cell; [simpl; apply lookup_insert_eq|].
  replace (Z.of_nat (length ((x, out) :: rest)) - 1)%Z with (Z.of_nat (length rest)) by (simpl; lia).
  set (w2 := set_w_cells (<[pending := Z.of_nat (length rest)]> (w_cells w1)) w1).
  assert (Inv ∅ w2 g1) as I2 by (by destruct I1). assert (EInv w2 ge) as EI2 by (destruct EI1 as [[] ?]; by split).
  assert (∀ w3, w_ios w3 = w_ios w1 → w_cells w3 = w_cells w2 → EInv w3 ge → (∃ g, Inv ∅ w3 g) → w_thread w3 = w_thread w1 →
    (∀ L, l_thread <$> w_loops w3 !! L = l_thread <$> w_loops w1 !! L) →
    (∀ y, is_Some (w_ios w1 !! y) → w_ops w3 !! y = w_ops w1 !! y) →
    event_is w3 done L (bool_decide (rest = [])) →
    counted w w3 ge L x out rest pending done res) as Hend.
  { intros w3 E1 E2 E3 E4 E5 E6 E7 E8. simpl in E2. assert (w_thread w3 = w_thread w) as E9 by (rewrite E5; apply Ev1).
    assert (∀ y, is_Some (w_ios w !! y) → y ≠ x → w_ops w3 !! y = w_ops w !! y) as Hops.
    { intros y Hy Hyx. rewrite E7; [by apply Hop1|]. by rewrite Hio1. }
    assert (∀ y c, (y, c) ∈ rest → y ≠ x) as Hnx by (intros y c Hy ->; apply Hx, list_elem_of_fmap; by exists (x, c)).
    split_and!; [split; try done| |by rewrite E2, Hc1| |done].
    - rewrite E6, HT1, E9. done.
    - intros y o Hy. destruct (Hio y o) as (i&Hi&_); [by right|]. rewrite Hops by eauto. apply (Hop y o). by right.
    - intros y o Hy. rewrite E1, Hio1 by eauto. apply (Hio y o). by right.
    - intros y o Hy. destruct (Hsl y o) as [[c Hcell] ?]; [by right|]. split; [|done].
      assert (o ≠ out) by (intros ->; apply Hout, list_elem_of_fmap; by exists (y, out)).
      rewrite E2, Hc1, !lookup_insert_ne by done. eauto.
    - by rewrite E2, lookup_insert_eq.
    - by rewrite E7.
    - intros y Hy. rewrite E1. destruct (decide (y = x)) as [->|]; [done|by rewrite Hio1]. }
  assert (event_is w2 done L false) as Hd2 by (exists u; simpl; rewrite (proj1 Ev1); by split_and!).
  apply post_when; intros Hz.
  - apply bool_decide_eq_true in Hz. destruct rest; [|simpl in Hz; lia]. destruct Hd2 as (u2&Hu2&Hl2&Hs2).
    destruct (w_loops w1 !! L) as [l1|] eqn:HL1; [|by rewrite <- HT1, HL1 in HL].
    eapply post_mono; [apply (signal_other w2 g1 ge done u2 l1 I2 EI2 Hu2); [by rewrite Hl2| ]| |done].
    + rewrite <- HT1, HL1 in HL. injection HL as HL. simpl. rewrite HL. symmetry. apply Ev1.
    + intros [] w3 S. pose proof S as [? ? S1 S2 S3 _ _ S4 S5]. apply Hend; try done.
      destruct (signalled_is _ _ _ _ _ done L false S Hu2) as (u3&?&?&H3); [by exists u2|]. rewrite decide_True in H3 by done.
      by exists u3.
  - apply Hend; try done; [by eexists|]. apply bool_decide_eq_false in Hz. destruct rest; [simpl in Hz; lia|]. done.
Qed.

(** The only completion of an entry. *)
Definition completes (c : cqe) (x : loc) : Prop := cqe_data c = io_addr x ∧ Z.testbit (cqe_flags c) CQE_F_MORE = false.
Lemma entry_dispatch w ge L x out rest pending done c :
  batch_at w ge L ((x, out) :: rest) pending done → completes c x →
  runs (dispatch consume L c) w (λ b w', b = false ∧ counted w w' ge L x out rest pending done (cqe_res c)).
Proof.
  intros B [Hdata Hmore]. pose proof B as [[g I] EI HL Hop Hio Hsl _ _ _ _].
  destruct (io_at_addr x) as (Hat&Hbit&Hnz). destruct (Hop x out) as (o&Ho&Hown&Hact); [by left|].
  destruct (Hio x out) as (i&Hi&(Hcode&Hres&Hret&Hcan)); [by left|]. destruct (Hsl x out) as [[c0 Hc0] Hne]; [by left|].
  unfold dispatch. rewrite Hdata, bool_decide_eq_false_2, Hat, Hbit by done. apply post_bind.
  eapply (post_mono _ _ (λ _ w', counted w w' ge L x out rest pending done (cqe_res c)) _ (λ _ _, False)); [|intros [] w' H; apply post_ret; split; [done|exact H]|done].
  rewrite Hmore. step. set (i1 := set_io_done (negb false) i). set (w1 := set_w_ios (<[x := i1]> (w_ios w)) w).
  assert (Inv ∅ w1 g) as I1.
  { pose proof (Inv_upd_io ∅ w g x i i1 (w_flags w) I Hi) as I1. by destruct w. }
  assert (w_ios w1 !! x = Some i1) as Hi1 by apply lookup_insert_eq.
  apply post_bind. unfold outcome_of_cqe. step. change (io_result i1) with (io_result i). rewrite Hres.
  apply post_nothrow. eapply post_upd_cell; [exact Hc0|]. cbv beta.
  set (w2 := set_w_cells (<[out := cqe_res c]> (w_cells w1)) w1). assert (Inv ∅ w2 g) as I2 by (by destruct I1).
  apply post_bind. unfold truncated. step. change (io_code i1) with (io_code i). rewrite Hcode. apply post_ret. step.
  change (io_canceling i1) with (io_canceling i). rewrite Hcan. simpl. unfold retire. step. apply post_bind.
  apply (post_mono _ _ (λ _ w3, drv_frame w2 w3 ∧ w_ios w3 = w_ios w2) _ (λ _ _, False)); [| |done].
  { apply post_when; intros _; [|done]. destruct (w_loops w !! L) as [l|] eqn:El; [|done].
    eapply post_zoom; [simpl; by rewrite El|]. apply post_modify. split; [apply drv_frame_driver|done]. }
  intros [] w3 [Fr E3]. pose proof (Inv_drv _ _ _ _ I2 Fr) as I3. destruct Fr as (F3&FL&_).
  assert (w_ops w3 = w_ops w) as Eo by (by rewrite F3). assert (w_cells w3 = <[out := cqe_res c]> (w_cells w)) as Ec by (by rewrite F3).
  eapply (complete_hook w3 g L x o i1 (retire_entry pending done)); [exact I3| |by rewrite Eo|by rewrite E3|done|].
  { rewrite <- Hown. apply (active_io w3 g x o I3); [by rewrite Eo|done|rewrite E3; by eexists]. }
  intros w4 g4 I4 Ho4 Hi4 _ Hc4 Ev4 HT4. eapply entry_hook; [exact B|]. split; [by eexists| | | | | | |].
  - rewrite F3 in Ev4. exact Ev4.
  - intros y Hy. by rewrite Ho4, lookup_insert_ne, Eo.
  - by rewrite Ho4, lookup_insert_eq.
  - intros y Hy. rewrite Hi4, E3. simpl. by rewrite lookup_insert_ne.
  - rewrite Hi4, E3. by eexists.
  - by rewrite Hc4.
  - intros L'. rewrite HT4. specialize (FL L'). simpl in FL.
    destruct (w_loops w !! L'), (w_loops w3 !! L'); simpl in *; try done. unfold drv_loop in FL. by rewrite FL.
Qed.

(** What the completions [cs] of the entries [fin] have done. *)
Record finished w w' (cs : list cqe) (fin : list (loc * loc)) (pending : loc) : Prop := {
  fn_results : Forall2 (λ c (e : loc * loc), w_cells w' !! e.2 = Some (cqe_res c)) cs fin;
  fn_idle : Forall (λ e : loc * loc, op_active <$> w_ops w' !! e.1 = Some false) fin;
  fn_cells s : s ≠ pending → s ∉ fin.*2 → w_cells w' !! s = w_cells w !! s;
  fn_ops y : is_Some (w_ios w !! y) → y ∉ fin.*1 → w_ops w' !! y = w_ops w !! y }.
Lemma finished_cons w w1 w2 ge L x out c cs fin rest pending done :
  counted w w1 ge L x out (fin ++ rest) pending done (cqe_res c) → x ∉ fin.*1 → out ∉ fin.*2 → out ≠ pending →
  is_Some (w_ios w !! x) → finished w1 w2 cs fin pending → finished w w2 (c :: cs) ((x, out) :: fin) pending.
Proof.
  intros (_&Hx1&Hc1&Hk1&Hop1) Hx Hout Hne Hk [F1 F2 F3 F4]. split.
  - constructor; [|done]. simpl. by rewrite F3, Hc1, lookup_insert_ne, lookup_insert_eq.
  - constructor; [|done]. simpl. rewrite F4; [done|by apply Hk1|done].
  - intros s Hs Hn. rewrite fmap_cons, not_elem_of_cons in Hn. destruct Hn as [Hn1 Hn2]. simpl in Hn1.
    by rewrite F3, Hc1, !lookup_insert_ne.
  - intros y Hy Hn. rewrite fmap_cons, not_elem_of_cons in Hn. destruct Hn as [Hn1 Hn2]. simpl in Hn1.
    rewrite F4; [by apply Hop1|by apply Hk1|done].
Qed.
Lemma batch_dispatch_all cs : ∀ w ge L fin rest pending done,
  batch_at w ge L (fin ++ rest) pending done → Forall2 (λ c (e : loc * loc), completes c e.1) cs fin →
  runs (dispatch_all consume L cs) w (λ b w', b = false ∧ batch_at w' ge L rest pending done ∧ finished w w' cs fin pending).
Proof.
  induction cs as [|c cs IH]; intros w ge L fin rest pending done B HF.
  { apply Forall2_nil_inv_l in HF as ->. apply post_ret. split_and!; [done|done|]. split; [done|done|done|done]. }
  apply Forall2_cons_inv_l in HF as ([x out]&fin'&Hc&HF&->). rewrite <- app_comm_cons in B. cbn [dispatch_all]. apply post_bind.
  eapply post_mono; [apply (entry_dispatch _ _ _ _ _ _ _ _ _ B Hc)| |done]. intros b w1 [-> C1].
  pose proof C1 as [B1 _]. apply post_bind. eapply post_mono; [apply (IH w1 ge L fin' rest pending done B1 HF)| |done].
  intros b w2 (->&B2&F2). apply post_ret. split_and!; [done|done|].
  pose proof B as [_ _ _ _ Hio Hsl Hnd Hnd2 _ _]. rewrite fmap_cons, fmap_app, NoDup_cons, not_elem_of_app in Hnd.
  rewrite fmap_cons, fmap_app, NoDup_cons, not_elem_of_app in Hnd2. destruct (Hsl x out) as [_ Hne]; [by left|].
  destruct (Hio x out) as (i&Hi&_); [by left|]. eapply finished_cons; [exact C1|apply Hnd|apply Hnd2|done|by eexists|done].
Qed.

(** C10: The completions of a batch, in any order: each entry's result is in its own slot and
    its request is inactive; the counter is the number of entries still pending; and the
    event the submitting task waits for is set exactly when none is, so [submit] returns
    after the last completion and never before. *)
Theorem batch_done_spec cs : ∀ w ge L entries fin rest pending done,
  batch_at w ge L entries pending done → fin ++ rest ≡ₚ entries → Forall2 (λ c (e : loc * loc), completes c e.1) cs fin →
  runs (dispatch_all consume L cs) w (λ b w', b = false ∧ batch_at w' ge L rest pending done ∧
    Forall2 (λ c (e : loc * loc), w_cells w' !! e.2 = Some (cqe_res c)) cs fin ∧
    Forall (λ e : loc * loc, op_active <$> w_ops w' !! e.1 = Some false) fin).
Proof.
  intros w ge L entries fin rest pending done B Hp HF. rewrite <- Hp in B.
  eapply post_mono; [apply (batch_dispatch_all cs w ge L fin rest pending done B HF)| |done].
  by intros b w' (->&B'&[]).
Qed.
End done.
