(* ===== verification/Multi.v ===== *)
(** * Multishot accept and datagram messages (include/snowy/uring.hpp, src/uring_net.cpp)

    The consumer of [accept], with the descriptors it must not lose, and the decoding of a
    [recvmsg] completion into spans of its buffer. *)
From S2P Require Import Prelude Uring Provided Stream.

(** ** Multishot accept *)

(** What the user's function does with a socket it is given: keeps it or lets it close, and
    goes on, declines or throws. *)
Inductive answer := goes_on | declines | throws (e : exn).
Definition afn := list Z → Z → bool * answer.
(** The stream, the descriptors that are open, and those the function was given *)
Record ax := Ax { ax_stream : stream; ax_open : gset Z; ax_given : list Z }.
Local Abbreviation M := (M ax).
Implicit Types (s : ax) (fd res : Z) (v : stream).
Definition ax_set (v : stream) s : ax := Ax v (ax_open s) (ax_given s).
Definition ax_stop : M unit := modify (λ s, ax_set (stop_of (ax_stream s)) s).
Definition ax_close fd : M unit := modify (λ s, Ax (ax_stream s) (ax_open s ∖ {[fd]}) (ax_given s)).

Section accept.
Variable fn : afn.
(** [socket::socket(loop, fd)]: [Some e] when the descriptor cannot be set up *)
Variable adopts : Z → option exn.

(** [access::adopt]: the constructor closes what it cannot adopt *)
Definition adopt fd : M unit :=
  match adopts fd with Some e => ax_close fd ;; throw e | None => mret tt end.
(** [std::invoke(fn, std::move(peer))]; the socket is closed with [peer] unless kept *)
Definition give fd : M bool :=
  s ← get;
  let '(keep, a) := fn (ax_given s) fd in
  modify (λ s, Ax (ax_stream s) (ax_open s) (ax_given s ++ [fd])) ;;
  when (negb keep) (ax_close fd) ;;
  match a with goes_on => mret true | declines => mret false | throws e => throw e end.
(** The consumer of [accept] *)
Definition accept_consume res : M unit :=
  if bool_decide (res < 0)%Z then mret tt else
    adopt res ;;
    s ← get;
    if st_stopped (ax_stream s) then ax_close res else
      go ← give res;
      if go : bool then mret tt else ax_stop.
(** One completion: the kernel has opened [res]; the handler and its barrier *)
Definition accept_result res : M unit :=
  modify (λ s, Ax (outcome_in res (ax_stream s)) (if bool_decide (0 ≤ res)%Z then {[res]} ∪ ax_open s else ax_open s) (ax_given s)) ;;
  nothrow (try_catch (accept_consume res) (λ e, modify (λ s, ax_set (failure_in e (ax_stream s)) s) ;; ax_stop)).
Definition accept_shot (cqes : list Z) : M unit := for_each accept_result cqes.
(** [task<> accept(...)]: each round binds a new stream, whose completions are given; [None]
    is a task that is still suspended *)
Fixpoint accept (shots : list (list Z)) : M (option verdict) :=
  modify (ax_set new_stream) ;;
  match shots with
  | [] => mret None
  | cqes :: shots' =>
      accept_shot cqes ;;
      s ← get;
      match multishot_accept_end (ax_stream s) with
      | v_again => accept shots'
      | v => mret (Some v)
      end
  end.

(** ** Reference: the descriptors given, those kept, and whether it has stopped *)
Definition serve (st : list Z * list Z * bool) res : list Z * list Z * bool :=
  let '(given, kept, stopped) := st in
  if bool_decide (res < 0)%Z || stopped then st
  else match adopts res with
  | Some _ => (given, kept, true)
  | None =>
      let '(keep, a) := fn given res in
      (given ++ [res], if keep then kept ++ [res] else kept, match a with goes_on => false | _ => true end)
  end.
Definition first_error (old : option exn) (given : list Z) (stopped : bool) res : option exn :=
  match old with
  | Some e => Some e
  | None =>
      if bool_decide (res < 0)%Z then None
      else match adopts res with
      | Some e => Some e
      | None => if stopped then None else match (fn given res).2 with throws e => Some e | _ => None end
      end
  end.

Lemma accept_result_spec s res given kept base :
  ax_given s = given → ax_open s = base ∪ list_to_set kept → ((0 ≤ res)%Z → res ∉ ax_open s) →
  runs (accept_result res) s (λ _ s',
    let st := serve (given, kept, st_stopped (ax_stream s)) res in
    ax_given s' = st.1.1 ∧ ax_open s' = base ∪ list_to_set st.1.2 ∧
    st_stopped (ax_stream s') = st.2 ∧
    st_failure (ax_stream s') = first_error (st_failure (ax_stream s)) given (st_stopped (ax_stream s)) res).
Proof.
  intros Hg Ho Hn. destruct s as [v op gv]; simpl in *. subst gv op. unfold accept_result, serve, first_error.
  apply post_bind, post_modify. simpl. set (v1 := outcome_in res v).
  assert (st_stopped v1 = st_stopped v ∧ st_failure v1 = st_failure v) as [Es Ef] by (unfold v1, outcome_in; by case_bool_decide).
  apply post_nothrow, post_try_catch. unfold accept_consume. case_bool_decide as Hneg; simpl.
  { rewrite bool_decide_false by lia. apply post_ret. simpl. rewrite Es, Ef. split_and!; try done. by destruct (st_failure v). }
  rewrite bool_decide_true by lia. specialize (Hn ltac:(lia)). apply post_bind. unfold adopt.
  assert (({[res]} ∪ (base ∪ list_to_set kept)) ∖ {[res]} = base ∪ list_to_set kept :> gset Z) as Hclose by set_solver.
  destruct (adopts res) as [e|].
  { apply post_bind, post_modify, post_throw, post_bind, post_modify, post_modify. simpl. rewrite Hclose, Ef.
    destruct (st_stopped v) eqn:Hst; simpl; (split_and!; [done..|by destruct (st_failure v)]). }
  apply post_ret, post_bind. unfold post at 1, get. simpl. rewrite Es. destruct (st_stopped v) eqn:Hst; simpl.
  { apply post_modify. simpl. rewrite Hclose, Es, Ef. split_and!; try done. by destruct (st_failure v). }
  unfold give. apply post_bind, post_bind. unfold post at 1, get. simpl. destruct (fn given res) as [keep a] eqn:Hfn. simpl.
  apply post_bind, post_modify, post_bind. simpl. set (o1 := {[res]} ∪ (base ∪ list_to_set kept)).
  apply (post_mono _ _ (λ _ s1, s1 = Ax v1 (base ∪ list_to_set (if keep then kept ++ [res] else kept)) (given ++ [res])) _ (λ _ _, False)); [| |done].
  { destruct keep; simpl; [apply post_ret|apply post_modify; simpl]; f_equal; unfold o1; [rewrite list_to_set_app_L; set_solver|done]. }
  intros _ ? ->. destruct a as [| |e]; simpl.
  - apply post_ret, post_ret. simpl. rewrite Ef. split_and!; try done; by destruct (st_failure v).
  - apply post_ret, post_modify. simpl. rewrite Ef. split_and!; try done; by destruct (st_failure v).
  - apply post_throw, post_bind, post_modify, post_modify. simpl. rewrite Ef. split_and!; try done; by destruct (st_failure v).
Qed.

#[local] Arguments serve : simpl never.
(** The descriptors kept are among those given, which are among the new ones. *)
Lemma serve_kept given kept stopped res :
  (∀ fd, fd ∈ (serve (given, kept, stopped) res).1.2 → fd ∈ kept ∨ fd = res ∧ (0 ≤ res)%Z ∧ fd ∈ (serve (given, kept, stopped) res).1.1) ∧
  (∀ fd, fd ∈ given → fd ∈ (serve (given, kept, stopped) res).1.1).
Proof.
  unfold serve. case_bool_decide; simpl; [by auto|]. destruct stopped; simpl; [by auto|]. destruct (adopts res); simpl; [by auto|].
  destruct (fn given res) as [[] a]; simpl; (split; [|set_solver]); [|by auto].
  intros fd [?| ->%list_elem_of_singleton]%elem_of_app; [by left|]. right. split_and!; [done|lia|set_solver].
Qed.

(** The completions of one submission. *)
Lemma accept_shot_served cqes : ∀ s given kept base,
  ax_given s = given → ax_open s = base ∪ list_to_set kept →
  NoDup (filter (λ res, 0 ≤ res)%Z cqes) → (∀ res, res ∈ cqes → (0 ≤ res)%Z → res ∉ ax_open s) →
  runs (accept_shot cqes) s (λ _ s',
    let st := foldl serve (given, kept, st_stopped (ax_stream s)) cqes in
    ax_given s' = st.1.1 ∧ ax_open s' = base ∪ list_to_set st.1.2 ∧ st_stopped (ax_stream s') = st.2 ∧
    (st_stopped (ax_stream s) = true → st = (given, kept, true)) ∧
    (∀ fd, fd ∈ st.1.2 → fd ∈ kept ∨ fd ∈ st.1.1) ∧
    (∀ e, st_failure (ax_stream s) = Some e → st_failure (ax_stream s') = Some e)).
Proof.
  induction cqes as [|res cqes IH]; intros s given kept base Hg Ho Hnd Hn.
  { apply post_ret. split_and!; try done; [by intros ->|by auto]. }
  apply post_bind. eapply post_mono; [apply (accept_result_spec s res given kept base Hg Ho); intros; apply Hn; [by left|done]| |done].
  intros [] s1 (Hg1&Ho1&Hs1&Hf1). simpl foldl. destruct (serve_kept given kept (st_stopped (ax_stream s)) res) as [Hk Hmono].
  destruct (serve (given, kept, st_stopped (ax_stream s)) res) as [[given1 kept1] stopped1] eqn:Hserve. simpl in *.
  assert (NoDup (filter (λ res, 0 ≤ res)%Z cqes) ∧ ((0 ≤ res)%Z → res ∉ cqes)) as [Hnd1 Hnew].
  { rewrite filter_cons in Hnd. destruct (decide (0 ≤ res)%Z); [|by split].
    apply NoDup_cons in Hnd as [Hx Hnd]. split; [done|]. intros _ Hin. apply Hx, list_elem_of_filter. done. }
  eapply post_mono; [apply (IH s1 given1 kept1 base Hg1 Ho1 Hnd1)| |done].
  { intros r Hr Hpos. assert (r ∉ ax_open s) as Hr0 by (apply Hn; [by right|done]). rewrite Ho1. rewrite Ho in Hr0.
    intros [Hb|Hb]%elem_of_union; [set_solver|]. apply elem_of_list_to_set in Hb. destruct (Hk r Hb) as [|(->&?&_)]; [set_solver|by apply Hnew]. }
  intros [] s2 (Hg2&Ho2&Hs2&Hst2&Hk2&Hf2). rewrite Hs1 in *. split_and!; try done.
  - intros Hst. rewrite Hst in Hserve. unfold serve in Hserve. rewrite orb_true_r in Hserve. injection Hserve as <- <- <-. by apply Hst2.
  - intros fd Hfd. destruct (Hk2 fd Hfd) as [Hk1|?]; [|by right]. destruct (Hk fd Hk1) as [?|(_&_&Hin)]; [by left|]. right.
    clear -Hin. revert given1 kept1 stopped1 Hin. induction cqes as [|r cqes IH]; intros given1 kept1 stopped1 Hin; [done|]. simpl.
    destruct (serve (given1, kept1, stopped1) r) as [[g2 k2] st2] eqn:E. apply IH.
    pose proof (proj2 (serve_kept given1 kept1 stopped1 r) fd Hin) as H2. by rewrite E in H2.
  - intros e He. apply Hf2. rewrite Hf1. unfold first_error. by rewrite He.
Qed.
Lemma serve_from cqes : ∀ st fd, fd ∈ (foldl serve st cqes).1.2 → fd ∈ st.1.2 ∨ fd ∈ cqes ∧ (0 ≤ fd)%Z.
Proof.
  induction cqes as [|res cqes IH]; intros [[given kept] stopped] fd Hfd; [by left|]. simpl in Hfd.
  destruct (IH _ _ Hfd) as [H|[H ?]]; [|right; split; [by right|done]].
  destruct (proj1 (serve_kept given kept stopped res) fd H) as [?|(->&?&_)]; [by left|right; split; [by left|done]].
Qed.
Lemma accept_end_cases v :
  match multishot_accept_end v with
  | v_again => st_stopped v = false ∧ st_failure v = None ∧ st_error v = None
  | v_return => st_stopped v = true ∧ st_failure v = None
  | v_throw e => st_failure v = Some e ∨ ∃ code, e = system_error code ∧ st_error v = Some code
  end.
Proof.
  unfold multishot_accept_end, caught, resumed, finished. destruct (st_error v) as [e|], (st_failure v) as [f|], (st_stopped v); simpl;
    repeat (case_bool_decide; simpl); eauto.
Qed.

(** C31: A multishot accept, over all the submissions it takes, for every sequence of
    completions and every behaviour of the user's function: the function is given the new
    sockets in order up to the first one it declines, throws at or that cannot be adopted,
    and none after that; a descriptor stays open exactly if the function has kept it, so
    every other accepted one is closed; another submission follows only while the function
    goes on, and the task returns only after the function has stopped it. *)
Theorem accept_spec shots : ∀ s given kept base,
  ax_given s = given → ax_open s = base ∪ list_to_set kept →
  NoDup (filter (λ res, 0 ≤ res)%Z (concat shots)) → (∀ res, res ∈ concat shots → (0 ≤ res)%Z → res ∉ ax_open s) →
  runs (accept shots) s (λ r s', ∃ k,
    let st := foldl serve (given, kept, false) (concat (take k shots)) in
    ax_given s' = st.1.1 ∧ ax_open s' = base ∪ list_to_set st.1.2 ∧ st_stopped (ax_stream s') = st.2 ∧
    match r with
    | None => k = length shots ∧ st.2 = false
    | Some v_return => st.2 = true ∧ st_failure (ax_stream s') = None
    | Some (v_throw e) => st_failure (ax_stream s') = Some e ∨ ∃ code, e = system_error code ∧ st_error (ax_stream s') = Some code
    | Some v_again => False
    end).
Proof.
  induction shots as [|cqes shots IH]; intros s given kept base Hg Ho Hnd Hn; cbn [accept]; apply post_bind, post_modify.
  { apply post_ret. exists 0. by split_and!. }
  simpl in Hnd, Hn. rewrite filter_app in Hnd. apply NoDup_app in Hnd as (Hnd1&Hdis&Hnd2). apply post_bind.
  eapply post_mono; [apply (accept_shot_served cqes (ax_set new_stream s) given kept base Hg Ho Hnd1)| |done].
  { intros res Hr. apply Hn. apply elem_of_app. by left. }
  intros [] s1 (Hg1&Ho1&Hs1&_&_&_). simpl in Hs1, Hg1, Ho1. set (st := foldl serve (given, kept, false) cqes) in *.
  apply post_bind. unfold post at 1, get. pose proof (accept_end_cases (ax_stream s1)) as Hc.
  assert (foldl serve (given, kept, false) (concat (take 1 (cqes :: shots))) = st) as Hone by (simpl; by rewrite app_nil_r).
  destruct (multishot_accept_end (ax_stream s1)) as [|e|].
  - apply post_ret. exists 1. rewrite Hone. destruct Hc as [? ?]. split_and!; try done. congruence.
  - apply post_ret. exists 1. by rewrite Hone.
  - destruct Hc as (Hst&_&_). eapply post_mono; [apply (IH s1 st.1.1 st.1.2 base Hg1 Ho1 Hnd2)| |done].
    { intros res Hr Hpos. rewrite Ho1. assert (res ∉ ax_open s) as H0 by (apply Hn; [apply elem_of_app; by right|done]). rewrite Ho in H0.
      intros [?|Hk%elem_of_list_to_set]%elem_of_union; [set_solver|].
      destruct (serve_from cqes _ _ Hk) as [?|[? ?]]; [set_solver|]. apply (Hdis res); apply list_elem_of_filter; done. }
    intros r s' [k H]. exists (S k). simpl take. simpl concat. rewrite foldl_app. fold st.
    assert ((st.1.1, st.1.2, false) = st) as E by (rewrite <- Hst, Hs1; by destruct st as [[]]). rewrite E in H.
    cbv zeta in H |- *. destruct H as (?&?&?&H). split_and!; try done. destruct r as [[]|]; try done. destruct H as [-> ?]. done.
Qed.
End accept.

(** ** Datagram messages *)

(** [msghdr] as [recvmsg] fills it, the header the kernel writes in front of a message, and
    a span of the buffer table (offset and length) *)
Record layout := Layout { ly_namelen : Z; ly_controllen : Z }.
Record header := Header { hd_namelen : Z; hd_controllen : Z; hd_payloadlen : Z; hd_flags : Z }.
Definition span := (Z * Z)%type.
(** [sizeof(sockaddr_storage)], [sizeof(io_uring_recvmsg_out)] *)
Definition sizeof_storage : Z := 128.
Definition sizeof_header : Z := 16.

(** liburing: [io_uring_recvmsg_validate], [io_uring_recvmsg_name], [io_uring_recvmsg_payload]
    (as offsets in the buffer) and [io_uring_recvmsg_payload_length] *)
Class Recvmsg := {
  recvmsg_validate : span → layout → option header;
  recvmsg_name : Z;
  recvmsg_payload : layout → Z;
  recvmsg_payload_length : Z → layout → Z }.
(** The layout they document: header, name area, control area, payload; validation checks
    that the fixed areas fit, and the payload is the rest of the buffer. *)
Class RecvmsgOk `{!Recvmsg} := {
  recvmsg_name_at : recvmsg_name = sizeof_header;
  recvmsg_payload_at l : recvmsg_payload l = (recvmsg_name + ly_namelen l + ly_controllen l)%Z;
  recvmsg_fits b l h : recvmsg_validate b l = Some h → (recvmsg_payload l ≤ b.2)%Z;
  recvmsg_rest n l : (recvmsg_payload l ≤ n)%Z → recvmsg_payload_length n l = (n - recvmsg_payload l)%Z }.

Section message.
Context `{!Recvmsg}.
(** [struct message] *)
Record message := Message {
  mg_storage : chunk; mg_bytes : span; mg_name : span; mg_control : span; mg_flags : Z; mg_wire_size : Z }.
(** [message::message(provided::chunk data, msghdr layout)] *)
Definition message_new (c : chunk) (l : layout) : exn + message :=
  let raw := (ck_offset c, ck_bytes c) in
  match recvmsg_validate raw l with
  | None => inl (runtime_error "invalid recvmsg completion")
  | Some h =>
      let name := (ck_offset c + recvmsg_name, Z.min (hd_namelen h) (ly_namelen l))%Z in
      inr {| mg_storage := c;
             mg_flags := hd_flags h;
             mg_wire_size := hd_payloadlen h;
             mg_name := name;
             mg_control := (name.1 + ly_namelen l, Z.min (hd_controllen h) (ly_controllen l))%Z;
             mg_bytes := (ck_offset c + recvmsg_payload l, Z.min (hd_payloadlen h) (recvmsg_payload_length raw.2 l))%Z |}
  end.
(** The checks of [recvmsg] before its loop; [control] is an [unsigned] *)
Definition recvmsg_layout (control table_size : Z) : exn + layout :=
  if bool_decide (table_size < control + sizeof_storage + sizeof_header)%Z
  then inl (invalid_argument "recvmsg metadata exceeds provided buffer")
  else inr (Layout sizeof_storage control).

(** A span inside another one. *)
Definition inside (a b : span) : Prop := (b.1 ≤ a.1 ∧ 0 ≤ a.2 ∧ a.1 + a.2 ≤ b.1 + b.2)%Z.
Definition header_ok (h : header) : Prop := (0 ≤ hd_namelen h ∧ 0 ≤ hd_controllen h ∧ 0 ≤ hd_payloadlen h)%Z.

(** A datagram received with a layout [recvmsg] accepted: if its completion is not
    rejected, the name, the control data and the payload are spans of the leased buffer,
    in that order and disjoint, none longer than what the kernel reported, whatever
    lengths it reported; and the metadata alone always fits a buffer of the table. *)
Theorem message_spans `{!RecvmsgOk} c control size l m :
  recvmsg_layout control size = inr l → (0 ≤ control)%Z → (∀ h, recvmsg_validate (ck_offset c, ck_bytes c) l = Some h → header_ok h) →
  message_new c l = inr m →
  let whole := (ck_offset c, ck_bytes c) in
  (recvmsg_payload l ≤ size)%Z ∧ mg_storage m = c ∧
  inside (mg_name m) whole ∧ inside (mg_control m) whole ∧ inside (mg_bytes m) whole ∧
  ((mg_name m).1 + (mg_name m).2 ≤ (mg_control m).1)%Z ∧ ((mg_control m).1 + (mg_control m).2 ≤ (mg_bytes m).1)%Z ∧
  ((mg_bytes m).2 ≤ mg_wire_size m)%Z.
Proof.
  intros Hl Hc Hh Hm. unfold recvmsg_layout in Hl. case_bool_decide as Hs; [done|]. injection Hl as <-.
  unfold message_new in Hm. destruct (recvmsg_validate _ _) as [h|] eqn:Hv; [|done]. injection Hm as <-.
  destruct (Hh h eq_refl) as (H1&H2&H3). pose proof (recvmsg_fits _ _ _ Hv) as Hf. simpl in Hf.
  pose proof (recvmsg_rest _ _ Hf) as Hr. pose proof (recvmsg_payload_at (Layout sizeof_storage control)) as Hp.
  pose proof recvmsg_name_at as Hn. unfold inside, sizeof_storage, sizeof_header in *. simpl in *. rewrite Hr, Hp, Hn in *.
  split_and!; try done; lia.
Qed.
End message.

(** ** Bundled receives *)
Section bundle.
Variable fn : user.
Local Abbreviation M := (Prelude.M rx).

(** [if (res > 0 && !request.stopped && !std::invoke(ctx.fn, std::move(chunk))) request.stop();]
    over the chunks of a bundle: what the user's function was given, and [stopped] *)
Definition bundle_next (wants : bool) (st : list chunk * bool) (c : chunk) : list chunk * bool :=
  if wants && negb st.2 then (st.1 ++ [c], bool_decide (d_throw (fn st.1 c).1 = None) && negb (fn st.1 c).2) else st.
(** The lambda [consume]: a chunk that is not given to the function is returned *)
Definition bundle_fn (wants : bool) (st : list chunk * bool) : consumer := λ seen c,
  let st := foldl (bundle_next wants) st seen in
  if wants && negb st.2 then (fn st.1 c).1 else Decision [] false None.
(** The consumer of [receive] with bundles *)
Definition bundle_consume (res flags : Z) : M unit :=
  if has_buffer flags then
    s ← get;
    let wants := positive res in
    let st := (rx_log s, st_stopped (rx_stream s)) in
    '(failure, seen) ← on_table (each_all flags (Z.max res 0) (bundle_fn wants st));
    let st' := foldl (bundle_next wants) st seen in
    modify (set_log st'.1) ;;
    when (st'.2 && negb st.2) stream_stop ;;
    match failure with Some e => throw e | None => mret tt end
  else if positive res then throw (runtime_error "multishot missing buffer ID") else mret tt.

(** The stream after a bundle whose function has not thrown. *)
Definition stopped_to (v : stream) (b : bool) : stream := if b && negb (st_stopped v) then stop_of v else v.
Lemma stopped_to_stopped v b : (st_stopped v = true → b = true) → st_stopped (stopped_to v b) = b.
Proof. unfold stopped_to. destruct b, (st_stopped v) eqn:E; simpl; naive_solver. Qed.
Lemma bundle_next_stopped wants st cs : st.2 = true → (foldl (bundle_next wants) st cs).2 = true.
Proof.
  revert st. induction cs as [|c cs IH]; intros st H; simpl; [done|]. apply IH. unfold bundle_next. by rewrite H, andb_false_r.
Qed.
Local Abbreviation feed := (Stream.feed positive (λ _, true) fn).
(** Chunks that come after the function has thrown go back. *)
Lemma feed_failed res f e cs : ∀ log v lg T,
  st_stopped v = true → foldl (feed res) (Seen v lg T) cs = Seen v lg (settle_chunks f (Some e) log T cs).
Proof.
  induction cs as [|c cs IH]; intros log v lg T Hs; simpl; [done|]. rewrite Hs, andb_false_r. by apply IH.
Qed.
(** The chunks of a bundle one by one, and through [each]. *)
Lemma bundle_feed res v st0 cs : ∀ pre T,
  st0.2 = st_stopped v →
  let f := bundle_fn (positive res) st0 in
  let st := foldl (bundle_next (positive res)) st0 pre in
  let r := consumed f None pre cs in
  let st' := foldl (bundle_next (positive res)) st0 r.2 in
  foldl (feed res) (Seen (stopped_to v st.2) st.1 T) cs =
    Seen (match r.1 with Some e => fails_with e (stopped_to v st'.2) | None => stopped_to v st'.2 end) st'.1 (settle_chunks f None pre T cs).
Proof.
  induction cs as [|c cs IH]; intros pre T H0 f st; simpl; [done|].
  assert (st_stopped (stopped_to v st.2) = st.2) as Hst.
  { apply stopped_to_stopped. rewrite <- H0. intros. by apply bundle_next_stopped. }
  pose proof (foldl_app (bundle_next (positive res)) pre [c] st0) as Hn. fold st in Hn. simpl in Hn.
  unfold bundle_next at 2 in Hn. specialize (IH (pre ++ [c])). cbv zeta in IH. rewrite Hn in IH.
  assert (f pre c = if positive res && negb st.2 then (fn st.1 c).1 else Decision [] false None) as Hf by done.
  rewrite Hst, Hf. clear Hf.
  destruct (positive res && negb st.2) eqn:Hw; cbn [d_throw]; [|rewrite IH by done; done].
  apply andb_true_iff in Hw as [_ Hns%negb_true_iff]. rewrite Hns in *.
  unfold answered. destruct (d_throw (fn st.1 c).1) as [e|] eqn:Ht.
  - rewrite (feed_failed _ f e _ (pre ++ [c])) by done. rewrite consumed_failed. simpl. rewrite Hn.
    by rewrite bool_decide_false.
  - rewrite bool_decide_true in IH by done. simpl in IH. rewrite <- IH by done. f_equal. f_equal.
    unfold stopped_to. rewrite <- H0. destruct (fn st.1 c).2; simpl; [done|].
    destruct (st0.2) eqn:E0; [|done]. exfalso. pose proof (bundle_next_stopped (positive res) st0 pre E0). fold st in H. congruence.
Qed.

(** The consumer of bundles keeps the promise of [Stream.Consumer]: a completion that
    fills several buffers is the same as its buffers given one by one. *)
#[global] Instance bundle_consumer :
  Consumer positive "multishot missing buffer ID" (λ _, true) fn bundle_consume parts.
Proof.
  intros res flags ids rest p T v log I Hc. unfold stream_result. apply post_nothrow, post_bind, post_modify.
  unfold set_stream; cbn [rx_table rx_stream rx_log]. set (v1 := outcome_in res v).
  apply post_try_catch. unfold bundle_consume, completion in *. destruct (has_buffer flags) eqn:Hb.
  - destruct Hc as (Hf&Hid&Hlen&Hsz). destruct ids as [|id ids]; [done|]. injection Hid as ->.
    apply post_bind. unfold post at 1, get. cbn [rx_log rx_stream]. set (st := (log, st_stopped v1)).
    apply post_bind, post_on_table. cbn [rx_table rx_stream rx_log].
    eapply post_mono; [by apply (each_all_spec p T (buffer_of flags) ids rest flags _ _ I Hf Hb eq_refl)| |done].
    set (cs := cut (pv_size p) (Z.max res 0) (buffer_of flags :: ids)). intros r p' (HI&HS&Hr).
    pose proof (bundle_feed res v1 st cs [] T eq_refl) as Hfeed. cbv zeta in Hfeed. rewrite <- Hr in Hfeed.
    change (stopped_to v1 (foldl (bundle_next (positive res)) st []).2) with (stopped_to v1 (st_stopped v1)) in Hfeed.
    assert (stopped_to v1 (st_stopped v1) = v1) as E1 by (unfold stopped_to; by destruct (st_stopped v1)).
    rewrite E1 in Hfeed. change (served _ _ _ _ _ _ cs) with (foldl (feed res) (Seen v1 log T) cs).
    cbn [foldl fst st] in Hfeed. fold st in Hfeed. rewrite Hfeed. destruct r as [failure seen]. cbn [fst snd] in *.
    set (st' := foldl (bundle_next (positive res)) st seen). apply post_bind, post_modify. cbn [set_log rx_table rx_stream rx_log].
    apply post_bind. apply (post_mono _ _ (λ _ (s1 : rx), s1 = Rx p' (stopped_to v1 st'.2) st'.1) _ (λ _ _, False)); [| |done].
    { unfold stopped_to. change st.2 with (st_stopped v1). by destruct (st'.2 && negb (st_stopped v1)). }
    intros _ ? ->. destruct failure as [e|]; [by apply post_throw, post_bind, post_modify, post_modify|by apply post_ret].
  - subst ids. cbn [cut served]. fold v1. destruct (positive res); [by apply post_throw, post_bind, post_modify, post_modify|by apply post_ret].
Qed.
End bundle.
