(* ===== verification/Receive.v ===== *)
(** * The multishot receive tasks (include/snowy/uring.hpp)

    [receive] and [recvmsg] bind a stream to the table of buffers, let the consumer work
    through its completions, and arm another one when the kernel has ended it for want of
    buffers.  The task is given what happens while it is suspended: completions, chunks
    that other code destroys, and what ends its waits for a buffer.  The loop is proved
    against the promise of [Stream.Consumer], which both decoders keep. *)
From S2P Require Import Prelude Uring Provided Stream Multi.
Local Abbreviation M := (M rx).
Implicit Types (s : rx) (p : provided) (T : table) (c : chunk) (res : Z) (v : stream) (log : list chunk).

(** ** What happens while the task is suspended *)

(** [n] bytes have arrived, [low] being the low half of the flags; a completion without a
    buffer; other code destroys the chunk of a buffer *)
Inductive rx_event := ev_got (n low : Z) | ev_plain (res : Z) | ev_return (id : nat).
(** How [co_await request] begins: the request is submitted; a stop has been requested
    already; the direction of the socket is in use; the thread is the wrong one or the
    submission fails *)
Inductive start := s_armed | s_stopped | s_busy | s_throws (e : exn).
(** The start of one request, its events, and those that end each wait for a buffer: chunks
    are destroyed, or the wait is canceled *)
Record round := Round { rd_start : start; rd_events : list rx_event; rd_waits : list (option (list nat)) }.

(** [stream::stream(loop&, ..., provided* table, ...)] and [~stream()]: the pin of the table *)
Definition pin_table (n : nat) p : provided :=
  Provided (pv_here p) (pv_count p) (pv_size p) (pv_leases p) n (pv_held p) (pv_next p) (pv_tail p) (pv_returned p) (pv_ring p).
Definition stream_new (same_loop : bool) : M unit :=
  if negb same_loop then throw (invalid_argument "provided buffers belong to another loop") else
    on_table (modify (λ p, pin_table (S (pv_active p)) p)) ;;
    modify (set_stream new_stream).
Definition stream_destroy (active : bool) : M unit :=
  if active then terminate else on_table (modify (λ p, pin_table (pred (pv_active p)) p)).

(** [task<> provided::available(std::stop_token token)]: whether it returns or is still
    suspended *)
Fixpoint await_available (waits : list (option (list nat))) : Prelude.M provided bool :=
  p ← get;
  match available p with
  | None => mret true
  | Some p' =>
      modify (λ _, p') ;;
      match waits with
      | [] => mret false
      | None :: _ => throw (system_error operation_canceled)
      | Some ids :: waits' => for_each lease_release ids ;; await_available waits'
      end
  end.

(** [arm] on a stopped loop or token *)
Definition refused_in (v : stream) : stream := Stream (Some operation_canceled) (st_bytes v) (st_stopped v) (st_failure v).

Section rearm.
Variables (consume : Z → Z → M unit) (spans : Z → Z → Z) (ends : stream → bool).

(** The kernel takes the oldest published buffers, or finds too few. *)
Definition kernel_event (ev : rx_event) : M unit :=
  match ev with
  | ev_got n low =>
      s ← get;
      let p := rx_table s in
      let k := Z.to_nat (spans (Z.max n 0) (pv_size p)) in
      match take k (pv_ring p) with
      | id :: _ =>
          if bool_decide (k ≤ length (pv_ring p))
          then on_table (modify (pick k)) ;; stream_result consume n (bundle_flags low id)
          else stream_result consume (- ENOBUFS) 0
      | [] => stream_result consume (- ENOBUFS) 0
      end
  | ev_plain res => stream_result consume res 0
  | ev_return id => on_table (lease_release id)
  end.
(** [co_await request]: what it throws, if anything *)
Definition direction_in_use : exn := logic_error "socket direction already in use".
Definition await_request (r : round) : M (option exn) :=
  match rd_start r with
  | s_armed => for_each kernel_event (rd_events r) ;; s ← get; mret (resumed (rx_stream s))
  | s_stopped =>
      modify (λ s, set_stream (refused_in (rx_stream s)) s) ;; s ← get; mret (resumed (rx_stream s))
  | s_busy => mret (Some direction_in_use)
  | s_throws e => mret (Some e)
  end.
(** The loop of [receive] and [recvmsg]; [None] is a task that is still suspended *)
Fixpoint rearm (same_loop : bool) (rounds : list round) : M (option verdict) :=
  made ← try_catch (stream_new same_loop ;; mret None) (λ e, mret (Some e));
  match made with
  | Some e => mret (Some (v_throw e))
  | None =>
      match rounds with
      | [] => mret None
      | r :: rounds' =>
          thrown ← await_request r;
          s ← get;
          match rearm_end ends thrown (rx_stream s) with
          | v_again =>
              w ← try_catch (b ← on_table (await_available (rd_waits r)); mret (inl b)) (λ e, mret (inr e));
              match w with
              | inl true => stream_destroy false ;; rearm same_loop rounds'
              | inl false => mret None
              | inr e => stream_destroy false ;; mret (Some (v_throw e))
              end
          | verdict => stream_destroy false ;; mret (Some verdict)
          end
      end
  end.
End rearm.
(** [task<> receive(...)] and [task<> recvmsg(...)] *)
Definition receive (bundle : bool) (fn : user) : bool → list round → M (option verdict) :=
  if bundle then rearm (bundle_consume fn) parts at_eof else rearm (receive_consume fn) (λ _ _, 1%Z) at_eof.
Definition recvmsg (valid : chunk → bool) (fn : user) : bool → list round → M (option verdict) :=
  rearm (recvmsg_consume valid fn) (λ _ _, 1%Z) (λ _, false).

(** ** The reference: a queue of buffers *)
Inductive wait_end := w_ready | w_canceled | w_suspended.
Fixpoint t_wait (count : nat) (waits : list (option (list nat))) T : wait_end * table :=
  if bool_decide (length (t_held T) = count) then
    match waits with
    | [] => (w_suspended, T)
    | None :: _ => (w_canceled, T)
    | Some ids :: waits' => t_wait count waits' (t_returns ids T)
    end
  else (w_ready, T).
Section reference.
Variables (wants : Z → bool) (missing : string) (build : chunk → bool) (fn : user).
Variables (spans : Z → Z → Z) (finish : stream → verdict) (count : nat) (B : Z).
Definition absorb (x : seen) (ev : rx_event) : seen :=
  let '(Seen v log T) := x in
  match ev with
  | ev_got n _ =>
      let k := Z.to_nat (spans (Z.max n 0) B) in
      if bool_decide (k ≤ length (t_ring T))
      then served wants missing build fn (Seen v log (Table (t_held T) (drop k (t_ring T)))) n (cut B (Z.max n 0) (take k (t_ring T)))
      else served wants missing build fn x (- ENOBUFS) []
  | ev_plain res => served wants missing build fn x res []
  | ev_return id => Seen v log (t_return id T)
  end.
(** What the first exception of a request's start leads to: it leaves the task, but for the
    code that asks for another request, which is handled like the end of one. *)
Definition start_verdict (st : start) (v : stream) : verdict :=
  match st with
  | s_armed => finish v
  | s_stopped => v_throw (system_error operation_canceled)
  | s_busy => v_throw direction_in_use
  | s_throws e => if bool_decide (e = system_error (native_error ENOBUFS)) then finish v else v_throw e
  end.
Definition begun (st : start) (evs : list rx_event) log T : seen :=
  match st with
  | s_armed => foldl absorb (Seen new_stream log T) evs
  | s_stopped => Seen (refused_in new_stream) log T
  | _ => Seen new_stream log T
  end.
Fixpoint replay log T (rounds : list round) : option verdict * seen :=
  match rounds with
  | [] => (None, Seen new_stream log T)
  | r :: rounds' =>
      let x := begun (rd_start r) (rd_events r) log T in
      match start_verdict (rd_start r) (sn_stream x) with
      | v_again =>
          match t_wait count (rd_waits r) (sn_table x) with
          | (w_ready, T') => replay (sn_log x) T' rounds'
          | (w_canceled, T') => (Some (v_throw (system_error operation_canceled)), Seen (sn_stream x) (sn_log x) T')
          | (w_suspended, T') => (None, Seen (sn_stream x) (sn_log x) T')
          end
      | verdict => (Some verdict, x)
      end
  end.
(** What the kernel promises of the bytes it reports. *)
Definition plausible (ev : rx_event) : Prop :=
  match ev with
  | ev_got n low => (0 ≤ low)%Z ∧ has_buffer low = true ∧ (0 < spans (Z.max n 0) B)%Z ∧ (Z.max n 0 ≤ B * spans (Z.max n 0) B)%Z
  | _ => True
  end.
End reference.

(** ** Refinement *)
Lemma pin_table_inv n p T picked : TInv p T picked → TInv (pin_table n p) T picked.
Proof. intros [[H1 H2 H3 H4 H5 H6 H7 H8] Hr]. split; [|done]. by split. Qed.
Lemma available_inv p p' T picked : available p = Some p' → TInv p T picked → TInv p' T picked ∧ steady p p'.
Proof.
  unfold available. case_bool_decide; [|done]. intros [= <-] [[H1 H2 H3 H4 H5 H6 H7 H8] Hr]. split; [|done]. split; [|done]. by split.
Qed.
Lemma await_available_spec waits : ∀ p T,
  TInv p T [] →
  post (await_available waits) p
    (λ b p', TInv p' (t_wait (pv_count p) waits T).2 [] ∧ steady p p' ∧ (t_wait (pv_count p) waits T).1 = if b then w_ready else w_suspended)
    (λ e p', TInv p' (t_wait (pv_count p) waits T).2 [] ∧ steady p p' ∧ (t_wait (pv_count p) waits T).1 = w_canceled ∧ e = system_error operation_canceled).
Proof.
  induction waits as [|[ids|] waits IH]; intros p T I; cbn [await_available t_wait]; apply post_bind; unfold post at 1, get;
    rewrite <- (pi_leases _ _ _ (proj1 I));
    (destruct (available p) as [p'|] eqn:Ha;
      [destruct (available_inv _ _ _ _ Ha I) as [I' S']; apply post_bind, post_modify|apply post_ret]);
    unfold available in Ha; case_bool_decide; try done.
  apply post_bind. eapply post_mono; [by apply (releases_spec ids _ _ _ I')| |done]. intros [] p1 [I1 S1].
  assert (steady p p1) as S by (by etrans). assert (pv_count p1 = pv_count p) as Ec by apply S.
  eapply post_mono; [apply (IH p1 _ I1)| |]; rewrite Ec.
  - intros b p2 (?&?&?). split_and!; [done|by etrans|done].
  - intros e p2 (?&?&?&?). split_and!; [done|by etrans|done|done].
Qed.

Section refinement.
Context {wants : Z → bool} {missing : string} {build : chunk → bool} {fn : user} {consume : Z → Z → M unit} {spans : Z → Z → Z}.
Context `{!Consumer wants missing build fn consume spans}.
Local Abbreviation absorb := (absorb wants missing build fn spans).
(** The state of the model and of the reference agree. *)
Definition agrees (x : seen) (p0 : provided) s : Prop :=
  rx_stream s = sn_stream x ∧ rx_log s = sn_log x ∧ TInv (rx_table s) (sn_table x) [] ∧ steady p0 (rx_table s).

Lemma kernel_event_spec ev x p0 s :
  agrees x p0 s → plausible spans (pv_size p0) ev → runs (kernel_event consume spans ev) s (λ _ s', agrees (absorb (pv_size p0) x ev) p0 s').
Proof.
  intros (Ev&El&I&St) Hev. destruct x as [v log T], s as [p v' log']; cbn [rx_stream rx_log rx_table sn_stream sn_log sn_table] in *. subst v' log'.
  assert (pv_size p = pv_size p0) as EB by apply St.
  assert (∀ ids rest (p : provided) T res flags, TInv p T (ids ++ rest) → steady p0 p → completion spans (pv_size p) res flags ids → rest = [] →
    runs (stream_result consume res flags) (Rx p v log) (λ _ s', agrees (served wants missing build fn (Seen v log T) res (cut (pv_size p0) (Z.max res 0) ids)) p0 s')) as Hserve.
  { intros ids rest q T' res flags I' S' Hc ->. eapply post_mono; [by apply (consumer_spec wants missing build fn res flags ids [] q T' v log I')| |done].
    assert (pv_size q = pv_size p0) as -> by apply S'. intros [] s' (?&?&?&?). split_and!; [done..|by etrans]. }
  destruct ev as [n low|res|id]; cbn [kernel_event Receive.absorb].
  - apply post_bind. unfold post at 1, get. cbn [rx_table]. rewrite EB. destruct Hev as (Hlow&Hbit&Hpos&Hfit).
    set (k := Z.to_nat (spans (Z.max n 0) (pv_size p0))). rewrite (proj2 I). case_bool_decide as Hk.
    + destruct (take k (t_ring T)) as [|id ids] eqn:Ht.
      { exfalso. apply (f_equal length) in Ht. rewrite length_take in Ht. simpl in Ht. lia. }
      apply post_bind, post_on_table, post_modify. cbn [rx_table rx_stream rx_log].
      apply (Hserve (id :: ids) []); [|done| |done].
      * destruct I as [I Hr]. rewrite app_nil_r, <- Ht. split; [|by simpl; rewrite Hr]. rewrite <- Hr. apply (pick_inv k p (t_held T) [] I).
      * unfold completion, has_buffer. rewrite bundle_flags_bit. unfold has_buffer in Hbit. rewrite Hbit. cbn [pick pv_size]. rewrite EB.
        assert (length (id :: ids) = k) as Hlen by (rewrite <- Ht, length_take; lia).
        assert (Z.of_nat k = spans (Z.max n 0) (pv_size p0)) as Ek by lia. rewrite Hlen, Ek. split_and!; [|by unfold buffer_of; rewrite bundle_flags_id|done|done].
        unfold bundle_flags. apply Z.lor_nonneg. split; [apply Z.land_nonneg; lia|]. apply Z.shiftl_nonneg. lia.
    + assert (runs (stream_result consume (- ENOBUFS) 0) (Rx p v log)
        (λ _ s', agrees (served wants missing build fn (Seen v log T) (- ENOBUFS) []) p0 s')) as Hno by (by apply (Hserve [] [])).
      by destruct (take k (t_ring T)).
  - by apply (Hserve [] []).
  - apply post_on_table. eapply post_mono; [by apply (lease_release_spec _ _ _ id I)| |done].
    intros [] p' [I' S']. split_and!; [done..|by etrans].
Qed.
Lemma kernel_events_spec evs p0 : ∀ x s,
  agrees x p0 s → Forall (plausible spans (pv_size p0)) evs →
  runs (for_each (kernel_event consume spans) evs) s (λ _ s', agrees (foldl (absorb (pv_size p0)) x evs) p0 s').
Proof.
  induction evs as [|ev evs IH]; intros x s A Hp; [by apply post_ret|]. apply Forall_cons in Hp as [Hp1 Hp].
  apply post_bind. eapply post_mono; [by apply (kernel_event_spec ev x p0 s)| |done]. intros [] s' A'. by apply IH.
Qed.

(** The pins of a table: one for a task that is suspended, none for one that has ended. *)
Definition task_pins (r : option verdict) : nat := match r with None => 1 | Some _ => 0 end.
Section rearm_spec.
Variables (ends : stream → bool) (finish : stream → verdict).
Hypothesis finish_is : ∀ v, rearm_end ends (resumed v) v = finish v.
Lemma await_request_spec r log T p0 s :
  agrees (Seen new_stream log T) p0 s → Forall (plausible spans (pv_size p0)) (rd_events r) →
  runs (await_request consume spans r) s (λ thrown s',
    agrees (begun wants missing build fn spans (pv_size p0) (rd_start r) (rd_events r) log T) p0 s' ∧
    rearm_end ends thrown (rx_stream s') = start_verdict finish (rd_start r) (rx_stream s')).
Proof.
  intros A Hp. unfold await_request. destruct (rd_start r) as [| | |e]; cbn [begun start_verdict].
  - apply post_bind. eapply post_mono; [by apply (kernel_events_spec (rd_events r) p0 _ s A)| |done].
    intros [] s' A'. apply post_bind. unfold post at 1, get. by apply post_ret.
  - apply post_bind, post_modify, post_bind. unfold post at 1, get. apply post_ret. destruct A as (Ev&El&I&St).
    cbn [set_stream rx_stream rx_log rx_table]. rewrite Ev.
    split; [by split_and!|done].
  - by apply post_ret.
  - apply post_ret. split; [done|]. destruct A as (-> &_). rewrite <- finish_is. unfold rearm_end, caught. simpl.
    destruct e; try done. unfold no_buffers. case_bool_decide as H; [|by rewrite bool_decide_false by congruence]. subst. by rewrite bool_decide_true.
Qed.
Lemma rearm_spec rounds : ∀ p T v log,
  TInv p T [] → Forall (λ r, Forall (plausible spans (pv_size p)) (rd_events r)) rounds →
  runs (rearm consume spans ends true rounds) (Rx p v log) (λ r s',
    let w := replay wants missing build fn spans finish (pv_count p) (pv_size p) log T rounds in
    r = w.1 ∧ rx_stream s' = sn_stream w.2 ∧ rx_log s' = sn_log w.2 ∧ TInv (rx_table s') (sn_table w.2) [] ∧
    steady (pin_table (pv_active p + task_pins r) p) (rx_table s')).
Proof.
  induction rounds as [|r rounds IH]; intros p T v log I Hp; cbn [rearm replay].
  - apply post_bind, post_try_catch, post_bind, post_bind, post_on_table, post_modify, post_modify, post_ret, post_ret.
    cbn. split_and!; [done..|by apply pin_table_inv|]. by rewrite Nat.add_1_r.
  - apply Forall_cons in Hp as [Hp1 Hp].
    apply post_bind, post_try_catch, post_bind, post_bind, post_on_table, post_modify, post_modify, post_ret, post_bind.
    unfold set_stream; cbn [rx_table rx_stream rx_log]. set (p1 := pin_table (S (pv_active p)) p).
    eapply post_mono; [apply (await_request_spec r log T p1); [|done]| |done].
    { split_and!; [done|done| |done]. by apply pin_table_inv. }
    change (pv_size p1) with (pv_size p). set (x := begun _ _ _ _ _ _ _ _ _ _). intros thrown [p2 v2 log2] ((Ev&El&I2&S2)&Hthrown).
    cbn [rx_table rx_stream rx_log] in *. subst v2 log2. apply post_bind. unfold post at 1, get. cbn [rx_stream]. rewrite Hthrown.
    assert (∀ p', steady p1 p' → steady (pin_table (pv_active p + 0) p) (pin_table (pred (pv_active p')) p')) as Hunpin.
    { intros p' (?&?&Ha). split_and!; [done|done|]. cbn. rewrite Ha. cbn. lia. }
    assert (∀ V, runs (stream_destroy false ;; mret (Some V)) (Rx p2 (sn_stream x) (sn_log x)) (λ r s',
      r = Some V ∧ rx_stream s' = sn_stream x ∧ rx_log s' = sn_log x ∧ TInv (rx_table s') (sn_table x) [] ∧
      steady (pin_table (pv_active p + task_pins r) p) (rx_table s'))) as Hend.
    { intros V. apply post_bind, post_on_table, post_modify, post_ret. cbn [rx_table rx_stream rx_log].
      split_and!; [done|done|done|by apply pin_table_inv|by apply (Hunpin p2)]. }
    destruct (start_verdict finish (rd_start r) (sn_stream x)) as [|e|]; [by apply Hend|by apply Hend|]. clear Hend.
    apply post_bind, post_try_catch, post_bind, post_on_table. cbn [rx_table].
    assert (pv_count p2 = pv_count p) as Ec by apply S2. assert (pv_size p2 = pv_size p) as Es by apply S2.
    eapply post_mono; [apply (await_available_spec (rd_waits r) p2 (sn_table x) I2)| |]; rewrite Ec.
    + intros b p3 (I3&S3&Hw). apply post_ret. destruct (t_wait _ _ _) as [w T']; cbn [fst snd] in *. subst w.
      assert (steady p1 p3) as S13 by (by etrans). destruct b.
      * apply post_bind, post_on_table, post_modify. cbn [rx_table rx_stream rx_log].
        set (p4 := pin_table (pred (pv_active p3)) p3). assert (pv_count p4 = pv_count p ∧ pv_size p4 = pv_size p ∧ pv_active p4 = pv_active p) as (Hc4&Hs4&Ha4).
        { rewrite <- (Nat.add_0_r (pv_active p)). exact (Hunpin p3 S13). } assert (TInv p4 T' []) as I4 by (by apply pin_table_inv). clearbody p4.
        eapply post_mono; [apply (IH p4 T' (sn_stream x) (sn_log x) I4); by rewrite Hs4| |done].
        rewrite Hc4, Hs4. intros r' s' (?&?&?&?&Hst). split_and!; [done..|]. destruct Hst as (?&?&Ha). cbn in *. split_and!; cbn; lia.
      * apply post_ret. cbn. split_and!; [done|done|done|done|]. rewrite Nat.add_1_r. exact S13.
    + intros e p3 (I3&S3&Hw&->). apply post_ret. destruct (t_wait _ _ _) as [w T']; cbn [fst snd] in *. subst w.
      apply post_bind, post_on_table, post_modify, post_ret. cbn. split_and!; [done|done|done|by apply pin_table_inv|].
      apply (Hunpin p3). by etrans.
Qed.
End rearm_spec.
End refinement.

(** ** What the user's function sees *)
Section outcome.
Variable fn : user.
Definition wants_more log c : bool := (fn log c).2 && bool_decide (d_throw (fn log c).1 = None).
Definition turns_down log c : Prop := (fn log c).2 = false ∧ d_throw (fn log c).1 = None.
Fixpoint all_go log (cs : list chunk) : Prop :=
  match cs with [] => True | c :: cs' => wants_more log c = true ∧ all_go (log ++ [c]) cs' end.
Lemma all_go_snoc log cs c : all_go log cs → wants_more (log ++ cs) c = true → all_go log (cs ++ [c]).
Proof.
  revert log. induction cs as [|d cs IH]; intros log; simpl; [by rewrite app_nil_r|]. intros [? H] Hc. split; [done|].
  apply IH; [done|]. by rewrite <- app_assoc.
Qed.
(** The function has gone on at every chunk but the last; a stream that has stopped has a
    reason. *)
Inductive lawful log (v : stream) : list chunk → Prop :=
| lw_going cs : all_go log cs → st_stopped v = false → st_failure v = None → lawful log v (log ++ cs)
| lw_broken cs text : all_go log cs → st_stopped v = true → st_failure v = Some (runtime_error text) → lawful log v (log ++ cs)
| lw_declined cs c : all_go log cs → turns_down (log ++ cs) c → st_stopped v = true →
    (st_failure v = None ∨ ∃ text, st_failure v = Some (runtime_error text)) → lawful log v (log ++ cs ++ [c])
| lw_threw cs c e : all_go log cs → d_throw (fn (log ++ cs) c).1 = Some e → st_stopped v = true → st_failure v = Some e →
    lawful log v (log ++ cs ++ [c]).
Hint Constructors lawful : core.

Lemma lawful_same log v v' l : st_stopped v' = st_stopped v → st_failure v' = st_failure v → lawful log v l → lawful log v' l.
Proof. intros Es Ef [cs H1 H2 H3|cs text H1 H2 H3|cs c H1 H2 H3 H4|cs c e H1 H2 H3 H4]; rewrite <- ?Es, <- ?Ef in *; eauto. Qed.
Lemma lawful_broken log v l text : lawful log v l → lawful log (fails_with (runtime_error text) v) l.
Proof.
  intros [cs H1 H2 H3|cs text' H1 H2 H3|cs c H1 H2 H3 H4|cs c e H1 H2 H3 H4].
  - eapply lw_broken; [done|done|]. simpl. by rewrite H3.
  - eapply lw_broken; [done|done|]. simpl. by rewrite H3.
  - eapply lw_declined; [done|done|done|]. simpl. right. destruct H4 as [->|[text' ->]]; simpl; by eexists.
  - eapply lw_threw; [done|done|done|]. simpl. by rewrite H4.
Qed.
Lemma lawful_given log v l c : lawful log v l → st_stopped v = false → lawful log (answered (fn l c) v) (l ++ [c]).
Proof.
  intros [cs H1 H2 H3|cs text H1 H2 H3|cs d H1 H2 H3 H4|cs d e H1 H2 H3 H4] Hs; try congruence. rewrite <- app_assoc.
  unfold answered. destruct (d_throw (fn (log ++ cs) c).1) as [e|] eqn:Ht.
  { eapply lw_threw; [done|done|done|]. simpl. by rewrite H3. }
  destruct (fn (log ++ cs) c).2 eqn:Hg; [|by eapply lw_declined; auto].
  apply lw_going; [|done|done]. apply all_go_snoc; [done|]. unfold wants_more. rewrite Hg, Ht. done.
Qed.

Section trace.
Variables (wants : Z → bool) (missing : string) (build : chunk → bool) (spans : Z → Z → Z) (B : Z).
Definition seen_lawful log (x : seen) : Prop := lawful log (sn_stream x) (sn_log x).
Lemma feed_lawful log res x c : seen_lawful log x → seen_lawful log (feed wants build fn res x c).
Proof.
  destruct x as [v l T]. unfold seen_lawful, feed. simpl. intros H. destruct (wants res && negb (st_stopped v)) eqn:Hw; [|done].
  apply andb_true_iff in Hw as [_ Hs%negb_true_iff]. destruct (build c); simpl; [by apply lawful_given|by apply lawful_broken].
Qed.
Lemma feeds_lawful log res cs : ∀ x, seen_lawful log x → seen_lawful log (foldl (feed wants build fn res) x cs).
Proof. induction cs as [|c cs IH]; intros x H; simpl; [done|]. by apply IH, feed_lawful. Qed.
Lemma served_lawful log x res cs : seen_lawful log x → seen_lawful log (served wants missing build fn x res cs).
Proof.
  destruct x as [v l T]. unfold seen_lawful, served. simpl. intros H. destruct (outcome_same res v) as [Es Ef].
  apply (lawful_same _ _ (outcome_in res v)) in H; [|done|done]. destruct cs as [|c cs]; [destruct (wants res); simpl; [by apply lawful_broken|done]|].
  by apply (feeds_lawful log res (c :: cs)).
Qed.
Lemma absorbs_lawful log evs : ∀ x, seen_lawful log x → seen_lawful log (foldl (absorb wants missing build fn spans B) x evs).
Proof.
  induction evs as [|ev evs IH]; intros x H; simpl; [done|]. apply IH. destruct x as [v l T].
  destruct ev as [n low|res|id]; cbn [absorb]; [case_bool_decide; by apply served_lawful|by apply served_lawful|done].
Qed.
(** The start of a request fails with an exception of its own. *)
Definition fails_to_start (r : round) (e : exn) : Prop :=
  (rd_start r = s_busy ∧ e = direction_in_use) ∨ rd_start r = s_throws e.
(** A task that goes on, or that ends for another reason than its stream *)
Definition untouched (v : stream) : Prop := st_stopped v = false ∧ st_failure v = None.
Lemma begun_lawful log cs T st evs : all_go log cs →
  seen_lawful log (begun wants missing build fn spans B st evs (log ++ cs) T).
Proof. intros Hcs. destruct st; cbn [begun]; [by apply absorbs_lawful, lw_going|by apply lw_going..]. Qed.
(** A round is followed by another only if the stream has neither stopped nor failed. *)
Lemma replay_lawful finish count log rounds : ∀ cs T,
  (∀ v, finish v = v_again → untouched v) → all_go log cs →
  let w := replay wants missing build fn spans finish count B (log ++ cs) T rounds in
  seen_lawful log w.2 ∧ match w.1 with
    | None => untouched (sn_stream w.2)
    | Some V => V ≠ v_again ∧ (V = finish (sn_stream w.2) ∨ (untouched (sn_stream w.2) ∧
        ∃ e, V = v_throw e ∧ (e = system_error operation_canceled ∨ ∃ r, r ∈ rounds ∧ fails_to_start r e)))
    end.
Proof.
  induction rounds as [|r rounds IH]; intros cs T Hf Hcs; cbn [replay]; [split; [by apply lw_going|done]|].
  set (x := begun _ _ _ _ _ _ _ _ _ _). assert (seen_lawful log x) as Hx by (by apply begun_lawful).
  assert (start_verdict finish (rd_start r) (sn_stream x) = finish (sn_stream x) ∨ (untouched (sn_stream x) ∧
    ∃ e, start_verdict finish (rd_start r) (sn_stream x) = v_throw e ∧ (e = system_error operation_canceled ∨ fails_to_start r e))) as HV.
  { unfold x, fails_to_start. destruct (rd_start r) as [| | |e]; cbn [begun start_verdict]; [by left|right; split; [done|]..|];
      [by eauto|by eauto 6|]. case_bool_decide; [by left|]. right. split; [done|]. by eauto 6. }
  destruct (start_verdict finish (rd_start r) (sn_stream x)) as [|e|] eqn:E; cbn [fst snd sn_stream].
  1,2: split; [done|]; split; [done|]; destruct HV as [->|(Hu&e'&HV&He)]; [by left|right; split; [done|]; exists e'; split; [done|]].
  1,2: destruct He as [->|?]; [by left|right; exists r; split; [by left|done]].
  destruct HV as [HV|(_&e&?&_)]; [|done]. destruct (Hf _ (eq_sym HV)) as [Hs Hfl].
  destruct (t_wait _ _ _) as [[] T']; [|split; cbn; [done|split; [done|right; split; [done|by eauto]]]|split; [done|done]].
  unfold seen_lawful in Hx. destruct Hx as [cs' H1 H2 H3|cs' text H1 H2 H3|cs' c H1 H2 H3 H4|cs' c e H1 H2 H3 H4]; try congruence.
  destruct (IH cs' T' Hf H1) as [Hl Hw]. split; [done|]. destruct (replay _ _ _ _ _ _ _ _ _ _ _).1 as [V|]; [|done].
  destruct Hw as [? [?|(?&e&?&[?|(r'&?&?)])]]; (split; [done|]); [by left|right; split; [done|]; by eauto|].
  right. split; [done|]. exists e. split; [done|]. right. exists r'. split; [by right|done].
Qed.
End trace.

(** The end of a request as its user would tabulate it: a failure of the function comes
    first; then an error of the request, unless it is the cancellation the function has
    asked for or the want of buffers; then the end of the stream. *)
Definition expected_end (v : stream) : verdict :=
  match st_failure v, st_error v with
  | Some e, _ => v_throw e
  | None, None => if st_stopped v || bool_decide (st_bytes v = 0%Z) then v_return else v_again
  | None, Some code =>
      if bool_decide (code = native_error ENOBUFS) then if st_stopped v then v_return else v_again
      else if st_stopped v && bool_decide (code = operation_canceled) then v_return else v_throw (system_error code)
  end.
Lemma receive_end_expected v : receive_end v = expected_end v.
Proof.
  unfold receive_end, expected_end, rearm_end, resumed, caught, finished, at_eof, no_buffers.
  destruct (st_error v) as [e|], (st_failure v) as [f|], (st_stopped v); simpl; try done; repeat (case_bool_decide; simpl; try done); by subst.
Qed.
Lemma expected_again v : expected_end v = v_again → untouched v.
Proof. unfold expected_end, untouched. destruct (st_failure v), (st_error v), (st_stopped v); simpl; try done; by repeat case_bool_decide. Qed.

(** How the task ends, by what the function did at the last chunk it was given. *)
Inductive ending (rounds : list round) log (v : stream) (r : option verdict) : list chunk → Prop :=
| ended_threw cs c e : all_go log cs → d_throw (fn (log ++ cs) c).1 = Some e → r = Some (v_throw e) →
    ending rounds log v r (cs ++ [c])
| ended_declined cs c : all_go log cs → turns_down (log ++ cs) c →
    match st_failure v, st_error v with
    | Some e, _ => (∃ text, e = runtime_error text) ∧ r = Some (v_throw e)
    | None, Some code =>
        r = Some (if decide (code = operation_canceled ∨ code = native_error ENOBUFS) then v_return else v_throw (system_error code))
    | None, None => r = Some v_return
    end → ending rounds log v r (cs ++ [c])
| ended_going cs : all_go log cs →
    match r with
    | None => True
    | Some v_return => st_error v = None ∧ st_bytes v = 0%Z
    | Some (v_throw e) =>
        (∃ text, e = runtime_error text ∧ st_failure v = Some e) ∨
        (∃ code, e = system_error code ∧ st_error v = Some code ∧ code ≠ native_error ENOBUFS) ∨
        e = system_error operation_canceled ∨ (∃ r, r ∈ rounds ∧ fails_to_start r e)
    | Some v_again => False
    end → ending rounds log v r cs.

Lemma lawful_ending (rounds : list round) log v l r :
  lawful log v l → match r with
    | None => untouched v
    | Some V => V ≠ v_again ∧ (V = expected_end v ∨ (untouched v ∧
        ∃ e, V = v_throw e ∧ (e = system_error operation_canceled ∨ ∃ r, r ∈ rounds ∧ fails_to_start r e)))
    end → ∃ cs, l = log ++ cs ∧ ending rounds log v r cs.
Proof.
  unfold untouched, expected_end. intros Hl Hr.
  destruct Hl as [cs H1 H2 H3|cs text H1 H2 H3|cs c H1 H2 H3 H4|cs c e H1 H2 H3 H4]; eexists; (split; [done|]).
  - apply ended_going; [done|]. destruct r as [V|]; [|done]. rewrite H3, H2 in Hr. simpl in Hr.
    destruct Hr as [Hne [->|(_&e&->&He)]]; [|by destruct He as [->|?]; auto].
    destruct (st_error v) as [code|]; repeat case_bool_decide; eauto 6.
  - apply ended_going; [done|]. destruct r as [V|]; [|done]. rewrite H3, H2 in Hr. destruct Hr as [Hne [->|([? _]&_)]]; [|done]. eauto.
  - eapply ended_declined; [done|done|]. destruct r as [V|]; [|by destruct Hr; congruence].
    destruct Hr as [Hne [->|([? _]&_)]]; [|congruence]. rewrite H3. destruct H4 as [->|[text ->]]; [|by eauto].
    destruct (st_error v) as [code|]; simpl; [|done]. f_equal. case_bool_decide as Hn; [by rewrite decide_True by auto|].
    case_bool_decide as Hc; [by rewrite decide_True by auto|by rewrite decide_False by naive_solver].
  - eapply ended_threw; [done|done|]. destruct r as [V|]; [|by destruct Hr; congruence]. rewrite H4 in Hr.
    by destruct Hr as [Hne [->|([? _]&_)]]; [|congruence].
Qed.

End outcome.

(** C33: The multishot receive refines a queue of buffers: for every behaviour of the kernel,
    of the user's function and of the other code that holds chunks, the task gives the same
    chunks in the same order, ends in the same way and leaves the same buffers leased and
    the same buffers published, in that order, as the reference that takes buffers from the
    front of a queue and returns them at its end; a bundle is the same as its buffers one by
    one. *)
Theorem receive_refines (bundle : bool) fn p T v log rounds :
  let spans := if bundle then parts else λ _ _, 1%Z in
  TInv p T [] → Forall (λ r, Forall (plausible spans (pv_size p)) (rd_events r)) rounds →
  runs (receive bundle fn true rounds) (Rx p v log) (λ r s',
    let w := replay positive "multishot missing buffer ID" (λ _, true) fn spans receive_end (pv_count p) (pv_size p) log T rounds in
    r = w.1 ∧ rx_log s' = sn_log w.2 ∧ TInv (rx_table s') (sn_table w.2) []).
Proof.
  intros spans I Hp. unfold receive.
  destruct bundle; (eapply post_mono; [by apply (rearm_spec at_eof receive_end (λ _, eq_refl) rounds p T v log)| |done]); intros r s' (H1&_&H3&H4&_); by split_and!.
Qed.
(** The same holds of [recvmsg], whose messages may fail to decode. *)
Theorem recvmsg_refines valid fn p T v log rounds :
  TInv p T [] → Forall (λ r, Forall (plausible (λ _ _, 1%Z) (pv_size p)) (rd_events r)) rounds →
  runs (recvmsg valid fn true rounds) (Rx p v log) (λ r s',
    let w := replay nonnegative "recvmsg missing buffer ID" valid fn (λ _ _, 1%Z) recvmsg_end (pv_count p) (pv_size p) log T rounds in
    r = w.1 ∧ rx_log s' = sn_log w.2 ∧ TInv (rx_table s') (sn_table w.2) []).
Proof.
  intros I Hp. eapply post_mono; [by apply (rearm_spec (consume := recvmsg_consume valid fn) (λ _, false) recvmsg_end)| |done].
  intros r s' (H1&_&H3&H4&_). by split_and!.
Qed.
