(* ===== verification/ZcSend.v ===== *)
(** * Zero-copy sends (src/uring_net.cpp, [class zc_send] of include/snowy/uring.hpp)

    A zero-copy send has two barriers: [sent] is set by the primary completion, [released]
    when the kernel no longer references the buffer.  The first part builds the requests,
    the second one models the object and shows that it follows a small automaton. *)
From S2P Require Import Prelude ReadyQueue Links Heap Core Loop LoopInv LoopSpec Event Io Frame Uring UringSpec UringPoll Registered Hooks.

(** ** Requests *)
Section requests.
Local Abbreviation M := (M registry).
Implicit Types (y : loc) (e : sqe).
Definition IORING_RECVSEND_FIXED_BUF : Z := 4.
(** A connected socket: its loop, descriptor and write direction. *)
Record peer := Peer { pr_loop : loopid; pr_fd : Z; pr_writing : loc }.
(** [loop& access::owner(socket&)] and [access::direction(socket&, true)], after [socket::check] *)
Definition peer_check (p : peer) : M unit :=
  check_loop (pr_loop p) ;;
  if bool_decide (pr_fd p = -1)%Z then throw (logic_error "empty socket") else mret tt.
Definition access_owner (p : peer) : M loopid := peer_check p ;; mret (pr_loop p).
Definition access_direction (p : peer) : M loc := peer_check p ;; mret (pr_writing p).

(** [io_uring_sqe tx(socket&, std::span<const std::byte>)] *)
Definition tx (p : peer) (buf : nat) (size : Z) : M sqe :=
  if bool_decide (INT_MAX < size)%Z then throw (invalid_argument "send_zc size overflow")
  else mret (prepared (prep_send_zc (pr_fd p) buf size MSG_NOSIGNAL)).
(** [io_uring_sqe tx(socket&, buffers&, unsigned)]: the slot is narrowed to 16 bits *)
Definition fixed_slot (index : Z) e : sqe :=
  Sqe (sqe_prep e) (sqe_flags e) (Z.lor (sqe_ioprio e) IORING_RECVSEND_FIXED_BUF) (index mod 2 ^ 16) (sqe_data e).
Definition tx_fixed (p : peer) (table : loc) (index : Z) : M sqe :=
  r ← buffers_at table index;
  e ← tx p r.1 r.2;
  mret (fixed_slot index e).

(** [op send_zc(socket&, ...)], [op sendmsg_zc(socket&, const msghdr&)] *)
Definition send_zc y (p : peer) (buf : nat) (size : Z) : M unit :=
  L ← access_owner p;
  e ← tx p buf size;
  d ← access_direction p;
  uop_new y L e None None (Some d).
Definition send_zc_fixed y (p : peer) (table : loc) (index : Z) : M unit :=
  L ← access_owner p;
  e ← tx_fixed p table index;
  d ← access_direction p;
  uop_new y L e None (Some table) (Some d).
Definition sendmsg_zc y (p : peer) (message : nat) : M unit :=
  L ← access_owner p;
  d ← access_direction p;
  uop_new y L (prepared (prep_sendmsg_zc (pr_fd p) message MSG_NOSIGNAL)) None None (Some d).

(** [zc_send::zc_send(socket&, io_uring_sqe, std::stop_token, buffers* )] and the two public
    constructors, which prepare the entry first *)
Definition zc_new y (p : peer) e (table : option loc) (sent : loc) : M unit :=
  L ← access_owner p;
  d ← access_direction p;
  uop_new y L e None table (Some d) ;;
  u ← deref (λ s, g_ops s !! y);
  modify (λ s, set_g_ops (<[y := Uop (u_loop u) (u_sqe u) (u_files u) (u_buffers u) (u_direction u) (u_active u) (result_zc sent)]> (g_ops s)) s).
Definition zc_new_bytes y (p : peer) (buf : nat) (size : Z) (sent : loc) : M unit :=
  e ← tx p buf size; zc_new y p e None sent.
Definition zc_new_fixed y (p : peer) (table : loc) (index : Z) (sent : loc) : M unit :=
  e ← tx_fixed p table index; zc_new y p e (Some table) sent.
End requests.

(** ** The object *)

(** [class zc_send]: its request, its two events and [started_]; the loop and the direction
    flag it was built with *)
Record zc := Zc { z_op : loc; z_sent : loc; z_released : loc; z_started : loc; z_loop : loopid; z_busy : loc }.

Section zc.
Context {D : Type} `{!Driver D}.
Local Abbreviation M := (M (world D)).
(** [std::noop_coroutine()] *)
Definition noop : coro := 0.
Definition zc_settle (z : zc) : M unit := event_signal (z_sent z) ;; event_signal (z_released z).
(** [void zc_send::start()] *)
Definition zc_start (z : zc) : M unit :=
  check (z_loop z) ;;
  b ← the_flag (z_started z);
  if b : bool then throw (logic_error "zero-copy send already started") else
    upd_flag (z_started z) (λ _, true) ;;
    try_catch
      (pending ← io_await_suspend (z_op z) noop;
       when (negb pending) (zc_settle z))
      (λ e, zc_settle z ;; throw e).
(** [zc_send::awaiter]: [await_suspend] on its event awaiter [ready], and [await_resume] *)
Definition zc_await_suspend (z : zc) (ready : loc) (h : coro) : M bool :=
  zc_start z ;; awaiter_await_suspend ready h.
Definition zc_await_resume (z : zc) : M Z := io_await_resume (z_op z).
(** [event::awaiter zc_send::join()] *)
Definition zc_join (z : zc) : M (wait * awaiter) :=
  b ← the_flag (z_started z);
  if b : bool then mret (event_join (z_released z)) else throw (logic_error "zero-copy send not started").
End zc.

(** ** The automaton *)

(** What can be observed of a send: pending, its terminal completion seen, a cancellation
    outstanding, the two events, the outcome, and the direction flag with its reservation *)
Record zview := View { v_live : bool; v_done : bool; v_canceling : bool; v_sent : bool; v_released : bool;
                       v_error : option errc; v_bytes : Z; v_reserved : bool; v_busy : bool }.
Definition v_settle (v : zview) : zview :=
  if v_done v && negb (v_canceling v)
  then View false (v_done v) (v_canceling v) true true (v_error v) (v_bytes v) (v_reserved v) (v_busy v) else v.
Definition v_primary (res : Z) (v : zview) : zview :=
  View (v_live v) (v_done v) (v_canceling v) (v_sent v || bool_decide (0 ≤ res)%Z) (v_released v)
    (if bool_decide (res < 0)%Z then Some (generic_error (- res)) else v_error v)
    (if bool_decide (res < 0)%Z then v_bytes v else res) false (v_busy v && negb (v_reserved v)).
Definition v_set_done (b : bool) (v : zview) : zview :=
  View (v_live v) b (v_canceling v) (v_sent v) (v_released v) (v_error v) (v_bytes v) (v_reserved v) (v_busy v).
Definition v_set_canceling (b : bool) (v : zview) : zview :=
  View (v_live v) (v_done v) b (v_sent v) (v_released v) (v_error v) (v_bytes v) (v_reserved v) (v_busy v).
(** A completion of the request in a state in which the kernel posts it: one primary
    completion, then, if it announced more, the notification; and the completion of a
    cancellation that was sent *)
Definition v_step (c : cqe) (v : zview) : option zview :=
  if negb (v_live v) then None
  else if Z.testbit (cqe_data c) 0 then
    if v_canceling v then Some (v_settle (v_set_canceling false v)) else None
  else if v_done v || eqb (Z.testbit (cqe_flags c) CQE_F_NOTIF) (v_reserved v) then None
  else
    let v1 := v_set_done (negb (Z.testbit (cqe_flags c) CQE_F_MORE)) v in
    Some (v_settle (if Z.testbit (cqe_flags c) CQE_F_NOTIF then v1 else v_primary (cqe_res c) v1)).
Fixpoint v_steps (cs : list cqe) (v : zview) : option zview :=
  match cs with [] => Some v | c :: cs' => v_step c v ≫= v_steps cs' end.

(** The promises of the object in a state of the automaton: the buffer is released exactly
    when the request has been retired; [sent] is set before that only by a primary
    completion that succeeded; the direction is freed with the primary completion *)
Record promises (v : zview) : Prop := {
  pm_released : v_released v = negb (v_live v);
  pm_retired : v_live v = false → v_sent v = true ∧ v_done v = true ∧ v_canceling v = false;
  pm_sent : v_live v = true → v_sent v = true → v_reserved v = false ∧ v_error v = None;
  pm_error : v_live v = true → v_sent v = false → v_reserved v = false → is_Some (v_error v);
  pm_open : v_reserved v = true → v_error v = None;
  pm_busy : v_busy v = v_reserved v }.
#[local] Arguments Z.testbit : simpl never.
Lemma v_step_promises c v v' : promises v → v_step c v = Some v' → promises v'.
Proof.
  intros [P1 P2 P3 P4 P5 P6] H. unfold v_step in H. destruct v as [live dn cn sent rel err bytes res busy]. simpl in *.
  destruct live; [|done]. simpl in H. subst rel busy. destruct (Z.testbit (cqe_data c) 0).
  - destruct cn; [|done]. injection H as <-. unfold v_settle. simpl. destruct dn; split; simpl; naive_solver.
  - destruct dn; [done|]. simpl in H.
    destruct (Z.testbit (cqe_flags c) CQE_F_NOTIF), res, (Z.testbit (cqe_flags c) CQE_F_MORE), cn; simpl in H; try done;
      injection H as <-; (split; simpl; auto; intros;
        try (rewrite (P5 eq_refl) in *; assert (sent = false) as -> by (destruct sent; [by destruct (P3 eq_refl eq_refl)|done]));
        repeat case_bool_decide; simpl in *; try done; try lia; eauto).
Qed.
Lemma v_steps_promises cs v v' : promises v → v_steps cs v = Some v' → promises v'.
Proof.
  revert v. induction cs as [|c cs IH]; intros v P H; simpl in H; [by injection H as <-|].
  apply bind_Some in H as (v1&H1&H2). eapply IH; [by eapply v_step_promises|done].
Qed.

(** ** Refinement *)
Section refinement.
Context {K : Type} `{!Liburing K, !LiburingOk K}.
Variable consume : loc → Z → Z → M (world (driver K)) unit.
#[local] Existing Instance uring_driver.
Implicit Types (w : world (driver K)) (g : ghost) (x : loc) (L : loopid) (z : zc) (v : zview) (i : io) (o : op).

(** The object [z] in a world is in the state [v]. *)
Definition zc_io z v i : Prop :=
  io_result i = Some (result_zc (z_sent z)) ∧ io_retire i = Some (retire_zc (z_sent z) (z_released z)) ∧
  io_code i = op_native ∧ io_draining i = false ∧ io_busy i = Some (z_busy z) ∧
  io_done i = v_done v ∧ io_canceling i = v_canceling v ∧ io_bytes i = v_bytes v ∧ io_reserved i = v_reserved v.
Definition zc_op z v o : Prop :=
  op_owner o = z_loop z ∧ op_active o = v_live v ∧ op_error o = v_error v.
Record zc_at w ge z v : Prop := {
  za_inv : ∃ g, Inv ∅ w g;
  za_events : EInv w ge;
  za_op : ∃ o, w_ops w !! z_op z = Some o ∧ zc_op z v o;
  za_io : ∃ i, w_ios w !! z_op z = Some i ∧ zc_io z v i;
  za_loop : l_thread <$> w_loops w !! z_loop z = Some (w_thread w);
  za_flag : w_flags w !! z_busy z = Some (v_busy v);
  za_sent : event_is w (z_sent z) (z_loop z) (v_sent v);
  za_released : event_is w (z_released z) (z_loop z) (v_released v);
  za_distinct : z_sent z ≠ z_released z }.

Definition v_set_sent v : zview :=
  View (v_live v) (v_done v) (v_canceling v) true (v_released v) (v_error v) (v_bytes v) (v_reserved v) (v_busy v).
Definition v_both v : zview :=
  View (v_live v) (v_done v) (v_canceling v) true true (v_error v) (v_bytes v) (v_reserved v) (v_busy v).

(** Either event of the object can be set. *)
Lemma za_signal w ge z v e b :
  zc_at w ge z v → event_is w e (z_loop z) b → e = z_sent z ∨ e = z_released z →
  runs (event_signal e) w (λ _ w', w_flags w' = w_flags w ∧
    zc_at w' ge z (if decide (e = z_sent z) then v_set_sent v else
      View (v_live v) (v_done v) (v_canceling v) (v_sent v) true (v_error v) (v_bytes v) (v_reserved v) (v_busy v))).
Proof.
  intros [[g I] EI (o&Ho&Zo) (i&Hi&Zi) HL Hf Hs Hr Hne] (v0&Hv0&Hl0&_) He.
  destruct (w_loops w !! z_loop z) as [l|] eqn:Hl; [|done]. injection HL as HL.
  eapply post_mono; [apply (signal_other w g ge e v0 l I EI Hv0); [by rewrite Hl0|done]| |done].
  intros [] w' S. pose proof (signalled_is _ _ _ _ _ _ _ _ S Hv0 Hs) as Hs'. pose proof (signalled_is _ _ _ _ _ _ _ _ S Hv0 Hr) as Hr'.
  destruct S as [? ? S1 _ S2 S3 _ S4 S5]. specialize (S1 (z_op z) ltac:(eauto)). split; [done|].
  destruct He as [->| ->].
  - rewrite decide_True by done. rewrite decide_True in Hs' by done. rewrite decide_False in Hr' by done.
    split; rewrite ?S1, ?S2, ?S3, ?S4, ?S5, ?Hl; simpl; eauto.
  - rewrite decide_False by done. rewrite decide_False in Hs' by done. rewrite decide_True in Hr' by done.
    split; rewrite ?S1, ?S2, ?S3, ?S4, ?S5, ?Hl; simpl; eauto.
Qed.
Lemma za_settle w ge z v :
  zc_at w ge z v → runs (zc_settle z) w (λ _ w', w_flags w' = w_flags w ∧ zc_at w' ge z (v_both v)).
Proof.
  intros Z. apply post_bind. eapply post_mono; [apply (za_signal w ge z v _ _ Z (za_sent _ _ _ _ Z)); by left| |done].
  intros [] w1 [F1 Z1]. rewrite decide_True in Z1 by done.
  eapply post_mono; [apply (za_signal w1 ge z _ _ _ Z1 (za_released _ _ _ _ Z1)); by right| |done].
  intros [] w2 [F2 Z2]. rewrite decide_False in Z2 by (apply not_eq_sym, (za_distinct _ _ _ _ Z)). split; [congruence|done].
Qed.

(** The object's own records change; the events do not. *)
Lemma za_update w w' g' ge z v v' o' i' :
  zc_at w ge z v → Inv ∅ w' g' → same_events w w' → (∀ y, y ≠ z_op z → w_ops w' !! y = w_ops w !! y) →
  w_ops w' !! z_op z = Some o' → zc_op z v' o' → w_ios w' !! z_op z = Some i' → zc_io z v' i' →
  l_thread <$> w_loops w' !! z_loop z = l_thread <$> w_loops w !! z_loop z →
  w_flags w' !! z_busy z = Some (v_busy v') → v_sent v' = v_sent v → v_released v' = v_released v →
  zc_at w' ge z v'.
Proof.
  intros [[g I] EI (o&Ho&Zo) (i&Hi&Zi) HL Hf Hs Hr Hne] I' Ev Hops Ho' Zo' Hi' Zi' HL' Hf' Es Er.
  split; eauto.
  - eapply EInv_other; [exact EI|exact Ev|]. intros y Hy. apply Hops.
    apply not_eq_sym, (request_not_awaiter w g ge (z_op z) y I EI); eauto.
  - destruct Ev as (_&_&_&_&->). by rewrite HL'.
  - rewrite Es. destruct Ev as (Ev&_). unfold event_is. by rewrite Ev.
  - rewrite Er. destruct Ev as (Ev&_). unfold event_is. by rewrite Ev.
Qed.
Lemma za_upd_io w ge z v v' f (Q : unit → world (driver K) → Prop) E :
  zc_at w ge z v → (∀ i, zc_io z v i → zc_io z v' (f i)) →
  v_live v' = v_live v → v_error v' = v_error v → v_busy v' = v_busy v → v_sent v' = v_sent v → v_released v' = v_released v →
  (∀ w', zc_at w' ge z v' → Q tt w') → post (upd_io (z_op z) f) w Q E.
Proof.
  intros Z Hf E1 E2 E3 E4 E5 HQ. pose proof Z as [[g I] _ (o&Ho&Zo) (i&Hi&Zi) _ Hfl _ _ _].
  eapply post_upd_io; [done|]. apply HQ. eapply (za_update w _ g ge z v v' o (f i) Z); try done.
  - pose proof (Inv_upd_io ∅ w g (z_op z) i (f i) (w_flags w) I Hi) as I1. by destruct w.
  - unfold zc_op. by rewrite E1, E2.
  - simpl. apply lookup_insert_eq.
  - by apply Hf.
  - simpl. by rewrite E3.
Qed.
Lemma za_upd_op w ge z v v' f (Q : unit → world (driver K) → Prop) E :
  zc_at w ge z v → (∀ o, zc_op z v o → zc_op z v' (f o) ∧ op_active (f o) = op_active o) →
  (∀ i, zc_io z v i → zc_io z v' i) → v_busy v' = v_busy v → v_sent v' = v_sent v → v_released v' = v_released v →
  (∀ w', zc_at w' ge z v' → Q tt w') → post (upd_op (z_op z) f) w Q E.
Proof.
  intros Z Hf Hio E3 E4 E5 HQ. pose proof Z as [[g I] _ (o&Ho&Zo) (i&Hi&Zi) _ Hfl _ _ _]. destruct (Hf o Zo) as [Zo' Ha].
  eapply post_upd_op; [done|]. apply HQ. eapply (za_update w _ g ge z v v' (f o) i Z); try done.
  - eapply Inv_upd_op; [exact I|exact Ho| |done]. destruct Zo as [-> _]. by destruct Zo'.
  - intros y Hy. simpl. by rewrite lookup_insert_ne.
  - simpl. apply lookup_insert_eq.
  - by apply Hio.
  - simpl. by rewrite E3.
Qed.

(** Retiring the request runs its hook. *)
Definition v_end v : zview :=
  View false (v_done v) (v_canceling v) true true (v_error v) (v_bytes v) (v_reserved v) (v_busy v).
Lemma za_retire w ge z v :
  zc_at w ge z v → v_live v = true → runs (retire (z_loop z) (z_op z)) w (λ _ w', zc_at w' ge z (v_end v)).
Proof.
  intros Z Hlive. pose proof Z as [[g I] EI (o&Ho&Zo) (i&Hi&Zi) HL Hf Hs Hr Hne].
  destruct Zo as (Hown&Hact&Herr). destruct Zi as (Hres&Hret&Hrest). unfold retire. step.
  destruct Hrest as (Hcode&Hdr&Hrest). rewrite Hdr. apply post_bind, post_ret.
  eapply (complete_hook w g _ _ o i _ _ _ I); [|exact Ho|exact Hi|exact Hret|].
  { rewrite <- Hown. apply (active_io w g _ o I Ho); [congruence|eauto]. }
  intros w1 g1 I1 Hops Hios Hfl _ Ev HT. apply post_nothrow.
  set (v1 := View false (v_done v) (v_canceling v) (v_sent v) (v_released v) (v_error v) (v_bytes v) (v_reserved v) (v_busy v)).
  assert (zc_at w1 ge z v1) as Z1.
  { eapply (za_update w w1 g1 ge z v v1 (retired o) i Z); try done; rewrite ?Hops, ?Hios, ?Hfl; try done.
    - intros y Hy. by rewrite lookup_insert_ne.
    - apply lookup_insert_eq. }
  eapply post_mono; [exact (za_settle w1 ge z v1 Z1)| |done]. intros [] w2 [_ Z2]. exact Z2.
Qed.
(** [if (op.done && !op.canceling) retire(op);] *)
Lemma za_finish w ge z v b :
  zc_at w ge z v → v_live v = true → b = v_done v && negb (v_canceling v) →
  runs (when b (retire (z_loop z) (z_op z))) w (λ _ w', zc_at w' ge z (v_settle v)).
Proof.
  intros Z Hlive ->. unfold v_settle.
  destruct (v_done v && negb (v_canceling v)); simpl; [by apply za_retire|by apply post_ret].
Qed.
(** The primary completion: outcome, direction, and the first barrier on success. *)
Definition v_outcome (res : Z) v : zview :=
  View (v_live v) (v_done v) (v_canceling v) (v_sent v) (v_released v)
    (if bool_decide (res < 0)%Z then Some (generic_error (- res)) else v_error v)
    (if bool_decide (res < 0)%Z then v_bytes v else res) (v_reserved v) (v_busy v).
Lemma za_outcome w ge z v res :
  zc_at w ge z v → runs (set_outcome (z_op z) res) w (λ _ w', zc_at w' ge z (v_outcome res v)).
Proof.
  intros Z. unfold set_outcome, v_outcome. case_bool_decide.
  - match goal with |- post _ _ (λ _ w', zc_at w' ge z ?v') _ => apply (za_upd_op w ge z v v'); try done end.
    intros o (?&?&?). by split_and!.
  - match goal with |- post _ _ (λ _ w', zc_at w' ge z ?v') _ => apply (za_upd_io w ge z v v'); try done end.
    intros i (?&?&?&?&?&?&?&?&?). by split_and!.
Qed.
Definition v_free v : zview :=
  View (v_live v) (v_done v) (v_canceling v) (v_sent v) (v_released v) (v_error v) (v_bytes v) false (v_busy v && negb (v_reserved v)).
Lemma za_release w ge z v :
  zc_at w ge z v →
  runs (release_direction (z_op z) ;; upd_io (z_op z) (set_io_reserved false)) w (λ _ w', zc_at w' ge z (v_free v)).
Proof.
  intros Z. pose proof Z as [[g I] EI (o&Ho&Zo) (i&Hi&Zi) HL Hf Hs Hr Hne].
  pose proof Zi as (_&_&_&_&Hbusy&_&_&_&Hrs). unfold release_direction.
  set (v1 := View (v_live v) (v_done v) (v_canceling v) (v_sent v) (v_released v) (v_error v) (v_bytes v) (v_reserved v) (v_busy v && negb (v_reserved v))).
  apply post_bind, (post_mono _ _ (λ _ w1, zc_at w1 ge z v1) _ (λ _ _, False)); [step| |done].
  - rewrite Hrs, Hbusy. destruct (v_reserved v) eqn:Er.
    + eapply post_upd_flag; [done|]. eapply (za_update w _ g ge z v v1 o i Z); try done.
      * pose proof (Inv_upd_io ∅ w g (z_op z) i i (<[z_busy z := false]> (w_flags w)) I Hi) as I1. simpl in I1. by rewrite insert_id in I1.
      * unfold zc_io in *. rewrite Er in Zi. exact Zi.
      * simpl. by rewrite lookup_insert_eq, andb_false_r.
    + apply post_ret. replace v1 with v; [done|]. unfold v1. rewrite andb_true_r, <- Er. by destruct v.
  - intros [] w1 Z1. apply (za_upd_io w1 ge z v1 (v_free v)); try done. intros i1 (?&?&?&?&?&?&?&?&?). by split_and!.
Qed.

(** The handler of the primary completion and of the notification. *)
Lemma za_result w ge z v res flags :
  zc_at w ge z v →
  runs (result_hook consume (result_zc (z_sent z)) (z_op z) res flags) w
    (λ _ w', zc_at w' ge z (if Z.testbit flags CQE_F_NOTIF then v else v_primary res v)).
Proof.
  intros Z. apply post_nothrow. destruct (Z.testbit flags CQE_F_NOTIF); [by apply post_ret|].
  apply post_bind. eapply post_mono; [by apply za_outcome| |done]. intros [] w1 Z1.
  apply post_seq2. eapply post_mono; [by apply za_release| |done]. intros [] w2 Z2.
  unfold v_primary. destruct (bool_decide (0 ≤ res)%Z).
  - eapply post_mono; [apply (za_signal w2 ge z _ _ _ Z2 (za_sent _ _ _ _ Z2)); by left| |done].
    intros [] w3 [_ Z3]. rewrite decide_True in Z3 by done. rewrite orb_true_r. exact Z3.
  - apply post_ret. rewrite orb_false_r. exact Z2.
Qed.

(** One completion of the request: the notification, the primary completion, or the
    completion of its cancellation. *)
Definition of_zc z (c : cqe) : Prop := cqe_data c ≠ 0%Z ∧ io_at (cqe_data c) = z_op z.
Lemma za_dispatch w ge z v v' c :
  zc_at w ge z v → of_zc z c → v_step c v = Some v' →
  runs (dispatch consume (z_loop z) c) w (λ b w', b = false ∧ zc_at w' ge z v').
Proof.
  intros Z [Hnz Hx] Hv. unfold dispatch. rewrite bool_decide_eq_false_2, Hx by done.
  unfold v_step in Hv. destruct (v_live v) eqn:Hlive; [|done]. simpl in Hv. apply post_bind.
  apply (post_mono _ _ (λ _ w', zc_at w' ge z v') _ (λ _ _, False)); [| |done].
  2: { intros [] w1 Z1. by apply post_ret. }
  destruct (Z.testbit (cqe_data c) 0).
  - destruct (v_canceling v) eqn:Hc; [|done]. injection Hv as <-. apply post_bind.
    apply (za_upd_io w ge z v (v_set_canceling false v)); try done.
    { intros i (?&?&?&?&?&?&?&?&?). by split_and!. }
    intros w1 Z1. destruct (za_io _ _ _ _ Z1) as (i1&Hi1&(_&_&_&_&_&Hd&_)). step.
    apply (za_finish w1 ge z _ _ Z1 Hlive). rewrite Hd. simpl. by rewrite andb_true_r.
  - destruct (v_done v || _) eqn:Hok; [done|]. injection Hv as <-. apply post_bind.
    set (v1 := v_set_done (negb (Z.testbit (cqe_flags c) CQE_F_MORE)) v).
    apply (za_upd_io w ge z v v1); try done.
    { intros i (?&?&?&?&?&?&?&?&?). by split_and!. }
    intros w1 Z1. destruct (za_io _ _ _ _ Z1) as (i1&Hi1&(Hres&_)).
    apply post_bind. unfold outcome_of_cqe. step. rewrite Hres.
    eapply post_mono; [apply (za_result w1 ge z v1 _ _ Z1)| |done]. intros [] w2.
    set (v2 := if Z.testbit (cqe_flags c) CQE_F_NOTIF then v1 else v_primary (cqe_res c) v1). intros Z2.
    destruct (za_io _ _ _ _ Z2) as (i2&Hi2&(_&_&Hcode&_&_&Hd&Hc&_)).
    apply post_bind. unfold truncated. step. rewrite Hcode. simpl. apply post_ret. step.
    apply (za_finish w2 ge z v2 _ Z2); [unfold v2, v1; by destruct (Z.testbit _ _)|by rewrite Hd, Hc].
Qed.

(** C9: A pending zero-copy send follows its automaton for every sequence of completions the
    kernel posts for it, and keeps its promises: [released] is set exactly when the request
    has been retired, which is after its terminal completion and after the completion of
    its cancellation; before that [sent] is set only by a primary completion that
    succeeded, so a failed send is seen only once the kernel has dropped the buffer; the
    write direction of the socket is freed with the primary completion. *)
Theorem zc_send_refines cs : ∀ w ge z v v',
  zc_at w ge z v → promises v → Forall (of_zc z) cs → v_steps cs v = Some v' →
  runs (dispatch_all consume (z_loop z) cs) w (λ b w', b = false ∧ zc_at w' ge z v' ∧ promises v').
Proof.
  induction cs as [|c cs IH]; intros w ge z v v' Z P HF Hv; simpl in Hv.
  { injection Hv as <-. by apply post_ret. }
  apply bind_Some in Hv as (v1&H1&H2). apply Forall_cons in HF as [Hc HF]. cbn [dispatch_all]. apply post_bind.
  eapply post_mono; [apply (za_dispatch w ge z v v1 c Z Hc H1)| |done]. intros b w1 [-> Z1].
  apply post_bind. eapply post_mono; [apply (IH w1 ge z v1 v' Z1 (v_step_promises _ _ _ P H1) HF H2)| |done].
  intros b w2 (->&Z2&P2). by apply post_ret.
Qed.

(** ** Starting *)

(** Submitting an entry without DRAIN leaves the requests alone. *)
Lemma submit_plain L x i w :
  is_Some (w_loops w !! L) → w_ios w !! x = Some i →
  Z.testbit (sqe_flags (default (prepared prep_nop) (io_prepare i))) IOSQE_IO_DRAIN = false →
  post (uring_submit L x) w (λ _ w', drv_frame w w' ∧ w_ios w' = w_ios w) (λ _ w', drv_frame w w' ∧ w_ios w' = w_ios w).
Proof.
  intros HL Hi Hd. unfold uring_submit. step. apply post_bind.
  eapply post_mono; [apply (on_driver_frame _ L w HL); done| |done]. intros d w1 [F1 E1].
  destruct (_ && _); [apply post_throw; done|]. cbv zeta. rewrite Hd. apply post_bind, post_ret.
  assert (is_Some (w_loops w1 !! L)) as HL1 by (by eapply drv_frame_loops).
  apply post_bind. eapply post_mono; [apply (on_driver_frame _ L w1 HL1), driver_sqe_any| |].
  2: { intros e w2 [F2 E2]. split; [by etrans|congruence]. }
  intros [] w2 [F2 E2]. assert (is_Some (w_loops w2 !! L)) as HL2 by (by eapply drv_frame_loops).
  eapply post_mono; [apply (on_driver_frame _ L w2 HL2); done| |]; intros ? w3 [F3 E3];
    (split; [etrans; [exact F1|etrans; [exact F2|exact F3]]|congruence]).
Qed.

(** An object that has not been started, in flight, refused, and given up. *)
Definition v_idle (busy : bool) : zview := View false false false false false None 0 false busy.
Definition v_flight : zview := View true false false false false None 0 true true.
Definition v_refused (busy : bool) : zview := View false false false true true (Some operation_canceled) 0 false busy.
Definition v_failed (reserved : bool) : zview := View false false false true true None 0 reserved true.
Lemma v_flight_promises : promises v_flight.
Proof. by split. Qed.

Lemma zc_reserved z i busy : zc_io z (v_idle busy) i → zc_io z v_flight (reserved_io i).
Proof. intros (?&?&?&?&Hb&?&?&?&?). unfold zc_io, reserved_io. rewrite Hb. by split_and!. Qed.

(** The submission of a started object: on success it is in flight, otherwise it is rolled
    back and left reserved. *)
Lemma zc_submit_spec w g ge z o i l w2 l2 busy (Q R : unit → world (driver K) → Prop) (E : exn → world (driver K) → Prop) :
  zc_at w ge z (v_idle busy) → w_ops w !! z_op z = Some o → w_ios w !! z_op z = Some i →
  Z.testbit (sqe_flags (default (prepared prep_nop) (io_prepare i))) IOSQE_IO_DRAIN = false →
  w_loops w !! op_owner o = Some l → launched w g (z_op z) o i l w2 l2 →
  (∀ w', w_flags w' = dir_flags i w → zc_at w' ge z v_flight → Q tt w') →
  (∀ e w', w_flags w' = dir_flags i w →
     zc_at w' ge z (View false false false false false None 0 true true) → E e w') →
  post (uring_submit (op_owner o) (z_op z)) w2 Q
    (λ e w', post (on_ios (op_owner o) (unlink_head (z_op z)) ;;
                   upd_op (z_op z) (set_op_callback None) ;; upd_op (z_op z) (set_op_active false) ;; throw e) w' R E).
Proof.
  intros Z Ho Hi Hd Hl [I2 Hops2 Hios2 Hfl2 HL2 _ Ht2 Ev2] HQ HE.
  pose proof Z as [_ _ (o'&Ho'&Zo) (i'&Hi'&Zi) HL Hf _ _ _].
  assert (o' = o) as -> by congruence. assert (i' = i) as -> by congruence. clear Ho' Hi'.
  pose proof (zc_reserved _ _ _ Zi) as Zi2. assert (io_busy i = Some (z_busy z)) as Hb by (by destruct Zi as (_&_&_&_&?&_)).
  assert (Ho2 : w_ops w2 !! z_op z = Some (armed w (io_token i) o)) by (rewrite Hops2; apply lookup_insert_eq).
  assert (Hi2 : w_ios w2 !! z_op z = Some (reserved_io i)) by (rewrite Hios2; apply lookup_insert_eq).
  assert (io_prepare (reserved_io i) = io_prepare i) as Hp by (unfold reserved_io; by rewrite Hb).
  pose proof (armed_owner w (io_token i) o) as Hown.
  assert (zc_op z v_flight (armed w (io_token i) o)) as Zo2.
  { destruct Zo as (?&?&?). unfold zc_op, armed. simpl. by destruct (possible w (io_token i)). }
  assert (∀ w', w_flags w' = dir_flags i w → w_flags w' !! z_busy z = Some true) as Hfl.
  { intros w' ->. unfold dir_flags. by rewrite Hb, lookup_insert_eq. }
  eapply post_mono; [apply (submit_plain (op_owner o) (z_op z) (reserved_io i) w2); [by eexists|done|by rewrite Hp]|..].
  all: intros e w3 [Fr Eio]; pose proof (Inv_drv _ _ _ _ I2 Fr) as I3; destruct Fr as (E3&FL&_).
  all: assert (w_flags w3 = dir_flags i w) as Hfl3 by (by rewrite E3).
  all: assert (same_events w w3) as Ev3 by (rewrite E3; exact Ev2).
  all: assert (w_ops w3 = <[z_op z := armed w (io_token i) o]> (w_ops w)) as Ho3 by (rewrite E3; exact Hops2).
  all: assert (w_ios w3 !! z_op z = Some (reserved_io i)) as Hi3 by (by rewrite Eio).
  all: assert (l_thread <$> w_loops w3 !! z_loop z = l_thread <$> w_loops w !! z_loop z) as HT.
  1,3: destruct Zo as [<- _]; rewrite Hl; specialize (FL (op_owner o)); rewrite HL2 in FL;
    destruct (w_loops w3 !! op_owner o) as [l3|]; [|done]; simpl in *; unfold drv_loop in FL; rewrite FL; simpl; by rewrite Ht2.
  - destruct e. apply (HQ w3 Hfl3). eapply (za_update w w3 _ ge z _ v_flight _ (reserved_io i) Z I3 Ev3);
      [|by rewrite Ho3, lookup_insert_eq|done|done|done|done|by rewrite (Hfl _ Hfl3)|done|done].
    intros y Hy. by rewrite Ho3, lookup_insert_ne.
  - rewrite <- Hown in I3. pose proof (io_rollback_spec w3 g (z_op z) _ e I3 ltac:(by rewrite Ho3, lookup_insert_eq)) as Hroll.
    rewrite Hown in Hroll. eapply post_mono; [exact Hroll|done|].
    intros e' w4 (->&I4&Hops4&Hios4&Hfl4&Ev4&HT4&_). apply HE; [congruence|].
    eapply (za_update w w4 g ge z _ _ (retired (armed w (io_token i) o)) (reserved_io i) Z I4);
      rewrite ?Hops4, ?Hios4, ?HT4; try done.
    + destruct Ev3 as (?&?&?&?&?), Ev4 as (?&?&?&?&?). unfold same_events. split_and!; congruence.
    + intros y Hy. by rewrite Ho3, !lookup_insert_ne.
    + apply lookup_insert_eq.
    + destruct Zo2 as (?&_&?). by split_and!.
    + apply Hfl. congruence.
Qed.

(** [started_] is not a direction flag: setting it changes nothing else. *)
Lemma zc_mark w g ge z o i k v b :
  Inv ∅ w g → zc_at w ge z v → fresh_io w g (z_op z) o i k → z_started z ≠ z_busy z →
  let w1 := set_w_flags (<[z_started z := b]> (w_flags w)) w in
  Inv ∅ w1 g ∧ zc_at w1 ge z v ∧ fresh_io w1 g (z_op z) o i k.
Proof.
  intros I Z F Hne w1. assert (Inv ∅ w1 g) as I1.
  { pose proof (Inv_upd_io ∅ w g (z_op z) i i (<[z_started z := b]> (w_flags w)) I (fi_io _ _ _ _ _ _ F)) as I1.
    simpl in I1. rewrite insert_id in I1 by apply F. done. }
  split_and!; [done| |by destruct F].
  pose proof Z as [_ _ (o'&Ho'&Zo) (i'&Hi'&Zi) _ Hf _ _ _].
  eapply (za_update w w1 g ge z v v o' i' Z I1); try done. simpl. by rewrite lookup_insert_ne.
Qed.

(** Starting a zero-copy send.  A second start throws and changes nothing.  Otherwise the
    object is marked started, and on every path on which no completion will come (the
    direction is in use, the loop is stopping or the token requested, the submission
    throws) both events are set, so that neither [sent] nor [join] can wait forever; when
    the call returns without that, the request is in flight, holds the write direction
    and neither event is set. *)
Theorem zc_start_spec w g ge z o i k l started busy :
  Inv ∅ w g → zc_at w ge z (v_idle busy) → fresh_io w g (z_op z) o i k → w_loops w !! op_owner o = Some l →
  w_flags w !! z_started z = Some started → z_started z ≠ z_busy z →
  Z.testbit (sqe_flags (default (prepared prep_nop) (io_prepare i))) IOSQE_IO_DRAIN = false →
  post (@zc_start (driver K) (uring_driver consume) z) w
    (λ _ w', started = false ∧ busy = false ∧ w_flags w' !! z_started z = Some true ∧
       zc_at w' ge z (if l_stopping l || requested w (io_token i) then v_refused busy else v_flight))
    (λ e w', if started then e = logic_error "zero-copy send already started" ∧ w' = w
             else w_flags w' !! z_started z = Some true ∧
                  zc_at w' ge z (v_failed (negb busy)) ∧
                  (busy = true → e = logic_error "socket direction already in use")).
Proof.
  intros I Z F HL Hst Hne Hd. pose proof Z as [_ _ (o'&Ho'&Zo) (i'&Hi'&Zi) HT Hf _ _ _].
  pose proof F as [Ho Hi _ _ _ _ _]. assert (o' = o) as -> by congruence. assert (i' = i) as -> by congruence.
  destruct Zo as (Hown&Hact&Herr). pose proof Zi as (_&_&Hcode&_&Hb&_). rewrite <- Hown, HL in HT. injection HT as HT.
  unfold zc_start. apply post_bind. eapply post_check; [by rewrite <- Hown|done|]. step. destruct started; [by apply post_throw|].
  step. destruct (zc_mark w g ge z o i k (v_idle busy) true I Z F Hne) as (I1&Z1&F1). set (w1 := set_w_flags _ w) in *.
  assert (∀ w', w_flags w' = dir_flags i w1 → w_flags w' !! z_started z = Some true) as Hmark.
  { intros w' ->. unfold dir_flags. rewrite Hb, lookup_insert_ne by done. simpl. apply lookup_insert_eq. }
  assert (busy_now w1 i = busy) as Hnow.
  { unfold busy_now. rewrite Hb. simpl. by rewrite lookup_insert_ne, Hf by done. }
  apply post_try_catch, post_bind.
  eapply (io_await_cases w1 g (z_op z) o i k l noop _ _ I1 F1 HL HT).
  - intros f Hf'. rewrite Hb in Hf'. injection Hf' as <-. simpl. rewrite lookup_insert_ne by done. eauto.
  - rewrite Hnow. intros ->. apply post_bind. eapply post_mono; [exact (za_settle w1 ge z _ Z1)| |done].
    intros [] w2 [F2 Z2]. apply post_throw. split_and!; [rewrite F2; simpl; apply lookup_insert_eq|exact Z2|done].
  - rewrite Hnow. intros -> Hs. assert (zc_at (set_w_ops (<[z_op z := refused o]> (w_ops w1)) w1) ge z
      (View false false false false false (Some operation_canceled) 0 false false)) as Z2.
    { eapply (za_update w1 _ g ge z _ _ (refused o) i Z1); try done.
      - by eapply (Inv_upd_op ∅ w1 g (z_op z) o).
      - intros y Hy. simpl. by rewrite lookup_insert_ne.
      - simpl. apply lookup_insert_eq.
      - simpl. by rewrite lookup_insert_ne. }
    simpl. eapply post_mono; [exact (za_settle _ ge z _ Z2)| |done].
    intros [] w3 [F3 Z3]. change (requested w1 (io_token i)) with (requested w (io_token i)) in Hs. rewrite Hs. split_and!; [done|done|rewrite F3; simpl; apply lookup_insert_eq|exact Z3].
  - rewrite Hnow. intros -> Hs w2 l2 La. rewrite Hcode, andb_false_r.
    change (requested w1 (io_token i)) with (requested w (io_token i)) in Hs. rewrite Hs.
    eapply (zc_submit_spec w1 g ge z o i l w2 l2 false); [exact Z1|exact Ho|exact Hi|exact Hd|exact HL|exact La|..].
    + intros w3 F3 Z3. simpl. apply post_ret. split_and!; [done|done|by apply Hmark|done].
    + intros e w3 F3 Z3. apply post_bind. eapply post_mono; [exact (za_settle w3 ge z _ Z3)| |done].
      intros [] w4 [F4 Z4]. apply post_throw. split_and!; [apply Hmark; congruence|exact Z4|done].
Qed.
End refinement.
