(* ===== verification/UringWitness.v ===== *)
(** * A concrete submission queue

    A ring of a few slots that accepts everything or is broken, as an instance of
    [Liburing]; the theorems on the io_uring backend evaluated on it. *)
From S2P Require Import Prelude ReadyQueue Links Heap Core Loop LoopInv LoopSpec Event WaitQueue Io Run RunSpec RunLoop Checker Scenario LoopWitness.
From S2P Require Import Uring UringSpec UringPoll UringSetup.

(** A submission to a broken ring fails with [EBUSY] and submits nothing. *)
Record kernel := Kernel { k_sq : list sqe; k_cq : list cqe; k_broken : bool }.
Definition k_entries : nat := 4.
Definition k_submit (k : kernel) : Z * kernel :=
  if k_broken k then (-16, k)%Z else (Z.of_nat (length (k_sq k)), Kernel [] (k_cq k) false).
#[global] Instance toy_ring : Liburing kernel := {|
  spin := 2;
  sq_ready k := length (k_sq k);
  sq_space_left k := k_entries - length (k_sq k);
  sq_entries k := k_entries;
  get_sqe k := if bool_decide (length (k_sq k) < k_entries) then Some (Kernel (k_sq k ++ [prepared prep_nop]) (k_cq k) (k_broken k)) else None;
  fill_sqe e k := Kernel (removelast (k_sq k) ++ [e]) (k_cq k) (k_broken k);
  ring_submit := k_submit;
  ring_wait _ := k_submit;
  ring_events k := (0%Z, k);
  event_poll _ _ := 0%Z;
  event_read k := (8%Z, k);
  event_write k := (8%Z, k);
  peek_batch n k := take n (k_cq k);
  cq_advance n k := Kernel (k_sq k) (drop n (k_cq k)) (k_broken k) |}.
#[global] Instance toy_ring_ok : LiburingOk kernel.
Proof.
  split.
  - intros k. simpl. unfold k_entries. lia.
  - intros k. simpl. intros H. case_bool_decide; [by eexists|lia].
  - intros e k k'. simpl. case_bool_decide as Hl; [|done]. intros [= <-]. simpl. rewrite removelast_last, length_app. simpl. unfold k_entries in *. lia.
  - intros k. simpl. destruct (k_broken k) eqn:E.
    + exists 0. right. split; [lia|]. unfold submits, k_submit. simpl. unfold k_submit. by rewrite E.
    + exists 1. left. split; [lia|]. simpl. unfold k_submit. by rewrite E.
Qed.
Definition no_consumer : loc → Z → Z → M (world (driver kernel)) unit := λ _ _ _, mret tt.

(** ** A loop on the ring: reads 5 and 6, the first canceled *)
Definition new_driver : driver kernel := Driver_ (Kernel [] [] false) 9 false false 0 false false 0.
Definition uring_loop (d : driver kernel) : loop (driver kernel) :=
  {| l_driver := d; l_thread := 0; l_ready := ReadyQueue None None; l_timers := []; l_posts := [];
     l_messages := ReadyQueue None None; l_batch := ReadyQueue None None; l_holds := 0; l_stopping := false;
     l_cancel := false; l_roots := 0; l_budget := 64; l_running := false; l_error := None; l_io := None;
     l_waits := None; l_woken := false |}.
Definition uring_base (d : driver kernel) : world (driver kernel) :=
  {| w_thread := 0; w_current := ∅; w_stops := ∅; w_loops := {[0 := uring_loop d]}; w_next := ∅; w_works := ∅; w_ops := ∅;
     w_waits := ∅; w_wlinks := ∅; w_timers := ∅; w_ios := ∅; w_iolinks := ∅; w_messages := ∅; w_flags := ∅; w_cells := ∅;
     w_events := ∅; w_awaiters := ∅; w_alinks := ∅; w_queues := ∅; w_remotes := ∅; w_rlinks := ∅ |}.
#[global] Instance toy_driver : Driver (driver kernel) := uring_driver no_consumer.
Definition submitted : world (driver kernel) :=
  exec (io_await_suspend 6 101) (exec (io_await_suspend 5 100)
    (new_io 6 0 (io_init op_read 8 1 64 None None) (new_io 5 0 (io_init op_read 7 0 100 None None) (uring_base new_driver)))).
Definition cancelling : world (driver kernel) := exec (uring_cancel 0 5) submitted.
Definition completions : list cqe :=
  [Cqe (io_addr 5) (-125) 0 0 0; Cqe 0 1 0 0 0; Cqe (io_addr 6) 10 0 0 0; Cqe (Z.lor (io_addr 5) 1) 0 0 0 0].
Definition ring_lists : gmap loopid aloop := {[0 := ALoop [] [] [] [] [6; 5] []]}.
(** The entries in the queue: the two reads and the cancellation. *)
Example queue_contents : k_sq ∘ d_ring ∘ l_driver <$> w_loops cancelling !! 0 =
  Some [set_sqe_data 12 (prepared (prep_recv 7 0 100 0)); set_sqe_data 14 (prepared (prep_recv 8 1 64 0));
        set_sqe_data 13 (prepared (prep_cancel 12))].
Proof. by_check. Qed.

Lemma dispatch_all_spec_witness :
  runs (dispatch_all no_consumer 0 completions) cancelling (λ b w',
    b = existsb (λ c, bool_decide (cqe_data c = 0%Z)) completions ∧
    ∃ g' ys, [6; 5] = [] ++ ys ∧ dispatched cancelling w' (ghost_of ring_lists) g' 0 ys ∅).
Proof.
  apply (dispatch_all_spec no_consumer completions cancelling (ghost_of ring_lists) 0
           (<[5 := (false, true)]> {[6 := (false, false)]}) [] ∅ [6; 5]).
  - apply check_inv_sound. by_check.
  - split.
    + intros x. vm_compute a_ios. rewrite lookup_insert_is_Some', lookup_singleton_is_Some. set_solver.
    + intros x dn cn [[<- [= <- <-]]|[_ [<- [= <- <-]]%lookup_singleton_Some]]%lookup_insert_Some.
      * eexists. split; [by_check|]. repeat split; by left.
      * eexists. split; [by_check|]. repeat split; by left.
  - by_check.
  - by_check.
Defined.

(** ** Construction *)
Definition toy_system : @system kernel := System (λ _, (0%Z, Kernel [] [] false)) (λ k, (0%Z, k)) (-24).
Lemma loop_new_spec_witness :
  match loop_new toy_system default_options with
  | inr (d', budget) => budget = o_budget default_options ∧ d_event d' = sys_eventfd toy_system ∧ (0 ≤ d_event d')%Z ∧
      d_registered d' = o_register_fd default_options ∧ d_watching d' = negb (d_iopoll d') ∧ d_drains d' = 0
  | inl (_, rel) => queue_exit ∈ rel ∧
      (close_event ∈ rel ↔ ring_refused toy_system default_options (Kernel [] [] false) = false ∧ (0 ≤ sys_eventfd toy_system)%Z) ∧
      (unregister_fd ∈ rel ↔ ring_registered toy_system default_options (Kernel [] [] false) = true)
  end.
Proof. apply (loop_new_spec toy_system default_options (Kernel [] [] false) 0); [by_check|by_check|lia]. Defined.

(** ** A request with a DRAIN that is never submitted

    The counter of pending DRAIN requests is raised before a slot is acquired.  When the
    queue is full and cannot be submitted, the request is unlinked again but the counter
    keeps its value: from then on [poll] waits for at most a millisecond and never arms
    the wake poll again. *)
Definition drain_sqe : sqe := set_sqe_flags (2 ^ IOSQE_IO_DRAIN) (prepared prep_nop).
Definition draining_io : io :=
  {| io_code := op_native; io_fd := -1; io_data := 0; io_size := 0; io_offset := 0; io_address := [];
     io_address_size := 0; io_accepted := -1; io_bytes := 0; io_token := None; io_canceling := false;
     io_cancel_sent := false; io_started := false; io_done := false; io_busy := None; io_reserved := false;
     io_prepare := Some drain_sqe; io_result := Some result_op; io_retire := None; io_draining := false |}.
Definition full_broken : driver kernel := Driver_ (Kernel (replicate 4 (prepared prep_nop)) [] true) 9 false false 0 false false 0.
Definition drain_before : world (driver kernel) := new_io 5 0 draining_io (uring_base full_broken).
Theorem drain_count_leaks :
  (∃ w', io_await_suspend 5 100 drain_before = Throw (system_error (native_error 16)) w' ∧
     l_io <$> w_loops w' !! 0 = Some None ∧ d_drains ∘ l_driver <$> w_loops w' !! 0 = Some 1) ∧
  wait_limit 1 (-1) = Some ms ∧ ms = 1000000%Z.
Proof.
  split; [|done]. eexists. split; [vm_compute; reflexivity|]. split; by_check.
Qed.
