(* ===== verification/CoroWitness.v ===== *)
(** * Concrete runs of the coroutine components

    The theorems on spawned results, joins, the worker pool, provided buffers and
    registered tables, evaluated on small histories. *)
From S2P Require Import Prelude Core Task Spawn When Pool Provided Uring Registered LoopWitness.
From stdpp Require Import relations.

(** ** [sync_wait] and [spawn]: the child returns 5 *)
Definition five : @result nat := inl 5.
Definition sync_end : @sync nat := Sync None p_published (b_returned five).
Lemma sync_wait_spec_witness :
  (∀ a, sync_enabled sync_end a = true → ∃ y', sync_action five a sync_end = Ret tt y') ∧
  match sy_caller sync_end with
  | b_returned r' => r' = five ∧ ∀ a, sync_enabled sync_end a = false
  | b_waiting => ∃ a, sync_enabled sync_end a = true
  end.
Proof.
  apply (sync_wait_spec five sync_end).
  eapply rtc_l; [by apply (sync_does _ _ 0)|]. eapply rtc_l; [by apply (sync_does _ _ 1)|].
  eapply rtc_l; [by apply (sync_does _ _ 2)|]. apply rtc_refl.
Defined.
(** Awaited on a loop, suspended before the publication, resumed by it. *)
Definition spawn_end : @spawned nat := Spawned None true 0 p_signalled false (c_result five).
Ltac spawn_step a := eapply rtc_l; [apply (spawn_does _ _ a); [by_check|left; by_check]|].
Lemma spawn_spec_witness :
  (∀ a, enabled spawn_end a = true → ∃ s', perform five a spawn_end = Ret tt s' ∨ ∃ e, perform five a spawn_end = Throw e s') ∧
  (sp_state spawn_end = None ↔ holders spawn_end = 0) ∧
  (∀ r', sp_consumer spawn_end = c_result r' → r' = five ∧ sp_handle spawn_end = false) ∧
  (sp_consumer spawn_end = c_suspended → ∃ a, a ∈ [a_store; a_publish; a_signal] ∧ enabled spawn_end a = true).
Proof.
  apply (spawn_spec five spawn_end).
  spawn_step (a_await (Some 0)). spawn_step a_store. spawn_step a_publish. spawn_step a_signal. spawn_step a_resume. apply rtc_refl.
Defined.
Lemma handle_single_use_witness :
  (sp_handle spawn_end = false →
     handle_get None spawn_end = Throw (logic_error "empty join handle") spawn_end ∧
     handle_join false spawn_end = Throw (logic_error "empty join handle") spawn_end ∧
     handle_co_await (Some 3) spawn_end = Throw (logic_error "empty join handle") spawn_end ∧
     handle_ready spawn_end = Ret false spawn_end) ∧
  (sp_handle spawn_end = true → handle_ready spawn_end = Ret (published (sp_producer spawn_end)) spawn_end).
Proof.
  apply (handle_single_use five spawn_end 3 false).
  spawn_step (a_await (Some 0)). spawn_step a_store. spawn_step a_publish. spawn_step a_signal. spawn_step a_resume. apply rtc_refl.
Defined.

(** ** Joins of three children; the second fails *)
Definition copy (n : nat) : nat + exn := inl n.
Definition all_start (i : nat) : option exn := None.
Definition finished : list (nat * @result nat) := [(2, inl 30); (0, inl 10); (1, inr (user_error 1))].
Lemma finished_ok : finishes (startup all_start 0 3).1 finished.
Proof. split; [apply (bool_decide_unpack _); by_check|]. vm_compute. set_solver. Qed.
Lemma when_all_spec_witness :
  (length finished < (startup all_start 0 3).1 → when_all copy all_start 3 finished = suspended) ∧
  (length finished = (startup all_start 0 3).1 →
     match or_else (startup all_start 0 3).2 (first_error copy finished) with
     | Some e => when_all copy all_start 3 finished = throws e
     | None => ∃ vs, when_all copy all_start 3 finished = returns vs ∧ length vs = 3 ∧
                 ∀ i r, (i, r) ∈ finished → ∃ v, moved copy r = inl v ∧ vs !! i = Some v
     end).
Proof. apply (when_all_spec copy all_start 3 finished). exact finished_ok. Defined.
Lemma when_any_spec_witness :
  (length finished < (startup all_start 0 3).1 → when_any copy all_start 3 finished = suspended) ∧
  (length finished = (startup all_start 0 3).1 →
     match (startup all_start 0 3).2, finished with
     | Some e, _ => when_any copy all_start 3 finished = throws e
     | None, [] => False
     | None, (w, r) :: _ => when_any copy all_start 3 finished = match moved copy r with inl v => returns (w, v) | inr e => throws e end
     end).
Proof. apply (when_any_spec copy all_start 3 finished); [lia|exact finished_ok]. Defined.
Lemma when_variants_witness :
  all copy all_start 3 finished = when_all copy all_start 3 finished ∧
  (0 < 3 → when_any_typed copy all_start 3 finished = when_any copy all_start 3 finished) ∧
  (0 < 3 → when_any_variant copy all_start 3 finished = when_any copy all_start 3 finished).
Proof. apply (when_variants copy all_start 3 finished). Defined.
Lemma timeout_spec_witness :
  timeout copy all_start (if false then [(0, five); (1, timer_outcome (Some operation_canceled))] else [(1, timer_outcome None); (0, five)]) =
    if false then match moved copy five with inl v => returns v | inr e => throws e end else throws (system_error timed_out).
Proof. apply (timeout_spec copy all_start five false); done. Defined.

(** ** A pool of two workers: both sleep, one is woken for job 7; job 8 and the close follow *)
Definition pool_closing : @pool nat := Pool [8] true [w_busy 7; w_asleep] 1 1 [7; 8] [7].
Definition pool_end : @pool nat := Pool [] true [w_exited; w_exited] 0 0 [7; 8] [7; 8].
Lemma pool_closing_history : rtc pool_step (started_pool 2) pool_closing.
Proof.
  eapply rtc_l; [apply step_work, (work_test _ 0); by_check|]. eapply rtc_l; [apply step_work, (work_test _ 1); by_check|].
  eapply rtc_l; [apply (step_enqueue _ 7); by_check|].
  eapply rtc_l; [apply step_work, (work_notify_one _ 0); [vm_compute; lia|by_check]|].
  eapply rtc_l; [apply step_work, (work_test _ 0); by_check|]. eapply rtc_l; [apply (step_enqueue _ 8); by_check|].
  eapply rtc_l; [apply step_close; by_check|]. apply rtc_refl.
Qed.
Lemma pool_history : rtc pool_step (started_pool 2) pool_end.
Proof.
  etrans; [exact pool_closing_history|].
  eapply rtc_l; [apply step_work, work_notify_all; vm_compute; lia|].
  eapply rtc_l; [apply step_work, work_notify_none; [vm_compute; lia|intros [|[|i]]; vm_compute; done]|].
  eapply rtc_l; [apply step_work, (work_test _ 1); by_check|].
  eapply rtc_l; [apply step_work, (work_finish _ 0 7); by_check|]. eapply rtc_l; [apply step_work, (work_finish _ 1 8); by_check|].
  eapply rtc_l; [apply step_work, (work_test _ 0); by_check|]. eapply rtc_l; [apply step_work, (work_test _ 1); by_check|]. apply rtc_refl.
Qed.
Lemma pool_fifo_witness :
  accepted pool_end = begun pool_end ++ jobs_ pool_end ∧
  (joined pool_end = true →
     begun pool_end = accepted pool_end ∧ (∀ i j, threads_ pool_end !! i ≠ Some (w_busy j)) ∧
     ∀ j, enqueue j pool_end = Throw (logic_error "closed pool") pool_end).
Proof. apply (pool_fifo 2 pool_end); [lia|exact pool_history]. Defined.
Lemma pool_close_terminates_witness :
  (∀ k p', nsteps work_step k pool_closing p' → k + effort p' ≤ effort pool_closing) ∧
  (∀ p', rtc work_step pool_closing p' → at_rest p' →
     jobs_ p' = [] ∧ begun p' = accepted p' ∧ (∀ i j, threads_ p' !! i ≠ Some (w_busy j)) ∧
     (stopping_ p' = true → joined p' = true)) ∧
  (∃ p', rtc work_step pool_closing p' ∧ at_rest p') ∧
  (stopping_ pool_closing = true →
     ∀ k p', nsteps closed_step k pool_closing p' → stopping_ p' = true ∧ k + measure p' ≤ measure pool_closing).
Proof. apply (pool_close_terminates 2 pool_closing); [lia|exact pool_closing_history]. Defined.

(** ** Provided buffers: a ring of four buffers of 100 bytes, of which the kernel has
    picked three for a bundle of 250 bytes *)
Definition new_ring_of : provided := match provided_new true 4 100 0 with inr p => p | inl _ => Provided false 0 0 0 0 [] [] 0 false [] end.
Definition picked_ring : provided := pick 3 new_ring_of.
(** A consumer that drops the first chunk, keeps the second and returns it at the third. *)
Definition juggler : Provided.consumer := λ log c,
  Provided.Decision (if bool_decide (ck_id c = 2) then [1] else []) (bool_decide (ck_id c = 1)) None.
Lemma new_ring_inv : TInv new_ring_of (Table [] [0; 1; 2; 3]) [].
Proof. split; [|reflexivity]. apply (provided_new_spec true 4 100 0); [lia|lia|reflexivity]. Qed.
Lemma picked_inv : PInv picked_ring [] [0; 1; 2].
Proof. exact (pick_inv 3 _ _ _ (proj1 new_ring_inv)). Qed.
Example each_juggled :
  post (provided_each 1 250 juggler) picked_ring
    (λ log p', log = cut 100 250 [0; 1; 2] ∧ pv_ring p' = [3; 0; 1; 2] ∧ pv_leases p' = 0) (λ _ _, False).
Proof. vm_compute. split_and!; reflexivity. Qed.
Lemma provided_take_spec_witness :
  post (provided_take 1 100) picked_ring
    (λ c p', ck_id c = Z.to_nat (Z.shiftr 1 buffer_shift) ∧ ck_id c ∉ ([] : list nat) ∧ ck_id c < pv_count picked_ring ∧
       ck_offset c = (Z.of_nat (ck_id c) * pv_size picked_ring)%Z ∧ ck_bytes c = 100%Z ∧
       (ck_offset c + ck_bytes c ≤ Z.of_nat (ck_id c + 1) * pv_size picked_ring)%Z ∧
       pv_leases p' = S (pv_leases picked_ring) ∧ pv_held p' !! ck_id c = Some true)
    (λ e p', e = runtime_error "invalid provided buffer completion" ∧ p' = picked_ring).
Proof. apply (provided_take_spec picked_ring [] [0; 1; 2] 1 100). exact picked_inv. Defined.

(** ** Registered tables: a file table 1, a buffer table 2 and a read 9 pinned to both *)
Definition registry0 : registry := Registry {[0]} ∅ ∅ ∅.
Definition ret_state {A} (s : registry) (c : M registry A) : registry := match c s with Ret _ s' => s' | _ => s end.
Definition with_files : registry := ret_state registry0 (files_new 1 0 8 0).
Definition with_buffers : registry := ret_state with_files (buffers_new 2 0 [(1, 4096%Z)] 0).
Definition fixed_sqe : sqe := fixed_file (prepared (prep_read_fixed 3 1 4096 0 0)).
Definition with_op : registry := ret_state with_buffers (uop_new 9 0 fixed_sqe (Some 1) (Some 2) None).
(** A clone 3 of the buffer table, a refused update of the pinned file table, and the
    operation in flight *)
Definition with_clone : registry := ret_state with_op (buffers_clone 3 0 2 0).
Definition in_flight : registry := ret_state with_clone (set_active 9 true).
Lemma registry_history : rtc reg_step registry0 in_flight.
Proof.
  eapply rtc_l; [apply (step_ret _ (rc_files 1 0 8 0) with_files); by_check|].
  eapply rtc_l; [apply (step_ret _ (rc_buffers 2 0 [(1, 4096%Z)] 0) with_buffers); by_check|].
  eapply rtc_l; [apply (step_ret _ (rc_op 9 0 fixed_sqe (Some 1) (Some 2) None) with_op);
    [split_and!; [by_check|intros ? [= <-]; by eexists|intros ? [= <-]; by eexists]|by_check]|].
  eapply rtc_l; [apply (step_throw _ (rc_files_update 1 0 1 1) (logic_error "file table still referenced") with_op); [exact Logic.I|by_check]|].
  eapply rtc_l; [apply (step_ret _ (rc_buffers_clone 3 0 2 0) with_clone); by_check|].
  eapply rtc_l; [apply (step_ret _ (rc_active 9 true) in_flight); [exact Logic.I|by_check]|]. apply rtc_refl.
Qed.
Example clone_unpinned : b_active <$> g_buffers in_flight !! 3 = Some 0 ∧ b_active <$> g_buffers in_flight !! 2 = Some 1.
Proof. split; by_check. Qed.
Lemma registered_pins_witness :
  (∀ x v, g_files in_flight !! x = Some v → f_active v = pinning u_files x in_flight) ∧
  (∀ x v, g_buffers in_flight !! x = Some v → b_active v = pinning u_buffers x in_flight) ∧
  (∀ y u x, g_ops in_flight !! y = Some u → u_files u = Some x → ∃ v, g_files in_flight !! x = Some v ∧ f_loop v = u_loop u ∧
     (∀ r, files_destroy x r in_flight = Terminate) ∧ ∀ offset count n, ∃ ex, files_update x offset count n in_flight = Throw ex in_flight) ∧
  (∀ y u x, g_ops in_flight !! y = Some u → u_buffers u = Some x → ∃ v, g_buffers in_flight !! x = Some v ∧ b_loop v = u_loop u ∧
     (∀ r, buffers_destroy x r in_flight = Terminate) ∧ ∀ offset regions n, ∃ ex, buffers_update x offset regions n in_flight = Throw ex in_flight) ∧
  (∀ c ex s', run_call c in_flight = Throw ex s' → s' = in_flight).
Proof. apply (registered_pins {[0]} in_flight). exact registry_history. Defined.
Definition two_vectors : list (nat * Z) := [(1, 2147483647%Z); (2, 2147483647%Z)].
Lemma vectors_spec_witness :
  (vectors two_vectors 5 registry0 = Ret tt registry0 ↔
     (Z.of_nat (length two_vectors) ≤ IOV_MAX)%Z ∧ Forall (λ v, v.1 = 0 → v.2 = 0%Z) two_vectors ∧
     (Registered.total two_vectors ≤ INT_MAX)%Z ∧ (5 + Registered.total two_vectors ≤ INT64_MAX)%Z) ∧
  (vectors two_vectors 5 registry0 ≠ Ret tt registry0 →
     ∃ what, vectors two_vectors 5 registry0 = Throw (invalid_argument what) registry0).
Proof.
  apply (vectors_spec two_vectors 5 registry0); [|split; discriminate].
  constructor; [split; discriminate|]. constructor; [split; discriminate|constructor].
Defined.
Lemma file_request_spec_witness :
  post (request 10 1 3 (fr_fixed 2 0 0 false)) with_op
    (λ _ s', ∃ u, g_ops s' !! 10 = Some u ∧ u_files u = Some 1 ∧ u_buffers u = pins (fr_fixed 2 0 0 false) ∧ u_loop u = f_loop (Files 0 8 1) ∧
       (3 < f_size (Files 0 8 1))%Z ∧ addresses 3 (u_sqe u))
    (λ _ s', s' = with_op).
Proof.
  apply (file_request_spec 10 1 3 (fr_fixed 2 0 0 false) (Files 0 8 1) with_op); [by_check|by_check|].
  split; [split; discriminate|]. eexists. split; [by_check|]. constructor; [split; discriminate|constructor].
Defined.
