(* ===== verification/NetWitness.v ===== *)
(** * Concrete sockets and files *)
From S2P Require Import Prelude ReadyQueue Links Heap Core Loop LoopInv LoopSpec Event WaitQueue Io Run RunSpec RunLoop Checker Scenario LoopWitness.
From S2P Require Import Uring Net NetSpec WriteAll.
From stdpp Require Import relations.

(** ** A history: a listener whose [bind] fails, one that is bound, an accepted peer *)
Definition net0 : net unit := Net base ∅ false ∅ ∅ ∅.
Definition net_exec (c : net_call) (s : net unit) : net unit := exec (perform c) s.
Definition net1 : net unit := net_exec (c_listen 1 0 31 32 128 5 0 0 (-98) 0) net0.
Definition net2 : net unit := net_exec (c_listen 1 0 31 32 128 5 0 0 0 0) net1.
Definition net3 : net unit := net_exec (c_accept_begin 1 2 None) net2.
Definition net4 : net unit := set_open ({[6%Z]} ∪ n_open net3)
  (set_world (set_w_ios (<[2 := set_io_accepted 6 (default (io_init op_nop 0 0 0 None None) (w_ios (n_world net3) !! 2))]> (w_ios (n_world net3))) (n_world net3)) net3).
Definition net5 : net unit := net_exec (c_accept_end 1 2 3 33 34 4 35 36 0) net4.
(** Then a descriptor opened through the ring, moved to another object, and closed with it *)
Definition open_entry : sqe := prepared (prep_openat (-100) 50 O_CLOEXEC 0).
Definition net6 : net unit := net_exec (c_open 10 0 open_entry None) net5.
Definition net7 : net unit := set_open ({[7%Z]} ∪ n_open net6)
  (set_world (set_w_ios (<[10 := set_io_accepted 7 (open_io open_entry None)]> (w_ios (n_world net6))) (n_world net6)) net6).
Definition net8 : net unit := net_exec (c_open_resume 10 11) net7.
Definition net9 : net unit := net_exec (c_fd_move 12 11) net8.
Definition net10 : net unit := net_exec (c_fd_destroy 12) net9.
Example net9_open : n_open net9 = {[5%Z; 6%Z; 7%Z]} ∧ n_fds net9 !! 12 = Some 7%Z ∧ n_fds net9 !! 11 = Some (-1)%Z ∧ n_open net10 = {[5%Z; 6%Z]}.
Proof. split_and!; by_check. Qed.
Example net5_open : n_open net5 = {[5%Z; 6%Z]} ∧ sk_fd <$> n_socks net5 !! 4 = Some 6%Z ∧ n_open net1 = ∅.
Proof. by_check || (split_and!; by_check). Qed.
Lemma net_history : rtc net_step net0 net10.
Proof.
  eapply rtc_l; [apply (net_does _ (c_listen 1 0 31 32 128 5 0 0 (-98) 0) net1); [by_check|right; eexists; by_check]|].
  eapply rtc_l; [apply (net_does _ (c_listen 1 0 31 32 128 5 0 0 0 0) net2); [by_check|left; by_check]|].
  eapply rtc_l; [apply (net_does _ (c_accept_begin 1 2 None) net3); [by_check|left; by_check]|].
  eapply rtc_l; [eapply (net_accepts net3 2 _ 6); [by_check|by_check|by apply (bool_decide_unpack _); by_check|lia]|].
  eapply rtc_l; [apply (net_does _ (c_accept_end 1 2 3 33 34 4 35 36 0) net5); [split_and!; [by_check|by_check|done]|left; by_check]|].
  eapply rtc_l; [apply (net_does _ (c_open 10 0 open_entry None) net6); [by_check|left; by_check]|].
  eapply rtc_l; [eapply (net_accepts net6 10 (open_io open_entry None) 7); [by_check|by_check|by apply (bool_decide_unpack _); by_check|lia]|].
  eapply rtc_l; [apply (net_does _ (c_open_resume 10 11) net8); [by_check|left; by_check]|].
  eapply rtc_l; [apply (net_does _ (c_fd_move 12 11) net9); [by_check|left; by_check]|].
  eapply rtc_l; [apply (net_does _ (c_fd_destroy 12) net10); [by_check|left; by_check]|].
  apply rtc_refl.
Qed.
Lemma descriptors_owned_witness :
  n_stray net10 = false ∧ (∀ fd, fd ∈ n_open net10 ↔ ∃ o, held net10 o = Some fd) ∧
  (∀ o o' fd, held net10 o = Some fd → held net10 o' = Some fd → o = o').
Proof. apply (descriptors_owned base net10); [reflexivity|exact net_history]. Defined.

(** ** A kernel that transfers at most three bytes at a time *)
Definition mem (a : nat) : nat := a mod 7.
Definition lazy_kernel (y : loc) : M (@sys unit nat) unit := λ s,
  let N := sy_net s in
  match w_ios (n_world N) !! y, w_ops (n_world N) !! y with
  | Some i, Some o =>
      let n := Z.min (Z.max (io_size i) 0) 3 in
      let w := set_w_ios (<[y := set_io_bytes n i]> (w_ios (n_world N))) (set_w_ops (<[y := set_op_active false o]> (w_ops (n_world N))) (n_world N)) in
      if bool_decide (io_size i < 0)%Z then Throw (logic_error "negative size") s else
      Ret tt (Sys (set_world w N)
        (if bool_decide (io_code i = op_file_write) then pwrite (io_offset i) (bytes mem (io_data i) n) (sy_disk s) else sy_disk s)
        (if bool_decide (io_code i = op_write) then sy_stream s ++ bytes mem (io_data i) n else sy_stream s))
  | _, _ => Undefined
  end.
Lemma lazy_waited y i o (s : @sys unit nat) w :
  w_ios (n_world (sy_net s)) !! y = Some i → w_ops (n_world (sy_net s)) !! y = Some o → op_active o = false →
  io_accepted i = invalid_socket → io_reserved i = false →
  w = set_w_ios (<[y := set_io_bytes (Z.min (Z.max (io_size i) 0) 3) i]> (w_ios (n_world (sy_net s))))
        (set_w_ops (<[y := set_op_active false o]> (w_ops (n_world (sy_net s)))) (n_world (sy_net s))) →
  waited y i (sy_net s) (set_world w (sy_net s)).
Proof.
  intros Hi Ho Ha Hacc Hr ->. split; try done.
  - intros L l HL. by exists l.
  - eexists _, _. simpl. rewrite !lookup_insert_eq. split_and!; [done|done|done|done|done|]. simpl. by rewrite Hr.
Qed.
Lemma unchanged_waited y i (N : net unit) :
  created y i N → waited y i N N.
Proof.
  intros (Hi&Ha&Hr&L'&Ho). split; try done; [by intros L2 l HL; exists l|]. exists i, (Op L' None false false None).
  split_and!; try done. by rewrite Hr.
Qed.
Lemma lazy_file y s i :
  created y i (sy_net s) → io_code i = op_file_write →
  post (lazy_kernel y) s
    (λ _ s', waited y i (sy_net s) (sy_net s') ∧ sy_stream s' = sy_stream s ∧
       match transferred (sy_net s') y with
       | Some n => (0 ≤ n ≤ io_size i)%Z ∧ sy_disk s' = pwrite (io_offset i) (bytes mem (io_data i) n) (sy_disk s)
       | None => sy_disk s' = sy_disk s
       end)
    (λ _ s', waited y i (sy_net s) (sy_net s') ∧ sy_disk s' = sy_disk s).
Proof.
  intros C Hc. pose proof C as (Hi&Ha&Hr&L&Ho). unfold post, lazy_kernel. rewrite Hi, Ho. case_bool_decide as Hs.
  - split; [|done]. by apply (unchanged_waited y i).
  - rewrite (bool_decide_true (io_code i = op_file_write)) by done. rewrite (bool_decide_false (io_code i = op_write)) by congruence.
    split; [by eapply lazy_waited|]. split; [done|]. unfold transferred. simpl. rewrite !lookup_insert_eq. simpl. split; [lia|done].
Qed.
Lemma lazy_socket y s i :
  created y i (sy_net s) → io_code i = op_write →
  post (lazy_kernel y) s
    (λ _ s', waited y i (sy_net s) (sy_net s') ∧
       match transferred (sy_net s') y with
       | Some n => (0 ≤ n ≤ io_size i)%Z ∧ sy_stream s' = sy_stream s ++ bytes mem (io_data i) n
       | None => sy_stream s' = sy_stream s
       end)
    (λ _ s', waited y i (sy_net s) (sy_net s') ∧ sy_stream s' = sy_stream s).
Proof.
  intros C Hc. pose proof C as (Hi&Ha&Hr&L&Ho). unfold post, lazy_kernel. rewrite Hi, Ho. case_bool_decide as Hs.
  - split; [|done]. by apply (unchanged_waited y i).
  - rewrite (bool_decide_true (io_code i = op_write)) by done.
    split; [by eapply lazy_waited|]. unfold transferred. simpl. rewrite !lookup_insert_eq. simpl. split; [lia|done].
Qed.
(** File 7 on descriptor 8, and the accepted socket 4. *)
Definition sys0 : @sys unit nat := Sys (set_files {[7 := NFile 0 8 0]} net5) ∅ [].
Lemma file_write_all_spec_witness :
  post (file_write_all lazy_kernel 7 9 None 100 8 4096) sys0
    (λ _ s', sy_disk s' = pwrite 4096 (bytes mem 100 8) (sy_disk sys0))
    (λ _ s', ∃ n, (0 ≤ n < 8)%Z ∧ sy_disk s' = pwrite 4096 (bytes mem 100 n) (sy_disk sys0)).
Proof.
  apply (file_write_all_spec mem lazy_kernel lazy_file 7 9 None 100 8 4096 sys0); [|by_check|lia|lia].
  eexists _, (loop_of base 0). split_and!; [by_check|done|by_check|done].
Defined.
Lemma socket_write_all_spec_witness :
  post (socket_write_all lazy_kernel 4 9 None 100 8) sys0
    (λ _ s', sy_stream s' = sy_stream sys0 ++ bytes mem 100 8)
    (λ _ s', ∃ n, (0 ≤ n < 8)%Z ∧ sy_stream s' = sy_stream sys0 ++ bytes mem 100 n).
Proof.
  apply (socket_write_all_spec mem lazy_kernel lazy_socket 4 9 None 100 8 sys0); [|by_check|lia].
  eexists _, (loop_of base 0). split_and!; [by_check|done|by_check|done|by eexists; by_check].
Defined.
