(* ===== verification/NativeWitness.v ===== *)
(** * Concrete runs of the kqueue and completion-port backends

    A kernel in which every descriptor becomes readable at the next wait, and a system
    that starts every overlapped call and completes it at the next poll. *)
From S2P Require Import Prelude ReadyQueue Links Heap Core Loop LoopInv LoopSpec Event WaitQueue Io Run RunSpec Checker Scenario LoopWitness.
From S2P Require Import Native Kqueue KqueueSpec Iocp IocpSpec.

Definition plain_loop {D} (d : D) : loop D :=
  {| l_driver := d; l_thread := 0; l_ready := ReadyQueue None None; l_timers := []; l_posts := [];
     l_messages := ReadyQueue None None; l_batch := ReadyQueue None None; l_holds := 0; l_stopping := false;
     l_cancel := false; l_roots := 0; l_budget := 64; l_running := false; l_error := None; l_io := None;
     l_waits := None; l_woken := false |}.
(** Loop 0, and request 5: a read of 100 bytes from descriptor 7. *)
Definition plain_world {D} (d : D) : world D :=
  new_io 5 0 (io_init op_read 7 1 100 None (Some 30))
  {| w_thread := 0; w_current := ∅; w_stops := ∅; w_loops := {[0 := plain_loop d]}; w_next := ∅; w_works := ∅; w_ops := ∅;
     w_waits := ∅; w_wlinks := ∅; w_timers := ∅; w_ios := ∅; w_iolinks := ∅; w_messages := ∅; w_flags := {[30 := false]}; w_cells := ∅;
     w_events := ∅; w_awaiters := ∅; w_alinks := ∅; w_queues := ∅; w_remotes := ∅; w_rlinks := ∅ |}.
Definition no_lists : gmap loopid aloop := ∅.
Definition one_io : gmap loopid aloop := {[0 := ALoop [] [] [] [] [5] []]}.
Definition first_op {D} (w : world D) : op := default (Op 0 None false false None) (w_ops w !! 5).
Definition first_io {D} (w : world D) : io := default (io_init op_nop 0 0 0 None None) (w_ios w !! 5).

(** ** kqueue *)
Record toy_kernel := ToyKernel { tk_registered : gmap (Z * bool) loc; tk_readable : bool }.
Definition toy_change (c : change) (k : toy_kernel) : Z * toy_kernel :=
  match c with
  | change_add key x => (0%Z, ToyKernel (<[key := x]> (tk_registered k)) (tk_readable k))
  | change_delete key =>
      match tk_registered k !! key with
      | Some _ => (0%Z, ToyKernel (delete key (tk_registered k)) (tk_readable k))
      | None => (- ENOENT, k)%Z
      end
  | change_trigger => (0%Z, k)
  end.
Definition toy_events (k : toy_kernel) : list kevent_t :=
  (λ p : (Z * bool) * loc, Kevent false p.1 p.2 None) <$> map_to_list (tk_registered k).
#[global] Instance toy_kernel_calls : Kernel toy_kernel := {|
  attempts := 1;
  sys_call _ k := (Reply (if tk_readable k then 3 else - EAGAIN)%Z [] 0 false 0, k);
  kevent_change := toy_change;
  kevent_wait _ k := (inr (toy_events k), ToyKernel ∅ true) |}.
Lemma toy_keys k : io_keys (toy_events k) = (map_to_list (tk_registered k)).*1.
Proof. unfold io_keys, toy_events. induction (map_to_list (tk_registered k)) as [|p ps IH]; simpl; [done|]. by f_equal. Qed.
#[global] Instance toy_kernel_ok : KernelOk toy_kernel.
Proof.
  refine {| registrations := tk_registered |}.
  - done.
  - intros c k. exists 0. split; [lia|]. simpl. by destruct (tk_readable k).
  - intros c k. exists 0. split; [lia|]. simpl. unfold toy_change. destruct c as [?|key|]; simpl; [done| |done]. by destruct (tk_registered k !! key).
  - intros c k. simpl. unfold toy_change. destruct c as [?|key|]; simpl; [lia| |done]. by destruct (tk_registered k !! key).
  - done.
  - intros key k. simpl. by destruct (tk_registered k !! key).
  - intros key k. simpl. by destruct (tk_registered k !! key).
  - intros t k. simpl. rewrite toy_keys. split_and!.
    + apply NoDup_fst_map_to_list.
    + intros e (p&->&Hp)%list_elem_of_fmap _. simpl. apply elem_of_map_to_list. by destruct p.
    + intros key. rewrite lookup_empty. case_bool_decide as Hk; [done|]. destruct (tk_registered k !! key) as [x|] eqn:E; [|done].
      destruct Hk. apply list_elem_of_fmap. exists (key, x). split; [done|]. by apply elem_of_map_to_list.
Defined.

Definition kq_reading : world (kqueue toy_kernel) := plain_world (Kqueue 4 (ToyKernel ∅ false)).
Definition kq_waiting : world (kqueue toy_kernel) := exec (io_await_suspend 5 100) kq_reading.
Example kq_registered : tk_registered ∘ kq_kernel ∘ l_driver <$> w_loops kq_waiting !! 0 = Some {[(7%Z, false) := 5]}.
Proof. by_check. Qed.
Example kq_completed : io_bytes <$> w_ios (exec (kq_poll 0 (-1)) kq_waiting) !! 5 = Some 3%Z ∧
  op_active <$> w_ops (exec (kq_poll 0 (-1)) kq_waiting) !! 5 = Some false.
Proof. split; by_check. Qed.

Lemma kq_reading_inv : KInv 0 kq_reading (ghost_of no_lists) ∅.
Proof.
  split; [apply check_inv_sound; by_check|]. eexists. split; [by_check|].
  assert (∀ x, x ∉ a_ios (ghost_of no_lists 0)) as Hn by (intros x; vm_compute a_ios; apply not_elem_of_nil).
  split.
  - by intros x []%Hn.
  - intros key x Hx. change ((∅ : gmap (Z * bool) loc) !! key = Some x) in Hx. by rewrite lookup_empty in Hx.
  - by intros x i []%Hn.
  - by intros x y i j []%Hn.
Qed.
Lemma kq_waiting_inv : KInv 0 kq_waiting (ghost_of one_io) ∅.
Proof.
  split; [apply check_inv_sound; by_check|]. eexists. split; [by_check|].
  assert (∀ x, x ∈ a_ios (ghost_of one_io 0) → x = 5) as H5 by (intros x; vm_compute a_ios; set_solver).
  split.
  - intros x ->%H5. eexists. split_and!; [by_check|done|done].
  - intros key x Hx. change (({[(7%Z, false) := 5]} : gmap (Z * bool) loc) !! key = Some x) in Hx.
    apply lookup_singleton_Some in Hx as [<- <-]. split_and!; [vm_compute; by left|set_solver|]. eexists. split; by_check.
  - intros x i ->%H5 _ Hi. vm_compute in Hi. injection Hi as <-. by_check.
  - intros x y i j ->%H5 ->%H5. done.
Qed.
Definition kq_loop : loop (kqueue toy_kernel) := default (plain_loop (Kqueue 4 (ToyKernel ∅ false))) (w_loops kq_waiting !! 0).
Lemma kq_poll_spec_witness :
  post (kq_poll 0 (-1)) kq_waiting
    (λ _ w', match kevent_wait (timeout_of (-1)) (kq_kernel (l_driver kq_loop)) with
       | (inr events, k) => polled 0 kq_waiting (ghost_of one_io) events k w'
       | (inl errno, k) => errno = EINTR ∧ polled 0 kq_waiting (ghost_of one_io) [] k w'
       end)
    (λ e w', KInv 0 w' (ghost_of one_io) ∅ ∧ w_ops w' = w_ops kq_waiting ∧ w_ios w' = w_ios kq_waiting ∧
       ∃ errno, (kevent_wait (timeout_of (-1)) (kq_kernel (l_driver kq_loop))).1 = inl errno ∧ errno ≠ EINTR ∧
         e = system_error (bsd_error errno)).
Proof. apply (kq_poll_spec 0 (-1) kq_waiting (ghost_of one_io) kq_loop); [exact kq_waiting_inv|by_check]. Defined.
Lemma kq_cancel_spec_witness :
  post (kq_cancel 0 5) kq_waiting
    (λ _ w', KInv 0 w' (g_complete 0 5 (ghost_of one_io)) ∅ ∧
       (∃ o' i', w_ops w' !! 5 = Some o' ∧ w_ios w' !! 5 = Some i' ∧ op_active o' = false ∧
                 op_error o' = Some operation_canceled ∧ io_cancel_sent i' = true) ∧
       (∀ l' key, w_loops w' !! 0 = Some l' → registrations (kq_kernel (l_driver l')) !! key ≠ Some 5))
    (λ _ w', KInv 0 w' (ghost_of one_io) ∅).
Proof. apply (kq_cancel_spec 0 5 kq_waiting (ghost_of one_io) kq_waiting_inv). vm_compute. by left. Defined.
Lemma kq_await_suspend_spec_witness :
  post (io_await_suspend 5 100) kq_reading
    (λ b w', busy_now kq_reading (first_io kq_reading) = false ∧
       if b : bool
       then (l_stopping (plain_loop (Kqueue 4 (ToyKernel ∅ false))) || requested kq_reading (io_token (first_io kq_reading))) = false ∧
            ((KInv (op_owner (first_op kq_reading)) w' (g_complete (op_owner (first_op kq_reading)) 5 (g_start (op_owner (first_op kq_reading)) 5 (ghost_of no_lists))) ∅ ∧
              op_active <$> w_ops w' !! 5 = Some false) ∨
             (KInv (op_owner (first_op kq_reading)) w' (g_start (op_owner (first_op kq_reading)) 5 (ghost_of no_lists)) ∅ ∧
              op_active <$> w_ops w' !! 5 = Some true))
       else (l_stopping (plain_loop (Kqueue 4 (ToyKernel ∅ false))) || requested kq_reading (io_token (first_io kq_reading))) = true ∧
            w' = set_w_ops (<[5 := refused (first_op kq_reading)]> (w_ops kq_reading)) kq_reading)
    (λ e w', busy_now kq_reading (first_io kq_reading) = true ∧ e = logic_error "socket direction already in use" ∧ w' = kq_reading).
Proof.
  apply (kq_await_suspend_spec kq_reading (ghost_of no_lists) 5 (first_op kq_reading) (first_io kq_reading) (Link None None)
           (plain_loop (Kqueue 4 (ToyKernel ∅ false))) 100).
  - exact kq_reading_inv.
  - constructor; try by_check. vm_compute. set_solver.
  - by_check.
  - by_check.
  - intros f. vm_compute. intros [= <-]. by eexists.
  - by_check.
  - vm_compute. discriminate.
  - intros y j Hy. vm_compute in Hy. by apply elem_of_nil in Hy.
Defined.

(** ** Completion ports: the state is the set of outstanding packets *)
Definition toy_entries (k : gset loc) : list entry := (λ x, Entry (Some x) 10 false [] 0) <$> elements k.
#[global] Instance toy_windows : Windows (gset loc) := {|
  start x _ k := (Some ERROR_IO_PENDING, {[x]} ∪ k);
  post_status p k := (None, match p with Some x => {[x]} ∪ k | None => k end);
  ask _ k := (inr 0%Z, k);
  cancel_io _ _ k := (None, k);
  dequeue _ k := (inr (toy_entries k), ∅) |}.
Lemma toy_packets k : packets (toy_entries k) = elements k.
Proof. unfold packets, toy_entries. induction (elements k) as [|x xs IH]; simpl; [done|]. by f_equal. Qed.
#[global] Instance toy_windows_ok : WindowsOk (gset loc).
Proof.
  refine {| outstanding := λ k : gset loc, k |}.
  - done.
  - by intros [x|] k.
  - done.
  - done.
  - intros t k. simpl. rewrite toy_packets. split_and!; [apply NoDup_elements|intros x; by rewrite elem_of_elements|].
    rewrite list_to_set_elements_L. set_solver.
Defined.

Definition port_reading : world (iocp (gset loc)) := plain_world (Iocp 4 ∅).
Definition port_waiting : world (iocp (gset loc)) := exec (io_await_suspend 5 100) port_reading.
Example port_completed : io_bytes <$> w_ios (exec (iocp_poll 0 (-1)) port_waiting) !! 5 = Some 10%Z ∧
  op_active <$> w_ops (exec (iocp_poll 0 (-1)) port_waiting) !! 5 = Some false.
Proof. split; by_check. Qed.
Lemma port_reading_inv : CpInv 0 port_reading (ghost_of no_lists) ∅.
Proof.
  split; [apply check_inv_sound; by_check|]. eexists. split; [by_check|].
  assert (∀ x, x ∉ a_ios (ghost_of no_lists 0)) as Hn by (intros x; vm_compute a_ios; apply not_elem_of_nil).
  split.
  - by intros x []%Hn.
  - intros x. change (x ∈ a_ios (ghost_of no_lists 0) ↔ x ∈ (∅ : gset loc) ∪ ∅). specialize (Hn x). set_solver.
  - intros x Hx. set_solver.
Qed.
Lemma port_waiting_inv : CpInv 0 port_waiting (ghost_of one_io) ∅.
Proof.
  split; [apply check_inv_sound; by_check|]. eexists. split; [by_check|].
  assert (∀ x, x ∈ a_ios (ghost_of one_io 0) ↔ x = 5) as H5 by (intros x; vm_compute a_ios; set_solver).
  split.
  - intros x ->%H5. eexists. split_and!; [by_check|done|done].
  - intros x. rewrite H5. change (x = 5 ↔ x ∈ ({[5]} : gset loc) ∪ ∅). set_solver.
  - intros x Hx. set_solver.
Qed.
Lemma iocp_poll_spec_witness :
  post (iocp_poll 0 (-1)) port_waiting
    (λ _ w', ∃ ds, NoDup ds ∧ (∀ x, x ∈ ds → x ∈ a_ios (ghost_of one_io 0)) ∧ CpInv 0 w' (g_completes 0 ds (ghost_of one_io)) ∅ ∧
       a_ready (g_completes 0 ds (ghost_of one_io) 0) = a_ready (ghost_of one_io 0) ++ ds ∧
       ∃ l', w_loops w' !! 0 = Some l' ∧ ∀ x, x ∈ outstanding (io_system (l_driver l')) ↔ x ∈ a_ios (ghost_of one_io 0) ∧ x ∉ ds)
    (λ _ w', CpInv 0 w' (ghost_of one_io) ∅).
Proof. apply (iocp_poll_spec 0 (-1) port_waiting (ghost_of one_io)). exact port_waiting_inv. Defined.
Lemma iocp_await_suspend_spec_witness :
  post (io_await_suspend 5 100) port_reading
    (λ b w', busy_now port_reading (first_io port_reading) = false ∧
       if b : bool
       then (l_stopping (plain_loop (Iocp 4 (∅ : gset loc))) || requested port_reading (io_token (first_io port_reading))) = false ∧
            began (op_owner (first_op port_reading)) 5 ∅ (g_start (op_owner (first_op port_reading)) 5 (ghost_of no_lists)) w'
       else (l_stopping (plain_loop (Iocp 4 (∅ : gset loc))) || requested port_reading (io_token (first_io port_reading))) = true ∧
            w' = set_w_ops (<[5 := refused (first_op port_reading)]> (w_ops port_reading)) port_reading)
    (λ e w', if busy_now port_reading (first_io port_reading) then e = logic_error "socket direction already in use" ∧ w' = port_reading
             else CpInv (op_owner (first_op port_reading)) w' (ghost_of no_lists) ∅ ∧ op_active <$> w_ops w' !! 5 = Some false ∧
                  ∀ l', w_loops w' !! op_owner (first_op port_reading) = Some l' → 5 ∉ outstanding (io_system (l_driver l'))).
Proof.
  apply (iocp_await_suspend_spec port_reading (ghost_of no_lists) 5 (first_op port_reading) (first_io port_reading) (Link None None)
           (plain_loop (Iocp 4 (∅ : gset loc))) 100).
  - exact port_reading_inv.
  - constructor; try by_check. vm_compute. set_solver.
  - by_check.
  - by_check.
  - intros f. vm_compute. intros [= <-]. by eexists.
  - by_check.
  - vm_compute. discriminate.
Defined.
