(* ===== verification/BatchWitness.v ===== *)
(** * A concrete batch

    A write linked to a DRAIN fsync, published on the small ring of [UringWitness]. *)
From S2P Require Import Prelude ReadyQueue Links Heap Core Loop LoopInv LoopSpec Event WaitQueue Io Run RunSpec Checker Scenario LoopWitness.
From S2P Require Import Uring UringSpec UringPoll UringSetup UringWitness Native Batch.

Definition raw_entries : list sqe :=
  [prepared (prep_write 7 0 100 0); set_sqe_flags (2 ^ IOSQE_IO_DRAIN) (prepared (prep_fsync 7 0))].
Definition chain_entries : list sqe := match batch_prepare link_soft raw_entries with inr es => es | inl _ => [] end.
Example chain_flags : sqe_flags <$> chain_entries = [4; 2]%Z ∧ drains chain_entries = true.
Proof. split; reflexivity. Qed.
(** Nodes 5 and 6 with result slots 40 and 41, the counter 42 and the event 50. *)
Definition batch_world : world (driver kernel) :=
  exec (batch_nodes 0 [(5, 40); (6, 41)] chain_entries 42 50) (uring_base new_driver).
Definition chain : list (loc * sqe) := zip [5; 6] chain_entries.
Lemma batch_publish_spec_witness :
  post (batch_publish 0 chain.*1 (drains chain.*2) None) batch_world
    (λ _ w', Inv ∅ w' (g_starts 0 chain.*1 (ghost_of ∅)) ∧ (∀ x, x ∈ chain.*1 → op_active <$> w_ops w' !! x = Some true) ∧
       ∃ k l', length chain ≤ sq_space_left k ∧ w_loops w' !! 0 = Some l' ∧ d_ring (l_driver l') = appended chain k)
    (λ _ w', Inv ∅ w' (ghost_of ∅) ∧ ∀ x, x ∈ chain.*1 → op_active <$> w_ops w' !! x = Some false).
Proof.
  apply (batch_publish_spec 0 chain batch_world (ghost_of ∅) (uring_loop new_driver) None).
  - apply check_inv_sound. by_check.
  - by_check.
  - by_check.
  - vm_compute. apply NoDup_cons. split; [set_solver|apply NoDup_singleton].
  - intros p Hp. vm_compute in Hp. apply elem_of_cons in Hp as [->|Hp]; [|apply list_elem_of_singleton in Hp as ->];
      (split; [eexists; split; [by_check|split; by_check]|eexists; split; [by_check|split; [by_check|split; [by_check|by_check || discriminate]]]
              |vm_compute; set_solver|eexists; split; by_check]).
Defined.
Example batch_in_queue : k_sq ∘ d_ring ∘ l_driver <$> w_loops (exec (batch_publish 0 chain.*1 (drains chain.*2) None) batch_world) !! 0 =
  Some [set_sqe_data 12 (set_sqe_flags 4 (prepared (prep_write 7 0 100 0))); set_sqe_data 14 (set_sqe_flags 2 (prepared (prep_fsync 7 0)))].
Proof. by_check. Qed.
