(* ===== verification/StreamWitness.v ===== *)
(** * Concrete runs of the multishot requests

    Receives on a ring of four buffers, with and without bundles, a periodic timer whose
    ticks come in two submissions, accepted sockets and a datagram. *)
From S2P Require Import Prelude Uring Provided Stream Multi Receive CoroWitness.

(** ** A receive: a full buffer, a partial one, and one more after the function declined *)
(** Keeps the first chunk, destroys it at the second and stops there. *)
Definition twice : user := λ log c, (Provided.Decision (ck_id <$> log) (bool_decide (log = [])) None, bool_decide (log = [])).
Definition three_events : list round := [Round s_armed [ev_got 100 1; ev_got 40 1; ev_got 100 1; ev_plain (-125)] []].
Lemma three_plausible : Forall (λ r, Forall (plausible (λ _ _, 1%Z) 100) (rd_events r)) three_events.
Proof. repeat constructor; vm_compute; congruence. Qed.
(** A function that throws at the second chunk, while the kernel cancels the request; a
    direction that is in use when the request is armed again *)
Definition thrower : user := λ log _, (Provided.Decision [] false (if bool_decide (log = []) then None else Some (user_error 3)), true).
Example receive_threw :
  runs (receive false thrower true [Round s_armed [ev_got 100 1; ev_got 40 1; ev_plain (-125)] []]) (Rx new_ring_of new_stream [])
    (λ r s', r = Some (v_throw (user_error 3)) ∧ pv_active (rx_table s') = 0).
Proof. vm_compute. split_and!; reflexivity. Qed.
Example receive_busy :
  runs (receive false twice true [Round s_armed [ev_got 100 1; ev_plain (- ENOBUFS)] []; Round s_busy [] []]) (Rx new_ring_of new_stream [])
    (λ r s', r = Some (v_throw direction_in_use) ∧ rx_log s' = [Chunk true 0 0 100] ∧ pv_active (rx_table s') = 0).
Proof. vm_compute. split_and!; reflexivity. Qed.
Example receive_three :
  runs (receive false twice true three_events) (Rx new_ring_of new_stream []) (λ r s',
    r = Some v_return ∧ rx_log s' = [Chunk true 0 0 100; Chunk true 1 100 40] ∧ pv_ring (rx_table s') = [3; 0; 1; 2] ∧ pv_active (rx_table s') = 0).
Proof. vm_compute. split_and!; reflexivity. Qed.

(** ** A bundle of 250 bytes to the same function; then one that keeps every buffer, so that
    the task waits for one to come back *)
Definition bundle_events : list round := [Round s_armed [ev_got 250 1; ev_plain (-125)] []].
Lemma receive_refines_witness :
  runs (receive true twice true bundle_events) (Rx new_ring_of new_stream []) (λ r s',
    let w := replay positive "multishot missing buffer ID" (λ _, true) twice parts receive_end (pv_count new_ring_of) (pv_size new_ring_of) []
               (Table [] [0; 1; 2; 3]) bundle_events in
    r = w.1 ∧ rx_log s' = sn_log w.2 ∧ TInv (rx_table s') (sn_table w.2) []).
Proof.
  apply (receive_refines true twice new_ring_of (Table [] [0; 1; 2; 3]) new_stream [] bundle_events); [exact new_ring_inv|].
  repeat constructor; vm_compute; congruence.
Defined.
Definition hoarder : user := λ _ _, (Provided.Decision [] true None, true).
Definition hoarded : list round :=
  [Round s_armed [ev_got 400 1; ev_got 100 1] [Some []; Some [2; 2; 7]]; Round s_armed [ev_got 30 1; ev_plain 0] []].
Example receive_hoarded :
  runs (receive true hoarder true hoarded) (Rx new_ring_of new_stream []) (λ r s',
    r = Some v_return ∧ ck_id <$> rx_log s' = [0; 1; 2; 3; 2] ∧ ck_bytes <$> rx_log s' = [100; 100; 100; 100; 30]%Z ∧
    pv_ring (rx_table s') = [] ∧ pv_leases (rx_table s') = 4).
Proof. vm_compute. split_and!; reflexivity. Qed.

(** ** Three ticks, delivered as two and one *)
Definition tick_shots : list (list Z) := [[-62; -62]; [-62]]%Z.
Lemma ticks_spec_witness :
  (∀ v n, ticks 1000 3 (λ _, inl true) tick_shots = Some (v, n) →
    (3 ≠ 0 → n ≤ 3) ∧ (∀ k, S k < n → (λ _ : nat, inl true) k = (inl true : bool + exn)) ∧
    match v with
    | v_return => (3 ≠ 0 ∧ n = 3 ∧ ∀ k, k < n → (λ _ : nat, inl true) k = (inl true : bool + exn)) ∨ (∃ m, n = S m ∧ (λ _ : nat, inl true) m = (inl false : bool + exn))
    | v_throw e => (∃ m, n = S m ∧ (λ _ : nat, inl true) m = (inr e : bool + exn)) ∨ (∃ code, e = system_error code)
    | v_again => False
    end) ∧
  (3 ≠ 0 → 3 ≤ length tick_shots → Forall (λ cqes, (- ETIME)%Z ∈ cqes) tick_shots → is_Some (ticks 1000 3 (λ _, inl true) tick_shots)).
Proof.
  apply (ticks_spec (λ _, inl true) 1000 3 tick_shots); [lia|].
  split; [intros _; vm_compute; lia|]. split; [intros _; vm_compute; lia|exact I].
Defined.
Example ticks_result : ticks 1000 3 (λ _, inl true) tick_shots = Some (v_return, 3).
Proof. reflexivity. Qed.

(** ** Four accepted sockets: the function keeps the first and declines the second *)
Definition first_only : afn := λ log _, (bool_decide (log = []), if bool_decide (log = []) then goes_on else declines).
Definition accept_cqes : list Z := [5; -11; 6; 7]%Z.
Definition accept_shots : list (list Z) := [[5]; [6; 7; -125]]%Z.
Lemma accept_spec_witness :
  runs (accept first_only (λ _, None) accept_shots) (Ax new_stream {[3%Z]} []) (λ r s', ∃ k,
    let st := foldl (serve first_only (λ _, None)) ([], [], false) (concat (take k accept_shots)) in
    ax_given s' = st.1.1 ∧ ax_open s' = {[3%Z]} ∪ list_to_set st.1.2 ∧ st_stopped (ax_stream s') = st.2 ∧
    match r with
    | None => k = length accept_shots ∧ st.2 = false
    | Some v_return => st.2 = true ∧ st_failure (ax_stream s') = None
    | Some (v_throw e) => st_failure (ax_stream s') = Some e ∨ ∃ code, e = system_error code ∧ st_error (ax_stream s') = Some code
    | Some v_again => False
    end).
Proof.
  apply (accept_spec first_only (λ _, None) accept_shots (Ax new_stream {[3%Z]} []) [] [] {[3%Z]}).
  - reflexivity.
  - reflexivity.
  - apply (bool_decide_unpack _). vm_compute. exact I.
  - intros res Hr _. simpl. assert (Forall (λ r, r ≠ 3%Z) (concat accept_shots)) as HF by (repeat constructor; discriminate).
    rewrite Forall_forall in HF. specialize (HF res Hr). set_solver.
Defined.
Example accept_returns :
  runs (accept first_only (λ _, None) accept_shots) (Ax new_stream {[3%Z]} []) (λ r s',
    r = Some v_return ∧ ax_given s' = [5; 6]%Z ∧ ax_open s' = {[3%Z; 5%Z]}).
Proof. vm_compute. split_and!; reflexivity. Qed.
Example accept_outcome : foldl (serve first_only (λ _, None)) ([], [], false) accept_cqes = ([5; 6]%Z, [5%Z], true).
Proof. reflexivity. Qed.

(** ** A datagram of 1000 bytes, truncated to a buffer of 512 *)
#[local] Instance plain_layout : Recvmsg := {|
  recvmsg_validate b l := if bool_decide (sizeof_header + ly_namelen l + ly_controllen l ≤ b.2)%Z then Some (Header 16 0 1000 0x20) else None;
  recvmsg_name := sizeof_header;
  recvmsg_payload l := (sizeof_header + ly_namelen l + ly_controllen l)%Z;
  recvmsg_payload_length n l := (n - (sizeof_header + ly_namelen l + ly_controllen l))%Z |}.
#[local] Instance plain_layout_ok : RecvmsgOk.
Proof. split; try done. intros b l h. simpl. by case_bool_decide. Qed.
Definition datagram : chunk := Chunk true 1 512 512.
Definition datagram_message : message := Message datagram (720, 304)%Z (528, 16)%Z (656, 0)%Z 0x20 1000.
Lemma message_spans_witness :
  (recvmsg_payload (Layout sizeof_storage 64) ≤ 512)%Z ∧ mg_storage datagram_message = datagram ∧
  inside (mg_name datagram_message) (512, 512)%Z ∧ inside (mg_control datagram_message) (512, 512)%Z ∧ inside (mg_bytes datagram_message) (512, 512)%Z ∧
  ((mg_name datagram_message).1 + (mg_name datagram_message).2 ≤ (mg_control datagram_message).1)%Z ∧
  ((mg_control datagram_message).1 + (mg_control datagram_message).2 ≤ (mg_bytes datagram_message).1)%Z ∧
  ((mg_bytes datagram_message).2 ≤ mg_wire_size datagram_message)%Z.
Proof.
  apply (message_spans datagram 64 512 (Layout sizeof_storage 64) datagram_message).
  - reflexivity.
  - lia.
  - intros h [= <-]. vm_compute. split_and!; discriminate.
  - reflexivity.
Defined.
