(* ===== verification/HookWitness.v ===== *)
(** * A concrete zero-copy send and the completions of a batch

    A send of 100 bytes in flight on the small ring of [UringWitness], and the batch of
    [BatchWitness] completing out of order. *)
From S2P Require Import Prelude ReadyQueue Links Heap Core Loop LoopInv LoopSpec Event WaitQueue Io Run RunSpec Checker Scenario LoopWitness.
From S2P Require Import Uring UringSpec UringPoll UringSetup UringWitness Registered Hooks Native Batch BatchWitness BatchDone ZcSend.

(** Request 5, events 50 and 51, [started_] 60 and the write direction 61. *)
Definition send5 : zc := Zc 5 50 51 60 0 61.
Definition send5_io : io :=
  {| io_code := op_native; io_fd := -1; io_data := 0; io_size := 0; io_offset := 0; io_address := [];
     io_address_size := 0; io_accepted := -1; io_bytes := 0; io_token := None; io_canceling := false;
     io_cancel_sent := false; io_started := false; io_done := false; io_busy := Some 61; io_reserved := false;
     io_prepare := Some (prepared (prep_send_zc 7 1 100 MSG_NOSIGNAL)); io_result := Some (result_zc 50);
     io_retire := Some (retire_zc 50 51); io_draining := false |}.
Definition send_ready : world (driver kernel) :=
  set_w_flags (<[60 := false]> {[61 := false]})
    (set_w_events (<[50 := Event 0 false None]> {[51 := Event 0 false None]}) (new_io 5 0 send5_io (uring_base new_driver))).
Definition send_started : world (driver kernel) := exec (zc_start send5) send_ready.
Definition flight_lists : gmap loopid aloop := {[0 := ALoop [] [] [] [] [5] []]}.
Example send_queue : k_sq ∘ d_ring ∘ l_driver <$> w_loops send_started !! 0 =
  Some [set_sqe_data 12 (prepared (prep_send_zc 7 1 100 MSG_NOSIGNAL))].
Proof. by_check. Qed.

(** A state of an object, by evaluation. *)
Ltac by_state g :=
  split; [exists g; apply check_inv_sound; by_check|apply check_events_sound; by_check|
    eexists; split; [by_check|by split_and!]|eexists; split; [by_check|by split_and!]|by_check|by_check|
    eexists; split; [by_check|by split_and!]|eexists; split; [by_check|by split_and!]|done].
Lemma send_ready_at : zc_at send_ready (lists_of ∅) send5 (v_idle false).
Proof.
  by_state (ghost_of ∅).
Defined.
Lemma zc_start_spec_witness :
  post (@zc_start (driver kernel) (uring_driver no_consumer) send5) send_ready
    (λ _ w', false = false ∧ false = false ∧ w_flags w' !! z_started send5 = Some true ∧
       zc_at w' (lists_of ∅) send5 (if l_stopping (uring_loop new_driver) || requested send_ready (io_token send5_io) then v_refused false else v_flight))
    (λ e w', if false then e = logic_error "zero-copy send already started" ∧ w' = send_ready
             else w_flags w' !! z_started send5 = Some true ∧
                  zc_at w' (lists_of ∅) send5 (v_failed (negb false)) ∧
                  (false = true → e = logic_error "socket direction already in use")).
Proof.
  eapply (zc_start_spec no_consumer send_ready (ghost_of ∅) (lists_of ∅) send5 _ send5_io _ (uring_loop new_driver) false false).
  - apply check_inv_sound. by_check.
  - apply send_ready_at.
  - split; [by_check|by_check|by_check|vm_compute; set_solver|by_check|by_check|done].
  - by_check.
  - by_check.
  - discriminate.
  - by_check.
Defined.

(** The primary completion announces a notification, which follows. *)
Definition send_completions : list cqe := [Cqe (io_addr 5) 64 (2 ^ CQE_F_MORE) 0 0; Cqe (io_addr 5) 0 (2 ^ CQE_F_NOTIF) 0 0].
Lemma send_started_at : zc_at send_started (lists_of ∅) send5 v_flight.
Proof.
  by_state (ghost_of flight_lists).
Defined.
Lemma zc_send_refines_witness :
  runs (dispatch_all no_consumer (z_loop send5) send_completions) send_started (λ b w', b = false ∧
    zc_at w' (lists_of ∅) send5 (View false true false true true None 64 false false) ∧ promises (View false true false true true None 64 false false)).
Proof.
  apply (zc_send_refines no_consumer send_completions send_started (lists_of ∅) send5 v_flight).
  - apply send_started_at.
  - apply v_flight_promises.
  - repeat constructor; done.
  - by_check.
Defined.
(** A failed send is not reported before the cancellation has completed too. *)
Example send_canceled :
  (λ v, (v_sent v, v_released v)) <$> v_steps [Cqe (io_addr 5) (-125) 0 0 0] (v_set_canceling true v_flight) = Some (false, false).
Proof. by_check. Qed.

(** ** The batch of [BatchWitness] *)
Definition batch_running : world (driver kernel) :=
  exec (batch_publish 0 chain.*1 (drains chain.*2) None)
    (set_w_events {[50 := Event 0 false None]} (set_w_cells (<[40 := 0%Z]> (<[41 := 0%Z]> {[42 := 2%Z]})) batch_world)).
Definition batch_cqes : list cqe := [Cqe (io_addr 6) (-5) 0 0 0; Cqe (io_addr 5) 100 0 0 0].
Lemma batch_done_spec_witness :
  runs (dispatch_all no_consumer 0 batch_cqes) batch_running (λ b w', b = false ∧ batch_at w' (lists_of ∅) 0 [] 42 50 ∧
    Forall2 (λ c (e : loc * loc), w_cells w' !! e.2 = Some (cqe_res c)) batch_cqes [(6, 41); (5, 40)] ∧
    Forall (λ e : loc * loc, op_active <$> w_ops w' !! e.1 = Some false) [(6, 41); (5, 40)]).
Proof.
  apply (batch_done_spec no_consumer batch_cqes batch_running (lists_of ∅) 0 [(5, 40); (6, 41)] [(6, 41); (5, 40)] [] 42 50).
  - split; try by_check.
    + exists (ghost_of {[0 := ALoop [] [] [] [] [6; 5] []]}). apply check_inv_sound. by_check.
    + apply check_events_sound. by_check.
    + intros x out [[= -> ->]|[= -> ->]%list_elem_of_singleton]%elem_of_cons; (eexists; split; [by_check|by split_and!]).
    + intros x out [[= -> ->]|[= -> ->]%list_elem_of_singleton]%elem_of_cons; (eexists; split; [by_check|by split_and!]).
    + intros x out [[= -> ->]|[= -> ->]%list_elem_of_singleton]%elem_of_cons; (split; [eexists; by_check|done]).
    + apply NoDup_cons. split; [set_solver|apply NoDup_singleton].
    + apply NoDup_cons. split; [set_solver|apply NoDup_singleton].
    + eexists. split; [by_check|by split_and!].
  - apply Permutation_swap.
  - repeat constructor; done.
Defined.
